(* ===== verification/_CoqProject ===== *)
-Q . S2P
Prelude.v
StdContainers.v
Sections.v
Status.v
Posix.v
RemoveDir.v
StoreLog.v
SstMeta.v
StoreIterator.v
SsTable.v
Memtable.v
MultiIter.v
Storage.v
MemWal.v
LockServer.v
LockClient.v
LockSystem.v
ExtentServer.v
ExtentCache.v
Marshall.v
RpcServer.v
RpcClient.v
PrefixTree.v
TreeSpec.v
TreeBalance.v
Master.v
MasterBalance.v
YfsClient.v
FsBackend.v
FileSystem.v
Fuse.v
KvClient.v
Lru.v
Kv.v
Mvcc.v
Wal.v
RaftKv.v
RaftLife.v
Waiter.v
Sockaddr.v
Connection.v
ConnSend.v
ConnRead.v
ConnTable.v
RpcStub.v
RpcNetwork.v
RpcSections.v
ExtentRpc.v
ExtentNet.v
ExtentRoute.v
Gtg.v
LockRpc.v
LockNet.v
MasterRpc.v
MasterNet.v
Heartbeat.v
Fifo.v
ThrPool.v
PollMgr.v
