(* ===== verification/Prelude.v ===== *)
(** * Ctgfs: a verification library

    Ctgfs is a distributed file system in C++.  A FUSE process holds a file
    system client that stores inodes in extents under locks; extents live on
    extent servers, locks on a lock server, and a master keeps the tree of names
    and decides on which extent server an inode lives; all of them talk through an
    RPC library of their own.  Beside this path the repository has a storage
    engine (sorted tables, a memory table, logs), a replicated key-value store on
    raft with a multi-version layer, and a few containers.  All paths below are
    under src/ of the sources; each file of this library is named after what it
    models, and its definitions carry the names of the code.

    ** How code is modelled

    A C++ object is a Record of its members and a method a function from the
    record (and its arguments) to its results and the new record.  The type
    [outcome] below says how a run can end: [Done] with a value, [Throws] where
    the program stops itself (VERIFY, assert, an exception), [Undef] where the
    language leaves the behaviour undefined (a dangling pointer, a signed
    overflow, a null pointer), and [NoFuel].  Integers are [Z]; [wrap w] is
    storing in an unsigned type of [w] bits and [sgn w] reading it as signed.
    Bytes are [Byte.byte].  Uninitialised variables whose contents can show are
    arguments, so that what is proved holds whatever they contain.

    A method that holds one mutex throughout is one function.  Where threads
    interleave, the parts between locks, waits and calls are the functions, and a
    step relation runs them for any number of threads in any order; a condition
    variable may wake a thread without cause.  A method that gives its mutex up in
    between, or holds none, is a sequence of sections (Sections.v), each with its mutex
    and the data it touches; sections that overlap on the same data, one of them
    writing and no mutex in common, are [Undef].  Where an assignment or a copy
    without a mutex can meet another (the status in Waiter.v) it has a beginning and
    an end; the table that the polling thread reads in PollMgr.v without its mutex
    holds words, and each read is a step of its own.  What other programs answer (the
    kernel, a socket, the clock, raft, RocksDB, libfuse) is an argument of the step
    or a class of operations with its laws, and each such class has an instance.

    ** The parts, bottom up

    - Prelude.v (this file): bytes, machine integers, [outcome], tactics.
      StdContainers.v: [std::map] and [std::set] as ordered lists.  Sections.v:
      methods in sections, what they do alone, and races.
    - Status.v: util/status.h.  RemoveDir.v: the removal of a directory with all that
      is in it (util/util.h), on a file system with links and faults.

    _Storage_ (storage/): Posix.v is the world of files and faults the engine runs
    on.  StoreLog.v is the log record and its frames, SstMeta.v and SsTable.v are the
    table files with their header, writer, reader, flusher and manager, StoreIterator.v
    is the interface between producers and consumers of records, Memtable.v the
    memory table, MultiIter.v the merging iterator, MemWal.v the log of the memory
    table.  Storage.v says what they promise together: tables give back the records
    they were made from, after a restart too; the merging iterator yields the newest
    record of each key in order, over any producers that keep the contract; the log
    replays what was written since CURRENT.

    _Remote calls_ (rpc/): Marshall.v has the buffers and the operators of every
    type as [codec]s with one class of laws, the round trip.  RpcServer.v and
    RpcClient.v are the two ends over a network that loses, repeats and delays:
    a request runs at most once, a duplicate gets the reply of its request while that
    is remembered, the client acknowledges only what it received, a call ends by its deadline.
    RpcStub.v is a typed call from end to end, generic in its types, and the class
    [Stub] of services behind such calls with the session theorem: clients that take
    turns see the object itself; a call whose arguments a handler cannot read takes
    the server with it.  RpcNetwork.v joins the two ends and the handlers by a network
    that loses, repeats and reorders, for any number of calling threads and workers:
    a call that succeeds ran its handler once, on the object, at a moment between its
    beginning and its return.  Handlers may read what the world shows them at that
    moment (the clock, how their own calls to others end), and a service may bound
    its object ([within]).  A handler is one step there; RpcSections.v runs handlers
    section by section, those of several workers interleaved, and proves when that
    comes to the same: as long as no handler that has several sections, or touches
    data outside the server's mutex, overlaps another.  The services over that network are in files of their own:
    ExtentNet.v, LockNet.v, MasterNet.v and Gtg.v.  Connection.v, ConnSend.v and ConnRead.v are
    connections with their senders and callbacks (messages arrive whole and in
    order, senders are woken).  ConnTable.v is who owns a connection: the listener
    with its collector, the server's table of the latest connection of each client,
    its jobs, and the channel of a client; counts are right, nothing dangles, and a
    reply goes out on its request's connection or on the client's newest.  PollMgr.v
    is the poll manager with both back ends, Fifo.v the bounded queue, ThrPool.v the
    thread pool, and Sockaddr.v what becomes of an address.

    _Extents_ (fs/, client/): ExtentServer.v is the server and the collector of
    changes, a refinement of a map from ids to contents; ExtentRpc.v puts it behind
    the client's stubs (an instance of [Stub]); ExtentNet.v puts it on the network:
    the calls of all clients are one history of the map of contents, each taking effect
    between its beginning and its return (extents stay below 2^28 bytes, what a buffer
    of the library can hold), however the handlers interleave, but for [move], which
    gives the mutex up while it sends and must not overlap another handler (only the
    balancing thread of the master asks for moves, and it never runs): the file also
    shows a put that is lost and a pointer to freed memory when it does; ExtentCache.v is the write-back cache,
    over any connection that keeps the laws of [ExtentService].  ExtentRoute.v
    has several servers and the client that asks the master for the address of an
    inode: the calls are those of one store, except that a removal reaches only the
    server the client is connected to, and a removed file can come back; calls are
    not lost there.  Heartbeat.v is the thread that reports the collected changes
    to the master.

    _Locks_ (master/, client/): LockServer.v has the plain and the caching lock
    server and the table of client handles, LockClient.v the caching client with its
    threads, LockSystem.v both together, LockRpc.v the handlers behind the
    caching client's calls (an instance of [Stub]) and what the plain client's calls,
    which do not fit them, do to the server.  LockNet.v has the handlers on the network:
    between two grants of a lock to different names the first released it.

    _The master_ (master/): PrefixTree.v is the tree of names, with nodes in a heap
    that the server lists share; TreeSpec.v proves it a map from paths with sizes
    that add up; TreeBalance.v shows where balancing goes wrong; Master.v has inode
    numbers, registration, hashing and moving; MasterBalance.v is a round of its
    balancing thread, from the moves of the tree to the calls of [Move]; MasterRpc.v
    puts its handlers behind the calls of the client, of a registering node and of the
    heartbeat (an instance of [Stub]); MasterNet.v has them on the network: no inode number is
    given twice, to whichever clients, and an inode stays where it was put, as long as
    the handlers that look at the master's maps do not overlap; of those, only parts
    hold a mutex, and any two that overlap can race; Gtg.v is the timestamp generator with
    its client (an instance of [Stub]), whose stamps are unique and ordered over any
    network; KvClient.v is the client's cache of addresses.

    _The file system_ (client/): YfsClient.v is the client, in a monad over the
    classes [Backend] and [BackendLaws]; FsBackend.v builds an instance from the extent
    cache; FileSystem.v defines the abstract file system and proves by a calculus of
    postconditions that every operation refines it and keeps the tree sound; Fuse.v
    is the FUSE server on top: what the kernel is answered is what the abstract
    file system says, and a directory read in pieces is listed whole.

    _Key-value store_ (kv/, mvcc/, wal/, raft/, util/): Kv.v is the interface as a
    class and its in-memory instance, Mvcc.v the versions on any store (right for
    times that sort by their bytes as by their value and hold no underscore), Wal.v the
    write-ahead log, RaftKv.v the state machine and the store on raft, RaftLife.v how it
    is opened and closed while its node runs, Waiter.v how the end of a proposal
    reaches its caller, Lru.v the LRU cache.

    ** Fuel

    Loops that are not structural take fuel, and every theorem about them gives
    an amount that is enough: the number of records for replaying and merging
    (each turn reads one), the number of nodes for walks of the name tree (a walk
    meets a node once), the length of the path for hashing, the number of
    entries for listing a directory, the readings of the clock for the waiting loop
    of a call.  [NoFuel] is never [Done], so a result theorem rules it out.

    ** What is not modelled

    - Programs outside the repository: the kernel, libfuse, braft, RocksDB.
    - The mains, but for what they register; the options of sockets and the descriptor
      flags (whether a socket call succeeds is an argument of a step); the resolver.
    - Logging, printing, lock and thread wrappers (rpc/jsl_log, slock.h,
      method_thread.h, verify.h, the macros of util/util.h), options.h, and headers
      nothing implements (fs/fs.h, storage/ctg_store.h).
    - Losses in RpcStub.v and the files on it: a whole call runs over a connection that
      loses nothing; losses are in RpcNetwork.v, where clients other than one are only
      the source of any message, and a server that starts again is another server.  The
      server's calls to lock clients from within a handler are an argument of LockRpc.v;
      LockSystem.v has them, and LockNet.v takes how they end from the world.
    - Weak memory: a step is atomic.  Sections that race are undefined where the
      model has them (Sections.v); elsewhere code without a mutex is cut into steps
      at its reads and writes of shared words.

    ** What comes next

    The lock clients' servers behind the calls of the lock server, so that
    LockSystem.v runs over the wire, and the extent cache over ExtentNet.v. *)

From stdpp Require Export prelude gmap list sorting strings.
From Stdlib Require Export ZArith Lia.
From Stdlib Require Strings.Byte.
Export (notations) Stdlib.Strings.Byte.
#[global] Open Scope Z_scope.

(** ** Bytes

    [char] is a byte; a [std::string] is a [list byte] of arbitrary content
    (embedded zero bytes included). *)

Abbreviation byte := Corelib.Init.Byte.byte.
Abbreviation bytes := (list byte).
Abbreviation zlen l := (Z.of_nat (length l)).

Definition b2z (b : byte) : Z := Z.of_N (Byte.to_N b).
Definition z2b (z : Z) : byte := default Byte.x00 (Byte.of_N (Z.to_N (z mod 256))).

(** A string literal of the source. *)
Definition bs (s : String.string) : bytes := String.list_byte_of_string s.

#[export] Instance byte_eq_dec : EqDecision byte := Byte.byte_eq_dec.
#[export] Program Instance byte_countable : Countable byte :=
  inj_countable Byte.to_N Byte.of_N Byte.of_to_N.

Lemma b2z_range b : 0 ≤ b2z b < 256.
Proof. unfold b2z. pose proof (Byte.to_N_bounded b). lia. Qed.

Lemma b2z_z2b z : b2z (z2b z) = z mod 256.
Proof.
  unfold b2z, z2b. pose proof (Z.mod_pos_bound z 256 ltac:(lia)) as Hz.
  destruct (Byte.of_N (Z.to_N (z mod 256))) as [b|] eqn:Hb; simpl.
  - apply Byte.to_of_N in Hb. rewrite Hb. lia.
  - apply Byte.of_N_None_iff in Hb. lia.
Qed.

Lemma z2b_b2z b : z2b (b2z b) = b.
Proof.
  unfold z2b. rewrite Z.mod_small by apply b2z_range.
  unfold b2z. by rewrite N2Z.id, Byte.of_to_N.
Qed.

#[export] Instance b2z_inj : Inj (=) (=) b2z.
Proof. intros a b H. by rewrite <- (z2b_b2z a), <- (z2b_b2z b), H. Qed.

(** ** Machine integers

    An unsigned [w]-bit integer is a [Z] in [0, 2^w); [wrap w] is the
    reduction that C++ arithmetic applies; [sgn w] reads the same bits as a
    two's complement [int]. *)

Definition wrap (w z : Z) : Z := z mod 2 ^ w.
Abbreviation wrap64 := (wrap 64).
Abbreviation wrap32 := (wrap 32).

Definition sgn (w z : Z) : Z :=
  let m := z mod 2 ^ w in if m <? 2 ^ (w - 1) then m else m - 2 ^ w.

Lemma wrap_small w z : 0 ≤ z < 2 ^ w → wrap w z = z.
Proof. apply Z.mod_small. Qed.

Lemma wrap_range w z : 0 ≤ w → 0 ≤ wrap w z < 2 ^ w.
Proof. intros. apply Z.mod_pos_bound. lia. Qed.

Lemma sgn_small w z : 0 < w → 0 ≤ z < 2 ^ (w - 1) → sgn w z = z.
Proof.
  intros Hw Hz. unfold sgn.
  assert (2 ^ w = 2 * 2 ^ (w - 1)) as Hp.
  { rewrite <- Z.pow_succ_r by lia. f_equal. lia. }
  rewrite Z.mod_small by lia. destruct (Z.ltb_spec z (2 ^ (w - 1))); lia.
Qed.

Lemma sgn_wrap w x : 0 < w → - 2 ^ (w - 1) ≤ x < 2 ^ (w - 1) → sgn w x = x.
Proof.
  intros Hw Hx. assert (2 ^ w = 2 * 2 ^ (w - 1)) as Hp by (rewrite <- Z.pow_succ_r by lia; f_equal; lia).
  unfold sgn. destruct (Z.ltb_spec x 0).
  - rewrite <- (Z_mod_plus_full x 1), Z.mod_small by lia. rewrite (proj2 (Z.ltb_ge _ _)); lia.
  - rewrite Z.mod_small by lia. by rewrite (proj2 (Z.ltb_lt _ _)) by lia.
Qed.

Lemma sgn_mod w x y : x mod 2 ^ w = y mod 2 ^ w → sgn w x = sgn w y.
Proof. unfold sgn. by intros ->. Qed.

Lemma sgn_wrap32 x : - 2 ^ 31 ≤ x < 2 ^ 31 → sgn 32 (wrap32 x) = x.
Proof. intros Hx. transitivity (sgn 32 x); [apply sgn_mod; by apply Z.mod_mod|by apply sgn_wrap]. Qed.

(** ** Little-endian words

    [std::string((char* )&i, sizeof(i))] and the reads through a cast
    pointer, on the little-endian targets the program is built for. *)

Fixpoint le_bytes (n : nat) (z : Z) : bytes :=
  match n with
  | O => []
  | S n' => z2b z :: le_bytes n' (z / 256)
  end.

Fixpoint le_val (l : bytes) : Z :=
  match l with
  | [] => 0
  | b :: l' => b2z b + 256 * le_val l'
  end.

Lemma length_le_bytes n z : length (le_bytes n z) = n.
Proof. revert z; induction n; intros z; simpl; [done|by rewrite IHn]. Qed.

Lemma le_val_le_bytes n z : le_val (le_bytes n z) = z mod 256 ^ Z.of_nat n.
Proof.
  revert z; induction n as [|n IH]; intros z; [by rewrite Z.mod_1_r|].
  cbn [le_bytes le_val]. rewrite IH, b2z_z2b.
  rewrite Nat2Z.inj_succ, Z.pow_succ_r by lia.
  assert (256 ^ Z.of_nat n > 0) by (apply Z.lt_gt, Z.pow_pos_nonneg; lia).
  rewrite Z.rem_mul_r by lia. lia.
Qed.

Lemma le_val_range l : 0 ≤ le_val l < 256 ^ zlen l.
Proof.
  induction l as [|b l IH]; [done|]. cbn [le_val length].
  rewrite Nat2Z.inj_succ, Z.pow_succ_r by lia.
  pose proof (b2z_range b). lia.
Qed.

Lemma le_bytes_le_val l : le_bytes (length l) (le_val l) = l.
Proof.
  induction l as [|b l IH]; [done|]. cbn [le_val length le_bytes].
  pose proof (b2z_range b).
  replace (b2z b + 256 * le_val l) with (b2z b + le_val l * 256) by lia. f_equal.
  - apply (inj b2z). rewrite b2z_z2b, Z.mod_add by lia. by apply Z.mod_small.
  - by rewrite Z.div_add, Z.div_small, Z.add_0_l by lia.
Qed.

(** [uint64_to_str], [int_to_str] and the reads that invert them. *)
Definition u64_bytes (z : Z) : bytes := le_bytes 8 z.
Definition i32_bytes (z : Z) : bytes := le_bytes 4 z.

Lemma length_u64_bytes z : length (u64_bytes z) = 8%nat.
Proof. apply length_le_bytes. Qed.
Lemma length_i32_bytes z : length (i32_bytes z) = 4%nat.
Proof. apply length_le_bytes. Qed.
Lemma le_val_u64 z : le_val (u64_bytes z) = wrap64 z.
Proof. apply (le_val_le_bytes 8). Qed.
Lemma le_val_i32 z : le_val (i32_bytes z) = wrap32 z.
Proof. apply (le_val_le_bytes 4). Qed.

(** What the [const char *] of a string is taken for. *)
Fixpoint c_str (s : bytes) : bytes :=
  match s with [] => [] | b :: s => if b2z b =? 0 then [] else b :: c_str s end.

(** A number in decimal, of at most [fuel] digits. *)
Fixpoint decimal_digits (fuel : nat) (n : Z) : bytes :=
  match fuel with
  | O => []
  | S fuel => (if n <? 10 then [] else decimal_digits fuel (n / 10)) ++ [z2b (48 + n mod 10)]
  end.

(** ** Outcomes

    What running a piece of C++ comes to: it returns a value, it stops the
    program (an uncaught exception, a failed [assert] or [VERIFY]), its
    behaviour is undefined, or (for a fuelled model of a loop) the fuel ran
    out.  No theorem about a result holds of the last three by accident:
    results are always stated as [Done _]. *)

Inductive outcome (A : Type) : Type :=
  | Done (a : A)
  | Throws
  | Undef
  | NoFuel.
Arguments Done {_} _.
Arguments Throws {_}.
Arguments Undef {_}.
Arguments NoFuel {_}.

#[export] Instance outcome_ret : MRet outcome := λ A a, Done a.
#[export] Instance outcome_bind : MBind outcome := λ A B f m,
  match m with
  | Done a => f a
  | Throws => Throws
  | Undef => Undef
  | NoFuel => NoFuel
  end.

(** [ensure b] is [assert(b)]. *)
Definition ensure (b : bool) : outcome unit := if b then Done tt else Throws.

Lemma bind_Done {A B} (a : A) (f : A → outcome B) : Done a ≫= f = f a.
Proof. done. Qed.
Lemma bind_Done_inv {A B} (m : outcome A) (f : A → outcome B) b :
  m ≫= f = Done b → ∃ a, m = Done a ∧ f a = Done b.
Proof. destruct m; simpl; naive_solver. Qed.

(** A test of the value, for runs whose value is large: the run is evaluated, its
    value is not. *)
Definition done_if {A} (p : A → bool) (o : outcome A) : bool := match o with Done a => p a | _ => false end.

Lemma done_if_inv {A} (p : A → bool) (o : outcome A) : done_if p o = true → ∃ a, o = Done a ∧ p a = true.
Proof. destruct o; simpl; naive_solver. Qed.

(** ** std::string

    [substr] throws [std::out_of_range] when the position is past the end and
    clips the length; [peek] is a read of [n] bytes through
    [c_str() + pos], defined up to and including the terminating zero. *)

Definition substr (s : bytes) (pos n : Z) : outcome bytes :=
  if zlen s <? pos then Throws
  else Done (take (Z.to_nat (Z.min n (zlen s - pos))) (drop (Z.to_nat pos) s)).

Definition peek (n : nat) (s : bytes) (pos : Z) : outcome Z :=
  if (0 <=? pos) && (pos + Z.of_nat n <=? zlen s + 1)
  then Done (le_val (take n (drop (Z.to_nat pos) (s ++ [Byte.x00]))))
  else Undef.
Abbreviation peek64 := (peek 8).
Abbreviation peek32 := (peek 4).

(** [char_traits<char>::lt] compares bytes as unsigned, so the order on
    [std::string] is the lexicographic order of the byte values. *)
Fixpoint bytes_ltb (a b : bytes) : bool :=
  match a, b with
  | _, [] => false
  | [], _ :: _ => true
  | x :: a', y :: b' =>
      if b2z x <? b2z y then true
      else if b2z y <? b2z x then false
      else bytes_ltb a' b'
  end.

Abbreviation bytes_eqb a b := (bool_decide ((a : bytes) = b)).

Lemma substr_app (a b c : bytes) n :
  n = zlen b → substr (a ++ b ++ c) (zlen a) n = Done b.
Proof.
  intros ->. unfold substr. rewrite !length_app.
  destruct (Z.ltb_spec (Z.of_nat (length a + (length b + length c))) (zlen a)); [lia|].
  rewrite Nat2Z.id, drop_app_length.
  replace (Z.to_nat _) with (length b) by lia. by rewrite take_app_length.
Qed.

Lemma peek_app n (a w c : bytes) :
  length w = n → peek n (a ++ w ++ c) (zlen a) = Done (le_val w).
Proof.
  intros <-. unfold peek. rewrite !length_app.
  destruct (Z.leb_spec 0 (zlen a)); [|lia].
  destruct (Z.leb_spec (zlen a + zlen w) (Z.of_nat (length a + (length w + length c)) + 1)); [|lia].
  simpl. rewrite Nat2Z.id, <- !app_assoc, drop_app_length. by rewrite take_app_length.
Qed.

(** ** Automation

    The [len] database normalises lengths of the byte strings the program
    builds; [len] closes goals about them. *)
Create Rewrite HintDb len.
#[export] Hint Rewrite @length_app @length_cons @length_nil @length_take @length_drop
  @length_replicate @length_u64_bytes @length_i32_bytes @length_le_bytes : len.
Ltac len := autorewrite with len; try lia.
#[global] Arguments u64_bytes : simpl never.
#[global] Arguments i32_bytes : simpl never.
#[global] Arguments wrap : simpl never.
#[global] Arguments peek : simpl never.
#[global] Arguments substr : simpl never.

(** Split the first boolean test of the goal. *)
Ltac case_test :=
  match goal with
  | |- context [Z.ltb ?a ?b] => destruct (Z.ltb_spec a b)
  | |- context [Z.leb ?a ?b] => destruct (Z.leb_spec a b)
  | |- context [Z.eqb ?a ?b] => destruct (Z.eqb_spec a b)
  | |- context [bool_decide ?P] => destruct (bool_decide_reflect P)
  end.

(** Discharge a comparison that arithmetic decides. *)
Ltac test_false :=
  match goal with
  | |- context [Z.ltb ?a ?b] => replace (Z.ltb a b) with false by (symmetry; apply Z.ltb_ge; lia)
  | |- context [Z.leb ?a ?b] => replace (Z.leb a b) with false by (symmetry; apply Z.leb_gt; lia)
  | |- context [Z.eqb ?a ?b] => replace (Z.eqb a b) with false by (symmetry; apply Z.eqb_neq; lia)
  end; cbv iota.
Ltac test_true :=
  match goal with
  | |- context [Z.ltb ?a ?b] => replace (Z.ltb a b) with true by (symmetry; apply Z.ltb_lt; lia)
  | |- context [Z.leb ?a ?b] => replace (Z.leb a b) with true by (symmetry; apply Z.leb_le; lia)
  | |- context [Z.eqb ?a ?b] => replace (Z.eqb a b) with true by (symmetry; apply Z.eqb_eq; lia)
  end; cbv iota.

(** ** Sums over a finite map *)

Section msum.
Context {K A : Type} `{Countable K} (f : A → Z).

Definition msum (m : gmap K A) : Z := map_fold (λ _ a n, f a + n) 0 m.

Lemma msum_insert m i a : m !! i = None → msum (<[i := a]> m) = f a + msum m.
Proof. intros Hi. unfold msum. rewrite map_fold_insert_L; [done|intros; lia|done]. Qed.

Lemma msum_delete m i : msum m = from_option f 0 (m !! i) + msum (delete i m).
Proof.
  destruct (m !! i) as [a|] eqn:Hi; cbn.
  - rewrite <- (insert_delete_id m i a Hi) at 1. apply msum_insert, lookup_delete_eq.
  - by rewrite delete_id.
Qed.

Lemma msum_alter m i x :
  msum (partial_alter (λ _, x) i m) = msum m - from_option f 0 (m !! i) + from_option f 0 x.
Proof.
  rewrite (msum_delete m i). destruct x as [a|]; cbn.
  - change (partial_alter (λ _, Some a) i m) with (<[i := a]> m).
    rewrite <- insert_delete_eq, msum_insert by apply lookup_delete_eq. lia.
  - change (partial_alter (λ _, None) i m) with (delete i m). lia.
Qed.

Lemma msum_nonneg m : (∀ a, 0 ≤ f a) → 0 ≤ msum m.
Proof.
  intros Hf. unfold msum. apply (map_fold_weak_ind (λ r _, 0 ≤ r)); [done|]. intros k a ? r _ ?. specialize (Hf a). lia.
Qed.

Lemma msum_lookup_le m i a : (∀ a, 0 ≤ f a) → m !! i = Some a → f a ≤ msum m.
Proof. intros Hf Hi. rewrite (msum_delete m i), Hi. cbn. pose proof (msum_nonneg (delete i m) Hf). lia. Qed.
End msum.

Lemma msum_fmap {K A} `{Countable K} (f : A → Z) (g : A → A) (m : gmap K A) :
  (∀ a, f (g a) = f a) → msum f (g <$> m) = msum f m.
Proof.
  intros Hfg. induction m as [|k a m Hk IH] using map_ind; [by rewrite fmap_empty|].
  rewrite fmap_insert, !msum_insert; [|done|by rewrite lookup_fmap, Hk]. by rewrite Hfg, IH.
Qed.
