(* ===== verification/StdContainers.v ===== *)
(** * Ordered containers of the C++ standard library

    [std::map] and [std::set] as lists kept in the order of their comparator:
    [om_*] are the operations of [std::map], [os_*] those of [std::set].  A
    comparator is a strict weak order ([Less] with [LessLaws]); elements that
    neither precedes the other are the same key.  Iteration from [begin()] is
    the list itself. *)

From S2P Require Import Prelude.

Class Less (A : Type) := less : A → A → bool.

(** The requirements of the standard on a [Compare] type. *)
Class LessLaws (A : Type) `{Less A} : Prop := {
  less_irrefl a : less a a = false;
  less_trans a b c : less a b = true → less b c = true → less a c = true;
  less_neg_trans a b c : less a b = false → less b c = false → less a c = false;
}.

(** A comparator under which equivalent keys are equal. *)
Class LessTotal (A : Type) `{Less A} : Prop :=
  less_total a b : less a b = false → less b a = false → a = b.

Definition same {A} `{Less A} (a b : A) : bool := negb (less a b) && negb (less b a).

Definition lt {A} `{Less A} (a b : A) : Prop := less a b = true.

Section laws.
Context {A : Type} `{LessLaws A}.
Implicit Types a b c : A.

Lemma less_asym a b : less a b = true → less b a = false.
Proof.
  intros Hab. destruct (less b a) eqn:Hba; [|done].
  rewrite <- (less_irrefl a). symmetry. eauto using less_trans.
Qed.

Lemma same_spec a b : same a b = true ↔ less a b = false ∧ less b a = false.
Proof. unfold same. rewrite andb_true_iff, !negb_true_iff. done. Qed.

Lemma same_refl a : same a a = true.
Proof. apply same_spec. by rewrite less_irrefl. Qed.

Lemma same_sym a b : same a b = same b a.
Proof. unfold same. apply andb_comm. Qed.

Lemma same_trans a b c : same a b = true → same b c = true → same a c = true.
Proof. rewrite !same_spec. intros [] []. eauto using less_neg_trans. Qed.

Lemma less_same_l a b c : same a b = true → less a c = less b c.
Proof.
  rewrite same_spec. intros [Hab Hba].
  destruct (less a c) eqn:Hac, (less b c) eqn:Hbc; try done.
  - rewrite (less_neg_trans a b c) in Hac; done.
  - rewrite (less_neg_trans b a c) in Hbc; done.
Qed.

Lemma less_same_r a b c : same a b = true → less c a = less c b.
Proof.
  rewrite same_spec. intros [Hab Hba].
  destruct (less c a) eqn:Hac, (less c b) eqn:Hbc; try done.
  - rewrite (less_neg_trans c b a) in Hac; done.
  - rewrite (less_neg_trans c a b) in Hbc; done.
Qed.

Lemma less_neg_l a b c : less b a = false → less b c = true → less a c = true.
Proof.
  intros Hba Hbc. destruct (less a c) eqn:Hac; [done|].
  by rewrite (less_neg_trans b a c) in Hbc.
Qed.

Lemma less_neg_r a b c : less a b = true → less c b = false → less a c = true.
Proof.
  intros Hab Hcb. destruct (less a c) eqn:Hac; [done|].
  by rewrite (less_neg_trans a c b) in Hab.
Qed.
End laws.

(** ** std::set *)
Section oset.
Context {A : Type} `{Less A}.
Implicit Types (x : A) (s : list A).

(** [insert]: the set is unchanged when an equivalent element is there. *)
Fixpoint os_insert x s : list A :=
  match s with
  | [] => [x]
  | y :: s' =>
      if less y x then y :: os_insert x s'
      else if less x y then x :: s else s
  end.

Fixpoint os_find x s : option A :=
  match s with
  | [] => None
  | y :: s' => if less y x then os_find x s' else if less x y then None else Some y
  end.

Fixpoint os_erase x s : list A :=
  match s with
  | [] => []
  | y :: s' => if less y x then y :: os_erase x s' else if less x y then s else s'
  end.

(** [lower_bound]: the first element that does not precede [x]. *)
Fixpoint os_lower_bound x s : option A :=
  match s with
  | [] => None
  | y :: s' => if less y x then os_lower_bound x s' else Some y
  end.
End oset.

Abbreviation ordered := (StronglySorted lt).

Section oset_laws.
Context {A : Type} `{LessLaws A}.
Implicit Types (x y : A) (s : list A).

Lemma elem_of_os_insert x y s :
  y ∈ os_insert x s → y = x ∨ y ∈ s.
Proof.
  induction s as [|z s IH]; simpl; [set_solver|].
  destruct (less z x), (less x z); set_solver.
Qed.

Lemma os_insert_old x y s : y ∈ s → y ∈ os_insert x s.
Proof.
  induction s as [|z s IH]; simpl; [set_solver|].
  destruct (less z x), (less x z); set_solver.
Qed.

Lemma os_insert_not_nil x s : os_insert x s ≠ [].
Proof. destruct s as [|z s]; simpl; [done|]. by destruct (less z x), (less x z). Qed.

Lemma os_insert_ordered x s : ordered s → ordered (os_insert x s).
Proof.
  induction 1 as [|z s Hs IH Hz]; simpl; [repeat constructor|].
  destruct (less z x) eqn:Hzx.
  - constructor; [done|]. rewrite Forall_forall in *. intros y Hy%elem_of_os_insert.
    destruct Hy as [->|?]; [done|auto].
  - destruct (less x z) eqn:Hxz; [|by constructor].
    constructor; [by constructor|]. constructor; [done|].
    eapply Forall_impl; [done|]. intros y Hy. unfold lt in *. eauto using less_trans.
Qed.

Lemma os_erase_subset x y s : y ∈ os_erase x s → y ∈ s.
Proof.
  induction s as [|z s IH]; simpl; [done|].
  destruct (less z x), (less x z); set_solver.
Qed.

Lemma os_erase_ordered x s : ordered s → ordered (os_erase x s).
Proof.
  induction 1 as [|z s Hs IH Hz]; simpl; [constructor|].
  destruct (less z x); [|destruct (less x z); [by constructor|done]].
  constructor; [done|]. rewrite Forall_forall in *. eauto using os_erase_subset.
Qed.

Lemma os_find_Some x y s : os_find x s = Some y → y ∈ s ∧ same x y = true.
Proof.
  induction s as [|z s IH]; simpl; [done|].
  destruct (less z x) eqn:?, (less x z) eqn:?; try done.
  - intros [? ?]%IH. set_solver.
  - intros [? ?]%IH. set_solver.
  - intros [= <-]. rewrite same_spec. set_solver.
Qed.

Lemma os_find_None x y s :
  ordered s → os_find x s = None → y ∈ s → same x y = false.
Proof.
  induction 1 as [|z s Hs IH Hz]; simpl; [set_solver|].
  intros Hf Hy. rewrite Forall_forall in Hz. apply elem_of_cons in Hy as [->|Hy].
  - destruct (less z x) eqn:Hzx; [by unfold same; rewrite Hzx, andb_comm|].
    destruct (less x z) eqn:Hxz; [by unfold same; rewrite Hxz|done].
  - destruct (less z x) eqn:Hzx; [auto|].
    destruct (less x z) eqn:Hxz; [|done].
    unfold same. rewrite (less_trans x z y); [done|done|]. by apply Hz.
Qed.

Lemma os_find_insert x s : ordered s → ∃ y, os_find x (os_insert x s) = Some y ∧ same x y = true.
Proof.
  induction 1 as [|z s Hs IH Hz]; simpl.
  - rewrite less_irrefl. eauto using same_refl.
  - destruct (less z x) eqn:Hzx; simpl; [by rewrite Hzx|].
    destruct (less x z) eqn:Hxz; simpl.
    + rewrite less_irrefl. eauto using same_refl.
    + rewrite Hzx, Hxz. eexists; split; [done|]. by apply same_spec.
Qed.

Lemma os_find_elem x s : ordered s → x ∈ s → os_find x s = Some x.
Proof.
  induction 1 as [|z s Hs IH Hz]; simpl; [set_solver|].
  intros Hx. rewrite Forall_forall in Hz. apply elem_of_cons in Hx as [->|Hx].
  - by rewrite less_irrefl.
  - rewrite (Hz _ Hx). auto.
Qed.
End oset_laws.

(** ** std::map *)
Section omap.
Context {K V : Type} `{Less K}.
Implicit Types (k : K) (v : V) (m : list (K * V)).

Fixpoint om_find k m : option V :=
  match m with
  | [] => None
  | (k', v) :: m' => if less k' k then om_find k m' else if less k k' then None else Some v
  end.

(** [m[k] = v] *)
Fixpoint om_assign k v m : list (K * V) :=
  match m with
  | [] => [(k, v)]
  | (k', v') :: m' =>
      if less k' k then (k', v') :: om_assign k v m'
      else if less k k' then (k, v) :: m else (k', v) :: m'
  end.

(** [m.insert({k, v})]: no effect when the key is there. *)
Fixpoint om_insert k v m : list (K * V) :=
  match m with
  | [] => [(k, v)]
  | (k', v') :: m' =>
      if less k' k then (k', v') :: om_insert k v m'
      else if less k k' then (k, v) :: m else m
  end.

Fixpoint om_erase k m : list (K * V) :=
  match m with
  | [] => []
  | (k', v') :: m' =>
      if less k' k then (k', v') :: om_erase k m'
      else if less k k' then m else m'
  end.
End omap.

(** The order of a map is the order of its keys. *)
#[export] Instance less_fst {K V} `{Less K} : Less (K * V) := λ p q, less p.1 q.1.

Section omap_laws.
Context {K V : Type} `{LessLaws K}.
Implicit Types (k : K) (v : V) (m : list (K * V)).

Lemma elem_of_om_assign k v m p :
  p ∈ om_assign k v m → p ∈ m ∨ (same k p.1 = true ∧ p.2 = v).
Proof.
  induction m as [|[k' v'] m IH]; simpl.
  - intros ->%list_elem_of_singleton. right. split; [apply same_refl|done].
  - destruct (less k' k) eqn:Hk'; [set_solver|].
    destruct (less k k') eqn:Hk.
    + intros [->|Hp]%elem_of_cons; [right; split; [apply same_refl|done]|by left].
    + intros [->|Hp]%elem_of_cons; [|set_solver].
      right. split; [by apply same_spec|done].
Qed.

Lemma om_assign_ordered k v m : ordered m → ordered (om_assign k v m).
Proof.
  induction 1 as [|[k' v'] m Hs IH Hz]; simpl; [repeat constructor|].
  destruct (less k' k) eqn:Hk'.
  - constructor; [done|]. rewrite Forall_forall in *.
    intros p [Hp|[Hp _]]%elem_of_om_assign; [auto|].
    unfold lt, less, less_fst; simpl. by rewrite <- (less_same_r _ _ _ Hp).
  - destruct (less k k') eqn:Hk; constructor; auto.
    + by constructor.
    + constructor; [done|]. eapply Forall_impl; [done|]. intros p Hp.
      unfold lt, less, less_fst in *; simpl in *. eauto using less_trans.
Qed.

Lemma om_find_assign k k' v m :
  ordered m →
  om_find k' (om_assign k v m) = if same k k' then Some v else om_find k' m.
Proof.
  induction 1 as [|[k0 v0] m Hs IH Hz]; simpl.
  { unfold same. by destruct (less k k'), (less k' k). }
  destruct (less k0 k) eqn:H0k; simpl.
  - rewrite IH. destruct (less k0 k') eqn:H0k'; [done|].
    destruct (same k k') eqn:Hs'; [|done].
    by rewrite (less_same_r _ _ _ Hs'), H0k' in H0k.
  - destruct (less k k0) eqn:Hk0; simpl.
    + unfold same. destruct (less k k') eqn:Hkk'; simpl; [done|].
      destruct (less k' k) eqn:Hk'k; simpl; [|done].
      rewrite (less_trans _ _ _ Hk'k Hk0).
      by rewrite (less_asym k' k0) by eauto using less_trans.
    + rewrite <- (less_same_l k k0), <- (less_same_r k k0) by (by apply same_spec).
      unfold same. by destruct (less k k') eqn:?, (less k' k) eqn:?.
Qed.

Lemma om_find_insert_new k v m : om_find k m = None → om_insert k v m = om_assign k v m.
Proof.
  induction m as [|[k' v'] m IH]; simpl; [done|].
  destruct (less k' k); [intros Hf; by rewrite IH|].
  by destruct (less k k').
Qed.

Lemma elem_of_om_insert_new k v m p :
  om_find k m = None → p ∈ om_insert k v m ↔ p ∈ m ∨ p = (k, v).
Proof.
  induction m as [|[k' w] m IH]; simpl; [set_solver|].
  destruct (less k' k); [intros Hf; specialize (IH Hf); set_solver|].
  destruct (less k k'); [set_solver|done].
Qed.

Lemma om_insert_old k v v' m : om_find k m = Some v' → om_insert k v m = m.
Proof.
  induction m as [|[k' w] m IH]; simpl; [done|].
  destruct (less k' k); [intros Hf; by rewrite IH|].
  by destruct (less k k').
Qed.

Lemma om_insert_ordered k v m : ordered m → ordered (om_insert k v m).
Proof.
  intros Hm. destruct (om_find k m) eqn:Hf.
  - by erewrite om_insert_old.
  - rewrite om_find_insert_new by done. by apply om_assign_ordered.
Qed.

Lemma om_find_Some k v m : om_find k m = Some v → ∃ k', (k', v) ∈ m ∧ same k k' = true.
Proof.
  induction m as [|[k' w] m IH]; simpl; [done|].
  destruct (less k' k) eqn:?; [intros (?&?&?)%IH; set_solver|].
  destruct (less k k') eqn:?; [done|]. intros [= ->].
  exists k'. rewrite same_spec. set_solver.
Qed.

Lemma om_find_elem k v m : ordered m → (k, v) ∈ m → om_find k m = Some v.
Proof.
  induction 1 as [|[k' w] m Hs IH Hz]; simpl; [set_solver|].
  intros [[= -> ->]|Hin]%elem_of_cons; [by rewrite less_irrefl|].
  rewrite Forall_forall in Hz. specialize (Hz _ Hin).
  unfold lt, less, less_fst in Hz; simpl in Hz. rewrite Hz. auto.
Qed.

Lemma om_erase_subset k m p : p ∈ om_erase k m → p ∈ m.
Proof.
  induction m as [|[k' w] m IH]; simpl; [done|].
  destruct (less k' k), (less k k'); set_solver.
Qed.

Lemma om_erase_ordered k m : ordered m → ordered (om_erase k m).
Proof.
  induction 1 as [|[k' w] m Hs IH Hz]; simpl; [constructor|].
  destruct (less k' k); [|destruct (less k k'); [by constructor|done]].
  constructor; [done|]. rewrite Forall_forall in *. eauto using om_erase_subset.
Qed.

Lemma om_find_erase k k' m :
  ordered m → om_find k' (om_erase k m) = if same k k' then None else om_find k' m.
Proof.
  induction 1 as [|[k0 v0] m Hs IH Hz]; simpl; [by destruct (same k k')|].
  assert (∀ x, less k0 x = false → om_find x m = None) as Hnone.
  { intros x Hx. destruct (om_find x m) as [w|] eqn:Hf; [|done].
    apply om_find_Some in Hf as (x'&Hin&Hsx). rewrite Forall_forall in Hz.
    specialize (Hz _ Hin). unfold lt, less, less_fst in Hz; simpl in Hz.
    by rewrite <- (less_same_r _ _ _ Hsx), Hx in Hz. }
  destruct (less k0 k) eqn:H0k; simpl.
  - rewrite IH. destruct (less k0 k') eqn:H0k'; [done|].
    destruct (same k k') eqn:Hs'; [|done].
    by rewrite (less_same_r _ _ _ Hs'), H0k' in H0k.
  - destruct (less k k0) eqn:Hk0; simpl.
    + destruct (same k k') eqn:Hs'; [|done].
      rewrite <- !(less_same_r _ _ k0 Hs'), <- !(less_same_l _ _ k0 Hs'). by rewrite H0k, Hk0.
    + assert (same k k0 = true) as Hkk by (by apply same_spec).
      unfold same. rewrite (less_same_l _ _ k' Hkk), (less_same_r _ _ k' Hkk).
      destruct (less k0 k') eqn:?; simpl; [done|].
      destruct (less k' k0) eqn:?; simpl; auto.
Qed.
End omap_laws.

(** ** The order on std::string *)
#[export] Instance less_bytes : Less bytes := bytes_ltb.

#[export] Instance less_bytes_laws : LessLaws bytes.
Proof.
  split; unfold less, less_bytes.
  - induction a as [|x a IH]; cbn [bytes_ltb]; [done|].
    by repeat case_test; try lia.
  - induction a as [|x a IH]; intros [|y b] [|z c]; cbn [bytes_ltb]; try done.
    repeat case_test; try done; try lia. apply IH.
  - induction a as [|x a IH]; intros [|y b] [|z c]; cbn [bytes_ltb]; try done.
    repeat case_test; try done; try lia. apply IH.
Qed.

#[export] Instance less_bytes_total : LessTotal bytes.
Proof.
  unfold LessTotal, less, less_bytes.
  induction a as [|x a IH]; intros [|y b]; cbn [bytes_ltb]; try done.
  repeat case_test; try done; intros. f_equal; [apply (inj b2z); lia|auto].
Qed.

#[export] Instance less_Z : Less Z := Z.ltb.
#[export] Instance less_Z_laws : LessLaws Z.
Proof. split; unfold less, less_Z; intros *; lia. Qed.
#[export] Instance less_Z_total : LessTotal Z.
Proof. unfold LessTotal, less, less_Z. lia. Qed.

(** Erasing a key of a total order. *)
Lemma elem_of_om_erase {K V} `{LessLaws K, !LessTotal K} (k : K) (m : list (K * V)) (p : K * V) :
  ordered m → p ∈ om_erase k m ↔ p ∈ m ∧ p.1 ≠ k.
Proof.
  induction 1 as [|[k' v'] m Hs IH Hz]; simpl; [set_solver|].
  rewrite Forall_forall in Hz. unfold lt, less, less_fst in Hz. simpl in Hz.
  destruct (less k' k) eqn:Hk'.
  - rewrite !elem_of_cons, IH. split; [|naive_solver].
    intros [->|?]; [|naive_solver]. split; [by left|]. simpl. intros ->. by rewrite less_irrefl in Hk'.
  - destruct (less k k') eqn:Hk.
    + split; [|naive_solver]. intros Hp. split; [done|]. intros <-.
      apply elem_of_cons in Hp as [->|Hp]; simpl in *; [by rewrite less_irrefl in Hk|].
      specialize (Hz _ Hp). by rewrite (less_trans _ _ _ Hk Hz) in Hk' || rewrite (less_asym _ _ Hk) in Hz.
    + assert (k' = k) as -> by (by apply less_total). rewrite elem_of_cons. split.
      * intros Hp. split; [by right|]. intros <-. specialize (Hz _ Hp). by rewrite less_irrefl in Hz.
      * intros [[->|?] N]; [done|done].
Qed.

Lemma same_eq {A} `{LessLaws A, !LessTotal A} (a b : A) : same a b = true ↔ a = b.
Proof.
  rewrite same_spec. split; [intros []; by apply less_total|].
  intros ->. by rewrite !less_irrefl.
Qed.
