(* ===== verification/Sections.v ===== *)
(** * Methods in sections

    A method that does not hold one mutex from its beginning to its end is a
    sequence of sections: stretches of code that hold one mutex or none, each with
    the data it touches.  Sections of different threads that hold no mutex in
    common and touch the same data, one of them to change it, race: that is
    undefined behaviour.  [alone] is what a method does when nothing else runs. *)

From S2P Require Import Prelude.

Inductive access : Type := Reads | Writes.
#[export] Instance access_eq_dec : EqDecision access.
Proof. solve_decision. Defined.

Section code.
(** The object, its mutexes and its data. *)
Context {S L C : Type}.

(** What a section reads at its end is what the rest goes on with. *)
Inductive code (R : Type) : Type :=
  | Ret (o : outcome R)
  | Sec {X : Type} (l : option L) (touches : list (C * access)) (f : S → outcome (X * S)) (k : X → code R).
Arguments Ret {_} _.
Arguments Sec {_ _} _ _ _ _.

Fixpoint alone {R} (c : code R) (s : S) : outcome (R * S) :=
  match c with
  | Ret o => r ← o; Done (r, s)
  | Sec _ _ f k => '(x, s) ← f s; alone (k x) s
  end.

(** Then the rest; a failure stays what it is. *)
Fixpoint andthen {R T} (c : code R) (k : R → code T) : code T :=
  match c with
  | Ret (Done r) => k r
  | Ret o => Ret (r ← o; Undef)
  | Sec l t f k' => Sec l t f (λ x, andthen (k' x) k)
  end.

(** The first section of a method begins by changing the object with [g]. *)
Definition first (g : S → S) {R} (c : code R) : code R :=
  match c with
  | Ret o => Sec None [] (λ s, Done (tt, g s)) (λ _, Ret o)
  | Sec l t f k => Sec l t (λ s, f (g s)) k
  end.

(** At most one section. *)
Definition single {R} (c : code R) : Prop :=
  match c with Ret _ => True | Sec _ _ _ k => ∀ x, ∃ o, k x = Ret o end.

(** No section that touches data goes without the mutex [l]. *)
Definition held {R} (l : L) (c : code R) : Prop :=
  match c with Ret _ => True | Sec l' t _ _ => l' = Some l ∨ t = [] end.

Lemma alone_andthen {R T} (c : code R) (k : R → code T) s :
  alone (andthen c k) s = '(r, s) ← alone c s; alone (k r) s.
Proof.
  revert s. induction c as [o|X l t f k' IH]; intros s; cbn; [by destruct o|].
  destruct (f s) as [[x s1]| | |]; [|done..]. apply IH.
Qed.

Lemma alone_first {R} g (c : code R) s : alone (first g c) s = alone c (g s).
Proof. by destruct c. Qed.

Lemma single_first {R} g (c : code R) : single c → single (first g c).
Proof. destruct c; cbn; [eauto|done]. Qed.
Lemma held_first {R} l g (c : code R) : held l c → held l (first g c).
Proof. destruct c; cbn; [by right|done]. Qed.

Lemma single_andthen {R T} (c : code R) (k : R → code T) :
  single c → (∀ r, ∃ o, k r = Ret o) → single (andthen c k).
Proof.
  intros Hc Hk. destruct c as [[r| | |]|X l t f k']; cbn in *; try done.
  - destruct (Hk r) as [o ->]. done.
  - intros x. destruct (Hc x) as [[r| | |] ->]; cbn; eauto.
Qed.

Lemma held_andthen {R T} l (c : code R) (k : R → code T) : held l c → (∀ r, ∃ o, k r = Ret o) → held l (andthen c k).
Proof. intros Hc Hk. destruct c as [[r| | |]|X l' t f k']; cbn in *; try done. by destruct (Hk r) as [o ->]. Qed.

(** ** Races *)

Context `{EqDecision L, EqDecision C}.

Definition race1 (a b : C * access) : bool :=
  bool_decide (a.1 = b.1) && negb (bool_decide (a.2 = Reads) && bool_decide (b.2 = Reads)).
Definition race (t t' : list (C * access)) : bool := existsb (λ a, existsb (race1 a) t') t.

Lemma race_nil t : race t [] = false.
Proof. induction t as [|a t IH]; [done|]. cbn. done. Qed.

End code.
Arguments code : clear implicits.
Arguments Ret {_ _ _ _} _.
Arguments Sec {_ _ _ _ _} _ _ _ _.

(** A method of a part of the object. *)
Section focus.
Context {O S L C : Type} (part : O → S) (set_part : S → O → O).

Fixpoint focus {R} (c : code S L C R) : code O L C R :=
  match c with
  | Ret o => Ret o
  | Sec l t f k => Sec l t (λ o, '(x, s) ← f (part o); Done (x, set_part s o)) (λ x, focus (k x))
  end.

Lemma alone_focus {R} (c : code S L C R) :
  (∀ o s, part (set_part s o) = s) → (∀ o s s', set_part s' (set_part s o) = set_part s' o) → (∀ o, set_part (part o) o = o) →
  ∀ o, alone (focus c) o = '(r, s) ← alone c (part o); Done (r, set_part s o).
Proof.
  intros H1 H2 H3. induction c as [r|X l t f k IH]; intros o; cbn; [destruct r; [cbn; by rewrite H3|done..]|].
  destruct (f (part o)) as [[x s]| | |]; [|done..]. cbn. rewrite IH, H1.
  destruct (alone (k x) s) as [[r s']| | |]; [cbn; by rewrite H2|done..].
Qed.

End focus.
