(* ===== verification/Status.v ===== *)
(** * util::Status (src/include/util/status.h)

    The status every storage, key-value and tree operation returns. *)

From S2P Require Import Prelude.

Inductive Code : Type :=
  | kOk | kNotFound | kTimeOut | kNotSupported | kInvalidArgument | kCorruption
  | kConnectFailed | kStreamCreateFailed | kStreamCrash | kParserInputError | kClientStop
  | kNotLeader | kHeartBeatFail | kPrefixTreeError.

#[export] Instance Code_eq_dec : EqDecision Code.
Proof. solve_decision. Defined.

Record Status : Type := mkStatus { code_ : Code; error_text_ : bytes }.

#[export] Instance Status_eq_dec : EqDecision Status.
Proof. solve_decision. Defined.

Definition ToString (s : Status) : bytes := error_text_ s.
Definition ErrorText (s : Status) : bytes := error_text_ s.

Definition OK : Status := mkStatus kOk [].
Definition NotFound (msg : bytes) : Status := mkStatus kNotFound msg.
Definition TimeOut (msg : bytes) : Status := mkStatus kTimeOut msg.
Definition NotSupported (msg : bytes) : Status := mkStatus kNotSupported msg.
Definition InvalidArgument (msg : bytes) : Status := mkStatus kInvalidArgument msg.
Definition Corruption (msg : bytes) : Status := mkStatus kCorruption msg.
Definition NotLeader (msg : bytes) : Status := mkStatus kNotLeader msg.
Definition PrefixTreeError (msg : bytes) : Status := mkStatus kPrefixTreeError msg.

Definition IsOK (s : Status) : bool := bool_decide (code_ s = kOk).
Definition IsTimeOut (s : Status) : bool := bool_decide (code_ s = kTimeOut).
Definition IsInvalidArgument (s : Status) : bool := bool_decide (code_ s = kInvalidArgument).
Definition IsCorruption (s : Status) : bool := bool_decide (code_ s = kCorruption).
Definition IsNotLeader (s : Status) : bool := bool_decide (code_ s = kNotLeader).
Definition IsPrefixTreeError (s : Status) : bool := bool_decide (code_ s = kPrefixTreeError).

Lemma IsOK_OK : IsOK OK = true.
Proof. done. Qed.
Lemma IsOK_Corruption msg : IsOK (Corruption msg) = false.
Proof. done. Qed.
Lemma IsOK_InvalidArgument msg : IsOK (InvalidArgument msg) = false.
Proof. done. Qed.

Create Rewrite HintDb status.
#[export] Hint Rewrite IsOK_OK IsOK_Corruption IsOK_InvalidArgument : status.

(** Take the branch of a test on a known status. *)
Ltac ok_test := autorewrite with status; cbn [negb andb orb]; cbv iota.
