(* ===== verification/Posix.v ===== *)
(** * The file interface the storage engine runs on

    The POSIX calls used by src/storage: a world holds the contents of the
    regular files, the descriptor table and a stream of faults.  Every call
    that the code checks for a negative result consumes one fault: a [true]
    at the head makes it fail with -1, an exhausted stream means no more
    failures.  [write] is all or nothing; [read] returns fewer bytes at the
    end of the file, as POSIX says. *)

From S2P Require Import Prelude.

Record fdesc : Type := mkFd { fd_path : bytes; fd_off : Z }.

Record world : Type := mkWorld {
  files : gmap bytes bytes;
  fdt : gmap Z fdesc;
  next_fd : Z;
  faults : list bool;
}.

(** Computations that use files. *)
Definition io (A : Type) : Type := world → outcome (A * world).

#[export] Instance io_ret : MRet io := λ A a w, Done (a, w).
#[export] Instance io_bind : MBind io := λ A B f m w,
  match m w with
  | Done (a, w') => f a w'
  | Throws => Throws
  | Undef => Undef
  | NoFuel => NoFuel
  end.

Definition lift {A} (o : outcome A) : io A := λ w, a ← o; Done (a, w).

Definition set_files (f : gmap bytes bytes) (w : world) : world :=
  mkWorld f (fdt w) (next_fd w) (faults w).
Definition set_fdt (t : gmap Z fdesc) (w : world) : world :=
  mkWorld (files w) t (next_fd w) (faults w).

Definition next_fault : io bool := λ w,
  match faults w with
  | [] => Done (false, w)
  | b :: l => Done (b, mkWorld (files w) (fdt w) (next_fd w) l)
  end.

(** [open(path, flags)] with or without [O_CREAT] and [O_TRUNC]; the empty
    path names no file. *)
Definition open_ (path : bytes) (creat trunc : bool) : io Z :=
  bad ← next_fault;
  if bad || bool_decide (path = []) then mret (-1) else λ w,
  let opened c :=
    Done (next_fd w, mkWorld (<[path := c]> (files w)) (<[next_fd w := mkFd path 0]> (fdt w))
                       (next_fd w + 1) (faults w)) in
  match files w !! path with
  | Some c => opened (if trunc then [] else c)
  | None => if creat then opened [] else Done (-1, w)
  end.

Definition read_ (fd n : Z) : io (Z * bytes) :=
  bad ← next_fault;
  if bad : bool then mret (-1, []) else λ w,
  match fdt w !! fd with
  | None => Done ((-1, []), w)
  | Some d =>
      let c := default [] (files w !! fd_path d) in
      let k := Z.max 0 (Z.min n (zlen c - fd_off d)) in
      let data := take (Z.to_nat k) (drop (Z.to_nat (Z.min (fd_off d) (zlen c))) c) in
      Done ((k, data), set_fdt (<[fd := mkFd (fd_path d) (fd_off d + k)]> (fdt w)) w)
  end.

(** Bytes written at an offset; a gap before it reads as zeros. *)
Definition write_at (c : bytes) (off : nat) (d : bytes) : bytes :=
  take off c ++ replicate (off - length c) Byte.x00 ++ d ++ drop (off + length d) c.

Definition write_ (fd : Z) (data : bytes) : io Z :=
  bad ← next_fault;
  if bad : bool then mret (-1) else λ w,
  match fdt w !! fd with
  | None => Done (-1, w)
  | Some d =>
      let c := default [] (files w !! fd_path d) in
      let c' := write_at c (Z.to_nat (fd_off d)) data in
      Done (zlen data,
            mkWorld (<[fd_path d := c']> (files w))
              (<[fd := mkFd (fd_path d) (fd_off d + zlen data)]> (fdt w)) (next_fd w) (faults w))
  end.

(** [lseek(fd, off, SEEK_SET)]; the offset is a signed 64-bit number. *)
Definition lseek_set (fd off : Z) : io Z :=
  bad ← next_fault;
  if bad || (sgn 64 off <? 0) then mret (-1) else λ w,
  match fdt w !! fd with
  | None => Done (-1, w)
  | Some d => Done (off, set_fdt (<[fd := mkFd (fd_path d) off]> (fdt w)) w)
  end.

Definition lseek_end (fd : Z) : io Z :=
  bad ← next_fault;
  if bad : bool then mret (-1) else λ w,
  match fdt w !! fd with
  | None => Done (-1, w)
  | Some d =>
      let e := zlen (default [] (files w !! fd_path d)) in
      Done (e, set_fdt (<[fd := mkFd (fd_path d) e]> (fdt w)) w)
  end.

Definition close_ (fd : Z) : io unit := λ w, Done (tt, set_fdt (delete fd (fdt w)) w).

(** [access(path, F_OK) != -1] *)
Definition exists_ (path : bytes) : io bool := λ w,
  Done (bool_decide (is_Some (files w !! path)), w).

(** [stat(path, &st); st.st_size]: the code does not check [stat], so the
    size of a missing file is an uninitialised value. *)
Definition stat_size (path : bytes) : io Z := λ w,
  match files w !! path with
  | Some c => Done (zlen c, w)
  | None => Undef
  end.

(** The first [n] bytes of [s.c_str()]. *)
Definition c_str_prefix (s : bytes) (n : Z) : outcome bytes :=
  if n <=? zlen s + 1 then Done (take (Z.to_nat n) (s ++ [Byte.x00])) else Undef.

(** ** Behaviour of fault-free calls *)

Lemma c_str_prefix_all (s : bytes) n : n = zlen s → c_str_prefix s n = Done s.
Proof.
  intros ->. unfold c_str_prefix. destruct (Z.leb_spec (zlen s) (zlen s + 1)); [|lia].
  by rewrite Nat2Z.id, take_app_length.
Qed.

Lemma io_bind_Done {A B} (m : io A) (f : A → io B) w a w' :
  m w = Done (a, w') → (m ≫= f) w = f a w'.
Proof. intros Hm. unfold mbind, io_bind. by rewrite Hm. Qed.

Lemma lift_Done {A} (o : outcome A) a w : o = Done a → lift o w = Done (a, w).
Proof. by intros ->. Qed.

Lemma stat_size_ok path c w : files w !! path = Some c → stat_size path w = Done (zlen c, w).
Proof. intros Hp. unfold stat_size. by rewrite Hp. Qed.

Lemma write_at_end (c d : bytes) : write_at c (length c) d = c ++ d.
Proof.
  unfold write_at. rewrite firstn_all, Nat.sub_diag, drop_ge by lia.
  by rewrite app_nil_r.
Qed.

Lemma write_at_fresh (d : bytes) : write_at [] 0 d = d.
Proof. apply (write_at_end []). Qed.

Section calls.
Variable (w : world).
Hypothesis no_fault : faults w = [].

Lemma next_fault_none : next_fault w = Done (false, w).
Proof. unfold next_fault. by rewrite no_fault. Qed.

Lemma read_at fd n p (a b c : bytes) :
  fdt w !! fd = Some (mkFd p (zlen a)) → files w !! p = Some (a ++ b ++ c) →
  n = zlen b →
  read_ fd n w = Done ((n, b), set_fdt (<[fd := mkFd p (zlen (a ++ b))]> (fdt w)) w).
Proof.
  intros Hfd Hp ->. unfold read_. rewrite (io_bind_Done _ _ _ _ _ next_fault_none), Hfd; simpl.
  rewrite Hp; simpl. rewrite !length_app.
  replace (Z.max 0 _) with (zlen b) by lia.
  replace (Z.min _ _) with (zlen a) by lia.
  rewrite !Nat2Z.id, drop_app_length, take_app_length, Nat2Z.inj_add. done.
Qed.

Lemma write_end fd p (c d : bytes) :
  fdt w !! fd = Some (mkFd p (zlen c)) → files w !! p = Some c →
  write_ fd d w =
    Done (zlen d, mkWorld (<[p := c ++ d]> (files w))
                    (<[fd := mkFd p (zlen (c ++ d))]> (fdt w)) (next_fd w) (faults w)).
Proof.
  intros Hfd Hp. unfold write_. rewrite (io_bind_Done _ _ _ _ _ next_fault_none), Hfd; simpl.
  rewrite Hp; simpl. rewrite Nat2Z.id, write_at_end, length_app, Nat2Z.inj_add. done.
Qed.

Lemma open_ok path creat trunc (c : bytes) :
  path ≠ [] →
  files w !! path = Some c ∨ (files w !! path = None ∧ creat = true ∧ c = []) →
  open_ path creat trunc w =
    Done (next_fd w, mkWorld (<[path := if trunc then [] else c]> (files w))
                       (<[next_fd w := mkFd path 0]> (fdt w)) (next_fd w + 1) (faults w)).
Proof.
  intros Hne Hc. unfold open_. rewrite (io_bind_Done _ _ _ _ _ next_fault_none).
  rewrite bool_decide_eq_false_2 by done. cbn [orb]. cbv iota.
  destruct Hc as [->|(->&->&->)]; [done|]. by destruct trunc.
Qed.

Lemma lseek_ok fd p o off :
  fdt w !! fd = Some (mkFd p o) → 0 ≤ off < 2 ^ 63 →
  lseek_set fd off w = Done (off, set_fdt (<[fd := mkFd p off]> (fdt w)) w).
Proof.
  intros Hfd Hoff. unfold lseek_set. rewrite (io_bind_Done _ _ _ _ _ next_fault_none).
  rewrite sgn_small by lia. test_false. cbn [orb]. cbv iota beta. by rewrite Hfd.
Qed.

Lemma lseek_end_ok fd p o (c : bytes) :
  fdt w !! fd = Some (mkFd p o) → files w !! p = Some c →
  lseek_end fd w = Done (zlen c, set_fdt (<[fd := mkFd p (zlen c)]> (fdt w)) w).
Proof.
  intros Hfd Hp. unfold lseek_end. rewrite (io_bind_Done _ _ _ _ _ next_fault_none).
  cbv iota beta. rewrite Hfd; simpl. by rewrite Hp.
Qed.
End calls.

(** Run the next call of a program whose result is known. *)
Tactic Notation "io_step" uconstr(l) := erewrite io_bind_Done; cycle 1; [eapply l|cbv beta iota].
