(* ===== verification/RemoveDir.v ===== *)
(** * Removing a directory with what is in it (src/include/util/util.h)

    [MyRemoveDirectoryRecursively] on a file system of files, directories and
    symbolic links.  Every call, [malloc] included, consumes one fault, as in
    Posix.v, and the order in which [readdir] lists a directory is an argument; what
    it lists is what was there at [opendir].  Paths are taken from the root, without
    [..], and nobody else changes the file system meanwhile.  A call takes one unit
    of fuel per level; more units than there are entries under the directory are
    enough. *)

From S2P Require Import Prelude.

Inductive entry : Type := EFile | EDir | ELink (target : list bytes).

#[export] Instance entry_eq_dec : EqDecision entry.
Proof. solve_decision. Defined.

(** An entry is known by the names on its way from the root, which is [[]] and
    always a directory.  The targets of links are such ways. *)
Record dirs : Type := mkDirs { entries : gmap (list bytes) entry; dfaults : list bool }.

Definition dio (A : Type) : Type := dirs → outcome (A * dirs).
#[export] Instance dio_ret : MRet dio := λ A a w, Done (a, w).
#[export] Instance dio_bind : MBind dio := λ A B f m w, '(a, w) ← m w; f a w.

Definition fault : dio bool := λ w,
  match dfaults w with [] => Done (false, w) | b :: l => Done (b, mkDirs (entries w) l) end.

Definition on {A} (f : dirs → A * dirs) : dio A := λ w, Done (f w).

(** ** Names *)

Fixpoint names_of (p : bytes) : list bytes :=
  match p with
  | [] => [[]]
  | c :: p =>
      if bool_decide (c = Byte.x2f) then [] :: names_of p
      else match names_of p with [] => [[c]] | s :: r => (c :: s) :: r end
  end.

(** The kernel skips empty names and dots. *)
Definition way (p : bytes) : list bytes := filter (λ s, s ≠ [] ∧ s ≠ bs ".") (names_of p).

Definition kind (e : gmap (list bytes) entry) (p : list bytes) : option entry :=
  match p with [] => Some EDir | _ => e !! p end.

(** Following links, at most [fuel] of them; [done] is where it stands. *)
Fixpoint follow (fuel : nat) (e : gmap (list bytes) entry) (done todo : list bytes) {struct fuel} : option (list bytes) :=
  let fix go done todo :=
    match todo with
    | [] => Some done
    | c :: todo =>
        match kind e done, e !! (done ++ [c]) with
        | Some EDir, Some (ELink t) => match fuel with O => None | S fuel => follow fuel e [] (t ++ todo) end
        | Some EDir, Some _ => go (done ++ [c]) todo
        | _, _ => None
        end
    end in go done todo.

(** The entry that a path leads to, and the one that its last name names. *)
Definition lead (e : gmap (list bytes) entry) (p : bytes) : option (list bytes) := follow 40 e [] (way p).
Definition named (e : gmap (list bytes) entry) (p : bytes) : option (list bytes) :=
  match rev (way p) with
  | [] => None
  | c :: q => (λ d, d ++ [c]) <$> follow 40 e [] (rev q)
  end.

(** The names in a directory. *)
Definition child (p q : list bytes) : option bytes :=
  match rev q with c :: r => if decide (rev r = p) then Some c else None | [] => None end.
Definition children (e : gmap (list bytes) entry) (p : list bytes) : list bytes :=
  omap (child p) (map_to_list e).*1.

(** ** The calls *)

Section calls.

(** The order in which a directory is read. *)
Context (order : list bytes → list bytes).

(** [opendir], and all that [readdir] will return. *)
Definition opendir (path : bytes) : dio (option (list bytes)) :=
  bad ← fault; on (λ w,
  (match lead (entries w) path with
        | Some p => if negb bad && bool_decide (kind (entries w) p = Some EDir)
                    then Some (order ([bs "."; bs ".."] ++ children (entries w) p)) else None
        | None => None
        end, w)).

(** [stat]: [None] is a failure, else whether it is a directory. *)
Definition stat (path : bytes) : dio (option bool) :=
  bad ← fault; on (λ w,
  (if bad : bool then None
        else (λ k, bool_decide (k = EDir)) <$> (lead (entries w) path ≫= kind (entries w)), w)).

Definition unlink (path : bytes) : dio Z :=
  bad ← fault; on (λ w,
  (match named (entries w) path with
        | Some p =>
            match entries w !! p with
            | Some k => if bad || bool_decide (k = EDir) then (-1, w) else (0, mkDirs (delete p (entries w)) (dfaults w))
            | None => (-1, w)
            end
        | None => (-1, w)
        end)).

Definition rmdir (path : bytes) : dio Z :=
  bad ← fault; on (λ w,
  (match named (entries w) path with
        | Some p =>
            if bad || negb (bool_decide (entries w !! p = Some EDir ∧ children (entries w) p = []))
            then (-1, w) else (0, mkDirs (delete p (entries w)) (dfaults w))
        | None => (-1, w)
        end)).

(** [snprintf(buf, len, "%s/%s", path, p->d_name)] fits in [len]. *)
Definition join (path name : bytes) : bytes := path ++ bs "/" ++ name.

(** What the loop does with an entry: [buf] is its path, or there is no memory
    for it. *)
Definition remove_entry (remove : bytes → dio Z) (buf : bytes) : dio Z :=
  nomem ← fault;
  if nomem : bool then mret (-1)
  else
    st ← stat buf;
    match st with
    | None => mret (-1)
    | Some true => remove buf
    | Some false => unlink buf
    end.

(** The loop over what [readdir] returns: it ends as well when a call of
    [readdir] fails, which the code does not tell from the end. *)
Fixpoint remove_entries (remove : bytes → dio Z) (path : bytes) (ns : list bytes) : dio Z :=
  match ns with
  | [] => mret 0
  | n :: ns =>
      last ← fault;
      if last : bool then mret 0
      else if decide (n = bs "." ∨ n = bs "..") then remove_entries remove path ns
      else
        r2 ← remove_entry remove (join path n);
        if r2 =? 0 then remove_entries remove path ns else mret r2
  end.

Fixpoint MyRemoveDirectoryRecursively (fuel : nat) (path : bytes) : dio Z :=
  match fuel with
  | O => (λ _, NoFuel) : dio Z
  | S fuel =>
      d ← opendir path;
      r ← match d with
          | Some ns => remove_entries (MyRemoveDirectoryRecursively fuel) path ns
          | None => mret (-1)
          end;
      if r =? 0 then rmdir path else mret r
  end.

End calls.

(** ** Well-formed file systems *)

Definition good_name (c : bytes) : Prop := c ≠ [] ∧ c ≠ bs "." ∧ c ≠ bs ".." ∧ Byte.x2f ∉ c.

(** Every entry has a good name and is in a directory. *)
Definition wf (e : gmap (list bytes) entry) : Prop :=
  e !! [] = None ∧ ∀ q c, is_Some (e !! (q ++ [c])) → kind e q = Some EDir ∧ good_name c.

Definition no_links (e : gmap (list bytes) entry) (p : list bytes) : Prop :=
  ∀ q t, p `prefix_of` q → e !! q ≠ Some (ELink t).

Lemma kind_some e q k : wf e → e !! q = Some k → kind e q = Some k.
Proof. intros [H _]. destruct q; [congruence|done]. Qed.

(** The way to an entry goes through directories. *)
Lemma way_up e q c r : wf e → is_Some (e !! (q ++ c :: r)) → kind e q = Some EDir ∧ is_Some (e !! (q ++ [c])).
Proof.
  intros W. induction r as [|d r IH] using rev_ind; intros H; [split; [by apply (proj2 W) in H as [? _]|done]|].
  change (q ++ c :: r ++ [d]) with (q ++ (c :: r) ++ [d]) in H. rewrite (assoc_L (++)) in H.
  apply (proj2 W) in H as [H _]. apply IH. destruct (q ++ c :: r) as [|x l] eqn:E; [by destruct q|]. eauto.
Qed.

Lemma way_up_dir e q c r : wf e → r ≠ [] → is_Some (e !! (q ++ c :: r)) → e !! (q ++ [c]) = Some EDir.
Proof.
  intros W Hr H. destruct r as [|d r]; [done|]. replace (q ++ c :: d :: r) with ((q ++ [c]) ++ d :: r) in H by by rewrite <- (assoc_L (++)).
  apply way_up in H as [H _]; [|done]. by destruct q.
Qed.

Lemma follow_step fuel e d c r :
  follow fuel e d (c :: r) = match kind e d, e !! (d ++ [c]) with
    | Some EDir, Some (ELink t) => match fuel with O => None | S fuel => follow fuel e [] (t ++ r) end
    | Some EDir, Some _ => follow fuel e (d ++ [c]) r
    | _, _ => None
    end.
Proof. by destruct fuel. Qed.

(** An entry that is no link is reached by its way. *)
Lemma follow_plain fuel e r : ∀ d, wf e → (∀ t, e !! (d ++ r) ≠ Some (ELink t)) → (r = [] ∨ is_Some (e !! (d ++ r))) →
  follow fuel e d r = Some (d ++ r).
Proof.
  induction r as [|c r IH]; intros d W Hl He; [rewrite app_nil_r; by destruct fuel|]. rewrite follow_step.
  destruct He as [|He]; [done|]. destruct (way_up e d c r W He) as [-> [k Hk]]. rewrite Hk.
  assert (Hn : follow fuel e (d ++ [c]) r = Some (d ++ c :: r)).
  { rewrite IH; rewrite <- ?(assoc_L (++)); cbn; try done. by right. }
  destruct k as [| |t]; [exact Hn|exact Hn|exfalso]. destruct (decide (r = [])) as [->|Hr]; [by apply (Hl t)|].
  pose proof (way_up_dir e d c r W Hr He). congruence.
Qed.

(** Both can be decided. *)
Definition good_way (e : gmap (list bytes) entry) (x : list bytes) (_ : entry) : Prop :=
  match rev x with c :: r => kind e (rev r) = Some EDir ∧ c ≠ [] ∧ c ≠ bs "." ∧ c ≠ bs ".." ∧ Byte.x2f ∉ c | [] => False end.
#[export] Instance good_way_dec e x k : Decision (good_way e x k).
Proof. unfold good_way. destruct (rev x); apply _. Defined.
Definition is_link (k : entry) : bool := match k with ELink _ => true | _ => false end.

Lemma wf_decided e : map_Forall (good_way e) e → wf e.
Proof.
  intros H. split; [apply eq_None_not_Some; intros [k E%H]; exact E|].
  intros q c [k E%H]. unfold good_way in E. by rewrite rev_unit, rev_involutive in E.
Qed.

Lemma no_links_decided e p : map_Forall (λ x k, p `prefix_of` x → is_link k = false) e → no_links e p.
Proof. intros H q t Hp E. by pose proof (H q _ E Hp). Qed.

(** ** Paths *)

Lemma names_of_name n : Byte.x2f ∉ n → names_of n = [n].
Proof.
  induction n as [|c n IH]; [done|]. intros [Hc Hn]%not_elem_of_cons. cbn. rewrite bool_decide_eq_false_2 by congruence. by rewrite IH.
Qed.

Lemma names_of_join p n : names_of (join p n) = names_of p ++ names_of n.
Proof.
  unfold join. induction p as [|c p IH]; [done|]. cbn [names_of app]. rewrite IH. case_bool_decide; [done|].
  destruct (names_of p) eqn:E; [|done]. exfalso. destruct p as [|x p]; [done|]. cbn in E. case_bool_decide; [done|]. by destruct (names_of p).
Qed.

Lemma way_join p n : good_name n → way (join p n) = way p ++ [n].
Proof.
  intros (H1 & H2 & _ & H3). unfold way. rewrite names_of_join, filter_app, (names_of_name n) by done. f_equal.
  by rewrite filter_cons_True by by split.
Qed.

Lemma elem_of_children e p n : n ∈ children e p ↔ is_Some (e !! (p ++ [n])).
Proof.
  unfold children. rewrite list_elem_of_omap. split.
  - intros (q & Hq & Hc). apply list_elem_of_fmap in Hq as ([q' k] & -> & Hq%elem_of_map_to_list). cbn in *. unfold child in Hc.
    destruct (rev q') as [|c r] eqn:E; [done|]. destruct (decide (rev r = p)) as [<-|]; [|done]. injection Hc as ->.
    exists k. rewrite <- Hq. f_equal. rewrite <- (rev_involutive q'), E. done.
  - intros [k Hk]. exists (p ++ [n]). split.
    + apply list_elem_of_fmap. exists (p ++ [n], k). split; [done|]. by apply elem_of_map_to_list.
    + unfold child. rewrite rev_unit, rev_involutive. by rewrite decide_True.
Qed.

Lemma NoDup_children e p : NoDup (children e p).
Proof.
  unfold children. pose proof (NoDup_fst_map_to_list e) as H. revert H. generalize (map_to_list e).*1. intros l.
  induction 1 as [|q l Hq Hl IH]; [constructor|]. cbn. destruct (child p q) as [c|] eqn:Hc; [|done]. constructor; [|done].
  rewrite list_elem_of_omap. intros (q' & Hq' & Hc'). apply Hq. enough (q = q') by congruence.
  assert (Hw : ∀ x, child p x = Some c → x = p ++ [c]).
  { intros x. unfold child. destruct (rev x) as [|d r] eqn:E; [done|]. destruct (decide (rev r = p)) as [<-|]; [|done].
    intros [= <-]. by rewrite <- (rev_involutive x), E. }
  by rewrite (Hw q Hc), (Hw q' Hc').
Qed.

(** ** What a removal leaves *)

(** Of the entry [p] and what is under it: all gone, or [-1] and [p] still there. *)
Record removed (p : list bytes) (e e' : gmap (list bytes) entry) (r : Z) : Prop := {
  rm_wf : wf e';
  rm_sub : e' ⊆ e;
  rm_frame q : ¬ p `prefix_of` q → e' !! q = e !! q;
  rm_result : (r = 0 ∧ ∀ q, p `prefix_of` q → e' !! q = None) ∨ (r = -1 ∧ e' !! p = e !! p) }.

Lemma removed_none p e : wf e → removed p e e (-1).
Proof. intros W. split; auto. Qed.

Lemma delete_leaf e p : wf e → (∀ c, e !! (p ++ [c]) = None) → removed p e (delete p e) 0.
Proof.
  intros W Hc. assert (Hq : ∀ q, p `prefix_of` q → q = p ∨ e !! q = None).
  { intros q [[|c r] ->]; [left; apply app_nil_r|]. right. destruct (e !! (p ++ c :: r)) eqn:E; [|done].
    destruct (way_up e p c r W) as [_ [k Hk]]; [eauto|]. by rewrite Hc in Hk. }
  split.
  - split; [rewrite lookup_delete_None; right; apply W|]. intros q c [k [Hne Hk]%lookup_delete_Some].
    destruct (proj2 W q c) as [Hd Hg]; [eauto|]. split; [|done]. destruct q; [done|]. cbn. rewrite lookup_delete_ne; [done|].
    intros ->. by rewrite Hc in Hk.
  - apply delete_subseteq.
  - intros q Hp. apply lookup_delete_ne. by intros ->.
  - left. split; [done|]. intros q [->|Hn]%Hq; [apply lookup_delete_eq|]. rewrite lookup_delete_None. by right.
Qed.

Lemma sub_some (e e' : gmap (list bytes) entry) q k : e' ⊆ e → e' !! q = Some k → e !! q = Some k.
Proof. intros H Hq. by eapply lookup_weaken. Qed.

Lemma sub_none (e e' : gmap (list bytes) entry) q : e' ⊆ e → e !! q = None → e' !! q = None.
Proof. intros H Hq. destruct (e' !! q) eqn:E; [|done]. pose proof (sub_some e e' q _ H E); congruence. Qed.

Lemma no_links_sub e e' p q : no_links e p → e' ⊆ e → p `prefix_of` q → no_links e' q.
Proof. intros H Hs Hp x t Hx Ht. apply (H x t); [by etrans|]. by eapply sub_some. Qed.

(** The number of entries at and under [p]. *)
Definition weight (e : gmap (list bytes) entry) (p : list bytes) : nat :=
  size (filter (λ x : list bytes * entry, p `prefix_of` x.1) e).

Lemma weight_sub e e' p : e' ⊆ e → (weight e' p ≤ weight e p)%nat.
Proof.
  intros H. apply map_subseteq_size, map_subseteq_spec. intros i x. rewrite !map_lookup_filter_Some.
  intros [Hi Hx]. split; [by eapply lookup_weaken|done].
Qed.

Lemma weight_child e p n k : e !! p = Some k → (weight e (p ++ [n]) < weight e p)%nat.
Proof.
  intros Hk. apply map_subset_size. split.
  - apply map_filter_subseteq_ext. intros i x _ H. etrans; [|exact H]. by apply prefix_app_r.
  - intros H. apply (lookup_weaken _ _ p k) in H; [|by apply map_lookup_filter_Some].
    apply map_lookup_filter_Some in H as [_ H%prefix_length]. rewrite length_app in H. cbn in H. lia.
Qed.

(** ** Every run *)

(** A run that ends with a number, and with 0 if it is [calm]: no call fails. *)
Definition ends (o : outcome (Z * dirs)) (calm : Prop) (post : Z → gmap (list bytes) entry → Prop) : Prop :=
  ∃ r w', o = Done (r, w') ∧ post r (entries w') ∧ (calm → r = 0 ∧ dfaults w' = []).

Lemma ends_fault (m : bool → dio Z) w calm post :
  (calm → dfaults w = []) →
  (∀ b fs, (calm → b = false ∧ fs = []) → ends (m b (mkDirs (entries w) fs)) calm post) → ends ((fault ≫= m) w) calm post.
Proof.
  intros Hc H. unfold mbind, dio_bind, fault. destruct (dfaults w) as [|b fs] eqn:E; rewrite bind_Done.
  - specialize (H false (dfaults w)). rewrite E in H. destruct w. cbn in *. rewrite E. by apply H.
  - apply H. by intros ?%Hc.
Qed.

Lemma dio_assoc {A B C} (m : dio A) (f : A → dio B) (g : B → dio C) w : ((m ≫= f) ≫= g) w = (m ≫= λ x, f x ≫= g) w.
Proof. unfold mbind, dio_bind. by destruct (m w) as [[]| | |]. Qed.

Lemma ends_now (calm : Prop) post r e fs : post r e → (calm → r = 0 ∧ fs = []) → ends (Done (r, mkDirs e fs)) calm post.
Proof. intros. by eexists _, _. Qed.

Section remove.
Context (order : list bytes → list bytes) (Horder : ∀ l, order l ≡ₚ l).

Lemma lead_plain e path k : wf e → e !! way path = Some k → (∀ t, k ≠ ELink t) → lead e path = Some (way path).
Proof.
  intros W Hk Hl. unfold lead. change (way path) with ([] ++ way path) at 2. apply follow_plain; [done| |right; eauto].
  cbn. intros t Ht. apply (Hl t). congruence.
Qed.

Lemma named_plain e path q c k : wf e → way path = q ++ [c] → e !! (q ++ [c]) = Some k → named e path = Some (q ++ [c]).
Proof.
  intros W Hw Hk. unfold named. rewrite Hw, rev_unit, rev_involutive. destruct (proj2 W q c) as [Hd _]; [eauto|].
  change q with ([] ++ q) at 2. rewrite follow_plain; [done|done| |]; cbn.
  - intros t Ht. destruct q; [by rewrite (proj1 W) in Ht|]. cbn in Hd. congruence.
  - destruct q; [by left|right; eauto].
Qed.

(** [unlink] of a file. *)
Lemma unlink_removes path q c w (calm : Prop) : (calm → dfaults w = []) →
  wf (entries w) → way path = q ++ [c] → entries w !! (q ++ [c]) = Some EFile →
  ends (unlink path w) calm (λ r e', removed (q ++ [c]) (entries w) e' r).
Proof.
  intros Hf W Hw Hk. apply ends_fault; [done|]. intros b fs Hb. unfold on. cbn [entries dfaults].
  rewrite (named_plain _ _ _ _ _ W Hw Hk), Hk, bool_decide_eq_false_2, orb_false_r by done.
  destruct b; apply ends_now; try (intros H%Hb; by destruct H); [by apply removed_none|].
  apply delete_leaf; [done|]. intros d. destruct (entries w !! ((q ++ [c]) ++ [d])) eqn:Ed; [|done].
  destruct (proj2 W (q ++ [c]) d) as [Hd _]; [eauto|]. by rewrite (kind_some _ _ _ W Hk) in Hd.
Qed.

(** [rmdir] of a directory: it fails when something is left in it. *)
Lemma rmdir_spec path q c w (calm : Prop) : (calm → dfaults w = []) →
  wf (entries w) → way path = q ++ [c] → entries w !! (q ++ [c]) = Some EDir →
  (calm → ∀ d, entries w !! ((q ++ [c]) ++ [d]) = None) →
  ends (rmdir path w) calm (λ r e', removed (q ++ [c]) (entries w) e' r).
Proof.
  intros Hf W Hw Hk Hc. apply ends_fault; [done|]. intros b fs Hb. unfold on. cbn [entries dfaults].
  rewrite (named_plain _ _ _ _ _ W Hw Hk).
  assert (He : children (entries w) (q ++ [c]) = [] ↔ ∀ d, entries w !! ((q ++ [c]) ++ [d]) = None).
  { split; intros H; [intros d; apply eq_None_not_Some; rewrite <- elem_of_children, H; by apply not_elem_of_nil|].
    apply elem_of_nil_inv. intros d. rewrite elem_of_children, H. by intros []. }
  case_bool_decide as Hd; cbn [negb]; rewrite ?orb_true_r, ?orb_false_r.
  - destruct b; apply ends_now; try (intros H%Hb; by destruct H); [by apply removed_none|].
    apply delete_leaf; [done|]. by apply He, Hd.
  - apply ends_now; [by apply removed_none|]. intros H. destruct Hd. split; [done|]. apply He. by apply Hc.
Qed.

Section entries.
Context (rm : bytes → dio Z) (bound : nat).
Context (Hrm : ∀ path q c w (calm : Prop), (calm → dfaults w = []) → wf (entries w) → way path = q ++ [c] →
  entries w !! (q ++ [c]) = Some EDir → no_links (entries w) (q ++ [c]) → (weight (entries w) (q ++ [c]) < bound)%nat →
  ends (rm path w) calm (λ r e', removed (q ++ [c]) (entries w) e' r)).

Lemma entry_spec path p n k w (calm : Prop) : (calm → dfaults w = []) →
  wf (entries w) → way path = p → entries w !! (p ++ [n]) = Some k → no_links (entries w) p →
  (weight (entries w) (p ++ [n]) < bound)%nat →
  ends (remove_entry rm (join path n) w) calm (λ r e', removed (p ++ [n]) (entries w) e' r).
Proof.
  intros Hf W Hw Hk Hl Hb. assert (Hg : good_name n) by (apply (proj2 W p n); eauto).
  assert (Hway : way (join path n) = p ++ [n]) by (by rewrite way_join, Hw).
  assert (Hpn : p `prefix_of` p ++ [n]) by by apply prefix_app_r.
  assert (Hnl : ∀ t, k ≠ ELink t) by (intros t ->; by apply (Hl (p ++ [n]) t)).
  unfold remove_entry. apply ends_fault; [done|]. intros [|] fs Hb1; [apply ends_now; [by apply removed_none|intros H%Hb1; by destruct H]|].
  unfold stat. rewrite dio_assoc. apply ends_fault; [apply Hb1|]. intros b fs2 Hb2.
  unfold mbind at 1, dio_bind, on. rewrite bind_Done. cbv beta iota. cbn [entries dfaults].
  destruct b; [apply ends_now; [by apply removed_none|intros H%Hb2; by destruct H]|].
  rewrite (lead_plain _ _ k); [|done|by rewrite Hway|done]. rewrite Hway. cbn. rewrite (kind_some _ _ _ W Hk). cbn.
  destruct k as [| |t]; [| |by destruct (Hnl t)].
  - rewrite bool_decide_eq_false_2 by done. change (entries w) with (entries (mkDirs (entries w) fs2)). apply unlink_removes; try done. apply Hb2.
  - rewrite bool_decide_eq_true_2 by done. change (entries w) with (entries (mkDirs (entries w) fs2)). apply Hrm; try done; [apply Hb2|].
    by eapply no_links_sub.
Qed.

Lemma entries_spec path p : way path = p → ∀ ns w (calm : Prop), (calm → dfaults w = []) →
  wf (entries w) → no_links (entries w) p → NoDup ns →
  (∀ n, n ∈ ns → n ≠ bs "." → n ≠ bs ".." → is_Some (entries w !! (p ++ [n])) ∧ (weight (entries w) (p ++ [n]) < bound)%nat) →
  ends (remove_entries rm path ns w) calm (λ r e',
    wf e' ∧ e' ⊆ entries w ∧ (r = 0 ∨ r = -1) ∧
    (∀ q, ¬ (p `prefix_of` q ∧ p ≠ q) → e' !! q = entries w !! q) ∧
    (calm → ∀ n q, n ∈ ns → n ≠ bs "." → n ≠ bs ".." → (p ++ [n]) `prefix_of` q → e' !! q = None)).
Proof.
  intros Hw. induction ns as [|n ns IH]; intros w calm Hf W Hl Hnd Hns; cbn [remove_entries].
  - destruct w. apply ends_now; [|by intros ?%Hf]. split_and!; try done; [by left|]. by intros _ m q Hm%not_elem_of_nil.
  - apply NoDup_cons in Hnd as [Hn Hnd]. apply ends_fault; [done|]. intros [|] fs Hb.
    { apply ends_now; [|intros H%Hb; by destruct H]. split_and!; try done; [by left|]. intros H%Hb. by destruct H. }
    case_decide as Hdot.
    { destruct (IH (mkDirs (entries w) fs) calm) as (r & w' & E & (W' & Hs & Hr & Hfr & Hz) & Hc); try done; [apply Hb|intros m Hm; apply Hns; by right|].
      exists r, w'. split; [done|]. split; [|done]. split_and!; try done.
      intros H0 m q [->|Hm]%elem_of_cons; [by destruct Hdot|by apply Hz]. }
    destruct (Hns n) as [[k Hk] Hwt]; [by left|tauto..|].
    destruct (entry_spec path p n k (mkDirs (entries w) fs) calm (λ H, proj2 (Hb H)) W Hw Hk Hl Hwt) as (r & w1 & E & [W1 Hs1 Hf1 Hr1] & Hc1).
    unfold mbind at 1, dio_bind. rewrite E, bind_Done. cbv beta iota. cbn [entries] in *.
    assert (Hpre : ∀ m q, m ≠ n → (p ++ [m]) `prefix_of` q → ¬ (p ++ [n]) `prefix_of` q).
    { intros m q Hm [x ->] [y H]. rewrite <- !(assoc_L (++)) in H. apply app_inv_head in H. by injection H. }
    assert (Hout : ∀ q, ¬ (p `prefix_of` q ∧ p ≠ q) → ¬ (p ++ [n]) `prefix_of` q).
    { intros q Hq [x ->]. apply Hq. rewrite <- (assoc_L (++)). split; [by apply prefix_app_r|].
      intros H. rewrite <- (app_nil_r p) in H at 1. by apply app_inv_head in H. }
    destruct Hr1 as [[-> Hgone]|[-> Hstay]].
    + change (0 =? 0) with true. cbv iota.
      destruct (IH w1 calm) as (r & w' & E' & (W' & Hs & Hr & Hfr & Hz) & Hc); [intros H%Hc1; tauto|done|by eapply no_links_sub|done| |].
      { intros m Hm H1 H2. destruct (Hns m) as [Hm1 Hm2]; [by right|done..|]. rewrite Hf1.
        - split; [done|]. pose proof (weight_sub _ _ (p ++ [m]) Hs1). lia.
        - apply (Hpre m); [by intros ->|done]. }
      exists r, w'. split; [done|]. split; [|done]. split_and!; try done; [by etrans| |].
      * intros q Hq. rewrite Hfr by done. apply Hf1. by apply Hout.
      * intros Hcalm m q [->|Hm]%elem_of_cons H1 H2 Hq; [|by apply (Hz Hcalm m)]. apply (sub_none (entries w1)); [done|]. by apply Hgone.
    + change (-1 =? 0) with false. cbv iota. exists (-1), w1. split; [done|]. split; [|intros H%Hc1; destruct H; lia].
      split_and!; try done; [by right| |intros H%Hc1; destruct H; lia]. intros q Hq. apply Hf1. by apply Hout.
Qed.

End entries.

(** What a directory lists of its entries. *)
Lemma listing e p : wf e →
  NoDup (order ([bs "."; bs ".."] ++ children e p)) ∧
  ∀ n, n ∈ order ([bs "."; bs ".."] ++ children e p) ∧ n ≠ bs "." ∧ n ≠ bs ".." ↔ is_Some (e !! (p ++ [n])).
Proof.
  intros W. assert (Hg : ∀ n, n ∈ children e p → n ≠ bs "." ∧ n ≠ bs "..").
  { intros n Hn%elem_of_children. by apply (proj2 W) in Hn as [_ (_ & ? & ? & _)]. }
  rewrite Horder. split.
  - cbn. rewrite !NoDup_cons. split_and!; [|by intros [_ H]%Hg|by apply NoDup_children].
    intros [H|[H _]%Hg]%elem_of_cons; done.
  - intros n. rewrite Horder, <- elem_of_children. cbn. rewrite !elem_of_cons. split; [tauto|]. intros H. pose proof (Hg n H). tauto.
Qed.

(** A removal of a directory under which there are no links. *)
Lemma remove_spec fuel : ∀ path q c w (calm : Prop), (calm → dfaults w = []) → wf (entries w) → way path = q ++ [c] →
  entries w !! (q ++ [c]) = Some EDir → no_links (entries w) (q ++ [c]) → (weight (entries w) (q ++ [c]) < fuel)%nat →
  ends (MyRemoveDirectoryRecursively order fuel path w) calm (λ r e', removed (q ++ [c]) (entries w) e' r).
Proof.
  induction fuel as [|fuel IH]; intros path q c w calm Hf W Hw Hk Hl Hwt; [lia|]. cbn [MyRemoveDirectoryRecursively].
  unfold opendir at 1. rewrite dio_assoc. apply ends_fault; [done|]. intros b fs Hb.
  unfold mbind at 1, dio_bind at 1, on at 1. rewrite bind_Done. cbv beta iota. cbn [entries dfaults].
  rewrite (lead_plain _ _ EDir W); [|by rewrite Hw|done]. rewrite Hw, (kind_some _ _ _ W Hk), bool_decide_eq_true_2 by done.
  destruct b; cbn [negb andb].
  { unfold mret, dio_ret, mbind, dio_bind. rewrite bind_Done. cbn. apply ends_now; [by apply removed_none|]. intros H%Hb. by destruct H. }
  destruct (listing (entries w) (q ++ [c]) W) as [Hnd Hls].
  destruct (entries_spec _ fuel IH path (q ++ [c]) Hw _ (mkDirs (entries w) fs) calm (λ H, proj2 (Hb H)) W Hl Hnd) as (r & w1 & E & (W1 & Hs & Hr & Hfr & Hz) & Hc).
  { intros n H1 H2 H3. split; [by apply Hls|]. cbn [entries]. pose proof (weight_child _ (q ++ [c]) n _ Hk). lia. }
  unfold mbind, dio_bind. rewrite E, bind_Done. cbv beta iota. cbn [entries] in *.
  assert (Hk1 : entries w1 !! (q ++ [c]) = Some EDir) by (rewrite Hfr; [done|tauto]).
  assert (Hout : ∀ x, ¬ (q ++ [c]) `prefix_of` x → entries w1 !! x = entries w !! x) by (intros; apply Hfr; tauto).
  destruct Hr as [-> | ->].
  - change (0 =? 0) with true. cbv iota.
    destruct (rmdir_spec path q c w1 calm) as (r & w2 & E2 & [W2 Hs2 Hf2 Hr2] & Hc2); [by intros [_ H]%Hc|done..| |].
    { intros H d. destruct (entries w1 !! ((q ++ [c]) ++ [d])) as [k|] eqn:Ed; [|done].
      destruct (proj2 (Hls d)) as (H1 & H2 & H3); [exists k; by eapply sub_some|].
      by rewrite (Hz H d) in Ed. }
    exists r, w2. split; [done|]. split; [|done]. split; [done|by etrans| |rewrite Hk1 in Hr2; by rewrite Hk].
    intros x Hx. by rewrite Hf2, Hout.
  - change (-1 =? 0) with false. cbv iota. exists (-1), w1. split; [done|]. split; [|intros H%Hc; destruct H; lia].
    split; [done|done|done|]. right. by rewrite Hk1.
Qed.

End remove.

(** C37: a call of [MyRemoveDirectoryRecursively] on a directory with no link
    under it always ends, with 0 or -1, and never touches an entry outside it;
    it returns 0 if and only if the directory and all that was under it are
    gone, in whatever order the directories are listed and whichever calls
    fail, and returns 0 when none does. *)
Theorem directory_removed order (Horder : ∀ l, order l ≡ₚ l) path q c e faults fuel :
  wf e → way path = q ++ [c] → e !! (q ++ [c]) = Some EDir → no_links e (q ++ [c]) →
  (weight e (q ++ [c]) < fuel)%nat →
  ∃ r e' rest, MyRemoveDirectoryRecursively order fuel path (mkDirs e faults) = Done (r, mkDirs e' rest) ∧
    wf e' ∧ e' ⊆ e ∧ (∀ x, ¬ (q ++ [c]) `prefix_of` x → e' !! x = e !! x) ∧ (r = 0 ∨ r = -1) ∧
    (r = 0 ↔ ∀ x, (q ++ [c]) `prefix_of` x → e' !! x = None) ∧ (faults = [] → r = 0).
Proof.
  intros W Hw Hk Hl Hf.
  destruct (remove_spec order Horder fuel path q c (mkDirs e faults) (faults = []) id W Hw Hk Hl Hf) as (r & [e' rest] & E & [W' Hs Hfr Hr] & Hc).
  exists r, e', rest. split; [done|]. cbn in *. split; [done|]. split; [done|]. split; [done|]. split; [tauto|]. split; [|by intros [H _]%Hc].
  destruct Hr as [[-> Hg]|[-> Hst]]; [by split|]. split; [done|]. intros H. specialize (H (q ++ [c]) (reflexivity _)). congruence.
Qed.

(** A directory with a file, and one with a file in it, beside another. *)
Definition demo_tree : gmap (list bytes) entry :=
  {[ [bs "tmp"] := EDir; [bs "tmp"; bs "a"] := EFile; [bs "tmp"; bs "d"] := EDir; [bs "tmp"; bs "d"; bs "b"] := EFile;
     [bs "home"] := EDir; [bs "home"; bs "f"] := EFile ]}.
(** A run without faults, and one where the second entry cannot be removed. *)
Example demo_removed :
  MyRemoveDirectoryRecursively id 9 (bs "./tmp") (mkDirs demo_tree []) =
    Done (0, mkDirs {[ [bs "home"] := EDir; [bs "home"; bs "f"] := EFile ]} []).
Proof. vm_compute. reflexivity. Qed.
Example demo_kept :
  match MyRemoveDirectoryRecursively id 9 (bs "./tmp") (mkDirs demo_tree (replicate 5 false ++ [true])) with
  | Done (r, w) => r = -1 ∧ is_Some (entries w !! [bs "tmp"])
  | _ => False
  end.
Proof. vm_compute. split; [reflexivity|eexists; reflexivity]. Qed.

(** [stat] follows links: the link [tmp/l] to [home] has everything in [home]
    deleted, outside the directory, and then [rmdir] of the link fails, so
    neither goes away and the call returns -1. *)
Example demo_link :
  MyRemoveDirectoryRecursively id 9 (bs "./tmp")
    (mkDirs {[ [bs "tmp"] := EDir; [bs "tmp"; bs "l"] := ELink [bs "home"]; [bs "home"] := EDir; [bs "home"; bs "f"] := EFile ]} []) =
    Done (-1, mkDirs {[ [bs "tmp"] := EDir; [bs "tmp"; bs "l"] := ELink [bs "home"]; [bs "home"] := EDir ]} []).
Proof. vm_compute. reflexivity. Qed.

Lemma directory_removed_witness :
  ∃ r e' rest, MyRemoveDirectoryRecursively (@rev _) 9 (bs "./tmp") (mkDirs demo_tree [false; false; true]) = Done (r, mkDirs e' rest) ∧
    wf e' ∧ e' ⊆ demo_tree ∧ (∀ x, ¬ [bs "tmp"] `prefix_of` x → e' !! x = demo_tree !! x) ∧ (r = 0 ∨ r = -1) ∧
    (r = 0 ↔ ∀ x, [bs "tmp"] `prefix_of` x → e' !! x = None) ∧ ([false; false; true] = [] → r = 0).
Proof.
  apply (directory_removed (@rev _) (λ l, symmetry (Permutation_rev l)) (bs "./tmp") [] (bs "tmp") demo_tree).
  - apply wf_decided. apply (bool_decide_unpack _). vm_compute. exact I.
  - vm_compute. reflexivity.
  - vm_compute. reflexivity.
  - apply no_links_decided. apply (bool_decide_unpack _). vm_compute. exact I.
  - vm_compute. repeat constructor.
Defined.
