(* ===== verification/StoreLog.v ===== *)
(** * storage::Log (src/include/storage/log.h, src/storage/log.cc)

    The log record of the storage engine: its byte layout, its order, and the
    length-prefixed frames in which it goes to and comes from files. *)

From S2P Require Import Prelude StdContainers Status Posix.

(** [enum Op { PUT, DEL }]; [OpBits] is any other bit pattern of the 32-bit
    object (an uninitialised or a decoded one). *)
Inductive Op : Type := PUT | DEL | OpBits (z : Z).

#[export] Instance Op_eq_dec : EqDecision Op.
Proof. solve_decision. Defined.

Definition op_to_int (o : Op) : Z := match o with PUT => 0 | DEL => 1 | OpBits z => z end.
Definition op_of_int (z : Z) : Op :=
  if wrap32 z =? 0 then PUT else if wrap32 z =? 1 then DEL else OpBits (wrap32 z).

Module Log.

Record t : Type := mk { lsn : Z; size : Z; key : bytes; value : bytes; op : Op }.

#[export] Instance t_eq_dec : EqDecision t.
Proof. solve_decision. Defined.

Definition u64_max : Z := 2 ^ 64 - 1.

(** [Log(l, o, k, v)]; [sizeof(Op)] is 4. *)
Definition make (l : Z) (o : Op) (k v : bytes) : t :=
  mk l (wrap64 (3 * 8 + zlen k + zlen v + 4)) k v o.

(** [Log()] leaves [op] uninitialised; [PUT] stands for its bits. *)
Definition empty : t := mk u64_max 0 [] [] PUT.

Definition IsValid (l : t) : bool := negb (lsn l =? u64_max).
Definition Reset (l : t) : t := mk u64_max (size l) (key l) (value l) (op l).
Definition Size (l : t) : Z := size l.

Definition encoded (l : t) : bytes :=
  u64_bytes (lsn l) ++ i32_bytes (op_to_int (op l)) ++ u64_bytes (zlen (key l)) ++ key l ++
  u64_bytes (zlen (value l)) ++ value l.

Definition Encode (l : t) : Status * bytes := (OK, encoded l).

(** The operation is read as eight bytes and cast to the 4-byte enum. *)
Definition Decode (s : bytes) : outcome (Status * t) :=
  lsn ← peek64 s 0;
  opw ← peek64 s 8;
  size1 ← peek64 s (8 + 4);
  key ← substr s (2 * 8 + 4) size1;
  size2 ← peek64 s (2 * 8 + 4 + size1);
  value ← substr s (wrap64 (3 * 8 + 4 + size1)) size2;
  Done (OK, mk lsn (wrap64 (size1 + size2 + 4 + 3 * 8)) key value (op_of_int opw)).

Definition Write_ (l : t) (fd : Z) : io (Status * Z) :=
  let writed := wrap64 (size l + 8) in
  r ← write_ fd (u64_bytes writed);
  if r <? 0 then mret (Corruption (bs "write fail when write log"), writed)
  else
    let '(ret, tmp_str) := Encode l in
    if negb (IsOK ret) then mret (ret, writed)
    else
      d ← lift (c_str_prefix tmp_str (size l));
      r ← write_ fd d;
      if r <? 0 then mret (Corruption (bs "write fail when write log"), writed)
      else mret (ret, writed).

(** [Write(fd)] *)
Definition Write (l : t) (fd : Z) : io Status := p ← Write_ l fd; mret p.1.

(** [Read(fd, readed)]: [readed] is overwritten by the bytes that could be
    read; [new char[]] throws on a length above [PTRDIFF_MAX]; the tail of the
    buffer that a short read leaves is uninitialised. *)
Definition Read_ (l : t) (fd readed : Z) : io (Status * t * Z) :=
  '(r, data) ← read_ fd 8;
  if r <? 0 then mret (Corruption (bs "read fail when read log"), l, readed)
  else
    let readed := le_val (data ++ drop (length data) (u64_bytes readed)) in
    let n := wrap64 (readed - 8) in
    if 2 ^ 63 <=? n then lift Throws
    else
      '(r, buf) ← read_ fd n;
      if r <? 0 then mret (Corruption (bs "read fail when read log"), l, readed)
      else if zlen buf <? n then lift Undef
      else
        '(ret, l') ← lift (Decode buf);
        if negb (IsOK ret) then mret (ret, l', readed)
        else
          _ ← lift (ensure (size l' =? n));
          mret (ret, l', readed).

(** [Read(fd)] *)
Definition Read (l : t) (fd : Z) : io (Status * t) :=
  '(ret, l', _) ← Read_ l fd 0; mret (ret, l').

(** [operator<]: by key, then newest first. *)
Definition less_log (left right : t) : bool :=
  if bytes_ltb (key left) (key right) then true
  else if bytes_ltb (key right) (key left) then false
  else lsn right <? lsn left.

End Log.

#[export] Instance less_Log : Less Log.t := Log.less_log.

(** ** The order *)

#[export] Instance less_Log_laws : LessLaws Log.t.
Proof.
  pose proof (@less_irrefl bytes _ _) as Hi. pose proof (@less_trans bytes _ _) as Ht.
  pose proof (@less_neg_trans bytes _ _) as Hn. unfold less, less_bytes in *.
  split; unfold less, less_Log, Log.less_log.
  - intros a. by rewrite Hi, Z.ltb_irrefl.
  - intros a b c. specialize (Ht (Log.key a) (Log.key b) (Log.key c)).
    pose proof (@less_neg_l bytes _ _ (Log.key a) (Log.key b) (Log.key c)) as Hl.
    pose proof (@less_neg_r bytes _ _ (Log.key a) (Log.key b) (Log.key c)) as Hr.
    pose proof (Hn (Log.key c) (Log.key b) (Log.key a)) as Hn'.
    unfold less, less_bytes in *.
    destruct (bytes_ltb (Log.key a) (Log.key b)), (bytes_ltb (Log.key b) (Log.key a)),
      (bytes_ltb (Log.key b) (Log.key c)), (bytes_ltb (Log.key c) (Log.key b)); try done;
    rewrite ?Ht, ?Hl, ?Hr, ?Hn' by done; try done;
    destruct (bytes_ltb (Log.key a) (Log.key c)); try done; lia.
  - intros a b c. pose proof (Hn (Log.key a) (Log.key b) (Log.key c)) as H1.
    pose proof (Ht (Log.key c) (Log.key b) (Log.key a)) as H2.
    pose proof (@less_neg_l bytes _ _ (Log.key c) (Log.key b) (Log.key a)) as Hl.
    pose proof (@less_neg_r bytes _ _ (Log.key c) (Log.key b) (Log.key a)) as Hr.
    unfold less, less_bytes in *.
    destruct (bytes_ltb (Log.key a) (Log.key b)), (bytes_ltb (Log.key b) (Log.key a)),
      (bytes_ltb (Log.key b) (Log.key c)), (bytes_ltb (Log.key c) (Log.key b)); try done;
    rewrite ?H1, ?H2, ?Hl, ?Hr by done; try done;
    destruct (bytes_ltb (Log.key c) (Log.key a)); try done; lia.
Qed.

(** ** Well-formed records

    What the four-argument constructor builds from a 64-bit sequence number,
    an operation and strings that fit in memory. *)

Definition log_wf (l : Log.t) : Prop :=
  0 ≤ Log.lsn l < 2 ^ 64 ∧ Log.op l ≠ OpBits (op_to_int (Log.op l)) ∧
  Log.size l = 28 + zlen (Log.key l) + zlen (Log.value l) ∧ Log.size l < 2 ^ 63.

#[export] Instance log_wf_dec l : Decision (log_wf l).
Proof. unfold log_wf. apply _. Defined.

(** The frame [Write] appends to a file and [Read] consumes. *)
Definition frame (l : Log.t) : bytes := u64_bytes (Log.size l + 8) ++ Log.encoded l.
Definition frames (ls : list Log.t) : bytes := concat (frame <$> ls).

#[global] Arguments frame : simpl never.
#[global] Arguments Log.encoded : simpl never.

#[global] Arguments frames : simpl never.
Lemma frames_nil : frames [] = [].
Proof. done. Qed.
Lemma frames_cons l ls : frames (l :: ls) = frame l ++ frames ls.
Proof. done. Qed.
Lemma frames_app ls ls' : frames (ls ++ ls') = frames ls ++ frames ls'.
Proof. unfold frames. by rewrite fmap_app, concat_app. Qed.

Lemma make_wf n o k v :
  0 ≤ n < 2 ^ 64 → o = PUT ∨ o = DEL → 28 + zlen k + zlen v < 2 ^ 63 → log_wf (Log.make n o k v).
Proof.
  intros Hn Ho Hs. unfold log_wf; simpl.
  rewrite wrap_small by lia.
  destruct Ho as [-> | ->]; naive_solver lia.
Qed.

Lemma length_encoded l : zlen (Log.encoded l) = 28 + zlen (Log.key l) + zlen (Log.value l).
Proof. unfold Log.encoded. len. Qed.

Lemma length_frame l : log_wf l → zlen (frame l) = Log.size l + 8.
Proof.
  intros (_&_&Hs&_). unfold frame. rewrite length_app, Nat2Z.inj_add, length_encoded. len.
Qed.

Lemma op_of_int_bits o z : o ≠ OpBits (op_to_int o) → op_of_int (op_to_int o + 2 ^ 32 * z) = o.
Proof.
  intros Ho. unfold op_of_int. replace (wrap32 (op_to_int o + 2 ^ 32 * z)) with (wrap32 (op_to_int o)).
  - by destruct o.
  - unfold wrap. rewrite (Z.mul_comm (2 ^ 32)), Z.mod_add; [done|lia].
Qed.

Lemma take_le_val_app (a b : bytes) n :
  le_val (take n (a ++ b)) = le_val (take n a) + 256 ^ zlen (take n a) * le_val (take (n - length a) b).
Proof.
  rewrite take_app. generalize (take (n - length a) b) as c. generalize (take n a) as d. clear.
  intros d c. induction d as [|x d IH]; cbn [app le_val length]; [lia|].
  rewrite IH, Nat2Z.inj_succ, Z.pow_succ_r by lia. lia.
Qed.

(** Reading the operation as eight bytes picks up half of the key length, which
    the cast drops. *)
Lemma peek_op l r :
  log_wf l →
  ∃ z, peek64 (Log.encoded l ++ r) 8 = Done z ∧ op_of_int z = Log.op l.
Proof.
  intros (_&Ho&_). unfold peek. rewrite length_app, Nat2Z.inj_add, length_encoded.
  do 2 test_true. cbn [andb]. cbv iota.
  eexists; split; [reflexivity|].
  unfold Log.encoded. rewrite <- !app_assoc.
  replace (Z.to_nat 8) with (length (u64_bytes (Log.lsn l))) by len.
  rewrite drop_app_length, take_le_val_app.
  rewrite take_ge by len. rewrite le_val_i32.
  replace (zlen (i32_bytes (op_to_int (Log.op l)))) with 4 by len.
  replace (wrap32 (op_to_int (Log.op l))) with (op_to_int (Log.op l)) by (by destruct (Log.op l)).
  by apply (op_of_int_bits (Log.op l)).
Qed.

(** Decoding ignores what follows the record. *)
Lemma decode_encoded_app l r : log_wf l → Log.Decode (Log.encoded l ++ r) = Done (OK, l).
Proof.
  intros Hwf. pose proof (peek_op l r Hwf) as (opw & Hopw & Hop).
  destruct Hwf as (Hlsn & Ho & Hsz & Hmax). destruct l as [n s k v o].
  cbn [Log.lsn Log.size Log.key Log.value Log.op] in *.
  unfold Log.Decode.
  pose (h0 := u64_bytes n). pose (h1 := h0 ++ i32_bytes (op_to_int o)).
  pose (h2 := h1 ++ u64_bytes (zlen k)). pose (h3 := h2 ++ k). pose (h4 := h3 ++ u64_bytes (zlen v)).
  set (e := Log.encoded _ ++ r) in *.
  assert (e = [] ++ h0 ++ (i32_bytes (op_to_int o) ++ u64_bytes (zlen k) ++ k ++ u64_bytes (zlen v) ++ v ++ r) ∧
    e = h1 ++ u64_bytes (zlen k) ++ (k ++ u64_bytes (zlen v) ++ v ++ r) ∧
    e = h2 ++ k ++ (u64_bytes (zlen v) ++ v ++ r) ∧
    e = h3 ++ u64_bytes (zlen v) ++ v ++ r ∧ e = h4 ++ v ++ r) as (E0 & E1 & E2 & E3 & E4)
    by (unfold e, h4, h3, h2, h1, h0, Log.encoded; by rewrite <- !app_assoc).
  assert (zlen h1 = 8 + 4 ∧ zlen h2 = 2 * 8 + 4 ∧ zlen h3 = 2 * 8 + 4 + zlen k ∧
    zlen h4 = 3 * 8 + 4 + zlen k) as (L1 & L2 & L3 & L4)
    by (unfold h4, h3, h2, h1, h0; len).
  rewrite E0 at 1. rewrite (peek_app 8 [] h0 _), bind_Done, Hopw, bind_Done by (unfold h0; len).
  rewrite E1 at 1. rewrite <- L1, peek_app, bind_Done by len.
  unfold h0. rewrite !le_val_u64, (wrap_small 64 (zlen k)) by lia.
  rewrite E2 at 1. rewrite <- L2, substr_app, bind_Done, L2, <- L3 by done.
  rewrite E3 at 1. rewrite peek_app, bind_Done by len.
  rewrite le_val_u64, (wrap_small 64 (zlen v)) by lia.
  rewrite <- L4, (wrap_small 64 (zlen h4)) by lia.
  rewrite E4 at 1. rewrite substr_app, bind_Done by done.
  rewrite wrap_small, wrap_small, Hop by lia. do 3 f_equal. lia.
Qed.

Lemma decode_encoded l : log_wf l → Log.Decode (Log.encoded l) = Done (OK, l).
Proof. intros Hwf. rewrite <- (app_nil_r (Log.encoded l)). by apply decode_encoded_app. Qed.

(** Reading at the start of a frame delivers its record and moves the
    descriptor past it. *)
Lemma Read_frame w fd p (a c : bytes) l l0 r0 :
  faults w = [] → log_wf l →
  fdt w !! fd = Some (mkFd p (zlen a)) → files w !! p = Some (a ++ frame l ++ c) →
  Log.Read_ l0 fd r0 w =
    Done ((OK, l, zlen (frame l)), set_fdt (<[fd := mkFd p (zlen (a ++ frame l))]> (fdt w)) w).
Proof.
  intros Hnf Hwf Hfd Hp. pose proof (length_frame l Hwf) as Hlen.
  pose proof (length_encoded l) as Henc.
  pose proof Hwf as (_&_&Hsz&Hmax). unfold Log.Read_.
  unfold frame in Hp. rewrite <- app_assoc in Hp.
  io_step (read_at _ Hnf _ 8 _ _ _ _ Hfd Hp); [by len|]. test_false.
  rewrite drop_ge, app_nil_r by len. rewrite le_val_u64, (wrap_small 64 (Log.size l + 8)) by lia.
  rewrite Z.add_simpl_r, (wrap_small 64 (Log.size l)) by lia. test_false.
  io_step (read_at (set_fdt _ w) Hnf _ (Log.size l) p _ (Log.encoded l) c);
    [apply lookup_insert_eq|simpl; by rewrite Hp, <- app_assoc|lia|]. test_false. test_false.
  io_step (lift_Done _ _ _ (decode_encoded l Hwf)).
  ok_test.
  rewrite Z.eqb_refl, Hlen. io_step (lift_Done (ensure true) tt); [done|].
  unfold set_fdt, mret, io_ret. cbn [files fdt next_fd faults]. rewrite insert_insert_eq.
  unfold frame. by rewrite <- app_assoc.
Qed.

(** Writing at the end of a file appends the frame. *)
Lemma Write_frame w fd p (c : bytes) l :
  faults w = [] → log_wf l →
  fdt w !! fd = Some (mkFd p (zlen c)) → files w !! p = Some c →
  Log.Write_ l fd w =
    Done ((OK, zlen (frame l)),
          mkWorld (<[p := c ++ frame l]> (files w))
            (<[fd := mkFd p (zlen (c ++ frame l))]> (fdt w)) (next_fd w) []).
Proof.
  intros Hnf Hwf Hfd Hp. pose proof (length_frame l Hwf) as Hlen.
  pose proof (length_encoded l) as Henc.
  pose proof Hwf as (_&_&Hsz&Hmax).
  unfold Log.Write_. rewrite (wrap_small 64 (Log.size l + 8)) by lia.
  io_step (write_end _ Hnf _ _ _ _ Hfd Hp). test_false. unfold Log.Encode.
  ok_test.
  io_step (lift_Done _ (Log.encoded l)); [apply c_str_prefix_all; lia|].
  io_step write_end; [done|simpl; apply lookup_insert_eq|simpl; apply lookup_insert_eq|].
  test_false.
  unfold mret, io_ret. cbn [files fdt next_fd faults]. rewrite !insert_insert_eq, Hnf, Hlen.
  unfold frame. by rewrite <- app_assoc.
Qed.
