(* ===== verification/SstMeta.v ===== *)
(** * SSTMeta (src/storage/sstable/sst_meta.cc)

    The header of a table file: the last record, the offset at which the data
    starts and the size of the data. *)

From S2P Require Import Prelude StdContainers Status Posix StoreLog.

Module SSTMeta.

Record t : Type := mk { last_log_ : Log.t; data_offset_ : Z; data_size_ : Z }.

(** [SSTMeta()] *)
Definition empty : t := mk Log.empty 0 0.

Definition Size (m : t) : Z := wrap64 (Log.Size (last_log_ m) + 2 * 8).

Definition Encode (m : t) : Status * bytes :=
  let '(ret, data) := Log.Encode (last_log_ m) in
  if negb (IsOK ret) then (ret, [])
  else
    let meta := data ++ u64_bytes (data_offset_ m) ++ u64_bytes (data_size_ m) in
    if negb (zlen meta =? Size m)
    then (Corruption (bs "encodconst e to a different dumber"), meta)
    else (ret, meta).

Definition Decode (m : t) (meta : bytes) : outcome (Status * t) :=
  '(ret, l) ← Log.Decode meta;
  if negb (IsOK ret) then Done (ret, mk l (data_offset_ m) (data_size_ m))
  else
    let size := Log.Size l in
    off ← peek64 meta size;
    sz ← peek64 meta (wrap64 (size + 8));
    Done (ret, mk l off sz).

Definition Write_ (m : t) (fd : Z) : io (Status * Z) :=
  let writed := wrap64 (Size m + 8) in
  r ← write_ fd (u64_bytes writed);
  if r <? 0 then mret (Corruption (bs "write fail when write meta"), writed)
  else
    let '(ret, tmp_str) := Encode m in
    if negb (IsOK ret) then mret (ret, writed)
    else
      d ← lift (c_str_prefix tmp_str (Size m));
      r ← write_ fd d;
      if r <? 0 then mret (Corruption (bs "write fail when write meta"), writed)
      else mret (ret, writed).

Definition Write (m : t) (fd : Z) : io Status := p ← Write_ m fd; mret p.1.

Definition Read_ (m : t) (fd readed : Z) : io (Status * t * Z) :=
  '(r, data) ← read_ fd 8;
  if r <? 0 then mret (Corruption (bs "read fail when read meta"), m, readed)
  else
    let readed := le_val (data ++ drop (length data) (u64_bytes readed)) in
    let n := wrap64 (readed - 8) in
    if 2 ^ 63 <=? n then lift Throws
    else
      '(r, buf) ← read_ fd n;
      if r <? 0 then mret (Corruption (bs "read fail when read meta"), m, readed)
      else if zlen buf <? n then lift Undef
      else
        '(ret, m') ← lift (Decode m buf);
        if negb (IsOK ret) then mret (ret, m', readed)
        else
          _ ← lift (ensure (Size m' =? n));
          mret (ret, m', readed).

Definition Read (m : t) (fd : Z) : io (Status * t) :=
  '(ret, m', _) ← Read_ m fd 0; mret (ret, m').

End SSTMeta.

Definition meta_wf (m : SSTMeta.t) : Prop :=
  log_wf (SSTMeta.last_log_ m) ∧ Log.size (SSTMeta.last_log_ m) + 16 < 2 ^ 63 ∧
  0 ≤ SSTMeta.data_offset_ m < 2 ^ 64 ∧ 0 ≤ SSTMeta.data_size_ m < 2 ^ 64.

#[export] Instance meta_wf_dec m : Decision (meta_wf m).
Proof. unfold meta_wf. apply _. Defined.

Definition meta_bytes (m : SSTMeta.t) : bytes :=
  Log.encoded (SSTMeta.last_log_ m) ++
  u64_bytes (SSTMeta.data_offset_ m) ++ u64_bytes (SSTMeta.data_size_ m).
Definition meta_frame (m : SSTMeta.t) : bytes := u64_bytes (SSTMeta.Size m + 8) ++ meta_bytes m.

Section wf.
Context (m : SSTMeta.t) (Hwf : meta_wf m).

Lemma meta_Size : SSTMeta.Size m = Log.size (SSTMeta.last_log_ m) + 16.
Proof.
  destruct Hwf as ((_&_&Hs&_)&Hsz&_). unfold SSTMeta.Size, Log.Size. apply wrap_small; lia.
Qed.

Lemma length_meta_bytes : zlen (meta_bytes m) = SSTMeta.Size m.
Proof.
  rewrite meta_Size. destruct Hwf as ((_&_&Hs&_)&Hsz&_). unfold meta_bytes.
  pose proof (length_encoded (SSTMeta.last_log_ m)). len.
Qed.

Lemma length_meta_frame : zlen (meta_frame m) = SSTMeta.Size m + 8.
Proof. unfold meta_frame. pose proof length_meta_bytes. len. Qed.

Lemma meta_Encode : SSTMeta.Encode m = (OK, meta_bytes m).
Proof.
  unfold SSTMeta.Encode, Log.Encode. ok_test. fold (meta_bytes m).
  by rewrite length_meta_bytes, Z.eqb_refl.
Qed.

Lemma meta_Decode m0 : SSTMeta.Decode m0 (meta_bytes m) = Done (OK, m).
Proof.
  pose proof meta_Size as Hsize. destruct Hwf as (Hl&Hsz&Ho&Hs).
  unfold SSTMeta.Decode, meta_bytes.
  rewrite decode_encoded_app, bind_Done by done. ok_test.
  assert (Log.Size (SSTMeta.last_log_ m) = zlen (Log.encoded (SSTMeta.last_log_ m))) as HL.
  { rewrite length_encoded. by destruct Hl as (_&_&?&_). }
  unfold Log.Size in HL |- *. rewrite HL.
  rewrite peek_app, bind_Done by len.
  rewrite (wrap_small 64 (_ + 8)) by (destruct Hl; lia).
  replace (zlen (Log.encoded (SSTMeta.last_log_ m)) + 8) with
    (zlen (Log.encoded (SSTMeta.last_log_ m) ++ u64_bytes (SSTMeta.data_offset_ m))) by len.
  rewrite app_assoc, <- (app_nil_r (u64_bytes (SSTMeta.data_size_ m))).
  rewrite peek_app, bind_Done by len.
  rewrite !le_val_u64, !wrap_small by lia. by destruct m.
Qed.

Lemma meta_Read_frame w fd p (a c : bytes) m0 r0 :
  faults w = [] →
  fdt w !! fd = Some (mkFd p (zlen a)) → files w !! p = Some (a ++ meta_frame m ++ c) →
  SSTMeta.Read_ m0 fd r0 w =
    Done ((OK, m, zlen (meta_frame m)),
          set_fdt (<[fd := mkFd p (zlen (a ++ meta_frame m))]> (fdt w)) w).
Proof.
  intros Hnf Hfd Hp. pose proof length_meta_frame as Hlen. pose proof meta_Size as Hsize.
  pose proof length_meta_bytes as Henc. pose proof Hwf as ((_&_&Hsz&_)&Hmax&_).
  unfold SSTMeta.Read_. unfold meta_frame in Hp. rewrite <- app_assoc in Hp.
  io_step (read_at _ Hnf _ 8 _ _ _ _ Hfd Hp); [by len|]. test_false.
  rewrite drop_ge, app_nil_r by len. rewrite le_val_u64, (wrap_small 64 (SSTMeta.Size m + 8)) by lia.
  rewrite Z.add_simpl_r, (wrap_small 64 (SSTMeta.Size m)) by lia. test_false.
  io_step (read_at (set_fdt _ w) Hnf _ (SSTMeta.Size m) p _ (meta_bytes m) c);
    [apply lookup_insert_eq|simpl; by rewrite Hp, <- app_assoc|lia|]. test_false. test_false.
  io_step (lift_Done _ _ _ (meta_Decode m0)). ok_test.
  rewrite Z.eqb_refl, Hlen. io_step (lift_Done (ensure true) tt); [done|].
  unfold set_fdt, mret, io_ret. cbn [files fdt next_fd faults]. rewrite insert_insert_eq.
  unfold meta_frame. by rewrite <- app_assoc.
Qed.

Lemma meta_Write_frame w fd p (c : bytes) :
  faults w = [] →
  fdt w !! fd = Some (mkFd p (zlen c)) → files w !! p = Some c →
  SSTMeta.Write_ m fd w =
    Done ((OK, zlen (meta_frame m)),
          mkWorld (<[p := c ++ meta_frame m]> (files w))
            (<[fd := mkFd p (zlen (c ++ meta_frame m))]> (fdt w)) (next_fd w) []).
Proof.
  intros Hnf Hfd Hp. pose proof length_meta_frame as Hlen. pose proof meta_Size as Hsize.
  pose proof length_meta_bytes as Henc. pose proof Hwf as ((_&_&Hsz&_)&Hmax&_).
  unfold SSTMeta.Write_. rewrite (wrap_small 64 (SSTMeta.Size m + 8)) by lia.
  io_step (write_end _ Hnf _ _ _ _ Hfd Hp). test_false. rewrite meta_Encode. ok_test.
  io_step (lift_Done _ (meta_bytes m)); [apply c_str_prefix_all; lia|].
  io_step write_end; [done|simpl; apply lookup_insert_eq|simpl; apply lookup_insert_eq|].
  test_false.
  unfold mret, io_ret. cbn [files fdt next_fd faults]. rewrite !insert_insert_eq, Hnf, Hlen.
  unfold meta_frame. by rewrite <- app_assoc.
Qed.
End wf.
