(* ===== verification/StoreIterator.v ===== *)
(** * storage::Iterator (src/include/storage/interface.h)

    The interface between what produces records (table files, the memory
    table) and what consumes them (the flusher, the merging iterator): the
    two virtual operations, and the contract a producer promises. *)

From S2P Require Import Prelude StdContainers Status Posix StoreLog.

(** [HasNext()] and [Next(Log &)]; [Next] returns the record it assigned and
    the iterator it became. *)
Class Iterator (I : Type) : Type := {
  HasNext : I → bool;
  Next : I → Log.t → io (Status * Log.t * I);
}.

(** Worlds that differ at most in the descriptors of [X]. *)
Definition same_but (X : gset Z) (w w' : world) : Prop :=
  files w' = files w ∧ next_fd w' = next_fd w ∧ faults w' = faults w ∧
  ∀ fd, fd ∉ X → fdt w' !! fd = fdt w !! fd.

(** The contract: [gives it w ls] says that from world [w] the iterator
    delivers exactly the records [ls]. It owns the descriptors [fds_of it],
    moves no other, and is not disturbed when another iterator moves its own. *)
Class IteratorLaws (I : Type) `{Iterator I} : Type := {
  gives : I → world → list Log.t → Prop;
  fds_of : I → gset Z;
  gives_nil it w : gives it w [] → HasNext it = false;
  gives_cons it w l ls : gives it w (l :: ls) →
    HasNext it = true ∧
    ∃ it' w', (∀ l0, Next it l0 w = Done ((OK, l, it'), w')) ∧ gives it' w' ls ∧
      fds_of it' = fds_of it ∧ same_but (fds_of it) w w';
  gives_frame X it w w' ls :
    gives it w ls → same_but X w w' → X ## fds_of it → gives it w' ls;
}.

#[export] Instance same_but_refl X : Reflexive (same_but X).
Proof. by intros w. Qed.
#[export] Instance same_but_trans X : Transitive (same_but X).
Proof.
  intros w1 w2 w3 (?&?&?&H12) (?&?&?&H23). repeat split; try congruence.
  intros fd Hfd. by rewrite H23, H12.
Qed.
Lemma same_but_mono X Y w w' : X ⊆ Y → same_but X w w' → same_but Y w w'.
Proof. intros HXY (?&?&?&H). repeat split; try done. intros fd Hfd. apply H. set_solver. Qed.
