(* ===== verification/SsTable.v ===== *)
(** * Table files (src/storage/sstable/sstable.cc, flusher.cc, sst_mgr.cc)

    [SStable] (writer and header of a table file), [SSTIterator] (its reader),
    [SSTFlusher] (drains an iterator into a table) and [SSTMgr] (the set of
    tables of a directory). *)

From S2P Require Import Prelude StdContainers Status Posix StoreLog SstMeta StoreIterator.

Definition path_of (dir filename : bytes) : bytes := dir ++ bs "/" ++ filename.

Lemma path_of_not_nil dir fn : path_of dir fn ≠ [].
Proof. by destruct dir. Qed.

Module SSTIterator.

Record t : Type := mk { init_ : bool; fd_ : Z; pos_ : Z; size_ : Z }.

Definition empty : t := mk false (-1) 0 0.

(** The result of [lseek] is not checked. *)
Definition Init (it : t) (dir filename : bytes) (offset : Z) : io (Status * t) :=
  fd ← open_ (path_of dir filename) false false;
  _ ← lseek_set fd offset;
  if fd <? 0 then mret (Corruption (bs "can't open file"), mk (init_ it) fd (pos_ it) (size_ it))
  else
    sz ← stat_size (path_of dir filename);
    mret (OK, mk true fd offset sz).

Definition Stop (it : t) : io (Status * t) :=
  _ ← close_ (fd_ it); mret (OK, mk false (fd_ it) (pos_ it) (size_ it)).

Definition HasNext_ (it : t) : bool := if size_ it <=? pos_ it then false else true.

Definition Next_ (it : t) (log : Log.t) : io (Status * Log.t * t) :=
  if negb (HasNext_ it) then mret (Corruption (bs "no next"), log, it)
  else
    '(ret, log', readed) ← Log.Read_ log (fd_ it) 0;
    if negb (IsOK ret) then mret (ret, log', it)
    else mret (ret, log', mk (init_ it) (fd_ it) (wrap64 (pos_ it + readed)) (size_ it)).

End SSTIterator.

#[export] Instance SSTIterator_Iterator : Iterator SSTIterator.t := {|
  HasNext := SSTIterator.HasNext_;
  Next := SSTIterator.Next_;
|}.

Module SStable.

Record t : Type := mk {
  init_ : bool; filename_ : bytes; dir_ : bytes; meta_ : SSTMeta.t; buf_ : bytes }.

Definition empty : t := mk false [] [] SSTMeta.empty [].

Definition Init (s : t) (dir filename : bytes) (last_log : Log.t) : Status * t :=
  let meta := SSTMeta.mk last_log (SSTMeta.data_offset_ (meta_ s)) (SSTMeta.data_size_ (meta_ s)) in
  let meta := SSTMeta.mk last_log (wrap64 (SSTMeta.Size meta + 8)) (SSTMeta.data_size_ meta) in
  (OK, mk true filename dir meta []).

Definition Recover (s : t) (dir filename : bytes) : io (Status * t) :=
  fd ← open_ (path_of dir filename) false false;
  if fd <? 0 then
    mret (Corruption (bs "fail open file when recover"), mk (init_ s) filename dir (meta_ s) [])
  else
    '(ret, m) ← SSTMeta.Read (meta_ s) fd;
    if negb (IsOK ret) then
      _ ← close_ fd; mret (ret, mk (init_ s) filename dir m [])
    else
      _ ← close_ fd; mret (ret, mk true filename dir m []).

Definition Stop (s : t) : Status * t := (OK, mk false (filename_ s) (dir_ s) (meta_ s) (buf_ s)).

Definition Append (s : t) (log : Log.t) : Status * t :=
  let '(ret, tmp) := Log.Encode log in
  if negb (IsOK ret) then (ret, s)
  else
    let num := wrap64 (zlen tmp + 8) in
    let m := meta_ s in
    (ret, mk (init_ s) (filename_ s) (dir_ s)
            (SSTMeta.mk (SSTMeta.last_log_ m) (SSTMeta.data_offset_ m)
               (wrap64 (SSTMeta.data_size_ m + zlen tmp)))
            (buf_ s ++ u64_bytes num ++ tmp)).

Definition Encode (s : t) : Status * bytes := (OK, buf_ s).

(** A failure of the last [write] is not reported. *)
Definition Flush (s : t) : io Status :=
  fd ← open_ (path_of (dir_ s) (filename_ s)) true false;
  if fd <? 0 then mret (Corruption (bs "fail open file when flush"))
  else
    ret ← SSTMeta.Write (meta_ s) fd;
    if negb (IsOK ret) then _ ← close_ fd; mret ret
    else
      _ ← write_ fd (buf_ s);
      _ ← close_ fd;
      mret ret.

Definition CreateIterator (s : t) (it : SSTIterator.t) : io (Status * SSTIterator.t) :=
  SSTIterator.Init it (dir_ s) (filename_ s) (SSTMeta.data_offset_ (meta_ s)).

End SStable.

Module SSTFlusher.

Section flush.
Context {I : Type} `{Iterator I}.

(** The loop of [Flush]: the record is appended even when [Next] failed. *)
Fixpoint drain (fuel : nat) (ret : Status) (it : I) (log : Log.t) (sst : SStable.t)
  : io (Status * SStable.t * I) :=
  if negb (IsOK ret && HasNext it) then mret (ret, sst, it)
  else
    match fuel with
    | O => lift NoFuel
    | S fuel =>
        '(ret, log, it) ← Next it log;
        drain fuel ret it log (SStable.Append sst log).2
    end.

Definition Flush (fuel : nat) (dir filename : bytes) (mem_iter : I) (last_log : Log.t)
    (sst : SStable.t) : io (Status * SStable.t * I) :=
  let '(ret, sst) := SStable.Init sst dir filename last_log in
  if negb (IsOK ret) then mret (ret, sst, mem_iter)
  else
    '(ret, sst, it) ← drain fuel ret mem_iter Log.empty sst;
    if IsOK ret then
      ret ← SStable.Flush sst; mret (ret, sst, it)
    else mret (ret, sst, it).
End flush.

End SSTFlusher.

Module SSTMgr.

Record t : Type := mk { init_ : bool; dir_ : bytes; ssts_ : list SStable.t; id_ : Z }.

Definition make (dir : bytes) : t := mk false dir [] 0.

Definition SST_PREFIX : bytes := bs "CtgSST".

(** [getFilesFromDir_]: [entries] is what [readdir] lists, [None] when the
    directory cannot be opened; the flag says whether the entry is a regular
    file. *)
Definition getFilesFromDir_ (entries : option (list (bool * bytes))) : Status * list bytes :=
  match entries with
  | Some l =>
      (OK, snd <$> filter (λ e : bool * bytes,
             e.1 = true ∧ e.2 ≠ bs "." ∧ e.2 ≠ bs ".." ∧
             take (length SST_PREFIX) e.2 = SST_PREFIX) l)
  | None => (Corruption (bs "can't open dir"), [])
  end.

Fixpoint Recover (m : t) (files : list bytes) : io (Status * t) :=
  match files with
  | [] => mret (OK, m)
  | file :: files =>
      '(ret, sst) ← SStable.Recover SStable.empty (dir_ m) file;
      if negb (IsOK ret) then mret (ret, m)
      else Recover (mk (init_ m) (dir_ m) (ssts_ m ++ [sst]) (id_ m)) files
  end.

Definition Init (m : t) (entries : option (list (bool * bytes))) : io (Status * t) :=
  let '(ret, files) := getFilesFromDir_ entries in
  if negb (IsOK ret) then mret (ret, m)
  else
    '(ret, m) ← Recover m files;
    if negb (IsOK ret) then mret (ret, m)
    else mret (ret, mk true (dir_ m) (ssts_ m) 0).

(** [sprintf("%lx")] of a 64-bit number. *)
Definition hex_digit (d : Z) : byte := z2b (if d <? 10 then 48 + d else 87 + d).
Fixpoint hex_digits (fuel : nat) (z : Z) : bytes :=
  match fuel with
  | O => []
  | S fuel =>
      (if z <? 16 then [] else hex_digits fuel (z / 16)) ++ [hex_digit (z mod 16)]
  end.

Definition nextFileName (m : t) : bytes * t :=
  let id := wrap64 (id_ m + 1) in
  (SST_PREFIX ++ bs ".0x" ++ hex_digits 16 id, mk (init_ m) (dir_ m) (ssts_ m) id).

Definition Flush {I} `{Iterator I} (fuel : nat) (m : t) (iter : I) (last_log : Log.t)
    : io (Status * t * I) :=
  let '(name, m) := nextFileName m in
  '(ret, sst, it) ← SSTFlusher.Flush fuel (dir_ m) name iter last_log SStable.empty;
  if negb (IsOK ret) then mret (ret, m, it)
  else mret (ret, mk (init_ m) (dir_ m) (ssts_ m ++ [sst]) (id_ m), it).

Definition Stop (m : t) : Status * t := (OK, mk false (dir_ m) (ssts_ m) (id_ m)).

End SSTMgr.

(** ** The table iterator meets the iterator contract *)

#[export] Program Instance SSTIterator_laws : IteratorLaws SSTIterator.t := {|
  gives it w ls :=
    ∃ p a, faults w = [] ∧ fdt w !! SSTIterator.fd_ it = Some (mkFd p (zlen a)) ∧
      files w !! p = Some (a ++ frames ls) ∧ SSTIterator.pos_ it = zlen a ∧
      SSTIterator.size_ it = zlen (a ++ frames ls) ∧ zlen (a ++ frames ls) < 2 ^ 63 ∧
      Forall log_wf ls;
  fds_of it := {[SSTIterator.fd_ it]};
|}.
Next Obligation.
  intros it w (p & a & _ & _ & _ & Hp & Hs & _). unfold HasNext; simpl.
  unfold SSTIterator.HasNext_. rewrite Hp, Hs, frames_nil, app_nil_r. by test_true.
Qed.
Next Obligation.
  intros it w l ls (p & a & Hnf & Hfd & Hp & Hpos & Hsz & Hmax & Hwf).
  apply Forall_cons in Hwf as [Hl Hwf]. rewrite frames_cons in *.
  pose proof (length_frame l Hl) as Hlen.
  pose proof (length_encoded l) as Henc. destruct (Hl) as (_&_&Hlsz&_).
  assert (HasNext it = true) as Hn.
  { unfold HasNext; simpl. unfold SSTIterator.HasNext_. rewrite Hpos, Hsz.
    rewrite !length_app. by test_false. }
  split; [done|].
  eexists (SSTIterator.mk (SSTIterator.init_ it) (SSTIterator.fd_ it) (zlen (a ++ frame l))
            (SSTIterator.size_ it)), _.
  split; [|split; [|split; [done|]]].
  - intros l0. unfold Next; simpl. unfold SSTIterator.Next_.
    unfold HasNext in Hn; simpl in Hn. rewrite Hn. cbn [negb]; cbv iota.
    io_step (Read_frame w (SSTIterator.fd_ it) p a (frames ls) l l0 0 Hnf Hl Hfd Hp).
    ok_test. rewrite Hpos, wrap_small by (rewrite !length_app in Hmax; lia).
    by rewrite <- Nat2Z.inj_add, <- length_app.
  - exists p, (a ++ frame l). cbn [SSTIterator.fd_ SSTIterator.pos_ SSTIterator.size_].
    rewrite <- !app_assoc. repeat split; try done. apply lookup_insert_eq.
  - repeat split. intros fd Hfd'. apply lookup_insert_ne. set_solver.
Qed.
Next Obligation.
  intros X it w w' ls (p & a & Hnf & Hfd & Hp & Hrest) (Hf&Hn&Hfl&Hsame) Hdisj.
  exists p, a. rewrite Hf, Hfl, Hsame by set_solver. done.
Qed.

(** ** Writing a table *)

Definition append_all (s : SStable.t) (ls : list Log.t) : SStable.t :=
  foldl (λ s l, (SStable.Append s l).2) s ls.

Lemma Append_frame s l :
  log_wf l →
  SStable.Append s l =
    (OK, SStable.mk (SStable.init_ s) (SStable.filename_ s) (SStable.dir_ s)
           (SSTMeta.mk (SSTMeta.last_log_ (SStable.meta_ s)) (SSTMeta.data_offset_ (SStable.meta_ s))
              (wrap64 (SSTMeta.data_size_ (SStable.meta_ s) + Log.size l)))
           (SStable.buf_ s ++ frame l)).
Proof.
  intros (_&_&Hsz&Hmax). unfold SStable.Append, Log.Encode. ok_test. rewrite length_encoded.
  unfold frame. by rewrite <- Hsz, (wrap_small 64 (Log.size l + 8)) by lia.
Qed.

Definition logs_size (ls : list Log.t) : Z := foldr (λ l n, Log.size l + n) 0 ls.

Lemma append_all_spec ls s :
  Forall log_wf ls →
  0 ≤ SSTMeta.data_size_ (SStable.meta_ s) →
  SSTMeta.data_size_ (SStable.meta_ s) + logs_size ls < 2 ^ 64 →
  append_all s ls =
    SStable.mk (SStable.init_ s) (SStable.filename_ s) (SStable.dir_ s)
      (SSTMeta.mk (SSTMeta.last_log_ (SStable.meta_ s)) (SSTMeta.data_offset_ (SStable.meta_ s))
         (SSTMeta.data_size_ (SStable.meta_ s) + logs_size ls))
      (SStable.buf_ s ++ frames ls).
Proof.
  intros Hwf. revert s. induction Hwf as [|l ls Hl Hls IH]; intros s H0 Hmax.
  { simpl. rewrite Z.add_0_r, frames_nil, app_nil_r. by destruct s as [???[]?]. }
  assert (0 ≤ logs_size ls) as Hpos.
  { clear -Hls. induction Hls as [|l ls (_&_&?&_) _ IH]; simpl; lia. }
  cbn [logs_size foldr] in Hmax. fold (logs_size ls) in Hmax.
  destruct (Hl) as (_&_&Hsz&_).
  unfold append_all; cbn [foldl]. fold (append_all (SStable.Append s l).2 ls).
  rewrite Append_frame by done. cbn [snd].
  rewrite IH; cbn [SStable.meta_ SSTMeta.data_size_ SSTMeta.last_log_ SSTMeta.data_offset_
    SStable.init_ SStable.filename_ SStable.dir_ SStable.buf_];
    [|rewrite wrap_small by lia; lia ..].
  rewrite wrap_small by lia. cbn [logs_size foldr]. fold (logs_size ls).
  by rewrite Z.add_assoc, <- app_assoc, frames_cons.
Qed.

(** Flushing to a path that does not exist yet. *)
Lemma Flush_fresh s w :
  faults w = [] → 0 ≤ next_fd w → meta_wf (SStable.meta_ s) →
  files w !! path_of (SStable.dir_ s) (SStable.filename_ s) = None →
  ∃ w', SStable.Flush s w = Done (OK, w') ∧ faults w' = [] ∧ 0 ≤ next_fd w' ∧
    files w' = <[path_of (SStable.dir_ s) (SStable.filename_ s) :=
                  meta_frame (SStable.meta_ s) ++ SStable.buf_ s]> (files w).
Proof.
  intros Hnf Hfd Hwf Hp. unfold SStable.Flush. set (p := path_of _ _) in *.
  io_step (open_ok w Hnf p true false []); [apply path_of_not_nil|by right|]. test_false.
  unfold SSTMeta.Write.
  eexists. split.
  - erewrite io_bind_Done; cycle 1.
    { io_step (meta_Write_frame _ Hwf _ _ p []); cbn [files fdt faults];
        [done|apply lookup_insert_eq|apply lookup_insert_eq|]. reflexivity. }
    cbn [fst app]. ok_test.
    io_step write_end; cbn [files fdt faults]; [done|apply lookup_insert_eq|apply lookup_insert_eq|].
    reflexivity.
  - cbn [files fdt faults next_fd set_fdt]. rewrite !insert_insert_eq. repeat split; lia.
Qed.

(** Draining an iterator appends what it gives, in order. *)
Lemma drain_gives {I} `{IteratorLaws I} ls it log s w fuel :
  gives it w ls → (length ls ≤ fuel)%nat →
  ∃ it' w', SSTFlusher.drain fuel OK it log s w = Done ((OK, append_all s ls, it'), w') ∧
    same_but (fds_of it) w w' ∧ gives it' w' [].
Proof.
  revert it log s w fuel. induction ls as [|l ls IH]; intros it log s w fuel Hg Hfuel.
  - eexists it, w. pose proof (gives_nil _ _ Hg) as Hn.
    split; [|done]. destruct fuel; simpl; rewrite Hn; ok_test; done.
  - apply gives_cons in Hg as (Hn & it1 & w1 & Hnext & Hg1 & Hown & Hw1).
    destruct fuel as [|fuel]; simpl in Hfuel; [lia|].
    destruct (IH it1 l (SStable.Append s l).2 w1 fuel Hg1) as (it' & w' & Hd & Hw' & Hg'); [lia|].
    eexists it', w'. split; [|split; [|done]].
    + simpl. rewrite Hn. ok_test. io_step (Hnext log). done.
    + rewrite Hown in Hw'. by transitivity w1.
Qed.

(** ** The contract of a table file

    [table_at w dir fn last ls]: the file [fn] of [dir] is a table with last
    record [last] whose records are [ls], in that order. *)

Definition table_meta (last : Log.t) (ls : list Log.t) : SSTMeta.t :=
  SSTMeta.mk last (Log.size last + 24) (logs_size ls).

Definition table_bytes (last : Log.t) (ls : list Log.t) : bytes :=
  meta_frame (table_meta last ls) ++ frames ls.

Definition table_at (w : world) (dir fn : bytes) (last : Log.t) (ls : list Log.t) : Prop :=
  files w !! path_of dir fn = Some (table_bytes last ls).

(** Records that fit in one table. *)
Definition table_wf (last : Log.t) (ls : list Log.t) : Prop :=
  log_wf last ∧ Log.size last + 24 < 2 ^ 63 ∧ Forall log_wf ls ∧
  zlen (table_bytes last ls) < 2 ^ 63.

#[export] Instance table_wf_dec last ls : Decision (table_wf last ls).
Proof. unfold table_wf. apply _. Defined.

(** A world in which no call fails. *)
Definition calm (w : world) : Prop := faults w = [] ∧ 0 ≤ next_fd w.

Lemma logs_size_frames ls :
  Forall log_wf ls → 0 ≤ logs_size ls ∧ logs_size ls ≤ zlen (frames ls).
Proof.
  induction 1 as [|l ls Hl Hls IH]; [done|].
  rewrite frames_cons, length_app, Nat2Z.inj_add, length_frame by done.
  cbn [logs_size foldr]. fold (logs_size ls). destruct Hl as (_&_&?&_). lia.
Qed.

Section table.
Context (last : Log.t) (ls : list Log.t) (Hwf : table_wf last ls).

Lemma table_meta_wf : meta_wf (table_meta last ls).
Proof.
  destruct Hwf as (Hl & Hsz & Hls & Hmax). pose proof (logs_size_frames ls Hls).
  unfold table_bytes in Hmax. rewrite length_app in Hmax.
  pose proof Hl as (_&_&Hs&_).
  unfold meta_wf, table_meta; simpl. split; [done|]. lia.
Qed.

Lemma table_offset : SSTMeta.data_offset_ (table_meta last ls) = zlen (meta_frame (table_meta last ls)).
Proof.
  rewrite length_meta_frame, meta_Size by apply table_meta_wf. simpl. lia.
Qed.

(** [SSTFlusher::Flush] turns what an iterator gives into a table file. *)
Lemma flusher_writes_table {I} `{IteratorLaws I} dir fn it w fuel :
  calm w → gives it w ls → (length ls ≤ fuel)%nat → files w !! path_of dir fn = None →
  ∃ it' w', SSTFlusher.Flush fuel dir fn it last SStable.empty w =
      Done ((OK, SStable.mk true fn dir (table_meta last ls) (frames ls), it'), w') ∧
    calm w' ∧ files w' = <[path_of dir fn := table_bytes last ls]> (files w).
Proof.
  intros [Hnf Hfd] Hg Hfuel Hp. pose proof table_meta_wf as Hmw.
  pose proof (logs_size_frames ls) as Hls.
  destruct Hwf as (Hl & Hsz & Hlw & Hmax). destruct Hls as [Hls0 Hls1]; [done|].
  unfold table_bytes in Hmax. rewrite length_app in Hmax. pose proof Hl as (_&_&Hs&_).
  unfold SSTFlusher.Flush, SStable.Init. ok_test.
  edestruct (drain_gives ls it Log.empty) as (it1 & w1 & Hd & (Hf1&Hn1&Hfl1&_) & _); [done..|].
  rewrite (io_bind_Done _ _ _ _ _ Hd). ok_test.
  rewrite append_all_spec; cbn [SStable.meta_ SSTMeta.data_size_ SSTMeta.last_log_
    SSTMeta.data_offset_ SStable.init_ SStable.filename_ SStable.dir_ SStable.buf_ SStable.empty
    SSTMeta.empty]; [|done|lia|lia].
  set (sst := SStable.mk _ _ _ _ _).
  assert (sst = SStable.mk true fn dir (table_meta last ls) (frames ls)) as ->.
  { unfold sst, table_meta. f_equal. f_equal.
    unfold SSTMeta.Size, Log.Size. cbn [SSTMeta.last_log_].
    rewrite (wrap_small 64 (_ + 2 * 8)), wrap_small by lia. lia. }
  destruct (Flush_fresh (SStable.mk true fn dir (table_meta last ls) (frames ls)) w1)
    as (w2 & Hfl & Hnf2 & Hfd2 & Hfiles); [congruence|lia|done|by rewrite Hf1|].
  exists it1, w2. rewrite (io_bind_Done _ _ _ _ _ Hfl). rewrite Hf1 in Hfiles. done.
Qed.

(** [SStable::Recover] reads the header back. *)
Lemma recover_table s dir fn w :
  calm w → table_at w dir fn last ls →
  ∃ w', SStable.Recover s dir fn w = Done ((OK, SStable.mk true fn dir (table_meta last ls) []), w') ∧
    calm w' ∧ files w' = files w.
Proof.
  intros [Hnf Hfd] Ht. unfold table_at, table_bytes in Ht. unfold SStable.Recover.
  io_step (open_ok w Hnf (path_of dir fn) false false); [apply path_of_not_nil|by left|]. test_false.
  eexists. split.
  - erewrite io_bind_Done; cycle 1.
    { unfold SSTMeta.Read.
      io_step (meta_Read_frame (table_meta last ls) table_meta_wf _ _ (path_of dir fn) [] (frames ls));
        cbn [files fdt faults]; [done|apply lookup_insert_eq|apply lookup_insert_eq|]. reflexivity. }
    cbv beta iota. ok_test. reflexivity.
  - unfold calm, set_fdt. cbn [files faults next_fd].
    split; [split; [done|lia]|by apply insert_id].
Qed.

(** [CreateIterator] starts at the first record. *)
Lemma scan_table it b dir fn buf w :
  calm w → table_at w dir fn last ls →
  ∃ it' w', SStable.CreateIterator (SStable.mk b fn dir (table_meta last ls) buf) it w =
      Done ((OK, it'), w') ∧ gives it' w' ls ∧ calm w' ∧ files w' = files w.
Proof.
  intros [Hnf Hfd] Ht. unfold table_at in Ht.
  pose proof table_offset as Hoff. destruct Hwf as (_ & _ & Hlw & Hmax).
  unfold SStable.CreateIterator, SSTIterator.Init.
  cbn [SStable.dir_ SStable.filename_ SStable.meta_]. rewrite Hoff. clear Hoff.
  unfold table_bytes in *. rewrite length_app in Hmax.
  io_step (open_ok w Hnf (path_of dir fn) false false); [apply path_of_not_nil|by left|].
  io_step lseek_ok; cbn [files fdt faults]; [done|apply lookup_insert_eq|lia|]. test_false.
  eexists _, _. split; [|split; [|split]].
  - erewrite io_bind_Done; cycle 1.
    { unfold stat_size. cbn [files set_fdt]. rewrite lookup_insert_eq. reflexivity. }
    reflexivity.
  - exists (path_of dir fn), (meta_frame (table_meta last ls)).
    cbn [files fdt faults set_fdt SSTIterator.fd_ SSTIterator.pos_ SSTIterator.size_].
    rewrite !lookup_insert_eq, length_app. repeat split; (done || lia).
  - unfold calm, set_fdt. cbn [faults next_fd]. split; [done|lia].
  - unfold set_fdt. cbn [files]. by apply insert_id.
Qed.
End table.
