(* ===== verification/Memtable.v ===== *)
(** * Memtable (src/storage/memtable/memtable.cc)

    The ordered set of records kept in memory, the freeze that turns it into
    a table file when it outgrows its limit, and the iterator over a frozen
    set.  The iterator is a snapshot: records added to the live set after its
    creation are not modelled. *)

From S2P Require Import Prelude StdContainers Status Posix StoreLog SstMeta StoreIterator SsTable.

Module MemIterator.

(** [iter_] is the rest of the set from the iterator's position to [end()]. *)
Record t : Type := mk { mt_ : list Log.t; iter_ : list Log.t }.

Definition empty : t := mk [] [].

Definition Init (it : t) (mt : list Log.t) : Status * t := (OK, mk mt mt).

Definition HasNext_ (it : t) : bool := match iter_ it with [] => false | _ => true end.

Definition Next_ (it : t) (log : Log.t) : io (Status * Log.t * t) :=
  match iter_ it with
  | [] => mret (Corruption (bs "no next"), log, it)
  | l :: rest => mret (OK, l, mk (mt_ it) rest)
  end.

End MemIterator.

#[export] Instance MemIterator_Iterator : Iterator MemIterator.t := {|
  HasNext := MemIterator.HasNext_;
  Next := MemIterator.Next_;
|}.

#[export] Program Instance MemIterator_laws : IteratorLaws MemIterator.t := {|
  gives it _ ls := MemIterator.iter_ it = ls;
  fds_of _ := ∅;
|}.
Next Obligation. intros it w Hit. cbn in Hit. unfold HasNext; simpl. unfold MemIterator.HasNext_. by rewrite Hit. Qed.
Next Obligation.
  intros it w l ls Hit. cbn in Hit. unfold HasNext, Next; simpl.
  unfold MemIterator.HasNext_, MemIterator.Next_. rewrite Hit.
  split; [done|]. by eexists _, w.
Qed.
Next Obligation. done. Qed.

Module Memtable.

Record t : Type := mk {
  init_ : bool; is_flushing_ : bool; data_size_ : Z; max_size_ : Z;
  mem_map_ : option (list Log.t); i_mem_map_ : option (list Log.t);
  sst_mgr_ : SSTMgr.t; dir_ : bytes }.

Definition make (max_size : Z) (dir : bytes) : t :=
  mk false false 0 max_size None None (SSTMgr.make dir) dir.

(** The status of [sst_mgr_.Init()] is dropped. *)
Definition Init (m : t) (entries : option (list (bool * bytes))) : io (Status * t) :=
  '(_, mgr) ← SSTMgr.Init (sst_mgr_ m) entries;
  mret (OK, mk true (is_flushing_ m) (data_size_ m) (max_size_ m) (Some []) (i_mem_map_ m) mgr (dir_ m)).

Definition Stop (m : t) : Status * t :=
  let '(ret, mgr) := SSTMgr.Stop (sst_mgr_ m) in
  (ret, mk false (is_flushing_ m) (data_size_ m) (max_size_ m) (mem_map_ m) (i_mem_map_ m) mgr (dir_ m)).

Definition MinorFreeze (m : t) : io (Status * t) :=
  match mem_map_ m with
  | None => lift Undef
  | Some frozen =>
      let m := mk (init_ m) (is_flushing_ m) 0 (max_size_ m) (Some []) (Some frozen)
                  (sst_mgr_ m) (dir_ m) in
      match last frozen with
      | None => lift Undef
      | Some log =>
          let '(ret, mem_iter) := MemIterator.Init MemIterator.empty frozen in
          if negb (IsOK ret) then mret (ret, m)
          else
            '(ret, mgr, _) ← SSTMgr.Flush (length frozen) (sst_mgr_ m) mem_iter log;
            let i := if negb (IsOK ret) then i_mem_map_ m else None in
            mret (ret, mk (init_ m) (is_flushing_ m) (data_size_ m) (max_size_ m) (mem_map_ m) i
                          mgr (dir_ m))
      end
  end.

Definition Add (m : t) (log : Log.t) : io (Status * t) :=
  if max_size_ m <? data_size_ m then MinorFreeze m
  else
    match mem_map_ m with
    | None => lift Undef
    | Some s =>
        let m := mk (init_ m) (is_flushing_ m) (wrap64 (data_size_ m + Log.Size log)) (max_size_ m)
                    (Some (os_insert log s)) (i_mem_map_ m) (sst_mgr_ m) (dir_ m) in
        if max_size_ m <? data_size_ m then MinorFreeze m else mret (OK, m)
    end.

Definition CreateIterator (m : t) (it : MemIterator.t) : outcome (Status * MemIterator.t) :=
  match mem_map_ m with
  | None => Undef
  | Some s => Done (MemIterator.Init it s)
  end.

End Memtable.

(** ** Invariant

    Between calls the live set is ordered and no larger than the limit, so
    the first test of [Add] never drops a record. *)

Definition memtable_ok (m : Memtable.t) : Prop :=
  ∃ s, Memtable.mem_map_ m = Some s ∧ ordered s ∧
    0 ≤ Memtable.data_size_ m ≤ Memtable.max_size_ m.

(** Whatever the file system does, a call that returns leaves the table in
    order. *)
Lemma MinorFreeze_ok m w ret m' w' :
  0 ≤ Memtable.max_size_ m →
  Memtable.MinorFreeze m w = Done ((ret, m'), w') →
  memtable_ok m' ∧ Memtable.mem_map_ m' = Some [] ∧ Memtable.data_size_ m' = 0 ∧
  Memtable.max_size_ m' = Memtable.max_size_ m.
Proof.
  intros Hmax. unfold Memtable.MinorFreeze.
  destruct (Memtable.mem_map_ m) as [s|]; [|done].
  destruct (last s) as [log|]; [|done]. unfold MemIterator.Init. ok_test.
  unfold mbind, io_bind. cbn [Memtable.sst_mgr_].
  destruct (SSTMgr.Flush _ _ _ _ w) as [[[[r mgr] it] w1]| | |]; try done.
  intros [= <- <- <-]. split; [|done]. exists []. cbn. repeat split; [constructor|lia|lia].
Qed.

Lemma Add_ok m w log ret m' w' :
  memtable_ok m → 0 ≤ Memtable.max_size_ m →
  Memtable.Add m log w = Done ((ret, m'), w') → memtable_ok m'.
Proof.
  intros (s & Hs & Hord & Hsz) Hmax. unfold Memtable.Add. test_false. rewrite Hs.
  cbn [Memtable.max_size_ Memtable.data_size_].
  case_test.
  - intros Hm. eapply MinorFreeze_ok in Hm; [naive_solver|done].
  - intros [= <- <- <-]. eexists; split; [done|]. cbn.
    split; [by apply os_insert_ordered|].
    pose proof (wrap_range 64 (Memtable.data_size_ m + Log.Size log)). lia.
Qed.

(** ** No record is lost

    Adding a record to a table in order, on a file system that does not
    fail: below the limit the record joins the set; above it the set with the
    record becomes a new table file, whose records are exactly the set. *)

Lemma SSTMgr_Flush_table mgr frozen last w :
  let name := (SSTMgr.nextFileName mgr).1 in
  table_wf last frozen → calm w →
  files w !! path_of (SSTMgr.dir_ mgr) name = None →
  ∃ w' it',
    SSTMgr.Flush (length frozen) mgr (MemIterator.mk frozen frozen) last w =
      Done ((OK, SSTMgr.mk (SSTMgr.init_ mgr) (SSTMgr.dir_ mgr)
                   (SSTMgr.ssts_ mgr ++
                     [SStable.mk true name (SSTMgr.dir_ mgr) (table_meta last frozen) (frames frozen)])
                   (wrap64 (SSTMgr.id_ mgr + 1)), it'), w') ∧
    calm w' ∧ files w' = <[path_of (SSTMgr.dir_ mgr) name := table_bytes last frozen]> (files w).
Proof.
  intros name Hwf Hcalm Hfresh. unfold SSTMgr.Flush, SSTMgr.nextFileName.
  edestruct (flusher_writes_table last frozen Hwf (SSTMgr.dir_ mgr) name
    (MemIterator.mk frozen frozen)) as (it' & w' & Hf & Hc & Hfiles); [done..|].
  exists w', it'. split; [|done]. cbn [SSTMgr.dir_].
  rewrite (io_bind_Done _ _ _ _ _ Hf). ok_test. done.
Qed.

Lemma last_os_insert x (s : list Log.t) : ∃ y, last (os_insert x s) = Some y ∧ y ∈ os_insert x s.
Proof.
  destruct (last (os_insert x s)) as [y|] eqn:Hl.
  - exists y. split; [done|]. by apply last_Some_elem_of.
  - apply last_None in Hl. by apply os_insert_not_nil in Hl.
Qed.

(** Adding a record never loses one: below the size limit the set becomes
    the set with the record; above it, that set becomes exactly the contents of
    a new table file known to the table manager, and the memory table starts
    empty again. *)
Theorem Add_keeps_records m s log y w :
  let s' := os_insert log s in
  let mgr := Memtable.sst_mgr_ m in
  let name := (SSTMgr.nextFileName mgr).1 in
  memtable_ok m → Memtable.mem_map_ m = Some s →
  0 ≤ Log.size log → Memtable.data_size_ m + Log.size log < 2 ^ 64 →
  last s' = Some y → table_wf y s' → calm w →
  files w !! path_of (SSTMgr.dir_ mgr) name = None →
  ∃ m' w', Memtable.Add m log w = Done ((OK, m'), w') ∧ memtable_ok m' ∧ calm w' ∧
    if Memtable.data_size_ m + Log.size log <=? Memtable.max_size_ m
    then Memtable.mem_map_ m' = Some s' ∧ w' = w ∧ Memtable.sst_mgr_ m' = mgr
    else Memtable.mem_map_ m' = Some [] ∧ Memtable.i_mem_map_ m' = None ∧
         table_at w' (SSTMgr.dir_ mgr) name y s' ∧
         SSTMgr.ssts_ (Memtable.sst_mgr_ m') =
           SSTMgr.ssts_ mgr ++
             [SStable.mk true name (SSTMgr.dir_ mgr) (table_meta y s') (frames s')].
Proof.
  intros s' mgr name (s0 & Hs0 & Hord & Hsz) Hs Hlog Hbound Hlast Hwf Hcalm Hfresh.
  assert (s0 = s) as -> by congruence.
  unfold Memtable.Add, Log.Size. test_false. rewrite Hs. cbn [Memtable.max_size_ Memtable.data_size_].
  rewrite wrap_small by lia. fold s'.
  destruct (Z.leb_spec (Memtable.data_size_ m + Log.size log) (Memtable.max_size_ m)).
  - test_false. eexists _, w. split; [reflexivity|]. cbn. split; [|done].
    exists s'. cbn. split; [done|]. split; [by apply os_insert_ordered|lia].
  - test_true. unfold Memtable.MinorFreeze.
    cbn [Memtable.mem_map_ Memtable.max_size_ Memtable.sst_mgr_]. rewrite Hlast.
    unfold MemIterator.Init. ok_test. fold mgr.
    destruct (SSTMgr_Flush_table mgr s' y w Hwf Hcalm Hfresh) as (w' & it' & Hf & Hc & Hfiles).
    rewrite (io_bind_Done _ _ _ _ _ Hf). ok_test.
    eexists _, w'. split; [reflexivity|]. cbn [Memtable.mem_map_ Memtable.i_mem_map_ Memtable.sst_mgr_].
    split; [|split; [done|split; [done|split; [done|split; [|done]]]]].
    + exists []. cbn. repeat split; [constructor|lia|lia].
    + unfold table_at. rewrite Hfiles. apply lookup_insert_eq.
Qed.

Lemma Add_keeps_records_witness :
  let l n k v := Log.make n PUT (bs k) (bs v) in
  let s := [l 1 "a" "1"] in
  let m := Memtable.mk true false 30 40 (Some s) None (SSTMgr.make (bs "tmp")) (bs "tmp") in
  let w := mkWorld ∅ ∅ 3 [] in
  let s' := [l 1 "a" "1"; l 2 "b" "2"] in
  ∃ m' w', Memtable.Add m (l 2 "b" "2") w = Done ((OK, m'), w') ∧ memtable_ok m' ∧ calm w' ∧
    if 30 + 30 <=? 40
    then Memtable.mem_map_ m' = Some s' ∧ w' = w ∧ Memtable.sst_mgr_ m' = SSTMgr.make (bs "tmp")
    else Memtable.mem_map_ m' = Some [] ∧ Memtable.i_mem_map_ m' = None ∧
         table_at w' (bs "tmp") (bs "CtgSST.0x1") (l 2 "b" "2") s' ∧
         SSTMgr.ssts_ (Memtable.sst_mgr_ m') =
             [SStable.mk true (bs "CtgSST.0x1") (bs "tmp") (table_meta (l 2 "b" "2") s') (frames s')].
Proof.
  intros l s m w s'. apply (Add_keeps_records m s (l 2 "b" "2") (l 2 "b" "2") w).
  - exists s. repeat constructor; cbn; lia.
  - reflexivity.
  - vm_compute. discriminate.
  - vm_compute. reflexivity.
  - reflexivity.
  - apply (bool_decide_unpack _). vm_compute. exact I.
  - split; [done|cbn; lia].
  - reflexivity.
Defined.

(** A run of [Add]s from a fresh table, whatever the file system does. *)
Fixpoint add_all (m : Memtable.t) (ls : list Log.t) : io Memtable.t :=
  match ls with
  | [] => mret m
  | l :: ls => '(_, m) ← Memtable.Add m l; add_all m ls
  end.

(** However the file system behaves, after any run of additions that
    returns, started from a table in order, the live set is ordered by key with
    the newest record of a key first, holds no record twice, and its size
    counter is within the limit, so no call of [Add] takes the branch that
    freezes without inserting its record. *)
Theorem memtable_always_in_order m ls w m' w' :
  memtable_ok m → 0 ≤ Memtable.max_size_ m → add_all m ls w = Done (m', w') →
  memtable_ok m' ∧ (Memtable.max_size_ m' <? Memtable.data_size_ m') = false.
Proof.
  intros Hm Hmax. revert m w Hm Hmax. induction ls as [|l ls IH]; intros m w Hm Hmax.
  - intros [= <- <-]. split; [done|]. destruct Hm as (s & _ & _ & ?). by test_false.
  - cbn [add_all]. unfold mbind, io_bind.
    destruct (Memtable.Add m l w) as [[[r m1] w1]| | |] eqn:Hadd; try done.
    pose proof (Add_ok _ _ _ _ _ _ Hm Hmax Hadd) as Hm1. intros Hrest.
    destruct (IH m1 w1) as [? ?]; try done. destruct Hm1 as (s & _ & _ & ?). lia.
Qed.

Lemma memtable_always_in_order_witness :
  let l n k v := Log.make n PUT (bs k) (bs v) in
  let m := Memtable.mk true false 0 100 (Some []) None (SSTMgr.make (bs "tmp")) (bs "tmp") in
  let s' := [l 1 "a" "1"; l 2 "b" "2"] in
  let m' := Memtable.mk true false 60 100 (Some s') None (SSTMgr.make (bs "tmp")) (bs "tmp") in
  memtable_ok m' ∧ (Memtable.max_size_ m' <? Memtable.data_size_ m') = false.
Proof.
  intros l m s' m'.
  apply (memtable_always_in_order m [l 2 "b" "2"; l 1 "a" "1"] (mkWorld ∅ ∅ 3 []) m' (mkWorld ∅ ∅ 3 [])).
  - exists []. repeat constructor; cbn; lia.
  - cbn; lia.
  - vm_compute. reflexivity.
Defined.
