(* ===== verification/MultiIter.v ===== *)
(** * MultiIter (src/storage/multi_iter.cc)

    The iterator that merges several record iterators into one: smallest key
    first, newest record of a key only. *)

From S2P Require Import Prelude StdContainers Status Posix StoreLog StoreIterator Memtable.

Module MultiIter.
Section multi.
Context {I : Type} `{Iterator I}.

(** A slot is [iters_[i]] ([None] is the null pointer the constructor leaves
    after an error) with [logs_[i]], the next record of that iterator. *)
Record t : Type := mk { iters_ : list (option I); logs_ : list Log.t }.

(** The loop of the constructor. *)
Fixpoint fill (ret : Status) (iters : list I) : io (list (option I * Log.t)) :=
  match iters with
  | [] => mret []
  | it :: iters =>
      if negb (IsOK ret) then
        rest ← fill ret iters;
        mret ((None, Log.empty) :: rest)
      else if HasNext it then
        '(ret, log, it) ← Next it Log.empty;
        rest ← fill ret iters;
        mret ((Some it, log) :: rest)
      else
        rest ← fill ret iters;
        mret ((Some it, Log.Reset Log.empty) :: rest)
  end.

Definition make (iters : list I) : io t :=
  slots ← fill OK iters;
  mret (mk (fst <$> slots) (snd <$> slots)).

Definition HasNext_ (m : t) : bool := existsb Log.IsValid (logs_ m).

(** The loop that picks the record: [exist] and [choosen] as one option. *)
Definition choose1 (choosen : option Log.t) (l : Log.t) : option Log.t :=
  if negb (Log.IsValid l) then choosen
  else
    match choosen with
    | None => Some l
    | Some c =>
        if bytes_eqb (Log.key l) (Log.key c) then Some (if less l c then l else c)
        else if bytes_ltb (Log.key l) (Log.key c) then Some l
        else Some c
    end.

Definition choose (logs : list Log.t) : option Log.t := foldl choose1 None logs.

(** The inner [while]: skip the records of the chosen key.  It does not look
    at the status, so an iterator that keeps failing keeps it running. *)
Fixpoint skip (fuel : nat) (key : bytes) (ret : Status) (it : I) (l : Log.t)
  : io (Status * I * Log.t) :=
  if negb (Log.IsValid l && bytes_eqb (Log.key l) key) then mret (ret, it, l)
  else
    match fuel with
    | O => lift NoFuel
    | S fuel =>
        if HasNext it then
          '(ret, l, it) ← Next it l;
          skip fuel key ret it l
        else skip fuel key ret it (Log.Reset l)
    end.

(** The loop over the slots; it stops at the first error. *)
Fixpoint advance (fuel : nat) (key : bytes) (ret : Status) (slots : list (option I * Log.t))
  : io (Status * list (option I * Log.t)) :=
  match slots with
  | [] => mret (ret, [])
  | (o, l) :: rest =>
      if negb (IsOK ret) then mret (ret, slots)
      else if Log.IsValid l && bytes_eqb (Log.key l) key then
        match o with
        | None => lift Undef
        | Some it =>
            '(ret, it, l) ← skip fuel key ret it l;
            '(ret, rest) ← advance fuel key ret rest;
            mret (ret, (Some it, l) :: rest)
        end
      else
        '(ret, rest) ← advance fuel key ret rest;
        mret (ret, (o, l) :: rest)
  end.

Definition Next_ (fuel : nat) (m : t) (log : Log.t) : io (Status * Log.t * t) :=
  match choose (logs_ m) with
  | None => mret (InvalidArgument (bs "not exist next"), log, m)
  | Some choosen =>
      '(ret, slots) ← advance fuel (Log.key choosen) OK (zip (iters_ m) (logs_ m));
      let m' := mk (fst <$> slots) (snd <$> slots) in
      if IsOK ret then mret (ret, choosen, m') else mret (ret, log, m')
  end.
End multi.
Arguments t : clear implicits.
End MultiIter.

(** ** The choice *)

Definition newer_than (c l : Log.t) : Prop :=
  lt (Log.key c) (Log.key l) ∨ (Log.key l = Log.key c ∧ Log.lsn l ≤ Log.lsn c).

Lemma less_bytes_eq : @less bytes _ = bytes_ltb.
Proof. done. Qed.

Lemma newer_than_trans a b c : newer_than a b → newer_than b c → newer_than a c.
Proof.
  unfold newer_than, lt. intros [Hab|[Hk Hab]] [Hbc|[Hk' Hbc]].
  - left. by eapply less_trans.
  - left. by rewrite Hk'.
  - left. by rewrite <- Hk.
  - right. split; [congruence|lia].
Qed.

Lemma choose1_spec o l :
  match MultiIter.choose1 o l with
  | None => o = None ∧ Log.IsValid l = false
  | Some c =>
      (o = Some c ∨ (c = l ∧ Log.IsValid l = true)) ∧
      (Log.IsValid l = true → newer_than c l) ∧ (∀ c0, o = Some c0 → newer_than c c0)
  end.
Proof.
  unfold MultiIter.choose1, newer_than, lt. destruct (Log.IsValid l); simpl; [|by destruct o; naive_solver lia].
  destruct o as [c|]; [|naive_solver lia].
  destruct (bool_decide_reflect (Log.key l = Log.key c)) as [Hk|Hk].
  - assert (less l c = (Log.lsn c <? Log.lsn l)) as ->.
    { unfold less, less_Log, Log.less_log. by rewrite Hk, <- less_bytes_eq, less_irrefl. }
    destruct (Z.ltb_spec (Log.lsn c) (Log.lsn l)); naive_solver lia.
  - rewrite <- less_bytes_eq. destruct (less (Log.key l) (Log.key c)) eqn:Hl; [naive_solver lia|].
    destruct (less (Log.key c) (Log.key l)) eqn:Hc; [naive_solver lia|].
    by destruct Hk; apply less_total.
Qed.

Lemma choose_spec logs :
  match MultiIter.choose logs with
  | None => Forall (λ l, Log.IsValid l = false) logs
  | Some c =>
      c ∈ logs ∧ Log.IsValid c = true ∧ ∀ l, l ∈ logs → Log.IsValid l = true → newer_than c l
  end.
Proof.
  unfold MultiIter.choose. induction logs as [|l logs IH] using rev_ind; [constructor|].
  rewrite foldl_app; simpl. set (o := foldl _ _ _) in *.
  pose proof (choose1_spec o l) as Hs. destruct (MultiIter.choose1 o l) as [c|].
  - destruct Hs as ([Ho|[-> Hv]] & Hl & Hc).
    + rewrite Ho in IH. destruct IH as (Hin & Hv & Hall). split; [set_solver|]. split; [done|].
      intros l' [?| ->%list_elem_of_singleton]%elem_of_app Hv'; auto.
    + split; [set_solver|]. split; [done|].
      intros l' [Hin| ->%list_elem_of_singleton]%elem_of_app Hv'; [|auto].
      destruct o as [c0|].
      * eapply newer_than_trans; [by apply Hc|]. by apply IH.
      * rewrite Forall_forall in IH. by rewrite IH in Hv'.
  - destruct Hs as [-> Hv]. apply Forall_app. by rewrite Forall_singleton.
Qed.

(** ** Slots and what they still hold *)

Fixpoint drop_key (key : bytes) (ls : list Log.t) : list Log.t :=
  match ls with
  | [] => []
  | l :: ls' => if bytes_eqb (Log.key l) key then drop_key key ls' else ls
  end.

Section slots.
Context {I : Type} `{IteratorLaws I}.
Implicit Types (s : option I * Log.t) (slots : list (option I * Log.t)) (w : world).

Definition slot_fds s : gset Z := from_option fds_of ∅ s.1.
Definition all_fds slots : gset Z := ⋃ (slot_fds <$> slots).

(** The slot holds the records [ls], the first of them read ahead. *)
Definition slot_gives w s (ls : list Log.t) : Prop :=
  Forall (λ l, Log.IsValid l = true) ls ∧
  ∃ it, s.1 = Some it ∧
    match ls with
    | [] => Log.IsValid s.2 = false ∧ gives it w []
    | l :: ls' => s.2 = l ∧ gives it w ls'
    end.

Fixpoint slots_give w slots (lss : list (list Log.t)) : Prop :=
  match slots, lss with
  | [], [] => True
  | s :: slots, ls :: lss =>
      slot_gives w s ls ∧ slot_fds s ## all_fds slots ∧ slots_give w slots lss
  | _, _ => False
  end.

Lemma slot_gives_frame X w w' s ls :
  slot_gives w s ls → same_but X w w' → X ## slot_fds s → slot_gives w' s ls.
Proof.
  intros (Hv & it & Hs & Hg) Hw Hd. split; [done|]. exists it. split; [done|].
  unfold slot_fds in Hd. rewrite Hs in Hd; simpl in Hd.
  destruct ls; destruct Hg; split; eauto using gives_frame.
Qed.

Lemma slots_give_frame X w w' slots lss :
  slots_give w slots lss → same_but X w w' → X ## all_fds slots → slots_give w' slots lss.
Proof.
  revert lss. induction slots as [|s slots IH]; intros [|ls lss]; simpl; try done.
  intros (Hs & Hd & Hr) Hw HX. unfold all_fds in HX; simpl in HX.
  split; [|split; [done|]].
  - eapply slot_gives_frame; [done..|set_solver].
  - eapply IH; [done..|]. unfold all_fds. set_solver.
Qed.

Lemma skip_spec key ls : ∀ fuel w it l,
  slot_gives w (Some it, l) ls → (length ls ≤ fuel)%nat →
  ∃ it' l' w', MultiIter.skip fuel key OK it l w = Done ((OK, it', l'), w') ∧
    slot_gives w' (Some it', l') (drop_key key ls) ∧ same_but (fds_of it) w w' ∧
    fds_of it' = fds_of it.
Proof.
  induction ls as [|l0 ls IH]; intros fuel w it l (Hv & it0 & [= <-] & Hg) Hfuel.
  - destruct Hg as [Hl Hg]. cbn [snd] in Hl. exists it, l, w.
    split; [destruct fuel; simpl; by rewrite Hl|]. split; [|done].
    split; [constructor|]. by exists it.
  - destruct Hg as [Hl Hg]. cbn [snd] in Hl. subst l0.
    apply Forall_cons in Hv as [Hvl Hv]. simpl drop_key.
    destruct (bool_decide_reflect (Log.key l = key)) as [Hk|Hk].
    + destruct fuel as [|fuel]; simpl in Hfuel; [lia|]. cbn [MultiIter.skip].
      rewrite Hvl, bool_decide_eq_true_2 by done. cbn [andb negb]. cbv iota.
      destruct ls as [|l1 ls].
      * rewrite (gives_nil _ _ Hg).
        destruct (IH fuel w it (Log.Reset l)) as (it' & l' & w' & Hs & Hg' & Hrest); [|simpl; lia|].
        { split; [done|]. exists it. split; [done|]. split; [|done].
          unfold Log.IsValid, Log.Reset. cbn. by rewrite Z.eqb_refl. }
        by exists it', l', w'.
      * apply gives_cons in Hg as (Hn & it1 & w1 & Hnext & Hg1 & Hown & Hw1). rewrite Hn.
        io_step (Hnext l).
        destruct (IH fuel w1 it1 l1) as (it' & l' & w' & Hs & Hg' & Hw' & Hown'); [|simpl in *; lia|].
        { split; [done|]. by exists it1. }
        exists it', l', w'. rewrite Hown in Hw', Hown'.
        split; [done|]. split; [done|]. split; [by transitivity w1|done].
    + exists it, l, w. split; [|split; [|done]].
      * destruct fuel; simpl; rewrite Hvl, bool_decide_eq_false_2 by done; done.
      * split; [by constructor|]. by exists it.
Qed.

Lemma drop_key_head key l ls : Log.key l ≠ key → drop_key key (l :: ls) = l :: ls.
Proof. intros Hk. simpl. by rewrite bool_decide_eq_false_2. Qed.

Lemma advance_spec key slots : ∀ lss fuel w,
  slots_give w slots lss → Forall (λ ls, (length ls ≤ fuel)%nat) lss →
  ∃ slots' w', MultiIter.advance fuel key OK slots w = Done ((OK, slots'), w') ∧
    slots_give w' slots' (drop_key key <$> lss) ∧
    slot_fds <$> slots' = slot_fds <$> slots ∧ same_but (all_fds slots) w w'.
Proof.
  induction slots as [|[o l] slots IH]; intros [|ls lss] fuel w Hg Hfuel; try done.
  { by exists [], w. }
  destruct Hg as (Hs & Hd & Hr). apply Forall_cons in Hfuel as [Hf Hfuel].
  destruct (Log.IsValid l && bytes_eqb (Log.key l) key) eqn:Hskip.
  - pose proof Hs as (_ & it & Ho & _). simpl in Ho. subst o.
    destruct (skip_spec key ls fuel w it l Hs Hf) as (it' & l' & w1 & Hsk & Hs1 & Hw1 & Hown).
    assert (slots_give w1 slots lss) as Hr1 by (eapply slots_give_frame; [done..|exact Hd]).
    destruct (IH lss fuel w1 Hr1 Hfuel) as (slots' & w2 & Hadv & Hr2 & Hfds & Hw2).
    exists ((Some it', l') :: slots'), w2. cbn [MultiIter.advance]. ok_test. rewrite Hskip.
    rewrite (io_bind_Done _ _ _ _ _ Hsk), (io_bind_Done _ _ _ _ _ Hadv).
    assert (all_fds slots' = all_fds slots) as Hall by (unfold all_fds; by rewrite Hfds).
    assert (slot_fds (Some it', l') = slot_fds (Some it, l)) as Hsf by exact Hown.
    split; [done|]. split; [|split].
    + cbn [slots_give fmap list_fmap]. rewrite Hall, Hsf. split; [|done].
      eapply slot_gives_frame; [done..|]. rewrite Hsf. set_solver.
    + rewrite !fmap_cons. by rewrite Hsf, Hfds.
    + unfold all_fds. rewrite fmap_cons. cbn [union_list foldr]. transitivity w1.
      * eapply same_but_mono; [|exact Hw1]. apply union_subseteq_l.
      * eapply same_but_mono; [|exact Hw2]. apply union_subseteq_r.
  - destruct (IH lss fuel w Hr Hfuel) as (slots' & w2 & Hadv & Hr2 & Hfds & Hw2).
    exists ((o, l) :: slots'), w2. cbn [MultiIter.advance]. ok_test. rewrite Hskip.
    rewrite (io_bind_Done _ _ _ _ _ Hadv).
    assert (all_fds slots' = all_fds slots) as Hall by (unfold all_fds; by rewrite Hfds).
    split; [done|]. split; [|split].
    + simpl. rewrite Hall. split; [|done].
      replace (drop_key key ls) with ls; [eapply slot_gives_frame; [done..|set_solver]|].
      destruct ls as [|l0 ls]; [done|]. destruct Hs as (Hv & it & _ & Hl & _).
      simpl in Hl; subst l0. apply Forall_cons in Hv as [Hv _]. rewrite Hv in Hskip.
      rewrite drop_key_head; [done|]. by apply bool_decide_eq_false in Hskip.
    + rewrite !fmap_cons. by rewrite Hfds.
    + unfold all_fds. rewrite fmap_cons. eapply same_but_mono; [|exact Hw2]. apply union_subseteq_r.
Qed.

(** The heads of the slots are what the choice looks at. *)
Lemma slots_give_heads w slots lss l :
  slots_give w slots lss → Log.IsValid l = true →
  l ∈ (snd <$> slots) ↔ ∃ ls, l :: ls ∈ lss.
Proof.
  intros Hg Hv. revert lss Hg. induction slots as [|[o l0] slots IH]; intros [|ls lss]; simpl; try done.
  { intros _. split; [set_solver|]. intros [ls Hls]. set_solver. }
  intros (Hs & _ & Hr). rewrite elem_of_cons, (IH _ Hr). setoid_rewrite elem_of_cons.
  destruct Hs as (_ & it & _ & Hs). simpl in Hs. destruct ls as [|l1 ls]; destruct Hs as [Hl _].
  - split; [intros [->|[ls ?]]; [congruence|eauto]|]. intros [ls [?|?]]; [done|eauto].
  - subst l1. split; [intros [->|[ls' ?]]; eauto|]. intros [ls' [[= -> ->]|?]]; eauto.
Qed.
End slots.

(** ** One step of the merge *)

Section merge.
Context {I : Type} `{IteratorLaws I}.
Implicit Types (m : MultiIter.t I) (w : world) (lss : list (list Log.t)).

Definition mi_holds w m lss : Prop :=
  length (MultiIter.iters_ m) = length (MultiIter.logs_ m) ∧
  slots_give w (zip (MultiIter.iters_ m) (MultiIter.logs_ m)) lss.

Lemma elem_of_drop_key key l ls : l ∈ drop_key key ls → l ∈ ls.
Proof. induction ls as [|l' ls IH]; simpl; [done|]. case_bool_decide; set_solver. Qed.

Lemma drop_key_ordered key ls : ordered ls → ordered (drop_key key ls).
Proof. induction 1 as [|l ls Hs IH Hf]; simpl; [constructor|]. case_bool_decide; [done|by constructor]. Qed.

Lemma drop_key_length key ls : (length (drop_key key ls) ≤ length ls)%nat.
Proof. induction ls as [|l ls IH]; simpl; [done|]. case_bool_decide; simpl; lia. Qed.

(** In record order, a record never comes before a newer one of its key. *)
Lemma lt_newer (a b : Log.t) : lt a b → newer_than a b.
Proof.
  unfold lt, newer_than, less, less_Log, Log.less_log, lt. rewrite <- less_bytes_eq.
  destruct (less (Log.key a) (Log.key b)) eqn:Hab; [by left|].
  destruct (less (Log.key b) (Log.key a)) eqn:Hba; [done|]. intros Hl. right.
  split; [by apply less_total|lia].
Qed.

Lemma ordered_newer l ls x : ordered (l :: ls) → x ∈ l :: ls → newer_than l x.
Proof.
  intros [_ Hf]%StronglySorted_inv [->|Hx]%elem_of_cons.
  - right. split; [done|lia].
  - rewrite Forall_forall in Hf. by apply lt_newer, Hf.
Qed.

Lemma drop_key_above c ls x :
  ordered ls → (∀ l, l ∈ ls → newer_than c l) → x ∈ drop_key (Log.key c) ls →
  lt (Log.key c) (Log.key x).
Proof.
  induction ls as [|l ls IH]; intros Hord Hc Hx; [by apply not_elem_of_nil in Hx|]. simpl in Hx.
  case_bool_decide as Hk.
  - apply StronglySorted_inv in Hord as [Hord _]. apply IH; [done|set_solver|done].
  - pose proof (ordered_newer l ls x Hord Hx) as Hlx.
    assert (lt (Log.key c) (Log.key l)) as Hcl.
    { destruct (Hc l) as [?|[? _]]; [set_solver|done|done]. }
    destruct Hlx as [Hlx|[-> _]]; [|done]. unfold lt in *. by eapply less_trans.
Qed.

Lemma drop_key_other key ls x : x ∈ ls → Log.key x ≠ key → x ∈ drop_key key ls.
Proof.
  induction ls as [|l ls IH]; simpl; [done|]. intros [->|Hx]%elem_of_cons Hk.
  - rewrite bool_decide_eq_false_2 by done. set_solver.
  - case_bool_decide; [auto|set_solver].
Qed.

Lemma slots_give_valid w slots lss l : slots_give w slots lss → l ∈ concat lss → Log.IsValid l = true.
Proof.
  revert lss. induction slots as [|s slots IH]; intros [|ls lss]; simpl; try done; [set_solver|].
  intros ((Hv & _) & _ & Hr) [Hl|Hl]%elem_of_app; [|eauto].
  rewrite Forall_forall in Hv. auto.
Qed.

Lemma elem_of_concat (l : Log.t) lss : l ∈ concat lss ↔ ∃ ls, ls ∈ lss ∧ l ∈ ls.
Proof.
  induction lss as [|ls lss IH]; simpl; [set_solver|].
  rewrite elem_of_app, IH. set_solver.
Qed.

Lemma elem_of_concat_head h ls lss : h :: ls ∈ lss → h ∈ concat lss.
Proof. intros Hls. apply elem_of_concat. exists (h :: ls). set_solver. Qed.

Lemma slots_give_head_valid w slots lss h ls :
  slots_give w slots lss → h :: ls ∈ lss → Log.IsValid h = true.
Proof. intros Hg Hls. eapply slots_give_valid; [done|]. by eapply elem_of_concat_head. Qed.

Lemma Next_step fuel m log w lss l0 :
  mi_holds w m lss → Forall (λ ls, ordered ls ∧ (length ls ≤ fuel)%nat) lss →
  l0 ∈ concat lss →
  ∃ c m' w', MultiIter.Next_ fuel m log w = Done ((OK, c, m'), w') ∧
    mi_holds w' m' (drop_key (Log.key c) <$> lss) ∧
    c ∈ concat lss ∧ ∀ l, l ∈ concat lss → newer_than c l.
Proof.
  intros [Hlen Hg] Hord Hl0. set (slots := zip (MultiIter.iters_ m) (MultiIter.logs_ m)) in *.
  assert (MultiIter.logs_ m = slots.*2) as Hlogs by (unfold slots; by rewrite snd_zip by lia).
  assert (∀ l, l ∈ concat lss → ∃ h ls, h :: ls ∈ lss ∧ l ∈ h :: ls) as Hhead.
  { intros l ([|h ls] & Hls & Hl)%elem_of_concat; [set_solver|eauto]. }
  pose proof (choose_spec (MultiIter.logs_ m)) as Hc. unfold MultiIter.Next_. fold slots.
  destruct (MultiIter.choose (MultiIter.logs_ m)) as [c|].
  - destruct Hc as (Hin & Hv & Hmin). rewrite Hlogs in Hin, Hmin.
    destruct (advance_spec (Log.key c) slots lss fuel w Hg) as (slots' & w' & Hadv & Hg' & _).
    { eapply Forall_impl; [exact Hord|]. by intros ? []. }
    rewrite (io_bind_Done _ _ _ _ _ Hadv). ok_test.
    eexists c, _, w'. split; [reflexivity|]. split; [|split].
    + split; cbn; [by rewrite !length_fmap|]. by rewrite zip_fst_snd.
    + apply (slots_give_heads w slots lss c Hg Hv) in Hin as [ls Hls].
      by eapply elem_of_concat_head.
    + intros l Hl. destruct (Hhead l Hl) as (h & ls & Hls & Hhl).
      rewrite Forall_forall in Hord. destruct (Hord _ Hls) as [Ho _].
      eapply newer_than_trans; [|by eapply ordered_newer].
      pose proof (slots_give_head_valid w slots lss h ls Hg Hls) as Hvh.
      apply Hmin; [|done]. apply (slots_give_heads w slots lss h Hg); eauto.
  - destruct (Hhead l0 Hl0) as (h & ls & Hls & _).
    pose proof (slots_give_head_valid w slots lss h ls Hg Hls) as Hvh.
    rewrite Forall_forall, Hlogs in Hc. rewrite Hc in Hvh; [done|].
    apply (slots_give_heads w slots lss h Hg); eauto.
Qed.

Lemma HasNext_spec m w lss :
  mi_holds w m lss → MultiIter.HasNext_ m = true ↔ ∃ l, l ∈ concat lss.
Proof.
  intros [Hlen Hg]. set (slots := zip (MultiIter.iters_ m) (MultiIter.logs_ m)) in *.
  assert (MultiIter.logs_ m = slots.*2) as Hlogs by (unfold slots; by rewrite snd_zip by lia).
  unfold MultiIter.HasNext_. rewrite existsb_exists, Hlogs. setoid_rewrite elem_of_concat. split.
  - intros (l & Hl & Hv). apply list_elem_of_In in Hl.
    apply (slots_give_heads w slots lss l Hg Hv) in Hl as [ls Hls]. exists l, (l :: ls). set_solver.
  - intros (l & [|h ls] & Hls & Hl); [set_solver|].
    pose proof (slots_give_head_valid w slots lss h ls Hg Hls) as Hv.
    exists h. split; [|done]. apply list_elem_of_In. apply (slots_give_heads w slots lss h Hg); eauto.
Qed.

(** The constructor reads one record ahead in every iterator. *)
Lemma fill_gives iters : ∀ lss w,
  Forall2 (λ it ls, gives it w ls ∧ Forall (λ l, Log.IsValid l = true) ls) iters lss →
  (∀ i j it it', iters !! i = Some it → iters !! j = Some it' → i ≠ j → fds_of it ## fds_of it') →
  ∃ slots w', MultiIter.fill OK iters w = Done (slots, w') ∧ slots_give w' slots lss ∧
    slot_fds <$> slots = fds_of <$> iters ∧ same_but (⋃ (fds_of <$> iters)) w w'.
Proof.
  induction iters as [|it iters IH]; intros lss w Hg Hd; inversion Hg as [|? ls ? lss' [Hit Hv] Hr]; subst.
  { by exists [], w. }
  assert (fds_of it ## ⋃ (fds_of <$> iters)) as Hdit.
  { intros fd Hfd (X & (it' & -> & [j Hj]%list_elem_of_lookup)%list_elem_of_fmap & HX)%elem_of_union_list.
    by apply (Hd 0%nat (S j) it it' eq_refl Hj (Nat.neq_0_succ j) fd). }
  assert (∀ w1, same_but (fds_of it) w w1 →
    ∃ slots w', MultiIter.fill OK iters w1 = Done (slots, w') ∧ slots_give w' slots lss' ∧
    slot_fds <$> slots = fds_of <$> iters ∧ same_but (⋃ (fds_of <$> iters)) w1 w') as Hrest.
  { intros w1 Hw1. apply IH; [|intros i j it1 it2 Hi Hj Hij; apply (Hd (S i) (S j)); auto].
    apply Forall2_same_length_lookup_2; [by eapply Forall2_length|].
    intros i it1 ls1 Hi1 Hl1. pose proof (Forall2_lookup_lr _ _ _ _ _ _ Hr Hi1 Hl1) as [? ?].
    split; [|done]. eapply gives_frame; [done..|]. by apply (Hd 0%nat (S i)). }
  assert (∀ w1 w' s slots, same_but (fds_of it) w w1 →
    slots_give w' slots lss' → slot_fds <$> slots = fds_of <$> iters →
    same_but (⋃ (fds_of <$> iters)) w1 w' → slot_fds s = fds_of it → slot_gives w1 s ls →
    slots_give w' (s :: slots) (ls :: lss') ∧ slot_fds <$> s :: slots = fds_of <$> it :: iters ∧
    same_but (⋃ (fds_of <$> it :: iters)) w w') as Hcons.
  { intros w1 w' s slots Hw1 Hslots Hfds Hw' Hs Hgs. rewrite !fmap_cons, Hs, Hfds.
    split; [|split; [done|]].
    - cbn [slots_give]. unfold all_fds. rewrite Hfds, Hs. split; [|done].
      eapply slot_gives_frame; [done..|]. rewrite Hs. set_solver.
    - cbn [union_list foldr]. transitivity w1.
      + eapply same_but_mono; [|exact Hw1]. apply union_subseteq_l.
      + eapply same_but_mono; [|exact Hw']. apply union_subseteq_r. }
  cbn [MultiIter.fill]. ok_test. destruct ls as [|l ls].
  - rewrite (gives_nil _ _ Hit).
    destruct (Hrest w) as (slots & w' & Hf & Hslots & Hfds & Hw'); [done|].
    exists ((Some it, Log.Reset Log.empty) :: slots), w'. rewrite (io_bind_Done _ _ _ _ _ Hf).
    split; [done|]. eapply Hcons; [|done..| |]; [done|done|]. split; [done|]. by exists it.
  - apply gives_cons in Hit as (Hn & it1 & w1 & Hnext & Hit1 & Hown & Hw1). rewrite Hn.
    destruct (Hrest w1 Hw1) as (slots & w' & Hf & Hslots & Hfds & Hw').
    exists ((Some it1, l) :: slots), w'. rewrite (io_bind_Done _ _ _ _ _ (Hnext _)).
    rewrite (io_bind_Done _ _ _ _ _ Hf). split; [done|].
    eapply Hcons; [exact Hw1|done..| |]; [exact Hown|]. split; [done|]. by exists it1.
Qed.

(** The loop of an iterator's client (the flusher, the tests):
    [while (it.HasNext()) it.Next(log)], keeping the records. *)
Fixpoint drain_multi (fuel loops : nat) m : io (list Log.t) :=
  if negb (MultiIter.HasNext_ m) then mret []
  else
    match loops with
    | O => lift NoFuel
    | S loops =>
        '(_, c, m) ← MultiIter.Next_ fuel m Log.empty;
        rest ← drain_multi fuel loops m;
        mret (c :: rest)
    end.

(** What the merge of [lss] must be: keys strictly increasing, every record
    from the inputs, and for each input record the newest of its key. *)
Record merge_of (lss : list (list Log.t)) (out : list Log.t) : Prop := {
  merge_sorted : StronglySorted (λ a b, lt (Log.key a) (Log.key b)) out;
  merge_from : ∀ c, c ∈ out → c ∈ concat lss;
  merge_newest : ∀ l, l ∈ concat lss →
    ∃ c, c ∈ out ∧ Log.key c = Log.key l ∧ Log.lsn l ≤ Log.lsn c;
}.

Lemma elem_of_concat_drop key x lss :
  x ∈ concat (drop_key key <$> lss) → x ∈ concat lss.
Proof.
  rewrite !elem_of_concat. intros (ls & (ls' & -> & Hls)%list_elem_of_fmap & Hx).
  exists ls'. split; [done|]. by eapply elem_of_drop_key.
Qed.

Lemma length_concat_drop key lss :
  (length (concat (drop_key key <$> lss)) ≤ length (concat lss))%nat.
Proof.
  induction lss as [|ls lss IH]; [done|]. rewrite fmap_cons; cbn [concat]. rewrite !length_app.
  pose proof (drop_key_length key ls). lia.
Qed.

Lemma in_drop_key_ne c ls x :
  ordered ls → (∀ l, l ∈ ls → newer_than c l) → x ∈ drop_key (Log.key c) ls →
  Log.key x ≠ Log.key c.
Proof.
  intros Ho Hn Hx Hk. pose proof (drop_key_above c ls x Ho Hn Hx) as Hl.
  unfold lt in Hl. by rewrite Hk, less_irrefl in Hl.
Qed.

Lemma length_concat_drop_lt c lss :
  Forall ordered lss → (∀ l, l ∈ concat lss → newer_than c l) → c ∈ concat lss →
  (length (concat (drop_key (Log.key c) <$> lss)) < length (concat lss))%nat.
Proof.
  induction lss as [|ls lss IH]; intros Ho Hn Hc; [by apply not_elem_of_nil in Hc|].
  rewrite fmap_cons; cbn [concat] in *. rewrite !length_app.
  apply Forall_cons in Ho as [Hols Ho].
  pose proof (drop_key_length (Log.key c) ls). pose proof (length_concat_drop (Log.key c) lss).
  apply elem_of_app in Hc as [Hc|Hc].
  - destruct ls as [|l ls]; [by apply not_elem_of_nil in Hc|]. destruct (decide (Log.key l = Log.key c)) as [Hk|Hk].
    + simpl. rewrite bool_decide_eq_true_2 by done. pose proof (drop_key_length (Log.key c) ls). lia.
    + exfalso. eapply (in_drop_key_ne c (l :: ls) c); [done| |by rewrite drop_key_head|done].
      intros x Hx. apply Hn. set_solver.
  - assert (length (concat (drop_key (Log.key c) <$> lss)) < length (concat lss))%nat; [|lia].
    apply IH; [done| |done]. intros l Hl. apply Hn. set_solver.
Qed.

Lemma merge_step c lss out :
  Forall ordered lss → (∀ l, l ∈ concat lss → newer_than c l) → c ∈ concat lss →
  merge_of (drop_key (Log.key c) <$> lss) out → merge_of lss (c :: out).
Proof.
  intros Ho Hn Hc [Hs Hf Hnew].
  assert (∀ x, x ∈ concat (drop_key (Log.key c) <$> lss) → lt (Log.key c) (Log.key x)) as Habove.
  { intros x (ls & (ls' & -> & Hls)%list_elem_of_fmap & Hx)%elem_of_concat.
    rewrite Forall_forall in Ho. eapply drop_key_above; [by apply Ho| |done].
    intros l Hl. apply Hn, elem_of_concat. eauto. }
  split.
  - constructor; [done|]. apply Forall_forall. auto.
  - intros x [->|Hx]%elem_of_cons; [done|]. by eapply elem_of_concat_drop, Hf.
  - intros l Hl. destruct (decide (Log.key l = Log.key c)) as [Hk|Hk].
    + exists c. split; [set_solver|]. split; [done|].
      destruct (Hn l Hl) as [Hlt|[_ Hle]]; [|done]. unfold lt in Hlt. by rewrite Hk, less_irrefl in Hlt.
    + apply elem_of_concat in Hl as (ls & Hls & Hl).
      destruct (Hnew l) as (c' & Hc' & Heq); [|exists c'; split; [set_solver|done]].
      apply elem_of_concat. exists (drop_key (Log.key c) ls). split; [by apply list_elem_of_fmap_2|].
      by apply drop_key_other.
Qed.

Lemma drain_multi_spec fuel loops : ∀ m w lss,
  mi_holds w m lss → Forall (λ ls, ordered ls ∧ (length ls ≤ fuel)%nat) lss →
  (length (concat lss) ≤ loops)%nat →
  ∃ out w', drain_multi fuel loops m w = Done (out, w') ∧ merge_of lss out.
Proof.
  induction loops as [|loops IH]; intros m w lss Hm Hord Hloops.
  all: pose proof (HasNext_spec m w lss Hm) as Hnext;
    destruct (concat lss) as [|l0 rest] eqn:Hc.
  1, 3: exists [], w; cbn [drain_multi];
    destruct (MultiIter.HasNext_ m); [destruct Hnext as [[l Hl] _]; [done|by apply not_elem_of_nil in Hl]|];
    split; [done|]; split; [constructor|set_solver|rewrite Hc; set_solver].
  { simpl in Hloops; lia. }
  rewrite <- Hc in *.
  assert (l0 ∈ concat lss) as Hl0 by (rewrite Hc; set_solver).
  cbn [drain_multi]. rewrite (proj2 Hnext) by eauto. cbn [negb].
  destruct (Next_step fuel m Log.empty w lss l0 Hm Hord Hl0)
    as (c & m' & w1 & Hstep & Hm' & Hcin & Hnew).
  rewrite (io_bind_Done _ _ _ _ _ Hstep).
  assert (Forall ordered lss) as Ho by (eapply Forall_impl; [exact Hord|]; by intros ? []).
  destruct (IH m' w1 (drop_key (Log.key c) <$> lss) Hm') as (out & w2 & Hd & Hmo).
  - apply Forall_fmap. eapply Forall_impl; [exact Hord|]. intros ls [? ?]. simpl.
    split; [by apply drop_key_ordered|]. pose proof (drop_key_length (Log.key c) ls). lia.
  - pose proof (length_concat_drop_lt c lss Ho Hnew Hcin). lia.
  - exists (c :: out), w2. rewrite (io_bind_Done _ _ _ _ _ Hd). split; [done|]. by apply merge_step.
Qed.
End merge.

(** C9: Merging record iterators that own different descriptors, each in record
    order, delivers every key once, in increasing key order, each time with a
    record of the inputs that is at least as new as every input record of
    that key; and the loop ends. *)
Theorem merge_correct {I} `{IteratorLaws I} fuel loops (iters : list I) lss w :
  Forall2 (λ it ls, gives it w ls ∧ Forall (λ l, Log.IsValid l = true) ls) iters lss →
  (∀ i j it it', iters !! i = Some it → iters !! j = Some it' → i ≠ j → fds_of it ## fds_of it') →
  Forall (λ ls, ordered ls ∧ (length ls ≤ fuel)%nat) lss →
  (length (concat lss) ≤ loops)%nat →
  ∃ out w', (m ← MultiIter.make iters; drain_multi fuel loops m) w = Done (out, w') ∧
    merge_of lss out.
Proof.
  intros Hg Hd Hord Hloops.
  destruct (fill_gives iters lss w Hg Hd) as (slots & w1 & Hf & Hs & _).
  destruct (drain_multi_spec fuel loops (MultiIter.mk (slots.*1) (slots.*2)) w1 lss) as (out & w' & Ho & Hm);
    [|done|done|].
  - split; cbn; [by rewrite !length_fmap|]. by rewrite zip_fst_snd.
  - exists out, w'. split; [|done]. unfold MultiIter.make.
    rewrite (io_bind_Done _ _ w (MultiIter.mk (slots.*1) (slots.*2)) w1); [done|].
    by rewrite (io_bind_Done _ _ _ _ _ Hf).
Qed.

Lemma merge_correct_witness :
  let l n k v := Log.make n PUT (bs k) (bs v) in
  let ls1 := [l 7 "kea" "a"; l 5 "keb" "b"] in
  let ls2 := [l 1 "kea" "a2"; l 3 "kec" "c2"] in
  let it ls := MemIterator.mk ls ls in
  let w := mkWorld ∅ ∅ 3 [] in
  ∃ out w', (m ← MultiIter.make [it ls1; it ls2]; drain_multi 2 4 m) w = Done (out, w') ∧
    merge_of [ls1; ls2] out.
Proof.
  intros l ls1 ls2 it w. apply (merge_correct 2 4 [it ls1; it ls2] [ls1; ls2] w).
  - repeat constructor.
  - intros i j a b _ _ _. apply disjoint_empty_l.
  - repeat constructor.
  - cbn; lia.
Defined.
