(* ===== verification/Storage.v ===== *)
(** * The storage engine as a whole

    What the parts of src/storage promise together: a table file gives back
    the records it was made from, also to a process that only finds the file;
    what a restart of the table manager does to existing tables. *)

From S2P Require Import Prelude StdContainers Status Posix StoreLog SstMeta StoreIterator SsTable Memtable.

(** A record written at the end of a file and read back through another
    descriptor is the record, and the reader then stands after it. *)
Theorem log_file_roundtrip w fdw fdr p c l l0 :
  faults w = [] → log_wf l → fdw ≠ fdr →
  fdt w !! fdw = Some (mkFd p (zlen c)) → fdt w !! fdr = Some (mkFd p (zlen c)) →
  files w !! p = Some c →
  ∃ w1 w2, Log.Write l fdw w = Done (OK, w1) ∧ Log.Read l0 fdr w1 = Done ((OK, l), w2) ∧
    fdt w2 !! fdr = Some (mkFd p (zlen c + Log.Size l + 8)) ∧ files w2 !! p = Some (c ++ frame l).
Proof.
  intros Hnf Hwf Hne Hfdw Hfdr Hp. eexists _, _. unfold Log.Write, Log.Read.
  split; [io_step (Write_frame w fdw p c l); [done..|]; reflexivity|]. split.
  - erewrite io_bind_Done; cycle 1.
    { eapply (Read_frame _ fdr p c []); cbn [faults fdt files]; [done..| |].
      - by rewrite lookup_insert_ne.
      - by rewrite lookup_insert_eq, app_nil_r. }
    reflexivity.
  - unfold set_fdt. cbn [fdt files]. rewrite !lookup_insert_eq. split; [|done].
    rewrite length_app, Nat2Z.inj_add, length_frame by done. unfold Log.Size. do 2 f_equal. lia.
Qed.

Lemma log_file_roundtrip_witness :
  let l := Log.make 7 DEL (bs "key") (bs "value") in
  let w := mkWorld {[bs "f" := bs "xy"]} {[3 := mkFd (bs "f") 2; 4 := mkFd (bs "f") 2]} 5 [] in
  ∃ w1 w2, Log.Write l 3 w = Done (OK, w1) ∧ Log.Read Log.empty 4 w1 = Done ((OK, l), w2) ∧
    fdt w2 !! 4 = Some (mkFd (bs "f") (zlen (bs "xy") + Log.Size l + 8)) ∧
    files w2 !! bs "f" = Some (bs "xy" ++ frame l).
Proof.
  intros l w. apply (log_file_roundtrip w 3 4 (bs "f") (bs "xy") l Log.empty); try reflexivity; [|done].
  apply make_wf; [lia|by right|vm_compute; done].
Defined.

(** C8: Flushing an iterator to a new file and then opening that file, as a
    process that starts later does, finds a table with the given last record
    and an iterator that delivers exactly the records flushed, in order. *)
Theorem flush_recover_scan {I} `{IteratorLaws I} dir fn last ls it w fuel s it0 :
  table_wf last ls → calm w → gives it w ls → (length ls ≤ fuel)%nat →
  files w !! path_of dir fn = None →
  ∃ sst it1 w1 s' w2 it' w3,
    SSTFlusher.Flush fuel dir fn it last SStable.empty w = Done ((OK, sst, it1), w1) ∧
    SStable.Recover s dir fn w1 = Done ((OK, s'), w2) ∧
    SSTMeta.last_log_ (SStable.meta_ s') = last ∧
    SStable.CreateIterator s' it0 w2 = Done ((OK, it'), w3) ∧
    gives it' w3 ls ∧ files w3 = <[path_of dir fn := table_bytes last ls]> (files w).
Proof.
  intros Hwf Hc Hg Hfuel Hp.
  destruct (flusher_writes_table last ls Hwf dir fn it w fuel Hc Hg Hfuel Hp) as (it1 & w1 & Hf & Hc1 & Hf1).
  assert (table_at w1 dir fn last ls) as Ht1 by (unfold table_at; rewrite Hf1; apply lookup_insert_eq).
  destruct (recover_table last ls Hwf s dir fn w1 Hc1 Ht1) as (w2 & Hr & Hc2 & Hf2).
  assert (table_at w2 dir fn last ls) as Ht2 by (unfold table_at; by rewrite Hf2).
  destruct (scan_table last ls Hwf it0 true dir fn [] w2 Hc2 Ht2) as (it' & w3 & Hs & Hg3 & Hc3 & Hf3).
  eexists _, it1, w1, _, w2, it', w3. split; [done|]. split; [done|]. split; [done|].
  split; [done|]. split; [done|]. by rewrite Hf3, Hf2.
Qed.

Lemma flush_recover_scan_witness :
  let l n k v := Log.make n PUT (bs k) (bs v) in
  let ls := [l 1 "kea" "a2"; l 3 "kec" "c2"] in
  let last := l 3 "kec" "c2" in
  let w := mkWorld ∅ ∅ 3 [] in
  ∃ sst it1 w1 s' w2 it' w3,
    SSTFlusher.Flush 2 (bs "tmp") (bs "t") (MemIterator.mk ls ls) last SStable.empty w =
      Done ((OK, sst, it1), w1) ∧
    SStable.Recover SStable.empty (bs "tmp") (bs "t") w1 = Done ((OK, s'), w2) ∧
    SSTMeta.last_log_ (SStable.meta_ s') = last ∧
    SStable.CreateIterator s' SSTIterator.empty w2 = Done ((OK, it'), w3) ∧
    gives it' w3 ls ∧ files w3 = <[path_of (bs "tmp") (bs "t") := table_bytes last ls]> (files w).
Proof.
  intros l ls last w.
  apply (flush_recover_scan (bs "tmp") (bs "t") last ls (MemIterator.mk ls ls) w 2).
  - apply (bool_decide_unpack _). vm_compute. exact I.
  - split; [done|cbn; lia].
  - reflexivity.
  - cbn; lia.
  - reflexivity.
Defined.

(** ** A restart reuses the names of existing tables *)

(** What a client that drains an iterator sees. *)
Fixpoint collect {I} `{Iterator I} (fuel : nat) (it : I) : io (list Log.t) :=
  if negb (HasNext it) then mret []
  else
    match fuel with
    | O => lift NoFuel
    | S fuel =>
        '(ret, l, it) ← Next it Log.empty;
        if negb (IsOK ret) then mret [] else
        rest ← collect fuel it; mret (l :: rest)
    end.

(** One process: start the table manager on a directory listing, flush. *)
Definition run_mgr (dir : bytes) (entries : list (bool * bytes)) (ls : list Log.t) (last : Log.t)
    : io (Status * SSTMgr.t) :=
  '(_, mgr) ← SSTMgr.Init (SSTMgr.make dir) (Some entries);
  '(ret, mgr, _) ← SSTMgr.Flush (length ls) mgr (MemIterator.mk ls ls) last;
  mret (ret, mgr).

Definition scan_file (dir fn : bytes) : io (Status * list Log.t) :=
  '(ret, s) ← SStable.Recover SStable.empty dir fn;
  '(_, it) ← SStable.CreateIterator s SSTIterator.empty;
  ls ← collect 10 it; mret (ret, ls).

Definition contents (path : bytes) : io (option bytes) := λ w, Done (files w !! path, w).

(** [SSTMgr::Init] starts its file counter at zero also when it recovered
    tables, so the first flush after a restart writes into the first table of
    the previous run: its records are gone, and because the file is not
    truncated a record of the old table is still read after the new ones. *)
Theorem restart_overwrites_first_table :
  let l n k v := Log.make n PUT (bs k) (bs v) in
  let old := [l 1 "a" "1"; l 2 "b" "2"; l 3 "c" "3"] in
  let new := [l 4 "d" "4"; l 5 "e" "5"] in
  let fn := bs "CtgSST.0x1" in
  ('(r1, _) ← run_mgr (bs "tmp") [] old (l 3 "c" "3");
   file1 ← contents (path_of (bs "tmp") fn);
   '(r2, m2) ← run_mgr (bs "tmp") [(true, fn)] new (l 5 "e" "5");
   scan ← scan_file (bs "tmp") fn;
   mret (r1, file1, r2, SStable.filename_ <$> SSTMgr.ssts_ m2, scan))
    (mkWorld ∅ ∅ 3 []) ≫= (λ r, Done r.1) =
  Done (OK, Some (table_bytes (l 3 "c" "3") old), OK, [fn; fn], (OK, new ++ [l 3 "c" "3"])).
Proof. vm_compute. reflexivity. Qed.
