(* ===== verification/MemWal.v ===== *)
(** * The log of the memory table (src/storage/memtable/wal.cc)

    Records are appended to a log file; CURRENT holds the offset from which a
    restart replays them.  The callback [func_] is modelled by the calls it
    receives: [Recover] returns the records it was called with, in order.  The
    mutex of [LogToDisk] makes each call one step. *)

From S2P Require Import Prelude StdContainers Status Posix StoreLog.

Module MemWal.

Record t : Type := mk {
  init_ : bool; dlog_ : Z; dir_ : bytes; filename_ : bytes; current_ : bytes }.

Definition make : t := mk false 0 [] [] [].

Definition log_path (m : t) : bytes := dir_ m ++ filename_ m.
Definition current_path (m : t) : bytes := dir_ m ++ current_ m.

Definition set_dlog (fd : Z) (m : t) : t := mk (init_ m) fd (dir_ m) (filename_ m) (current_ m).
Definition set_init (m : t) : t := mk true (dlog_ m) (dir_ m) (filename_ m) (current_ m).

Definition Start (m : t) : io (Status * t) :=
  dlog ← open_ (log_path m) true true;
  let m := set_dlog dlog m in
  if dlog <? 0 then mret (Corruption (bs "Open fail"), m)
  else
    current_fd ← open_ (current_path m) true true;
    if current_fd <? 0 then mret (Corruption (bs "Open fail"), m)
    else
      r ← write_ current_fd (u64_bytes 0);
      if r <? 0 then mret (Corruption (bs "write fail"), m)
      else _ ← close_ current_fd; mret (OK, m).

(** The [while] of [Recover]. *)
Fixpoint replay (fuel : nat) (reader size : Z) (ret : Status) (log : Log.t) (offset : Z)
  : io (Status * list Log.t) :=
  if negb (IsOK ret && (offset <? size)) then mret (ret, [])
  else
    match fuel with
    | O => lift NoFuel
    | S fuel =>
        '(ret, log, readed) ← Log.Read_ log reader 0;
        if IsOK ret then
          '(ret, calls) ← replay fuel reader size ret log (wrap64 (offset + readed));
          mret (ret, log :: calls)
        else replay fuel reader size ret log offset
    end.

(** The part of [Recover] before the loop: reader, size, offset. A short
    CURRENT overwrites only the low bytes of the zero offset. *)
Definition open_reader (m : t) : io (Status * Z * Z * Z) :=
  reader ← open_ (current_path m) false false;
  if reader <? 0 then mret (Corruption (bs "Open fail"), reader, 0, 0)
  else
    '(r, data) ← read_ reader 8;
    let offset := le_val (data ++ drop (length data) (u64_bytes 0)) in
    if r <? 0 then mret (Corruption (bs "Read fail"), reader, 0, 0)
    else
      _ ← close_ reader;
      reader ← open_ (log_path m) false false;
      if reader <? 0 then mret (Corruption (bs "Open fail"), reader, 0, offset)
      else
        size ← stat_size (log_path m);
        r ← lseek_set reader offset;
        if r <? 0 then mret (Corruption (bs "seek error"), reader, size, offset)
        else mret (OK, reader, size, offset).

Definition Recover (fuel : nat) (m : t) : io (Status * t * list Log.t) :=
  '(ret, reader, size, offset) ← open_reader m;
  '(ret, calls) ← replay fuel reader size ret Log.empty offset;
  if IsOK ret then
    _ ← close_ reader;
    dlog ← open_ (log_path m) false false;
    let m := set_dlog dlog m in
    if dlog <? 0 then mret (Corruption (bs "Open fail"), m, calls)
    else
      r ← lseek_end dlog;
      if r <? 0 then mret (Corruption (bs "seek fail"), m, calls) else mret (ret, m, calls)
  else mret (ret, m, calls).

(** The names [Init] gives to the two files. *)
Definition set_names (m : t) (dir : bytes) : t :=
  match last dir with
  | None => mk (init_ m) (dlog_ m) dir (filename_ m) (current_ m)
  | Some c =>
      if bool_decide ([c] = bs "/")
      then mk (init_ m) (dlog_ m) dir (bs "log.ctgfs") (bs "CURRENT")
      else mk (init_ m) (dlog_ m) dir (bs "/log.ctgfs") (bs "/CURRENT")
  end.

(** The status for an empty directory name is overwritten by that of [Start]
    or [Recover]. *)
Definition Init (fuel : nat) (m : t) (dir : bytes) : io (Status * t * list Log.t) :=
  let m := set_names m dir in
  a ← exists_ (log_path m);
  b ← exists_ (current_path m);
  '(ret, m, calls) ←
    (if a && b then Recover fuel m else '(ret, m) ← Start m; mret (ret, m, []));
  mret (ret, if IsOK ret then set_init m else m, calls).

Definition Stop (m : t) : io Status :=
  if init_ m then _ ← close_ (dlog_ m); mret OK else mret OK.

Definition LogToDisk (m : t) (log : Log.t) : io Status := Log.Write log (dlog_ m).

Definition LogToDiskWithoutLock (m : t) (log : Log.t) : io Status := Log.Write log (dlog_ m).

Definition GetDiskLogSize (m : t) : io Z := stat_size (log_path m).

Definition LogCurrent_ (m : t) (offset : Z) : io Status :=
  fd ← open_ (current_path m) true true;
  if fd <? 0 then mret (Corruption (bs "Open fail"))
  else
    r ← write_ fd (u64_bytes offset);
    if r <? 0 then mret (Corruption (bs "write fail"))
    else _ ← close_ fd; mret OK.

(** [LogCurrent()] *)
Definition LogCurrent (m : t) : io Status :=
  offset ← GetDiskLogSize m;
  fd ← open_ (current_path m) true true;
  if fd <? 0 then mret (Corruption (bs "Open fail"))
  else
    r ← write_ fd (u64_bytes offset);
    if r <? 0 then mret (Corruption (bs "write fail"))
    else _ ← close_ fd; mret OK.

End MemWal.

(** ** The contract

    [wal_holds w m ls k]: the log file holds the records [ls], CURRENT points
    after the first [k] of them, and the write descriptor is at the end. *)

Definition wal_files (w : world) (m : MemWal.t) (ls : list Log.t) (k : nat) : Prop :=
  files w !! MemWal.log_path m = Some (frames ls) ∧
  files w !! MemWal.current_path m = Some (u64_bytes (zlen (frames (take k ls)))).

Definition wal_holds (w : world) (m : MemWal.t) (ls : list Log.t) (k : nat) : Prop :=
  wal_files w m ls k ∧
  fdt w !! MemWal.dlog_ m = Some (mkFd (MemWal.log_path m) (zlen (frames ls))).

Definition wal_wf (m : MemWal.t) (ls : list Log.t) : Prop :=
  MemWal.log_path m ≠ MemWal.current_path m ∧ MemWal.log_path m ≠ [] ∧
  MemWal.current_path m ≠ [] ∧ Forall log_wf ls ∧ zlen (frames ls) < 2 ^ 63.

(** Descriptors below the next one only, so a new one is free. *)
Definition fds_ok (w : world) : Prop := faults w = [] ∧ 0 ≤ next_fd w ∧
  ∀ fd, next_fd w ≤ fd → fdt w !! fd = None.

Lemma replay_frames ls : ∀ fuel w reader p a size log,
  faults w = [] → Forall log_wf ls → (length ls ≤ fuel)%nat →
  fdt w !! reader = Some (mkFd p (zlen a)) → files w !! p = Some (a ++ frames ls) →
  size = zlen (a ++ frames ls) → size < 2 ^ 63 →
  MemWal.replay fuel reader size OK log (zlen a) w =
    Done ((OK, ls), set_fdt (<[reader := mkFd p size]> (fdt w)) w).
Proof.
  induction ls as [|l ls IH]; intros fuel w reader p a size log Hnf Hwf Hfuel Hfd Hp Hsz Hmax.
  - rewrite frames_nil, app_nil_r in *. subst size.
    replace (set_fdt _ w) with w by (destruct w; unfold set_fdt; cbn in *; by rewrite insert_id).
    destruct fuel; cbn [MemWal.replay]; ok_test; by test_false.
  - apply Forall_cons in Hwf as [Hl Hwf]. rewrite frames_cons in *.
    pose proof (length_frame l Hl) as Hlen. pose proof Hl as (_&_&Hs&_).
    assert (zlen a + zlen (frame l) + zlen (frames ls) = size) as Hsum by (subst; len).
    destruct fuel as [|fuel]; cbn [length] in Hfuel; [lia|]. cbn [MemWal.replay]. ok_test.
    test_true. cbn [negb].
    io_step (Read_frame w reader p a (frames ls) l log 0); [done..|]. ok_test.
    rewrite wrap_small by lia.
    replace (zlen a + zlen (frame l)) with (zlen (a ++ frame l)) by len.
    io_step (IH fuel (set_fdt (<[reader:=mkFd p (zlen (a ++ frame l))]> (fdt w)) w) reader p
      (a ++ frame l) size l); cbn [faults fdt files set_fdt];
      [done|done|lia|apply lookup_insert_eq|by rewrite <- app_assoc|by rewrite <- app_assoc|done|].
    unfold set_fdt, mret, io_ret. cbn [files fdt next_fd faults]. by rewrite insert_insert_eq.
Qed.

Lemma frames_take_drop ls k : frames ls = frames (take k ls) ++ frames (drop k ls).
Proof. by rewrite <- frames_app, take_drop. Qed.

Section recover.
Context (m : MemWal.t) (ls : list Log.t) (k : nat) (w : world).
Hypotheses (Hfds : fds_ok w) (Hwf : wal_wf m ls) (Hfiles : wal_files w m ls k).

Lemma open_reader_files :
  ∃ w1, MemWal.open_reader m w =
      Done ((OK, next_fd w + 1, zlen (frames ls), zlen (frames (take k ls))), w1) ∧
    faults w1 = [] ∧ next_fd w1 = next_fd w + 2 ∧ files w1 = files w ∧
    fdt w1 !! (next_fd w + 1) = Some (mkFd (MemWal.log_path m) (zlen (frames (take k ls)))).
Proof.
  destruct Hfds as (Hnf & Hfd & Hfree), Hwf as (Hne & Hlp & Hcp & _ & Hmax), Hfiles as [Hlog Hcur].
  set (a := frames (take k ls)) in *.
  assert (zlen a ≤ zlen (frames ls)) as Hale by (rewrite (frames_take_drop ls k); fold a; len).
  unfold MemWal.open_reader. eexists. split.
  - io_step (open_ok w Hnf (MemWal.current_path m) false false _ Hcp); [by left|]. test_false.
    io_step (λ H, read_at _ H (next_fd w) 8 (MemWal.current_path m) [] (u64_bytes (zlen a)) []);
      cbn [faults files fdt]; [done|apply lookup_insert_eq|by rewrite lookup_insert_eq, app_nil_r|by len|].
    test_false. rewrite drop_ge, app_nil_r, le_val_u64, wrap_small by (rewrite ?length_u64_bytes; lia || done).
    rewrite (io_bind_Done (close_ _) _ _ tt _ eq_refl).
    io_step (λ H, open_ok _ H (MemWal.log_path m) false false (frames ls)); cbn [faults files fdt set_fdt next_fd];
      [done|done|left; by rewrite lookup_insert_ne|]. test_false.
    io_step stat_size_ok; cbn [files]; [apply lookup_insert_eq|].
    io_step lseek_ok; cbn [faults fdt]; [done|apply lookup_insert_eq|lia|]. test_false. reflexivity.
  - unfold set_fdt. cbn [faults next_fd files fdt]. repeat split; [done|lia| |apply lookup_insert_eq].
    rewrite (insert_id (files w) (MemWal.current_path m)) by done. by apply insert_id.
Qed.

(** Recovery of a log whose files are in order. *)
Lemma Recover_files fuel :
  (length ls ≤ fuel)%nat →
  ∃ w', MemWal.Recover fuel m w =
      Done ((OK, MemWal.set_dlog (next_fd w + 2) m, drop k ls), w') ∧
    wal_holds w' (MemWal.set_dlog (next_fd w + 2) m) ls k ∧ faults w' = [].
Proof.
  intros Hfuel. destruct open_reader_files as (w1 & Ho & Hnf1 & Hn1 & Hf1 & Hfd1).
  destruct Hfds as (_ & Hfd & _), Hwf as (_ & Hlp & _ & Hls & Hmax), Hfiles as [Hlog Hcur].
  unfold MemWal.Recover. rewrite (io_bind_Done _ _ _ _ _ Ho). eexists. split; [|split].
  - io_step (replay_frames (drop k ls) fuel w1); [done| | |exact Hfd1| | |done|].
    + by apply Forall_drop.
    + rewrite length_drop. lia.
    + by rewrite Hf1, <- frames_take_drop.
    + by rewrite <- frames_take_drop.
    + ok_test. rewrite (io_bind_Done (close_ _) _ _ tt _ eq_refl).
      io_step (λ H, open_ok _ H (MemWal.log_path m) false false (frames ls)); cbn [faults files set_fdt];
        [done|done|left; by rewrite Hf1|]. unfold set_fdt; cbn [next_fd]. rewrite Hn1. test_false.
      io_step lseek_end_ok; cbn [faults fdt files]; [done|apply lookup_insert_eq|apply lookup_insert_eq|].
      test_false. reflexivity.
  - unfold set_fdt, wal_holds, wal_files. cbn [files fdt MemWal.dlog_]. rewrite Hf1, insert_id by done.
    split; [done|]. apply lookup_insert_eq.
  - done.
Qed.
End recover.

(** ** The other operations keep the contract *)

Lemma set_names_paths m dir :
  dir ≠ [] → let m' := MemWal.set_names m dir in
  MemWal.log_path m' ≠ MemWal.current_path m' ∧ MemWal.log_path m' ≠ [] ∧
  MemWal.current_path m' ≠ [].
Proof.
  intros Hd. unfold MemWal.set_names, MemWal.log_path, MemWal.current_path.
  destruct (last dir) as [c|] eqn:Hl; [|by apply last_None in Hl].
  destruct dir as [|d dir]; [done|].
  case_bool_decide; cbn [MemWal.dir_ MemWal.filename_ MemWal.current_]; repeat split;
    try done; intros [=]%(inj (app _)).
Qed.

Lemma set_names_dlog m fd dir :
  MemWal.set_names (MemWal.set_dlog fd m) dir = MemWal.set_dlog fd (MemWal.set_names m dir).
Proof. unfold MemWal.set_names. destruct (last dir); [|done]. by case_bool_decide. Qed.

(** Writing a number into a file, as [Start] and [LogCurrent] do. *)
Lemma write_current {A} (bad1 bad2 good : A) w path off :
  faults w = [] → 0 ≤ next_fd w → path ≠ [] →
  (fd ← open_ path true true;
   if fd <? 0 then mret bad1
   else
     r ← write_ fd (u64_bytes off);
     if r <? 0 then mret bad2 else _ ← close_ fd; mret good) w =
  Done (good, mkWorld (<[path := u64_bytes off]> (files w)) (delete (next_fd w) (fdt w))
                (next_fd w + 1) []).
Proof.
  intros Hnf Hfd Hp.
  assert (∃ c, files w !! path = Some c ∨ (files w !! path = None ∧ true = true ∧ c = [])) as [c Hc].
  { destruct (files w !! path) as [c|]; [exists c; by left|exists []; by right]. }
  io_step (open_ok w Hnf path true true c Hp Hc). test_false.
  io_step (λ H, write_end _ H (next_fd w) path [] (u64_bytes off)); cbn [faults files fdt];
    [done|apply lookup_insert_eq|apply lookup_insert_eq|]. test_false.
  rewrite (io_bind_Done (close_ _) _ _ tt _ eq_refl). unfold set_fdt, mret, io_ret.
  cbn [files fdt next_fd faults app]. by rewrite !insert_insert_eq, delete_insert_eq, Hnf.
Qed.

Definition quiet (w : world) : Prop := faults w = [] ∧ 0 ≤ next_fd w.

Section keeps.
Context (m : MemWal.t) (w : world) (Hq : quiet w).
Hypothesis Hpaths :
  MemWal.log_path m ≠ MemWal.current_path m ∧ MemWal.log_path m ≠ [] ∧ MemWal.current_path m ≠ [].

Lemma Start_holds :
  ∃ w', MemWal.Start m w = Done ((OK, MemWal.set_dlog (next_fd w) m), w') ∧
    wal_holds w' (MemWal.set_dlog (next_fd w) m) [] 0 ∧ quiet w'  ∧
    MemWal.dlog_ (MemWal.set_dlog (next_fd w) m) < next_fd w'.
Proof.
  destruct Hq as [Hnf Hfd], Hpaths as (Hne & Hlp & Hcp). unfold MemWal.Start.
  assert (∃ c, files w !! MemWal.log_path m = Some c ∨
    (files w !! MemWal.log_path m = None ∧ true = true ∧ c = [])) as [c Hc].
  { destruct (files w !! MemWal.log_path m) as [c|]; [exists c; by left|exists []; by right]. }
  eexists. split.
  - io_step (open_ok w Hnf _ true true c Hlp Hc). test_false.
    rewrite write_current; [reflexivity|done|cbn; lia|done].
  - cbn [files fdt next_fd faults]. unfold wal_holds, wal_files, quiet. cbn [files fdt faults next_fd].
    split; [|split; [split; [done|lia]|cbn; lia]]. split; [split|].
    + change (MemWal.log_path (MemWal.set_dlog (next_fd w) m)) with (MemWal.log_path m).
      rewrite lookup_insert_ne by done. apply lookup_insert_eq.
    + apply lookup_insert_eq.
    + rewrite lookup_delete_ne by (cbn; lia). apply lookup_insert_eq.
Qed.

Lemma LogToDisk_holds ls k l :
  wal_holds w m ls k → log_wf l → (k ≤ length ls)%nat → MemWal.dlog_ m < next_fd w →
  ∃ w', MemWal.LogToDisk m l w = Done (OK, w') ∧ wal_holds w' m (ls ++ [l]) k ∧ quiet w' ∧
    next_fd w' = next_fd w.
Proof.
  destruct Hq as [Hnf Hfd], Hpaths as (Hne & Hlp & Hcp). intros [[Hlog Hcur] Hdl] Hl Hk Hlt.
  unfold MemWal.LogToDisk, Log.Write. eexists. split.
  - io_step Write_frame; [done..|]. reflexivity.
  - split; [|by split; [split|]]. unfold wal_holds, wal_files. cbn [files fdt].
    rewrite !lookup_insert_eq, lookup_insert_ne, take_app_le, frames_app, frames_cons, frames_nil,
      app_nil_r by done. done.
Qed.

Lemma LogCurrent_holds ls k :
  wal_holds w m ls k → MemWal.dlog_ m < next_fd w →
  ∃ w', MemWal.LogCurrent m w = Done (OK, w') ∧ wal_holds w' m ls (length ls) ∧ quiet w' ∧
    MemWal.dlog_ m < next_fd w'.
Proof.
  destruct Hq as [Hnf Hfd], Hpaths as (Hne & Hlp & Hcp). intros [[Hlog Hcur] Hdl] Hlt.
  unfold MemWal.LogCurrent, MemWal.GetDiskLogSize. eexists. split.
  - io_step stat_size_ok; [done|]. apply write_current; done.
  - unfold wal_holds, wal_files, quiet. cbn [files fdt faults next_fd].
    rewrite lookup_insert_ne, lookup_insert_eq, firstn_all, lookup_delete_ne by (done || lia).
    repeat split; (done || lia).
Qed.
End keeps.

(** ** A session and a restart *)

Inductive wal_op : Type := WLog (l : Log.t) | WCurrent.

Fixpoint run_ops (m : MemWal.t) (ops : list wal_op) : io Status :=
  match ops with
  | [] => mret OK
  | WLog l :: ops => ret ← MemWal.LogToDisk m l; if IsOK ret then run_ops m ops else mret ret
  | WCurrent :: ops => ret ← MemWal.LogCurrent m; if IsOK ret then run_ops m ops else mret ret
  end.

(** The specification: the records logged after the last [LogCurrent]. *)
Definition since_current (ops : list wal_op) : list Log.t :=
  foldl (λ acc o, match o with WLog l => acc ++ [l] | WCurrent => [] end) [] ops.

Definition logged (ops : list wal_op) : list Log.t :=
  omap (λ o, match o with WLog l => Some l | WCurrent => None end) ops.

Lemma run_ops_holds m ops : ∀ w ls k,
  MemWal.log_path m ≠ MemWal.current_path m ∧ MemWal.log_path m ≠ [] ∧ MemWal.current_path m ≠ [] →
  quiet w → MemWal.dlog_ m < next_fd w → wal_holds w m ls k → (k ≤ length ls)%nat →
  Forall log_wf (logged ops) →
  ∃ w' k', run_ops m ops w = Done (OK, w') ∧ wal_holds w' m (ls ++ logged ops) k' ∧
    drop k' (ls ++ logged ops) =
      foldl (λ acc o, match o with WLog l => acc ++ [l] | WCurrent => [] end) (drop k ls) ops.
Proof.
  induction ops as [|[l|] ops IH]; intros w ls k Hp Hq Hlt Hw Hk Hwf.
  - exists w, k. unfold logged. cbn. rewrite app_nil_r. done.
  - apply Forall_cons in Hwf as [Hl Hwf].
    destruct (LogToDisk_holds m w Hq Hp ls k l Hw Hl Hk Hlt) as (w1 & Hr & Hw1 & Hq1 & Hn1).
    cbn [run_ops]. rewrite (io_bind_Done _ _ _ _ _ Hr). ok_test.
    destruct (IH w1 (ls ++ [l]) k Hp Hq1) as (w' & k' & Hr' & Hw' & Hd);
      [lia|done|rewrite length_app; lia|done|].
    exists w', k'. rewrite <- app_assoc in Hw', Hd. split; [done|]. split; [done|].
    change (logged (WLog l :: ops)) with ([l] ++ logged ops). rewrite Hd. cbn [foldl]. by rewrite drop_app_le.
  - destruct (LogCurrent_holds m w Hq Hp ls k Hw Hlt) as (w1 & Hr & Hw1 & Hq1 & Hn1).
    cbn [run_ops]. rewrite (io_bind_Done _ _ _ _ _ Hr). ok_test.
    destruct (IH w1 ls (length ls) Hp Hq1) as (w' & k' & Hr' & Hw' & Hd); [done..|].
    exists w', k'. split; [done|]. split; [done|]. change (logged (WCurrent :: ops)) with (logged ops). rewrite Hd. cbn [foldl]. by rewrite drop_all.
Qed.

(** The process is gone: its descriptors are, its files are not. *)
Definition crash (w : world) : world := mkWorld (files w) ∅ 3 [].

(** C14: A session that starts on a directory without a log, appends records and
    writes CURRENT in any order and then dies: the next start succeeds and calls
    the callback with exactly the records appended after the last CURRENT, in
    the order of the appends; the loop of the recovery ends. *)
Theorem wal_restart_replays fuel dir ops w :
  let m := MemWal.set_names MemWal.make dir in
  dir ≠ [] → quiet w →
  files w !! MemWal.log_path m = None →
  Forall log_wf (logged ops) → zlen (frames (logged ops)) < 2 ^ 63 →
  (length (logged ops) ≤ fuel)%nat →
  ∃ m1 w1 w2 m2 w3,
    MemWal.Init fuel MemWal.make dir w = Done ((OK, m1, []), w1) ∧
    run_ops m1 ops w1 = Done (OK, w2) ∧
    MemWal.Init fuel MemWal.make dir (crash w2) = Done ((OK, m2, since_current ops), w3) ∧
    MemWal.init_ m2 = true.
Proof.
  intros m Hdir Hq Hno Hwf Hmax Hfuel. pose proof (set_names_paths MemWal.make dir Hdir) as Hp.
  fold m in Hp. cbv zeta in Hp.
  destruct (Start_holds m w Hq Hp) as (w1 & Hs & Hw1 & Hq1 & Hn1).
  destruct (run_ops_holds (MemWal.set_init (MemWal.set_dlog (next_fd w) m)) ops w1 [] 0)
    as (w2 & k & Hr & Hw2 & Hk); [done..|].
  destruct (Recover_files m (logged ops) k (crash w2)) with (fuel := fuel) as (w3 & Hrec & _); [| |apply Hw2|done|].
  { split; [done|]. split; [cbn; lia|]. intros fd _. apply lookup_empty. }
  { destruct Hp as (?&?&?). done. }
  eexists _, w1, w2, _, w3. split; [|split; [exact Hr|split]].
  - unfold MemWal.Init. fold m.
    rewrite (io_bind_Done (exists_ _) _ w false w) by (unfold exists_; by rewrite Hno).
    rewrite (io_bind_Done (exists_ (MemWal.current_path m)) _ w
      (bool_decide (is_Some (files w !! MemWal.current_path m))) w eq_refl). cbn [andb].
    unfold mbind, io_bind. by rewrite Hs.
  - unfold MemWal.Init. fold m. destruct Hw2 as [[Hlog Hcur] _].
    change (MemWal.log_path _) with (MemWal.log_path m) in Hlog.
    change (MemWal.current_path _) with (MemWal.current_path m) in Hcur.
    rewrite (io_bind_Done (exists_ _) _ (crash w2) true (crash w2))
      by (unfold exists_, crash; cbn [files]; by rewrite Hlog).
    rewrite (io_bind_Done (exists_ _) _ (crash w2) true (crash w2))
      by (unfold exists_, crash; cbn [files]; by rewrite Hcur).
    cbn [andb]. rewrite (io_bind_Done _ _ _ _ _ Hrec). ok_test.
    cbn [app drop] in Hk. by rewrite Hk.
  - done.
Qed.

Lemma wal_restart_replays_witness :
  let l n k v := Log.make n PUT (bs k) (bs v) in
  let ops := [WLog (l 1 "a" "1"); WCurrent; WLog (l 2 "b" "2"); WLog (l 3 "a" "3")] in
  ∃ m1 w1 w2 m2 w3,
    MemWal.Init 5 MemWal.make (bs "tmp") (mkWorld ∅ ∅ 3 []) = Done ((OK, m1, []), w1) ∧
    run_ops m1 ops w1 = Done (OK, w2) ∧
    MemWal.Init 5 MemWal.make (bs "tmp") (crash w2) =
      Done ((OK, m2, [l 2 "b" "2"; l 3 "a" "3"]), w3) ∧
    MemWal.init_ m2 = true.
Proof.
  intros l ops. apply (wal_restart_replays 5 (bs "tmp") ops (mkWorld ∅ ∅ 3 [])).
  - done.
  - split; [done|cbn; lia].
  - reflexivity.
  - apply (bool_decide_unpack _). vm_compute. exact I.
  - vm_compute. reflexivity.
  - cbn. lia.
Defined.
