(* ===== verification/LockServer.v ===== *)
(** * The lock server (src/master/lock_server.cc, lock_server_cache.cc, handle.cc)

    The plain lock server, the caching lock server and the table of client
    connections.  Every part of a handler that runs under [lock_m_] is one
    function; the calls the server makes to clients in between are described
    by the answer they get. *)

From S2P Require Import Prelude.

(** The status codes of lock_protocol.h and rlock_protocol. *)
Definition lock_OK : Z := 0.
Definition lock_RETRY : Z := 1.
Definition lock_RPCERR : Z := 2.
Definition lock_NOENT : Z := 3.
Definition lock_IOERR : Z := 4.
Definition lock_RETIRE : Z := 5.
Definition rlock_OK : Z := 0.

(** ** The plain server *)

Module lock_server.

Record t : Type := mk { nacquire : Z; lock_map_ : gmap Z bool }.

Definition make : t := mk 0 ∅.

Definition stat (s : t) (clt lid : Z) : Z * Z := (lock_OK, nacquire s).

(** One turn of the loop of [acquire]: [None] is [pthread_cond_wait]. *)
Definition acquire_turn (s : t) (lid : Z) : option Z * t :=
  match lock_map_ s !! lid with
  | None => (Some lock_OK, mk (nacquire s) (<[lid := true]> (lock_map_ s)))
  | Some true => (None, s)
  | Some false => (Some lock_OK, mk (nacquire s) (<[lid := true]> (lock_map_ s)))
  end.

(** The flag says whether a waiter is signalled. *)
Definition release (s : t) (lid : Z) : Z * bool * t :=
  match lock_map_ s !! lid with
  | None => (lock_OK, false, s)
  | Some true => (lock_OK, true, mk (nacquire s) (<[lid := false]> (lock_map_ s)))
  | Some false => (lock_OK, false, s)
  end.

End lock_server.

(** ** The caching server *)

Record lock_serv_state : Type := mkServ {
  holder : bytes; holded : bool; pendingers : list bytes }.

Definition lock_serv_state_init : lock_serv_state := mkServ [] false [].

Module lock_server_cache.

Abbreviation t := (gmap Z lock_serv_state).

Definition get (lsm : t) (lid : Z) : lock_serv_state := default lock_serv_state_init (lsm !! lid).

(** [acquire] up to the revoke call: [r], the client to revoke, the table. *)
Definition acquire_section (lsm : t) (lid : Z) (id : bytes) : Z * option bytes * t :=
  let s := get lsm lid in
  if holded s then
    if negb (bool_decide (holder s = id)) then
      let s' := mkServ (holder s) (holded s) (pendingers s ++ [id]) in
      if bool_decide (length (pendingers s) = 0%nat)
      then (lock_RETRY, Some (holder s), <[lid := s']> lsm)
      else (lock_RETRY, None, <[lid := s']> lsm)
    else
      let s' := mkServ id true (pendingers s) in
      if bool_decide (length (pendingers s) = 0%nat)
      then (lock_OK, None, <[lid := s']> lsm)
      else (lock_RETIRE, None, <[lid := s']> lsm)
  else
    if bool_decide (length (pendingers s) = 0%nat)
    then (lock_OK, None, <[lid := mkServ id true (pendingers s)]> lsm)
    else (lock_OK, None, <[lid := s]> lsm).

(** [release] up to the retry call: the client that gets the lock, the table. *)
Definition release_section (lsm : t) (lid : Z) (id : bytes) : option bytes * t :=
  let s := get lsm lid in
  if holded s && bool_decide (holder s = id) then
    match pendingers s with
    | next :: rest => (Some next, <[lid := mkServ next true rest]> lsm)
    | [] => (None, <[lid := mkServ [] false []]> lsm)
    end
  else (None, <[lid := s]> lsm).

(** What became of a call to a client: [safebind] returned null, or the call
    returned a status. *)
Inductive callout : Type := NoClient | Answer (ret : Z).

(** The status of a handler that makes a call, from what became of it. *)
Definition acquire_status (revoke : option bytes) (out : callout) : Z :=
  match revoke with
  | None => lock_OK
  | Some _ =>
      match out with
      | NoClient => lock_IOERR
      | Answer ret => if negb (ret =? rlock_OK) then lock_RPCERR else ret
      end
  end.

Definition release_status (next : option bytes) (out : callout) : Z :=
  match next with
  | None => lock_OK
  | Some _ =>
      match out with
      | NoClient => lock_IOERR
      | Answer ret => if negb (ret =? rlock_OK) then lock_RPCERR else lock_OK
      end
  end.

Definition acquire (env : bytes → callout) (lsm : t) (lid : Z) (id : bytes) : Z * Z * t :=
  let '(r, revoke, lsm) := acquire_section lsm lid id in
  (acquire_status revoke (env (default [] revoke)), r, lsm).

Definition release (env : bytes → callout) (lsm : t) (lid : Z) (id : bytes) : Z * Z * t :=
  let '(next, lsm) := release_section lsm lid id in
  (release_status next (env (default [] next)), rlock_OK, lsm).

End lock_server_cache.

(** ** Invariant and contract of the caching server *)

(** Clients queue only for a lock that is held. *)
Definition serv_ok (s : lock_serv_state) : Prop := pendingers s ≠ [] → holded s = true.
Definition lsm_ok (lsm : lock_server_cache.t) : Prop := map_Forall (λ _, serv_ok) lsm.

Inductive request : Type :=
  | RAcquire (lid : Z) (id : bytes)
  | RRelease (lid : Z) (id : bytes).

(** The server's side of a request, with its answer. *)
Definition serve (lsm : lock_server_cache.t) (q : request) : Z * lock_server_cache.t :=
  match q with
  | RAcquire lid id => let '(r, _, lsm) := lock_server_cache.acquire_section lsm lid id in (r, lsm)
  | RRelease lid id => (lock_OK, (lock_server_cache.release_section lsm lid id).2)
  end.

Definition serve_all (qs : list request) : lock_server_cache.t :=
  foldl (λ lsm q, (serve lsm q).2) ∅ qs.

Lemma get_insert lsm lid s : lock_server_cache.get (<[lid := s]> lsm) lid = s.
Proof. unfold lock_server_cache.get. by rewrite lookup_insert_eq. Qed.

Lemma get_insert_ne lsm lid lid' s :
  lid ≠ lid' → lock_server_cache.get (<[lid := s]> lsm) lid' = lock_server_cache.get lsm lid'.
Proof. intros Hne. unfold lock_server_cache.get. by rewrite lookup_insert_ne. Qed.

Lemma lsm_get_ok lsm lid : lsm_ok lsm → serv_ok (lock_server_cache.get lsm lid).
Proof.
  intros Hok. unfold lock_server_cache.get. destruct (lsm !! lid) as [s|] eqn:Hs; [exact (Hok lid s Hs)|by intros ?].
Qed.

(** One request: what it does to the entry of its lock. *)
Definition acquired (s : lock_serv_state) (id : bytes) : Z * option bytes * lock_serv_state :=
  if holded s then
    if decide (holder s = id) then
      (if decide (pendingers s = []) then lock_OK else lock_RETIRE, None, s)
    else
      (lock_RETRY, if decide (pendingers s = []) then Some (holder s) else None,
       mkServ (holder s) true (pendingers s ++ [id]))
  else (lock_OK, None, mkServ id true []).

Definition released (s : lock_serv_state) (id : bytes) : option bytes * lock_serv_state :=
  if decide (holded s = true ∧ holder s = id) then
    (head (pendingers s),
     match pendingers s with n :: p => mkServ n true p | [] => lock_serv_state_init end)
  else (None, s).

Lemma length_0_nil (l : list bytes) : bool_decide (length l = 0%nat) = bool_decide (l = []).
Proof. apply bool_decide_ext. destruct l; naive_solver. Qed.

Lemma acquire_section_spec lsm lid id :
  lsm_ok lsm →
  let a := acquired (lock_server_cache.get lsm lid) id in
  lock_server_cache.acquire_section lsm lid id = (a.1.1, a.1.2, <[lid := a.2]> lsm).
Proof.
  intros Hok. pose proof (lsm_get_ok lsm lid Hok) as Hs. unfold lock_server_cache.acquire_section, acquired.
  destruct (lock_server_cache.get lsm lid) as [h b p]. unfold serv_ok in Hs. cbn [holded holder pendingers] in *.
  rewrite length_0_nil. destruct b.
  - repeat case_bool_decide; repeat case_decide; subst; by simplify_eq.
  - destruct p; [done|]. by discriminate Hs.
Qed.

Lemma release_section_spec lsm lid id :
  let a := released (lock_server_cache.get lsm lid) id in
  lock_server_cache.release_section lsm lid id = (a.1, <[lid := a.2]> lsm).
Proof.
  unfold lock_server_cache.release_section, released.
  destruct (lock_server_cache.get lsm lid) as [h b p]. cbn [holded holder pendingers].
  destruct b; cbn [andb]; [|by rewrite decide_False by naive_solver].
  case_bool_decide; [rewrite decide_True by done; by destruct p|by rewrite decide_False by naive_solver].
Qed.

Lemma acquired_ok s id : serv_ok s → serv_ok (acquired s id).2.
Proof. unfold acquired, serv_ok. destruct (holded s) eqn:Hh; [case_decide|]; cbn; naive_solver. Qed.

Lemma released_ok s id : serv_ok s → serv_ok (released s id).2.
Proof.
  unfold released, serv_ok. case_decide; [|done]. by destruct (pendingers s).
Qed.

Lemma serve_ok lsm q : lsm_ok lsm → lsm_ok (serve lsm q).2.
Proof.
  intros Hok. destruct q as [lid id|lid id]; cbn [serve].
  - rewrite acquire_section_spec by done. cbn [snd].
    apply map_Forall_insert_2; [by apply acquired_ok, lsm_get_ok|done].
  - rewrite release_section_spec. cbn [snd].
    apply map_Forall_insert_2; [by apply released_ok, lsm_get_ok|done].
Qed.

Lemma serve_all_ok qs : lsm_ok (serve_all qs).
Proof.
  unfold serve_all. assert (lsm_ok ∅) as Hok by apply map_Forall_empty.
  revert Hok. generalize (∅ : lock_server_cache.t).
  induction qs as [|q qs IH]; intros lsm Hok; [done|]. cbn [foldl]. by apply IH, serve_ok.
Qed.

(** C23: Whatever requests the lock server has handled: an acquire is answered OK
    or RETIRE exactly when the caller holds the lock afterwards, RETRY exactly
    when another client does, and then the caller is queued last; the first
    client to queue makes the server revoke the holder; a release by the holder
    hands the lock to the client that has queued longest, or frees it; and a
    request for one lock leaves every other lock alone. *)
Theorem lock_server_contract qs lid id :
  let lsm := serve_all qs in
  let s := lock_server_cache.get lsm lid in
  let '(r, revoke, lsm1) := lock_server_cache.acquire_section lsm lid id in
  let s1 := lock_server_cache.get lsm1 lid in
  let '(next, lsm2) := lock_server_cache.release_section lsm lid id in
  let s2 := lock_server_cache.get lsm2 lid in
  (r = lock_OK ∨ r = lock_RETIRE ↔ holded s1 = true ∧ holder s1 = id) ∧
  (r = lock_RETRY ↔ holded s = true ∧ holder s ≠ id) ∧
  (r = lock_RETRY → pendingers s1 = pendingers s ++ [id] ∧ holder s1 = holder s) ∧
  (revoke = if decide (r = lock_RETRY ∧ pendingers s = []) then Some (holder s) else None) ∧
  (holded s = true → holder s = id → pendingers s ≠ [] →
     holded s2 = true ∧ next = Some (holder s2) ∧ holder s2 :: pendingers s2 = pendingers s) ∧
  (holded s = true → holder s = id → pendingers s = [] → holded s2 = false ∧ next = None) ∧
  (∀ lid', lid' ≠ lid → lsm1 !! lid' = lsm !! lid' ∧ lsm2 !! lid' = lsm !! lid').
Proof.
  intros lsm s. pose proof (serve_all_ok qs) as Hok. fold lsm in Hok.
  rewrite (acquire_section_spec lsm lid id Hok), release_section_spec, !get_insert. fold s.
  pose proof (lsm_get_ok lsm lid Hok) as Hs. fold s in Hs. unfold serv_ok in Hs.
  assert (∀ s1 s2 : lock_serv_state, ∀ lid', lid' ≠ lid →
    <[lid := s1]> lsm !! lid' = lsm !! lid' ∧ <[lid := s2]> lsm !! lid' = lsm !! lid') as Hframe
    by (intros; by rewrite !lookup_insert_ne).
  unfold acquired, released, lock_OK, lock_RETRY, lock_RETIRE.
  destruct s as [h b p]; cbn [holder holded pendingers fst snd] in *.
  destruct b; [destruct (decide (h = id)) as [<-|Hne]; destruct p as [|n p]|destruct p]; cbn [fst snd holder holded pendingers];
    repeat case_decide; cbn; (split_and!; [..|exact (Hframe _ _)]); intuition (congruence || lia || auto).
Qed.

(** ** The plain server excludes *)

Inductive plain_event : Type := PTurn (lid : Z) | PRelease (lid : Z).

(** The grants ([true]) and the releases that freed a lock ([false]). *)
Fixpoint plain_history (s : lock_server.t) (evs : list plain_event) : list (Z * bool) :=
  match evs with
  | [] => []
  | PTurn lid :: evs =>
      let '(r, s) := lock_server.acquire_turn s lid in
      match r with
      | Some _ => (lid, true) :: plain_history s evs
      | None => plain_history s evs
      end
  | PRelease lid :: evs =>
      let '(_, signalled, s) := lock_server.release s lid in
      if signalled : bool then (lid, false) :: plain_history s evs else plain_history s evs
  end.

Fixpoint alternates (held : bool) (h : list bool) : Prop :=
  match h with [] => True | b :: h => b = negb held ∧ alternates b h end.

Definition history_of (lid : Z) (h : list (Z * bool)) : list bool :=
  snd <$> filter (λ p : Z * bool, p.1 = lid) h.

Lemma history_of_cons lid lid' b h :
  history_of lid ((lid', b) :: h) =
    if decide (lid' = lid) then b :: history_of lid h else history_of lid h.
Proof. unfold history_of. rewrite filter_cons. cbn. by case_decide. Qed.

Definition plain_held (s : lock_server.t) (lid : Z) : bool :=
  default false (lock_server.lock_map_ s !! lid).

Lemma plain_alternates evs lid : ∀ s,
  alternates (plain_held s lid) (history_of lid (plain_history s evs)).
Proof.
  induction evs as [|[l|l] evs IH]; intros s; [done| |]; cbn [plain_history].
  - unfold lock_server.acquire_turn.
    destruct (lock_server.lock_map_ s !! l) as [[]|] eqn:Hl; [apply IH| |].
    all: rewrite history_of_cons; case_decide; subst; unfold plain_held.
    all: match goal with |- context [plain_history ?s' _] => specialize (IH s') end.
    all: unfold plain_held in IH; cbn [lock_server.lock_map_] in IH.
    1,3: rewrite lookup_insert_eq in IH; rewrite Hl; done.
    all: by rewrite lookup_insert_ne in IH.
  - unfold lock_server.release.
    destruct (lock_server.lock_map_ s !! l) as [[]|] eqn:Hl; [|apply IH..].
    rewrite history_of_cons; case_decide; subst; unfold plain_held.
    all: match goal with |- context [plain_history ?s' _] => specialize (IH s') end.
    all: unfold plain_held in IH; cbn [lock_server.lock_map_] in IH.
    + rewrite lookup_insert_eq in IH. by rewrite Hl.
    + by rewrite lookup_insert_ne in IH.
Qed.

(** However threads of the plain lock server take turns at acquiring and
    releasing, the grants and the effective releases of a lock alternate,
    beginning with a grant; and the acquire counter it reports stays zero. *)
Theorem plain_lock_excludes evs lid clt :
  alternates false (history_of lid (plain_history lock_server.make evs)) ∧
  lock_server.stat lock_server.make clt lid = (lock_OK, 0).
Proof. split; [|done]. apply (plain_alternates evs lid lock_server.make). Qed.

(** ** The table of connections (handle.cc) *)

Module handle_mgr.

(** [cl] is the connection, here a number. *)
Record hinfo : Type := mkH { cl : option Z; refcnt : Z; del : bool }.

Abbreviation t := (gmap bytes hinfo).

(** [None] is the null pointer. *)
Definition get_handle (hmap : t) (m : bytes) : option bytes * t :=
  match hmap !! m with
  | None => (Some m, <[m := mkH None 1 false]> hmap)
  | Some h =>
      if negb (del h) then (Some m, <[m := mkH (cl h) (refcnt h + 1) (del h)]> hmap) else (None, hmap)
  end.

Definition delete_handle_wo (hmap : t) (m : bytes) : t :=
  match hmap !! m with
  | None => hmap
  | Some h =>
      if refcnt h =? 0 then delete m hmap else <[m := mkH (cl h) (refcnt h) true]> hmap
  end.

Definition delete_handle (hmap : t) (m : bytes) : t := delete_handle_wo hmap m.

(** The handle points to the entry of [m]: a missing entry is freed memory. *)
Definition done_handle (hmap : t) (m : bytes) : outcome t :=
  match hmap !! m with
  | None => Undef
  | Some h =>
      let hmap := <[m := mkH (cl h) (refcnt h - 1) (del h)]> hmap in
      Done (if (refcnt h - 1 =? 0) && del h then delete_handle_wo hmap m else hmap)
  end.

(** [bind] is the new client if the connection can be made. *)
Definition safebind (hmap : t) (h : option bytes) (bind : option Z) : outcome (option Z * t) :=
  match h with
  | None => Done (None, hmap)
  | Some m =>
      match hmap !! m with
      | None => Undef
      | Some i =>
          if del i then Done (None, hmap)
          else
            match cl i with
            | Some c => Done (Some c, hmap)
            | None =>
                match bind with
                | None => Done (None, <[m := mkH None (refcnt i) true]> hmap)
                | Some c => Done (Some c, <[m := mkH (Some c) (refcnt i) (del i)]> hmap)
                end
            end
      end
  end.

End handle_mgr.

(** The life of handle objects: [live] counts, for every name, the handles that
    point to its entry.  An object that does not exist makes no calls. *)
Inductive handle_event : Type :=
  | HNew (m : bytes) | HBind (m : bytes) (bind : option Z) | HDone (m : bytes) | HDelete (m : bytes).

Definition count (live : gmap bytes nat) (m : bytes) : nat := default 0%nat (live !! m).

Definition handle_step (s : handle_mgr.t * gmap bytes nat) (e : handle_event)
    : outcome (handle_mgr.t * gmap bytes nat) :=
  let '(hmap, live) := s in
  match e with
  | HNew m =>
      let '(h, hmap) := handle_mgr.get_handle hmap m in
      Done (hmap, match h with Some m => <[m := S (count live m)]> live | None => live end)
  | HBind m bind =>
      if decide (count live m = 0%nat) then Done s
      else '(_, hmap) ← handle_mgr.safebind hmap (Some m) bind; Done (hmap, live)
  | HDone m =>
      if decide (count live m = 0%nat) then Done s
      else hmap ← handle_mgr.done_handle hmap m; Done (hmap, <[m := pred (count live m)]> live)
  | HDelete m => Done (handle_mgr.delete_handle hmap m, live)
  end.

Fixpoint handle_run (s : handle_mgr.t * gmap bytes nat) (evs : list handle_event)
    : outcome (handle_mgr.t * gmap bytes nat) :=
  match evs with [] => Done s | e :: evs => s ← handle_step s e; handle_run s evs end.

Definition handles_ok (s : handle_mgr.t * gmap bytes nat) : Prop :=
  ∀ m, match s.1 !! m with
       | None => count s.2 m = 0%nat
       | Some h => handle_mgr.refcnt h = Z.of_nat (count s.2 m)
       end.

Lemma count_insert live m m' n :
  count (<[m := n]> live) m' = if decide (m = m') then n else count live m'.
Proof. unfold count. case_decide; subst; by rewrite ?lookup_insert_eq, ?lookup_insert_ne. Qed.

(** An entry that changes at one name. *)
Lemma handles_ok_insert hmap live m h n :
  handles_ok (hmap, live) → handle_mgr.refcnt h = Z.of_nat n →
  handles_ok (<[m := h]> hmap, <[m := n]> live).
Proof.
  intros Hok Hh m'. cbn [fst snd]. rewrite count_insert. case_decide; subst.
  - by rewrite lookup_insert_eq.
  - rewrite lookup_insert_ne by done. apply (Hok m').
Qed.

Lemma handles_ok_update hmap live m h :
  handles_ok (hmap, live) → handle_mgr.refcnt h = Z.of_nat (count live m) →
  handles_ok (<[m := h]> hmap, live).
Proof.
  intros Hok Hh m'. cbn [fst snd]. destruct (decide (m = m')) as [<-|Hne].
  - by rewrite lookup_insert_eq.
  - rewrite lookup_insert_ne by done. apply (Hok m').
Qed.

Lemma delete_handle_ok hmap live m :
  handles_ok (hmap, live) → handles_ok (handle_mgr.delete_handle_wo hmap m, live).
Proof.
  intros Hok. unfold handle_mgr.delete_handle_wo. pose proof (Hok m) as Hm. cbn [fst snd] in Hm.
  destruct (hmap !! m) as [h|] eqn:Hh; [|done].
  case_test; [|by apply handles_ok_update].
  intros m'. cbn [fst snd]. destruct (decide (m = m')) as [<-|Hne].
  - rewrite lookup_delete_eq. lia.
  - rewrite lookup_delete_ne by done. apply (Hok m').
Qed.

Lemma handle_step_ok s e : handles_ok s → ∃ s', handle_step s e = Done s' ∧ handles_ok s'.
Proof.
  destruct s as [hmap live]. intros Hok.
  destruct e as [m|m bind|m|m]; cbn [handle_step]; pose proof (Hok m) as Hm; cbn [fst snd] in Hm.
  - unfold handle_mgr.get_handle. destruct (hmap !! m) as [h|] eqn:Hh.
    + destruct (handle_mgr.del h); cbn [negb]; eexists; (split; [done|]); [done|].
      apply handles_ok_insert; [done|]. cbn. lia.
    + eexists; (split; [done|]). apply handles_ok_insert; [done|]. cbn. lia.
  - case_decide; [by eexists|]. unfold handle_mgr.safebind.
    destruct (hmap !! m) as [h|] eqn:Hh; [|done].
    destruct (handle_mgr.del h); [by eexists|]. destruct (handle_mgr.cl h); [by eexists|].
    destruct bind; eexists; (split; [done|]); by apply handles_ok_update.
  - case_decide; [by eexists|]. unfold handle_mgr.done_handle.
    destruct (hmap !! m) as [h|] eqn:Hh; [|done]. rewrite bind_Done. eexists; split; [done|].
    assert (handles_ok (<[m := handle_mgr.mkH (handle_mgr.cl h) (handle_mgr.refcnt h - 1)
      (handle_mgr.del h)]> hmap, <[m := pred (count live m)]> live)) as Hok'.
    { apply handles_ok_insert; [done|]. cbn. lia. }
    destruct (_ && _); [by apply delete_handle_ok|done].
  - eexists; split; [done|]. by apply delete_handle_ok.
Qed.

(** However handles are created, bound and destroyed, with every outcome of
    the connection attempts and of explicit deletions, no handle ever uses an
    entry that was freed, and every entry counts its handles exactly. *)
Theorem handles_never_dangle evs :
  ∃ hmap live, handle_run (∅, ∅) evs = Done (hmap, live) ∧
    ∀ m, (0 < count live m)%nat →
      ∃ h, hmap !! m = Some h ∧ handle_mgr.refcnt h = Z.of_nat (count live m).
Proof.
  assert (handles_ok (∅, ∅)) as Hok by (intros m; cbn; by rewrite lookup_empty).
  revert Hok. generalize ((∅, ∅) : handle_mgr.t * gmap bytes nat).
  induction evs as [|e evs IH]; intros s Hok.
  - destruct s as [hmap live]. exists hmap, live. split; [done|]. intros m Hm.
    specialize (Hok m). cbn [fst snd] in Hok. destruct (hmap !! m); [eauto|lia].
  - destruct (handle_step_ok s e Hok) as (s' & Hs & Hok'). cbn [handle_run]. rewrite Hs, bind_Done.
    by apply IH.
Qed.
