(* ===== verification/LockClient.v ===== *)
(** * The caching lock client (src/client/lock_client_cache.cc)

    One function per part of an operation that runs under [lock_m_]: from the
    entry (or the return of a call, or a wakeup) to the next call, wait or
    return.  A step relation runs them for any number of threads, with any
    answer to the calls and with wakeups at any time, as [pthread_cond_wait]
    allows. *)

From S2P Require Import Prelude LockServer.

Inductive lock_state : Type := NONE | FREE | LOCKED | ACQUIRING | RELEASING.

#[export] Instance lock_state_eq_dec : EqDecision lock_state.
Proof. solve_decision. Defined.

Record lock_cache : Type := mkLock { state : lock_state; is_revoked : bool }.

Definition lock_cache_init : lock_cache := mkLock NONE false.

(** What ends a part: the call it makes ([lu->dorelease] comes before a
    release call), the wait, the return, or a failed assertion. *)
Inductive action : Type :=
  | Call_acquire | Call_release | Cond_wait | Ret (ret : Z) | Assert_fails.

Module lock_client_cache.

Record t : Type := mk { lsm_ : gmap Z lock_cache; waiting_threads : Z }.

Definition make : t := mk ∅ 0.

Definition get (c : t) (lid : Z) : lock_cache := default lock_cache_init (lsm_ c !! lid).
Definition set (lid : Z) (l : lock_cache) (c : t) : t :=
  mk (<[lid := l]> (lsm_ c)) (waiting_threads c).
Definition set_state (lid : Z) (st : lock_state) (c : t) : t :=
  set lid (mkLock st (is_revoked (get c lid))) c.
Definition set_revoked (lid : Z) (b : bool) (c : t) : t :=
  set lid (mkLock (state (get c lid)) b) c.
Definition add_waiting (n : Z) (c : t) : t := mk (lsm_ c) (waiting_threads c + n).

(** [if (lsm_.find(lid) == lsm_.end()) lsm_[lid] = lock_cache();] *)
Definition entry (lid : Z) (c : t) : t := set lid (get c lid) c.

(** One turn of the loop of [acquire]. *)
Definition acquire_loop (c : t) (lid : Z) : t * action :=
  match state (get c lid) with
  | NONE | RELEASING => (set_state lid ACQUIRING c, Call_acquire)
  | FREE => (set_state lid LOCKED c, Ret lock_OK)
  | LOCKED | ACQUIRING => (add_waiting 1 c, Cond_wait)
  end.

Definition acquire (c : t) (lid : Z) : t * action := acquire_loop (entry lid c) lid.

Definition acquire_woken (c : t) (lid : Z) : t * action := acquire_loop (add_waiting (-1) c) lid.

Definition acquire_back (c : t) (lid ret r : Z) : t * action :=
  if negb (ret =? lock_OK) then (c, Ret ret)
  else if negb (bool_decide (state (get c lid) = ACQUIRING)) then acquire_loop c lid
  else if r =? lock_RETRY then (add_waiting 1 (set_state lid NONE c), Cond_wait)
  else if is_revoked (get c lid) then
    acquire_loop (set_state lid NONE (set_revoked lid false c)) lid
  else
    let c := set_state lid LOCKED c in
    (if r =? lock_RETIRE then set_revoked lid true c else c, Ret lock_OK).

(** The flag of the parts below says that a waiter is signalled. *)
Definition release (c : t) (lid : Z) : t * bool * action :=
  let c := entry lid c in
  match state (get c lid) with
  | NONE | FREE | RELEASING | ACQUIRING => (c, false, Assert_fails)
  | LOCKED =>
      if is_revoked (get c lid) then
        (set_state lid RELEASING (set_revoked lid false c), false, Call_release)
      else (set_state lid FREE c, true, Ret lock_OK)
  end.

Definition release_back (c : t) (lid ret : Z) : t * bool * action :=
  if negb (ret =? lock_OK) then (c, false, Ret ret)
  else if bool_decide (state (get c lid) = RELEASING) then
    let c := set_state lid NONE c in
    if negb (waiting_threads c =? 0) then (set_state lid ACQUIRING c, false, Call_acquire)
    else (c, false, Ret lock_OK)
  else (c, false, Ret lock_OK).

Definition release_acquire_back (c : t) (lid ret r : Z) : t * bool * action :=
  if negb (ret =? lock_OK) then (c, false, Ret ret)
  else if bool_decide (state (get c lid) = ACQUIRING) then
    if r =? lock_RETRY then (set_state lid NONE c, false, Ret lock_OK)
    else
      let c := set_state lid FREE c in
      (if r =? lock_RETIRE then set_revoked lid true c else c, true, Ret lock_OK)
  else (c, false, Ret lock_OK).

Definition revoke_handler (c : t) (lid : Z) : t * action :=
  let c := entry lid c in
  match state (get c lid) with
  | NONE | RELEASING => (c, Ret rlock_OK)
  | FREE => (set_state lid RELEASING c, Call_release)
  | LOCKED | ACQUIRING => (set_revoked lid true c, Ret rlock_OK)
  end.

Definition revoke_back (c : t) (lid ret : Z) : t * action :=
  if negb (ret =? rlock_OK) then (c, Ret ret)
  else if bool_decide (state (get c lid) = RELEASING) then (set_state lid NONE c, Ret ret)
  else (c, Ret ret).

(** One turn of the loop of [retry_handler]. *)
Definition retry_loop (c : t) (lid : Z) : t * bool * action :=
  match state (get c lid) with
  | NONE | ACQUIRING | RELEASING => (set_state lid ACQUIRING c, false, Call_acquire)
  | FREE | LOCKED => (c, false, Ret rlock_OK)
  end.

Definition retry_handler (c : t) (lid : Z) : t * bool * action :=
  match lsm_ c !! lid with
  | None => (c, false, Assert_fails)
  | Some _ => retry_loop c lid
  end.

Definition retry_back (c : t) (lid ret r : Z) : t * bool * action :=
  if negb (ret =? lock_OK) then (c, false, Ret ret)
  else if negb (bool_decide (state (get c lid) = ACQUIRING)) then retry_loop c lid
  else
    let c := if (r =? lock_RETIRE) || (r =? lock_RETRY) then set_revoked lid true c else c in
    (set_state lid FREE c, true, Ret rlock_OK).

End lock_client_cache.

(** ** Threads *)

(** Where a thread is: in a call, waiting, or between an [acquire] that
    returned OK and its [release].  A thread at none of these is idle. *)
Inductive point : Type :=
  | InAcquire (lid : Z) | Waiting (lid : Z) | Holding (lid : Z) | InRelease (lid : Z)
  | InReleaseAcquire (lid : Z) | InRevoke (lid : Z) | InRetry (lid : Z).

#[export] Instance point_eq_dec : EqDecision point.
Proof. solve_decision. Defined.

Record csys : Type := mkSys { client : lock_client_cache.t; threads : gmap nat point }.

Definition csys_init : csys := mkSys lock_client_cache.make ∅.

(** The point a thread reaches when a part of the operation ends. *)
Definition after_acquire (lid : Z) (a : action) : option point :=
  match a with
  | Call_acquire => Some (InAcquire lid)
  | Cond_wait => Some (Waiting lid)
  | Ret ret => if ret =? lock_OK then Some (Holding lid) else None
  | _ => None
  end.
Definition after_release (lid : Z) (a : action) : option point :=
  match a with
  | Call_release => Some (InRelease lid)
  | Call_acquire => Some (InReleaseAcquire lid)
  | _ => None
  end.
Definition after_revoke (lid : Z) (a : action) : option point :=
  match a with Call_release => Some (InRevoke lid) | _ => None end.
Definition after_retry (lid : Z) (a : action) : option point :=
  match a with Call_acquire => Some (InRetry lid) | _ => None end.

Inductive cevent : Type :=
  | EAcquire (t : nat) (lid : Z) | EWake (t : nat) | EBack (t : nat) (ret r : Z)
  | ERelease (t : nat) | ERevoke (t : nat) (lid : Z) | ERetry (t : nat) (lid : Z).

Definition moved (s : csys) (t : nat) (c : lock_client_cache.t) (p : option point) : csys :=
  mkSys c (partial_alter (λ _, p) t (threads s)).

(** The step of thread [t], with the action that ends it; [None]: not enabled. *)
Definition cstep (s : csys) (e : cevent) : option (csys * action) :=
  let c := client s in
  match e with
  | EAcquire t lid =>
      match threads s !! t with
      | None => let '(c, a) := lock_client_cache.acquire c lid in Some (moved s t c (after_acquire lid a), a)
      | Some _ => None
      end
  | EWake t =>
      match threads s !! t with
      | Some (Waiting lid) =>
          let '(c, a) := lock_client_cache.acquire_woken c lid in Some (moved s t c (after_acquire lid a), a)
      | _ => None
      end
  | EBack t ret r =>
      match threads s !! t with
      | Some (InAcquire lid) =>
          let '(c, a) := lock_client_cache.acquire_back c lid ret r in
          Some (moved s t c (after_acquire lid a), a)
      | Some (InRelease lid) =>
          let '(c, _, a) := lock_client_cache.release_back c lid ret in
          Some (moved s t c (after_release lid a), a)
      | Some (InReleaseAcquire lid) =>
          let '(c, _, a) := lock_client_cache.release_acquire_back c lid ret r in
          Some (moved s t c (after_release lid a), a)
      | Some (InRevoke lid) =>
          let '(c, a) := lock_client_cache.revoke_back c lid ret in
          Some (moved s t c (after_revoke lid a), a)
      | Some (InRetry lid) =>
          let '(c, _, a) := lock_client_cache.retry_back c lid ret r in
          Some (moved s t c (after_retry lid a), a)
      | _ => None
      end
  | ERelease t =>
      match threads s !! t with
      | Some (Holding lid) =>
          let '(c, _, a) := lock_client_cache.release c lid in Some (moved s t c (after_release lid a), a)
      | _ => None
      end
  | ERevoke t lid =>
      match threads s !! t with
      | None => let '(c, a) := lock_client_cache.revoke_handler c lid in Some (moved s t c (after_revoke lid a), a)
      | Some _ => None
      end
  | ERetry t lid =>
      match threads s !! t with
      | None => let '(c, _, a) := lock_client_cache.retry_handler c lid in Some (moved s t c (after_retry lid a), a)
      | Some _ => None
      end
  end.

Inductive creach : csys → Prop :=
  | creach_init : creach csys_init
  | creach_step s e s' a : creach s → cstep s e = Some (s', a) → creach s'.

(** ** What a step does to locks and waiters *)

Definition holds (p : option point) : option Z :=
  match p with Some (Holding lid) => Some lid | _ => None end.
Definition waits (p : option point) : Z :=
  match p with Some (Waiting _) => 1 | _ => 0 end.

Definition locked (c : lock_client_cache.t) (lid : Z) : Prop :=
  state (lock_client_cache.get c lid) = LOCKED.

(** A part of an operation on [lid] that takes a thread from [p] to [p']. *)
Record part (c c' : lock_client_cache.t) (lid : Z) (p p' : option point) : Prop := {
  part_frame : ∀ lid', lid' ≠ lid → lock_client_cache.get c' lid' = lock_client_cache.get c lid';
  part_waits : lock_client_cache.waiting_threads c' =
    lock_client_cache.waiting_threads c + waits p' - waits p;
  part_holds :
    (holds p = None ∧ holds p' = None ∧ (locked c' lid ↔ locked c lid)) ∨
    (holds p = None ∧ holds p' = Some lid ∧ ¬ locked c lid ∧ locked c' lid) ∨
    (holds p = Some lid ∧ holds p' = None ∧ ¬ locked c' lid);
}.

Lemma get_set c lid l : lock_client_cache.get (lock_client_cache.set lid l c) lid = l.
Proof. unfold lock_client_cache.get, lock_client_cache.set. cbn. by rewrite lookup_insert_eq. Qed.
Lemma get_set_ne c lid lid' l :
  lid' ≠ lid → lock_client_cache.get (lock_client_cache.set lid l c) lid' = lock_client_cache.get c lid'.
Proof. intros Hne. unfold lock_client_cache.get, lock_client_cache.set. cbn. by rewrite lookup_insert_ne. Qed.
Lemma get_add_waiting c n lid :
  lock_client_cache.get (lock_client_cache.add_waiting n c) lid = lock_client_cache.get c lid.
Proof. done. Qed.
Lemma waiting_set c lid l :
  lock_client_cache.waiting_threads (lock_client_cache.set lid l c) = lock_client_cache.waiting_threads c.
Proof. done. Qed.
Lemma waiting_add c n :
  lock_client_cache.waiting_threads (lock_client_cache.add_waiting n c) =
  lock_client_cache.waiting_threads c + n.
Proof. done. Qed.

Create Rewrite HintDb client.
#[export] Hint Rewrite get_set get_add_waiting waiting_set waiting_add : client.

(** Prove a [part] by computing it. *)
Ltac part_cbn :=
  cbv zeta; cbn [fst snd];
  unfold lock_client_cache.set_state, lock_client_cache.set_revoked, lock_client_cache.entry;
  autorewrite with client; cbn [state is_revoked fst snd after_acquire after_release after_revoke after_retry];
  rewrite ?Z.eqb_refl; autorewrite with client; cbn [waits holds state is_revoked].
Ltac part_tac :=
  unfold locked in *; part_cbn; split;
  [ intros lid' Hne; repeat first [rewrite get_set_ne by done | rewrite get_add_waiting]; done
  | part_cbn; lia
  | unfold locked; part_cbn; intuition (congruence || done) ].

Lemma acquire_loop_part c lid p :
  holds p = None → waits p = 0 →
  let r := lock_client_cache.acquire_loop c lid in part c r.1 lid p (after_acquire lid r.2).
Proof.
  intros Hh Hw. unfold lock_client_cache.acquire_loop.
  destruct (state (lock_client_cache.get c lid)) eqn:Hs; cbn [fst snd]; part_tac.
Qed.

Lemma acquire_back_part c lid ret r :
  let a := lock_client_cache.acquire_back c lid ret r in
  part c a.1 lid (Some (InAcquire lid)) (after_acquire lid a.2).
Proof.
  unfold lock_client_cache.acquire_back. destruct (Z.eqb_spec ret lock_OK) as [->|Hret]; cbn [negb].
  - destruct (bool_decide_reflect (state (lock_client_cache.get c lid) = ACQUIRING)) as [Hst|Hst];
      cbn [negb]; [|by apply acquire_loop_part].
    destruct (Z.eqb_spec r lock_RETRY); [part_tac|]. destruct (is_revoked _) eqn:Hr.
    + unfold lock_client_cache.acquire_loop. part_tac.
    + destruct (Z.eqb_spec r lock_RETIRE); part_tac.
  - split; [done| |]; part_cbn.
    + destruct (Z.eqb_spec ret lock_OK); [done|]. cbn. lia.
    + destruct (Z.eqb_spec ret lock_OK); [done|]. cbn. intuition.
Qed.

Lemma acquire_part c lid :
  let a := lock_client_cache.acquire c lid in part c a.1 lid None (after_acquire lid a.2).
Proof.
  unfold lock_client_cache.acquire, lock_client_cache.acquire_loop, lock_client_cache.entry.
  autorewrite with client. destruct (state (lock_client_cache.get c lid)) eqn:Hs; part_tac.
Qed.

Lemma acquire_woken_part c lid :
  let a := lock_client_cache.acquire_woken c lid in
  part c a.1 lid (Some (Waiting lid)) (after_acquire lid a.2).
Proof.
  unfold lock_client_cache.acquire_woken, lock_client_cache.acquire_loop.
  autorewrite with client. destruct (state (lock_client_cache.get c lid)) eqn:Hs; part_tac.
Qed.

Lemma release_part c lid :
  let a := lock_client_cache.release c lid in
  part c a.1.1 lid (Some (Holding lid)) (after_release lid a.2).
Proof.
  unfold lock_client_cache.release, lock_client_cache.entry. autorewrite with client.
  destruct (state (lock_client_cache.get c lid)) eqn:Hs; try part_tac.
  destruct (is_revoked (lock_client_cache.get c lid)); part_tac.
Qed.

Lemma release_back_part c lid ret :
  let a := lock_client_cache.release_back c lid ret in
  part c a.1.1 lid (Some (InRelease lid)) (after_release lid a.2).
Proof.
  unfold lock_client_cache.release_back. destruct (Z.eqb_spec ret lock_OK); cbn [negb]; [|part_tac].
  destruct (bool_decide_reflect (state (lock_client_cache.get c lid) = RELEASING)); [|part_tac].
  destruct (negb _); part_tac.
Qed.

Lemma release_acquire_back_part c lid ret r :
  let a := lock_client_cache.release_acquire_back c lid ret r in
  part c a.1.1 lid (Some (InReleaseAcquire lid)) (after_release lid a.2).
Proof.
  unfold lock_client_cache.release_acquire_back.
  destruct (Z.eqb_spec ret lock_OK); cbn [negb]; [|part_tac].
  destruct (bool_decide_reflect (state (lock_client_cache.get c lid) = ACQUIRING)); [|part_tac].
  destruct (Z.eqb_spec r lock_RETRY); [part_tac|]. destruct (Z.eqb_spec r lock_RETIRE); part_tac.
Qed.

Lemma revoke_handler_part c lid :
  let a := lock_client_cache.revoke_handler c lid in part c a.1 lid None (after_revoke lid a.2).
Proof.
  unfold lock_client_cache.revoke_handler, lock_client_cache.entry. autorewrite with client.
  destruct (state (lock_client_cache.get c lid)) eqn:Hs; part_tac.
Qed.

Lemma revoke_back_part c lid ret :
  let a := lock_client_cache.revoke_back c lid ret in
  part c a.1 lid (Some (InRevoke lid)) (after_revoke lid a.2).
Proof.
  unfold lock_client_cache.revoke_back. destruct (Z.eqb_spec ret rlock_OK); cbn [negb]; [|part_tac].
  destruct (bool_decide_reflect (state (lock_client_cache.get c lid) = RELEASING)); part_tac.
Qed.

Lemma retry_loop_part c lid p :
  holds p = None → waits p = 0 →
  let a := lock_client_cache.retry_loop c lid in part c a.1.1 lid p (after_retry lid a.2).
Proof.
  intros Hh Hw. unfold lock_client_cache.retry_loop.
  destruct (state (lock_client_cache.get c lid)) eqn:Hs; part_tac.
Qed.

Lemma retry_handler_part c lid :
  let a := lock_client_cache.retry_handler c lid in part c a.1.1 lid None (after_retry lid a.2).
Proof.
  unfold lock_client_cache.retry_handler.
  destruct (lock_client_cache.lsm_ c !! lid); [by apply retry_loop_part|part_tac].
Qed.

Lemma retry_back_part c lid ret r :
  let a := lock_client_cache.retry_back c lid ret r in
  part c a.1.1 lid (Some (InRetry lid)) (after_retry lid a.2).
Proof.
  unfold lock_client_cache.retry_back. destruct (Z.eqb_spec ret lock_OK); cbn [negb]; [|part_tac].
  destruct (bool_decide_reflect (state (lock_client_cache.get c lid) = ACQUIRING)); cbn [negb];
    [|by apply retry_loop_part].
  destruct (_ || _); part_tac.
Qed.

(** Every step is a part of an operation of one thread on one lock. *)
Lemma cstep_part s e s' a :
  cstep s e = Some (s', a) →
  ∃ t lid p', threads s' = partial_alter (λ _, p') t (threads s) ∧
    part (client s) (client s') lid (threads s !! t) p'.
Proof.
  intros He. destruct e as [t lid|t|t ret r|t|t lid|t lid]; cbn [cstep] in He; exists t;
    destruct (threads s !! t) as [[lid'|lid'|lid'|lid'|lid'|lid'|lid']|] eqn:Ht; try done;
    repeat case_match; simplify_eq; eexists _, _; (split; [reflexivity|]); cbn [client moved].
  - pose proof (acquire_part (client s) lid) as Hp. by rewrite H in Hp.
  - pose proof (acquire_woken_part (client s) lid') as Hp. by rewrite H in Hp.
  - pose proof (acquire_back_part (client s) lid' ret r) as Hp. by rewrite H in Hp.
  - pose proof (release_back_part (client s) lid' ret) as Hp. by rewrite H in Hp.
  - pose proof (release_acquire_back_part (client s) lid' ret r) as Hp. by rewrite H in Hp.
  - pose proof (revoke_back_part (client s) lid' ret) as Hp. by rewrite H in Hp.
  - pose proof (retry_back_part (client s) lid' ret r) as Hp. by rewrite H in Hp.
  - pose proof (release_part (client s) lid') as Hp. by rewrite H in Hp.
  - pose proof (revoke_handler_part (client s) lid) as Hp. by rewrite H in Hp.
  - pose proof (retry_handler_part (client s) lid) as Hp. by rewrite H in Hp.
Qed.

(** ** The invariant *)

Definition total_waits (m : gmap nat point) : Z := msum (λ p, waits (Some p)) m.

Record csys_ok (s : csys) : Prop := {
  ok_locked : ∀ t lid, threads s !! t = Some (Holding lid) → locked (client s) lid;
  ok_unique : ∀ t t' lid,
    threads s !! t = Some (Holding lid) → threads s !! t' = Some (Holding lid) → t = t';
  ok_holder : ∀ lid, locked (client s) lid → ∃ t, threads s !! t = Some (Holding lid);
  ok_waits : lock_client_cache.waiting_threads (client s) = total_waits (threads s);
}.

Lemma holds_Some p lid : holds p = Some lid ↔ p = Some (Holding lid).
Proof. destruct p as [[]|]; cbn; naive_solver. Qed.

(** The holders after a part: as before, but for the thread that moved. *)
Lemma holding_alter (m : gmap nat point) t p' t1 lid1 :
  partial_alter (λ _, p') t m !! t1 = Some (Holding lid1) ↔
  (t1 = t ∧ holds p' = Some lid1) ∨ (t1 ≠ t ∧ m !! t1 = Some (Holding lid1)).
Proof.
  rewrite holds_Some. destruct (decide (t = t1)) as [<-|Hne].
  - rewrite lookup_partial_alter_eq. naive_solver.
  - rewrite lookup_partial_alter_ne by done. naive_solver.
Qed.

Section part_ok.
Context (s : csys) (c' : lock_client_cache.t) (t : nat) (lid : Z) (p' : option point).
Hypotheses (Hok : csys_ok s) (Hp : part (client s) c' lid (threads s !! t) p').

Lemma part_locked_ne lid' : lid' ≠ lid → locked c' lid' ↔ locked (client s) lid'.
Proof. intros Hne. unfold locked. by rewrite (part_frame _ _ _ _ _ Hp lid' Hne). Qed.

Lemma part_waits_ok :
  lock_client_cache.waiting_threads c' = total_waits (partial_alter (λ _, p') t (threads s)).
Proof.
  unfold total_waits. rewrite msum_alter, (part_waits _ _ _ _ _ Hp), (ok_waits s Hok).
  unfold total_waits. destruct (threads s !! t), p'; cbn; lia.
Qed.

Lemma moved_ok : csys_ok (moved s t c' p').
Proof.
  pose proof (part_holds _ _ _ _ _ Hp) as Hh.
  split; cbn [client threads moved]; [| | |exact part_waits_ok].
  - intros t1 lid1. rewrite holding_alter. intros [[-> H1]|[Hne H1]].
    + destruct Hh as [(_&?&_)|[(_&?&_&?)|(_&?&_)]]; congruence.
    + pose proof (ok_locked s Hok t1 lid1 H1) as Hl.
      destruct (decide (lid1 = lid)) as [->|Hne1]; [|by apply part_locked_ne].
      destruct Hh as [(_&_&?)|[(_&_&?&_)|(Ht&_&_)]]; [naive_solver|done|].
      apply holds_Some in Ht. by destruct Hne; apply (ok_unique s Hok t1 t lid).
  - intros t1 t2 lid1. rewrite !holding_alter.
    intros [[-> H1]|[Hne1 H1]] [[-> H2]|[Hne2 H2]]; [done|exfalso..|by eapply ok_unique].
    all: assert (∀ t3, threads s !! t3 = Some (Holding lid1) → holds p' = Some lid1 → False) as Hx;
      [|eauto].
    all: intros t3 H3 H4; pose proof (ok_locked s Hok t3 lid1 H3) as Hl;
      destruct Hh as [(_&?&_)|[(_&Hg&Hn&_)|(_&?&_)]]; congruence.
  - intros lid1 Hl. destruct (decide (lid1 = lid)) as [->|Hne1].
    + destruct Hh as [(Hh1&Hh2&Hiff)|[(_&Hg&_&_)|(_&_&?)]]; [|exists t; rewrite holding_alter; auto|done].
      apply Hiff, (ok_holder s Hok) in Hl as [t1 Ht1]. exists t1. rewrite holding_alter. right.
      split; [|done]. intros ->. by rewrite Ht1 in Hh1.
    + apply part_locked_ne, (ok_holder s Hok) in Hl as [t1 Ht1]; [|done].
      exists t1. rewrite holding_alter. right. split; [|done]. intros ->. rewrite Ht1 in Hh; cbn in Hh.
      naive_solver.
Qed.
End part_ok.

Lemma creach_ok s : creach s → csys_ok s.
Proof.
  induction 1 as [|s e s' a _ IH Hs].
  - split; cbn; [intros ??; by rewrite lookup_empty|intros ???; by rewrite lookup_empty| |done].
    unfold locked, lock_client_cache.get. cbn. intros lid. by rewrite lookup_empty.
  - apply cstep_part in Hs as (t & lid & p' & Ht & Hp).
    pose proof (moved_ok s (client s') t lid p' IH Hp) as Hok. destruct s' as [c' th]. cbn in *.
    by rewrite Ht.
Qed.

(** C12: Whatever the server answers, whenever it revokes or retries, and however
    the threads of a client interleave and wake up: two threads of the client
    never hold the same lock, a lock is in state LOCKED exactly while a thread
    holds it, a thread that releases a lock it holds never meets the failing
    assertions of [release], and [waiting_threads] counts the waiting threads. *)
Theorem lock_client_excludes s :
  creach s →
  (∀ t t' lid, threads s !! t = Some (Holding lid) → threads s !! t' = Some (Holding lid) → t = t') ∧
  (∀ lid, locked (client s) lid ↔ ∃ t, threads s !! t = Some (Holding lid)) ∧
  (∀ t lid, threads s !! t = Some (Holding lid) →
     ∃ s' a, cstep s (ERelease t) = Some (s', a) ∧ a ≠ Assert_fails) ∧
  lock_client_cache.waiting_threads (client s) = total_waits (threads s).
Proof.
  intros Hr. pose proof (creach_ok s Hr) as Hok. split; [apply (ok_unique s Hok)|].
  split; [|split; [|apply (ok_waits s Hok)]].
  - intros lid. split; [apply (ok_holder s Hok)|]. intros [t Ht]. by eapply (ok_locked s Hok).
  - intros t lid Ht. pose proof (ok_locked s Hok t lid Ht) as Hl. cbn [cstep]. rewrite Ht.
    unfold lock_client_cache.release, lock_client_cache.entry, locked in *. autorewrite with client.
    rewrite Hl. by destruct (is_revoked _); eexists _, _.
Qed.

Fixpoint crun (s : csys) (evs : list cevent) : option csys :=
  match evs with
  | [] => Some s
  | e :: evs => match cstep s e with Some (s', _) => crun s' evs | None => None end
  end.

Lemma creach_run evs : ∀ s s', creach s → crun s evs = Some s' → creach s'.
Proof.
  induction evs as [|e evs IH]; intros s s' Hs; cbn [crun]; [by intros [= <-]|].
  destruct (cstep s e) as [[s1 a]|] eqn:He; [|done]. apply IH. by eapply creach_step.
Qed.

Lemma lock_client_excludes_witness :
  let s := mkSys (lock_client_cache.mk {[7 := mkLock LOCKED true]} 1)
             {[1%nat := Holding 7; 2%nat := Waiting 7]} in
  (∀ t t' lid, threads s !! t = Some (Holding lid) → threads s !! t' = Some (Holding lid) → t = t') ∧
  (∀ lid, locked (client s) lid ↔ ∃ t, threads s !! t = Some (Holding lid)) ∧
  (∀ t lid, threads s !! t = Some (Holding lid) →
     ∃ s' a, cstep s (ERelease t) = Some (s', a) ∧ a ≠ Assert_fails) ∧
  lock_client_cache.waiting_threads (client s) = total_waits (threads s).
Proof.
  intros s. apply (lock_client_excludes s).
  apply (creach_run [EAcquire 1 7; EBack 1 0 0; EAcquire 2 7; ERevoke 3 7] csys_init s creach_init).
  vm_compute. reflexivity.
Defined.
