(* ===== verification/LockSystem.v ===== *)
(** * Lock server and clients together

    The clients of LockClient.v connected to the server of LockServer.v: a call
    is first sent, then served, and its reply is delivered once the call the
    server itself made to another client has returned. *)

From S2P Require Import Prelude LockServer LockClient.

Inductive call_state : Type :=
  | Sent_acquire (lid : Z)
  | Sent_release (lid : Z)
  | Nested (h : bytes) (n : nat) (r : Z)
  | Replied (r : Z).

Record sys : Type := mkLockSys {
  server : gmap Z lock_serv_state;
  clients : gmap bytes csys;
  calls : gmap (bytes * nat) call_state }.

Definition sys_init (ids : list bytes) : sys :=
  mkLockSys ∅ (list_to_map ((λ c, (c, csys_init)) <$> ids)) ∅.

(** A step of a client; the call it makes is recorded. *)
Definition client_step (s : sys) (c : bytes) (t : nat) (lid : Z) (e : cevent) : option sys :=
  cl ← clients s !! c;
  '(cl', a) ← cstep cl e;
  let calls' :=
    match a with
    | Call_acquire => <[(c, t) := Sent_acquire lid]> (calls s)
    | Call_release => <[(c, t) := Sent_release lid]> (calls s)
    | _ => delete (c, t) (calls s)
    end in
  Some (mkLockSys (server s) (<[c := cl']> (clients s)) calls').

Definition point_lid (p : point) : Z :=
  match p with
  | InAcquire l | Waiting l | Holding l | InRelease l | InReleaseAcquire l | InRevoke l | InRetry l => l
  end.

Definition thread_lid (s : sys) (c : bytes) (t : nat) : option Z :=
  cl ← clients s !! c; p ← threads cl !! t; Some (point_lid p).

Inductive sevent : Type :=
  | SAcquire (c : bytes) (t : nat) (lid : Z)
  | SRelease (c : bytes) (t : nat)
  | SWake (c : bytes) (t : nat)
  | SServe (c : bytes) (t : nat) (n : nat)
  | SReply (c : bytes) (t : nat).

Definition set_call (c : bytes) (t : nat) (k : call_state) (s : sys) : sys :=
  mkLockSys (server s) (clients s) (<[(c, t) := k]> (calls s)).
Definition set_server (lsm : gmap Z lock_serv_state) (s : sys) : sys :=
  mkLockSys lsm (clients s) (calls s).

(** [n] is the thread that runs the handler of the server's own call. *)
Definition sstep (s : sys) (e : sevent) : option sys :=
  match e with
  | SAcquire c t lid => client_step s c t lid (EAcquire t lid)
  | SRelease c t => lid ← thread_lid s c t; client_step s c t lid (ERelease t)
  | SWake c t => lid ← thread_lid s c t; client_step s c t lid (EWake t)
  | SServe c t n =>
      k ← calls s !! (c, t);
      match k with
      | Sent_acquire lid =>
          let '(r, revoke, lsm) := lock_server_cache.acquire_section (server s) lid c in
          match revoke with
          | None => Some (set_call c t (Replied r) (set_server lsm s))
          | Some h => client_step (set_call c t (Nested h n r) (set_server lsm s)) h n lid (ERevoke n lid)
          end
      | Sent_release lid =>
          let '(next, lsm) := lock_server_cache.release_section (server s) lid c in
          match next with
          | None => Some (set_call c t (Replied lock_OK) (set_server lsm s))
          | Some h => client_step (set_call c t (Nested h n lock_OK) (set_server lsm s)) h n lid (ERetry n lid)
          end
      | _ => None
      end
  | SReply c t =>
      k ← calls s !! (c, t);
      lid ← thread_lid s c t;
      match k with
      | Replied r => client_step s c t lid (EBack t lock_OK r)
      | Nested h n r =>
          cl ← clients s !! h;
          if decide (threads cl !! n = None) then client_step s c t lid (EBack t lock_OK r) else None
      | _ => None
      end
  end.

Fixpoint srun (s : sys) (evs : list sevent) : option sys :=
  match evs with [] => Some s | e :: evs => s ← sstep s e; srun s evs end.

Definition client_holds (s : sys) (c : bytes) (lid : Z) : bool :=
  match clients s !! c with
  | Some cl => existsb (λ kp : nat * point, bool_decide (kp.2 = Holding lid)) (map_to_list (threads cl))
  | None => false
  end.

(** ** The lock is not exclusive across clients

    A retry handler whose acquire call is overtaken: by the time the call
    reaches the server the client has given the lock up again.  The handler
    calls once more, is told RETRY, and treats that answer as a grant. *)

Definition client_a : bytes := bs "127.0.0.1:1000".
Definition client_b : bytes := bs "127.0.0.1:2000".

Definition overtaken_retry : list sevent :=
  [ (* A gets the lock, B queues for it *)
    SAcquire client_a 0 1; SServe client_a 0 0; SReply client_a 0;
    SAcquire client_b 0 1; SServe client_b 0 10;
    (* A releases: the server calls B's retry handler, whose call is slow *)
    SRelease client_a 0; SServe client_a 0 11;
    (* B's first thread gets its RETRY and waits; another gets and releases the lock *)
    SReply client_b 0;
    SAcquire client_b 1 1; SServe client_b 1 0; SReply client_b 1; SRelease client_b 1;
    (* A takes the lock back *)
    SAcquire client_a 1 1; SServe client_a 1 12; SServe client_b 12 13; SServe client_a 13 0;
    SReply client_a 13; SReply client_b 12; SReply client_a 1;
    (* now the slow call is served, repeated, and its RETRY taken for a grant *)
    SServe client_b 11 14; SReply client_b 11; SServe client_b 11 15; SReply client_b 11;
    SWake client_b 0 ]%nat.

(** Lock server and lock clients together do not exclude: there is a run,
    in which every call is answered by the server and no message is lost, after
    which threads of two different clients hold the same lock, while the server
    knows only one of them as the holder. *)
Theorem lock_not_exclusive_across_clients :
  (λ s, (client_holds s client_a 1, client_holds s client_b 1,
         holder (lock_server_cache.get (server s) 1))) <$>
    srun (sys_init [client_a; client_b]) overtaken_retry = Some (true, true, client_a).
Proof. vm_compute. reflexivity. Qed.
