(* ===== verification/ExtentServer.v ===== *)
(** * The extent server (src/fs/extent_server.cc, info_collector.cc)

    The storage node: a map from extent ids to contents with time stamps, and
    the collector of the changes it reports to the master.  Every handler but
    [move] holds [server_mu_] throughout and is one function of the state; [move]
    gives it up while it sends, and is a sequence of sections (Sections.v), which
    RpcSections.v runs among those of the other handlers.  The clock is an
    argument.  The wire form of the attributes is in Marshall.v. *)

From S2P Require Import Prelude StdContainers Sections.

Definition ext_OK : Z := 0.
Definition ext_RPCERR : Z := 1.
Definition ext_NOENT : Z := 2.
Definition ext_IOERR : Z := 3.

(** [extent_protocol::attr]: four 32-bit numbers. *)
Record attr : Type := mkAttr { atime : Z; mtime : Z; ctime : Z; size : Z }.

(** ** The collector *)

Module InfoCollector.

Record ServerInfo : Type := mkInfo { inum : list Z; sz : list Z; type : list Z }.

Definition clear (i : ServerInfo) : ServerInfo := mkInfo [] [] [].

Definition AddDirtyData (i : ServerInfo) (id n ty : Z) : ServerInfo :=
  mkInfo (inum i ++ [id]) (sz i ++ [n]) (type i ++ [ty]).

(** [m.insert] in a [std::map]: the first entry of a number stays. *)
Definition collect (i : ServerInfo) : list (Z * (Z * Z)) :=
  foldl (λ m e, om_insert e.1 e.2 m) [] (zip (inum i) (zip (sz i) (type i))).

Definition Get (i : ServerInfo) : ServerInfo :=
  let m := collect i in mkInfo m.*1 m.*2.*1 m.*2.*2.

End InfoCollector.

(** ** The server *)

(** An extent in the heap, at the address [x_at]. *)
Record extent : Type := mkExtent { x_atime : Z; x_mtime : Z; x_ctime : Z; content : bytes; x_at : Z }.

Module extent_server.

(** The map holds pointers; an extent lives as long as the map points to it.
    [brk] is the address of the next new one. *)
Record t : Type := mk { extent_map_ : gmap Z extent; info : InfoCollector.ServerInfo; brk : Z }.

Definition set_extent (id : Z) (x : extent) (s : t) : t := mk (<[id := x]> (extent_map_ s)) (info s) (brk s).
Definition dirty (id n ty : Z) (s : t) : t :=
  mk (extent_map_ s) (InfoCollector.AddDirtyData (info s) id n ty) (brk s).
Definition alloc (s : t) : t := mk (extent_map_ s) (info s) (brk s + 1).

Definition put (s : t) (now id : Z) (buf : bytes) : Z * t :=
  match extent_map_ s !! id with
  | Some x => (ext_OK, set_extent id (mkExtent (x_atime x) now now buf (x_at x)) (dirty id (zlen buf) 2 s))
  | None => (ext_OK, dirty id (zlen buf) 1 (set_extent id (mkExtent now now now buf (brk s)) (alloc s)))
  end.

Definition make (now : Z) : t := (put (mk ∅ (InfoCollector.mkInfo [] [] []) 0) now 1 []).2.

Definition get (s : t) (now id : Z) (buf : bytes) : Z * bytes * t :=
  match extent_map_ s !! id with
  | Some x => (ext_OK, content x, set_extent id (mkExtent now (x_mtime x) (x_ctime x) (content x) (x_at x)) s)
  | None => (ext_NOENT, buf, s)
  end.

Definition getattr (s : t) (id : Z) (a : attr) : Z * attr :=
  match extent_map_ s !! id with
  | Some x => (ext_OK, mkAttr (x_atime x) (x_mtime x) (x_ctime x) (wrap32 (zlen (content x))))
  | None => (ext_NOENT, a)
  end.

(** [content += string(n - old, 0)] or [content.resize(n)]. *)
Definition resize (c : bytes) (n : Z) : bytes :=
  if zlen c <? n then c ++ replicate (Z.to_nat (n - zlen c)) Byte.x00 else take (Z.to_nat n) c.

Definition setattr (s : t) (now id : Z) (a : attr) : Z * t :=
  match extent_map_ s !! id with
  | Some x =>
      if zlen (content x) =? size a then (ext_OK, s)
      else
        (ext_OK, dirty id (size a) 2
                   (set_extent id (mkExtent (x_atime x) now now (resize (content x) (size a)) (x_at x)) s))
  | None => (ext_NOENT, s)
  end.

Definition remove (s : t) (id : Z) : Z * t :=
  match extent_map_ s !! id with
  | Some _ => (ext_OK, dirty id 0 0 (mk (delete id (extent_map_ s)) (info s) (brk s)))
  | None => (ext_OK, s)
  end.

(** The data that the handlers touch, and the mutex. *)
Inductive place : Type := TheMap | Atime (id : Z) | Written (id : Z).
Inductive mutex : Type := server_mu_.

#[global] Instance place_eq_dec : EqDecision place.
Proof. solve_decision. Defined.
#[global] Instance mutex_eq_dec : EqDecision mutex.
Proof. solve_decision. Defined.

Definition whole (id : Z) : list (place * access) := [(Atime id, Writes); (Written id, Writes)].
Definition put_touches (id : Z) : list (place * access) := (TheMap, Writes) :: whole id.
Definition get_touches (id : Z) : list (place * access) := [(TheMap, Reads); (Atime id, Writes); (Written id, Reads)].
Definition getattr_touches (id : Z) : list (place * access) := [(TheMap, Reads); (Atime id, Reads); (Written id, Reads)].
Definition setattr_touches (id : Z) : list (place * access) := [(TheMap, Reads); (Written id, Writes)].
Definition remove_touches (id : Z) : list (place * access) := (TheMap, Writes) :: whole id.

(** [move], first section: [extents] are the pointers to what it finds. *)
Definition move_take (s : t) (ids : list Z) : list (Z * Z) :=
  foldl (λ m id, match extent_map_ s !! id with Some x => om_insert id (x_at x) m | None => m end) [] ids.

(** What is sent for a pointer, without the mutex: it must still be one to an
    extent. *)
Definition move_send (s : t) (extent : Z * Z) : outcome bytes :=
  match extent_map_ s !! extent.1 with
  | Some x => if x_at x =? extent.2 then Done (content x) else Undef
  | None => Undef
  end.

(** The last section: what the map has at the ids is deleted. *)
Definition move_finish (s : t) (deleted_ok : list Z) : t :=
  mk (foldr delete (extent_map_ s) deleted_ok) (info s) (brk s).

Section move.
(** [puts]: the status of the put call of an id and a content at the target. *)
Context (puts : Z → bytes → Z).

Fixpoint send_all (extents : list (Z * Z)) (deleted_ok : list Z) : code t mutex place Z :=
  match extents with
  | [] => Sec (Some server_mu_) ((TheMap, Writes) :: (deleted_ok ≫= whole)) (λ s, Done (tt, move_finish s deleted_ok))
            (λ _, Ret (Done ext_OK))
  | e :: extents => Sec None [(Written e.1, Reads)] (λ s, buf ← move_send s e; Done (buf, s))
      (λ buf, send_all extents (if puts e.1 buf =? ext_OK then deleted_ok ++ [e.1] else deleted_ok))
  end.

(** [dst_ok]: the destination has a colon; [bound]: the connection was made. *)
Definition move_sections (ids : list Z) (dst_ok bound : bool) : code t mutex place Z :=
  Sec (Some server_mu_) [(TheMap, Reads)] (λ s, Done (move_take s ids, s))
    (λ extents,
       if negb dst_ok then Ret (Done ext_IOERR)
       else if negb bound then Ret (Done ext_RPCERR)
       else send_all extents []).

(** With no other handler running. *)
Definition move (s : t) (ids : list Z) (dst_ok bound : bool) : outcome (Z * t) := alone (move_sections ids dst_ok bound) s.

End move.
End extent_server.

(** ** Specification: a store of contents *)

Inductive xop : Type :=
  | XPut (id : Z) (buf : bytes) | XGet (id : Z) | XGetattr (id : Z)
  | XSetattr (id n : Z) | XRemove (id : Z).

(** A reply: the status with what a successful call returns. *)
Inductive xreply : Type := RStatus (st : Z) | RBuf (buf : bytes) | RSize (n : Z).

Definition store := gmap Z bytes.

Definition store_step (m : gmap Z bytes) (o : xop) : xreply * gmap Z bytes :=
  match o with
  | XPut id buf => (RStatus ext_OK, <[id := buf]> m)
  | XGet id => (match m !! id with Some c => RBuf c | None => RStatus ext_NOENT end, m)
  | XGetattr id => (match m !! id with Some c => RSize (zlen c) | None => RStatus ext_NOENT end, m)
  | XSetattr id n =>
      match m !! id with
      | Some c => (RStatus ext_OK, <[id := extent_server.resize c n]> m)
      | None => (RStatus ext_NOENT, m)
      end
  | XRemove id => (RStatus ext_OK, delete id m)
  end.

(** Contents and sizes that fit the 32-bit size attribute. *)
Definition xop_ok (o : xop) : Prop :=
  match o with XPut _ buf => zlen buf < 2 ^ 32 | XSetattr _ n => 0 ≤ n < 2 ^ 32 | _ => True end.

Definition contents (s : extent_server.t) : gmap Z bytes := content <$> extent_server.extent_map_ s.

Definition server_step (s : extent_server.t) (now : Z) (o : xop) : xreply * extent_server.t :=
  match o with
  | XPut id buf => let '(st, s) := extent_server.put s now id buf in (RStatus st, s)
  | XGet id =>
      let '(st, buf, s) := extent_server.get s now id [] in
      (if st =? ext_OK then RBuf buf else RStatus st, s)
  | XGetattr id =>
      let '(st, a) := extent_server.getattr s id (mkAttr 0 0 0 0) in
      (if st =? ext_OK then RSize (size a) else RStatus st, s)
  | XSetattr id n => let '(st, s) := extent_server.setattr s now id (mkAttr 0 0 0 n) in (RStatus st, s)
  | XRemove id => let '(st, s) := extent_server.remove s id in (RStatus st, s)
  end.

Definition store_ok (m : gmap Z bytes) : Prop := map_Forall (λ _ c, zlen c < 2 ^ 32) m.

Lemma length_resize c n : 0 ≤ n → zlen (extent_server.resize c n) = n.
Proof.
  intros Hn. unfold extent_server.resize. case_test.
  - rewrite length_app, length_replicate. lia.
  - rewrite length_take. lia.
Qed.

Lemma resize_same c : extent_server.resize c (zlen c) = c.
Proof. unfold extent_server.resize. test_false. by rewrite Nat2Z.id, firstn_all. Qed.

Lemma store_step_ok m o : store_ok m → xop_ok o → store_ok (store_step m o).2.
Proof.
  intros Hm Ho. destruct o as [id buf|id|id|id n|id]; cbn [store_step snd xop_ok] in *; try done.
  - by apply map_Forall_insert_2.
  - destruct (m !! id); [|done]. apply map_Forall_insert_2; [|done]. rewrite length_resize; lia.
  - by apply map_Forall_delete.
Qed.

Ltac server_cbn :=
  cbn [fst snd extent_server.extent_map_ extent_server.set_extent extent_server.dirty extent_server.alloc content
    fmap option_fmap option_map size x_atime]; rewrite ?Z.eqb_refl.

Ltac server_cases s id :=
  unfold extent_server.put, extent_server.get, extent_server.getattr, extent_server.setattr, extent_server.remove;
  let x := fresh "x" in let Hx := fresh "Hx" in
  destruct (extent_server.extent_map_ s !! id) as [x|] eqn:Hx.

(** The contents change as the store does. *)
Lemma server_step_contents s now o : contents (server_step s now o).2 = (store_step (contents s) o).2.
Proof.
  unfold contents. destruct o as [id buf|id|id|id n|id]; cbn [store_step server_step]; server_cases s id;
    rewrite ?lookup_fmap, ?Hx; server_cbn; rewrite ?fmap_insert, ?fmap_delete; try done.
  - apply insert_id. by rewrite lookup_fmap, Hx.
  - destruct (Z.eqb_spec (zlen (content x)) n) as [<-|Hne]; server_cbn; [|by rewrite fmap_insert].
    rewrite resize_same. symmetry. apply insert_id. by rewrite lookup_fmap, Hx.
  - symmetry. apply delete_id. by rewrite lookup_fmap, Hx.
Qed.

Lemma server_step_spec s now o :
  store_ok (contents s) → xop_ok o →
  (server_step s now o).1 = (store_step (contents s) o).1 ∧
  contents (server_step s now o).2 = (store_step (contents s) o).2.
Proof.
  intros Hok Ho. split; [|apply server_step_contents]. unfold contents in *.
  destruct o as [id buf|id|id|id n|id]; cbn [store_step server_step];
    pose proof (Hok id) as Hid; rewrite lookup_fmap in Hid; server_cases s id; rewrite ?lookup_fmap, ?Hx; server_cbn; try done.
  - rewrite wrap_small; [done|]. specialize (Hid _ eq_refl). lia.
  - by case_test.
Qed.

Fixpoint server_run (s : extent_server.t) (ops : list (Z * xop)) : list xreply * extent_server.t :=
  match ops with
  | [] => ([], s)
  | (now, o) :: ops =>
      let '(r, s) := server_step s now o in
      let '(rs, s) := server_run s ops in (r :: rs, s)
  end.

Fixpoint store_run (m : gmap Z bytes) (ops : list xop) : list xreply * gmap Z bytes :=
  match ops with
  | [] => ([], m)
  | o :: ops =>
      let '(r, m) := store_step m o in
      let '(rs, m) := store_run m ops in (r :: rs, m)
  end.

Lemma server_run_spec ops : ∀ s,
  store_ok (contents s) → Forall (λ p, xop_ok p.2) ops →
  (server_run s ops).1 = (store_run (contents s) ops.*2).1 ∧
  contents (server_run s ops).2 = (store_run (contents s) ops.*2).2.
Proof.
  induction ops as [|[now o] ops IH]; intros s Hok Hops; [done|].
  apply Forall_cons in Hops as [Ho Hops]. cbn [snd] in Ho.
  destruct (server_step_spec s now o Hok Ho) as [Hr Hm]. pose proof (store_step_ok _ _ Hok Ho) as Hok'.
  cbn [server_run store_run fmap list_fmap snd].
  destruct (server_step s now o) as [r s1], (store_step (contents s) o) as [r' m1]. cbn [fst snd] in *. subst.
  specialize (IH s1 Hok' Hops). fold (snd <$> ops).
  destruct (server_run s1 ops) as [rs s2], (store_run (contents s1) ops.*2) as [rs' m2]. cbn in *.
  naive_solver.
Qed.

Lemma contents_make now : contents (extent_server.make now) = {[1 := []]}.
Proof.
  unfold contents, extent_server.make, extent_server.put. cbn [extent_server.extent_map_].
  rewrite lookup_empty. cbn [snd extent_server.dirty extent_server.set_extent extent_server.alloc extent_server.extent_map_].
  by rewrite insert_empty, map_fmap_singleton.
Qed.

(** C18: The extent server is a store: on any sequence of operations at any
    times, with contents and sizes below 4 GiB, its replies and its contents
    are those of a finite map from ids to byte strings that starts with the
    empty root extent. *)
Theorem extent_server_refines_store now ops :
  Forall (λ p, xop_ok p.2) ops →
  let '(rs, s) := server_run (extent_server.make now) ops in
  (rs, contents s) = store_run {[1 := []]} ops.*2.
Proof.
  intros Hops. pose proof (contents_make now) as Hm.
  destruct (server_run_spec ops (extent_server.make now)) as [Hr Hc]; [|done|].
  - rewrite Hm. by apply map_Forall_singleton.
  - rewrite Hm in *. destruct (server_run _ _), (store_run _ _). cbn [fst snd] in *. by subst.
Qed.

Lemma extent_server_refines_store_witness :
  let ops := [(5, XPut 7 (bs "abc")); (6, XSetattr 7 5); (7, XGet 7); (8, XGetattr 9)] in
  let '(rs, s) := server_run (extent_server.make 4) ops in
  (rs, contents s) = store_run {[1 := []]} ops.*2.
Proof.
  intros ops. apply (extent_server_refines_store 4 ops). unfold ops.
  repeat constructor; cbn; lia.
Defined.

(** ** Moving extents *)

Lemma extent_map_move_finish s moved id :
  extent_server.extent_map_ (extent_server.move_finish s moved) !! id =
    if decide (id ∈ moved) then None else extent_server.extent_map_ s !! id.
Proof.
  unfold extent_server.move_finish. cbn [extent_server.extent_map_].
  induction moved as [|i moved IH]; [by rewrite decide_False by apply not_elem_of_nil|]. cbn [foldr].
  destruct (decide (id = i)) as [->|Hne].
  - by rewrite lookup_delete_eq, decide_True by set_solver.
  - rewrite lookup_delete_ne, IH by done. apply decide_ext. set_solver.
Qed.

(** The pointers are those of the listed extents that exist. *)
Lemma take_find s ids : ∀ m, ordered m →
  let m' := foldl (λ m id, match extent_server.extent_map_ s !! id with Some x => om_insert id (x_at x) m | None => m end) m ids in
  ordered m' ∧ ∀ id, om_find id m' =
    match om_find id m with
    | Some a => Some a
    | None => if decide (id ∈ ids) then x_at <$> extent_server.extent_map_ s !! id else None
    end.
Proof.
  induction ids as [|i ids IH]; intros m Hm; cbn [foldl].
  { split; [done|]. intros id. rewrite decide_False by apply not_elem_of_nil. by destruct (om_find id m). }
  destruct (extent_server.extent_map_ s !! i) as [x|] eqn:Hx.
  - destruct (IH (om_insert i (x_at x) m)) as [Ho Hf]; [by apply om_insert_ordered|]. split; [done|]. intros id. rewrite Hf.
    destruct (om_find i m) as [a|] eqn:Hi.
    + rewrite (om_insert_old _ _ _ _ Hi). destruct (om_find id m) eqn:Hid; [done|].
      assert (id ≠ i) by congruence. repeat case_decide; set_solver.
    + rewrite om_find_insert_new, om_find_assign by done. destruct (same i id) eqn:Hs.
      * apply same_eq in Hs. subst i. by rewrite Hi, decide_True, Hx by set_solver.
      * assert (id ≠ i) by (intros ->; by rewrite same_refl in Hs).
        destruct (om_find id m); [done|]. repeat case_decide; set_solver.
  - destruct (IH m Hm) as [Ho Hf]. split; [done|]. intros id. rewrite Hf. destruct (om_find id m); [done|].
    destruct (decide (id = i)) as [->|Hne]; [rewrite Hx; by repeat case_decide|]. repeat case_decide; set_solver.
Qed.

Lemma elem_of_take s ids id a :
  (id, a) ∈ extent_server.move_take s ids ↔ id ∈ ids ∧ x_at <$> extent_server.extent_map_ s !! id = Some a.
Proof.
  destruct (take_find s ids [] (SSorted_nil _)) as [Ho Hf]. cbv zeta in *. fold (extent_server.move_take s ids) in *.
  specialize (Hf id). cbn [om_find] in Hf. split.
  - intros Hin%(om_find_elem _ _ _ Ho). rewrite Hin in Hf. by case_decide.
  - intros [Hid Ha]. rewrite decide_True, Ha in Hf by done. apply om_find_Some in Hf as (k' & Hin & Hs). apply same_eq in Hs. by subst k'.
Qed.

Section moves.
Context (puts : Z → bytes → Z).

(** The ids whose put succeeded, with nothing else running. *)
Definition put_ok (s : extent_server.t) (extents : list (Z * Z)) : list Z :=
  filter (λ id, match extent_server.extent_map_ s !! id with Some x => puts id (content x) =? ext_OK | None => false end = true) extents.*1.

Lemma alone_send_all s extents : ∀ ok,
  Forall (λ e, x_at <$> extent_server.extent_map_ s !! e.1 = Some e.2) extents →
  alone (extent_server.send_all puts extents ok) s =
    Done (ext_OK, extent_server.move_finish s (ok ++ put_ok s extents)).
Proof.
  induction extents as [|[id a] extents IH]; intros ok He; [by rewrite app_nil_r|].
  apply Forall_cons in He as [Hid He]. cbn in Hid. destruct (extent_server.extent_map_ s !! id) as [x|] eqn:Hx; [|done]. injection Hid as <-.
  cbn [alone extent_server.send_all]. unfold extent_server.move_send. cbn [fst snd]. rewrite Hx, Z.eqb_refl, !bind_Done, IH by done.
  do 3 f_equal. unfold put_ok. cbn [fmap list_fmap fst]. rewrite filter_cons, Hx.
  case_decide as E; [by rewrite E, <- app_assoc|by apply not_true_is_false in E as ->].
Qed.

(** A move alone comes to an end. *)
Lemma move_alone s ids dst_ok bound :
  extent_server.move puts s ids dst_ok bound =
    Done (if negb dst_ok then (ext_IOERR, s) else if negb bound then (ext_RPCERR, s)
          else (ext_OK, extent_server.move_finish s (put_ok s (extent_server.move_take s ids)))).
Proof.
  unfold extent_server.move, extent_server.move_sections. cbn [alone]. rewrite bind_Done. cbv beta iota.
  destruct (negb dst_ok); [done|]. destruct (negb bound); [done|]. rewrite alone_send_all; [done|].
  apply Forall_forall. intros [id a] [_ Ha]%elem_of_take. exact Ha.
Qed.

Lemma elem_of_put_ok s ids id :
  id ∈ put_ok s (extent_server.move_take s ids) ↔
    id ∈ ids ∧ ∃ x, extent_server.extent_map_ s !! id = Some x ∧ puts id (content x) = ext_OK.
Proof.
  unfold put_ok. rewrite list_elem_of_filter, list_elem_of_fmap. split.
  - intros [Hp ([? a] & -> & [Hid Ha]%elem_of_take)]. cbn in *. destruct (_ !! _) as [x|]; [|done]. apply Z.eqb_eq in Hp. eauto.
  - intros (Hid & x & Hx & Hp). rewrite Hx. split; [by apply Z.eqb_eq|]. exists (id, x_at x). split; [done|].
    apply elem_of_take. by rewrite Hx.
Qed.

(** A move that runs alone takes away exactly the listed extents that exist and
    whose put at the destination succeeded, leaves the others, and changes nothing
    when the destination is malformed or unreachable. *)
Theorem extent_move_contract s ids dst_ok bound :
  ∃ st s', extent_server.move puts s ids dst_ok bound = Done (st, s') ∧
   ∀ id, extent_server.extent_map_ s' !! id =
     match extent_server.extent_map_ s !! id with
     | Some x => if decide (st = ext_OK ∧ id ∈ ids ∧ puts id (content x) = ext_OK) then None else Some x
     | None => None
     end.
Proof.
  rewrite move_alone. destruct dst_ok; cbn [negb].
  2: { eexists _, _. split; [done|]. intros id. destruct (_ !! id); [|done]. by rewrite decide_False by naive_solver. }
  destruct bound; cbn [negb].
  2: { eexists _, _. split; [done|]. intros id. destruct (_ !! id); [|done]. by rewrite decide_False by naive_solver. }
  eexists _, _. split; [done|]. intros id. rewrite extent_map_move_finish.
  pose proof (elem_of_put_ok s ids id) as Hin. destruct (extent_server.extent_map_ s !! id) as [x|] eqn:Hx; [|by case_decide].
  apply decide_ext. rewrite Hin. naive_solver.
Qed.

End moves.

(** Between its sections the server serves other requests.  An extent written after
    it was sent is removed all the same, and only its old content was sent; and one
    removed before it is sent leaves the move with a pointer to what was freed, even
    if another is put in its place. *)
Theorem extent_move_overlapped s id now buf x :
  map_Forall (λ _ x, x_at x < extent_server.brk s) (extent_server.extent_map_ s) → extent_server.extent_map_ s !! id = Some x →
  let extents := extent_server.move_take s [id] in
  let put_after := (extent_server.put s now id buf).2 in
  let removed := (extent_server.remove s id).2 in
  extents = [(id, x_at x)] ∧ extent_server.move_send s (id, x_at x) = Done (content x) ∧
  contents put_after !! id = Some buf ∧ contents (extent_server.move_finish put_after [id]) !! id = None ∧
  extent_server.move_send removed (id, x_at x) = Undef ∧
  extent_server.move_send (extent_server.put removed now id buf).2 (id, x_at x) = Undef.
Proof.
  intros Hb Hx extents put_after removed. specialize (Hb id x Hx). cbn in Hb. split_and!.
  - unfold extents, extent_server.move_take. cbn [foldl]. by rewrite Hx.
  - unfold extent_server.move_send. cbn [fst snd]. by rewrite Hx, Z.eqb_refl.
  - unfold put_after, contents, extent_server.put. rewrite Hx, lookup_fmap. cbn. by rewrite lookup_insert_eq.
  - unfold contents. by rewrite lookup_fmap, extent_map_move_finish, decide_True by set_solver.
  - unfold removed, extent_server.remove, extent_server.move_send. rewrite Hx. cbn. by rewrite lookup_delete_eq.
  - unfold removed, extent_server.remove, extent_server.put, extent_server.move_send. rewrite Hx.
    cbn [snd fst extent_server.extent_map_ extent_server.dirty]. rewrite lookup_delete_eq. cbn [snd]. cbn.
    rewrite lookup_insert_eq. cbn. by test_false.
Qed.

(** ** What the collector reports *)

Fixpoint first_of (k : Z) (evs : list (Z * (Z * Z))) : option (Z * Z) :=
  match evs with
  | [] => None
  | (k', v) :: evs => if k' =? k then Some v else first_of k evs
  end.

Lemma collect_find k evs : ∀ m : list (Z * (Z * Z)),
  ordered m →
  ordered (foldl (λ m e, om_insert e.1 e.2 m) m evs) ∧
  om_find k (foldl (λ m e, om_insert e.1 e.2 m) m evs) =
    match om_find k m with Some v => Some v | None => first_of k evs end.
Proof.
  induction evs as [|[k' v] evs IH]; intros m Hm; cbn [foldl first_of fst snd].
  { by destruct (om_find k m). }
  destruct (IH (om_insert k' v m)) as [Ho Hf]; [by apply om_insert_ordered|]. split; [done|]. rewrite Hf.
  destruct (om_find k' m) as [v'|] eqn:Hk'.
  - rewrite (om_insert_old _ _ _ _ Hk'). destruct (Z.eqb_spec k' k) as [<-|]; [by rewrite Hk'|done].
  - rewrite om_find_insert_new, om_find_assign by done.
    destruct (Z.eqb_spec k' k) as [<-|Hne].
    + by rewrite Hk', same_refl.
    + destruct (same k' k) eqn:Hs; [|done]. by apply same_eq in Hs.
Qed.

Definition add_all_dirty (evs : list (Z * (Z * Z))) : InfoCollector.ServerInfo :=
  foldl (λ i e, InfoCollector.AddDirtyData i e.1 e.2.1 e.2.2) (InfoCollector.mkInfo [] [] []) evs.

Definition report (i : InfoCollector.ServerInfo) : list (Z * (Z * Z)) :=
  zip (InfoCollector.inum i) (zip (InfoCollector.sz i) (InfoCollector.type i)).

Lemma add_all_dirty_report evs :
  add_all_dirty evs = InfoCollector.mkInfo evs.*1 evs.*2.*1 evs.*2.*2.
Proof.
  unfold add_all_dirty. induction evs as [|[k [n ty]] evs IH] using rev_ind; [done|].
  rewrite foldl_app, IH. unfold InfoCollector.AddDirtyData. cbn [foldl fst snd].
  by rewrite !fmap_app.
Qed.

(** What the collector reports for the changes since the last report: one
    entry per extent, in increasing order of ids, with the size and the kind
    (0 delete, 1 add, 2 update) of the *first* change recorded for it; later
    changes of the period, deletions included, are not in the report. *)
Theorem collector_reports_first evs :
  let m := report (InfoCollector.Get (add_all_dirty evs)) in
  ordered m ∧ ∀ k, om_find k m = first_of k evs.
Proof.
  rewrite add_all_dirty_report. unfold InfoCollector.Get, InfoCollector.collect, report.
  cbn [InfoCollector.inum InfoCollector.sz InfoCollector.type]. rewrite !zip_fst_snd.
  assert (∀ k, _) as H by (intros k; exact (collect_find k evs [] (SSorted_nil _))).
  split; [apply (H 0)|]. intros k. by destruct (H k) as [_ ->].
Qed.
