(* ===== verification/ExtentCache.v ===== *)
(** * The extent cache of a client (src/client/extent_client_cache.cc)

    A write-back cache over the extent server.  What it needs of the server
    connection is an interface, [ExtentService]; the extent server of
    ExtentServer.v implements it.  The operations are those of one caller at a
    time: as extent_client.cc says, the caller holds the lock of the extent. *)

From S2P Require Import Prelude StdContainers ExtentServer.

(** ** The interface of the connection *)

(** The five calls, and [retry] (drop the cached address of the extent and
    connect to the one the master names). *)
Class ExtentService (E : Type) : Type := {
  call_get : E → Z → bytes → Z * bytes * E;
  call_getattr : E → Z → attr → Z * attr * E;
  call_put : E → Z → bytes → Z * E;
  call_remove : E → Z → Z * E;
  call_setattr : E → Z → attr → Z * E;
  retry : E → Z → E;
}.

(** What a connection that works promises: its calls act on a store of contents
    [view e], and reconnecting reaches the same store. *)
Class ExtentServiceLaws (E : Type) `{ExtentService E} : Type := {
  view : E → gmap Z bytes;
  get_law e id buf :
    let '(st, buf', e') := call_get e id buf in
    view e' = view e ∧
    match view e !! id with Some c => st = ext_OK ∧ buf' = c | None => st = ext_NOENT end;
  getattr_law e id a : store_ok (view e) →
    let '(st, a', e') := call_getattr e id a in
    view e' = view e ∧
    match view e !! id with Some c => st = ext_OK ∧ size a' = zlen c | None => st = ext_NOENT end;
  put_law e id buf : zlen buf < 2 ^ 32 →
    let '(st, e') := call_put e id buf in st = ext_OK ∧ view e' = <[id := buf]> (view e);
  remove_law e id :
    let '(st, e') := call_remove e id in st = ext_OK ∧ view e' = delete id (view e);
  setattr_law e id a : 0 ≤ size a < 2 ^ 32 →
    let '(st, e') := call_setattr e id a in
    match view e !! id with
    | Some c => st = ext_OK ∧ view e' = <[id := extent_server.resize c (size a)]> (view e)
    | None => st = ext_NOENT ∧ view e' = view e
    end;
  retry_law e id : view (retry e id) = view e;
}.

(** ** The cache *)

Record cextent : Type := mkC {
  c_atime : Z; c_mtime : Z; c_ctime : Z; c_content : bytes; deleted : bool; dirty : bool }.

(** [extent(a, m, c, v)] *)
Definition new_extent (a m c : Z) (v : bytes) : cextent := mkC a m c v false false.

Module extent_client_cache.
Section cache.
Context {E : Type} `{ExtentService E}.

Record t : Type := mk { cache_map_ : gmap Z cextent; env : E }.

Definition store_entry (id : Z) (x : cextent) (s : t) : t := mk (<[id := x]> (cache_map_ s)) (env s).

(** The calls, repeated once on another connection when they fail. *)
Definition callGet (e : E) (id : Z) (buf : bytes) : Z * bytes * E :=
  let '(ret, buf, e) := call_get e id buf in
  if negb (ret =? ext_OK) then call_get (retry e id) id [] else (ret, buf, e).

Definition callGetAttr (e : E) (id : Z) (a : attr) : Z * attr * E :=
  let '(ret, a, e) := call_getattr e id a in
  if negb (ret =? ext_OK) then call_getattr (retry e id) id a else (ret, a, e).

Definition failed (ret : Z) : bool := negb (ret =? ext_OK) && negb (ret =? ext_NOENT).

Definition callRemove (e : E) (id : Z) : Z * E :=
  let '(ret, e) := call_remove e id in
  if failed ret then call_remove (retry e id) id else (ret, e).

Definition callPut (e : E) (id : Z) (buf : bytes) : Z * E :=
  let '(ret, e) := call_put (retry e id) id buf in
  if failed ret then call_put (retry e id) id buf else (ret, e).

Definition callSetAttr (e : E) (id : Z) (a : attr) : Z * E :=
  let '(ret, e) := call_setattr (retry e id) id a in
  if failed ret then call_setattr (retry e id) id a else (ret, e).

Definition put (s : t) (now id : Z) (buf : bytes) : Z * t :=
  let value := default (new_extent now now now buf) (cache_map_ s !! id) in
  (ext_OK, store_entry id (mkC (if deleted value then now else c_atime value) now now buf false true) s).

Definition get (s : t) (now id : Z) (buf : bytes) : Z * bytes * t :=
  match cache_map_ s !! id with
  | None =>
      let '(ret, buf, e) := callGet (env s) id buf in
      if negb (ret =? ext_OK) then (ret, buf, mk (cache_map_ s) e)
      else
        let '(ret, a, e) := callGetAttr e id (mkAttr 0 0 0 0) in
        if negb (ret =? ext_OK) then (ret, buf, mk (cache_map_ s) e)
        else (ext_OK, buf, mk (<[id := new_extent (atime a) (mtime a) (ctime a) buf]> (cache_map_ s)) e)
  | Some x =>
      if deleted x then (ext_NOENT, buf, s)
      else (ext_OK, c_content x, store_entry id (mkC now (c_mtime x) (c_ctime x) (c_content x) false true) s)
  end.

Definition getattr (s : t) (id : Z) (a : attr) : Z * attr * t :=
  match cache_map_ s !! id with
  | None =>
      let '(ret, a, e) := callGetAttr (env s) id a in
      if negb (ret =? ext_OK) then (ret, a, mk (cache_map_ s) e)
      else
        let '(ret, buf, e) := callGet e id [] in
        if negb (ret =? ext_OK) then (ret, a, mk (cache_map_ s) e)
        else (ext_OK, a, mk (<[id := new_extent (atime a) (mtime a) (ctime a) buf]> (cache_map_ s)) e)
  | Some x =>
      if deleted x then (ext_NOENT, a, s)
      else (ext_OK, mkAttr (c_atime x) (c_mtime x) (c_ctime x) (wrap32 (zlen (c_content x))), s)
  end.

(** The end of [setattr]: resize, and take over the times. *)
Definition setattr_value (x : cextent) (a : attr) : cextent :=
  mkC (atime a) (mtime a) (ctime a)
    (if zlen (c_content x) =? size a then c_content x
     else extent_server.resize (c_content x) (size a))
    (deleted x) true.

Definition setattr (s : t) (id : Z) (a : attr) : Z * t :=
  match cache_map_ s !! id with
  | Some x => if deleted x then (ext_NOENT, s) else (ext_OK, store_entry id (setattr_value x a) s)
  | None =>
      let '(ret, buf, e) := callGet (env s) id [] in
      if negb (ret =? ext_OK) then (ret, mk (cache_map_ s) e)
      else
        (ext_OK, mk (<[id := setattr_value (new_extent (atime a) (ctime a) (mtime a) buf) a]> (cache_map_ s)) e)
  end.

Definition remove (s : t) (id : Z) : Z * t :=
  match cache_map_ s !! id with
  | Some x =>
      (ext_OK, store_entry id (mkC (c_atime x) (c_mtime x) (c_ctime x) (c_content x) true true) s)
  | None => (ext_OK, store_entry id (mkC 0 0 0 [] true true) s)
  end.

Definition flush (s : t) (id : Z) : Z * t :=
  match cache_map_ s !! id with
  | Some x =>
      if dirty x then
        if deleted x then
          let '(ret, e) := callRemove (env s) id in
          if failed ret then (ret, mk (cache_map_ s) e) else (ret, mk (delete id (cache_map_ s)) e)
        else
          let '(ret, e) := callPut (env s) id (c_content x) in
          if failed ret then (ret, mk (cache_map_ s) e)
          else
            let a := mkAttr (c_atime x) (c_mtime x) (c_ctime x) (wrap32 (zlen (c_content x))) in
            let '(ret, e) := callSetAttr e id a in
            if failed ret then (ret, mk (cache_map_ s) e) else (ret, mk (delete id (cache_map_ s)) e)
      else (ext_OK, mk (delete id (cache_map_ s)) (env s))
  | None => (ext_OK, mk (delete id (cache_map_ s)) (env s))
  end.

End cache.
Arguments t : clear implicits.
End extent_client_cache.

(** ** The cache is transparent *)

Section transparent.
Context {E : Type} `{ExtentServiceLaws E}.
Implicit Types (s : extent_client_cache.t E) (e : E) (m : gmap Z bytes).

Lemma callGet_spec e id buf :
  ∃ buf' e', extent_client_cache.callGet e id buf =
      (match view e !! id with Some _ => ext_OK | None => ext_NOENT end, buf', e') ∧
    view e' = view e ∧ ∀ c, view e !! id = Some c → buf' = c.
Proof.
  unfold extent_client_cache.callGet. pose proof (get_law e id buf) as Hg.
  destruct (call_get e id buf) as [[st b] e1]. destruct Hg as [Hv Hg].
  destruct (view e !! id) as [c|] eqn:Hc.
  - destruct Hg as [-> ->]. cbn [negb]. eexists _, _. split; [done|]. split; [done|]. by intros ? [= ->].
  - subst st. pose proof (get_law (retry e1 id) id []) as Hg2. rewrite retry_law, Hv, Hc in Hg2.
    change (negb (ext_NOENT =? ext_OK)) with true.
    destruct (call_get (retry e1 id) id []) as [[st2 b2] e2]. destruct Hg2 as [Hv2 ->]. by eexists _, _.
Qed.

Lemma callGetAttr_spec e id a :
  store_ok (view e) →
  ∃ a' e', extent_client_cache.callGetAttr e id a =
      (match view e !! id with Some _ => ext_OK | None => ext_NOENT end, a', e') ∧
    view e' = view e ∧ ∀ c, view e !! id = Some c → size a' = zlen c.
Proof.
  intros Hok. unfold extent_client_cache.callGetAttr. pose proof (getattr_law e id a Hok) as Hg.
  destruct (call_getattr e id a) as [[st b] e1]. destruct Hg as [Hv Hg].
  destruct (view e !! id) as [c|] eqn:Hc.
  - destruct Hg as [-> ?]. cbn [negb]. eexists _, _. split; [done|]. split; [done|]. by intros ? [= ->].
  - subst st. pose proof (getattr_law (retry e1 id) id b) as Hg2.
    rewrite retry_law, Hv, Hc in Hg2. specialize (Hg2 Hok).
    change (negb (ext_NOENT =? ext_OK)) with true.
    destruct (call_getattr (retry e1 id) id b) as [[st2 b2] e2]. destruct Hg2 as [Hv2 ->]. by eexists _, _.
Qed.

(** ** What the client sees *)

Definition overlay (x : option cextent) (v : option bytes) : option bytes :=
  match x with
  | Some x => if deleted x then None else Some (c_content x)
  | None => v
  end.

(** The cache represents [m]: an entry hides the server, and a clean entry
    agrees with it. *)
Record represents s m : Prop := {
  rep_view : ∀ id, m !! id = overlay (extent_client_cache.cache_map_ s !! id) (view (extent_client_cache.env s) !! id);
  rep_clean : ∀ id x, extent_client_cache.cache_map_ s !! id = Some x → dirty x = false →
    view (extent_client_cache.env s) !! id = Some (c_content x) ∧ deleted x = false;
  rep_store : store_ok (view (extent_client_cache.env s));
}.

(** The store operations and [flush], which no client should notice. *)
Inductive cop : Type := COp (now : Z) (o : xop) | CFlush (id : Z).

Definition cache_step s (o : cop) : xreply * extent_client_cache.t E :=
  match o with
  | COp now (XPut id buf) => let '(st, s) := extent_client_cache.put s now id buf in (RStatus st, s)
  | COp now (XGet id) =>
      let '(st, buf, s) := extent_client_cache.get s now id [] in
      (if st =? ext_OK then RBuf buf else RStatus st, s)
  | COp now (XGetattr id) =>
      let '(st, a, s) := extent_client_cache.getattr s id (mkAttr 0 0 0 0) in
      (if st =? ext_OK then RSize (size a) else RStatus st, s)
  | COp now (XSetattr id n) =>
      let '(st, s) := extent_client_cache.setattr s id (mkAttr now now now n) in (RStatus st, s)
  | COp now (XRemove id) => let '(st, s) := extent_client_cache.remove s id in (RStatus st, s)
  | CFlush id => let '(st, s) := extent_client_cache.flush s id in (RStatus st, s)
  end.

Definition spec_step m (o : cop) : xreply * gmap Z bytes :=
  match o with COp _ o => store_step m o | CFlush _ => (RStatus ext_OK, m) end.

Definition cop_ok (o : cop) : Prop := match o with COp _ o => xop_ok o | CFlush _ => True end.

(** An entry written over one id. *)
Lemma represents_insert s m id x e' :
  represents s m → view e' = view (extent_client_cache.env s) →
  (dirty x = false → view e' !! id = Some (c_content x) ∧ deleted x = false) →
  represents (extent_client_cache.mk (<[id := x]> (extent_client_cache.cache_map_ s)) e')
    (partial_alter (λ _, overlay (Some x) None) id m).
Proof.
  intros [Hv Hc Hs] He Hx. split; cbn [extent_client_cache.cache_map_ extent_client_cache.env]; [| |by rewrite He].
  - intros id'. destruct (decide (id = id')) as [<-|Hne].
    + by rewrite lookup_partial_alter_eq, lookup_insert_eq.
    + by rewrite lookup_partial_alter_ne, lookup_insert_ne, He.
  - intros id' x'. destruct (decide (id = id')) as [<-|Hne].
    + rewrite lookup_insert_eq. intros [= <-]. apply Hx.
    + rewrite lookup_insert_ne, He by done. apply Hc.
Qed.

Lemma represents_env s m e' :
  represents s m → view e' = view (extent_client_cache.env s) →
  represents (extent_client_cache.mk (extent_client_cache.cache_map_ s) e') m.
Proof. intros [Hv Hc Hs] He. split; cbn; [intros id; rewrite He; apply Hv|intros id; rewrite He; apply Hc|by rewrite He]. Qed.

Lemma represents_delete s m id e' :
  represents s m → store_ok (view e') → view e' !! id = m !! id →
  (∀ id', id' ≠ id → view e' !! id' = view (extent_client_cache.env s) !! id') →
  represents (extent_client_cache.mk (delete id (extent_client_cache.cache_map_ s)) e') m.
Proof.
  intros [Hv Hc _] Hs Hid Hne. split; cbn [extent_client_cache.cache_map_ extent_client_cache.env]; [| |done].
  - intros id'. destruct (decide (id = id')) as [<-|Hd].
    + by rewrite lookup_delete_eq, Hid.
    + by rewrite lookup_delete_ne, Hne, Hv.
  - intros id' x'. destruct (decide (id = id')) as [<-|Hd]; [by rewrite lookup_delete_eq|].
    rewrite lookup_delete_ne, Hne by done. apply Hc.
Qed.

Lemma represents_get s m id :
  represents s m →
  match extent_client_cache.cache_map_ s !! id with
  | Some x => m !! id = if deleted x then None else Some (c_content x)
  | None => m !! id = view (extent_client_cache.env s) !! id
  end.
Proof. intros [Hv _ _]. rewrite Hv. by destruct (extent_client_cache.cache_map_ s !! id). Qed.

Lemma cached_get_ok s m now id :
  represents s m →
  ∃ buf s', extent_client_cache.get s now id [] =
      (match m !! id with Some _ => ext_OK | None => ext_NOENT end, buf, s') ∧
    represents s' m ∧ ∀ c, m !! id = Some c → buf = c.
Proof.
  intros Hr. pose proof (represents_get s m id Hr) as Hm. unfold extent_client_cache.get.
  destruct (extent_client_cache.cache_map_ s !! id) as [x|] eqn:Hx.
  - destruct (deleted x) eqn:Hd; rewrite Hm; [by eexists _, _|].
    eexists _, _. split; [done|]. split; [|by intros ? [= ->]].
    rewrite <- (partial_alter_self m id), Hm. by apply represents_insert.
  - destruct (callGet_spec (extent_client_cache.env s) id []) as (buf & e1 & -> & He1 & Hbuf).
    rewrite Hm. destruct (view (extent_client_cache.env s) !! id) as [c|] eqn:Hc.
    + cbn [negb]. destruct (callGetAttr_spec e1 id (mkAttr 0 0 0 0)) as (a & e2 & -> & He2 & Ha);
        [rewrite He1; apply Hr|].
      rewrite He1, Hc. cbn [negb]. eexists _, _. split; [done|].
      split; [|intros ? [= <-]; by apply Hbuf].
      rewrite <- (partial_alter_self m id), Hm. rewrite (Hbuf c eq_refl).
      apply (represents_insert s m id (new_extent (atime a) (mtime a) (ctime a) c)); [done|congruence|].
      intros _. by rewrite He2, He1.
    + change (negb (ext_NOENT =? ext_OK)) with true. eexists _, _. split; [done|].
      split; [|done]. by apply represents_env.
Qed.

Lemma getattr_ok s m id a0 :
  represents s m → store_ok m →
  ∃ a s', extent_client_cache.getattr s id a0 =
      (match m !! id with Some _ => ext_OK | None => ext_NOENT end, a, s') ∧
    represents s' m ∧ ∀ c, m !! id = Some c → size a = zlen c.
Proof.
  intros Hr Hok. pose proof (represents_get s m id Hr) as Hm. unfold extent_client_cache.getattr.
  destruct (extent_client_cache.cache_map_ s !! id) as [x|] eqn:Hx.
  - destruct (deleted x) eqn:Hd; rewrite Hm; [by eexists _, _|].
    eexists _, _. split; [done|]. split; [done|]. intros c [= <-]. cbn [size].
    apply wrap_small. specialize (Hok id _ Hm). cbn in Hok. lia.
  - destruct (callGetAttr_spec (extent_client_cache.env s) id a0) as (a & e1 & -> & He1 & Ha); [apply Hr|].
    rewrite Hm. destruct (view (extent_client_cache.env s) !! id) as [c|] eqn:Hc.
    + cbn [negb]. destruct (callGet_spec e1 id []) as (buf & e2 & -> & He2 & Hbuf).
      rewrite He1, Hc in *. cbn [negb]. eexists _, _. split; [done|].
      split; [|intros ? [= <-]; by apply Ha].
      rewrite <- (partial_alter_self m id), Hm. rewrite (Hbuf c eq_refl).
      apply (represents_insert s m id (new_extent (atime a) (mtime a) (ctime a) c)); [done|congruence|].
      intros _. by rewrite He2.
    + change (negb (ext_NOENT =? ext_OK)) with true. eexists _, _. split; [done|].
      split; [|done]. by apply represents_env.
Qed.

Lemma setattr_value_content x a :
  c_content (extent_client_cache.setattr_value x a) = extent_server.resize (c_content x) (size a).
Proof.
  unfold extent_client_cache.setattr_value. cbn [c_content]. case_test; [|done]. subst.
  match goal with H : zlen _ = _ |- _ => rewrite <- H end. by rewrite resize_same.
Qed.

Lemma setattr_ok s m id a :
  represents s m →
  ∃ s', extent_client_cache.setattr s id a =
      (match m !! id with Some _ => ext_OK | None => ext_NOENT end, s') ∧
    represents s' (match m !! id with
                   | Some c => <[id := extent_server.resize c (size a)]> m | None => m end).
Proof.
  intros Hr. pose proof (represents_get s m id Hr) as Hm. unfold extent_client_cache.setattr.
  destruct (extent_client_cache.cache_map_ s !! id) as [x|] eqn:Hx.
  - destruct (deleted x) eqn:Hd; rewrite Hm; [by eexists|]. eexists. split; [done|].
    rewrite <- setattr_value_content.
    assert (overlay (Some (extent_client_cache.setattr_value x a)) None = Some (c_content (extent_client_cache.setattr_value x a))) as Ho.
    { unfold overlay, extent_client_cache.setattr_value. cbn. by rewrite Hd. }
    unfold insert, map_insert. rewrite <- Ho. by apply represents_insert.
  - destruct (callGet_spec (extent_client_cache.env s) id []) as (buf & e1 & -> & He1 & Hbuf).
    rewrite Hm. destruct (view (extent_client_cache.env s) !! id) as [c|] eqn:Hc.
    + cbn [negb]. eexists. split; [done|]. rewrite (Hbuf c eq_refl).
      set (x := new_extent _ _ _ _). change (extent_server.resize c) with (extent_server.resize (c_content x)).
      rewrite <- setattr_value_content.
      apply (represents_insert s m id (extent_client_cache.setattr_value x a)); done.
    + change (negb (ext_NOENT =? ext_OK)) with true. eexists. split; [done|]. by apply represents_env.
Qed.

Lemma callRemove_spec e id :
  ∃ e', extent_client_cache.callRemove e id = (ext_OK, e') ∧ view e' = delete id (view e).
Proof.
  unfold extent_client_cache.callRemove. pose proof (remove_law e id) as Hr.
  destruct (call_remove e id) as [st e1]. destruct Hr as [-> Hv]. by eexists.
Qed.

Lemma callPut_spec e id buf :
  zlen buf < 2 ^ 32 →
  ∃ e', extent_client_cache.callPut e id buf = (ext_OK, e') ∧ view e' = <[id := buf]> (view e).
Proof.
  intros Hb. unfold extent_client_cache.callPut. pose proof (put_law (retry e id) id buf Hb) as Hr.
  destruct (call_put (retry e id) id buf) as [st e1]. destruct Hr as [-> Hv].
  rewrite retry_law in Hv. by eexists.
Qed.

Lemma callSetAttr_same e id a c :
  view e !! id = Some c → size a = zlen c → zlen c < 2 ^ 32 →
  ∃ e', extent_client_cache.callSetAttr e id a = (ext_OK, e') ∧ view e' = view e.
Proof.
  intros Hc Ha Hlt. unfold extent_client_cache.callSetAttr.
  pose proof (setattr_law (retry e id) id a) as Hr. rewrite retry_law, Hc in Hr.
  destruct (call_setattr (retry e id) id a) as [st e1]. destruct Hr as [-> Hv]; [lia|].
  rewrite Ha, resize_same, insert_id in Hv by done. by eexists.
Qed.

(** Flushing an extent writes what the client sees of it, and drops it. *)
Lemma flush_ok s m id :
  represents s m → store_ok m →
  ∃ s', extent_client_cache.flush s id = (ext_OK, s') ∧ represents s' m ∧
    extent_client_cache.cache_map_ s' !! id = None ∧
    view (extent_client_cache.env s') !! id = m !! id.
Proof.
  intros Hr Hok. pose proof (represents_get s m id Hr) as Hm. unfold extent_client_cache.flush.
  destruct (extent_client_cache.cache_map_ s !! id) as [x|] eqn:Hx.
  2:{ eexists. split; [done|]. rewrite Hm. cbn. rewrite lookup_delete_eq.
      split; [by apply represents_delete; [done|apply Hr|..]|done]. }
  destruct (dirty x) eqn:Hdirty; [destruct (deleted x) eqn:Hd|].
  - destruct (callRemove_spec (extent_client_cache.env s) id) as (e1 & -> & He1).
    change (extent_client_cache.failed ext_OK) with false. eexists. split; [done|]. cbn.
    rewrite lookup_delete_eq, Hm, He1, lookup_delete_eq. split; [|done].
    apply represents_delete; [done|rewrite He1; apply map_Forall_delete, Hr|by rewrite He1, lookup_delete_eq, Hm|].
    intros id' Hne. by rewrite He1, lookup_delete_ne.
  - assert (zlen (c_content x) < 2 ^ 32) as Hlt by exact (Hok id _ Hm).
    destruct (callPut_spec (extent_client_cache.env s) id (c_content x) Hlt) as (e1 & -> & He1).
    change (extent_client_cache.failed ext_OK) with false. cbv iota.
    destruct (callSetAttr_same e1 id (mkAttr (c_atime x) (c_mtime x) (c_ctime x)
      (wrap32 (zlen (c_content x)))) (c_content x)) as (e2 & -> & He2);
      [by rewrite He1, lookup_insert_eq|cbn; apply wrap_small; lia|done|].
    change (extent_client_cache.failed ext_OK) with false. eexists. split; [done|]. cbn.
    rewrite lookup_delete_eq, He2, He1, Hm, lookup_insert_eq. split; [|done].
    apply represents_delete; [done|rewrite He2, He1; apply map_Forall_insert_2; [done|apply Hr]|by rewrite He2, He1, lookup_insert_eq, Hm|].
    intros id' Hne. by rewrite He2, He1, lookup_insert_ne.
  - destruct (rep_clean s m Hr id x Hx Hdirty) as [Hv Hd]. rewrite Hd in Hm.
    eexists. split; [done|]. cbn. rewrite lookup_delete_eq, Hv, Hm. split; [|done].
    apply represents_delete; [done|apply Hr|congruence|done].
Qed.

Lemma cache_step_ok s m o :
  represents s m → store_ok m → cop_ok o →
  (cache_step s o).1 = (spec_step m o).1 ∧ represents (cache_step s o).2 (spec_step m o).2.
Proof.
  intros Hr Hok Ho. destruct o as [now [id buf|id|id|id n|id]|id]; cbn [cache_step spec_step store_step].
  - split; [done|]. cbn [fst snd extent_client_cache.put]. by apply represents_insert.
  - destruct (cached_get_ok s m now id Hr) as (buf & s' & -> & Hr' & Hb).
    destruct (m !! id); [by rewrite (Hb _ eq_refl)|done].
  - destruct (getattr_ok s m id (mkAttr 0 0 0 0) Hr Hok) as (a & s' & -> & Hr' & Ha).
    destruct (m !! id); [by rewrite <- (Ha _ eq_refl)|done].
  - destruct (setattr_ok s m id (mkAttr now now now n) Hr) as (s' & -> & Hr'). by destruct (m !! id).
  - unfold extent_client_cache.remove.
    destruct (extent_client_cache.cache_map_ s !! id); (split; [done|]); by apply represents_insert.
  - destruct (flush_ok s m id Hr Hok) as (s' & -> & Hr' & _). done.
Qed.

Fixpoint cache_run s (ops : list cop) : list xreply * extent_client_cache.t E :=
  match ops with
  | [] => ([], s)
  | o :: ops =>
      let '(r, s) := cache_step s o in let '(rs, s) := cache_run s ops in (r :: rs, s)
  end.

Fixpoint spec_run m (ops : list cop) : list xreply * gmap Z bytes :=
  match ops with
  | [] => ([], m)
  | o :: ops =>
      let '(r, m) := spec_step m o in let '(rs, m) := spec_run m ops in (r :: rs, m)
  end.

Lemma spec_step_ok m o : store_ok m → cop_ok o → store_ok (spec_step m o).2.
Proof. destruct o; cbn; [apply store_step_ok|done]. Qed.

Lemma cache_run_ok ops : ∀ s m,
  represents s m → store_ok m → Forall cop_ok ops →
  (cache_run s ops).1 = (spec_run m ops).1 ∧ represents (cache_run s ops).2 (spec_run m ops).2 ∧
  store_ok (spec_run m ops).2.
Proof.
  induction ops as [|o ops IH]; intros s m Hr Hok Hops; [done|].
  apply Forall_cons in Hops as [Ho Hops].
  destruct (cache_step_ok s m o Hr Hok Ho) as [Hrep Hr']. pose proof (spec_step_ok m o Hok Ho) as Hok'.
  cbn [cache_run spec_run]. destruct (cache_step s o) as [r s1], (spec_step m o) as [r' m1].
  cbn [fst snd] in *. destruct (IH s1 m1 Hr' Hok' Hops) as (Hx & Hy & Hz).
  destruct (cache_run s1 ops) as [rs s2], (spec_run m1 ops) as [rs' m2]. cbn in *. naive_solver congruence.
Qed.

Lemma empty_represents e : store_ok (view e) → represents (extent_client_cache.mk ∅ e) (view e).
Proof. split; cbn; [intros id; by rewrite lookup_empty|intros id; by rewrite lookup_empty|done]. Qed.
End transparent.

(** C11: Over a connection that works, the cache is transparent: for any sequence
    of operations and flushes that starts with an empty cache, every reply is
    the reply of the store itself with the flushes left out; and flushing an
    extent brings its content, or its removal, to the server and drops it. *)
Theorem extent_cache_transparent {E} `{ExtentServiceLaws E} (e : E) ops id :
  store_ok (view e) → Forall cop_ok ops →
  let '(rs, s) := cache_run (extent_client_cache.mk ∅ e) ops in
  let '(rs', m) := spec_run (view e) ops in
  rs = rs' ∧
  ∃ s', extent_client_cache.flush s id = (ext_OK, s') ∧
    extent_client_cache.cache_map_ s' !! id = None ∧ view (extent_client_cache.env s') !! id = m !! id.
Proof.
  intros Hv0 Hops. destruct (cache_run_ok ops _ _ (empty_represents e Hv0) Hv0 Hops) as (Hr & Hrep & Hok).
  destruct (cache_run _ _) as [rs s], (spec_run _ _) as [rs' m]. cbn [fst snd] in *.
  split; [done|]. destruct (flush_ok s m id Hrep Hok) as (s' & Hf & _ & Hn & Hv). eauto.
Qed.

(** ** The extent server is such a connection *)

Record served : Type := mkServed { srv : extent_server.t; clock : Z }.

(** Every call takes a tick of the server's clock; reconnecting finds the same
    server. *)
#[export] Instance served_service : ExtentService served := {|
  call_get e id buf :=
    let '(st, buf, s) := extent_server.get (srv e) (clock e) id buf in (st, buf, mkServed s (clock e + 1));
  call_getattr e id a :=
    let '(st, a) := extent_server.getattr (srv e) id a in (st, a, mkServed (srv e) (clock e + 1));
  call_put e id buf :=
    let '(st, s) := extent_server.put (srv e) (clock e) id buf in (st, mkServed s (clock e + 1));
  call_remove e id :=
    let '(st, s) := extent_server.remove (srv e) id in (st, mkServed s (clock e + 1));
  call_setattr e id a :=
    let '(st, s) := extent_server.setattr (srv e) (clock e) id a in (st, mkServed s (clock e + 1));
  retry e id := e;
|}.

Lemma contents_lookup s id : contents s !! id = content <$> (extent_server.extent_map_ s !! id).
Proof. apply lookup_fmap. Qed.

#[export] Program Instance served_laws : ExtentServiceLaws served := {| view e := contents (srv e) |}.
Next Obligation.
  intros e id buf. cbn -[extent_server.get contents]. unfold extent_server.get.
  pose proof (contents_lookup (srv e) id) as Hl.
  destruct (extent_server.extent_map_ (srv e) !! id) as [x|] eqn:Hx; cbn -[contents]; rewrite Hl; [|done].
  split; [|done]. unfold contents. cbn [extent_server.extent_map_ extent_server.set_extent].
  rewrite fmap_insert. by apply insert_id.
Qed.
Next Obligation.
  intros e id a Hok. cbn -[extent_server.getattr contents]. unfold extent_server.getattr.
  pose proof (contents_lookup (srv e) id) as Hl. pose proof (Hok id) as Hid.
  destruct (extent_server.extent_map_ (srv e) !! id) as [x|] eqn:Hx; cbn -[contents]; rewrite Hl; [|done].
  split; [done|]. split; [done|]. apply wrap_small. specialize (Hid _ Hl). cbn in Hid. lia.
Qed.
Next Obligation.
  intros e id buf Hb. cbn -[extent_server.put contents]. unfold extent_server.put.
  destruct (extent_server.extent_map_ (srv e) !! id) as [x|] eqn:Hx; (split; [done|]);
    unfold contents; apply fmap_insert.
Qed.
Next Obligation.
  intros e id. cbn -[extent_server.remove contents]. unfold extent_server.remove.
  destruct (extent_server.extent_map_ (srv e) !! id) as [x|] eqn:Hx; (split; [done|]); unfold contents.
  - apply fmap_delete.
  - symmetry. cbn [srv]. apply delete_id. rewrite lookup_fmap. by rewrite Hx.
Qed.
Next Obligation.
  intros e id a Ha. cbn -[extent_server.setattr contents]. unfold extent_server.setattr.
  pose proof (contents_lookup (srv e) id) as Hl.
  destruct (extent_server.extent_map_ (srv e) !! id) as [x|] eqn:Hx; cbn -[contents Z.eqb]; rewrite Hl; [|done].
  cbn -[contents Z.eqb].
  destruct (Z.eqb_spec (zlen (content x)) (size a)) as [<-|Hne]; (split; [done|]).
  - rewrite resize_same. symmetry. by apply insert_id.
  - unfold contents. cbn [srv extent_server.extent_map_ extent_server.dirty extent_server.set_extent].
    by rewrite fmap_insert.
Qed.
Next Obligation. done. Qed.

Lemma extent_cache_transparent_witness :
  let e := mkServed (extent_server.make 4) 5 in
  let ops := [COp 6 (XPut 7 (bs "abc")); COp 7 (XSetattr 7 5); CFlush 7; COp 8 (XGet 7); COp 9 (XRemove 1)] in
  let '(rs, s) := cache_run (extent_client_cache.mk ∅ e) ops in
  let '(rs', m) := spec_run (view e) ops in
  rs = rs' ∧
  ∃ s', extent_client_cache.flush s 1 = (ext_OK, s') ∧
    extent_client_cache.cache_map_ s' !! 1 = None ∧ view (extent_client_cache.env s') !! 1 = m !! 1.
Proof.
  intros e ops. apply (extent_cache_transparent e ops 1).
  - apply (bool_decide_unpack _). vm_compute. exact I.
  - unfold ops. repeat constructor; cbn; lia.
Defined.
