(* ===== verification/Marshall.v ===== *)
(** * Marshalling (src/include/rpc/marshall.h, src/rpc/rpc.cc)

    The growing send buffer [marshall], the receive buffer [unmarshall] and the
    operators that write and read values.  A pair of such operators is a
    [codec]; the templates for vectors, pairs and maps are combinators of
    codecs, and one class states the round trip for all of them.

    RPC_CHECKSUMMING is not defined by the build, so a header is
    20 bytes behind a 4-byte size field. *)

From S2P Require Import Prelude StdContainers ExtentServer.

Definition RPC_HEADER_SZ : Z := 24.
Definition DEFAULT_RPC_SZ : Z := 1024.
Definition int_max : Z := 2 ^ 31 - 1.

(** ** The send buffer *)

(** [data] is the buffer up to [_ind] (the header's bytes included, which are
    uninitialised until a header is packed), [capa] its allocated size. *)
Record mar : Type := mkMar { data : bytes; capa : Z }.

Definition mar_new : mar := mkMar (replicate 24 Byte.x00) DEFAULT_RPC_SZ.

(** A capacity that overflows [int], and a write past it, are undefined. *)
Definition grow (c : Z) : outcome Z := if int_max <? c then Undef else Done c.

Definition mar_rawbyte (x : Z) (m : mar) : outcome mar :=
  c ← (if capa m <=? zlen (data m) then grow (capa m * 2) else Done (capa m));
  if c <=? zlen (data m) then Undef else Done (mkMar (data m ++ [z2b x]) c).

Definition mar_rawbytes (p : bytes) (m : mar) : outcome mar :=
  let n := zlen p in
  if int_max <? n then Undef else
  c ← (if capa m <? zlen (data m) + n
       then grow (if n <? capa m then 2 * capa m else capa m + n) else Done (capa m));
  if c <? zlen (data m) + n then Undef else Done (mkMar (data m ++ p) c).

(** [get_content] and [str]: what follows the header. *)
Definition get_content (m : mar) : bytes := drop 24 (data m).

(** ** The receive buffer *)

Record unm : Type := mkUnm { u_buf : bytes; u_ind : Z; u_ok : bool }.

Definition unm_of (b : bytes) : unm := mkUnm b 0 true.

(** [take_content]: the content behind a header of unspecified bytes. *)
Definition take_content (s : bytes) : unm := mkUnm (replicate 24 Byte.x00 ++ s) RPC_HEADER_SZ true.

(** The byte is returned through a signed [char]. *)
Definition unm_rawbyte (u : unm) : Z * unm :=
  if zlen (u_buf u) <=? u_ind u then (0, mkUnm (u_buf u) (u_ind u) false)
  else
    (wrap32 (sgn 8 (b2z (nth (Z.to_nat (u_ind u)) (u_buf u) Byte.x00))),
     mkUnm (u_buf u) (u_ind u + 1) (u_ok u)).

(** The bound is computed in 32 bits, so a length close to 2^32 passes it and
    the string is built from bytes beyond the buffer. *)
Definition unm_rawbytes (u : unm) (ss : bytes) (n : Z) : outcome (bytes * unm) :=
  if zlen (u_buf u) <? wrap32 (u_ind u + n) then Done (ss, mkUnm (u_buf u) (u_ind u) false)
  else if zlen (u_buf u) <? u_ind u + n then Undef
  else Done (take (Z.to_nat n) (drop (Z.to_nat (u_ind u)) (u_buf u)), mkUnm (u_buf u) (u_ind u + n) (u_ok u)).

Definition okdone (u : unm) : bool := u_ok u && (u_ind u =? zlen (u_buf u)).

(** [take_in]: the buffer of another, read from behind the header. *)
Definition take_in (another : unm) : unm :=
  mkUnm (u_buf another) RPC_HEADER_SZ (RPC_HEADER_SZ <=? zlen (u_buf another)).

(** ** Operators *)

Record codec (A : Type) : Type := mkCodec {
  put : A → mar → outcome mar;
  get : unm → outcome (A * unm);
}.
Arguments mkCodec {_} _ _.
Arguments put {_} _ _ _.
Arguments get {_} _ _.

(** Each operator that reads is a definition of its own; [Arguments] has the
    tactics see through it. *)
Definition get_u8 (u : unm) : outcome (Z * unm) := let '(b, u) := unm_rawbyte u in Done (wrap 8 b, u).
Definition u8 : codec Z := mkCodec (λ x m, mar_rawbyte x m) get_u8.

Definition get_i8 (u : unm) : outcome (Z * unm) := let '(b, u) := unm_rawbyte u in Done (sgn 8 b, u).
Definition i8 : codec Z := mkCodec (λ x m, put u8 (wrap 8 x) m) get_i8.

Definition get_bool (u : unm) : outcome (bool * unm) := let '(b, u) := unm_rawbyte u in Done (negb (b =? 0), u).
Definition bool_ : codec bool := mkCodec (λ (x : bool) m, mar_rawbyte (if x then 1 else 0) m) get_bool.

Definition byte_at (x k : Z) : Z := Z.land (Z.shiftr x k) 255.

Definition put_be16 (x : Z) (m : mar) : outcome mar :=
  m ← mar_rawbyte (byte_at x 8) m; mar_rawbyte (byte_at x 0) m.

Definition get_be16 (u : unm) : Z * unm :=
  let '(a, u) := unm_rawbyte u in let '(b, u) := unm_rawbyte u in
  (Z.lor (Z.shiftl (Z.land a 255) 8) (Z.land b 255), u).

Definition u16 : codec Z := mkCodec put_be16 (λ u, let '(x, u) := get_be16 u in Done (wrap 16 x, u)).
Definition get_i16 (u : unm) : outcome (Z * unm) := let '(x, u) := get_be16 u in Done (sgn 16 x, u).
Definition i16 : codec Z := mkCodec (λ x m, put u16 (wrap 16 x) m) get_i16.

(** Also [marshall::pack] and [unmarshall::unpack]. *)
Definition put_be32 (x : Z) (m : mar) : outcome mar :=
  m ← mar_rawbyte (byte_at x 24) m; m ← mar_rawbyte (byte_at x 16) m;
  m ← mar_rawbyte (byte_at x 8) m; mar_rawbyte (byte_at x 0) m.

Definition get_be32 (u : unm) : Z * unm :=
  let '(a, u) := unm_rawbyte u in let '(b, u) := unm_rawbyte u in
  let '(c, u) := unm_rawbyte u in let '(d, u) := unm_rawbyte u in
  (Z.lor (Z.lor (Z.lor (Z.shiftl (Z.land a 255) 24) (Z.shiftl (Z.land b 255) 16))
     (Z.shiftl (Z.land c 255) 8)) (Z.land d 255), u).

Definition u32 : codec Z := mkCodec put_be32 (λ u, let '(x, u) := get_be32 u in Done (wrap32 x, u)).
Definition get_i32 (u : unm) : outcome (Z * unm) := let '(x, u) := get_be32 u in Done (sgn 32 x, u).
Definition i32 : codec Z := mkCodec (λ x m, put u32 (wrap32 x) m) get_i32.

Definition get_u64 (u : unm) : outcome (Z * unm) :=
  '(h, u) ← get u32 u; '(l, u) ← get u32 u; Done (Z.lor l (Z.shiftl h 32), u).
Definition u64 : codec Z := mkCodec (λ x m, m ← put u32 (Z.shiftr x 32) m; put u32 (wrap32 x) m) get_u64.

Definition get_str (u : unm) : outcome (bytes * unm) :=
  '(n, u) ← get u32 u; if u_ok u then unm_rawbytes u [] n else Done ([], u).
Definition str : codec bytes := mkCodec (λ s m, m ← put u32 (wrap32 (zlen s)) m; mar_rawbytes s m) get_str.

Arguments get_u8 _ /. Arguments get_i8 _ /. Arguments get_bool _ /. Arguments get_i16 _ /.
Arguments get_i32 _ /. Arguments get_u64 _ /. Arguments get_str _ /.

Fixpoint put_all {A} (c : codec A) (l : list A) (m : mar) : outcome mar :=
  match l with [] => Done m | x :: l => m ← put c x m; put_all c l m end.

Fixpoint get_all {A} (c : codec A) (n : nat) (u : unm) : outcome (list A * unm) :=
  match n with
  | O => Done ([], u)
  | S n => '(x, u) ← get c u; '(l, u) ← get_all c n u; Done (x :: l, u)
  end.

(** [std::vector<C>], into an empty vector. *)
Definition vec {A} (c : codec A) : codec (list A) := mkCodec
  (λ v m, m ← put u32 (wrap32 (zlen v)) m; put_all c v m)
  (λ u, '(n, u) ← get u32 u; get_all c (Z.to_nat n) u).

Definition pair_ {A B} (a : codec A) (b : codec B) : codec (A * B) := mkCodec
  (λ p m, m ← put a p.1 m; put b p.2 m)
  (λ u, '(x, u) ← get a u; '(y, u) ← get b u; Done ((x, y), u)).

(** [std::map<A, B>]: the entries in key order; reading assigns them. *)
Definition map_ {A B} `{Less A} (a : codec A) (b : codec B) : codec (list (A * B)) := mkCodec
  (λ d m, m ← put u32 (wrap32 (zlen d)) m; put_all (pair_ a b) d m)
  (λ u, '(n, u) ← get u32 u; '(l, u) ← get_all (pair_ a b) (Z.to_nat n) u;
        Done (foldl (λ d p, om_assign p.1 p.2 d) [] l, u)).

(** The operators of extent_protocol.h and info_collector.cc. *)
Definition attr_ : codec attr := mkCodec
  (λ a m, m ← put u32 (atime a) m; m ← put u32 (mtime a) m; m ← put u32 (ctime a) m; put u32 (size a) m)
  (λ u, '(x, u) ← get u32 u; '(y, u) ← get u32 u; '(z, u) ← get u32 u; '(w, u) ← get u32 u;
        Done (mkAttr x y z w, u)).

Definition server_info : codec InfoCollector.ServerInfo := mkCodec
  (λ i m, m ← put (vec u64) (InfoCollector.inum i) m; m ← put (vec u64) (InfoCollector.sz i) m;
          put (vec i32) (InfoCollector.type i) m)
  (λ u, '(x, u) ← get (vec u64) u; '(y, u) ← get (vec u64) u; '(z, u) ← get (vec i32) u;
        Done (InfoCollector.mkInfo x y z, u)).

(** [InfoCollector::KVInfo]: an address and a size. *)
Record kv_info : Type := mkKVInfo { kv_addr : bytes; kv_sz : Z }.
Definition kv_info_ : codec kv_info := mkCodec
  (λ i m, m ← put str (kv_addr i) m; put u64 (kv_sz i) m)
  (λ u, '(x, u) ← get str u; '(y, u) ← get u64 u; Done (mkKVInfo x y, u)).

(** ** Headers *)

Record req_header : Type := mkReq { xid : Z; proc : Z; clt_nonce : Z; srv_nonce : Z; xid_rep : Z }.
Record reply_header : Type := mkRep { r_xid : Z; r_ret : Z }.

(** Writing words from the fifth byte on; the end of the data stays. *)
Definition pack_words (ws : list Z) (m : mar) : outcome mar :=
  h ← put_all (mkCodec put_be32 (get u32)) ws (mkMar (take 4 (data m)) (capa m));
  Done (mkMar (data h ++ drop (length (data h)) (data m)) (capa m)).

Definition pack_req_header (h : req_header) (m : mar) : outcome mar :=
  pack_words [xid h; proc h; clt_nonce h; srv_nonce h; xid_rep h] m.
Definition pack_reply_header (h : reply_header) (m : mar) : outcome mar :=
  pack_words [r_xid h; r_ret h] m.

Definition unpack_req_header (u : unm) : req_header * unm :=
  let u := mkUnm (u_buf u) 4 (u_ok u) in
  let '(a, u) := get_be32 u in let '(b, u) := get_be32 u in let '(c, u) := get_be32 u in
  let '(d, u) := get_be32 u in let '(e, u) := get_be32 u in
  (mkReq (sgn 32 a) (sgn 32 b) (wrap32 c) (wrap32 d) (sgn 32 e),
   mkUnm (u_buf u) RPC_HEADER_SZ (u_ok u)).

Definition unpack_reply_header (u : unm) : reply_header * unm :=
  let u := mkUnm (u_buf u) 4 (u_ok u) in
  let '(a, u) := get_be32 u in let '(b, u) := get_be32 u in
  (mkRep (sgn 32 a) (sgn 32 b), mkUnm (u_buf u) RPC_HEADER_SZ (u_ok u)).

Example marshall_ex :
  (m ← put (pair_ str (vec u64)) (bs "abc", [1; 2 ^ 40]) mar_new;
   get (pair_ str (vec u64)) (take_content (get_content m))) =
  Done ((bs "abc", [1; 2 ^ 40]), mkUnm (replicate 24 Byte.x00 ++
    (z2b <$> [0;0;0;3;97;98;99;0;0;0;2;0;0;0;0;0;0;0;1;0;0;1;0;0;0;0;0])) 51 true).
Proof. vm_compute. reflexivity. Qed.

(** ** Big-endian words *)

Definition be16_bytes (x : Z) : bytes := [z2b (byte_at x 8); z2b (byte_at x 0)].
Definition be32_bytes (x : Z) : bytes :=
  [z2b (byte_at x 24); z2b (byte_at x 16); z2b (byte_at x 8); z2b (byte_at x 0)].

Lemma lor_add k x y : 0 ≤ k → x mod 2 ^ k = 0 → 0 ≤ y < 2 ^ k → Z.lor x y = x + y.
Proof.
  intros Hk Hx Hy. assert (Z.land x y = 0) as Hl.
  { apply Z.bits_inj'. intros n Hn. rewrite Z.land_spec, Z.bits_0.
    destruct (Z.ltb_spec n k) as [Hlt|Hge].
    - assert (Z.testbit (x mod 2 ^ k) n = Z.testbit x n) as <- by (by apply Z.mod_pow2_bits_low).
      by rewrite Hx, Z.bits_0.
    - rewrite <- (Z.mod_small y (2 ^ k)) by lia. rewrite Z.mod_pow2_bits_high by lia. apply andb_false_r. }
  rewrite Z.add_nocarry_lxor by done. symmetry. by apply Z.lxor_lor.
Qed.

Lemma byte_at_val x k : 0 ≤ k → byte_at x k = x / 2 ^ k mod 256.
Proof.
  intros Hk. unfold byte_at. rewrite Z.shiftr_div_pow2 by done.
  change 255 with (Z.ones 8). by rewrite Z.land_ones.
Qed.

Lemma byte_at_range x k : 0 ≤ k → 0 ≤ byte_at x k < 256.
Proof. intros Hk. rewrite byte_at_val by done. apply Z.mod_pos_bound. lia. Qed.

Lemma land_sgn8 b : 0 ≤ b < 256 → Z.land (wrap32 (sgn 8 b)) 255 = b.
Proof.
  intros Hb. change 255 with (Z.ones 8). rewrite Z.land_ones by lia. unfold wrap, sgn, wrap.
  change (2 ^ 8) with 256. rewrite (Z.mod_small b 256) by lia. change (2 ^ (8 - 1)) with 128.
  case_test; rewrite Z.mod_mod_divide by (by exists (2 ^ 24)).
  - by apply Z.mod_small.
  - replace (b - 256) with (b + (-1) * 256) by lia. rewrite Z.mod_add by lia. by apply Z.mod_small.
Qed.

Lemma be32_val x : 0 ≤ x < 2 ^ 32 →
  Z.lor (Z.lor (Z.lor (Z.shiftl (byte_at x 24) 24) (Z.shiftl (byte_at x 16) 16))
     (Z.shiftl (byte_at x 8) 8)) (byte_at x 0) = x.
Proof.
  intros Hx. rewrite !Z.shiftl_mul_pow2 by lia.
  pose proof (byte_at_range x 24). pose proof (byte_at_range x 16).
  pose proof (byte_at_range x 8). pose proof (byte_at_range x 0).
  assert (∀ a k, 0 ≤ k → a * 2 ^ k mod 2 ^ k = 0) as Hm by (intros; apply Z.mod_mul; lia).
  rewrite (lor_add 24 (byte_at x 24 * 2 ^ 24) (byte_at x 16 * 2 ^ 16)) by (lia || by apply Hm).
  rewrite (lor_add 16 _ (byte_at x 8 * 2 ^ 8)), (lor_add 8); try lia.
  - rewrite !byte_at_val by lia. Z.to_euclidean_division_equations. lia.
  - rewrite <- (Hm (byte_at x 24 * 2 ^ 16 + byte_at x 16 * 2 ^ 8 + byte_at x 8) 8) by lia. f_equal. lia.
  - rewrite <- (Hm (byte_at x 24 * 2 ^ 8 + byte_at x 16) 16) by lia. f_equal. lia.
Qed.

Lemma be16_val x : 0 ≤ x < 2 ^ 16 → Z.lor (Z.shiftl (byte_at x 8) 8) (byte_at x 0) = x.
Proof.
  intros Hx. rewrite !Z.shiftl_mul_pow2 by lia.
  pose proof (byte_at_range x 8). pose proof (byte_at_range x 0).
  rewrite (lor_add 8); try lia; [|by apply Z.mod_mul].
  rewrite !byte_at_val by lia. Z.to_euclidean_division_equations. lia.
Qed.

(** ** The contract of a codec

    Writing appends the encoding and never overruns the buffer; reading at the
    start of an encoding gives the value back and stops behind it. *)

Definition mar_ok (m : mar) : Prop :=
  zlen (data m) ≤ capa m ∧ DEFAULT_RPC_SZ ≤ capa m ≤ Z.max DEFAULT_RPC_SZ (2 * zlen (data m)).

Definition size_max : Z := 2 ^ 30.

Definition appended (m : mar) (e : bytes) (o : outcome mar) : Prop :=
  ∃ c, o = Done (mkMar (data m ++ e) c) ∧ mar_ok (mkMar (data m ++ e) c).

Class CodecLaws {A} (c : codec A) : Type := {
  enc : A → bytes;
  wf : A → Prop;
  put_law x m : wf x → mar_ok m → zlen (data m) + zlen (enc x) < size_max → appended m (enc x) (put c x m);
  get_law x a b : wf x → zlen (a ++ enc x ++ b) < 2 ^ 31 →
    get c (mkUnm (a ++ enc x ++ b) (zlen a) true) =
      Done (x, mkUnm (a ++ enc x ++ b) (zlen a + zlen (enc x)) true);
}.
Arguments enc {_} _ {_} _.
Arguments wf {_} _ {_} _.

Lemma mar_rawbyte_ok x m :
  mar_ok m → zlen (data m) + 1 < size_max → appended m [z2b x] (mar_rawbyte x m).
Proof.
  unfold appended, mar_ok, mar_rawbyte, grow, size_max, int_max, DEFAULT_RPC_SZ. intros Hm Hsz.
  destruct (Z.leb_spec (capa m) (zlen (data m))).
  - test_false. rewrite bind_Done; cbv beta. test_false. eexists. split; [done|].
    cbn [data capa]. rewrite length_app. cbn [length]. lia.
  - rewrite bind_Done; cbv beta. test_false. eexists. split; [done|].
    cbn [data capa]. rewrite length_app. cbn [length]. lia.
Qed.

Lemma mar_rawbytes_ok p m :
  mar_ok m → zlen (data m) + zlen p < size_max → appended m p (mar_rawbytes p m).
Proof.
  unfold appended, mar_ok, mar_rawbytes, grow, size_max, int_max, DEFAULT_RPC_SZ. intros Hm Hsz.
  test_false. destruct (Z.ltb_spec (capa m) (zlen (data m) + zlen p)).
  - destruct (Z.ltb_spec (zlen p) (capa m)); test_false; rewrite bind_Done; cbv beta; test_false;
      eexists; (split; [done|]); cbn [data capa]; rewrite length_app; lia.
  - rewrite bind_Done; cbv beta. test_false. eexists. split; [done|].
    cbn [data capa]. rewrite length_app. lia.
Qed.

(** Sequencing two writes. *)
Lemma appended_bind m e1 e2 o f :
  appended m e1 o → (∀ m', data m' = data m ++ e1 → mar_ok m' → appended m' e2 (f m')) →
  appended m (e1 ++ e2) (o ≫= f).
Proof.
  intros (c & -> & Hm) Hf. rewrite bind_Done.
  destruct (Hf (mkMar (data m ++ e1) c) eq_refl Hm) as (c2 & -> & Hm2). cbn [data] in *. rewrite <- app_assoc in *. by exists c2.
Qed.

(** Reading a byte in the middle of a buffer. *)
Lemma unm_rawbyte_at a b c ok :
  unm_rawbyte (mkUnm (a ++ b :: c) (zlen a) ok) =
    (wrap32 (sgn 8 (b2z b)), mkUnm (a ++ b :: c) (zlen a + 1) ok).
Proof.
  unfold unm_rawbyte. cbn [u_buf u_ind u_ok]. rewrite length_app. cbn [length]. test_false.
  do 2 f_equal. rewrite Nat2Z.id, nth_middle. done.
Qed.

Lemma b2z_byte_at x k : 0 ≤ k → b2z (z2b (byte_at x k)) = byte_at x k.
Proof. intros Hk. rewrite b2z_z2b. apply Z.mod_small. by apply byte_at_range. Qed.

Lemma land_byte_at x k : 0 ≤ k → Z.land (wrap32 (sgn 8 (b2z (z2b (byte_at x k))))) 255 = byte_at x k.
Proof. intros Hk. rewrite b2z_byte_at by done. apply land_sgn8. by apply byte_at_range. Qed.

Lemma put_be32_ok x m :
  mar_ok m → zlen (data m) + 4 < size_max → appended m (be32_bytes x) (put_be32 x m).
Proof.
  intros Hm Hsz. unfold put_be32, be32_bytes.
  change [z2b (byte_at x 24); z2b (byte_at x 16); z2b (byte_at x 8); z2b (byte_at x 0)] with
    ([z2b (byte_at x 24)] ++ [z2b (byte_at x 16)] ++ [z2b (byte_at x 8)] ++ [z2b (byte_at x 0)]).
  apply appended_bind; [apply mar_rawbyte_ok; [done|lia]|]. intros m1 E1 Hm1.
  apply appended_bind; [apply mar_rawbyte_ok; [done|rewrite E1, length_app; cbn; lia]|]. intros m2 E2 Hm2.
  apply appended_bind; [apply mar_rawbyte_ok; [done|rewrite E2, E1, !length_app; cbn; lia]|]. intros m3 E3 Hm3.
  apply mar_rawbyte_ok; [done|]. rewrite E3, E2, E1, !length_app; cbn; lia.
Qed.

Lemma get_be32_ok x a b ok :
  0 ≤ x < 2 ^ 32 →
  get_be32 (mkUnm (a ++ be32_bytes x ++ b) (zlen a) ok) =
    (x, mkUnm (a ++ be32_bytes x ++ b) (zlen a + 4) ok).
Proof.
  intros Hx. unfold get_be32, be32_bytes.
  set (b3 := z2b (byte_at x 24)). set (b2 := z2b (byte_at x 16)).
  set (b1 := z2b (byte_at x 8)). set (b0 := z2b (byte_at x 0)). cbn [app].
  set (buf := a ++ b3 :: b2 :: b1 :: b0 :: b).
  assert (∀ pre y post i, buf = pre ++ y :: post → i = zlen pre →
    unm_rawbyte (mkUnm buf i ok) = (wrap32 (sgn 8 (b2z y)), mkUnm buf (i + 1) ok)) as Hb.
  { intros pre y post i -> ->. apply unm_rawbyte_at. }
  rewrite (Hb a b3 (b2 :: b1 :: b0 :: b)) by done.
  rewrite (Hb (a ++ [b3]) b2 (b1 :: b0 :: b)) by (unfold buf; rewrite <- ?app_assoc, ?length_app; cbn; (done || lia)).
  rewrite (Hb (a ++ [b3; b2]) b1 (b0 :: b)) by (unfold buf; rewrite <- ?app_assoc, ?length_app; cbn; (done || lia)).
  rewrite (Hb (a ++ [b3; b2; b1]) b0 b) by (unfold buf; rewrite <- ?app_assoc, ?length_app; cbn; (done || lia)).
  unfold b3, b2, b1, b0. rewrite !land_byte_at, be32_val by lia. do 2 f_equal. lia.
Qed.

Lemma length_be32 x : zlen (be32_bytes x) = 4.
Proof. done. Qed.

#[export] Program Instance u32_laws : CodecLaws u32 := {|
  enc x := be32_bytes x; wf x := 0 ≤ x < 2 ^ 32 |}.
Next Obligation. intros x m Hx Hm Hsz; cbv beta in *. by apply put_be32_ok. Qed.
Next Obligation.
  intros x a b Hx Hsz; cbv beta in *. cbn [get u32]. rewrite get_be32_ok by done. by rewrite (wrap_small 32 x) by lia.
Qed.

Lemma get_u8_ok x a b :
  0 ≤ x < 256 →
  unm_rawbyte (mkUnm (a ++ [z2b x] ++ b) (zlen a) true) =
    (wrap32 (sgn 8 x), mkUnm (a ++ [z2b x] ++ b) (zlen a + 1) true).
Proof. intros Hx. cbn [app]. rewrite unm_rawbyte_at, b2z_z2b, Z.mod_small by lia. done. Qed.

Lemma wrap_wrap_sgn v w x : 0 ≤ v → 0 < w ≤ v → wrap w (wrap v (sgn w x)) = wrap w x.
Proof.
  intros Hv Hw. unfold wrap. rewrite Z.mod_mod_divide by (exists (2 ^ (v - w)); rewrite <- Z.pow_add_r by lia; f_equal; lia).
  unfold sgn, wrap. case_test; [by apply Z.mod_mod; lia|].
  rewrite <- (Z_mod_plus_full (x mod 2 ^ w - 2 ^ w) 1). rewrite Z.mul_1_l, Z.sub_add. apply Z.mod_mod. lia.
Qed.

Lemma sgn_range w x : 0 < w → - 2 ^ (w - 1) ≤ sgn w x < 2 ^ (w - 1).
Proof.
  intros Hw. unfold sgn. pose proof (wrap_range w x ltac:(lia)) as Hr. unfold wrap in Hr.
  assert (2 ^ w = 2 * 2 ^ (w - 1)) by (rewrite <- Z.pow_succ_r by lia; f_equal; lia).
  case_test; lia.
Qed.

#[export] Program Instance u8_laws : CodecLaws u8 := {| enc x := [z2b x]; wf x := 0 ≤ x < 256 |}.
Next Obligation. intros x m Hx Hm Hsz; cbv beta in *. by apply mar_rawbyte_ok. Qed.
Next Obligation.
  intros x a b Hx Hsz; cbv beta in *. cbn [get u8 get_u8]. rewrite get_u8_ok by done.
  by rewrite wrap_wrap_sgn, (wrap_small 8 x) by lia.
Qed.

#[export] Program Instance i8_laws : CodecLaws i8 := {|
  enc x := [z2b (wrap 8 x)]; wf x := -128 ≤ x < 128 |}.
Next Obligation. intros x m Hx Hm Hsz; cbv beta in *. by apply mar_rawbyte_ok. Qed.
Next Obligation.
  intros x a b Hx Hsz; cbv beta in *. cbn [get i8 get_i8]. pose proof (wrap_range 8 x).
  rewrite get_u8_ok by lia. do 3 f_equal. transitivity (sgn 8 x); [|apply sgn_wrap; lia].
  apply sgn_mod. pose proof (wrap_wrap_sgn 32 8 (wrap 8 x)) as Hw. unfold wrap in *.
  rewrite Hw by lia. by apply Z.mod_mod.
Qed.

#[export] Program Instance bool_laws : CodecLaws bool_ := {|
  enc x := [z2b (if x : bool then 1 else 0)]; wf _ := True |}.
Next Obligation. intros x m Hx Hm Hsz; cbv beta in *. by apply mar_rawbyte_ok. Qed.
Next Obligation.
  intros x a b Hx Hsz; cbv beta in *. cbn [get bool_ get_bool]. rewrite get_u8_ok by (destruct x; lia). by destruct x.
Qed.

Lemma put_be16_ok x m :
  mar_ok m → zlen (data m) + 2 < size_max → appended m (be16_bytes x) (put_be16 x m).
Proof.
  intros Hm Hsz. change (be16_bytes x) with ([z2b (byte_at x 8)] ++ [z2b (byte_at x 0)]).
  apply appended_bind; [apply mar_rawbyte_ok; [done|lia]|]. intros m1 E1 Hm1.
  apply mar_rawbyte_ok; [done|]. rewrite E1, !length_app; cbn; lia.
Qed.

Lemma get_be16_ok x a b :
  0 ≤ x < 2 ^ 16 →
  get_be16 (mkUnm (a ++ be16_bytes x ++ b) (zlen a) true) =
    (x, mkUnm (a ++ be16_bytes x ++ b) (zlen a + 2) true).
Proof.
  intros Hx. unfold get_be16, be16_bytes. cbn [app]. rewrite unm_rawbyte_at.
  pose proof (unm_rawbyte_at (a ++ [z2b (byte_at x 8)]) (z2b (byte_at x 0)) b true) as H0.
  rewrite <- app_assoc, length_app in H0. cbn [app length] in H0.
  replace (zlen a + 1) with (Z.of_nat (length a + 1)) by lia. rewrite H0.
  rewrite !land_byte_at, be16_val by lia. do 2 f_equal. lia.
Qed.

#[export] Program Instance u16_laws : CodecLaws u16 := {|
  enc x := be16_bytes x; wf x := 0 ≤ x < 2 ^ 16 |}.
Next Obligation. intros x m Hx Hm Hsz; cbv beta in *. by apply put_be16_ok. Qed.
Next Obligation.
  intros x a b Hx Hsz; cbv beta in *. cbn [get u16]. rewrite get_be16_ok by done. by rewrite (wrap_small 16 x) by lia.
Qed.

#[export] Program Instance i16_laws : CodecLaws i16 := {|
  enc x := be16_bytes (wrap 16 x); wf x := - 2 ^ 15 ≤ x < 2 ^ 15 |}.
Next Obligation. intros x m Hx Hm Hsz; cbv beta in *. by apply put_be16_ok. Qed.
Next Obligation.
  intros x a b Hx Hsz; cbv beta in *. cbn [get i16 get_i16]. pose proof (wrap_range 16 x).
  rewrite get_be16_ok by lia. do 3 f_equal. transitivity (sgn 16 x); [|apply sgn_wrap; lia].
  apply sgn_mod. by apply Z.mod_mod.
Qed.

#[export] Program Instance i32_laws : CodecLaws i32 := {|
  enc x := be32_bytes (wrap32 x); wf x := - 2 ^ 31 ≤ x < 2 ^ 31 |}.
Next Obligation. intros x m Hx Hm Hsz; cbv beta in *. by apply put_be32_ok. Qed.
Next Obligation.
  intros x a b Hx Hsz; cbv beta in *. cbn [get i32 get_i32]. pose proof (wrap_range 32 x).
  rewrite get_be32_ok by lia. do 3 f_equal. transitivity (sgn 32 x); [|apply sgn_wrap; lia].
  apply sgn_mod. by apply Z.mod_mod.
Qed.

(** Sequencing two reads: the second value follows the first. *)
Lemma get_then {A B} (c : codec A) `{!CodecLaws c} (x : A) (e : bytes) a b (f : A → unm → outcome B) r :
  wf c x → zlen (a ++ (enc c x ++ e) ++ b) < 2 ^ 31 →
  f x (mkUnm ((a ++ enc c x) ++ e ++ b) (zlen (a ++ enc c x)) true) = r →
  ('(x, u) ← get c (mkUnm (a ++ (enc c x ++ e) ++ b) (zlen a) true); f x u) = r.
Proof.
  intros Hx Hsz <-. rewrite <- app_assoc in Hsz |- *. rewrite get_law, bind_Done by done.
  rewrite <- !app_assoc, length_app. do 2 f_equal. lia.
Qed.

Lemma put_then {A} (c : codec A) `{!CodecLaws c} (x : A) (e : bytes) m f :
  wf c x → mar_ok m → zlen (data m) + zlen (enc c x ++ e) < size_max →
  (∀ m', mar_ok m' → zlen (data m') + zlen e < size_max → appended m' e (f m')) →
  appended m (enc c x ++ e) (m' ← put c x m; f m').
Proof.
  intros Hx Hm Hsz Hf. rewrite length_app in Hsz.
  apply appended_bind; [apply put_law; [done|done|lia]|]. intros m' E Hm'.
  apply Hf; [done|]. rewrite E, length_app. lia.
Qed.

Ltac put_step c x e :=
  match goal with |- appended ?m _ (_ ≫= ?f) => refine (put_then c x e m f _ _ _ _) end.
Ltac get_step c x e :=
  match goal with
  | |- (get _ (mkUnm (?a ++ _ ++ ?b) _ _) ≫= _) = ?r => refine (get_then c x e a b _ r _ _ _)
  end.

#[export] Program Instance pair_laws {A B} (c : codec A) (d : codec B) `{!CodecLaws c, !CodecLaws d} :
  CodecLaws (pair_ c d) := {| enc p := enc c p.1 ++ enc d p.2; wf p := wf c p.1 ∧ wf d p.2 |}.
Next Obligation.
  intros A B c d Hc Hd [x y] m [Hx Hy] Hm Hsz; cbv beta in *. cbn [put pair_ fst snd] in *.
  put_step c x (enc d y); try done. intros m' Hm' Hsz'. by apply put_law.
Qed.
Next Obligation.
  intros A B c d Hc Hd [x y] a b [Hx Hy] Hsz; cbv beta in *. cbn [get pair_ fst snd] in *.
  get_step c x (enc d y); try done. rewrite get_law, bind_Done.
  - rewrite <- !app_assoc, !length_app. do 2 f_equal. f_equal. lia.
  - done.
  - rewrite !length_app in *. lia.
Qed.

Definition enc_all {A} (c : codec A) `{!CodecLaws c} (l : list A) : bytes := concat (enc c <$> l).

Lemma put_all_ok {A} (c : codec A) `{!CodecLaws c} l : ∀ m,
  Forall (wf c) l → mar_ok m → zlen (data m) + zlen (enc_all c l) < size_max →
  appended m (enc_all c l) (put_all c l m).
Proof.
  induction l as [|x l IH]; intros m Hl Hm Hsz.
  - exists (capa m). cbn. rewrite app_nil_r. by destruct m.
  - apply Forall_cons in Hl as [Hx Hl]. change (enc_all c (x :: l)) with (enc c x ++ enc_all c l) in *.
    cbn [put_all]. put_step c x (enc_all c l); try done. intros m' Hm' Hsz'. by apply IH.
Qed.

Lemma get_all_ok {A} (c : codec A) `{!CodecLaws c} l : ∀ a b,
  Forall (wf c) l → zlen (a ++ enc_all c l ++ b) < 2 ^ 31 →
  get_all c (length l) (mkUnm (a ++ enc_all c l ++ b) (zlen a) true) =
    Done (l, mkUnm (a ++ enc_all c l ++ b) (zlen a + zlen (enc_all c l)) true).
Proof.
  induction l as [|x l IH]; intros a b Hl Hsz.
  - cbn. by rewrite Z.add_0_r.
  - apply Forall_cons in Hl as [Hx Hl]. change (enc_all c (x :: l)) with (enc c x ++ enc_all c l) in *.
    cbn [get_all length]. get_step c x (enc_all c l); [done|done|]. rewrite IH, bind_Done.
    + rewrite <- !app_assoc, !length_app. do 3 f_equal. lia.
    + done.
    + rewrite !length_app in *. lia.
Qed.

#[export] Program Instance u64_laws : CodecLaws u64 := {|
  enc x := be32_bytes (x / 2 ^ 32) ++ be32_bytes (wrap32 x); wf x := 0 ≤ x < 2 ^ 64 |}.
Next Obligation.
  intros x m Hx Hm Hsz; cbv beta in *. cbn [put u64]. rewrite Z.shiftr_div_pow2 by lia.
  put_step u32 (x / 2 ^ 32) (be32_bytes (wrap32 x)); [|done|done|].
  - cbn. Z.to_euclidean_division_equations. lia.
  - intros m' Hm' Hsz'. by apply put_be32_ok.
Qed.
Next Obligation.
  intros x a b Hx Hsz; cbv beta in *. cbn [get u64 get_u64].
  assert (0 ≤ x / 2 ^ 32 < 2 ^ 32) as Hd by (Z.to_euclidean_division_equations; lia).
  pose proof (wrap_range 32 x) as Hw.
  get_step u32 (x / 2 ^ 32) (be32_bytes (wrap32 x)); [done|done|].
  change (be32_bytes (wrap32 x)) with (enc u32 (wrap32 x)). rewrite get_law, bind_Done.
  - rewrite Z.shiftl_mul_pow2, Z.lor_comm, (lor_add 32) by (try apply Z.mod_mul; lia).
    cbn [enc u32_laws]. rewrite <- !app_assoc, !length_app. do 2 f_equal.
    + unfold wrap. pose proof (Z.div_mod x (2 ^ 32)). lia.
    + f_equal. lia.
  - apply Hw. lia.
  - cbn [enc u32_laws] in *. rewrite !length_app in *. lia.
Qed.

#[export] Program Instance str_laws : CodecLaws str := {|
  enc s := be32_bytes (zlen s) ++ s; wf s := zlen s < 2 ^ 31 |}.
Next Obligation.
  intros s m Hs Hm Hsz; cbv beta in *. cbn [put str]. rewrite (wrap_small 32 (zlen s)) by lia.
  put_step u32 (zlen s) s; [cbn; lia|done|done|]. intros m' Hm' Hsz'. by apply mar_rawbytes_ok.
Qed.
Next Obligation.
  intros s a b Hs Hsz; cbv beta in *. cbn [get str get_str].
  get_step u32 (zlen s) s; [cbn; lia|done|]. cbn [u_ok enc u32_laws].
  assert (zlen (be32_bytes (zlen s)) = 4) as H4 by done.
  rewrite !length_app in Hsz. unfold unm_rawbytes. cbn [u_buf u_ind u_ok]. rewrite !length_app.
  rewrite (wrap_small 32 (Z.of_nat _ + _)) by lia. test_false.
  rewrite !Nat2Z.id, <- length_app, drop_app_length, take_app_length, <- !app_assoc. do 2 f_equal.
  rewrite !length_app. f_equal. lia.
Qed.

#[export] Program Instance vec_laws {A} (c : codec A) `{!CodecLaws c} : CodecLaws (vec c) := {|
  enc v := be32_bytes (zlen v) ++ enc_all c v; wf v := zlen v < 2 ^ 32 ∧ Forall (wf c) v |}.
Next Obligation.
  intros A c Hc v m [Hn Hv] Hm Hsz; cbv beta in *. cbn [put vec]. rewrite (wrap_small 32 (zlen v)) by lia.
  put_step u32 (zlen v) (enc_all c v); [cbn; lia|done|done|]. intros m' Hm' Hsz'. by apply put_all_ok.
Qed.
Next Obligation.
  intros A c Hc v a b [Hn Hv] Hsz; cbv beta in *. cbn [get vec].
  get_step u32 (zlen v) (enc_all c v); [cbn; lia|done|]. cbn [enc u32_laws].
  rewrite Nat2Z.id, get_all_ok.
  - rewrite <- !app_assoc, !length_app. do 3 f_equal. lia.
  - done.
  - rewrite !length_app in *. lia.
Qed.

(** Assigning the entries of an ordered map in order rebuilds it. *)
Lemma assign_all_ordered {A B} `{LessLaws A} (d : list (A * B)) : ∀ d0,
  ordered (d0 ++ d) → foldl (λ d p, om_assign p.1 p.2 d) d0 d = d0 ++ d.
Proof.
  assert (∀ (d0 : list (A * B)) k v, ordered (d0 ++ [(k, v)]) → om_assign k v d0 = d0 ++ [(k, v)]) as Hone.
  { intros d0 k v. induction d0 as [|[k' v'] d0 IH]; cbn; [done|].
    intros [Ho Hf]%StronglySorted_inv. rewrite Forall_forall in Hf.
    assert (less k' k = true) as -> by (apply (Hf (k, v)); set_solver). by rewrite IH. }
  induction d as [|[k v] d IH]; intros d0 Ho; cbn [foldl fst snd]; [by rewrite app_nil_r|].
  rewrite Hone.
  - rewrite IH; by rewrite <- app_assoc.
  - change ((k, v) :: d) with ([(k, v)] ++ d) in Ho. rewrite app_assoc in Ho. clear -Ho.
    induction (d0 ++ [(k, v)]) as [|q l IH]; [constructor|]. cbn in Ho.
    apply StronglySorted_inv in Ho as [Ho Hf]. constructor; [by apply IH|].
    by apply Forall_app in Hf as [? _].
Qed.

#[export] Program Instance map_laws {A B} `{LessLaws A} (c : codec A) (d : codec B)
    `{!CodecLaws c, !CodecLaws d} : CodecLaws (map_ c d) := {|
  enc v := be32_bytes (zlen v) ++ enc_all (pair_ c d) v;
  wf v := zlen v < 2 ^ 32 ∧ Forall (wf (pair_ c d)) v ∧ ordered v |}.
Next Obligation.
  intros A B ? ? c d Hc Hd v m (Hn & Hv & Ho) Hm Hsz; cbv beta in *. cbn [put map_].
  rewrite (wrap_small 32 (zlen v)) by lia.
  put_step u32 (zlen v) (enc_all (pair_ c d) v); [cbn; lia|done|done|].
  intros m' Hm' Hsz'. by apply (put_all_ok (pair_ c d)).
Qed.
Next Obligation.
  intros A B ? ? c d Hc Hd v a b (Hn & Hv & Ho) Hsz; cbv beta in *. cbn [get map_].
  get_step u32 (zlen v) (enc_all (pair_ c d) v); [cbn; lia|done|]. cbn [enc u32_laws].
  rewrite Nat2Z.id, get_all_ok, bind_Done.
  - rewrite (assign_all_ordered v []) by done.
    rewrite <- !app_assoc, !length_app. do 3 f_equal. lia.
  - done.
  - rewrite !length_app in *. lia.
Qed.

#[export] Program Instance attr_laws : CodecLaws attr_ := {|
  enc a := enc u32 (atime a) ++ enc u32 (mtime a) ++ enc u32 (ctime a) ++ enc u32 (size a);
  wf a := wf u32 (atime a) ∧ wf u32 (mtime a) ∧ wf u32 (ctime a) ∧ wf u32 (size a) |}.
Next Obligation.
  intros [x y z w] m (Hx & Hy & Hz & Hw) Hm Hsz; cbv beta in *.
  cbn [put attr_ atime mtime ctime size] in *.
  put_step u32 x (enc u32 y ++ enc u32 z ++ enc u32 w); [done..|]. intros m1 Hm1 H1.
  put_step u32 y (enc u32 z ++ enc u32 w); [done..|]. intros m2 Hm2 H2.
  put_step u32 z (enc u32 w); [done..|]. intros m3 Hm3 H3. by apply put_law.
Qed.
Next Obligation.
  intros [x y z w] a b (Hx & Hy & Hz & Hw) Hsz; cbv beta in *.
  cbn [get attr_ atime mtime ctime size] in *. rewrite !length_app in Hsz.
  get_step u32 x (enc u32 y ++ enc u32 z ++ enc u32 w); [done|rewrite !length_app; lia|].
  get_step u32 y (enc u32 z ++ enc u32 w); [done|rewrite !length_app; lia|].
  get_step u32 z (enc u32 w); [done|rewrite !length_app; lia|].
  rewrite get_law, bind_Done; [|done|rewrite !length_app; lia].
  rewrite <- !app_assoc, !length_app. do 3 f_equal. lia.
Qed.

#[export] Program Instance server_info_laws : CodecLaws server_info := {|
  enc i := enc (vec u64) (InfoCollector.inum i) ++ enc (vec u64) (InfoCollector.sz i) ++
           enc (vec i32) (InfoCollector.type i);
  wf i := wf (vec u64) (InfoCollector.inum i) ∧ wf (vec u64) (InfoCollector.sz i) ∧
          wf (vec i32) (InfoCollector.type i) |}.
Next Obligation.
  intros [x y z] m (Hx & Hy & Hz) Hm Hsz; cbv beta in *.
  cbn [put server_info InfoCollector.inum InfoCollector.sz InfoCollector.type] in *.
  put_step (vec u64) x (enc (vec u64) y ++ enc (vec i32) z); [done..|]. intros m1 Hm1 H1.
  put_step (vec u64) y (enc (vec i32) z); [done..|]. intros m2 Hm2 H2. by apply put_law.
Qed.
Next Obligation.
  intros [x y z] a b (Hx & Hy & Hz) Hsz; cbv beta in *.
  cbn [get server_info InfoCollector.inum InfoCollector.sz InfoCollector.type] in *. rewrite !length_app in Hsz.
  get_step (vec u64) x (enc (vec u64) y ++ enc (vec i32) z); [done|rewrite !length_app; lia|].
  get_step (vec u64) y (enc (vec i32) z); [done|rewrite !length_app; lia|].
  rewrite get_law, bind_Done; [|done|rewrite !length_app; lia].
  rewrite <- !app_assoc, !length_app. do 3 f_equal. lia.
Qed.

#[export] Program Instance kv_info_laws : CodecLaws kv_info_ := {|
  enc i := enc str (kv_addr i) ++ enc u64 (kv_sz i); wf i := wf str (kv_addr i) ∧ wf u64 (kv_sz i) |}.
Next Obligation.
  intros [x y] m (Hx & Hy) Hm Hsz; cbv beta in *. cbn [put kv_info_ kv_addr kv_sz] in *.
  put_step str x (enc u64 y); [done..|]. intros m1 Hm1 H1. by apply put_law.
Qed.
Next Obligation.
  intros [x y] a b (Hx & Hy) Hsz; cbv beta in *. cbn [get kv_info_ kv_addr kv_sz] in *. rewrite !length_app in Hsz.
  get_step str x (enc u64 y); [done|rewrite !length_app; lia|].
  rewrite get_law, bind_Done; [|done|rewrite !length_app; lia].
  rewrite <- !app_assoc, !length_app. do 3 f_equal. lia.
Qed.

(** ** Headers *)

Lemma rawbyte_room x m :
  zlen (data m) < capa m → mar_rawbyte x m = Done (mkMar (data m ++ [z2b x]) (capa m)).
Proof. intros H. unfold mar_rawbyte. test_false. rewrite bind_Done. by test_false. Qed.

Lemma be32_room x m :
  zlen (data m) + 4 ≤ capa m → put_be32 x m = Done (mkMar (data m ++ be32_bytes x) (capa m)).
Proof.
  intros H. unfold put_be32.
  rewrite rawbyte_room, bind_Done by lia.
  do 3 (rewrite rawbyte_room; [|cbn [data capa]; rewrite !length_app; cbn [length]; lia]; rewrite ?bind_Done).
  cbn [data capa]. by rewrite <- !app_assoc.
Qed.

Lemma put_words_room ws : ∀ m,
  zlen (data m) + 4 * zlen ws ≤ capa m →
  put_all (mkCodec put_be32 (get u32)) ws m = Done (mkMar (data m ++ concat (be32_bytes <$> ws)) (capa m)).
Proof.
  induction ws as [|w ws IH]; intros m Hm; cbn [put_all length] in *.
  - cbn. rewrite app_nil_r. by destruct m.
  - cbn [put]. rewrite be32_room, bind_Done by lia. rewrite IH; cbn [data capa].
    + by rewrite <- app_assoc.
    + rewrite length_app. change (length (be32_bytes w)) with 4%nat. lia.
Qed.

Lemma length_be32s ws : length (concat (be32_bytes <$> ws)) = (4 * length ws)%nat.
Proof.
  induction ws as [|w ws IH]; [done|]. rewrite fmap_cons. cbn [concat length]. rewrite length_app, IH.
  change (length (be32_bytes w)) with 4%nat. lia.
Qed.

Lemma pack_words_ok ws m :
  4 ≤ zlen (data m) → 4 + 4 * zlen ws ≤ capa m →
  pack_words ws m =
    Done (mkMar (take 4 (data m) ++ concat (be32_bytes <$> ws) ++ drop (4 + 4 * length ws) (data m)) (capa m)).
Proof.
  intros H4 Hc. unfold pack_words. rewrite put_words_room, bind_Done; cbn [data capa].
  - replace (length (take 4 (data m) ++ _)) with (4 + 4 * length ws)%nat; [by rewrite <- app_assoc|].
    rewrite length_app, length_be32s, length_take. lia.
  - rewrite length_take. lia.
Qed.

Definition req_header_wf (h : req_header) : Prop :=
  (- 2 ^ 31 ≤ xid h < 2 ^ 31) ∧ (- 2 ^ 31 ≤ proc h < 2 ^ 31) ∧ (0 ≤ clt_nonce h < 2 ^ 32) ∧
  (0 ≤ srv_nonce h < 2 ^ 32) ∧ (- 2 ^ 31 ≤ xid_rep h < 2 ^ 31).
Definition reply_header_wf (h : reply_header) : Prop :=
  (- 2 ^ 31 ≤ r_xid h < 2 ^ 31) ∧ (- 2 ^ 31 ≤ r_ret h < 2 ^ 31).

Lemma be32_wrap x : be32_bytes x = be32_bytes (wrap32 x).
Proof.
  assert (∀ k, 0 ≤ k ≤ 24 → byte_at x k = byte_at (wrap32 x) k) as Hb.
  { intros k Hk. rewrite !byte_at_val by lia. unfold wrap.
    apply Z.bits_inj'. intros n Hn. change 256 with (2 ^ 8).
    destruct (Z.ltb_spec n 8); [|by rewrite !Z.mod_pow2_bits_high by lia].
    rewrite !Z.mod_pow2_bits_low, !Z.div_pow2_bits, Z.mod_pow2_bits_low by lia. done. }
  unfold be32_bytes. by rewrite !(Hb 24), !(Hb 16), !(Hb 8), !(Hb 0) by lia.
Qed.

(** Reading a header word. *)
Lemma get_word x a b ok :
  get_be32 (mkUnm (a ++ be32_bytes x ++ b) (zlen a) ok) =
    (wrap32 x, mkUnm ((a ++ be32_bytes x) ++ b) (zlen (a ++ be32_bytes x)) ok).
Proof.
  rewrite be32_wrap at 1. pose proof (wrap_range 32 x) as Hw.
  rewrite get_be32_ok by (apply Hw; lia). rewrite <- be32_wrap, <- app_assoc, length_app.
  change (length (be32_bytes x)) with 4%nat. do 2 f_equal. lia.
Qed.

Lemma unpack_req_ok h a body :
  req_header_wf h → length a = 4%nat →
  let ws := [xid h; proc h; clt_nonce h; srv_nonce h; xid_rep h] in
  let buf := a ++ concat (be32_bytes <$> ws) ++ body in
  unpack_req_header (unm_of buf) = (h, mkUnm buf RPC_HEADER_SZ true).
Proof.
  intros (Hx & Hp & Hc & Hs & Hr) Ha ws buf. unfold unpack_req_header, unm_of. cbn [u_buf u_ok].
  unfold buf, ws. cbn [fmap list_fmap concat]. rewrite app_nil_r, <- !app_assoc.
  replace 4 with (zlen a) by lia. do 5 rewrite get_word. cbn [u_buf u_ok]. rewrite <- !app_assoc.
  rewrite !sgn_wrap32, !(wrap_small 32) by (rewrite ?(wrap_small 32) by lia; lia).
  by destruct h.
Qed.

Lemma unpack_rep_ok h a body :
  reply_header_wf h → length a = 4%nat →
  let buf := a ++ concat (be32_bytes <$> [r_xid h; r_ret h]) ++ body in
  unpack_reply_header (unm_of buf) = (h, mkUnm buf RPC_HEADER_SZ true).
Proof.
  intros (Hx & Hr) Ha buf. unfold unpack_reply_header, unm_of. cbn [u_buf u_ok].
  unfold buf. cbn [fmap list_fmap concat]. rewrite app_nil_r, <- !app_assoc.
  replace 4 with (zlen a) by lia. do 2 rewrite get_word. cbn [u_buf u_ok]. rewrite <- !app_assoc.
  rewrite !sgn_wrap32 by done. by destruct h.
Qed.

(** Arguments written to a fresh buffer, and the header packed over its start. *)
Lemma message_bytes {A} (c : codec A) `{!CodecLaws c} x ws :
  wf c x → zlen (enc c x) < 2 ^ 29 → (length ws ≤ 5)%nat →
  ∃ m1 cap, put c x mar_new = Done m1 ∧ data m1 = replicate 24 Byte.x00 ++ enc c x ∧
    pack_words ws m1 =
      Done (mkMar (replicate 4 Byte.x00 ++ concat (be32_bytes <$> ws) ++
                   replicate (20 - 4 * length ws) Byte.x00 ++ enc c x) cap).
Proof.
  intros Hx Hsz Hws.
  destruct (put_law (c := c) x mar_new Hx) as (cap & Hput & Hok).
  - split; cbn; [done|split; done].
  - cbn. unfold size_max. lia.
  - exists (mkMar (data mar_new ++ enc c x) cap), cap. split; [done|]. split; [done|].
    unfold mar_ok in Hok. cbn [data capa mar_new] in *. rewrite length_app, length_replicate in Hok.
    unfold DEFAULT_RPC_SZ in Hok. rewrite pack_words_ok; cbn [data capa mar_new].
    + do 2 f_equal. rewrite take_app_le, take_replicate, drop_app_le by (rewrite length_replicate; lia).
      by rewrite drop_replicate.
    + rewrite length_app, length_replicate. lia.
    + lia.
Qed.

(** Reading the arguments behind a header. *)
Lemma read_body {A} (c : codec A) `{!CodecLaws c} x h :
  wf c x → zlen (enc c x) < 2 ^ 29 → length h = 24%nat →
  ∃ u, get c (mkUnm (h ++ enc c x) RPC_HEADER_SZ true) = Done (x, u) ∧ okdone u = true.
Proof.
  intros Hx Hsz Hh. eexists. rewrite <- (app_nil_r (enc c x)).
  replace RPC_HEADER_SZ with (zlen h) by (unfold RPC_HEADER_SZ; lia).
  rewrite get_law; [|done|rewrite !length_app, Hh; cbn; lia]. split; [done|].
  unfold okdone. cbn [u_ok u_buf u_ind andb]. rewrite !length_app. cbn [length]. apply Z.eqb_eq. lia.
Qed.

(** C20: A request or a reply of any type built from the operators (numbers,
    strings, vectors, pairs, maps, attributes, reports) survives the wire:
    marshalling its arguments and packing the header never overruns the buffer,
    and unpacking the header and the arguments on the other side gives both back
    and consumes the message to its last byte. *)
Theorem rpc_message_roundtrip {A} (c : codec A) `{!CodecLaws c} (x : A) (h : req_header) (r : reply_header) :
  wf c x → zlen (enc c x) < 2 ^ 29 → req_header_wf h → reply_header_wf r →
  ∃ m1 req rep u1 u2, put c x mar_new = Done m1 ∧
    pack_req_header h m1 = Done req ∧ pack_reply_header r m1 = Done rep ∧
    (let '(h', u) := unpack_req_header (unm_of (data req)) in
     h' = h ∧ get c u = Done (x, u1) ∧ okdone u1 = true) ∧
    (let '(r', u) := unpack_reply_header (unm_of (data rep)) in
     r' = r ∧ get c u = Done (x, u2) ∧ okdone u2 = true).
Proof.
  intros Hx Hsz Hh Hr.
  destruct (message_bytes c x [xid h; proc h; clt_nonce h; srv_nonce h; xid_rep h]) as (m1 & cap & Hp & _ & H1);
    [done|done|cbn; lia|].
  destruct (message_bytes c x [r_xid r; r_ret r]) as (m2 & cap2 & Hp2 & _ & H2); [done|done|cbn; lia|].
  rewrite Hp in Hp2. injection Hp2 as <-.
  set (q := replicate 4 Byte.x00) in *.
  set (hs := concat (be32_bytes <$> [xid h; proc h; clt_nonce h; srv_nonce h; xid_rep h])) in *.
  set (rs := concat (be32_bytes <$> [r_xid r; r_ret r])) in *.
  destruct (read_body c x (q ++ hs)) as (u1 & Hg1 & Hd1); [done..|].
  destruct (read_body c x (q ++ rs ++ replicate 12 Byte.x00)) as (u2 & Hg2 & Hd2); [done..|].
  eexists m1, _, _, u1, u2. split; [done|]. split; [exact H1|]. split; [exact H2|]. cbn [data].
  split.
  - pose proof (unpack_req_ok h q (enc c x) Hh eq_refl) as Hu. cbn zeta in Hu. fold hs in Hu.
    cbn [length Nat.mul Nat.add Nat.sub replicate app] in *. rewrite Hu. rewrite <- app_assoc in Hg1. done.
  - pose proof (unpack_rep_ok r q (replicate 12 Byte.x00 ++ enc c x) Hr eq_refl) as Hu. cbn zeta in Hu.
    fold rs in Hu. change (20 - 4 * length [r_xid r; r_ret r])%nat with 12%nat. rewrite Hu.
    rewrite <- !app_assoc in Hg2. done.
Qed.

Lemma rpc_message_roundtrip_witness :
  let c := pair_ (map_ u64 str) (pair_ attr_ (vec i16)) in
  let x := ([(7, bs "a"); (2 ^ 40, bs "bc")], (mkAttr 1 2 3 4, [-5; 6])) in
  let h := mkReq 3 24577 (2 ^ 31 + 5) 9 2 in
  let r := mkRep 3 (-4) in
  ∃ m1 req rep u1 u2, put c x mar_new = Done m1 ∧
    pack_req_header h m1 = Done req ∧ pack_reply_header r m1 = Done rep ∧
    (let '(h', u) := unpack_req_header (unm_of (data req)) in
     h' = h ∧ get c u = Done (x, u1) ∧ okdone u1 = true) ∧
    (let '(r', u) := unpack_reply_header (unm_of (data rep)) in
     r' = r ∧ get c u = Done (x, u2) ∧ okdone u2 = true).
Proof.
  intros c x h r. apply (rpc_message_roundtrip c x h r).
  - repeat (constructor || (cbn; lia)).
  - vm_compute. reflexivity.
  - repeat split; cbn; lia.
  - repeat split; cbn; lia.
Defined.

(** The bound check of [unmarshall::rawbytes] is computed in 32 bits: a
    message of four bytes that announces a string of 2^32 - 1 bytes passes it,
    and the string is then built from memory beyond the buffer; a string one
    byte too long is refused. *)
Theorem unmarshall_length_wraps :
  get str (take_content (z2b <$> [255; 255; 255; 255])) = Undef ∧
  (λ r, (r.1, u_ok r.2)) <$> match get str (take_content (z2b <$> [0; 0; 0; 2; 65])) with
                            | Done r => Some r | _ => None end = Some ([], false).
Proof. split; vm_compute; reflexivity. Qed.
