(* ===== verification/RpcServer.v ===== *)
(** * The RPC server (src/rpc/rpc.cc, class rpcs)

    The window of remembered replies that gives at-most-once execution, the
    table of procedures, the statistics, and [dispatch] as the steps of any
    number of worker threads: the part before the handler runs, the part that
    records the reply, and the send.  A handler is any return value and body at any later time;
    the choice of the connection a reply goes out on is not modelled. *)

From S2P Require Import Prelude Marshall.

Definition oldsrv_failure : Z := -5.
Definition atmostonce_failure : Z := -4.

(** [rpcs::reply_t]; the buffer is a pointer, 0 is NULL. *)
Record reply_t : Type := mkReply { y_xid : Z; cb_present : bool; y_buf : Z; y_sz : Z }.
Definition reply_new (x : Z) : reply_t := mkReply x false 0 0.

#[export] Instance reply_eq_dec : EqDecision reply_t.
Proof. solve_decision. Defined.

Inductive rpcstate_t : Type := NEW | INPROGRESS | DONE | FORGOTTEN.

Module rpcs.

(** The reply buffers are the live blocks of [heap]. *)
Record t : Type := mk {
  nonce_ : Z; reply_window_ : gmap Z (list reply_t); heap : gmap Z bytes; brk : Z;
  procs_ : gset Z; counting_ : Z; curr_counts_ : Z; counts_ : gmap Z Z }.

Definition set_window (w : gmap Z (list reply_t)) (h : gmap Z bytes) (s : t) : t :=
  mk (nonce_ s) w h (brk s) (procs_ s) (counting_ s) (curr_counts_ s) (counts_ s).

Definition window (s : t) (clt : Z) : list reply_t := default [] (reply_window_ s !! clt).

(** [free] (or [delete]): NULL is fine, a block twice is not. *)
Definition free_ (h : gmap Z bytes) (b : Z) : outcome (gmap Z bytes) :=
  if b =? 0 then Done h else match h !! b with Some _ => Done (delete b h) | None => Undef end.

(** The loop of [gc_reply_window]: it always keeps one entry. *)
Fixpoint gc_loop (rep : Z) (w : list reply_t) (h : gmap Z bytes) : outcome (list reply_t * gmap Z bytes) :=
  match w with
  | r :: (_ :: _) as w' =>
      if y_xid r <? rep then h ← free_ h (y_buf r); gc_loop rep w' h else Done (w, h)
  | _ => Done (w, h)
  end.

Definition gc_reply_window (s : t) (clt rep : Z) : outcome t :=
  '(w, h) ← gc_loop rep (window s clt) (heap s);
  Done (set_window (<[clt := w]> (reply_window_ s)) h s).

(** The loop of [checkduplicate_and_update]: the window with the request put
    in, or the remembered request. *)
Fixpoint scan (x : Z) (w : list reply_t) : list reply_t + reply_t :=
  match w with
  | [] => inl [reply_new x]
  | r :: w' =>
      if x <? y_xid r then inl (reply_new x :: w)
      else if y_xid r <? x then
        match scan x w' with inl w'' => inl (r :: w'') | inr r => inr r end
      else inr r
  end.

(** The state, and the buffer and size for [DONE]. *)
Definition checkduplicate_and_update (s : t) (clt x rep : Z) : outcome (rpcstate_t * Z * Z * t) :=
  match window s clt with
  | [] => Done (NEW, 0, 0, set_window (<[clt := [reply_new x]]> (reply_window_ s)) (heap s) s)
  | front :: _ =>
      if x <? y_xid front then s ← gc_reply_window s clt rep; Done (FORGOTTEN, 0, 0, s)
      else
        match scan x (window s clt) with
        | inl w =>
            s ← gc_reply_window (set_window (<[clt := w]> (reply_window_ s)) (heap s) s) clt rep;
            Done (NEW, 0, 0, s)
        | inr r =>
            s ← gc_reply_window s clt rep;
            if negb (cb_present r) then Done (INPROGRESS, 0, 0, s) else Done (DONE, y_buf r, y_sz r, s)
        end
  end.

(** [VERIFY(0)] on an unknown client. *)
Definition add_reply (s : t) (clt x b n : Z) : outcome t :=
  match window s clt with
  | [] => Throws
  | w =>
      let w := (λ r, if y_xid r =? x then mkReply x true b n else r) <$> w in
      Done (set_window (<[clt := w]> (reply_window_ s)) (heap s) s)
  end.

Fixpoint free_all (bufs : list Z) (h : gmap Z bytes) : outcome (gmap Z bytes) :=
  match bufs with [] => Done h | b :: bufs => h ← free_ h b; free_all bufs h end.

Definition free_reply_window (s : t) : outcome t :=
  h ← free_all (concat ((λ kw : Z * list reply_t, y_buf <$> kw.2) <$> map_to_list (reply_window_ s))) (heap s);
  Done (set_window ∅ h s).

(** [reg1]: registering a procedure twice fails an assertion. *)
Definition reg1 (s : t) (p : Z) : outcome t :=
  if decide (p ∈ procs_ s) then Throws
  else Done (mk (nonce_ s) (reply_window_ s) (heap s) (brk s) ({[p]} ∪ procs_ s) (counting_ s)
               (curr_counts_ s) (counts_ s)).

(** [updatestat]: the flag says that the statistics are printed. *)
Definition updatestat (s : t) (p : Z) : bool * t :=
  let cur := curr_counts_ s - 1 in
  let shown := cur =? 0 in
  (shown, mk (nonce_ s) (reply_window_ s) (heap s) (brk s) (procs_ s) (counting_ s)
            (if shown then counting_ s else cur) (<[p := default 0 (counts_ s !! p) + 1]> (counts_ s))).

Definition rpcbind (s : t) (a : Z) : Z * Z := (0, nonce_ s).

(** [dispatch] up to the handler. *)
Inductive next : Type :=
  | Drop                      (** the header did not unmarshall, or the request is in progress *)
  | Send_header (ret : Z)     (** a reply without a body *)
  | Run                       (** run the handler *)
  | Resend (b n : Z).         (** send a remembered reply *)

Definition dispatch_begin (s : t) (h : req_header) (ok : bool) : outcome (next * t) :=
  if negb ok then Done (Drop, s)
  else if negb (srv_nonce h =? 0) && negb (srv_nonce h =? nonce_ s) then Done (Send_header oldsrv_failure, s)
  else if negb (bool_decide (proc h ∈ procs_ s)) then Throws
  else
    '(stat, b, n, s) ←
      (if negb (clt_nonce h =? 0) then
         let w := <[clt_nonce h := window s (clt_nonce h)]> (reply_window_ s) in
         '(stat, b, n, s) ← checkduplicate_and_update (set_window w (heap s) s) (clt_nonce h)
                              (wrap32 (xid h)) (wrap32 (xid_rep h));
         _ ← ensure (negb (bool_decide (window s (clt_nonce h) = [])));
         Done (stat, b, n, s)
       else Done (NEW, 0, 0, s));
    match stat with
    | NEW => let s := if negb (counting_ s =? 0) then (updatestat s (proc h)).2 else s in Done (Run, s)
    | INPROGRESS => Done (Drop, s)
    | DONE => Done (Resend b n, s)
    | FORGOTTEN => Done (Send_header atmostonce_failure, s)
    end.

(** The reply becomes a block of its own, remembered for clients that want
    at-most-once. *)
Definition dispatch_remember (s : t) (clt x : Z) (reply : bytes) : outcome (Z * t) :=
  let b := brk s in
  let s := mk (nonce_ s) (reply_window_ s) (<[b := reply]> (heap s)) (b + 1) (procs_ s) (counting_ s)
             (curr_counts_ s) (counts_ s) in
  if 0 <? clt then s ← add_reply s clt x b (zlen reply); Done (b, s) else Done (b, s).

(** [dispatch] from the handler's return to the send; a negative return value
    fails an assertion. *)
Definition dispatch_reply (s : t) (clt x ret : Z) (rep : mar) : outcome (Z * bytes * t) :=
  _ ← ensure (0 <=? ret);
  m ← pack_reply_header (mkRep (sgn 32 x) ret) rep;
  '(b, s) ← dispatch_remember s clt x (data m);
  Done (b, data m, s).

(** The send reads the block; a reply that was not remembered is then freed. *)
Definition dispatch_send (s : t) (clt b : Z) : outcome (bytes * t) :=
  match heap s !! b with
  | None => Undef
  | Some reply =>
      if clt =? 0 then Done (reply, set_window (reply_window_ s) (delete b (heap s)) s) else Done (reply, s)
  end.

End rpcs.

(** ** Worker threads *)

Inductive dpoint : Type :=
  | Running (clt x p : Z)    (** in the handler of a request *)
  | Sending (clt b : Z).     (** about to send a reply block *)

(** [executed] records every handler run, [finished] its reply. *)
Record dsys : Type := mkD {
  srv : rpcs.t; workers : gmap nat dpoint;
  executed : list (Z * Z); finished : list (Z * Z * bytes) }.

Inductive devent : Type :=
  | DRecv (t : nat) (h : req_header) (ok : bool)
  | DReturn (t : nat) (ret : Z) (rep : mar)
  | DSend (t : nat).

(** [None]: not enabled. *)
Definition dstep (s : dsys) (e : devent) : option (outcome dsys) :=
  match e with
  | DRecv t h ok =>
      match workers s !! t with
      | Some _ => None
      | None => Some (
          '(n, srv') ← rpcs.dispatch_begin (srv s) h ok;
          let clt := clt_nonce h in let x := wrap32 (xid h) in
          Done match n with
               | rpcs.Run => mkD srv' (<[t := Running clt x (proc h)]> (workers s)) ((clt, x) :: executed s) (finished s)
               | rpcs.Resend b _ => mkD srv' (<[t := Sending clt b]> (workers s)) (executed s) (finished s)
               | _ => mkD srv' (workers s) (executed s) (finished s)
               end)
      end
  | DReturn t ret rep =>
      match workers s !! t with
      | Some (Running clt x p) => Some (
          '(b, reply, srv') ← rpcs.dispatch_reply (srv s) clt x ret rep;
          Done (mkD srv' (<[t := Sending clt b]> (workers s)) (executed s) ((clt, x, reply) :: finished s)))
      | _ => None
      end
  | DSend t =>
      match workers s !! t with
      | Some (Sending clt b) => Some (
          '(_, srv') ← rpcs.dispatch_send (srv s) clt b;
          Done (mkD srv' (delete t (workers s)) (executed s) (finished s)))
      | _ => None
      end
  end.

Definition dinit (nonce counting : Z) (procs : gset Z) : dsys :=
  mkD (rpcs.mk nonce ∅ ∅ 1 procs counting counting ∅) ∅ [] [].

(** The header's [clt_nonce] is unsigned. *)
Definition typed (e : devent) : Prop :=
  match e with DRecv _ h _ => 0 ≤ clt_nonce h | _ => True end.

Inductive dreach (nonce counting : Z) (procs : gset Z) : dsys → Prop :=
  | dreach_init : dreach nonce counting procs (dinit nonce counting procs)
  | dreach_step s e s' :
      dreach nonce counting procs s → typed e → dstep s e = Some (Done s') → dreach nonce counting procs s'.

(** ** The window as a sorted list *)

Definition sorted (w : list reply_t) : Prop := StronglySorted (λ r r', y_xid r < y_xid r') w.

(** The request is remembered or was forgotten. *)
Definition covered (w : list reply_t) (x : Z) : Prop :=
  w ≠ [] ∧ ((∃ r, r ∈ w ∧ y_xid r = x) ∨ ∀ r, r ∈ w → x < y_xid r).

(** The buffers of a window are live and its own. *)
Definition live (h : gmap Z bytes) (w : list reply_t) : Prop :=
  ∀ r, r ∈ w → y_buf r = 0 ∨ is_Some (h !! y_buf r).
Definition apart (w : list reply_t) : Prop :=
  ∀ r r', r ∈ w → r' ∈ w → y_buf r = y_buf r' → y_buf r ≠ 0 → y_xid r = y_xid r'.

Lemma sorted_cons r w :
  sorted (r :: w) ↔ sorted w ∧ ∀ r', r' ∈ w → y_xid r < y_xid r'.
Proof.
  unfold sorted. split.
  - intros H. inversion H; subst. split; [done|]. by apply Forall_forall.
  - intros [? ?]. constructor; [done|]. by apply Forall_forall.
Qed.

Lemma sorted_same w r r' : sorted w → r ∈ w → r' ∈ w → y_xid r = y_xid r' → r = r'.
Proof.
  induction w as [|a w IH]; [set_solver|]. intros [Hs Ha]%sorted_cons Hr Hr' E.
  apply elem_of_cons in Hr as [->|Hr], Hr' as [->|Hr']; try done.
  - specialize (Ha _ Hr'); lia.
  - specialize (Ha _ Hr); lia.
  - by apply IH.
Qed.

Lemma sorted_app w1 w2 :
  sorted (w1 ++ w2) → sorted w2 ∧ ∀ r r', r ∈ w1 → r' ∈ w2 → y_xid r < y_xid r'.
Proof.
  induction w1 as [|a w1 IH]; cbn [app].
  - intros H. split; [done|set_solver].
  - intros [Hs Ha]%sorted_cons. destruct (IH Hs) as [H2 H]. split; [done|].
    intros r r' [->|Hr]%elem_of_cons Hr'; [|by apply H]. apply Ha. set_solver.
Qed.

(** Collecting drops a prefix of earlier requests and frees its buffers. *)
Lemma gc_loop_spec rep w h :
  sorted w → live h w → apart w →
  ∃ d w' h', rpcs.gc_loop rep w h = Done (w', h') ∧ w = d ++ w' ∧ (w ≠ [] → w' ≠ []) ∧
    (∀ r, r ∈ d → y_xid r < rep) ∧
    (∀ b, (∀ r, r ∈ d → y_buf r ≠ b) → h' !! b = h !! b) ∧
    (∀ b, is_Some (h' !! b) → is_Some (h !! b)).
Proof.
  revert h. induction w as [|r w IH]; intros h Hs Hl Ha.
  { exists [], [], h. set_solver. }
  destruct w as [|r' w']; [exists [], [r], h; cbn; set_solver|].
  set (w := r' :: w') in *. change (rpcs.gc_loop rep (r :: w) h) with
    (if y_xid r <? rep then h ← rpcs.free_ h (y_buf r); rpcs.gc_loop rep w h else Done (r :: w, h)).
  case_test; [|exists [], (r :: w), h; cbn; set_solver].
  apply sorted_cons in Hs as [Hs Hr].
  assert (∃ h1, rpcs.free_ h (y_buf r) = Done h1 ∧ (∀ b, y_buf r ≠ b → h1 !! b = h !! b) ∧
    (∀ b, is_Some (h1 !! b) → is_Some (h !! b)) ∧ live h1 w) as (h1 & -> & Hh & Hsub & Hl1).
  { unfold rpcs.free_. case_test; [exists h; split_and!; try done; intros r1 ?; apply Hl; set_solver|].
    destruct (Hl r ltac:(set_solver)) as [?|[y Hy]]; [done|]. rewrite Hy.
    exists (delete (y_buf r) h). split_and!; [done|by intros; rewrite lookup_delete_ne|..].
    - intros b [v Hv]. apply lookup_delete_Some in Hv as [_ Hv]. by exists v.
    - intros r1 H1. destruct (Hl r1 ltac:(set_solver)) as [?|?]; [by left|right].
      rewrite lookup_delete_ne; [done|]. intros E.
      specialize (Hr r1 H1). specialize (Ha r r1 ltac:(set_solver) ltac:(set_solver) E ltac:(done)). lia. }
  rewrite bind_Done. cbv beta.
  destruct (IH h1 Hs Hl1) as (d & w1 & h2 & -> & E & Hne & Hd & Hh2 & Hsub2).
  { intros r1 r2 ? ?. apply Ha; set_solver. }
  exists (r :: d), w1, h2. split_and!; [done|by rewrite E|by auto|set_solver| |by auto].
  intros b Hb. rewrite Hh2, Hh; [done|apply Hb; set_solver|intros; apply Hb; set_solver].
Qed.

Lemma scan_inl x w w' :
  sorted w → rpcs.scan x w = inl w' →
  (∀ r, r ∈ w → y_xid r ≠ x) ∧ sorted w' ∧ (∀ r, r ∈ w' ↔ r ∈ w ∨ r = reply_new x).
Proof.
  revert w'. induction w as [|r w IH]; intros w'; cbn [rpcs.scan].
  - intros _ [= <-]. split_and!; [set_solver|repeat constructor|set_solver].
  - intros [Hs Hr]%sorted_cons. repeat case_test; intros E; simplify_eq.
    + split_and!; [|apply sorted_cons; split; [by apply sorted_cons|]|set_solver].
      * intros r1 [->|H1]%elem_of_cons; [lia|]. specialize (Hr _ H1). lia.
      * intros r1 [->|H1]%elem_of_cons; [done|]. specialize (Hr _ H1). cbn. lia.
    + destruct (rpcs.scan x w) as [w1|] eqn:Ew; [|done]. simplify_eq.
      destruct (IH _ Hs eq_refl) as (H1 & H2 & H3).
      split_and!; [|apply sorted_cons; split; [done|]|set_solver].
      * intros r1 [->|?]%elem_of_cons; [lia|by apply H1].
      * intros r1 [?| ->]%H3; [by apply Hr|done].
Qed.

Lemma scan_inr x w r : rpcs.scan x w = inr r → r ∈ w ∧ y_xid r = x.
Proof.
  induction w as [|r1 w IH]; cbn [rpcs.scan]; [done|]. repeat case_test; [done| |].
  - destruct (rpcs.scan x w); [done|]. intros E. simplify_eq. destruct (IH eq_refl). set_solver.
  - intros [= <-]. split; [set_solver|lia].
Qed.

(** ** The invariant of a server and its workers *)

Record inv (srv : rpcs.t) (ws : gmap nat dpoint) (ex : list (Z * Z)) (fin : list (Z * Z * bytes)) : Prop := {
  i_sorted c : sorted (rpcs.window srv c);
  i_exec c x : c ≠ 0 → (c, x) ∈ ex → covered (rpcs.window srv c) x;
  i_back c r : r ∈ rpcs.window srv c → c ≠ 0 ∧ (c, y_xid r) ∈ ex;
  i_present c r : r ∈ rpcs.window srv c → cb_present r = true →
    ∃ reply, (c, y_xid r, reply) ∈ fin ∧ rpcs.heap srv !! y_buf r = Some reply ∧ y_sz r = zlen reply;
  i_absent c r : r ∈ rpcs.window srv c → cb_present r = false →
    y_buf r = 0 ∧ ∀ reply, (c, y_xid r, reply) ∉ fin;
  i_inj c c' r r' : r ∈ rpcs.window srv c → r' ∈ rpcs.window srv c' → y_buf r = y_buf r' → y_buf r ≠ 0 →
    c = c' ∧ y_xid r = y_xid r';
  i_heap b : is_Some (rpcs.heap srv !! b) → 0 < b < rpcs.brk srv;
  i_brk : 1 ≤ rpcs.brk srv;
  i_fin c x reply : (c, x, reply) ∈ fin → (c, x) ∈ ex;
  i_fun c x a b : c ≠ 0 → (c, x, a) ∈ fin → (c, x, b) ∈ fin → a = b;
  i_run t c x p : ws !! t = Some (Running c x p) → 0 ≤ c ∧ (c, x) ∈ ex ∧ (c ≠ 0 → ∀ reply, (c, x, reply) ∉ fin);
  i_one t t' c x p p' : ws !! t = Some (Running c x p) → ws !! t' = Some (Running c x p') → c ≠ 0 → t = t';
  i_send t b : ws !! t = Some (Sending 0 b) → 0 < b < rpcs.brk srv ∧ ∀ c r, r ∈ rpcs.window srv c → y_buf r ≠ b;
  i_once : NoDup (filter (λ p, p.1 ≠ 0) ex) }.

Lemma window_insert s c w h c' :
  rpcs.window (rpcs.set_window (<[c := w]> (rpcs.reply_window_ s)) h s) c' =
  if decide (c = c') then w else rpcs.window s c'.
Proof. unfold rpcs.window. cbn. rewrite lookup_insert. by repeat case_decide. Qed.

Lemma inv_live s ws ex fin c : inv s ws ex fin → live (rpcs.heap s) (rpcs.window s c).
Proof.
  intros I r Hr. destruct (cb_present r) eqn:E.
  - destruct (i_present _ _ _ _ I c r Hr E) as (b & _ & -> & _). eauto.
  - left. by eapply i_absent.
Qed.

Lemma inv_apart s ws ex fin c : inv s ws ex fin → apart (rpcs.window s c).
Proof. intros I r r' H H' E N. by destruct (i_inj _ _ _ _ I _ _ _ _ H H' E N). Qed.

(** Two states with the same windows up to forgetting and heaps that agree on
    what is left. *)
Lemma gc_inv s ws ex fin c rep :
  inv s ws ex fin →
  ∃ s', rpcs.gc_reply_window s c rep = Done s' ∧ inv s' ws ex fin ∧
    (rpcs.window s c ≠ [] → rpcs.window s' c ≠ []) ∧
    (∀ r, r ∈ rpcs.window s c → rep ≤ y_xid r → r ∈ rpcs.window s' c).
Proof.
  intros I. unfold rpcs.gc_reply_window.
  destruct (gc_loop_spec rep (rpcs.window s c) (rpcs.heap s)) as (d & w' & h' & -> & E & Hne & Hd & Hh & Hsub);
    [by eapply i_sorted|by eapply inv_live|by eapply inv_apart|].
  rewrite bind_Done. cbv beta. eexists. split; [done|].
  pose proof (i_sorted _ _ _ _ I c) as Hs. rewrite E in Hs. apply sorted_app in Hs as [Hs Hlt].
  assert (Hin : ∀ c' r, r ∈ rpcs.window (rpcs.set_window (<[c := w']> (rpcs.reply_window_ s)) h' s) c' → r ∈ rpcs.window s c').
  { intros c' r. rewrite window_insert. case_decide; [subst|done]. rewrite E. set_solver. }
  assert (Hkeep : ∀ c' r, r ∈ rpcs.window (rpcs.set_window (<[c := w']> (rpcs.reply_window_ s)) h' s) c' →
    y_buf r ≠ 0 → h' !! y_buf r = rpcs.heap s !! y_buf r).
  { intros c' r Hr N. apply Hh. intros r' Hr' E'.
    destruct (i_inj _ _ _ _ I c c' r' r) as [<- Ex]; [rewrite E; set_solver|by apply Hin|done|congruence|].
    rewrite window_insert, decide_True in Hr by done. specialize (Hlt _ _ Hr' Hr). lia. }
  split; [|rewrite window_insert, decide_True by done; split; [by auto|]].
  2: { intros r. rewrite E. intros [Hr|?]%elem_of_app ?; [specialize (Hd _ Hr); lia|done]. }
  constructor; try (by destruct I); eauto using i_back, i_absent, i_inj.
  - intros c'. rewrite window_insert. case_decide; [done|]. by eapply i_sorted.
  - intros c' x Hc Hx. destruct (i_exec _ _ _ _ I c' x Hc Hx) as [N H].
    rewrite window_insert. case_decide; [subst c'|done]. split; [auto|]. rewrite E in H.
    destruct H as [(r & [Hr|Hr]%elem_of_app & <-)|H]; [right; auto|left; eauto|right; set_solver].
  - intros c' r Hr Hp. destruct (i_present _ _ _ _ I c' r (Hin _ _ Hr) Hp) as (reply & ? & Hb & ?).
    exists reply. split_and!; try done. cbn. rewrite (Hkeep c'); [done|done|].
    destruct (i_heap _ _ _ _ I (y_buf r)); [eauto|lia].
  - intros b Hb. by apply (i_heap _ _ _ _ I), Hsub.
  - intros t b Hb. destruct (i_send _ _ _ _ I t b Hb) as [? H]. split; [done|]. eauto.
Qed.

(** A new entry for a request not yet seen. *)
Lemma insert_inv s ws ex fin c x w :
  inv s ws ex fin → c ≠ 0 → (c, x) ∉ ex → sorted w →
  (∀ r, r ∈ w ↔ r ∈ rpcs.window s c ∨ r = reply_new x) →
  (∀ y, (c, y) ∈ ex → covered w y) →
  inv (rpcs.set_window (<[c := w]> (rpcs.reply_window_ s)) (rpcs.heap s) s) ws ((c, x) :: ex) fin.
Proof.
  intros I Hc Hx Hs Hw Hcov.
  set (s' := rpcs.set_window _ _ _).
  assert (Hin : ∀ c' r, r ∈ rpcs.window s' c' → r ∈ rpcs.window s c' ∨ (c' = c ∧ r = reply_new x)).
  { intros c' r. unfold s'. rewrite window_insert. case_decide; [subst|by left].
    rewrite Hw. naive_solver. }
  assert (Hnf : ∀ reply, (c, x, reply) ∉ fin) by (intros reply ?; by apply Hx, (i_fin _ _ _ _ I _ _ reply)).
  constructor; try (by destruct I).
  - intros c'. unfold s'. rewrite window_insert. case_decide; [done|]. by eapply i_sorted.
  - intros c' y Hc' Hy. unfold s'. rewrite window_insert. apply elem_of_cons in Hy as [[= -> ->]|Hy].
    + rewrite decide_True by done. split; [intros ->; destruct (Hw (reply_new x)); set_solver|left].
      exists (reply_new x). rewrite Hw. auto.
    + case_decide; [subst; by apply Hcov|]. by eapply i_exec.
  - intros c' r [Hr|[-> ->]]%Hin; [|cbn; set_solver]. destruct (i_back _ _ _ _ I _ _ Hr). set_solver.
  - intros c' r [Hr|[-> ->]]%Hin Hp; [|done]. by apply (i_present _ _ _ _ I).
  - intros c' r [Hr|[-> ->]]%Hin Hp; [by apply (i_absent _ _ _ _ I)|done].
  - intros c1 c2 r1 r2 [H1|[-> ->]]%Hin [H2|[-> ->]]%Hin E N; cbn in *; [|congruence..].
    by eapply (i_inj _ _ _ _ I).
  - intros c' y reply Hf. right. by apply (i_fin _ _ _ _ I _ _ reply).
  - intros t c' y p Hr. destruct (i_run _ _ _ _ I _ _ _ _ Hr) as (? & ? & ?). set_solver.
  - intros t b Hb. destruct (i_send _ _ _ _ I t b Hb) as [? H]. split; [done|].
    intros c' r [Hr|[-> ->]]%Hin; [by eauto|cbn; lia].
  - rewrite filter_cons_True by done. apply NoDup_cons. split; [|by eapply i_once].
    rewrite list_elem_of_filter. naive_solver.
Qed.

Lemma inv_same s s' ws ex fin :
  inv s ws ex fin → (∀ c, rpcs.window s' c = rpcs.window s c) → rpcs.heap s' = rpcs.heap s → rpcs.brk s' = rpcs.brk s →
  inv s' ws ex fin.
Proof.
  intros [] Ew Eh Eb. constructor; intros *; rewrite ?Ew, ?Eh, ?Eb; eauto.
  intros H. destruct (i_send0 _ _ H) as [? H']. split; [done|]. intros c r. rewrite Ew. apply H'.
Qed.

(** What the duplicate check does, for every request. *)
Definition check_post (s s' : rpcs.t) ws ex fin (c x rep : Z) (st : rpcstate_t) (b n : Z) : Prop :=
  rpcs.window s' c ≠ [] ∧
  match st with
  | NEW => (c, x) ∉ ex ∧ inv s' ws ((c, x) :: ex) fin
  | INPROGRESS => inv s' ws ex fin ∧ (c, x) ∈ ex ∧ ∀ reply, (c, x, reply) ∉ fin
  | DONE => inv s' ws ex fin ∧ ∃ reply, (c, x, reply) ∈ fin ∧ n = zlen reply ∧
              (rep ≤ x → rpcs.heap s' !! b = Some reply)
  | FORGOTTEN => inv s' ws ex fin ∧ ∃ y, (c, y) ∈ ex ∧ x < y
  end.

Lemma checkduplicate_spec s ws ex fin c x rep :
  inv s ws ex fin → c ≠ 0 →
  ∃ st b n s', rpcs.checkduplicate_and_update s c x rep = Done (st, b, n, s') ∧
    check_post s s' ws ex fin c x rep st b n.
Proof.
  intros I Hc. unfold rpcs.checkduplicate_and_update, check_post.
  destruct (rpcs.window s c) as [|r0 w0] eqn:Ew.
  { do 4 eexists. split; [done|]. rewrite window_insert, decide_True by done. split; [done|].
    assert (Hn : ∀ y, (c, y) ∉ ex).
    { intros y Hy. destruct (i_exec _ _ _ _ I c y Hc Hy) as [H _]. by rewrite Ew in H. }
    split; [apply Hn|]. apply insert_inv; [done|done|apply Hn|repeat constructor|..].
    - intros r. rewrite Ew. set_solver.
    - intros y Hy. by destruct (Hn y). }
  assert (Hw0 : r0 ∈ rpcs.window s c) by (rewrite Ew; set_solver).
  pose proof (i_sorted _ _ _ _ I c) as Hs.
  destruct (gc_inv s ws ex fin c rep I) as (s1 & G1 & I1 & N1 & K1).
  case_test.
  { rewrite G1, bind_Done. do 4 eexists. split; [done|]. split; [apply N1; by rewrite Ew|].
    split; [done|]. exists (y_xid r0). split; [|done]. by apply (i_back _ _ _ _ I). }
  rewrite <- Ew. destruct (rpcs.scan x (rpcs.window s c)) as [w|r] eqn:Es.
  - destruct (scan_inl _ _ _ Hs Es) as (Hx & Hsw & Hw).
    assert (Hnew : (c, x) ∉ ex).
    { intros Hy. destruct (i_exec _ _ _ _ I c x Hc Hy) as [_ [(r & Hr & <-)|H']]; [by destruct (Hx r Hr)|].
      specialize (H' r0 Hw0). lia. }
    assert (I2 := insert_inv s ws ex fin c x w I Hc Hnew Hsw Hw).
    opose proof (I2 _) as I3.
    { intros y Hy. destruct (i_exec _ _ _ _ I c y Hc Hy) as [_ [(r & Hr & <-)|H']].
      - split; [intros ->; set_solver|]. left. exists r. rewrite Hw. auto.
      - split; [intros ->; set_solver|]. right. intros r [Hr| ->]%Hw; [by auto|].
        specialize (H' r0 Hw0). cbn. lia. }
    destruct (gc_inv _ _ _ _ c rep I3) as (s2 & -> & I4 & N4 & _).
    rewrite bind_Done. do 4 eexists. split; [done|]. split; [|done].
    apply N4. rewrite window_insert, decide_True by done. intros ->. set_solver.
  - destruct (scan_inr _ _ _ Es) as [Hr <-]. rewrite G1, bind_Done. cbv beta.
    destruct (cb_present r) eqn:Hp; do 4 eexists; (split; [done|]); (split; [apply N1; by rewrite Ew|]);
      (split; [done|]).
    + destruct (i_present _ _ _ _ I c r Hr Hp) as (reply & Hf & Hb & Hn).
      exists reply. split_and!; [done|done|]. intros Hle.
      destruct (i_present _ _ _ _ I1 c r (K1 r Hr Hle) Hp) as (reply' & Hf' & Hb' & _).
      by rewrite (i_fun _ _ _ _ I _ _ _ _ Hc Hf Hf').
    + destruct (i_absent _ _ _ _ I c r Hr Hp). split; [|done]. by apply (i_back _ _ _ _ I).
Qed.

Lemma inv_exec0 s ws ex fin x : inv s ws ex fin → inv s ws ((0, x) :: ex) fin.
Proof.
  intros []. constructor; intros *; eauto; rewrite ?elem_of_cons.
  - intros ? [[=]|?]; [done|eauto].
  - intros ?. edestruct i_back0; eauto.
  - intros ?. eauto.
  - intros H. edestruct i_run0 as (? & ? & ?); [done|]. by split_and!; [|right|].
Qed.

(** The first part of [dispatch] never fails on a registered procedure, and
    what it decides is what was executed and answered before. *)
Definition begin_post (s' : rpcs.t) ws ex fin (h : req_header) (n : rpcs.next) : Prop :=
  let c := clt_nonce h in let x := wrap32 (xid h) in
  match n with
  | rpcs.Run => (c ≠ 0 → (c, x) ∉ ex) ∧ inv s' ws ((c, x) :: ex) fin
  | rpcs.Drop => c ≠ 0 ∧ inv s' ws ex fin ∧ (c, x) ∈ ex ∧ ∀ reply, (c, x, reply) ∉ fin
  | rpcs.Resend b n => c ≠ 0 ∧ inv s' ws ex fin ∧ ∃ reply, (c, x, reply) ∈ fin ∧ n = zlen reply ∧
      (wrap32 (xid_rep h) ≤ x → rpcs.heap s' !! b = Some reply)
  | rpcs.Send_header r => c ≠ 0 ∧ r = atmostonce_failure ∧ inv s' ws ex fin ∧ ∃ y, (c, y) ∈ ex ∧ x < y
  end.

Lemma window_touch s c c' :
  rpcs.window (rpcs.set_window (<[c := rpcs.window s c]> (rpcs.reply_window_ s)) (rpcs.heap s) s) c' = rpcs.window s c'.
Proof. rewrite window_insert. by case_decide; subst. Qed.

Lemma inv_counted s ws ex fin p :
  inv s ws ex fin →
  inv (if negb (rpcs.counting_ s =? 0) then (rpcs.updatestat s p).2 else s) ws ex fin.
Proof. intros I. destruct (negb _); [|done]. by eapply inv_same. Qed.

Lemma dispatch_begin_spec s ws ex fin h :
  inv s ws ex fin → proc h ∈ rpcs.procs_ s → srv_nonce h = 0 ∨ srv_nonce h = rpcs.nonce_ s →
  ∃ n s', rpcs.dispatch_begin s h true = Done (n, s') ∧ begin_post s' ws ex fin h n.
Proof.
  intros I Hp Hn. unfold rpcs.dispatch_begin. cbn [negb].
  replace (negb (srv_nonce h =? 0) && _) with false
    by (symmetry; apply andb_false_iff; rewrite !negb_false_iff, !Z.eqb_eq; done).
  rewrite bool_decide_true by done. cbn [negb].
  destruct (Z.eqb_spec (clt_nonce h) 0) as [E|Hc]; cbn [negb].
  - rewrite bind_Done. do 2 eexists. split; [done|]. split; [done|].
    rewrite E. by apply inv_exec0, inv_counted.
  - assert (I' := inv_same _ _ _ _ _ I (window_touch s (clt_nonce h)) eq_refl eq_refl).
    destruct (checkduplicate_spec _ _ _ _ _ (wrap32 (xid h)) (wrap32 (xid_rep h)) I' Hc)
      as (st & b & n & s' & -> & Hw & P).
    rewrite bind_Done. cbv beta iota. rewrite bool_decide_false by done. cbn [negb ensure]. rewrite !bind_Done. cbv beta iota.
    destruct st; (do 2 eexists); (split; [done|]); unfold begin_post.
    + destruct P. split; [done|]. by apply inv_counted.
    + done.
    + done.
    + destruct P as (? & ?). done.
Qed.

(** Whatever arrives, [dispatch] drops it, refuses it, or decides as above. *)
Lemma begin_cases s ws ex fin h ok n s' :
  inv s ws ex fin → rpcs.dispatch_begin s h ok = Done (n, s') →
  n = rpcs.Drop ∧ s' = s ∨ n = rpcs.Send_header oldsrv_failure ∧ s' = s ∨ begin_post s' ws ex fin h n.
Proof.
  intros I E1. pose proof E1 as E. revert E1. unfold rpcs.dispatch_begin.
  destruct ok; cbn [negb]; [|intros [= <- <-]; by left].
  destruct (negb (srv_nonce h =? 0) && _) eqn:En; [intros [= <- <-]; by right; left|].
  destruct (bool_decide_reflect (proc h ∈ rpcs.procs_ s)) as [Hp|]; [|done]. intros _. right. right.
  destruct (dispatch_begin_spec s ws ex fin h I Hp) as (n' & s'' & E2 & P).
  - apply andb_false_iff in En. rewrite !negb_false_iff, !Z.eqb_eq in En. done.
  - rewrite E in E2. by injection E2 as <- <-.
Qed.

Lemma inv_workers s ws ex fin t d :
  inv s ws ex fin →
  match d with
  | Running c x p => 0 ≤ c ∧ (c, x) ∈ ex ∧ (c ≠ 0 → (∀ reply, (c, x, reply) ∉ fin) ∧
                      ∀ t p', ws !! t ≠ Some (Running c x p'))
  | Sending c b => c = 0 → 0 < b < rpcs.brk s ∧ ∀ c r, r ∈ rpcs.window s c → y_buf r ≠ b
  end → inv s (<[t := d]> ws) ex fin.
Proof.
  intros [] Hd. constructor; intros *; eauto; rewrite ?lookup_insert_Some.
  - intros [[<- ->]|[_ ?]]; [naive_solver|eauto].
  - intros [[<- ->]|[_ ?]] [[<- E]|[_ ?]] Hc; simplify_eq; try done; [naive_solver..|eauto].
  - intros [[<- ->]|[_ ?]]; eauto.
Qed.

Lemma inv_idle s ws ex fin t : inv s ws ex fin → inv s (delete t ws) ex fin.
Proof.
  intros []. constructor; intros *; rewrite ?lookup_delete_Some; naive_solver.
Qed.

Lemma sorted_xids w w' : y_xid <$> w' = y_xid <$> w → sorted w → sorted w'.
Proof.
  revert w'. induction w as [|r w IH]; intros [|r' w'] E0; try done.
  injection E0 as E1 E. change (y_xid <$> w' = y_xid <$> w) in E.
  intros [Hs Hr]%sorted_cons. apply sorted_cons. split; [by apply IH|].
  intros r1 H1. assert (y_xid r1 ∈ y_xid <$> w) as (r2 & E2 & ?)%list_elem_of_fmap
    by (rewrite <- E; by apply list_elem_of_fmap_2).
  specialize (Hr r2 ltac:(done)). lia.
Qed.

Lemma covered_xids w w' x : y_xid <$> w' = y_xid <$> w → covered w x → covered w' x.
Proof.
  intros E [N H]. split; [intros ->; symmetry in E; by apply fmap_nil_inv in E|].
  destruct H as [(r & Hr & <-)|H]; [left|right].
  - assert (y_xid r ∈ y_xid <$> w') as (r' & ? & ?)%list_elem_of_fmap
      by (rewrite E; by apply list_elem_of_fmap_2). eauto.
  - intros r Hr. assert (y_xid r ∈ y_xid <$> w) as (r' & -> & ?)%list_elem_of_fmap
      by (rewrite <- E; by apply list_elem_of_fmap_2). by apply H.
Qed.

(** The reply becomes a block and fills the entry of its request. *)
Lemma reply_inv s s' ws ex fin t c x p reply :
  inv s ws ex fin → ws !! t = Some (Running c x p) →
  (∀ c', y_xid <$> rpcs.window s' c' = y_xid <$> rpcs.window s c') →
  (∀ c' r', r' ∈ rpcs.window s' c' →
    (r' ∈ rpcs.window s c' ∧ (c', y_xid r') ≠ (c, x)) ∨
    (c' = c ∧ r' = mkReply x true (rpcs.brk s) (zlen reply) ∧ ∃ r, r ∈ rpcs.window s c ∧ y_xid r = x)) →
  rpcs.heap s' = <[rpcs.brk s := reply]> (rpcs.heap s) → rpcs.brk s' = rpcs.brk s + 1 →
  inv s' (<[t := Sending c (rpcs.brk s)]> ws) ex ((c, x, reply) :: fin).
Proof.
  intros I Ht Hxs Hin Hh Hb.
  destruct (i_run _ _ _ _ I _ _ _ _ Ht) as (Hc0 & Hex & Hnf).
  pose proof (i_brk _ _ _ _ I) as Hbrk.
  assert (Hfresh : ∀ c' r, r ∈ rpcs.window s c' → y_buf r ≠ rpcs.brk s).
  { intros c' r Hr E. destruct (inv_live _ _ _ _ c' I r Hr) as [?|Hl]; [lia|].
    apply (i_heap _ _ _ _ I) in Hl. lia. }
  constructor.
  - intros c'. eapply sorted_xids, i_sorted; eauto.
  - intros c' y ? ?. eapply covered_xids, i_exec; eauto.
  - intros c' r [[? _]|(-> & -> & r' & Hr & ?)]%Hin; [by apply (i_back _ _ _ _ I)|].
    destruct (i_back _ _ _ _ I _ _ Hr). done.
  - intros c' r [[Hr N]|(-> & -> & _)]%Hin Hp.
    + destruct (i_present _ _ _ _ I _ _ Hr Hp) as (y & ? & Hy & ?). exists y.
      rewrite Hh, lookup_insert_ne by (intros E; by eapply Hfresh). set_solver.
    + exists reply. rewrite Hh. cbn. rewrite lookup_insert_eq. set_solver.
  - intros c' r [[Hr N]|(-> & -> & _)]%Hin Hp; [|done].
    destruct (i_absent _ _ _ _ I _ _ Hr Hp) as [? Hf]. split; [done|]. intros y.
    apply not_elem_of_cons. split; [congruence|apply Hf].
  - intros c1 c2 r1 r2 [[H1 _]|(-> & -> & _)]%Hin [[H2 _]|(-> & -> & _)]%Hin; cbn.
    + by apply (i_inj _ _ _ _ I).
    + intros E. by destruct (Hfresh _ _ H1).
    + intros E. by destruct (Hfresh _ _ H2).
    + done.
  - intros b. rewrite Hh, Hb. intros [y [[<- _]|[_ Hy]]%lookup_insert_Some]; [lia|].
    pose proof (i_heap _ _ _ _ I b ltac:(eauto)). lia.
  - lia.
  - intros c' y z [[= -> -> ->]|?]%elem_of_cons; [done|]. by eapply i_fin.
  - intros c' y a b ? [E1|H1]%elem_of_cons [E2|H2]%elem_of_cons; simplify_eq; [done|..].
    + by destruct (Hnf ltac:(done) b).
    + by destruct (Hnf ltac:(done) a).
    + by apply (i_fun _ _ _ _ I c' y).
  - intros t' c' y p' [[_ ?]|[N Hr]]%lookup_insert_Some; [done|].
    destruct (i_run _ _ _ _ I _ _ _ _ Hr) as (? & ? & ?). split_and!; [done|done|].
    intros Hc z [E|?]%elem_of_cons; simplify_eq; [|by eapply H1].
    by apply N, (i_one _ _ _ _ I t t' c x p p').
  - intros t1 t2 c' y p1 p2 [[_ ?]|[N1 H1]]%lookup_insert_Some [[_ ?]|[N2 H2]]%lookup_insert_Some; try done.
    by eapply i_one.
  - intros t' b [[_ [= -> <-]]|[N Hs]]%lookup_insert_Some.
    + split; [lia|]. intros c' r [[Hr _]|(-> & -> & r' & Hr & _)]%Hin; [by eapply Hfresh|].
      by destruct (i_back _ _ _ _ I _ _ Hr).
    + destruct (i_send _ _ _ _ I _ _ Hs) as [? Hw]. split; [lia|].
      intros c' r [[Hr _]|(-> & -> & _)]%Hin; [by eapply Hw|cbn; lia].
  - by eapply i_once.
Qed.

Lemma dispatch_remember_spec s ws ex fin t c x p reply :
  inv s ws ex fin → ws !! t = Some (Running c x p) →
  ∃ b s', rpcs.dispatch_remember s c x reply = Done (b, s') ∧
    inv s' (<[t := Sending c b]> ws) ex ((c, x, reply) :: fin).
Proof.
  intros I Ht. destruct (i_run _ _ _ _ I _ _ _ _ Ht) as (Hc0 & Hex & _).
  unfold rpcs.dispatch_remember. set (s1 := rpcs.mk _ _ _ _ _ _ _ _).
  case_test; cycle 1.
  { do 2 eexists. split; [done|]. apply (reply_inv s s1 _ _ _ _ _ _ p); try done.
    intros c' r Hr. left. split; [done|]. destruct (i_back _ _ _ _ I _ _ Hr). intros [=]. lia. }
  destruct (i_exec _ _ _ _ I c x ltac:(lia) Hex) as [Hne _].
  unfold rpcs.add_reply. change (rpcs.window s1 c) with (rpcs.window s c).
  destruct (rpcs.window s c) as [|r0 w0] eqn:Ew; [done|]. rewrite <- Ew. rewrite bind_Done.
  do 2 eexists. split; [done|]. apply (reply_inv s _ _ _ _ _ _ _ p); try done.
  - intros c'. rewrite window_insert. case_decide; [subst c'|done].
    rewrite <- list_fmap_compose. apply list_fmap_ext. intros i r _. cbn.
    by destruct (Z.eqb_spec (y_xid r) x).
  - intros c' r. rewrite window_insert. case_decide as Ec; [subst c'|].
    + intros (r' & -> & Hr)%list_elem_of_fmap. destruct (Z.eqb_spec (y_xid r') x); cbn.
      * right. eauto.
      * left. split; [done|]. congruence.
    + intros Hr. left. split; [done|congruence].
Qed.

Lemma dispatch_reply_inv s ws ex fin t c x p ret rep b reply s' :
  inv s ws ex fin → ws !! t = Some (Running c x p) →
  rpcs.dispatch_reply s c x ret rep = Done (b, reply, s') →
  inv s' (<[t := Sending c b]> ws) ex ((c, x, reply) :: fin).
Proof.
  intros I Ht. unfold rpcs.dispatch_reply.
  intros [[] [_ [m [_ E]]%bind_Done_inv]]%bind_Done_inv.
  destruct (dispatch_remember_spec _ _ _ _ _ _ _ _ (data m) I Ht) as (b' & s'' & E' & I').
  rewrite E', bind_Done in E. by injection E as <- <- <-.
Qed.

Lemma gc_loop_sub rep w h w' h' : rpcs.gc_loop rep w h = Done (w', h') → h' ⊆ h.
Proof.
  revert h. induction w as [|r w IH]; intros h; [by intros [= _ <-]|].
  destruct w as [|r' w0]; [by intros [= _ <-]|]. set (w := r' :: w0) in *.
  change (rpcs.gc_loop rep (r :: w) h) with
    (if y_xid r <? rep then h ← rpcs.free_ h (y_buf r); rpcs.gc_loop rep w h else Done (r :: w, h)).
  destruct (_ <? _); [|by intros [= _ <-]]. intros [h1 [H1 H2%IH]]%bind_Done_inv.
  etrans; [done|]. unfold rpcs.free_ in H1. destruct (_ =? 0); [by injection H1 as <-|].
  destruct (h !! _); [|done]. injection H1 as <-. apply delete_subseteq.
Qed.

Definition kept (s s' : rpcs.t) : Prop :=
  rpcs.nonce_ s' = rpcs.nonce_ s ∧ rpcs.procs_ s' = rpcs.procs_ s ∧
  rpcs.heap s' ⊆ rpcs.heap s ∧ rpcs.brk s' = rpcs.brk s.

(** The first part of [dispatch] leaves the tables alone, and
    only frees blocks. *)
Lemma begin_keeps s h ok n s' :
  rpcs.dispatch_begin s h ok = Done (n, s') → kept s s'.
Proof.
  assert (Hgc : ∀ s c rep s', rpcs.gc_reply_window s c rep = Done s' → kept s s').
  { intros s0 c rep s1. unfold rpcs.gc_reply_window. intros [[w hp] [H [= <-]]]%bind_Done_inv.
    split_and!; [done..|by eapply gc_loop_sub|done]. }
  assert (Hck : ∀ s c x rep st b n s', rpcs.checkduplicate_and_update s c x rep = Done (st, b, n, s') → kept s s').
  { intros s0 c x rep st b m s1. unfold rpcs.checkduplicate_and_update.
    destruct (rpcs.window s0 c) as [|r0 w0] eqn:Ew; [by intros [= _ _ _ <-]|]. rewrite <- Ew.
    destruct (_ <? _); [by intros [s2 [H2%Hgc [= _ _ _ <-]]]%bind_Done_inv|].
    destruct (rpcs.scan x _); intros [s2 [H2%Hgc H3]]%bind_Done_inv; [by injection H3 as _ _ _ <-|].
    destruct (negb _); by injection H3 as _ _ _ <-. }
  unfold rpcs.dispatch_begin. destruct ok; cbn [negb]; [|by intros [= _ <-]].
  destruct (negb (srv_nonce h =? 0) && _); [by intros [= _ <-]|]. destruct (negb (bool_decide _)); [done|].
  intros [[[[st b] m] s1] [H1 H2]]%bind_Done_inv.
  assert (kept s s1) as Hk.
  { destruct (negb (clt_nonce h =? 0)); [|by injection H1 as _ _ _ <-].
    apply bind_Done_inv in H1 as [[[[st' b'] m'] s2] [H1%Hck H3]].
    apply bind_Done_inv in H3 as [_ [_ H3]]. by injection H3 as _ _ _ <-. }
  destruct st; try (by injection H2 as _ <-). injection H2 as _ <-.
  by destruct (negb (rpcs.counting_ s1 =? 0)).
Qed.

Lemma reply_heap s c x ret rep b reply s' :
  rpcs.dispatch_reply s c x ret rep = Done (b, reply, s') →
  b = rpcs.brk s ∧ rpcs.heap s' = <[b := reply]> (rpcs.heap s) ∧ rpcs.brk s' = rpcs.brk s + 1 ∧
  0 ≤ ret ∧ ∃ m, pack_reply_header (mkRep (sgn 32 x) ret) rep = Done m ∧ reply = data m.
Proof.
  unfold rpcs.dispatch_reply. destruct (Z.leb_spec 0 ret); [|done]. cbn [ensure].
  intros [_ [_ [m [Hm [[b1 s1] [H1 [= <- <- <-]]]%bind_Done_inv]]%bind_Done_inv]]%bind_Done_inv.
  revert H1. unfold rpcs.dispatch_remember. destruct (0 <? c).
  - intros [s2 [H2 [= <- <-]]]%bind_Done_inv. revert H2. unfold rpcs.add_reply.
    destruct (rpcs.window _ _); [done|]. intros [= <-]. split_and!; eauto.
  - intros [= <- <-]. split_and!; eauto.
Qed.

Lemma init_inv nonce counting procs : inv (rpcs.mk nonce ∅ ∅ 1 procs counting counting ∅) ∅ [] [].
Proof.
  constructor; try set_solver; unfold rpcs.window; cbn; intros *; rewrite ?lookup_empty; cbn; try set_solver.
  - constructor.
  - constructor.
Qed.

Lemma dstep_inv s e s' :
  inv (srv s) (workers s) (executed s) (finished s) → typed e → dstep s e = Some (Done s') →
  inv (srv s') (workers s') (executed s') (finished s').
Proof.
  destruct s as [srv ws ex fin]. cbn [RpcServer.srv workers executed finished].
  intros I Ty E. destruct e as [t h ok|t ret rep|t]; cbn [dstep RpcServer.srv workers executed finished] in E.
  - destruct (ws !! t) eqn:Et; [done|]. injection E as E.
    apply bind_Done_inv in E as [[n srv'] [E1 [= <-]]].
    destruct (begin_cases _ _ _ _ _ _ _ _ I E1) as [[-> ->]|[[-> ->]|P]]; try done.
    destruct n; unfold begin_post in P; cbn [RpcServer.srv workers executed finished].
    + by destruct P as (_ & ? & _).
    + by destruct P as (_ & _ & ? & _).
    + destruct P as [Hn I']. apply inv_workers; [done|]. split_and!; [done|set_solver|].
      intros Hc. split; [|intros t' p' Ht'; by apply Hn, (i_run _ _ _ _ I _ _ _ _ Ht')].
      intros reply Hr. by apply Hn, (i_fin _ _ _ _ I _ _ reply).
    + destruct P as (? & I' & _). apply inv_workers; [done|]. intros. done.
  - destruct (ws !! t) as [[c x p|]|] eqn:Et; [|done..]. injection E as E.
    apply bind_Done_inv in E as [[[b reply] srv'] [E1 [= <-]]]. by eapply dispatch_reply_inv.
  - destruct (ws !! t) as [[|c b]|] eqn:Et; [done| |done]. injection E as E.
    apply bind_Done_inv in E as [[r srv'] [E1 [= <-]]]. cbn [RpcServer.srv workers executed finished].
    unfold rpcs.dispatch_send in E1. destruct (rpcs.heap srv !! b) as [y|] eqn:Eb; [|done].
    destruct (Z.eqb_spec c 0); injection E1 as <- <-; [subst c|by apply inv_idle].
    destruct (i_send _ _ _ _ I _ _ Et) as [_ Hw].
    apply inv_idle. constructor; try (by destruct I).
    + intros c r Hr Hp. destruct (i_present _ _ _ _ I c r Hr Hp) as (z & ? & ? & ?). exists z.
      split_and!; [done| |done]. cbn. rewrite lookup_delete_ne; [done|]. intros E. by apply (Hw c r).
    + intros b'. cbn. intros [z [_ Hz]%lookup_delete_Some]. apply (i_heap _ _ _ _ I). eauto.
Qed.

Lemma dreach_inv nonce counting procs s :
  dreach nonce counting procs s → inv (srv s) (workers s) (executed s) (finished s).
Proof. induction 1; [apply init_inv|]. by eapply dstep_inv. Qed.

(** Running a list of events. *)
Fixpoint drun (s : dsys) (es : list devent) : option (outcome dsys) :=
  match es with
  | [] => Some (Done s)
  | e :: es =>
      match dstep s e with
      | Some (Done s') => drun s' es
      | r => r
      end
  end.

#[export] Instance typed_dec e : Decision (typed e).
Proof. destruct e; cbn; apply _. Defined.

Lemma drun_reach nonce counting procs s es s' :
  dreach nonce counting procs s → Forall typed es → drun s es = Some (Done s') → dreach nonce counting procs s'.
Proof.
  intros R Ht. revert s R. induction Ht as [|e es He _ IH]; intros s R; cbn [drun]; [by intros [= <-]|].
  destruct (dstep s e) as [[s1| | |]|] eqn:E; try done. intros Hr. eapply IH; [|done]. by econstructor.
Qed.

(** C3: At-most-once execution.  Whatever the network delivers, duplicates,
    reordered and delayed requests and any acknowledgements included, and
    however the worker threads interleave, the handler of a request of a client
    with a nonce runs at most once. *)
Theorem rpc_at_most_once nonce counting procs s :
  dreach nonce counting procs s → NoDup (filter (λ p, p.1 ≠ 0) (executed s)).
Proof. intros R. by apply dreach_inv, i_once in R. Qed.

(** ** What is remembered stays until it is acknowledged *)

(** The reply of a request is in the window, in its block. *)
Definition remembered (s : rpcs.t) (c x b : Z) (reply : bytes) : Prop :=
  ∃ r, r ∈ rpcs.window s c ∧ y_xid r = x ∧ cb_present r = true ∧ y_buf r = b ∧ rpcs.heap s !! b = Some reply.

(** An arriving message does not acknowledge the request. *)
Definition no_ack (c x : Z) (e : devent) : Prop :=
  match e with DRecv _ h _ => clt_nonce h = c → wrap32 (xid_rep h) ≤ x | _ => True end.

#[export] Instance no_ack_dec c x e : Decision (no_ack c x e).
Proof. destruct e; cbn; apply _. Defined.

Lemma gc_window_keeps s ws ex fin c rep s' c' r :
  inv s ws ex fin → rpcs.gc_reply_window s c rep = Done s' → r ∈ rpcs.window s c' → (c = c' → rep ≤ y_xid r) → r ∈ rpcs.window s' c'.
Proof.
  intros I E Hr Hle. destruct (gc_inv s ws ex fin c rep I) as (s1 & E1 & _ & _ & K). rewrite E in E1. injection E1 as <-.
  destruct (decide (c = c')) as [<-|N]; [by apply K, Hle|]. revert E. unfold rpcs.gc_reply_window.
  intros [[w h] [_ [= <-]]]%bind_Done_inv. by rewrite window_insert, decide_False.
Qed.

Lemma check_window_keeps s ws ex fin c x rep st b n s' c' r :
  inv s ws ex fin → c ≠ 0 → rpcs.checkduplicate_and_update s c x rep = Done (st, b, n, s') →
  r ∈ rpcs.window s c' → (c = c' → rep ≤ y_xid r) → r ∈ rpcs.window s' c'.
Proof.
  intros I Hc E Hr Hle. destruct (checkduplicate_spec s ws ex fin c x rep I Hc) as (st' & b' & n' & s1 & E1 & _ & P).
  rewrite E in E1. injection E1 as <- <- <- <-. revert E. unfold rpcs.checkduplicate_and_update.
  destruct (rpcs.window s c) as [|r0 w0] eqn:Ew.
  { intros [= _ _ _ <-]. rewrite window_insert. case_decide as Ec; [|done]. subst c'. rewrite Ew in Hr. by apply elem_of_nil in Hr. }
  case_test; [intros [s2 [E2 [= _ _ _ <-]]]%bind_Done_inv; by eapply gc_window_keeps|].
  rewrite <- Ew. destruct (rpcs.scan x (rpcs.window s c)) as [w|r1] eqn:Es.
  - destruct (scan_inl _ _ _ (i_sorted _ _ _ _ I c) Es) as (_ & Hsw & Hw).
    intros [s2 [E2 [= <- _ _ <-]]]%bind_Done_inv. destruct P as [Hx _].
    assert (I2 := insert_inv s ws ex fin c x w I Hc Hx Hsw Hw). opose proof (I2 _) as I3.
    { intros y Hy. destruct (i_exec _ _ _ _ I c y Hc Hy) as [_ [(r2 & Hr2 & <-)|H']].
      - split; [intros ->; set_solver|]. left. exists r2. rewrite Hw. auto.
      - split; [intros ->; assert (r0 ∈ rpcs.window s c) by (rewrite Ew; set_solver); set_solver|]. right.
        intros r2 [Hr2| ->]%Hw; [by auto|]. assert (Hr0 : r0 ∈ rpcs.window s c) by (rewrite Ew; set_solver).
        specialize (H' r0 Hr0). cbn. lia. }
    eapply gc_window_keeps; [exact I3|exact E2| |done]. rewrite window_insert. case_decide as Ec; [subst c'|done]. rewrite Hw. by left.
  - intros [s2 [E2 E3]]%bind_Done_inv. assert (s' = s2) as -> by (destruct (negb _); by injection E3). by eapply gc_window_keeps.
Qed.

Lemma begin_window_keeps s ws ex fin h ok n s' c r :
  inv s ws ex fin → rpcs.dispatch_begin s h ok = Done (n, s') → r ∈ rpcs.window s c →
  (clt_nonce h = c → wrap32 (xid_rep h) ≤ y_xid r) → r ∈ rpcs.window s' c.
Proof.
  intros I E Hr Hle. revert E. unfold rpcs.dispatch_begin. destruct ok; cbn [negb]; [|by intros [= _ <-]].
  destruct (negb (srv_nonce h =? 0) && _); [by intros [= _ <-]|]. destruct (negb (bool_decide _)); [done|].
  intros [[[[st b] m] s1] [H1 H2]]%bind_Done_inv. assert (r ∈ rpcs.window s1 c) as Hr1.
  { destruct (Z.eqb_spec (clt_nonce h) 0) as [|Hc]; cbn [negb] in H1; [by injection H1 as _ _ _ <-|].
    apply bind_Done_inv in H1 as [[[[st' b'] m'] s2] [H1 H3]]. apply bind_Done_inv in H3 as [_ [_ [= _ _ _ <-]]].
    eapply (check_window_keeps _ ws ex fin); [|exact Hc|exact H1|by rewrite window_touch|exact Hle].
    by apply (inv_same _ _ _ _ _ I (window_touch s (clt_nonce h)) eq_refl eq_refl). }
  destruct st; try (by injection H2 as _ <-). injection H2 as _ <-. by destruct (negb (rpcs.counting_ s1 =? 0)).
Qed.

(** The block that is sent again is that of the remembered reply. *)
Lemma begin_resends s ws ex fin h b n s' reply :
  inv s ws ex fin → rpcs.dispatch_begin s h true = Done (rpcs.Resend b n, s') → wrap32 (xid_rep h) ≤ wrap32 (xid h) →
  clt_nonce h ≠ 0 → (clt_nonce h, wrap32 (xid h), reply) ∈ fin → remembered s' (clt_nonce h) (wrap32 (xid h)) b reply.
Proof.
  intros I E Hle Hc Hf. assert (I' : inv s' ws ex fin).
  { destruct (begin_cases _ _ _ _ _ _ _ _ I E) as [[? _]|[[? _]|P]]; [done..|]. by destruct P as (_ & ? & _). }
  revert E. unfold rpcs.dispatch_begin. cbn [negb]. destruct (negb (srv_nonce h =? 0) && _); [done|]. destruct (negb (bool_decide _)); [done|].
  rewrite (proj2 (Z.eqb_neq _ _) Hc). cbn [negb]. intros [[[[st b1] m] s1] [H1 H2]]%bind_Done_inv. destruct st; try done.
  injection H2 as -> -> ->. apply bind_Done_inv in H1 as [[[[st' b'] m'] s2] [H1 H3]]. apply bind_Done_inv in H3 as [_ [_ [= -> -> -> ->]]].
  assert (I1 := inv_same _ _ _ _ _ I (window_touch s (clt_nonce h)) eq_refl eq_refl).
  pose proof (λ r Hr H, check_window_keeps _ _ _ _ _ _ _ _ _ _ _ (clt_nonce h) r I1 Hc H1 Hr (λ _, H)) as Hk.
  revert H1 I1 Hk. generalize (rpcs.set_window (<[clt_nonce h := rpcs.window s (clt_nonce h)]> (rpcs.reply_window_ s)) (rpcs.heap s) s).
  intros s0 H1 I1 Hk. revert H1. unfold rpcs.checkduplicate_and_update. destruct (rpcs.window s0 (clt_nonce h)) as [|r0 w0] eqn:Ew; [done|].
  destruct (_ <? _); [by intros [s2 [_ [=]]]%bind_Done_inv|]. rewrite <- Ew in *.
  destruct (rpcs.scan _ _) as [w|r] eqn:Es; [by intros [s2 [_ [=]]]%bind_Done_inv|].
  intros [s2 [_ H1]]%bind_Done_inv. destruct (cb_present r) eqn:Hp; cbn [negb] in H1; [|done]. injection H1 as <- _ _.
  destruct (scan_inr _ _ _ Es) as [Hr Hx]. rewrite <- Hx in Hle. specialize (Hk r Hr Hle).
  destruct (i_present _ _ _ _ I' _ _ Hk Hp) as (reply' & Hf' & Hh & _). exists r. split_and!; try done.
  rewrite Hh. rewrite Hx in Hf'. f_equal. by apply (i_fun _ _ _ _ I' (clt_nonce h) (wrap32 (xid h))).
Qed.

(** A reply fills no entry but that of its own request. *)
Lemma reply_window_keeps s c x ret rep b reply s' c' r :
  rpcs.dispatch_reply s c x ret rep = Done (b, reply, s') → r ∈ rpcs.window s c' → (c, x) ≠ (c', y_xid r) → r ∈ rpcs.window s' c'.
Proof.
  unfold rpcs.dispatch_reply. intros [_ [_ [m [_ [[b1 s1] [H1 [= <- <- <-]]]%bind_Done_inv]]%bind_Done_inv]]%bind_Done_inv Hr Hne.
  revert H1. unfold rpcs.dispatch_remember. destruct (0 <? c); [|by intros [= _ <-]].
  intros [s2 [H2 [= _ <-]]]%bind_Done_inv. revert H2. unfold rpcs.add_reply.
  destruct (rpcs.window _ c) as [|r0 w0] eqn:Ew; [done|]. rewrite <- Ew. intros H2. injection H2 as <-. unfold rpcs.window. cbn. rewrite lookup_insert.
  case_decide as Ec; [subst c'|done]. apply list_elem_of_fmap. exists r. destruct (Z.eqb_spec (y_xid r) x); [congruence|by split].
Qed.

Lemma remembered_step s e s' c x b reply :
  inv (srv s) (workers s) (executed s) (finished s) → 0 < c → typed e → no_ack c x e → dstep s e = Some (Done s') →
  remembered (srv s) c x b reply → (c, x, reply) ∈ finished s → remembered (srv s') c x b reply ∧ (c, x, reply) ∈ finished s'.
Proof.
  intros I Hc Ht Hack E (r & Hr & Hx & Hp & Hb & Hh) Hf. assert (I' := dstep_inv s e s' I Ht E).
  enough (Hk : r ∈ rpcs.window (srv s') c ∧ (c, x, reply) ∈ finished s').
  { destruct Hk as [Hr' Hf']. split; [|done]. destruct (i_present _ _ _ _ I' c r Hr' Hp) as (reply' & Hf2 & Hh' & _).
    exists r. split_and!; try done. rewrite <- Hb, Hh'. rewrite Hx in Hf2. f_equal. by apply (i_fun _ _ _ _ I' c x); [lia|..]. }
  destruct e as [t h ok|t ret rep|t]; cbn [dstep] in E.
  - destruct (workers s !! t); [done|]. injection E as E. apply bind_Done_inv in E as [[n srv'] [E1 [= <-]]].
    split; [|by destruct n]. enough (r ∈ rpcs.window srv' c) by by destruct n.
    apply (begin_window_keeps _ _ _ _ _ _ _ _ _ _ I E1 Hr). rewrite Hx. exact Hack.
  - destruct (workers s !! t) as [[c' x' p|]|] eqn:Et; [|done..]. injection E as E.
    apply bind_Done_inv in E as [[[b' reply'] srv'] [E1 [= <-]]]. cbn [srv finished]. split; [|by right].
    apply (reply_window_keeps _ _ _ _ _ _ _ _ _ _ E1 Hr). rewrite Hx. intros [= -> ->].
    destruct (i_run _ _ _ _ I _ _ _ _ Et) as (_ & _ & H). by apply (H ltac:(lia) reply).
  - destruct (workers s !! t) as [[|c' b']|] eqn:Et; [done| |done]. injection E as E.
    apply bind_Done_inv in E as [[y srv'] [E1 [= <-]]]. cbn [srv finished]. split; [|done].
    revert E1. unfold rpcs.dispatch_send. destruct (rpcs.heap (srv s) !! b'); [|done]. by destruct (c' =? 0); intros [= _ <-].
Qed.

Lemma remembered_run es : ∀ s s' c x b reply,
  inv (srv s) (workers s) (executed s) (finished s) → 0 < c → Forall typed es → Forall (no_ack c x) es → drun s es = Some (Done s') →
  remembered (srv s) c x b reply → (c, x, reply) ∈ finished s → remembered (srv s') c x b reply.
Proof.
  induction es as [|e es IH]; intros s s' c x b reply I Hc Ht Ha; cbn [drun]; [by intros [= <-]|].
  apply Forall_cons in Ht as [Ht1 Ht], Ha as [Ha1 Ha]. destruct (dstep s e) as [[s1| | |]|] eqn:E; try done.
  intros Hrun Hr Hf. destruct (remembered_step s e s1 c x b reply I Hc Ht1 Ha1 E Hr Hf) as [Hr1 Hf1].
  apply (IH s1); try done. by eapply dstep_inv.
Qed.

(** C21: A duplicate of an answered request is never executed again and never
    crashes the dispatcher: it is refused because the client has had a later request
    executed, or a worker is told to send a block of memory.  If the duplicate does
    not acknowledge itself, and as long as no message that arrives meanwhile
    acknowledges the request, what that worker sends, whenever it comes to it and
    whatever else the server has done in between, is the reply of the request's only
    execution.  (With an acknowledgement in between the block may have been freed:
    [resent_reply_may_be_freed].) *)
Theorem rpc_duplicate_gets_its_reply nonce counting procs s t h reply :
  dreach nonce counting procs s → workers s !! t = None → 0 < clt_nonce h →
  srv_nonce h = 0 ∨ srv_nonce h = rpcs.nonce_ (srv s) → proc h ∈ rpcs.procs_ (srv s) →
  (clt_nonce h, wrap32 (xid h), reply) ∈ finished s →
  ∃ s', dstep s (DRecv t h true) = Some (Done s') ∧ executed s' = executed s ∧
    ((∃ b, workers s' = <[t := Sending (clt_nonce h) b]> (workers s) ∧
           (wrap32 (xid_rep h) ≤ wrap32 (xid h) → ∀ es s2,
              Forall typed es → Forall (no_ack (clt_nonce h) (wrap32 (xid h))) es → drun s' es = Some (Done s2) →
              rpcs.dispatch_send (srv s2) (clt_nonce h) b = Done (reply, srv s2))) ∨
     (workers s' = workers s ∧ ∃ y, (clt_nonce h, y) ∈ executed s ∧ wrap32 (xid h) < y)).
Proof.
  intros R Ht Hc Hn Hp Hf. assert (I := dreach_inv _ _ _ _ R).
  destruct (dispatch_begin_spec _ _ _ _ h I Hp Hn) as (n & s' & E & P).
  assert (Hx := i_fin _ _ _ _ I _ _ _ Hf).
  assert (Ed : dstep s (DRecv t h true) = Some (Done match n with
    | rpcs.Run => mkD s' (<[t := Running (clt_nonce h) (wrap32 (xid h)) (proc h)]> (workers s)) ((clt_nonce h, wrap32 (xid h)) :: executed s) (finished s)
    | rpcs.Resend b _ => mkD s' (<[t := Sending (clt_nonce h) b]> (workers s)) (executed s) (finished s)
    | _ => mkD s' (workers s) (executed s) (finished s) end)) by (unfold dstep; by rewrite Ht, E, bind_Done).
  eexists. split; [exact Ed|]. destruct n; cbn [begin_post] in P; cbn [executed workers srv].
  - destruct P as (_ & _ & _ & H). by destruct (H reply).
  - destruct P as (_ & _ & _ & y & ?). split; [done|]. right. split; [done|]. by exists y.
  - destruct P as [H _]. destruct H; [lia|done].
  - split; [done|]. left. eexists. split; [done|]. intros Hle es s2 Hty Hack Hrun.
    assert (I2 := dstep_inv s (DRecv t h true) _ I (Z.lt_le_incl _ _ Hc : typed (DRecv t h true)) Ed).
    assert (Hre : remembered s' (clt_nonce h) (wrap32 (xid h)) b reply).
    { apply (begin_resends _ _ _ _ _ _ _ _ _ I E); [done|lia|done]. }
    destruct (remembered_run es _ s2 _ _ b reply I2 Hc Hty Hack Hrun Hre Hf) as (r & _ & _ & _ & _ & Hb).
    unfold rpcs.dispatch_send. rewrite Hb. by test_false.
Qed.

(** A run: client 7 has procedure 5 executed for request 1, and sends it again. *)
Definition demo_request (x rep : Z) : req_header := mkReq x 5 7 9 rep.
Definition demo_body (m : String.string) : mar :=
  match put str (bs m) mar_new with Done m => m | _ => mar_new end.
Definition demo_reply : bytes :=
  match pack_reply_header (mkRep 1 0) (demo_body "one") with Done m => data m | _ => [] end.
Definition demo_run : list devent :=
  [DRecv 0 (demo_request 1 0) true; DReturn 0 0 (demo_body "one"); DSend 0].

Example rpc_at_most_once_witness :
  ∃ s, drun (dinit 9 0 {[5]}) (demo_run ++ [DRecv 0 (demo_request 1 0) true]) = Some (Done s) ∧
    NoDup (filter (λ p, p.1 ≠ 0) (executed s)).
Proof.
  eexists. split; [vm_compute; reflexivity|].
  apply (rpc_at_most_once 9 0 {[5]}).
  apply (drun_reach _ _ _ _ (demo_run ++ [DRecv 0 (demo_request 1 0) true]) _ (dreach_init _ _ _));
    [apply (bool_decide_unpack _); vm_compute; exact I|vm_compute; reflexivity].
Defined.

Definition demo_state : dsys := match drun (dinit 9 0 {[5]}) demo_run with Some (Done s) => s | _ => dinit 9 0 {[5]} end.

(** Request 2, which acknowledges nothing from 1 on, is served before the
    duplicate of request 1 is answered. *)
Definition demo_between : list devent := [DRecv 1 (demo_request 2 1) true; DReturn 1 0 (demo_body "two"); DSend 1].

Lemma rpc_duplicate_gets_its_reply_witness :
  ∃ s' b s2, dstep demo_state (DRecv 0 (demo_request 1 0) true) = Some (Done s') ∧ executed s' = executed demo_state ∧
    drun s' demo_between = Some (Done s2) ∧ rpcs.dispatch_send (srv s2) 7 b = Done (demo_reply, srv s2).
Proof.
  destruct (rpc_duplicate_gets_its_reply 9 0 {[5]} demo_state 0 (demo_request 1 0) demo_reply) as (s' & E & Hex & [(b & _ & H)|(_ & y & Hy & Hlt)]).
  - apply (drun_reach _ _ _ _ demo_run _ (dreach_init _ _ _));
      [apply (bool_decide_unpack _); vm_compute; exact I|vm_compute; reflexivity].
  - vm_compute. reflexivity.
  - cbn. lia.
  - right. vm_compute. reflexivity.
  - apply (bool_decide_unpack _). vm_compute. exact I.
  - apply (bool_decide_unpack _). vm_compute. exact I.
  - destruct (drun s' demo_between) as [[s2| | |]|] eqn:Er; try (exfalso; vm_compute in E; injection E as <-; vm_compute in Er; done).
    exists s', b, s2. split; [exact E|]. split; [exact Hex|]. split; [exact Er|]. apply (H ltac:(vm_compute; done) demo_between); [| |exact Er].
    + apply (bool_decide_unpack _). vm_compute. exact I.
    + apply (bool_decide_unpack _). vm_compute. exact I.
  - exfalso. assert (Hin : executed demo_state = [(7, 1)]) by (vm_compute; reflexivity). rewrite Hin in Hy.
    apply list_elem_of_singleton in Hy. injection Hy as ->. by vm_compute in Hlt.
Defined.

(** A remembered reply is sent from a buffer that the window still owns.
    In this run a worker holds the reply of request 1 for a duplicate of it,
    requests 2 and 3 go through, the acknowledgement of 3 frees the buffer,
    and the worker then sends freed memory. *)
Theorem resent_reply_may_be_freed :
  drun (dinit 9 0 {[5]})
    (demo_run ++
     [DRecv 1 (demo_request 1 0) true;
      DRecv 0 (demo_request 2 1) true; DReturn 0 0 (demo_body "two"); DSend 0;
      DRecv 0 (demo_request 3 2) true; DSend 1]) = Some Undef.
Proof. vm_compute. reflexivity. Qed.
