(* ===== verification/RpcClient.v ===== *)
(** * The RPC client (src/rpc/rpc.cc, class rpcc)

    Outstanding calls, the window of acknowledged transaction ids, and [call1]:
    its critical sections as operations on the shared state, its waiting loop
    over the readings of the clock.  Connections are not modelled: an iteration
    of the loop is told whether there is one and whether it is dead. *)

From S2P Require Import Prelude Marshall.

Definition bind_proc : Z := 1.
Definition timeout_failure : Z := -1.
Definition unmarshal_reply_failure : Z := -3.
Definition bind_failure : Z := -6.
Definition cancel_failure : Z := -7.
Definition to_max : Z := 120000.
Definition to_min : Z := 1000.

(** ** Time *)

Record timespec : Type := mkTime { tv_sec : Z; tv_nsec : Z }.

Definition cmp_timespec (a b : timespec) : Z :=
  if tv_sec b <? tv_sec a then 1
  else if tv_sec a <? tv_sec b then -1
  else if tv_nsec b <? tv_nsec a then 1
  else if tv_nsec a <? tv_nsec b then -1 else 0.

(** The normalising loop runs while there is more than a second. *)
Fixpoint carry (fuel : nat) (r : timespec) : outcome timespec :=
  if tv_nsec r <=? 1000000000 then Done r
  else match fuel with
       | O => NoFuel
       | S fuel => carry fuel (mkTime (tv_sec r + 1) (tv_nsec r - 1000000000))
       end.

(** Two rounds are enough for a nanosecond field below two seconds. *)
Definition add_timespec (a : timespec) (b : Z) : outcome timespec :=
  let r := mkTime (tv_sec a + Z.quot b 1000) (tv_nsec a + Z.rem b 1000 * 1000000) in
  _ ← ensure (0 <=? tv_nsec r);
  carry 2 r.

Definition diff_timespec (e s : timespec) : outcome Z :=
  let diff := if tv_sec s <? tv_sec e then (tv_sec e - tv_sec s) * 1000 else 0 in
  _ ← ensure (negb (diff =? 0) || (tv_sec e =? tv_sec s));
  Done (if tv_nsec s <? tv_nsec e then diff + Z.quot (tv_nsec e - tv_nsec s) 1000000
        else diff - Z.quot (tv_nsec s - tv_nsec e) 1000000).

(** ** The client *)

Module rpcc.

Record caller : Type := mkCaller { done_ : bool; intret : Z; un : unm }.

(** [request]: a copy of a request kept by the loss test; -1 is no request. *)
Record request : Type := mkRequest { rq_buf : bytes; rq_xid : Z }.
Definition clear : request := mkRequest [] (-1).
Definition isvalid (r : request) : bool := negb (rq_xid r =? -1).

Record t : Type := mk {
  clt_nonce_ : Z; srv_nonce_ : Z; bind_done_ : bool; xid_ : Z; lossytest_ : bool; retrans_ : bool;
  destroy_wait_ : bool; calls_ : gmap Z caller; xid_rep_window_ : list Z;
  dup_req_ : request; xid_rep_done_ : Z }.

(** The nonce is random; without [retrans] it is 0. *)
Definition make (nonce : Z) (lossy retrans : bool) : t :=
  mk (if retrans then nonce else 0) 0 false 1 lossy retrans false ∅ [0] clear (-1).

Definition set_calls (cs : gmap Z caller) (s : t) : t :=
  mk (clt_nonce_ s) (srv_nonce_ s) (bind_done_ s) (xid_ s) (lossytest_ s) (retrans_ s)
     (destroy_wait_ s) cs (xid_rep_window_ s) (dup_req_ s) (xid_rep_done_ s).
Definition set_window (w : list Z) (s : t) : t :=
  mk (clt_nonce_ s) (srv_nonce_ s) (bind_done_ s) (xid_ s) (lossytest_ s) (retrans_ s)
     (destroy_wait_ s) (calls_ s) w (dup_req_ s) (xid_rep_done_ s).
Definition set_dup (r : request) (d : Z) (s : t) : t :=
  mk (clt_nonce_ s) (srv_nonce_ s) (bind_done_ s) (xid_ s) (lossytest_ s) (retrans_ s)
     (destroy_wait_ s) (calls_ s) (xid_rep_window_ s) r d.

(** The loop that puts an id in its place; equal ids stay. *)
Fixpoint put_xid (x : Z) (w : list Z) : list Z :=
  match w with
  | [] => [x]
  | y :: w' => if x <? y then x :: w else y :: put_xid x w'
  end.

(** [while (front + 1 == *it) pop_front()], [p] being the list before [it];
    when all of it is popped the front is [*it] itself. *)
Fixpoint pop_front (p : list Z) (x : Z) : list Z :=
  match p with
  | f :: p' => if wrap32 (f + 1) =? x then pop_front p' x else p
  | [] => []
  end.
Fixpoint compress (p w : list Z) : list Z :=
  match w with
  | [] => p
  | x :: w => compress (pop_front p x ++ [x]) w
  end.

(** The front of an empty window is undefined. *)
Definition front (s : t) : outcome Z :=
  match xid_rep_window_ s with [] => Undef | f :: _ => Done f end.

Definition update_xid_rep (s : t) (x : Z) : outcome t :=
  f ← front s;
  if x <=? f then Done s
  else match put_xid x (xid_rep_window_ s) with
       | [] => Undef
       | f :: w => Done (set_window (compress [f] w) s)
       end.

(** The first section of [call1]: an error, or the id of the call, the id it
    acknowledges and the request. *)
Definition call1_begin (s : t) (p : Z) (m : mar) : outcome ((Z + Z * Z * mar) * t) :=
  if (negb (p =? bind_proc) && negb (bind_done_ s)) || ((p =? bind_proc) && bind_done_ s)
  then Done (inl bind_failure, s)
  else if destroy_wait_ s then Done (inl cancel_failure, s)
  else
    let x := xid_ s in
    rep ← front s;
    m ← pack_req_header (mkReq (sgn 32 x) (sgn 32 p) (clt_nonce_ s) (srv_nonce_ s) (sgn 32 rep)) m;
    Done (inr (x, rep, m),
      mk (clt_nonce_ s) (srv_nonce_ s) (bind_done_ s) (wrap32 (x + 1)) (lossytest_ s) (retrans_ s)
         (destroy_wait_ s) (<[sgn 32 x := mkCaller false 0 (mkUnm [] 0 false)]> (calls_ s)) (xid_rep_window_ s)
         (dup_req_ s) (xid_rep_done_ s)).

(** What one transmission sends, the loss test's old request first. *)
Definition transmit (s : t) (req : bytes) : list bytes * t :=
  if isvalid (dup_req_ s) && (rq_xid (dup_req_ s) <? xid_rep_done_ s)
  then ([rq_buf (dup_req_ s); req], set_dup clear (xid_rep_done_ s) s)
  else ([req], s).

(** The last sections of [call1]. *)
Definition call1_finish (s : t) (x rep : Z) (req : bytes) : outcome (Z * t) :=
  let c := default (mkCaller false 0 (mkUnm [] 0 false)) (calls_ s !! sgn 32 x) in
  s ← update_xid_rep (set_calls (delete (sgn 32 x) (calls_ s)) s) x;
  let s :=
    if done_ c && lossytest_ s then
      set_dup (if isvalid (dup_req_ s) then dup_req_ s else mkRequest req (sgn 32 x))
              (if xid_rep_done_ s <? sgn 32 rep then sgn 32 rep else xid_rep_done_ s) s
    else s in
  Done (if done_ c then intret c else timeout_failure, s).

(** A reply from the connection. *)
Definition got_pdu (s : t) (b : bytes) : outcome t :=
  let '(h, rep) := unpack_reply_header (unm_of b) in
  if negb (u_ok rep) then Done s
  else
    s ← update_xid_rep s (wrap32 (r_xid h));
    Done match calls_ s !! r_xid h with
         | None => s
         | Some c =>
             if done_ c then s
             else set_calls (<[r_xid h := mkCaller true (r_ret h) (take_in rep)]> (calls_ s)) s
         end.

(** [cancel]: the flag is set when calls are outstanding, and the wait is over
    when there are none. *)
Definition cancel (s : t) : t :=
  mk (clt_nonce_ s) (srv_nonce_ s) (bind_done_ s) (xid_ s) (lossytest_ s) (retrans_ s)
     (destroy_wait_ s || negb (bool_decide (calls_ s = ∅)))
     ((λ c, mkCaller true cancel_failure (un c)) <$> calls_ s) (xid_rep_window_ s)
     (dup_req_ s) (xid_rep_done_ s).

(** [bind], given what its call returned. *)
Definition bind_return (s : t) (ret r : Z) : t :=
  if ret =? 0 then
    mk (clt_nonce_ s) r true (xid_ s) (lossytest_ s) (retrans_ s) (destroy_wait_ s) (calls_ s)
       (xid_rep_window_ s) (dup_req_ s) (xid_rep_done_ s)
  else s.

(** [call_m]: the value of a reply that is exactly one value. *)
Definition call_m {A} (c : codec A) (ret : Z) (u : unm) : outcome (Z * option A) :=
  if ret <? 0 then Done (ret, None)
  else '(x, u) ← get c u; if okdone u then Done (ret, Some x) else Throws.

(** One round of the waiting loop: whether there is a usable connection, the clock,
    whether the reply had come when the wait ended, whether the connection is
    missing or dead. *)
Record round : Type := mkRound { w_ch : bool; w_now : timespec; w_done : bool; w_dead : bool }.

(** The waiting loop of [call1]; the number of transmissions.  Shifting an
    [int] out of its range is undefined. *)
Fixpoint call1_loop (retrans : bool) (curr : Z) (tr : bool) (final : timespec) (sent : Z)
    (rs : list round) : outcome Z :=
  match rs with
  | [] => NoFuel
  | r :: rs =>
      let sent := if tr && w_ch r then sent + 1 else sent in
      if tv_sec final =? 0 then Done sent
      else
        next ← add_timespec (w_now r) curr;
        let final := if 0 <? cmp_timespec next final then mkTime 0 (tv_nsec final) else final in
        if w_done r then Done sent
        else if int_max <? curr * 2 then Undef
        else call1_loop retrans (curr * 2) (retrans && w_dead r) final sent rs
  end.

Definition call1_wait (retrans : bool) (to : Z) (now : timespec) (rs : list round) : outcome Z :=
  final ← add_timespec now to;
  call1_loop retrans to_min true final 0 rs.

End rpcc.

(** ** The acknowledgement window *)

(** A window [w] stands for the answered ids [D]: its front is the end of the
    largest prefix of answered ids, the rest the answered ids behind it. *)
Record wok (D : list Z) (f : Z) (p : list Z) (w : list Z) : Prop := {
  w_sorted : StronglySorted Z.le ((f :: p) ++ w);
  w_low y : 0 < y ≤ f → y ∈ D;
  w_elem y : y ∈ (f :: p) ++ w → y = 0 ∨ y ∈ D;
  w_all y : y ∈ D → y ≤ f ∨ y ∈ (f :: p) ++ w;
  w_gap : f + 1 ∉ p;
  w_pos y : y ∈ (f :: p) ++ w → 0 ≤ y < 2 ^ 31 }.

Lemma pop_front_stop f p x : wrap32 (f + 1) ≠ x → rpcc.pop_front (f :: p) x = f :: p.
Proof. intros H. cbn. by destruct (Z.eqb_spec (wrap32 (f + 1)) x). Qed.

Lemma pop_front_all f p : 0 ≤ f < 2 ^ 31 → (∀ y, y ∈ p → y = f) → rpcc.pop_front p (f + 1) = [].
Proof.
  intros Hf Hp. induction p as [|y p IH]; [done|]. cbn.
  rewrite (Hp y), (wrap_small 32 (f + 1)), Z.eqb_refl by (lia || set_solver). apply IH. set_solver.
Qed.

Lemma compress_wok D f p w :
  wok D f p w → ∃ f' p', rpcc.compress (f :: p) w = f' :: p' ∧ wok D f' p' [].
Proof.
  revert f p. induction w as [|x w IH]; intros f p W; [by exists f, p|].
  pose proof (w_sorted _ _ _ _ W) as Hs. apply StronglySorted_app in Hs as (Hpx & Hsp & Hsw).
  apply StronglySorted_inv in Hsw as [Hsw Hxw]. rewrite Forall_forall in Hxw.
  assert (Hf : 0 ≤ f < 2 ^ 31) by (apply (w_pos _ _ _ _ W); set_solver).
  assert (Hle : ∀ y, y ∈ f :: p → f ≤ y ≤ x).
  { intros y Hy. split; [|by apply Hpx; [done|set_solver]].
    apply StronglySorted_inv in Hsp as [_ Hsp]. rewrite Forall_forall in Hsp. set_solver by lia. }
  cbn [rpcc.compress]. destruct (decide (f + 1 = x)) as [<-|N].
  - assert (Heq : ∀ y, y ∈ p → y = f).
    { intros y Hy. specialize (Hle y ltac:(set_solver)). pose proof (w_gap _ _ _ _ W).
      destruct (decide (y = f + 1)) as [->|]; [done|lia]. }
    rewrite (pop_front_all f (f :: p)) by (try done; set_solver). cbn [app].
    apply IH. constructor; cbn [app].
    + by constructor; [|apply Forall_forall].
    + intros y Hy. destruct (decide (y = f + 1)) as [->|].
      * destruct (w_elem _ _ _ _ W (f + 1)); [set_solver|lia|done].
      * apply (w_low _ _ _ _ W). lia.
    + intros y Hy. apply (w_elem _ _ _ _ W). set_solver.
    + intros y Hy. destruct (w_all _ _ _ _ W y Hy) as [?|Hy']; [left; lia|].
      apply elem_of_app in Hy' as [Hy'|?]; [left; specialize (Hle y Hy'); lia|by right].
    + set_solver.
    + intros y Hy. apply (w_pos _ _ _ _ W). set_solver.
  - rewrite pop_front_stop by (rewrite (wrap_small 32 (f + 1)); [done|lia]).
    cbn [app]. apply IH. pose proof (app_assoc (f :: p) [x] w) as Ha. cbn [app] in Ha.
    destruct W as [W1 W2 W3 W4 W5 W6]. cbn [app] in *. rewrite Ha in *.
    constructor; try done. set_solver.
Qed.

Lemma put_xid_elem x w y : y ∈ rpcc.put_xid x w ↔ y = x ∨ y ∈ w.
Proof. induction w as [|z w IH]; cbn; [set_solver|]. case_test; set_solver. Qed.

Lemma put_xid_sorted x w : StronglySorted Z.le w → StronglySorted Z.le (rpcc.put_xid x w).
Proof.
  induction 1 as [|z w Hw IH Hz]; cbn; [repeat constructor|]. rewrite Forall_forall in Hz. case_test.
  - constructor; [constructor; [done|by apply Forall_forall]|].
    apply Forall_forall. intros y [->|Hy]%elem_of_cons; [lia|]. specialize (Hz y Hy). lia.
  - constructor; [done|]. apply Forall_forall. intros y [->|Hy]%put_xid_elem; [lia|by apply Hz].
Qed.

Definition window_ok (D w : list Z) : Prop := ∃ f p, w = f :: p ∧ wok D f p [].

Lemma update_xid_rep_ok s D x :
  window_ok D (rpcc.xid_rep_window_ s) → 0 < x < 2 ^ 31 →
  ∃ w, rpcc.update_xid_rep s x = Done (rpcc.set_window w s) ∧ window_ok (x :: D) w.
Proof.
  intros (f & p & Ew & [W1 W2 W3 W4 W5 W6]) Hx. unfold rpcc.update_xid_rep, rpcc.front.
  rewrite app_nil_r in *. rewrite Ew, bind_Done. cbv beta.
  case_test.
  - exists (f :: p). split; [rewrite <- Ew; by destruct s|]. exists f, p. split; [done|].
    constructor; rewrite ?app_nil_r; try done; set_solver.
  - assert (E : rpcc.put_xid x (f :: p) = f :: rpcc.put_xid x p) by (cbn; by test_false).
    rewrite E.
    assert (Wx : wok (x :: D) f [] (rpcc.put_xid x p)).
    { constructor; cbn [app].
      - rewrite <- E. by apply put_xid_sorted.
      - set_solver.
      - intros y. rewrite <- E, put_xid_elem. set_solver.
      - intros y. rewrite <- E, put_xid_elem. set_solver.
      - set_solver.
      - intros y. rewrite <- E, put_xid_elem. intros [->|?]; [lia|by apply W6]. }
    destruct (compress_wok _ _ _ _ Wx) as (f' & p' & -> & W'). eexists. split; [done|]. by exists f', p'.
Qed.

(** ** Runs of a client

    Any number of threads call, replies arrive, callers give up or are
    cancelled, in any order.  [answered] records the ids given to
    [update_xid_rep], [issued] the id and acknowledgement of every request,
    [pdus] the replies in order, [results] what the calls returned. *)

Record csys : Type := mkC {
  cli : rpcc.t; threads : gmap nat (Z * Z * bytes); cancelled : bool;
  answered : list Z; issued : list (Z * Z); pdus : list (Z * Z); results : list (Z * Z * list Z) }.

Inductive cevent : Type :=
  | CBegin (t : nat) (p : Z) (m : mar)
  | CPdu (b : bytes)
  | CEnd (t : nat)
  | CCancel
  | CBound (ret r : Z).

(** The replies to a request, oldest first. *)
Definition replies (ps : list (Z * Z)) (x : Z) : list Z := (filter (λ p : Z * Z, p.1 = x) ps).*2.

Definition cstep (s : csys) (e : cevent) : option (outcome csys) :=
  match e with
  | CBegin t p m =>
      match threads s !! t with
      | Some _ => None
      | None => Some (
          '(r, c) ← rpcc.call1_begin (cli s) p m;
          Done match r with
               | inl _ => s
               | inr (x, rep, m) =>
                   mkC c (<[t := (x, rep, data m)]> (threads s)) (cancelled s) (answered s) ((x, rep) :: issued s)
                     (pdus s) (results s)
               end)
      end
  | CPdu b => Some (
      let '(h, u) := unpack_reply_header (unm_of b) in
      c ← rpcc.got_pdu (cli s) b;
      Done (if u_ok u then
              mkC c (threads s) (cancelled s) (r_xid h :: answered s) (issued s) (pdus s ++ [(r_xid h, r_ret h)])
                (results s)
            else mkC c (threads s) (cancelled s) (answered s) (issued s) (pdus s) (results s)))
  | CEnd t =>
      match threads s !! t with
      | None => None
      | Some (x, rep, req) => Some (
          '(ret, c) ← rpcc.call1_finish (cli s) x rep req;
          Done (mkC c (delete t (threads s)) (cancelled s) (x :: answered s) (issued s) (pdus s)
                  ((x, ret, replies (pdus s) x) :: results s)))
      end
  | CCancel => Some (Done (mkC (rpcc.cancel (cli s)) (threads s) true (answered s) (issued s) (pdus s) (results s)))
  | CBound ret r =>
      Some (Done (mkC (rpcc.bind_return (cli s) ret r) (threads s) (cancelled s) (answered s) (issued s) (pdus s)
                    (results s)))
  end.

(** The server replies to requests it got, and ids do not reach 2^31. *)
Definition ctyped (s : csys) (e : cevent) : Prop :=
  match e with
  | CBegin _ _ _ => rpcc.xid_ (cli s) < 2 ^ 31 - 1
  | CPdu b => let '(h, u) := unpack_reply_header (unm_of b) in
              u_ok u = true → 0 < r_xid h < rpcc.xid_ (cli s)
  | _ => True
  end.

Definition cinit (nonce : Z) (lossy retrans : bool) : csys :=
  mkC (rpcc.make nonce lossy retrans) ∅ false [] [] [] [].

Inductive creach (s0 : csys) : csys → Prop :=
  | creach_init : creach s0 s0
  | creach_step s e s' : creach s0 s → ctyped s e → cstep s e = Some (Done s') → creach s0 s'.

(** What a call may return, given the replies to it. *)
Definition call_result (cancelled : bool) (ret : Z) (rs : list Z) : Prop :=
  ret = match rs with [] => timeout_failure | r :: _ => r end ∨ cancelled = true ∧ ret = cancel_failure.

Record cinv (c : rpcc.t) (th : gmap nat (Z * Z * bytes)) (can : bool) (ans : list Z) (iss ps : list (Z * Z))
    (res : list (Z * Z * list Z)) : Prop := {
  c_window : window_ok ans (rpcc.xid_rep_window_ c);
  c_xid : 1 ≤ rpcc.xid_ c < 2 ^ 31;
  c_ans x : x ∈ ans → 0 < x < rpcc.xid_ c;
  c_iss x rep : (x, rep) ∈ iss → 0 ≤ rep < x ∧ ∀ y, 0 < y ≤ rep → y ∈ ans;
  c_pdu x r : (x, r) ∈ ps → 0 < x < rpcc.xid_ c;
  c_thread t x rep b : th !! t = Some (x, rep, b) →
    0 < x < rpcc.xid_ c ∧ ∃ ca, rpcc.calls_ c !! x = Some ca ∧
      if rpcc.done_ ca then (∃ l, replies ps x = rpcc.intret ca :: l) ∨ can = true ∧ rpcc.intret ca = cancel_failure
      else replies ps x = [];
  c_one t t' x rep b rep' b' : th !! t = Some (x, rep, b) → th !! t' = Some (x, rep', b') → t = t';
  c_res x ret rs : (x, ret, rs) ∈ res → call_result can ret rs }.

Lemma replies_app ps x y r : replies (ps ++ [(y, r)]) x = replies ps x ++ (if decide (y = x) then [r] else []).
Proof.
  unfold replies. rewrite filter_app, fmap_app. f_equal.
  rewrite filter_cons, filter_nil. cbn. by case_decide.
Qed.

Lemma window_mono D D' w : window_ok D w → (∀ y, y ∈ D ↔ y ∈ D') → window_ok D' w.
Proof.
  intros (f & p & -> & []) H. exists f, p. split; [done|]. constructor; try done; setoid_rewrite <- H; auto.
Qed.

(** The id that the next request acknowledges. *)
Lemma front_range c th can ans iss ps res f :
  cinv c th can ans iss ps res → rpcc.front c = Done f → 0 ≤ f < rpcc.xid_ c.
Proof.
  intros I. destruct (c_window _ _ _ _ _ _ _ I) as (f' & w & Ew & W). unfold rpcc.front. rewrite Ew. intros [= <-].
  split; [apply (w_pos _ _ _ _ W); set_solver|].
  destruct (w_elem _ _ _ _ W f' ltac:(set_solver)) as [->|Hf]; [pose proof (c_xid _ _ _ _ _ _ _ I); lia|].
  apply (c_ans _ _ _ _ _ _ _ I) in Hf. lia.
Qed.

Lemma begin_inv c th can ans iss ps res t p m r c' :
  cinv c th can ans iss ps res → th !! t = None → rpcc.xid_ c < 2 ^ 31 - 1 →
  rpcc.call1_begin c p m = Done (r, c') →
  match r with
  | inl _ => True
  | inr (x, rep, m) => cinv c' (<[t := (x, rep, data m)]> th) can ans ((x, rep) :: iss) ps res
  end.
Proof.
  intros I Ht Hx. unfold rpcc.call1_begin.
  destruct (_ || _); [by intros [= <- <-]|]. destruct (rpcc.destroy_wait_ c); [by intros [= <- <-]|].
  destruct (c_window _ _ _ _ _ _ _ I) as (f & w & Ew & W). unfold rpcc.front. rewrite Ew, bind_Done. cbv beta.
  intros [m' [_ [= <- <-]]]%bind_Done_inv. cbv beta iota.
  pose proof (c_xid _ _ _ _ _ _ _ I) as Hx1. set (x := rpcc.xid_ c) in *.
  assert (Es : sgn 32 x = x) by (apply sgn_small; lia).
  assert (Ex : wrap32 (x + 1) = x + 1) by (apply (wrap_small 32); lia).
  assert (Hfx : 0 ≤ f < x) by (apply (front_range _ _ _ _ _ _ _ _ I); unfold rpcc.front; by rewrite Ew).
  assert (Hps : ∀ y q, (y, q) ∈ ps → y ≠ x).
  { intros y q Hq. apply (c_pdu _ _ _ _ _ _ _ I) in Hq. fold x in Hq. lia. }
  constructor; cbn [rpcc.xid_rep_window_ rpcc.xid_ rpcc.calls_]; rewrite ?Es, ?Ex.
  - rewrite <- Ew in *. apply (c_window _ _ _ _ _ _ _ I).
  - lia.
  - intros y Hy. apply (c_ans _ _ _ _ _ _ _ I) in Hy. fold x in Hy. lia.
  - intros y q [[= -> ->]|Hq]%elem_of_cons; [|by apply (c_iss _ _ _ _ _ _ _ I)].
    split; [done|]. apply (w_low _ _ _ _ W).
  - intros y q Hq. apply (c_pdu _ _ _ _ _ _ _ I) in Hq. fold x in Hq. lia.
  - intros t' y q b. rewrite lookup_insert_Some. intros [[<- [= <- <- <-]]|[N Hq]].
    + split; [lia|]. rewrite lookup_insert_eq. eexists. split; [done|]. cbn.
      unfold replies. destruct (filter _ ps) as [|[y q] l] eqn:E; [done|]. exfalso.
      assert ((y, q) ∈ filter (λ p : Z * Z, p.1 = x) ps) as [Hy Hq]%list_elem_of_filter by (rewrite E; set_solver).
      by destruct (Hps y q Hq).
    + destruct (c_thread _ _ _ _ _ _ _ I _ _ _ _ Hq) as (Hy & H). fold x in Hy. split; [lia|].
      rewrite lookup_insert_ne by lia. done.
  - intros t1 t2 y q1 b1 q2 b2. rewrite !lookup_insert_Some.
    intros [[<- [= <- <- <-]]|[N1 H1]] [[<- E2]|[N2 H2]]; try done.
    + apply (c_thread _ _ _ _ _ _ _ I) in H2 as [H2 _]. fold x in H2. lia.
    + injection E2 as <- <- <-. apply (c_thread _ _ _ _ _ _ _ I) in H1 as [H1 _]. fold x in H1. lia.
    + by eapply (c_one _ _ _ _ _ _ _ I).
  - by apply (c_res _ _ _ _ _ _ _ I).
Qed.

Lemma update_inv c th can ans iss ps res x :
  cinv c th can ans iss ps res → 0 < x < rpcc.xid_ c →
  ∃ w, rpcc.update_xid_rep c x = Done (rpcc.set_window w c) ∧
    cinv (rpcc.set_window w c) th can (x :: ans) iss ps res.
Proof.
  intros I Hx. pose proof (c_xid _ _ _ _ _ _ _ I).
  destruct (update_xid_rep_ok c ans x (c_window _ _ _ _ _ _ _ I)) as (w & -> & W); [lia|].
  exists w. split; [done|]. destruct I. constructor; try done.
  - intros y [->|Hy]%elem_of_cons; [done|auto].
  - intros y rep Hy. destruct (c_iss0 _ _ Hy). set_solver.
Qed.

(** Ending a call removes it from the table and from the threads. *)
Lemma end_inv c th can ans iss ps res t x rep b :
  cinv c th can ans iss ps res → th !! t = Some (x, rep, b) →
  cinv (rpcc.set_calls (delete x (rpcc.calls_ c)) c) (delete t th) can ans iss ps res.
Proof.
  intros I Ht. constructor; try (by destruct I).
  - intros t' y rep' b'. rewrite lookup_delete_Some. intros [N Hy].
    destruct (c_thread _ _ _ _ _ _ _ I _ _ _ _ Hy) as (? & H). split; [done|].
    cbn. rewrite lookup_delete_ne; [done|]. intros <-. by destruct (N (c_one _ _ _ _ _ _ _ I _ _ _ _ _ _ _ Ht Hy)).
  - intros t1 t2 y r1 b1 r2 b2. rewrite !lookup_delete_Some. intros [_ ?] [_ ?].
    by eapply (c_one _ _ _ _ _ _ _ I).
Qed.

Lemma finish_inv c th can ans iss ps res t x rep b ret c' :
  cinv c th can ans iss ps res → th !! t = Some (x, rep, b) →
  rpcc.call1_finish c x rep b = Done (ret, c') →
  cinv c' (delete t th) can (x :: ans) iss ps ((x, ret, replies ps x) :: res).
Proof.
  intros I Ht. destruct (c_thread _ _ _ _ _ _ _ I _ _ _ _ Ht) as (Hx & ca & Hca & Hd).
  pose proof (c_xid _ _ _ _ _ _ _ I). unfold rpcc.call1_finish.
  rewrite (sgn_small 32 x), Hca by lia. cbn [default]. unfold default, id.
  destruct (update_inv _ _ _ _ _ _ _ x (end_inv _ _ _ _ _ _ _ _ _ _ _ I Ht) Hx) as (w & -> & I').
  rewrite bind_Done. intros [= <- <-].
  assert (cinv (rpcc.set_window w (rpcc.set_calls (delete x (rpcc.calls_ c)) c)) (delete t th) can (x :: ans) iss ps
    ((x, if rpcc.done_ ca then rpcc.intret ca else timeout_failure, replies ps x) :: res)) as I2.
  { destruct I'. constructor; try done. intros y r rs [[= -> -> ->]|Hy]%elem_of_cons; [|eauto].
    unfold call_result. destruct (rpcc.done_ ca); [|rewrite Hd; by left].
    destruct Hd as [[l ->]|?]; auto. }
  destruct (rpcc.done_ ca && _); [|done]. destruct I2. by constructor.
Qed.

(** The first reply is kept. *)
Lemma pdu_inv c th can ans iss ps res b c' :
  cinv c th can ans iss ps res →
  (let '(h, u) := unpack_reply_header (unm_of b) in u_ok u = true → 0 < r_xid h < rpcc.xid_ c) →
  rpcc.got_pdu c b = Done c' →
  let '(h, u) := unpack_reply_header (unm_of b) in
  if u_ok u then cinv c' th can (r_xid h :: ans) iss (ps ++ [(r_xid h, r_ret h)]) res
  else cinv c' th can ans iss ps res.
Proof.
  intros I. unfold rpcc.got_pdu. destruct (unpack_reply_header (unm_of b)) as [h u].
  destruct (u_ok u); cbn [negb]; [|by intros _ [= <-]]. intros Hx. specialize (Hx eq_refl).
  pose proof (c_xid _ _ _ _ _ _ _ I). rewrite (wrap_small 32 (r_xid h)) by lia.
  destruct (update_inv _ _ _ _ _ _ _ _ I Hx) as (w & -> & I'). rewrite bind_Done. intros [= <-].
  set (x := r_xid h) in *. set (c1 := rpcc.set_window w c) in *.
  assert (I2 : ∀ cs,
    (∀ y ca, rpcc.calls_ c !! y = Some ca → ∃ ca', cs !! y = Some ca' ∧
       (x ≠ y ∧ ca' = ca ∨ x = y ∧ rpcc.done_ ca = true ∧ ca' = ca ∨
        x = y ∧ rpcc.done_ ca = false ∧ ca' = rpcc.mkCaller true (r_ret h) (take_in u))) →
    cinv (rpcc.set_calls cs c1) th can (x :: ans) iss (ps ++ [(x, r_ret h)]) res).
  { intros cs Hcs. constructor; try (by destruct I').
    - intros y r [Hy|Hy]%elem_of_app; [by eapply (c_pdu _ _ _ _ _ _ _ I')|].
      apply list_elem_of_singleton in Hy as [= -> _]. done.
    - intros t y rep q Ht. destruct (c_thread _ _ _ _ _ _ _ I' _ _ _ _ Ht) as (Hy & ca & Hca & Hd).
      split; [done|]. destruct (Hcs y ca Hca) as (ca' & Hca' & D). exists ca'. split; [done|].
      rewrite replies_app. destruct D as [[N ->]|[(-> & Hdone & ->)|(-> & Hdone & ->)]].
      + by rewrite decide_False, app_nil_r by done.
      + rewrite Hdone in *. rewrite decide_True by done. destruct Hd as [[l ->]|?]; [left|by right].
        by eexists.
      + rewrite Hdone in Hd. rewrite Hd, decide_True by done. left. by exists []. }
  change (rpcc.calls_ c1) with (rpcc.calls_ c).
  assert (E : c1 = rpcc.set_calls (rpcc.calls_ c) c1) by done.
  destruct (rpcc.calls_ c !! x) as [ca|] eqn:Hca.
  - destruct (rpcc.done_ ca) eqn:Hdone.
    + rewrite E. apply I2.
      intros y ca' Hca'. exists ca'. split; [done|]. destruct (decide (x = y)) as [<-|]; [|auto].
      rewrite Hca in Hca'. injection Hca' as <-. auto.
    + apply I2. intros y ca' Hca'. destruct (decide (x = y)) as [<-|].
      * rewrite lookup_insert_eq. rewrite Hca in Hca'. injection Hca' as <-. eauto 10.
      * rewrite lookup_insert_ne by done. eauto.
  - rewrite E. apply I2.
    intros y ca Hy. exists ca. split; [done|]. left. split; [congruence|done].
Qed.

Lemma cancel_inv c th can ans iss ps res :
  cinv c th can ans iss ps res → cinv (rpcc.cancel c) th true ans iss ps res.
Proof.
  intros []. constructor; try done.
  - intros t x rep b Ht. destruct (c_thread0 _ _ _ _ Ht) as (? & ca & Hca & _). split; [done|].
    cbn [rpcc.calls_ rpcc.cancel]. rewrite lookup_fmap, Hca. eexists. split; [done|]. cbn. auto.
  - intros x ret rs H. destruct (c_res0 _ _ _ H) as [?|[_ ?]]; [by left|by right].
Qed.

Lemma cstep_inv s e s' :
  cinv (cli s) (threads s) (cancelled s) (answered s) (issued s) (pdus s) (results s) → ctyped s e →
  cstep s e = Some (Done s') →
  cinv (cli s') (threads s') (cancelled s') (answered s') (issued s') (pdus s') (results s').
Proof.
  destruct s as [c th can ans iss ps res]. cbn. intros I Ty. destruct e as [t p m|b|t| |ret r]; cbn.
  - destruct (th !! t) eqn:Ht; [done|]. intros [= E].
    apply bind_Done_inv in E as [[r c'] [E [= <-]]].
    pose proof (begin_inv _ _ _ _ _ _ _ _ _ _ _ _ I Ht Ty E) as I'. by destruct r as [|[[x rep] m']].
  - pose proof (pdu_inv c th can ans iss ps res b) as P. cbn in Ty.
    destruct (unpack_reply_header (unm_of b)) as [h u]. intros [= E].
    apply bind_Done_inv in E as [c' [E [= <-]]]. specialize (P c' I Ty E). by destruct (u_ok u).
  - destruct (th !! t) as [[[x rep] req]|] eqn:Ht; [|done]. intros [= E].
    apply bind_Done_inv in E as [[ret c'] [E [= <-]]]. by eapply finish_inv.
  - intros [= <-]. by eapply cancel_inv.
  - intros [= <-]. cbn. unfold rpcc.bind_return. destruct (ret =? 0); [|done]. destruct I. by constructor.
Qed.

Lemma cinit_inv nonce lossy retrans : let s := cinit nonce lossy retrans in
  cinv (cli s) (threads s) (cancelled s) (answered s) (issued s) (pdus s) (results s).
Proof.
  constructor; cbn; try set_solver; try lia.
  exists 0, []. split; [done|]. constructor; cbn; try set_solver; try lia. repeat constructor.
Qed.

Lemma creach_inv nonce lossy retrans s :
  creach (cinit nonce lossy retrans) s →
  cinv (cli s) (threads s) (cancelled s) (answered s) (issued s) (pdus s) (results s).
Proof. induction 1; [apply cinit_inv|]. by eapply cstep_inv. Qed.

(** C13: Acknowledgements are sound and as large as they can be.  However
    calls, replies, time-outs and cancellations interleave, a request
    acknowledges only earlier ids and only ids whose reply came or whose caller
    gave up; and the front of the window is the end of the largest prefix of
    such ids. *)
Theorem rpc_client_acks nonce lossy retrans s :
  creach (cinit nonce lossy retrans) s →
  (∀ x rep, (x, rep) ∈ issued s → 0 ≤ rep < x ∧ ∀ y, 0 < y ≤ rep → y ∈ answered s) ∧
  ∃ f, rpcc.front (cli s) = Done f ∧ (∀ y, 0 < y ≤ f → y ∈ answered s) ∧ f + 1 ∉ answered s.
Proof.
  intros I%creach_inv. split; [intros x rep; by apply (c_iss _ _ _ _ _ _ _ I)|].
  destruct (c_window _ _ _ _ _ _ _ I) as (f & p & E & []). exists f. unfold rpcc.front. rewrite E.
  split; [done|]. split; [done|]. intros Hf. destruct (w_all0 _ Hf) as [?|H]; [lia|].
  rewrite app_nil_r in H. apply elem_of_cons in H as [?|?]; [lia|done].
Qed.

(** A call returns the first reply to its request, [timeout_failure] only
    when no reply came before it gave up, and [cancel_failure] only after a
    cancellation; later duplicates of the reply never change it. *)
Theorem rpc_call_returns_first_reply nonce lossy retrans s x ret rs :
  creach (cinit nonce lossy retrans) s → (x, ret, rs) ∈ results s → call_result (cancelled s) ret rs.
Proof. intros I%creach_inv. by apply (c_res _ _ _ _ _ _ _ I). Qed.

Fixpoint crun (s : csys) (es : list cevent) : option (outcome csys) :=
  match es with
  | [] => Some (Done s)
  | e :: es => match cstep s e with Some (Done s') => crun s' es | r => r end
  end.

Fixpoint ctyped_run (s : csys) (es : list cevent) : Prop :=
  match es with
  | [] => True
  | e :: es => ctyped s e ∧ match cstep s e with Some (Done s') => ctyped_run s' es | _ => True end
  end.

Lemma crun_reach s0 s es s' : creach s0 s → ctyped_run s es → crun s es = Some (Done s') → creach s0 s'.
Proof.
  revert s. induction es as [|e es IH]; intros s R; cbn; [by intros _ [= <-]|].
  intros [Te Ts]. destruct (cstep s e) as [[s1| | |]|] eqn:E; try done. apply IH; [|done]. by econstructor.
Qed.

(** A run: three calls, the replies of 2 and 1, the second call ends, and a
    further call. *)
Definition demo_reply (x r : Z) : bytes :=
  match pack_reply_header (mkRep x r) mar_new with Done m => data m | _ => [] end.
Definition demo_events : list cevent :=
  [CBound 0 9; CBegin 0 5 mar_new; CBegin 1 5 mar_new; CBegin 2 5 mar_new;
   CPdu (demo_reply 2 7); CPdu (demo_reply 1 0); CPdu (demo_reply 2 8); CEnd 1; CBegin 1 5 mar_new].
Definition demo_end : csys :=
  match crun (cinit 77 false true) demo_events with Some (Done s) => s | _ => cinit 77 false true end.

Example rpc_client_acks_witness :
  issued demo_end = [(4, 2); (3, 0); (2, 0); (1, 0)] ∧
  ∃ f, rpcc.front (cli demo_end) = Done f ∧ f + 1 ∉ answered demo_end.
Proof.
  split; [vm_compute; reflexivity|].
  destruct (rpc_client_acks 77 false true demo_end) as (_ & f & Hf & _ & Hg);
    [|exists f; split; [exact Hf|exact Hg]].
  apply (crun_reach _ _ demo_events _ (creach_init _)); [|vm_compute; reflexivity].
  vm_compute. repeat split.
Defined.

Example rpc_call_returns_first_reply_witness :
  results demo_end = [(2, 7, [7; 8])] ∧ call_result (cancelled demo_end) 7 [7; 8].
Proof.
  split; [vm_compute; reflexivity|].
  apply (rpc_call_returns_first_reply 77 false true demo_end 2); [|vm_compute; left].
  apply (crun_reach _ _ demo_events _ (creach_init _)); [|vm_compute; reflexivity].
  vm_compute. repeat split.
Defined.

(** ** The waiting loop *)

Definition normal (a : timespec) : Prop := 0 ≤ tv_nsec a < 10 ^ 9.
Definition total (a : timespec) : Z := tv_sec a * 10 ^ 9 + tv_nsec a.

Lemma add_timespec_ok a b :
  normal a → 0 ≤ b →
  ∃ r, add_timespec a b = Done r ∧ total r = total a + b * 10 ^ 6 ∧ 0 ≤ tv_nsec r ≤ 10 ^ 9.
Proof.
  intros Ha Hb. unfold normal, total, add_timespec in *.
  rewrite Z.quot_div_nonneg, Z.rem_mod_nonneg by lia.
  pose proof (Z.div_mod b 1000 ltac:(lia)). pose proof (Z.mod_pos_bound b 1000 ltac:(lia)).
  set (q := b / 1000) in *. set (m := b mod 1000) in *. clearbody q m.
  cbn [tv_nsec tv_sec]. test_true. cbn [ensure]. rewrite bind_Done. cbv beta.
  change (10 ^ 9) with 1000000000 in *. change (10 ^ 6) with 1000000.
  set (s := tv_sec a) in *. set (ns := tv_nsec a) in *. clearbody s ns.
  cbn [carry tv_nsec tv_sec]. case_test; [eexists; split; [done|]; cbn [tv_sec tv_nsec]; lia|].
  test_true. eexists. split; [done|]. cbn [tv_sec tv_nsec]. lia.
Qed.

Lemma cmp_total a b : 0 ≤ tv_nsec a → 0 ≤ tv_nsec b ≤ 10 ^ 9 → tv_nsec a ≤ 10 ^ 9 →
  total b < total a → 0 < cmp_timespec a b.
Proof. unfold total, cmp_timespec. intros. repeat case_test; lia. Qed.

(** With the deadline within [2^n] times the present wait, [n + 2] rounds are
    enough. *)
Lemma call1_loop_ends n retrans curr tr final sent rs start to :
  0 < curr → curr * 2 ^ Z.of_nat (S n) ≤ int_max → to < curr * 2 ^ Z.of_nat n →
  tv_sec final = 0 ∨ total final = start + to * 10 ^ 6 → 0 ≤ tv_nsec final ≤ 10 ^ 9 →
  (∀ r, r ∈ rs → normal (rpcc.w_now r) ∧ start ≤ total (rpcc.w_now r)) → (n + 2 ≤ length rs)%nat →
  ∃ k, rpcc.call1_loop retrans curr tr final sent rs = Done k.
Proof.
  revert curr tr final sent rs. induction n as [|n IH]; intros curr tr final sent rs Hc Hov Hto Hfin Hns Hrs Hlen;
    (destruct rs as [|r rs]; [cbn in Hlen; lia|]); cbn [rpcc.call1_loop];
    (destruct (Z.eqb_spec (tv_sec final) 0) as [|N]; [by eexists|]);
    (destruct Hfin as [?|Hfin]; [done|]);
    (destruct (Hrs r) as [Hn Hge]; [set_solver|]);
    destruct (add_timespec_ok (rpcc.w_now r) curr Hn ltac:(lia)) as (next & -> & Ht & Hnn);
    rewrite bind_Done; cbv beta; (destruct (rpcc.w_done r); [by eexists|]).
  - rewrite Z.mul_1_r in Hto. replace (0 <? cmp_timespec next final) with true
      by (symmetry; apply Z.ltb_lt, cmp_total; lia).
    replace (int_max <? curr * 2) with false by (symmetry; apply Z.ltb_ge; lia).
    destruct rs; [cbn in Hlen; lia|]. cbn. by eexists.
  - rewrite !Nat2Z.inj_succ, !Z.pow_succ_r in * by lia.
    assert (0 < 2 ^ Z.of_nat n) by (apply Z.pow_pos_nonneg; lia).
    replace (int_max <? curr * 2) with false by (symmetry; apply Z.ltb_ge; nia).
    apply IH; try lia.
    + destruct (0 <? _); [by left|by right].
    + by destruct (0 <? _).
    + intros r' ?. apply Hrs. set_solver.
    + cbn in Hlen. lia.
Qed.

(** C36: The waiting loop of [call1] ends.  For every time-out up to
    [to_max], whatever the connection does and however the clock advances, it
    ends after at most nine rounds, without overflow. *)
Theorem call1_wait_terminates retrans to now rs :
  0 ≤ to ≤ to_max → normal now → (9 ≤ length rs)%nat →
  (∀ r, r ∈ rs → normal (rpcc.w_now r) ∧ total now ≤ total (rpcc.w_now r)) →
  ∃ k, rpcc.call1_wait retrans to now rs = Done k.
Proof.
  intros Hto Hn Hlen Hrs. unfold rpcc.call1_wait, to_max in *.
  destruct (add_timespec_ok now to Hn) as (final & -> & Ht & Hns); [lia|]. rewrite bind_Done.
  apply (call1_loop_ends 7 _ _ _ _ _ _ (total now) to); unfold to_min, int_max; cbn; try lia; auto.
Qed.

(** A clock that stands still and a connection that is down. *)
Example call1_wait_terminates_witness :
  let now := mkTime 5 999999999 in
  ∃ k, rpcc.call1_wait true 120000 now (replicate 9 (rpcc.mkRound true now false true)) = Done k.
Proof.
  apply (call1_wait_terminates true 120000 (mkTime 5 999999999)).
  - unfold to_max. lia.
  - split; cbn; lia.
  - cbn. lia.
  - intros r Hr. apply elem_of_replicate in Hr as [-> _]. split; [split; cbn; lia|cbn; lia].
Defined.

Example call1_wait_ex :
  rpcc.call1_wait true 120000 (mkTime 5 0) (replicate 9 (rpcc.mkRound true (mkTime 5 0) false true)) = Done 9.
Proof. reflexivity. Qed.
