(* ===== verification/PrefixTree.v ===== *)
(** * The name tree of the master (src/master/prefix_tree.cc, prefix_tree_node.cc)

    Nodes live in a heap and are shared between the tree and the lists of the
    servers; a directory's set is kept in the order of the node paths, which
    never change, so an entry carries the path of its node.  Walks of the whole
    tree take fuel; the number of nodes is enough. *)

From S2P Require Import Prelude StdContainers Status.

(** ** Nodes *)

Record node : Type := mkNode {
  path_ : bytes; ino_ : Z; IsDir : bool; domain_id_ : Z; sz_ : Z; parent_ : option Z;
  list_ : list (bytes * Z) }.

Definition SetSZ (sz : Z) (n : node) : node :=
  mkNode (path_ n) (ino_ n) (IsDir n) (domain_id_ n) sz (parent_ n) (list_ n).
Definition SetDomainId (id : Z) (n : node) : node :=
  mkNode (path_ n) (ino_ n) (IsDir n) id (sz_ n) (parent_ n) (list_ n).
Definition set_list (l : list (bytes * Z)) (n : node) : node :=
  mkNode (path_ n) (ino_ n) (IsDir n) (domain_id_ n) (sz_ n) (parent_ n) l.

Definition nil_node : node := mkNode [] 0 false (-1) 0 None [].

Abbreviation heap := (gmap Z node).

(** Shared pointers keep their nodes alive: every pointer has a node. *)
Definition nd (h : heap) (p : Z) : node := default nil_node (h !! p).
Definition upd (f : node → node) (p : Z) (h : heap) : heap := alter f p h.

(** [InsertNode] and [EraseNode] of the two kinds of node. *)
Definition InsertNode (h : heap) (p x : Z) : heap :=
  if IsDir (nd h p) then upd (λ n, set_list (om_insert (path_ (nd h x)) x (list_ n)) n) p h else h.
Definition EraseNode (h : heap) (p x : Z) : heap :=
  if IsDir (nd h p) then upd (λ n, set_list (om_erase (path_ (nd h x)) (list_ n)) n) p h else h.
Definition GetFileAndDirCount (n : node) : Z := if IsDir n then zlen (list_ n) else 0.
Definition GetList (n : node) : list Z := if IsDir n then (list_ n).*2 else [].

Definition PushDownDomainTag (h : heap) (p : Z) : heap :=
  let n := nd h p in
  if negb (IsDir n) || (domain_id_ n =? -1) then h
  else upd (SetDomainId (-1)) p (foldr (upd (SetDomainId (domain_id_ n))) h (GetList n)).

(** Towards the first or the last entry; the calls below pass no [left] on, and
    its default is true. *)
Fixpoint FindNearestDomainId (fuel : nat) (h : heap) (p : Z) (left : bool) : outcome (Z * Z) :=
  match fuel with
  | O => NoFuel
  | S fuel =>
      let n := nd h p in
      if negb (IsDir n) then Done (domain_id_ n, p)
      else if negb (domain_id_ n =? -1) then Done (domain_id_ n, p)
      else match (if left then head (GetList n) else last (GetList n)) with
           | None => Done (-1, p)
           | Some c => FindNearestDomainId fuel h c true
           end
  end.

(** ** Servers and contexts *)

Record KVInfo : Type := mkKV { id : Z; sum_memory : Z; overweighed_tag_cnt : Z; domain_node_list : list Z }.

(** [info] points to the server of that id. *)
Record AdjustContext : Type := mkCtx { info : Z; cur_memory : Z; score : Z }.

Definition LIMIT_SCORE : Z := 30.
Definition move_t : Type := Z * Z.

Module PrefixTree.

Record t : Type := mk {
  nodes : heap; next_ : Z; root_ : Z; kv_list_ : list KVInfo;
  has_get_context_ : bool; adjust_context_vec_ : list AdjustContext }.

Definition set_nodes (h : heap) (s : t) : t :=
  mk h (next_ s) (root_ s) (kv_list_ s) (has_get_context_ s) (adjust_context_vec_ s).
Definition set_kvs (k : list KVInfo) (s : t) : t :=
  mk (nodes s) (next_ s) (root_ s) k (has_get_context_ s) (adjust_context_vec_ s).

(** [splitPath]: whether there is a slash, the part before it and the rest. *)
Fixpoint splitPath (p : bytes) : bool * bytes * bytes :=
  match p with
  | [] => (false, [], [])
  | c :: p' =>
      if bool_decide (c = Byte.x2f) then (true, [], p')
      else let '(b, s, r) := splitPath p' in (b, c :: s, r)
  end.

Definition pushUp (h : heap) (p : Z) : heap :=
  upd (SetSZ (foldl (λ sz x, wrap64 (sz + sz_ (nd h x))) 0 (GetList (nd h p)))) p h.

(** The walk before ([rev]) or after the target; the node with a domain last
    seen, and whether the target was not met. *)
Fixpoint doGetNearByDomainID (fuel : nat) (h : heap) (cur target : Z) (rev : bool) (kv : Z * option Z) :
    outcome (bool * (Z * option Z)) :=
  match fuel with
  | O => NoFuel
  | S fuel =>
      if cur =? target then Done (false, kv)
      else if negb (domain_id_ (nd h cur) =? -1) then Done (true, (domain_id_ (nd h cur), Some cur))
      else
        (fix go (cs : list Z) (kv : Z * option Z) :=
           match cs with
           | [] => Done (true, kv)
           | c :: cs =>
               '(b, kv) ← doGetNearByDomainID fuel h c target rev kv;
               if (b : bool) then go cs kv else Done (false, kv)
           end) (if rev then reverse (GetList (nd h cur)) else GetList (nd h cur)) kv
  end.

(** The part of a list before an element. *)
Fixpoint upto (d : Z) (l : list Z) : list Z :=
  match l with
  | [] => []
  | y :: l => if y =? d then [] else y :: upto d l
  end.

(** The loops over the servers of an id that look for [x] in their lists: the
    first list that has it gets it again, before itself or at the front. *)
Fixpoint put_again (before : bool) (i x : Z) (ks : list KVInfo) : list KVInfo :=
  match ks with
  | [] => []
  | k :: ks =>
      let l := domain_node_list k in
      if (id k =? i) && bool_decide (x ∈ l) then
        let pre := if before then upto x l else [] in
        mkKV (id k) (sum_memory k) (overweighed_tag_cnt k) (pre ++ x :: drop (length pre) l) :: ks
      else k :: put_again before i x ks
  end.

Definition getNearByDomainID (s : t) (x : Z) (kv : Z * option Z) : outcome ((Z * option Z) * t) :=
  let fuel := S (size (nodes s)) in
  '(b, kv) ← doGetNearByDomainID fuel (nodes s) (root_ s) x true kv;
  if negb b && negb (kv.1 =? -1) then
    Done (kv, set_kvs (put_again true kv.1 x (kv_list_ s)) (set_nodes (upd (SetDomainId kv.1) x (nodes s)) s))
  else
    '(_, kv) ← doGetNearByDomainID fuel (nodes s) (root_ s) x false kv;
    Done (kv, set_kvs (put_again false kv.1 x (kv_list_ s)) (set_nodes (upd (SetDomainId kv.1) x (nodes s)) s)).

(** The new node goes before the element that precedes [d] in the list, or
    before the last one when [d] is not there, or to the front. *)
Definition place (x : Z) (d : option Z) (l : list Z) : list Z :=
  let pre := match d with Some d => upto d l | None => l end in
  match pre with
  | [] => x :: l
  | _ => take (length pre - 1) l ++ x :: drop (length pre - 1) l
  end.

Fixpoint place_first (i x : Z) (d : option Z) (ks : list KVInfo) : list KVInfo :=
  match ks with
  | [] => []
  | k :: ks =>
      if id k =? i
      then mkKV (id k) (sum_memory k) (overweighed_tag_cnt k) (place x d (domain_node_list k)) :: ks
      else k :: place_first i x d ks
  end.

(** The node, the domain id passed by reference, the tree. *)
Definition createNode (s : t) (path : bytes) (ino : Z) (is_dir : bool) (domain : Z) (parent : option Z) (sz : Z) :
    outcome (Z * Z * t) :=
  let x := next_ s in
  let n := mkNode path ino is_dir (-1) sz parent [] in
  let s := mk (<[x := n]> (nodes s)) (x + 1) (root_ s) (kv_list_ s) (has_get_context_ s) (adjust_context_vec_ s) in
  match parent with
  | None => Done (x, domain, s)
  | Some p =>
      let s := set_nodes (InsertNode (nodes s) p x) s in
      if IsDir (nd (nodes s) p) && (domain =? -1) then
        '(kv, s) ← getNearByDomainID s x (-1, None);
        Done (x, kv.1, set_kvs (place_first kv.1 x kv.2 (kv_list_ s)) (set_nodes (upd (SetDomainId kv.1) x (nodes s)) s))
      else Done (x, domain, s)
  end.

Definition make : outcome t :=
  '(r, _, s) ← createNode (mk ∅ 1 0 [] false []) [] 0 true (-1) None 0;
  Done (mk (nodes s) (next_ s) r [] false []).

(** The status, the domain id passed by reference, the tree.  The part of the
    path is looked up in the set by the order of the paths. *)
Fixpoint doInsert (fuel : nat) (s : t) (cur ino : Z) (path : bytes) (is_dir : bool) (node_sz domain : Z) :
    outcome (Status * Z * t) :=
  match fuel with
  | O => NoFuel
  | S fuel =>
      if negb (IsDir (nd (nodes s) cur)) then Done (PrefixTreeError [], domain, s)
      else
        let domain := if domain =? -1 then domain_id_ (nd (nodes s) cur) else domain in
        let '(status, cur_path, path) := splitPath path in
        match om_find cur_path (list_ (nd (nodes s) cur)) with
        | None =>
            if status then Done (PrefixTreeError [], domain, s)
            else
              '(_, domain, s) ← createNode s cur_path ino is_dir domain (Some cur) node_sz;
              Done (OK, domain, set_nodes (pushUp (nodes s) cur) s)
        | Some child =>
            if status then
              if negb (IsDir (nd (nodes s) child)) then Done (PrefixTreeError [], domain, s)
              else
                '(_, domain, s) ← doInsert fuel s child ino path is_dir node_sz domain;
                Done (OK, domain, set_nodes (pushUp (nodes s) cur) s)
            else Done (OK, domain, set_nodes (pushUp (nodes s) cur) s)
        end
  end.

Definition Create (s : t) (path : bytes) (ino : Z) (is_dir : bool) (node_sz : Z) : outcome (Status * Z * t) :=
  doInsert (S (length path)) s (root_ s) ino path is_dir node_sz (-1).

Fixpoint doRemove (fuel : nat) (s : t) (cur : Z) (path : bytes) : outcome (Status * t) :=
  match fuel with
  | O => NoFuel
  | S fuel =>
      if negb (IsDir (nd (nodes s) cur)) then Done (PrefixTreeError [], s)
      else
        let '(status, cur_path, path) := splitPath path in
        match om_find cur_path (list_ (nd (nodes s) cur)) with
        | None => Done (PrefixTreeError [], s)
        | Some child =>
            if negb status then
              if negb (GetFileAndDirCount (nd (nodes s) child) =? 0) then Done (PrefixTreeError [], s)
              else Done (OK, set_nodes (pushUp (EraseNode (nodes s) cur child) cur) s)
            else
              '(st, s) ← doRemove fuel s child path;
              Done (st, set_nodes (pushUp (nodes s) cur) s)
        end
  end.

Definition Remove (s : t) (path : bytes) : outcome (Status * t) :=
  doRemove (S (length path)) s (root_ s) path.

(** From the second server on, the loop that looks at the next server of each
    also looks behind the last one, which is undefined. *)
Fixpoint regist_scan (ks : list KVInfo) (i : nat) (max_res : Z) (solve : nat) : outcome (Z * nat) :=
  match ks with
  | [] => Done (max_res, solve)
  | _ :: [] => Undef
  | _ :: (n :: _) as ks =>
      if max_res <? overweighed_tag_cnt n then regist_scan ks (S i) (overweighed_tag_cnt n) i
      else regist_scan ks (S i) max_res solve
  end.

Definition RegistNewKV (s : t) (i sum : Z) : outcome t :=
  match kv_list_ s with
  | [] => Done (set_kvs [mkKV i sum 0 [root_ s]] (set_nodes (upd (SetDomainId i) (root_ s) (nodes s)) s))
  | [k] => Done (set_kvs [k; mkKV i sum 0 []] s)
  | ks =>
      '(m, p) ← regist_scan ks 0 0 0;
      Done (set_kvs (if negb (m =? 0) then take p ks ++ mkKV i sum 0 [] :: drop p ks else ks ++ [mkKV i sum 0 []]) s)
  end.

(** ** Balancing *)

Definition dummy_kv : KVInfo := mkKV 0 0 0 [].
Definition kv_of (s : t) (i : Z) : KVInfo := default dummy_kv (snd <$> list_find (λ k : KVInfo, id k = i) (kv_list_ s)).
Definition kv_upd (f : KVInfo → KVInfo) (i : Z) (s : t) : t :=
  set_kvs ((λ k, if id k =? i then f k else k) <$> kv_list_ s) s.
Definition set_tag (n : Z) (k : KVInfo) : KVInfo := mkKV (id k) (sum_memory k) n (domain_node_list k).
Definition set_domains (l : list Z) (k : KVInfo) : KVInfo := mkKV (id k) (sum_memory k) (overweighed_tag_cnt k) l.

(** [pop_back] and [pop_front] of an empty list are undefined. *)
Definition pop_back (i : Z) (s : t) : outcome t :=
  match domain_node_list (kv_of s i) with
  | [] => Undef
  | l => Done (kv_upd (set_domains (take (length l - 1) l)) i s)
  end.
Definition pop_front (i : Z) (s : t) : outcome t :=
  match domain_node_list (kv_of s i) with
  | [] => Undef
  | _ :: l => Done (kv_upd (set_domains l) i s)
  end.
Definition push_back (i x : Z) (s : t) : t := kv_upd (set_domains (domain_node_list (kv_of s i) ++ [x])) i s.
Definition push_front (i x : Z) (s : t) : t := kv_upd (set_domains (x :: domain_node_list (kv_of s i))) i s.
Definition first_of (i : Z) (s : t) : outcome Z :=
  match domain_node_list (kv_of s i) with [] => Undef | x :: _ => Done x end.
Definition last_of (i : Z) (s : t) : outcome Z :=
  match last (domain_node_list (kv_of s i)) with None => Undef | Some x => Done x end.

(** A percentage, as an [int]; there is no server of size 0. *)
Definition calculateScore (cur all : Z) : outcome Z :=
  if all =? 0 then Undef else Done (sgn 32 (wrap64 (100 * cur) / all)).

Definition calculateSum (s : t) (k : KVInfo) : Z :=
  foldl (λ sum x, wrap64 (sum + sz_ (nd (nodes s) x))) 0 (domain_node_list k).

Fixpoint make_contexts (s : t) (ks : list KVInfo) : outcome (list AdjustContext) :=
  match ks with
  | [] => Done []
  | k :: ks =>
      sc ← calculateScore (calculateSum s k) (sum_memory k);
      l ← make_contexts s ks;
      Done (mkCtx (id k) (calculateSum s k) sc :: l)
  end.

Definition calculateAdjustContext (s : t) : outcome t :=
  if has_get_context_ s then Done s
  else l ← make_contexts s (kv_list_ s); Done (mk (nodes s) (next_ s) (root_ s) (kv_list_ s) true l).

Definition GetAdjustContext (s : t) : outcome (list AdjustContext * t) :=
  s ← calculateAdjustContext s; Done (adjust_context_vec_ s, s).

(** The contexts are shared with [adjust_context_vec_]. *)
Definition set_ctx (l : list AdjustContext) (s : t) : t :=
  mk (nodes s) (next_ s) (root_ s) (kv_list_ s) (has_get_context_ s) l.
Definition ctx (s : t) (i : nat) : AdjustContext := nth i (adjust_context_vec_ s) (mkCtx 0 0 0).
Definition put_ctx (i : nat) (c : AdjustContext) (s : t) : t := set_ctx (<[i := c]> (adjust_context_vec_ s)) s.
Definition kvi (s : t) (i : nat) : Z := info (ctx s i).

Definition add_memory (i : nat) (d : Z) (s : t) : t :=
  put_ctx i (mkCtx (kvi s i) (wrap64 (cur_memory (ctx s i) + d)) (score (ctx s i))) s.
Definition set_score (i : nat) (sc : Z) (s : t) : t := put_ctx i (mkCtx (kvi s i) (cur_memory (ctx s i)) sc) s.
Definition rescore (i : nat) (s : t) : outcome t :=
  sc ← calculateScore (cur_memory (ctx s i)) (sum_memory (kv_of s (kvi s i)));
  Done (set_score i sc s).

(** [splitFileNode]: the last element of the list goes, whatever the node. *)
Definition splitFileNode (s : t) (i node : Z) : outcome (bool * t) :=
  if negb (IsDir (nd (nodes s) node)) then Done (false, s)
  else
    s ← pop_back i s;
    let l := GetList (nd (nodes s) node) in
    let s := set_nodes (PushDownDomainTag (nodes s) node) s in
    Done (true, foldl (λ s x, push_back i x s) s l).

Fixpoint doMove (fuel : nat) (h : heap) (n : Z) (addr : move_t) : outcome (list (Z * move_t)) :=
  match fuel with
  | O => NoFuel
  | S fuel =>
      if negb (IsDir (nd h n)) then Done [(ino_ (nd h n), addr)]
      else
        (fix go (cs : list Z) : outcome (list (Z * move_t)) :=
           match cs with
           | [] => Done []
           | c :: cs => a ← doMove fuel h c addr; b ← go cs; Done (a ++ b)
           end) (GetList (nd h n))
  end.

Definition moveSubTree (s : t) (n : Z) (addr : move_t) (vec : list (Z * move_t)) : outcome (list (Z * move_t) * t) :=
  let s := set_nodes (upd (SetDomainId addr.2) n (nodes s)) s in
  l ← doMove (S (size (nodes s))) (nodes s) n addr;
  Done (vec ++ l, s).

(** The three parts of a round of [Adjust]; [res] is [op_res].  The first takes
    from the server before; its element is chosen once. *)
Fixpoint over_loop (fuel : nat) (s : t) (i : nat) (mv : Z) (res : list (Z * move_t)) :
    outcome (list (Z * move_t) * t) :=
  match fuel with
  | O => NoFuel
  | S fuel =>
      let me := kvi s i in let pre := kvi s (i - 1) in
      let s := kv_upd (set_tag (overweighed_tag_cnt (kv_of s me) - 1)) me s in
      let mv_sz := sz_ (nd (nodes s) mv) in
      '(stop, res, s) ←
        (if wrap64 (mv_sz + cur_memory (ctx s i)) <=? sum_memory (kv_of s me) then
           '(res, s) ← moveSubTree s mv (pre, me) res;
           s ← rescore (i - 1) (add_memory (i - 1) (- mv_sz) s);
           s ← rescore i (add_memory i mv_sz s);
           s ← pop_back pre s;
           let s := push_front me mv s in
           if score (ctx s i) <=? score (ctx s (i - 1)) then Done (true, res, kv_upd (set_tag 0) me s)
           else Done (false, res, s)
         else
           '(b, s) ← splitFileNode s pre mv;
           Done (false, res, if (b : bool) then s else kv_upd (set_tag 0) me s));
      if (stop : bool) || negb (0 <? overweighed_tag_cnt (kv_of s me)) then Done (res, s)
      else over_loop fuel s i mv res
  end.

Definition adjust_over (fuel : nat) (s : t) (i : nat) (res : list (Z * move_t)) : outcome (list (Z * move_t) * t) :=
  if (0 <? overweighed_tag_cnt (kv_of s (kvi s i))) && (0 <? Z.of_nat i) then
    mv ← last_of (kvi s (i - 1)) s;
    over_loop fuel s i mv res
  else Done (res, s).

(** The second pulls from the server after. *)
Fixpoint pull_loop (fuel : nat) (s : t) (i : nat) (target standard : Z) (res : list (Z * move_t)) :
    outcome (list (Z * move_t) * t) :=
  match fuel with
  | O => NoFuel
  | S fuel =>
      let me := kvi s i in let nxt := kvi s (i + 1) in
      mv ← first_of nxt s;
      let mv_sz := sz_ (nd (nodes s) mv) in
      cur_score ← calculateScore (wrap64 (cur_memory (ctx s i) + mv_sz)) (sum_memory (kv_of s me));
      nxt_score ← calculateScore (wrap64 (cur_memory (ctx s (i + 1)) - mv_sz)) (sum_memory (kv_of s nxt));
      '(stop, res, s) ←
        (if cur_score <=? target then
           let s := set_score i cur_score (add_memory i mv_sz s) in
           let s := set_score (i + 1) nxt_score (add_memory (i + 1) (- mv_sz) s) in
           s ← pop_front nxt s;
           '(res, s) ← moveSubTree (push_back me mv s) mv (nxt, me) res;
           Done (false, res, s)
         else
           '(b, s) ← splitFileNode s nxt mv;
           Done (negb b, res, s));
      if (stop : bool) || negb (score (ctx s i) <=? standard) then Done (res, s)
      else pull_loop fuel s i target standard res
  end.

Definition adjust_pull (fuel : nat) (s : t) (i : nat) (target : Z) (res : list (Z * move_t)) :
    outcome (list (Z * move_t) * t) :=
  let standard := Z.min LIMIT_SCORE target in
  if (score (ctx s i) <=? standard) && (i + 1 <? length (adjust_context_vec_ s))%nat &&
     (target <? score (ctx s (i + 1)))
  then pull_loop fuel s i target standard res
  else Done (res, s).

(** The third pushes to the server after. *)
Fixpoint push_loop (fuel : nat) (s : t) (i : nat) (target : Z) (res : list (Z * move_t)) :
    outcome (list (Z * move_t) * t) :=
  match fuel with
  | O => NoFuel
  | S fuel =>
      let me := kvi s i in
      if (0 <? zlen (domain_node_list (kv_of s me))) && (target <? score (ctx s i)) then
        mv ← last_of me s;
        if (i + 1 <? length (adjust_context_vec_ s))%nat then
          let nxt := kvi s (i + 1) in
          let sz := sz_ (nd (nodes s) mv) in
          after ← calculateScore (wrap64 (sz + cur_memory (ctx s (i + 1)))) (sum_memory (kv_of s nxt));
          if after <=? target then
            '(res, s) ← moveSubTree s mv (me, nxt) res;
            s ← rescore (i + 1) (add_memory (i + 1) sz s);
            s ← rescore i (add_memory i (- sz) s);
            s ← pop_back me s;
            push_loop fuel (push_front nxt mv s) i target res
          else
            '(b, s) ← splitFileNode s me mv;
            if (b : bool) then push_loop fuel s i target res
            else Done (res, kv_upd (set_tag (overweighed_tag_cnt (kv_of s nxt) + 1)) nxt s)
        else Done (res, s)
      else Done (res, s)
  end.

Definition adjust_push (fuel : nat) (s : t) (i : nat) (target : Z) (res : list (Z * move_t)) :
    outcome (list (Z * move_t) * t) :=
  if target <? score (ctx s i) then push_loop fuel s i target res else Done (res, s).

Fixpoint adjust_rounds (fuel : nat) (s : t) (todo : list nat) (target : Z) (res : list (Z * move_t)) :
    outcome (list (Z * move_t) * t) :=
  match todo with
  | [] => Done (res, s)
  | i :: todo =>
      '(res, s) ← adjust_over fuel s i res;
      '(res, s) ← adjust_pull fuel s i target res;
      '(res, s) ← adjust_push fuel s i target res;
      adjust_rounds fuel s todo target res
  end.

(** The moves, last first. *)
Definition Adjust (fuel : nat) (s : t) (target : Z) : outcome (list (Z * move_t) * t) :=
  '(l, s) ← GetAdjustContext s;
  '(res, s) ← adjust_rounds fuel s (seq 0 (length l)) target [];
  Done (reverse res, mk (nodes s) (next_ s) (root_ s) (kv_list_ s) false (adjust_context_vec_ s)).

End PrefixTree.
