(* ===== verification/TreeSpec.v ===== *)
(** * The name tree as a map from paths

    The namespace a tree stands for, and that creating and removing change it
    as a map does; the sizes of directories. *)

From S2P Require Import Prelude StdContainers Status PrefixTree.

(** ** Paths *)

Fixpoint comps (p : bytes) : list bytes :=
  match p with
  | [] => [[]]
  | c :: p =>
      if bool_decide (c = Byte.x2f) then [] :: comps p
      else match comps p with [] => [[c]] | s :: r => (c :: s) :: r end
  end.

Lemma splitPath_comps p :
  let '(b, s, r) := PrefixTree.splitPath p in
  (if b : bool then comps p = s :: comps r ∧ (length r < length p)%nat else comps p = [s]).
Proof.
  induction p as [|c p IH]; [done|]. cbn [PrefixTree.splitPath comps].
  destruct (bool_decide_reflect (c = Byte.x2f)); [split; [done|cbn; lia]|].
  destruct (PrefixTree.splitPath p) as [[[] s] r].
  - destruct IH as [-> ?]. split; [done|]. cbn. lia.
  - by rewrite IH.
Qed.

Lemma comps_not_nil p : comps p ≠ [].
Proof. destruct p as [|c p]; cbn; [done|]. case_match; [done|]. by destruct (comps p). Qed.

(** ** Walking down *)

Fixpoint walk (h : heap) (l : Z) (cs : list bytes) : option Z :=
  match cs with
  | [] => Some l
  | c :: cs => if IsDir (nd h l) then om_find c (list_ (nd h l)) ≫= λ x, walk h x cs else None
  end.

Lemma walk_app h l p q : walk h l (p ++ q) = walk h l p ≫= λ x, walk h x q.
Proof.
  revert l. induction p as [|c p IH]; intros l; [done|]. cbn.
  destruct (IsDir _); [|done]. destruct (om_find _ _); cbn; [apply IH|done].
Qed.

(** What an entry of the tree is. *)
Definition entry (n : node) : bool * Z := (IsDir n, ino_ n).
Definition namespace (s : PrefixTree.t) (cs : list bytes) : option (bool * Z) :=
  (λ x, entry (nd (PrefixTree.nodes s) x)) <$> walk (PrefixTree.nodes s) (PrefixTree.root_ s) cs.

(** A tree: sets are ordered by the paths of their nodes, a node is reached by
    one path only, what is not reached is empty. *)
Record wf (h : heap) (r : Z) : Prop := {
  wf_root : is_Some (h !! r);
  wf_root_dir : IsDir (nd h r) = true;
  wf_ordered l : ordered (list_ (nd h l));
  wf_child l c x : (c, x) ∈ list_ (nd h l) → is_Some (h !! x) ∧ path_ (nd h x) = c;
  wf_inj p q l : walk h r p = Some l → walk h r q = Some l → p = q;
  wf_reach l c x : (c, x) ∈ list_ (nd h l) → IsDir (nd h l) = true ∧ ∃ p, walk h r p = Some l }.

Lemma nd_insert h l n l' : nd (<[l := n]> h) l' = if decide (l = l') then n else nd h l'.
Proof. unfold nd. rewrite lookup_insert. by case_decide. Qed.

Lemma nd_upd f h l l' : is_Some (h !! l) → nd (upd f l h) l' = if decide (l = l') then f (nd h l) else nd h l'.
Proof.
  intros [n Hn]. unfold nd, upd. case_decide; [subst|by rewrite lookup_alter_ne].
  by rewrite lookup_alter_eq, Hn.
Qed.

Lemma upd_some f h l l' : is_Some (upd f l h !! l') ↔ is_Some (h !! l').
Proof. unfold upd. destruct (decide (l = l')) as [->|]; [|by rewrite lookup_alter_ne].
  rewrite lookup_alter_eq. apply fmap_is_Some. Qed.

Lemma om_find_in k (v : Z) (m : list (bytes * Z)) : om_find k m = Some v → (k, v) ∈ m.
Proof. intros H. apply om_find_Some in H as (k' & Hin & E%same_eq). by subst. Qed.

Section tree.
Context (h : heap) (r : Z) (W : wf h r).

Lemma walk_some p l : walk h r p = Some l → is_Some (h !! l).
Proof.
  induction p as [|c p IH] using rev_ind; [intros [= <-]; apply (wf_root _ _ W)|].
  rewrite walk_app. destruct (walk h r p) as [x|]; [|done]. cbn.
  destruct (IsDir _); [|done]. destruct (om_find c _) as [y|] eqn:E; [|done]. cbn. intros [= <-].
  by apply om_find_in, (wf_child _ _ W) in E as [? _].
Qed.

Lemma walk_child p l c x : walk h r p = Some l → (c, x) ∈ list_ (nd h l) → walk h r (p ++ [c]) = Some x.
Proof.
  intros Hp Hx. rewrite walk_app, Hp. cbn. destruct (wf_reach _ _ W _ _ _ Hx) as [-> _].
  by rewrite (om_find_elem c x _ (wf_ordered _ _ W l) Hx).
Qed.

(** The parent of a node is unique. *)
Lemma parent_unique p l c x l' c' :
  walk h r p = Some l → (c, x) ∈ list_ (nd h l) → (c', x) ∈ list_ (nd h l') → l' = l.
Proof.
  intros Hp Hx Hx'. destruct (wf_reach _ _ W _ _ _ Hx') as [_ [p' Hp']].
  pose proof (walk_child _ _ _ _ Hp Hx) as H1. pose proof (walk_child _ _ _ _ Hp' Hx') as H2.
  apply (wf_inj _ _ W _ _ _ H1) in H2. apply app_inj_tail in H2 as [<- _]. congruence.
Qed.

Lemma root_no_parent c l : (c, r) ∉ list_ (nd h l).
Proof.
  intros Hx. destruct (wf_reach _ _ W _ _ _ Hx) as [_ [p Hp]].
  pose proof (walk_child _ _ _ _ Hp Hx) as H1.
  assert (walk h r [] = Some r) as H0 by done. pose proof (wf_inj _ _ W _ _ _ H1 H0). by destruct p.
Qed.

(** A path is no longer than the number of nodes. *)
Lemma walk_short p l : walk h r p = Some l → (length p < size h)%nat.
Proof.
  intros Hp. set (ps := (λ i, take i p) <$> seq 0 (S (length p))).
  assert (Hps : ∀ q, q ∈ ps → ∃ x, walk h r q = Some x).
  { intros q (i & -> & _)%list_elem_of_fmap. rewrite <- (take_drop i p), walk_app in Hp.
    destruct (walk h r (take i p)); [eauto|done]. }
  assert (Hnd : NoDup ((λ q, default 0 (walk h r q)) <$> ps)).
  { apply NoDup_fmap_2_strong.
    - intros q q' Hq Hq' E. destruct (Hps q Hq) as [x Hx], (Hps q' Hq') as [x' Hx'].
      rewrite Hx, Hx' in E. cbn in E. subst. by eapply (wf_inj _ _ W).
    - unfold ps. apply NoDup_fmap_2_strong; [|apply NoDup_seq].
      intros i j Hi Hj E. apply elem_of_seq in Hi, Hj. apply (f_equal length) in E. rewrite !length_take in E. lia. }
  rewrite <- size_dom.
  assert (length ((λ q, default 0 (walk h r q)) <$> ps) = S (length p)) as Hl
    by (unfold ps; by rewrite !length_fmap, length_seq).
  rewrite <- (size_list_to_set (C := gset Z) _ Hnd) in Hl.
  set (vs := (λ q, default 0 (walk h r q)) <$> ps) in *.
  enough (size (list_to_set vs : gset Z) ≤ size (dom h))%nat by lia.
  apply subseteq_size. intros y Hy. apply elem_of_list_to_set, list_elem_of_fmap in Hy as (q & -> & Hq).
  destruct (Hps q Hq) as [x Hx]. rewrite Hx. cbn. apply elem_of_dom. by eapply walk_some.
Qed.
End tree.

(** ** Changes that leave the tree as it is *)

Definition shape (n : node) : bytes * Z * bool * list (bytes * Z) := (path_ n, ino_ n, IsDir n, list_ n).
Definition same_shape (h h' : heap) : Prop :=
  (∀ l, is_Some (h' !! l) ↔ is_Some (h !! l)) ∧ ∀ l, shape (nd h' l) = shape (nd h l).

Lemma same_shape_refl h : same_shape h h.
Proof. done. Qed.
Lemma same_shape_trans h1 h2 h3 : same_shape h1 h2 → same_shape h2 h3 → same_shape h1 h3.
Proof. intros [D1 S1] [D2 S2]. split; intros l; [by rewrite D2|by rewrite S2]. Qed.

Lemma upd_shape f h l : (∀ n, shape (f n) = shape n) → same_shape h (upd f l h).
Proof.
  intros Hf. split; intros l'; [apply upd_some|]. unfold nd, upd.
  destruct (decide (l = l')) as [<-|]; [|by rewrite lookup_alter_ne].
  rewrite lookup_alter_eq. destruct (h !! l); [apply Hf|done].
Qed.

Lemma walk_shape h h' l p : same_shape h h' → walk h' l p = walk h l p.
Proof.
  intros [_ S]. revert l. induction p as [|c p IH]; intros l; [done|]. cbn.
  specialize (S l). unfold shape in S. injection S as _ _ -> ->.
  destruct (IsDir _); [|done]. destruct (om_find _ _); [apply IH|done].
Qed.

Lemma wf_shape h h' r : same_shape h h' → wf h r → wf h' r.
Proof.
  intros S W. pose proof S as [D E].
  assert (El : ∀ l, list_ (nd h' l) = list_ (nd h l)) by (intros l; specialize (E l); unfold shape in E; congruence).
  assert (Ed : ∀ l, IsDir (nd h' l) = IsDir (nd h l)) by (intros l; specialize (E l); unfold shape in E; congruence).
  assert (Ep : ∀ l, path_ (nd h' l) = path_ (nd h l)) by (intros l; specialize (E l); unfold shape in E; congruence).
  destruct W. split; intros *; rewrite ?D, ?El, ?Ed, ?Ep, ?(walk_shape h h' _ _ S); eauto.
  intros Hx. destruct (wf_reach0 _ _ _ Hx) as [? [p ?]]. split; [done|]. exists p. by rewrite (walk_shape h h').
Qed.

Lemma same_shape_dir h h' l : same_shape h h' → IsDir (nd h' l) = IsDir (nd h l).
Proof. intros [_ E]. specialize (E l). unfold shape in E. congruence. Qed.
Lemma same_shape_list h h' l : same_shape h h' → list_ (nd h' l) = list_ (nd h l).
Proof. intros [_ E]. specialize (E l). unfold shape in E. congruence. Qed.
Lemma same_shape_entry h h' l : same_shape h h' → entry (nd h' l) = entry (nd h l).
Proof. intros [_ E]. specialize (E l). unfold shape, entry in *. congruence. Qed.

Lemma pushUp_shape h l : same_shape h (PrefixTree.pushUp h l).
Proof. by apply upd_shape. Qed.
Lemma SetDomainId_shape d h l : same_shape h (upd (SetDomainId d) l h).
Proof. by apply upd_shape. Qed.

(** Walks of the whole tree end: below a node there are no paths longer than
    the fuel. *)
Definition shallow (h : heap) (n : nat) (l : Z) : Prop := ∀ p x, walk h l p = Some x → (length p < n)%nat.

Lemma shallow_child h n l c x :
  ordered (list_ (nd h l)) → IsDir (nd h l) = true → (c, x) ∈ list_ (nd h l) → shallow h (S n) l → shallow h n x.
Proof.
  intros Ho Hd Hx H p y Hp. specialize (H (c :: p) y). cbn in H.
  rewrite Hd, (om_find_elem c x _ Ho Hx) in H. specialize (H Hp). cbn in H. lia.
Qed.

Lemma elem_of_GetList h l x : x ∈ GetList (nd h l) → IsDir (nd h l) = true ∧ ∃ c, (c, x) ∈ list_ (nd h l).
Proof.
  unfold GetList. destruct (IsDir _); [|set_solver].
  intros ([c y] & -> & Hx)%list_elem_of_fmap. split; [done|]. by exists c.
Qed.

Lemma doGetNear_total h r n l target rev kv :
  wf h r → shallow h n l → ∃ res, PrefixTree.doGetNearByDomainID n h l target rev kv = Done res.
Proof.
  intros W. revert l kv. induction n as [|n IH]; intros l kv Hs.
  { specialize (Hs [] l eq_refl). cbn in Hs. lia. }
  cbn [PrefixTree.doGetNearByDomainID]. destruct (l =? target); [by eexists|].
  destruct (negb _); [by eexists|].
  assert (Hall : ∀ x, x ∈ (if rev then reverse (GetList (nd h l)) else GetList (nd h l)) → shallow h n x).
  { intros x Hx. assert (x ∈ GetList (nd h l)) as [Hd [c Hc]]%elem_of_GetList
      by (destruct rev; [rewrite elem_of_reverse in Hx|]; exact Hx).
    eapply shallow_child; eauto. by eapply wf_ordered. }
  revert kv. induction (if rev then _ else _) as [|x cs IHc]; intros kv; [by eexists|].
  destruct (IH x kv) as [[[] kv'] ->]; [apply Hall; set_solver| |by eexists].
  rewrite bind_Done. apply IHc. intros y ?. apply Hall. set_solver.
Qed.

Lemma root_shallow h r : wf h r → shallow h (S (size h)) r.
Proof. intros W p x Hp. pose proof (walk_short h r W p x Hp). lia. Qed.

Lemma length_put_again b i x ks : length (PrefixTree.put_again b i x ks) = length ks.
Proof. induction ks as [|k ks IH]; [done|]. cbn. destruct (_ && _); cbn; congruence. Qed.

Lemma length_place_first i x d ks : length (PrefixTree.place_first i x d ks) = length ks.
Proof. induction ks as [|k ks IH]; [done|]. cbn. destruct (_ =? _); cbn; congruence. Qed.

Lemma getNear_total s x kv :
  wf (PrefixTree.nodes s) (PrefixTree.root_ s) →
  ∃ kv' d ks, PrefixTree.getNearByDomainID s x kv =
    Done (kv', PrefixTree.set_kvs ks (PrefixTree.set_nodes (upd (SetDomainId d) x (PrefixTree.nodes s)) s)) ∧
    length ks = length (PrefixTree.kv_list_ s).
Proof.
  intros W. unfold PrefixTree.getNearByDomainID.
  destruct (doGetNear_total _ _ _ _ x true kv W (root_shallow _ _ W)) as [[b kv1] ->]. rewrite bind_Done.
  destruct (_ && _); [do 3 eexists; split; [done|apply length_put_again]|].
  destruct (doGetNear_total _ _ _ _ x false kv1 W (root_shallow _ _ W)) as [[b' kv2] ->].
  do 3 eexists. split; [done|apply length_put_again].
Qed.

(** ** Adding and removing a leaf *)

Section leaf.
Context (h : heap) (r : Z) (W : wf h r) (dir : list bytes) (name : bytes) (p : Z).
Context (Hp : walk h r dir = Some p) (Hd : IsDir (nd h p) = true).

Section add.
Context (x : Z) (n : node).
Context (Hnone : om_find name (list_ (nd h p)) = None) (Hx : h !! x = None).
Context (Hname : path_ n = name) (Hleaf : list_ n = []).

Let h' := InsertNode (<[x := n]> h) p x.

Lemma add_px : p ≠ x.
Proof. intros E. destruct (walk_some h r W _ _ Hp) as [? ?]. congruence. Qed.

Lemma nd_added l :
  nd h' l = if decide (l = x) then n
            else if decide (l = p) then set_list (om_insert name x (list_ (nd h p))) (nd h p) else nd h l.
Proof.
  pose proof add_px. unfold h', InsertNode. rewrite !nd_insert, !decide_False, Hd by done.
  rewrite nd_upd, nd_insert, !nd_insert.
  - repeat case_decide; subst; congruence.
  - rewrite lookup_insert_ne by done. by eapply walk_some.
Qed.

Lemma added_some l : is_Some (h' !! l) ↔ is_Some (h !! l) ∨ l = x.
Proof.
  pose proof add_px. unfold h', InsertNode. rewrite !nd_insert, decide_False, Hd by done.
  rewrite upd_some, lookup_insert. case_decide; [subst; naive_solver|naive_solver].
Qed.

Lemma list_added l c y :
  (c, y) ∈ list_ (nd h' l) ↔ (c, y) ∈ list_ (nd h l) ∨ (l = p ∧ c = name ∧ y = x).
Proof.
  rewrite nd_added. destruct (decide (l = x)) as [->|].
  - rewrite Hleaf. assert (list_ (nd h x) = []) as -> by (unfold nd; by rewrite Hx).
    pose proof add_px. set_solver.
  - case_decide; [subst; cbn|naive_solver].
    rewrite elem_of_om_insert_new by done. naive_solver.
Qed.
Lemma find_added c :
  om_find c (om_insert name x (list_ (nd h p))) = if decide (c = name) then Some x else om_find c (list_ (nd h p)).
Proof.
  rewrite om_find_insert_new, om_find_assign by (done || apply (wf_ordered _ _ W)).
  case_decide as E; [subst; by rewrite same_refl|].
  destruct (same name c) eqn:Es; [by apply same_eq in Es|done].
Qed.

Lemma through_new pre l c q :
  walk h r pre = Some l → pre ++ c :: q = dir ++ [name] →
  (q = [] ∧ l = p ∧ c = name) ∨ ∃ y, IsDir (nd h l) = true ∧ om_find c (list_ (nd h l)) = Some y.
Proof.
  intros Hl E. destruct q as [|n' q _] using rev_ind.
  { apply app_inj_tail in E as [-> ->]. left. split_and!; congruence. }
  rewrite app_comm_cons, app_assoc in E. apply app_inj_tail in E as [<- _]. right.
  rewrite walk_app, Hl in Hp. cbn in Hp. destruct (IsDir (nd h l)); [|done].
  destruct (om_find c _); [by eexists|done].
Qed.

Lemma walk_added_from pre l q :
  walk h r pre = Some l → walk h' l q = if decide (pre ++ q = dir ++ [name]) then Some x else walk h l q.
Proof.
  assert (Hnew : walk h r (dir ++ [name]) = None) by (rewrite walk_app, Hp; cbn; by rewrite Hd, Hnone).
  revert pre l. induction q as [|c q IH]; intros pre l Hl.
  { rewrite decide_False; [done|]. rewrite app_nil_r. intros ->. congruence. }
  assert (Hlx : l ≠ x) by (intros ->; destruct (walk_some h r W _ _ Hl); congruence).
  assert (Hdown : ∀ y, IsDir (nd h l) = true → om_find c (list_ (nd h l)) = Some y →
    walk h' y q = if decide (pre ++ c :: q = dir ++ [name]) then Some x else walk h y q).
  { intros y Hld Hc. rewrite (IH (pre ++ [c]) y), <- app_assoc; [done|].
    rewrite walk_app, Hl. cbn. by rewrite Hld, Hc. }
  cbn [walk]. rewrite nd_added, decide_False by done. destruct (decide (l = p)) as [->|Hlp].
  - assert (pre = dir) as -> by (by eapply wf_inj). cbn. rewrite Hd, find_added.
    destruct (decide (c = name)) as [->|Hc].
    + rewrite Hnone. cbn. destruct q as [|c' q]; cbn; [by rewrite decide_True|].
      rewrite nd_added, decide_True, Hleaf by done. cbn. rewrite decide_False; [by destruct (IsDir n)|].
      intros E%app_inv_head. done.
    + rewrite decide_False by (intros E%app_inv_head; congruence).
      destruct (om_find c (list_ (nd h p))) as [y|] eqn:Ey; [|done]. cbn.
      rewrite (Hdown y) by done. by rewrite decide_False by (intros E%app_inv_head; congruence).
  - destruct (decide (pre ++ c :: q = dir ++ [name])) as [E|E].
    + destruct (through_new pre l c q Hl E) as [(_ & ? & _)|(y & Hld & Hy)]; [done|].
      rewrite Hld, Hy. cbn. by apply Hdown.
    + destruct (IsDir (nd h l)) eqn:Hld; [|done]. destruct (om_find c _) as [y|] eqn:Hy; [|done].
      cbn. by apply Hdown.
Qed.

Lemma walk_added q : walk h' r q = if decide (q = dir ++ [name]) then Some x else walk h r q.
Proof. by apply (walk_added_from []). Qed.

Lemma wf_added : wf h' r.
Proof.
  pose proof add_px as Hpx. assert (Hrx : r ≠ x).
  { intros ->. destruct (wf_root _ _ W). congruence. }
  constructor.
  - apply added_some. left. apply W.
  - rewrite nd_added, decide_False by done. case_decide; [subst; by cbn|by apply W].
  - intros l. rewrite nd_added. case_decide; [rewrite Hleaf; constructor|].
    case_decide; [|by apply W]. subst. cbn. apply om_insert_ordered, W.
  - intros l c y [Hy|(-> & -> & ->)]%list_added; cycle 1.
    { rewrite added_some, nd_added, decide_True by done. auto. }
    destruct (wf_child _ _ W _ _ _ Hy) as [Hs <-]. split; [apply added_some; auto|].
    rewrite nd_added. case_decide; [subst; by destruct Hs; simplify_eq|]. by case_decide; subst.
  - intros q q' l. rewrite !walk_added. repeat case_decide; subst; try done.
    + intros [= <-] Hq. destruct (walk_some h r W _ _ Hq). congruence.
    + intros Hq [= <-]. destruct (walk_some h r W _ _ Hq). congruence.
    + apply W.
  - intros l c y [Hy|(-> & -> & ->)]%list_added; cycle 1.
    { rewrite nd_added, decide_False, decide_True by done. split; [done|]. exists dir.
      rewrite walk_added. case_decide as E; [|done]. apply (f_equal length) in E. rewrite length_app in E. cbn in E. lia. }
    destruct (wf_reach _ _ W _ _ _ Hy) as [Hld [q Hq]].
    assert (l ≠ x) by (intros ->; destruct (walk_some h r W _ _ Hq); congruence).
    split; [rewrite nd_added, decide_False by done; by case_decide; subst|].
    exists q. rewrite walk_added. case_decide as E; [|done].
    subst. rewrite walk_app, Hp in Hq. cbn in Hq. by rewrite Hd, Hnone in Hq.
Qed.
End add.

(** Removing a child that has no children. *)
Section remove.
Context (x : Z) (Hx : om_find name (list_ (nd h p)) = Some x) (Hleaf : ∀ c, walk h x [c] = None).

Let h' := EraseNode h p x.

Lemma nd_removed l :
  nd h' l = if decide (l = p) then set_list (om_erase name (list_ (nd h p))) (nd h p) else nd h l.
Proof.
  destruct (wf_child _ _ W _ _ _ (om_find_in _ _ _ Hx)) as [_ Hn].
  unfold h', EraseNode. rewrite Hd, Hn, nd_upd by (by eapply walk_some). repeat case_decide; congruence.
Qed.

Lemma removed_some l : is_Some (h' !! l) ↔ is_Some (h !! l).
Proof. unfold h', EraseNode. rewrite Hd. apply upd_some. Qed.

Lemma list_removed l c y : (c, y) ∈ list_ (nd h' l) ↔ (c, y) ∈ list_ (nd h l) ∧ ¬ (l = p ∧ c = name).
Proof.
  rewrite nd_removed. case_decide; [subst; cbn|naive_solver].
  rewrite elem_of_om_erase by apply W. naive_solver.
Qed.

Lemma find_removed c :
  om_find c (om_erase name (list_ (nd h p))) = if decide (c = name) then None else om_find c (list_ (nd h p)).
Proof.
  rewrite om_find_erase by apply (wf_ordered _ _ W). case_decide as E; [subst; by rewrite same_refl|].
  destruct (same name c) eqn:Es; [by apply same_eq in Es|done].
Qed.

Lemma walk_below_leaf c q : walk h x (c :: q) = None.
Proof.
  specialize (Hleaf c). cbn in *. destruct (IsDir (nd h x)); [|done].
  by destruct (om_find c (list_ (nd h x))).
Qed.

Lemma walk_removed_from pre l q :
  walk h r pre = Some l → walk h' l q = if decide (pre ++ q = dir ++ [name] ∧ q ≠ []) then None else walk h l q.
Proof.
  revert pre l. induction q as [|c q IH]; intros pre l Hl; [by rewrite decide_False by naive_solver|].
  assert (Hdown : ∀ y, IsDir (nd h l) = true → om_find c (list_ (nd h l)) = Some y →
    walk h' y q = if decide (pre ++ c :: q = dir ++ [name] ∧ q ≠ []) then None else walk h y q).
  { intros y Hld Hc. rewrite (IH (pre ++ [c]) y), <- app_assoc; [done|].
    rewrite walk_app, Hl. cbn. by rewrite Hld, Hc. }
  cbn [walk]. rewrite nd_removed. destruct (decide (l = p)) as [->|Hlp].
  - assert (pre = dir) as -> by (by eapply wf_inj). cbn. rewrite Hd, find_removed.
    destruct (decide (c = name)) as [->|Hc].
    + cbn. rewrite Hx. cbn. destruct q as [|c' q]; [by rewrite decide_True by done|].
      rewrite walk_below_leaf. clear Hdown. by case_decide.
    + rewrite (decide_False (P := _ ∧ _)) by (intros [E%app_inv_head _]; congruence).
      destruct (om_find c (list_ (nd h p))) as [y|] eqn:Ey; [|done]. cbn.
      rewrite (Hdown y) by done. by rewrite decide_False by (intros [E%app_inv_head _]; congruence).
  - destruct (IsDir (nd h l)) eqn:Hld; [|clear Hdown; by case_decide]. destruct (om_find c _) as [y|] eqn:Hy; [|clear Hdown; by case_decide].
    cbn. rewrite (Hdown y) by done. destruct q; [|repeat case_decide; naive_solver].
    rewrite decide_False by naive_solver. rewrite decide_False; [done|].
    intros [[-> ->]%app_inj_tail _]. congruence.
Qed.

Lemma walk_removed q : walk h' r q = if decide (q = dir ++ [name]) then None else walk h r q.
Proof.
  rewrite (walk_removed_from [] r q) by done. cbn. repeat case_decide; try naive_solver.
  subst. destruct H. split; [done|]. by destruct dir.
Qed.

Lemma wf_removed : wf h' r.
Proof.
  constructor.
  - apply removed_some, W.
  - rewrite nd_removed. case_decide; [subst; by cbn|by apply W].
  - intros l. rewrite nd_removed. case_decide; [|by apply W]. subst. cbn. apply om_erase_ordered, W.
  - intros l c y [Hy _]%list_removed. destruct (wf_child _ _ W _ _ _ Hy) as [Hs <-].
    split; [by apply removed_some|]. rewrite nd_removed. by case_decide; subst.
  - intros q q' l. rewrite !walk_removed. repeat case_decide; try done. apply W.
  - intros l c y [Hy N]%list_removed. destruct (wf_reach _ _ W _ _ _ Hy) as [Hld [q Hq]].
    split; [rewrite nd_removed; by case_decide; subst|].
    exists q. rewrite walk_removed. case_decide as E; [|done]. exfalso.
    subst. rewrite walk_app, Hp in Hq. cbn in Hq. rewrite Hd, Hx in Hq. cbn in Hq. injection Hq as <-.
    specialize (Hleaf c). cbn in Hleaf. by rewrite Hld, (om_find_elem c y _ (wf_ordered _ _ W x) Hy) in Hleaf.
Qed.
End remove.
End leaf.

(** ** Creating a path *)

Definition tree_ok (s : PrefixTree.t) : Prop :=
  wf (PrefixTree.nodes s) (PrefixTree.root_ s) ∧ ∀ l, is_Some (PrefixTree.nodes s !! l) → l < PrefixTree.next_ s.

(** Only domains and sizes, or only domains, differ. *)
Definition retag (h h' : heap) : Prop := same_shape h h' ∧ ∀ l, sz_ (nd h' l) = sz_ (nd h l).

Lemma retag_trans h1 h2 h3 : retag h1 h2 → retag h2 h3 → retag h1 h3.
Proof. intros [A B] [C D]. split; [by eapply same_shape_trans|]. intros l. by rewrite D. Qed.

Lemma retag_domain d l h : retag h (upd (SetDomainId d) l h).
Proof.
  split; [apply SetDomainId_shape|]. intros l'. unfold nd, upd.
  destruct (decide (l = l')) as [<-|]; [|by rewrite lookup_alter_ne].
  rewrite lookup_alter_eq. by destruct (h !! l).
Qed.

Lemma createNode_spec s dir cur name ino d dom sz :
  tree_ok s → walk (PrefixTree.nodes s) (PrefixTree.root_ s) dir = Some cur →
  IsDir (nd (PrefixTree.nodes s) cur) = true → om_find name (list_ (nd (PrefixTree.nodes s) cur)) = None →
  let x := PrefixTree.next_ s in
  let n := mkNode name ino d (-1) sz (Some cur) [] in
  ∃ dom' s', PrefixTree.createNode s name ino d dom (Some cur) sz = Done (x, dom', s') ∧
    PrefixTree.root_ s' = PrefixTree.root_ s ∧ PrefixTree.next_ s' = x + 1 ∧
    length (PrefixTree.kv_list_ s') = length (PrefixTree.kv_list_ s) ∧
    retag (InsertNode (<[x := n]> (PrefixTree.nodes s)) cur x) (PrefixTree.nodes s').
Proof.
  intros [W F] Hw Hd Hn x n. unfold PrefixTree.createNode. fold x. fold n.
  assert (Hx : PrefixTree.nodes s !! x = None).
  { destruct (_ !! x) eqn:E; [|done]. specialize (F x ltac:(eauto)). unfold x in F. lia. }
  cbn [PrefixTree.nodes PrefixTree.set_nodes PrefixTree.root_].
  destruct (IsDir _ && _); [|by do 2 eexists].
  assert (W' := wf_added _ _ W dir name cur Hw Hd x n Hn Hx eq_refl eq_refl).
  edestruct (getNear_total (PrefixTree.set_nodes (InsertNode (<[x := n]> (PrefixTree.nodes s)) cur x)
    (PrefixTree.mk (<[x := n]> (PrefixTree.nodes s)) (x + 1) (PrefixTree.root_ s) (PrefixTree.kv_list_ s)
       (PrefixTree.has_get_context_ s) (PrefixTree.adjust_context_vec_ s))) x (-1, None) W') as (kv & d' & ks & -> & Hks).
  rewrite bind_Done. do 2 eexists. split; [done|]. split; [done|]. split; [done|].
  split; [cbn; by rewrite length_place_first|]. cbn. eapply retag_trans; apply retag_domain.
Qed.

Definition creatable (f : list bytes → option (bool * Z)) (cs : list bytes) : bool :=
  bool_decide (f cs = None) && match f (removelast cs) with Some (true, _) => true | _ => false end.

Definition create_map (f : list bytes → option (bool * Z)) (cs : list bytes) (e : bool * Z)
    (q : list bytes) : option (bool * Z) :=
  if creatable f cs && bool_decide (q = cs) then Some e else f q.

(** What [Create] returns: only the first part of the path counts. *)
Definition create_status (f : list bytes → option (bool * Z)) (cs : list bytes) : Status :=
  match cs with
  | c :: _ :: _ => match f [c] with Some (true, _) => OK | _ => PrefixTreeError [] end
  | _ => OK
  end.

(** Sizes: a directory with entries is as large as they are, but for [D]. *)
Definition sum_of (h : heap) (l : Z) : Z :=
  foldl (λ sz x, wrap64 (sz + sz_ (nd h x))) 0 (GetList (nd h l)).
Definition sized (D : Z → Prop) (h : heap) : Prop :=
  ∀ l, IsDir (nd h l) = true → list_ (nd h l) ≠ [] → D l ∨ sz_ (nd h l) = sum_of h l.

Lemma sum_of_same h h' l :
  GetList (nd h' l) = GetList (nd h l) → (∀ x, x ∈ GetList (nd h l) → sz_ (nd h' x) = sz_ (nd h x)) →
  sum_of h' l = sum_of h l.
Proof.
  unfold sum_of. intros -> H. generalize 0. induction (GetList (nd h l)) as [|x cs IH]; intros a; [done|].
  cbn. rewrite (H x) by set_solver. apply IH. set_solver.
Qed.

Lemma nd_pushUp h p l :
  is_Some (h !! p) →
  nd (PrefixTree.pushUp h p) l = if decide (p = l) then SetSZ (sum_of h p) (nd h p) else nd h l.
Proof. intros Hp. unfold PrefixTree.pushUp. by rewrite nd_upd. Qed.

(** Pushing up mends a directory and spoils its parents. *)
Lemma sized_pushUp (D : Z → Prop) h r p :
  wf h r → is_Some (h !! p) → (∀ l c, (c, p) ∈ list_ (nd h l) → D l) →
  sized (λ l, D l ∨ l = p) h → sized D (PrefixTree.pushUp h p).
Proof.
  intros W Hp HD HS l Hd Hl.
  assert (Hnp : ∀ c, (c, p) ∉ list_ (nd h p)).
  { intros c Hc. destruct (wf_reach _ _ W _ _ _ Hc) as [_ [q Hq]].
    pose proof (walk_child _ _ W _ _ _ _ Hq Hc) as H2. pose proof (wf_inj _ _ W _ _ _ Hq H2) as E.
    apply (f_equal length) in E. rewrite length_app in E. cbn in E. lia. }
  assert (Hlist : ∀ l', list_ (nd (PrefixTree.pushUp h p) l') = list_ (nd h l'))
    by (intros l'; apply same_shape_list, pushUp_shape).
  assert (Hdir : ∀ l', IsDir (nd (PrefixTree.pushUp h p) l') = IsDir (nd h l'))
    by (intros l'; apply same_shape_dir, pushUp_shape).
  assert (HG : GetList (nd (PrefixTree.pushUp h p) l) = GetList (nd h l)) by (unfold GetList; by rewrite Hlist, Hdir).
  rewrite Hlist in Hl. rewrite Hdir in Hd. destruct (decide (p = l)) as [<-|N].
  - right. rewrite nd_pushUp, decide_True by done. cbn. symmetry. apply sum_of_same; [done|].
    intros x [_ [c Hx]]%elem_of_GetList. rewrite nd_pushUp, decide_False; [done| |done]. intros <-. by apply (Hnp c).
  - destruct (HS l Hd Hl) as [[?|?]|E]; [by left|congruence|].
    destruct (decide (p ∈ GetList (nd h l))) as [[_ [c Hc]]%elem_of_GetList|Hnin]; [left; by eapply HD|].
    right. rewrite nd_pushUp, decide_False, E by done. symmetry. apply sum_of_same; [done|].
    intros x Hx. rewrite nd_pushUp, decide_False; [done| |done]. by intros <-.
Qed.

Lemma namespace_shape s s' q :
  same_shape (PrefixTree.nodes s) (PrefixTree.nodes s') → PrefixTree.root_ s' = PrefixTree.root_ s →
  namespace s' q = namespace s q.
Proof.
  intros S E. unfold namespace. rewrite E, (walk_shape _ _ _ _ S).
  destruct (walk _ _ q) as [x|]; [|done]. cbn. by rewrite (same_shape_entry _ _ _ S).
Qed.

Lemma removelast_app_ne {A} (p q : list A) : q ≠ [] → removelast (p ++ q) = p ++ removelast q.
Proof. apply removelast_app. Qed.

(** Nothing is created below what is not a directory, or is not there. *)
Lemma not_creatable s pre cs :
  cs ≠ [] → (∀ i, namespace s pre ≠ Some (true, i)) → creatable (namespace s) (pre ++ cs) = false.
Proof.
  intros Hcs Hpre. unfold creatable. rewrite removelast_app by done. apply andb_false_iff. right.
  unfold namespace in *.
  rewrite walk_app. destruct (walk _ _ pre) as [l|]; [|done]. cbn in *.
  destruct (removelast cs) as [|c q]; cbn.
  - unfold entry in Hpre. destruct (IsDir _); [|done]. by destruct (Hpre (ino_ (nd (PrefixTree.nodes s) l))).
  - unfold entry in Hpre. destruct (IsDir _); [|done]. by destruct (Hpre (ino_ (nd (PrefixTree.nodes s) l))).
Qed.

Lemma create_map_no f cs e : creatable f cs = false → ∀ q, f q = create_map f cs e q.
Proof. intros E q. unfold create_map. by rewrite E. Qed.

Definition local_status (s : PrefixTree.t) (pre : list bytes) (cur : Z) (cs : list bytes) : Status :=
  if IsDir (nd (PrefixTree.nodes s) cur) then
    match cs with
    | c :: _ :: _ => match namespace s (pre ++ [c]) with Some (true, _) => OK | _ => PrefixTreeError [] end
    | _ => OK
    end
  else PrefixTreeError [].

Record insert_post (s s' : PrefixTree.t) (pre : list bytes) (cur : Z) (cs : list bytes) (e : bool * Z) (st : Status) : Prop := {
  ip_ok : tree_ok s';
  ip_root : PrefixTree.root_ s' = PrefixTree.root_ s;
  ip_kvs : length (PrefixTree.kv_list_ s') = length (PrefixTree.kv_list_ s);
  ip_names q : namespace s' q = create_map (namespace s) (pre ++ cs) e q;
  ip_status : st = local_status s pre cur cs;
  ip_list l c y : (c, y) ∈ list_ (nd (PrefixTree.nodes s') l) → is_Some (PrefixTree.nodes s !! y) →
    (c, y) ∈ list_ (nd (PrefixTree.nodes s) l);
  ip_some l : is_Some (PrefixTree.nodes s !! l) → is_Some (PrefixTree.nodes s' !! l);
  ip_sized (D : Z → Prop) : (∀ l c, (c, cur) ∈ list_ (nd (PrefixTree.nodes s) l) → D l) →
    sized D (PrefixTree.nodes s) → sized D (PrefixTree.nodes s') }.

Lemma tree_ok_pushUp s p : tree_ok s → tree_ok (PrefixTree.set_nodes (PrefixTree.pushUp (PrefixTree.nodes s) p) s).
Proof.
  intros [W F]. pose proof (pushUp_shape (PrefixTree.nodes s) p) as S. split.
  - by eapply wf_shape.
  - intros l Hl. apply F. by apply S.
Qed.

(** Ending a level with [pushUp]: what was done below may have spoiled this
    directory's size. *)
Lemma push_post s s1 pre cur cs e st st' :
  st' = local_status s pre cur cs → is_Some (PrefixTree.nodes s !! cur) →
  tree_ok s1 → PrefixTree.root_ s1 = PrefixTree.root_ s →
  length (PrefixTree.kv_list_ s1) = length (PrefixTree.kv_list_ s) →
  (∀ q, namespace s1 q = create_map (namespace s) (pre ++ cs) e q) →
  (∀ l c y, (c, y) ∈ list_ (nd (PrefixTree.nodes s1) l) → is_Some (PrefixTree.nodes s !! y) →
    (c, y) ∈ list_ (nd (PrefixTree.nodes s) l)) →
  (∀ l, is_Some (PrefixTree.nodes s !! l) → is_Some (PrefixTree.nodes s1 !! l)) →
  (∀ D : Z → Prop, sized D (PrefixTree.nodes s) → sized (λ l, D l ∨ l = cur) (PrefixTree.nodes s1)) →
  st = st' →
  insert_post s (PrefixTree.set_nodes (PrefixTree.pushUp (PrefixTree.nodes s1) cur) s1) pre cur cs e st.
Proof.
  intros -> Hcur Hok Hroot Hkvs Hns Hlist Hsome Hsz ->.
  pose proof (pushUp_shape (PrefixTree.nodes s1) cur) as S.
  constructor; try done.
  - by apply tree_ok_pushUp.
  - intros q. by rewrite <- Hns, (namespace_shape s1) by done.
  - intros l c y. cbn. rewrite (same_shape_list _ _ _ S). apply Hlist.
  - intros l Hl. apply S. by apply Hsome.
  - intros D HD HS. cbn. apply (sized_pushUp _ _ (PrefixTree.root_ s1)); [apply Hok|by apply Hsome| |by apply Hsz].
    intros l c Hc. apply (HD l c), Hlist; done.
Qed.

Lemma insert_post_refl s pre cur cs e st :
  tree_ok s → creatable (namespace s) (pre ++ cs) = false → st = local_status s pre cur cs →
  insert_post s s pre cur cs e st.
Proof. intros Hok Hc Hst. constructor; try done. by apply create_map_no. Qed.

Lemma namespace_at s pre cur :
  walk (PrefixTree.nodes s) (PrefixTree.root_ s) pre = Some cur →
  namespace s pre = Some (entry (nd (PrefixTree.nodes s) cur)).
Proof. intros H. unfold namespace. by rewrite H. Qed.

Lemma namespace_child s pre cur c q :
  walk (PrefixTree.nodes s) (PrefixTree.root_ s) pre = Some cur → IsDir (nd (PrefixTree.nodes s) cur) = true →
  om_find c (list_ (nd (PrefixTree.nodes s) cur)) = None → namespace s (pre ++ c :: q) = None.
Proof. intros H Hd Hn. unfold namespace. rewrite walk_app, H. cbn. by rewrite Hd, Hn. Qed.

(** Adding a leaf leaves sizes as they are, but for its directory. *)
Lemma sized_added (D : Z → Prop) h r dir name p x n h' :
  wf h r → walk h r dir = Some p → IsDir (nd h p) = true → om_find name (list_ (nd h p)) = None →
  h !! x = None → path_ n = name → list_ n = [] → retag (InsertNode (<[x := n]> h) p x) h' →
  sized D h → sized (λ l, D l ∨ l = p) h'.
Proof.
  intros W Hp Hd Hn Hx Hname Hleaf [S Sz] HD l Hld Hl.
  rewrite (same_shape_dir _ _ _ S) in Hld. rewrite (same_shape_list _ _ _ S) in Hl.
  rewrite (nd_added h r W dir name p Hp Hd x n Hn Hx Hname) in Hld, Hl.
  destruct (decide (l = x)) as [->|Nx]; [by rewrite Hleaf in Hl|].
  destruct (decide (l = p)) as [->|Np]; [by left; right|].
  destruct (HD l Hld Hl) as [?|E]; [by left; left|]. right.
  assert (Hnd : nd (InsertNode (<[x := n]> h) p x) l = nd h l)
    by (rewrite (nd_added h r W dir name p Hp Hd x n Hn Hx Hname), !decide_False; done).
  rewrite Sz, Hnd, E. symmetry. apply sum_of_same.
  - unfold GetList. rewrite (same_shape_dir _ _ _ S), (same_shape_list _ _ _ S). by rewrite Hnd.
  - intros y [_ [c Hy]]%elem_of_GetList. rewrite Sz, (nd_added h r W dir name p Hp Hd x n Hn Hx Hname).
    rewrite decide_False; [by case_decide; subst|]. intros ->.
    apply (wf_child _ _ W) in Hy as [Hy _]. rewrite Hx in Hy. by destruct Hy.
Qed.

Lemma doInsert_spec fuel s cur pre ino path d sz dom :
  tree_ok s → walk (PrefixTree.nodes s) (PrefixTree.root_ s) pre = Some cur → (length path < fuel)%nat →
  ∃ st dom' s', PrefixTree.doInsert fuel s cur ino path d sz dom = Done (st, dom', s') ∧
    insert_post s s' pre cur (comps path) (d, ino) st.
Proof.
  revert s cur pre path dom. induction fuel as [|fuel IH]; intros s cur pre path dom Hok Hw Hfuel; [lia|].
  pose proof Hok as [W F]. pose proof (walk_some _ _ W _ _ Hw) as Hcur.
  cbn [PrefixTree.doInsert]. destruct (IsDir (nd (PrefixTree.nodes s) cur)) eqn:Hd; cbn [negb]; cycle 1.
  { do 3 eexists. split; [done|]. apply insert_post_refl; [done| |by unfold local_status; rewrite Hd].
    apply not_creatable; [apply comps_not_nil|]. intros i. rewrite (namespace_at _ _ _ Hw). unfold entry. by rewrite Hd. }
  set (dom1 := if dom =? -1 then _ else dom). clearbody dom1.
  pose proof (splitPath_comps path) as Hsp. destruct (PrefixTree.splitPath path) as [[status c] rest].
  destruct (om_find c (list_ (nd (PrefixTree.nodes s) cur))) as [child|] eqn:Hc.
  - assert (Hchild : walk (PrefixTree.nodes s) (PrefixTree.root_ s) (pre ++ [c]) = Some child)
      by (rewrite walk_app, Hw; cbn; by rewrite Hd, Hc).
    destruct status; [destruct Hsp as [Hcs Hlen]; destruct (comps rest) as [|c2 cs2] eqn:Hrest;
      [by destruct (comps_not_nil rest)|] | rename Hsp into Hcs]; rewrite Hcs.
    + assert (Hst : local_status s pre cur (c :: c2 :: cs2) =
        if IsDir (nd (PrefixTree.nodes s) child) then OK else PrefixTreeError []).
      { unfold local_status. rewrite Hd, (namespace_at _ _ _ Hchild). unfold entry. by destruct (IsDir _). }
      destruct (IsDir (nd (PrefixTree.nodes s) child)) eqn:Hcd; cbn [negb]; cycle 1.
      { do 3 eexists. split; [done|]. apply insert_post_refl; [done| |done].
        change (c :: c2 :: cs2) with ([c] ++ c2 :: cs2). rewrite app_assoc.
        apply not_creatable; [done|]. intros i. rewrite (namespace_at _ _ _ Hchild). unfold entry. by rewrite Hcd. }
      destruct (IH s child (pre ++ [c]) rest dom1 Hok Hchild ltac:(lia)) as (st & dom' & s' & -> & P).
      rewrite bind_Done. do 3 eexists. split; [done|].
      apply (push_post _ _ _ _ _ _ _ OK); try done; try by apply P.
      * intros q. rewrite (ip_names _ _ _ _ _ _ _ P), Hrest, <- app_assoc. done.
      * intros D HD. apply (ip_sized _ _ _ _ _ _ _ P); [|intros l ? ?; specialize (HD l); naive_solver].
        intros l c' Hc'. right. by eapply (parent_unique _ _ W); [done|by apply om_find_in|].
    + do 3 eexists. split; [done|].
      apply (push_post _ _ _ _ _ _ _ OK); try done.
      * unfold local_status. by rewrite Hd.
      * apply create_map_no. unfold creatable. rewrite (namespace_at _ _ _ Hchild). done.
      * intros D HD l ? ?. specialize (HD l). naive_solver.
  - destruct status; [destruct Hsp as [Hcs Hlen]; destruct (comps rest) as [|c2 cs2] eqn:Hrest;
      [by destruct (comps_not_nil rest)|] | rename Hsp into Hcs]; rewrite Hcs.
    + do 3 eexists. split; [done|]. apply insert_post_refl; [done| |].
      * change (c :: c2 :: cs2) with ([c] ++ c2 :: cs2). rewrite app_assoc.
        apply not_creatable; [done|]. intros i. by rewrite (namespace_child s pre cur c []).
      * unfold local_status. by rewrite Hd, (namespace_child s pre cur c []).
    + destruct (createNode_spec s pre cur c ino d dom1 sz Hok Hw Hd Hc) as (dom' & s' & -> & Hroot & Hnext & Hkvs & HR).
      rewrite bind_Done. do 3 eexists. split; [done|].
      set (x := PrefixTree.next_ s) in *. set (n := mkNode c ino d (-1) sz (Some cur) []) in *.
      assert (Hx : PrefixTree.nodes s !! x = None).
      { destruct (_ !! x) eqn:E; [|done]. specialize (F x ltac:(eauto)). unfold x in F. lia. }
      pose proof (wf_added _ _ W pre c cur Hw Hd x n Hc Hx eq_refl eq_refl) as W'.
      pose proof HR as [S Sz].
      assert (Hsome : ∀ l, is_Some (PrefixTree.nodes s' !! l) ↔ is_Some (PrefixTree.nodes s !! l) ∨ l = x).
      { intros l. destruct S as [-> _]. by eapply added_some. }
      assert (Hok' : tree_ok s').
      { split; [rewrite Hroot; by eapply wf_shape|]. intros l [Hl| ->]%Hsome; rewrite Hnext; [apply F in Hl|]; unfold x; lia. }
      apply (push_post _ _ _ _ _ _ _ OK); try done.
      * unfold local_status. by rewrite Hd.
      * intros q. assert (Hcr : creatable (namespace s) (pre ++ [c]) = true).
        { unfold creatable. rewrite (namespace_child s pre cur c []) by done.
          rewrite removelast_app, app_nil_r, (namespace_at _ _ _ Hw) by done. unfold entry. by rewrite Hd. }
        unfold create_map. rewrite Hcr. unfold namespace at 1. rewrite Hroot, (walk_shape _ _ _ _ S).
        rewrite (walk_added _ _ W pre c cur Hw Hd x n Hc Hx eq_refl eq_refl).
        case_decide; [rewrite bool_decide_true by done|rewrite bool_decide_false by done].
        -- cbn. rewrite (same_shape_entry _ _ _ S), (nd_added _ _ W pre c cur Hw Hd x n Hc Hx eq_refl).
           by rewrite decide_True.
        -- unfold namespace. destruct (walk _ _ q) as [l|] eqn:Hl; [|done]. cbn.
           rewrite (same_shape_entry _ _ _ S), (nd_added _ _ W pre c cur Hw Hd x n Hc Hx eq_refl).
           rewrite decide_False; [by case_decide; subst|].
           intros ->. apply (walk_some _ _ W) in Hl as [? ?]. congruence.
      * intros l c' y. rewrite (same_shape_list _ _ _ S). intros [?|(-> & -> & ->)]%(list_added _ _ W pre c cur Hw Hd x n Hc Hx eq_refl eq_refl); [done|].
        rewrite Hx. by intros [].
      * intros l Hl. apply Hsome. by left.
      * intros D HD. exact (sized_added D _ _ pre c cur x n _ W Hw Hd Hc Hx eq_refl eq_refl HR HD).
Qed.

(** ** Removing a path *)

Definition removable (f : list bytes → option (bool * Z)) (cs : list bytes) : Prop :=
  f cs ≠ None ∧ ∀ c, f (cs ++ [c]) = None.

Record remove_post (s s' : PrefixTree.t) (cur : Z) (cs : list bytes) (st : Status) : Prop := {
  rp_ok : tree_ok s';
  rp_root : PrefixTree.root_ s' = PrefixTree.root_ s;
  rp_kvs : length (PrefixTree.kv_list_ s') = length (PrefixTree.kv_list_ s);
  rp_names : (st = OK ∧ removable (namespace s) cs ∧
                ∀ q, namespace s' q = if decide (q = cs) then None else namespace s q) ∨
             (st = PrefixTreeError [] ∧ ¬ removable (namespace s) cs ∧ ∀ q, namespace s' q = namespace s q);
  rp_list l c y : (c, y) ∈ list_ (nd (PrefixTree.nodes s') l) → (c, y) ∈ list_ (nd (PrefixTree.nodes s) l);
  rp_some l : is_Some (PrefixTree.nodes s' !! l) ↔ is_Some (PrefixTree.nodes s !! l);
  rp_sized (D : Z → Prop) : (∀ l c, (c, cur) ∈ list_ (nd (PrefixTree.nodes s) l) → D l) →
    sized D (PrefixTree.nodes s) → sized D (PrefixTree.nodes s') }.

Lemma remove_post_refl s cur cs :
  tree_ok s → ¬ removable (namespace s) cs → remove_post s s cur cs (PrefixTreeError []).
Proof. intros Hok Hr. constructor; try done. by right. Qed.

Lemma push_remove_post s s1 cur cs st :
  is_Some (PrefixTree.nodes s !! cur) → tree_ok s1 → PrefixTree.root_ s1 = PrefixTree.root_ s →
  length (PrefixTree.kv_list_ s1) = length (PrefixTree.kv_list_ s) →
  (st = OK ∧ removable (namespace s) cs ∧
     (∀ q, namespace s1 q = if decide (q = cs) then None else namespace s q) ∨
   st = PrefixTreeError [] ∧ ¬ removable (namespace s) cs ∧ ∀ q, namespace s1 q = namespace s q) →
  (∀ l c y, (c, y) ∈ list_ (nd (PrefixTree.nodes s1) l) → (c, y) ∈ list_ (nd (PrefixTree.nodes s) l)) →
  (∀ l, is_Some (PrefixTree.nodes s1 !! l) ↔ is_Some (PrefixTree.nodes s !! l)) →
  (∀ D : Z → Prop, sized D (PrefixTree.nodes s) → sized (λ l, D l ∨ l = cur) (PrefixTree.nodes s1)) →
  remove_post s (PrefixTree.set_nodes (PrefixTree.pushUp (PrefixTree.nodes s1) cur) s1) cur cs st.
Proof.
  intros Hcur Hok Hroot Hkvs Hns Hlist Hsome Hsz.
  pose proof (pushUp_shape (PrefixTree.nodes s1) cur) as S.
  constructor; try done.
  - by apply tree_ok_pushUp.
  - destruct Hns as [(? & ? & H)|(? & ? & H)]; [left|right]; split_and!; try done; intros q;
      by rewrite <- H, (namespace_shape s1) by done.
  - intros l c y. cbn. rewrite (same_shape_list _ _ _ S). apply Hlist.
  - intros l. cbn. destruct S as [-> _]. apply Hsome.
  - intros D HD HS. cbn. apply (sized_pushUp _ _ (PrefixTree.root_ s1)); [apply Hok|by apply Hsome| |by apply Hsz].
    intros l c Hc. apply (HD l c), Hlist; done.
Qed.

(** The test for an empty directory or a file. *)
Lemma no_entries h r x :
  wf h r → (GetFileAndDirCount (nd h x) =? 0) = true ↔ ∀ c, walk h x [c] = None.
Proof.
  intros W. unfold GetFileAndDirCount. cbn. destruct (IsDir (nd h x)); [|done].
  rewrite Z.eqb_eq. pose proof (wf_ordered _ _ W x) as Ho. destruct (list_ (nd h x)) as [|[c y] l]; [done|].
  split; [cbn; lia|]. intros H. specialize (H c).
  rewrite (om_find_elem c y ((c, y) :: l) Ho ltac:(set_solver)) in H. done.
Qed.

Lemma removable_at s p x :
  walk (PrefixTree.nodes s) (PrefixTree.root_ s) p = Some x →
  removable (namespace s) p ↔ ∀ c, walk (PrefixTree.nodes s) x [c] = None.
Proof.
  intros H. unfold removable, namespace. setoid_rewrite walk_app. rewrite H. cbn [fmap option_fmap option_map mbind option_bind].
  split; [intros [_ Hc] c; specialize (Hc c); by destruct (walk _ x [c])|].
  intros Hc. split; [done|]. intros c. by rewrite Hc.
Qed.

Lemma not_removable s p : walk (PrefixTree.nodes s) (PrefixTree.root_ s) p = None → ¬ removable (namespace s) p.
Proof. intros H [N _]. apply N. unfold namespace. by rewrite H. Qed.

(** Removing a leaf leaves sizes as they are, but for its directory. *)
Lemma sized_removed (D : Z → Prop) h r dir name p x :
  wf h r → walk h r dir = Some p → IsDir (nd h p) = true → om_find name (list_ (nd h p)) = Some x →
  sized D h → sized (λ l, D l ∨ l = p) (EraseNode h p x).
Proof.
  intros W Hp Hd Hx HD l Hld Hl.
  pose proof (nd_removed h r W dir name p Hp Hd x Hx) as E.
  destruct (decide (l = p)) as [->|N]; [by left; right|].
  rewrite E, decide_False in Hld, Hl by done. destruct (HD l Hld Hl) as [?|Hs]; [by left; left|]. right.
  assert (El : nd (EraseNode h p x) l = nd h l) by (by rewrite E, decide_False).
  rewrite El, Hs. symmetry. apply sum_of_same; [unfold GetList; by rewrite El|].
  intros y _. rewrite E. by case_decide; subst.
Qed.

Lemma doRemove_spec fuel s cur pre path :
  tree_ok s → walk (PrefixTree.nodes s) (PrefixTree.root_ s) pre = Some cur → (length path < fuel)%nat →
  ∃ st s', PrefixTree.doRemove fuel s cur path = Done (st, s') ∧ remove_post s s' cur (pre ++ comps path) st.
Proof.
  revert s cur pre path. induction fuel as [|fuel IH]; intros s cur pre path Hok Hw Hfuel; [lia|].
  pose proof Hok as [W F]. pose proof (walk_some _ _ W _ _ Hw) as Hcur.
  assert (Hat : ∀ q, walk (PrefixTree.nodes s) (PrefixTree.root_ s) (pre ++ q) = walk (PrefixTree.nodes s) cur q)
    by (intros q; by rewrite walk_app, Hw).
  pose proof (splitPath_comps path) as Hsp. cbn [PrefixTree.doRemove].
  destruct (IsDir (nd (PrefixTree.nodes s) cur)) eqn:Hd; cbn [negb]; cycle 1.
  { do 2 eexists. split; [done|]. apply remove_post_refl; [done|]. apply not_removable. rewrite Hat.
    pose proof (comps_not_nil path). destruct (comps path); [done|]. cbn. by rewrite Hd. }
  destruct (PrefixTree.splitPath path) as [[status c] rest].
  assert (Hcs : ∃ q, comps path = c :: q ∧ if status then q = comps rest ∧ (length rest < length path)%nat else q = [])
    by (destruct status; [destruct Hsp; eauto|eauto]).
  clear Hsp. destruct Hcs as (q & Hcs & Hq). rewrite Hcs.
  destruct (om_find c (list_ (nd (PrefixTree.nodes s) cur))) as [child|] eqn:Hc; cycle 1.
  { do 2 eexists. split; [done|]. apply remove_post_refl; [done|]. apply not_removable. rewrite Hat. cbn. by rewrite Hd, Hc. }
  assert (Hchild : walk (PrefixTree.nodes s) (PrefixTree.root_ s) (pre ++ [c]) = Some child)
    by (rewrite Hat; cbn; by rewrite Hd, Hc).
  destruct status; cbn [negb].
  - destruct Hq as [-> Hlen].
    destruct (IH s child (pre ++ [c]) rest Hok Hchild ltac:(lia)) as (st & s' & -> & P).
    rewrite bind_Done. do 2 eexists. split; [done|]. rewrite <- app_assoc in P.
    apply push_remove_post; try done; try by apply P.
    intros D HD. apply (rp_sized _ _ _ _ _ P); [|intros l ? ?; specialize (HD l); naive_solver].
    intros l c' Hc'. right. by eapply (parent_unique _ _ W); [done|by apply om_find_in|].
  - subst q. pose proof (no_entries _ _ child W) as Hno. pose proof (removable_at s _ _ Hchild) as Hr.
    destruct (GetFileAndDirCount (nd (PrefixTree.nodes s) child) =? 0); cbn [negb]; cycle 1.
    { do 2 eexists. split; [done|]. apply remove_post_refl; [done|]. rewrite Hr. intros H. by apply Hno in H. }
    pose proof (proj1 Hno eq_refl) as Hleaf. do 2 eexists. split; [done|].
    set (s1 := PrefixTree.set_nodes (EraseNode (PrefixTree.nodes s) cur child) s).
    apply (push_remove_post s s1); try done.
    + split; [exact (wf_removed _ _ W pre c cur Hw Hd child Hc Hleaf)|].
      intros l Hl. apply F. revert Hl. cbn. unfold EraseNode. rewrite Hd. apply upd_some.
    + left. split; [done|]. split; [by apply Hr|]. intros q'. unfold namespace at 1. cbn [PrefixTree.nodes PrefixTree.root_ s1 PrefixTree.set_nodes].
      rewrite (walk_removed _ _ W pre c cur Hw Hd child Hc Hleaf). case_decide; [done|].
      unfold namespace. destruct (walk _ _ q') as [l|]; [|done]. cbn.
      rewrite (nd_removed _ _ W pre c cur Hw Hd child Hc). by case_decide; subst.
    + intros l c' y. cbn. by intros [? _]%(list_removed _ _ W pre c cur Hw Hd child Hc).
    + intros l. cbn. unfold EraseNode. rewrite Hd. apply upd_some.
    + intros D HD. cbn. by eapply sized_removed.
Qed.

(** ** Runs *)

Inductive tree_op : Type :=
  | TCreate (path : bytes) (ino : Z) (is_dir : bool) (sz : Z)
  | TRemove (path : bytes)
  | TRegist (i sum : Z).

Definition tree_step (s : PrefixTree.t) (o : tree_op) : outcome (Status * PrefixTree.t) :=
  match o with
  | TCreate path ino d sz => '(st, _, s) ← PrefixTree.Create s path ino d sz; Done (st, s)
  | TRemove path => PrefixTree.Remove s path
  | TRegist i sum => s ← PrefixTree.RegistNewKV s i sum; Done (OK, s)
  end.

Fixpoint tree_run (s : PrefixTree.t) (ops : list tree_op) : outcome (list Status * PrefixTree.t) :=
  match ops with
  | [] => Done ([], s)
  | o :: ops =>
      '(st, s) ← tree_step s o;
      '(sts, s) ← tree_run s ops;
      Done (st :: sts, s)
  end.

(** The abstract namespace. *)
Abbreviation names := (gmap (list bytes) (bool * Z)).

Definition names_step (m : names) (o : tree_op) : Status * names :=
  match o with
  | TCreate path ino d _ =>
      let cs := comps path in
      (create_status (λ q, m !! q) cs, if creatable (λ q, m !! q) cs then <[cs := (d, ino)]> m else m)
  | TRemove path =>
      let cs := comps path in
      if bool_decide (m !! cs ≠ None ∧ map_Forall (λ k _, removelast k ≠ cs) m)
      then (OK, delete cs m) else (PrefixTreeError [], m)
  | TRegist _ _ => (OK, m)
  end.

Fixpoint names_run (m : names) (ops : list tree_op) : list Status * names :=
  match ops with
  | [] => ([], m)
  | o :: ops =>
      let '(st, m) := names_step m o in
      let '(sts, m) := names_run m ops in (st :: sts, m)
  end.

(** Only two servers can be registered. *)
Fixpoint regs (ops : list tree_op) : nat :=
  match ops with [] => 0 | TRegist _ _ :: ops => S (regs ops) | _ :: ops => regs ops end.

Record tree_inv (s : PrefixTree.t) (m : names) : Prop := {
  t_ok : tree_ok s;
  t_names q : namespace s q = m !! q;
  t_sized : sized (λ _, False) (PrefixTree.nodes s) }.

Lemma creatable_ext f g cs : (∀ q, f q = g q) → creatable f cs = creatable g cs.
Proof. intros H. unfold creatable. by rewrite !H. Qed.

Lemma regist_inv s m i sum s' :
  tree_inv s m → PrefixTree.RegistNewKV s i sum = Done s' → tree_inv s' m.
Proof.
  intros [[W F] N S]. unfold PrefixTree.RegistNewKV.
  assert (Hid : ∀ ks, tree_inv (PrefixTree.set_kvs ks s) m) by (by intros ks; split).
  destruct (PrefixTree.kv_list_ s) as [|k [|k' ks]]; [|by intros [= <-]|].
  - intros [= <-]. pose proof (retag_domain i (PrefixTree.root_ s) (PrefixTree.nodes s)) as [R Rz]. split.
    + split; [by eapply wf_shape|]. intros l. cbn. destruct R as [-> _]. apply F.
    + intros q. rewrite <- N. by apply namespace_shape.
    + intros l Hd Hl. cbn in *. rewrite (same_shape_dir _ _ _ R) in Hd. rewrite (same_shape_list _ _ _ R) in Hl.
      destruct (S l Hd Hl) as [[]|E]. right. rewrite Rz, E. symmetry. apply sum_of_same; [|by intros].
      unfold GetList. by rewrite (same_shape_dir _ _ _ R), (same_shape_list _ _ _ R).
  - intros [[n p] [_ [= <-]]]%bind_Done_inv. apply Hid.
Qed.

Lemma root_status s cs : tree_ok s → local_status s [] (PrefixTree.root_ s) cs = create_status (namespace s) cs.
Proof. intros [W _]. unfold local_status, create_status. by rewrite (wf_root_dir _ _ W). Qed.

Lemma create_inv s m path ino d sz :
  tree_inv s m →
  ∃ dom s', PrefixTree.Create s path ino d sz = Done (create_status (λ q, m !! q) (comps path), dom, s') ∧
    tree_inv s' (if creatable (λ q, m !! q) (comps path) then <[comps path := (d, ino)]> m else m) ∧
    length (PrefixTree.kv_list_ s') = length (PrefixTree.kv_list_ s).
Proof.
  intros [Hok N S]. unfold PrefixTree.Create.
  destruct (doInsert_spec (Datatypes.S (length path)) s (PrefixTree.root_ s) [] ino path d sz (-1) Hok eq_refl ltac:(lia))
    as (st & dom & s' & -> & P).
  assert (st = create_status (λ q, m !! q) (comps path)) as ->.
  { rewrite (ip_status _ _ _ _ _ _ _ P), root_status by done. unfold create_status.
    destruct (comps path) as [|c [|c2 cs]]; [done..|]. by rewrite N. }
  do 2 eexists. split; [done|]. split; [|by apply P]. split; [by apply P| |].
  - intros q. rewrite (ip_names _ _ _ _ _ _ _ P). cbn [app]. unfold create_map.
    rewrite (creatable_ext _ (λ q, m !! q)) by done. destruct (creatable _ _); cbn; [|done].
    rewrite lookup_insert, N. by repeat case_decide; repeat case_bool_decide; subst.
  - apply (ip_sized _ _ _ _ _ _ _ P); [|done]. intros l c Hc. by destruct (root_no_parent _ _ (proj1 Hok) c l).
Qed.

Lemma removable_map (m : names) cs :
  cs ≠ [] → removable (λ q, m !! q) cs ↔ m !! cs ≠ None ∧ map_Forall (λ k _, removelast k ≠ cs) m.
Proof.
  intros Hcs. unfold removable. split; intros [H1 H2]; (split; [done|]).
  - intros k e Hk E. destruct k as [|c k _] using rev_ind; [done|].
    rewrite removelast_last in E. subst. by rewrite H2 in Hk.
  - intros c. destruct (m !! (cs ++ [c])) as [e|] eqn:E; [|done].
    destruct (H2 _ _ E). apply removelast_last.
Qed.

Lemma remove_inv s m path :
  tree_inv s m →
  ∃ s', PrefixTree.Remove s path = Done ((names_step m (TRemove path)).1, s') ∧
    tree_inv s' (names_step m (TRemove path)).2 ∧
    length (PrefixTree.kv_list_ s') = length (PrefixTree.kv_list_ s).
Proof.
  intros [Hok N S]. unfold PrefixTree.Remove.
  destruct (doRemove_spec (Datatypes.S (length path)) s (PrefixTree.root_ s) [] path Hok eq_refl ltac:(lia))
    as (st & s' & -> & P). cbn [app] in P.
  assert (Hr : removable (namespace s) (comps path) ↔
    m !! comps path ≠ None ∧ map_Forall (λ k _, removelast k ≠ comps path) m).
  { rewrite <- removable_map by apply comps_not_nil. unfold removable. by setoid_rewrite N. }
  exists s'. split; [|split; [|by apply P]].
  - cbn. destruct (rp_names _ _ _ _ _ P) as [(-> & H & _)|(-> & H & _)]; rewrite Hr in H; by case_bool_decide.
  - cbn. split; [by apply P| |].
    + intros q. destruct (rp_names _ _ _ _ _ P) as [(_ & H & E)|(_ & H & E)]; rewrite Hr in H; rewrite E, N.
      * rewrite bool_decide_true by done. cbn. rewrite lookup_delete. by repeat case_decide; subst.
      * by rewrite bool_decide_false.
    + assert (Hs : sized (λ _, False) (PrefixTree.nodes s')) by
        (apply (rp_sized _ _ _ _ _ P); [|done]; intros l c Hc; by destruct (root_no_parent _ _ (proj1 Hok) c l)).
      done.
Qed.

Lemma tree_run_inv ops s m :
  tree_inv s m → (length (PrefixTree.kv_list_ s) + regs ops ≤ 2)%nat →
  ∃ s', tree_run s ops = Done ((names_run m ops).1, s') ∧ tree_inv s' (names_run m ops).2.
Proof.
  revert s m. induction ops as [|o ops IH]; intros s m I Hk; [by exists s|]. cbn [tree_run names_run].
  assert (∃ s1, tree_step s o = Done ((names_step m o).1, s1) ∧ tree_inv s1 (names_step m o).2 ∧
    (length (PrefixTree.kv_list_ s1) + regs ops ≤ 2)%nat) as (s1 & -> & I1 & Hk1).
  { destruct o as [path ino d sz|path|i sum]; cbn [tree_step regs] in *.
    - destruct (create_inv s m path ino d sz I) as (dom & s1 & -> & I1 & Hl).
      exists s1. split; [done|]. split; [done|]. by rewrite Hl.
    - destruct (remove_inv s m path I) as (s1 & -> & I1 & Hl). exists s1. split; [done|]. split; [done|]. by rewrite Hl.
    - destruct (PrefixTree.RegistNewKV s i sum) as [s1| | |] eqn:E; unfold PrefixTree.RegistNewKV in E;
        destruct (PrefixTree.kv_list_ s) as [|k [|k' ks]] eqn:Ek; cbn [length] in Hk; try done; try lia;
        exists s1; (split; [done|]); (split; [eapply (regist_inv s m i sum); [done|]; unfold PrefixTree.RegistNewKV; by rewrite Ek|]);
        injection E as <-; cbn; lia. }
  rewrite bind_Done. destruct (names_step m o) as [st m1]. cbn [fst snd] in *.
  destruct (IH s1 m1 I1 Hk1) as (s2 & -> & I2). exists s2.
  destruct (names_run m1 ops) as [sts m2]. by rewrite bind_Done.
Qed.

Definition names_empty : names := {[ [] := (true, 0) ]}.

Definition root_node : node := mkNode [] 0 true (-1) 0 None [].
Definition only_root : heap := {[1 := root_node]}.

Lemma only_root_list l : list_ (nd only_root l) = [].
Proof.
  unfold nd, only_root. destruct (decide (l = 1)) as [->|]; [by rewrite lookup_singleton_eq|by rewrite lookup_singleton_ne].
Qed.

Lemma only_root_walk q : walk only_root 1 q = match q with [] => Some 1 | _ => None end.
Proof. destruct q as [|c q]; [done|]. cbn. rewrite only_root_list. by destruct (IsDir _). Qed.

Lemma only_root_wf : wf only_root 1.
Proof.
  split.
  - eexists. apply lookup_singleton_eq.
  - done.
  - intros l. rewrite only_root_list. constructor.
  - intros l c x. rewrite only_root_list. set_solver.
  - intros p q l. rewrite !only_root_walk. by destruct p, q.
  - intros l c x. rewrite only_root_list. set_solver.
Qed.

Lemma make_inv : ∃ s, PrefixTree.make = Done s ∧ tree_inv s names_empty ∧ PrefixTree.kv_list_ s = [].
Proof.
  exists (PrefixTree.mk only_root 2 1 [] false []). split; [reflexivity|]. split; [|done].
  split; cbn [PrefixTree.nodes PrefixTree.root_ PrefixTree.next_].
  - split; [apply only_root_wf|]. intros l [m Hm].
    change (({[1 := root_node]} : heap) !! l = Some m) in Hm.
    by apply lookup_singleton_Some in Hm as [<- _].
  - intros q. unfold namespace. cbn [PrefixTree.nodes PrefixTree.root_]. rewrite only_root_walk.
    destruct q as [|c q]; [done|]. unfold names_empty. by rewrite lookup_singleton_ne.
  - intros l _. by rewrite only_root_list.
Qed.

(** C10: The tree is a map from paths to entries.  For every run of creations,
    removals and up to two registrations, the operations return the statuses of
    the map, and looking a path up in the tree finds what the map has there: a
    creation adds exactly the entry whose directory exists and whose name is
    free, a removal deletes exactly a file or an empty directory. *)
Theorem tree_refines_namespace ops :
  (regs ops ≤ 2)%nat →
  ∃ s0 s, PrefixTree.make = Done s0 ∧ tree_run s0 ops = Done ((names_run names_empty ops).1, s) ∧
    ∀ q, namespace s q = (names_run names_empty ops).2 !! q.
Proof.
  intros Hr. destruct make_inv as (s0 & E & I & Hk). exists s0.
  destruct (tree_run_inv ops s0 _ I) as (s & Hs & I'); [rewrite Hk; cbn; lia|].
  exists s. split; [done|]. split; [done|]. apply I'.
Qed.

(** C33: After every run, every directory that has entries is as large as its
    entries together (in 64 bits). *)
Theorem directory_sizes_add_up ops :
  (regs ops ≤ 2)%nat →
  ∃ s0 sts s, PrefixTree.make = Done s0 ∧ tree_run s0 ops = Done (sts, s) ∧
    ∀ l, IsDir (nd (PrefixTree.nodes s) l) = true → list_ (nd (PrefixTree.nodes s) l) ≠ [] →
      sz_ (nd (PrefixTree.nodes s) l) =
      foldl (λ sz x, wrap64 (sz + sz_ (nd (PrefixTree.nodes s) x))) 0 (list_ (nd (PrefixTree.nodes s) l)).*2.
Proof.
  intros Hr. destruct make_inv as (s0 & E & I & Hk). exists s0.
  destruct (tree_run_inv ops s0 _ I) as (s & Hs & I'); [rewrite Hk; cbn; lia|].
  eexists _, s. split; [done|]. split; [done|]. intros l Hd Hl.
  destruct (t_sized _ _ I' l Hd Hl) as [[]| ->]. unfold sum_of, GetList. by rewrite Hd.
Qed.

Definition demo_ops : list tree_op :=
  [TRegist 1 10; TRegist 2 10; TCreate (bs "a") 11 true 0; TCreate (bs "a/z") 12 true 0;
   TCreate (bs "a/z/f") 1 false 5; TCreate (bs "a/g") 2 false 3; TRemove (bs "a/z"); TRemove (bs "a/z/f");
   TRemove (bs "a/z")].

Example tree_refines_namespace_witness :
  ∃ s, tree_run (match PrefixTree.make with Done s => s | _ => PrefixTree.mk ∅ 0 0 [] false [] end) demo_ops =
    Done ([OK; OK; OK; OK; OK; OK; PrefixTreeError []; OK; OK], s) ∧
    namespace s [bs "a"; bs "z"] = None ∧ namespace s [bs "a"; bs "g"] = Some (false, 2).
Proof.
  destruct (tree_refines_namespace demo_ops) as (s0 & s & E & R & N); [vm_compute; lia|].
  exists s. rewrite !N, E. split; [|split; vm_compute; reflexivity].
  rewrite R. f_equal.
Defined.

Example directory_sizes_add_up_witness :
  ∃ s0 sts s, PrefixTree.make = Done s0 ∧ tree_run s0 (take 6 demo_ops) = Done (sts, s) ∧
    sz_ (nd (PrefixTree.nodes s) 2) =
      foldl (λ sz x, wrap64 (sz + sz_ (nd (PrefixTree.nodes s) x))) 0 (list_ (nd (PrefixTree.nodes s) 2)).*2.
Proof.
  destruct (directory_sizes_add_up (take 6 demo_ops)) as (s0 & sts & s & E & R & H); [vm_compute; lia|].
  exists s0, sts, s. split; [exact E|]. split; [exact R|].
  vm_compute in E. injection E as <-. vm_compute in R. injection R as <- <-.
  apply H; [vm_compute; reflexivity|vm_compute; discriminate].
Defined.
