(* ===== verification/TreeBalance.v ===== *)
(** * Balancing the name tree and registering servers

    Where [Create], [Adjust] and [RegistNewKV] of src/master/prefix_tree.cc and the
    search for the nearest domain (prefix_tree_node.cc) do not do what they mean to. *)

From S2P Require Import Prelude StdContainers Status PrefixTree TreeSpec.

Definition tree_after (ops : list tree_op) : outcome (list Status * PrefixTree.t) :=
  s ← PrefixTree.make; tree_run s ops.

(** A creation below a directory that does not exist reports success: the
    status of the nested call is dropped at every level but the first. *)
Theorem create_reports_lost_entry :
  ('(sts, s) ← tree_after [TRegist 1 10; TCreate (bs "a") 2 true 0; TCreate (bs "a/x/y") 3 false 1];
   Done (sts, namespace s [bs "a"], namespace s [bs "a"; bs "x"; bs "y"])) =
  Done ([OK; OK; OK], Some (true, 2), None).
Proof. vm_compute. reflexivity. Qed.

Lemma regist_scan_undef ks i m p : ks ≠ [] → PrefixTree.regist_scan ks i m p = Undef.
Proof.
  revert i m p. induction ks as [|k ks IH]; intros i m p; [done|]. intros _.
  destruct ks as [|k' ks]; [done|]. cbn [PrefixTree.regist_scan]. case_test; by apply IH.
Qed.

(** With two servers registered, registering another one reads behind the
    end of the list of servers. *)
Theorem third_server_undefined s i sum :
  (2 ≤ length (PrefixTree.kv_list_ s))%nat → PrefixTree.RegistNewKV s i sum = Undef.
Proof.
  intros H. unfold PrefixTree.RegistNewKV.
  destruct (PrefixTree.kv_list_ s) as [|k [|k' ks]]; cbn in H; [lia..|].
  by rewrite regist_scan_undef.
Qed.

Example third_server_undefined_witness :
  PrefixTree.RegistNewKV
    (PrefixTree.mk only_root 2 1 [mkKV 1 10 0 [1]; mkKV 2 10 0 []] false []) 3 10 = Undef.
Proof. apply third_server_undefined. cbn. lia. Defined.

(** ** The nearest domain

    In a tree, the search ends at a node below, with that node's domain, and
    with none only where there is nothing further down. *)

Lemma FindNearestDomainId_finds h r n l left : wf h r → shallow h n l →
  ∃ q x, walk h l q = Some x ∧ FindNearestDomainId n h l left = Done (domain_id_ (nd h x), x) ∧
    (domain_id_ (nd h x) = -1 → GetList (nd h x) = []).
Proof.
  intros W. revert l left. induction n as [|n IH]; intros l left Hs; [specialize (Hs [] l eq_refl); cbn in Hs; lia|].
  assert (Hhere : domain_id_ (nd h l) = -1 ∧ GetList (nd h l) ≠ [] ∨ FindNearestDomainId (S n) h l left = Done (domain_id_ (nd h l), l) ∧
      (domain_id_ (nd h l) = -1 → GetList (nd h l) = [])).
  { cbn [FindNearestDomainId]. unfold GetList. destruct (IsDir (nd h l)); [|by right]. cbn [negb].
    destruct (Z.eqb_spec (domain_id_ (nd h l)) (-1)) as [E|]; [|by right]. cbn [negb].
    destruct (list_ (nd h l)) as [|c cs]; [right; rewrite E; by destruct left|by left]. }
  destruct Hhere as [[Hd Hl]|[E Hx]]; [|by exists [], l].
  assert (∃ c, (if left then head (GetList (nd h l)) else last (GetList (nd h l))) = Some c) as [c Hc].
  { destruct left; [destruct (GetList (nd h l)); [done|by eexists]|]. apply last_is_Some in Hl as [c Hc]. by exists c. }
  assert (c ∈ GetList (nd h l)) as [Hdir [k Hk]]%elem_of_GetList.
  { destruct left; [by apply head_Some_elem_of|by apply last_Some_elem_of]. }
  pose proof (wf_ordered _ _ W l) as Ho.
  destruct (IH c true) as (q & x & Hq & E & Hx); [by eapply shallow_child|].
  exists (k :: q), x. split; [cbn; by rewrite Hdir, (om_find_elem k c _ Ho Hk)|]. split; [|done].
  cbn [FindNearestDomainId]. by rewrite Hdir, Hd, Hc.
Qed.

(** The search to the right turns left after its first step: below [/] the last
    entry is [b], whose files [x] and [y] are on servers 1 and 2. *)
Example right_search_turns_left :
  let file n d := mkNode (bs n) 0 false d 1 None [] in
  let dir n l := mkNode (bs n) 0 true (-1) 1 None l in
  let h : heap := {[ 1 := dir "/" [(bs "a", 2); (bs "b", 3)]; 2 := file "a" 0; 3 := dir "b" [(bs "x", 4); (bs "y", 5)];
                     4 := file "x" 1; 5 := file "y" 2 ]} in
  FindNearestDomainId 3 h 1 false = Done (1, 4) ∧ FindNearestDomainId 3 h 3 false = Done (2, 5).
Proof. vm_compute. by split. Qed.

(** ** Pulling a directory that does not fit

    Server 1 holds the empty directory [a], server 2 the directory [b] of size
    6 and the file [c], in that order. *)

Definition before_pull : outcome PrefixTree.t :=
  '(_, s) ← tree_after
    [TRegist 1 10; TRegist 2 10; TCreate (bs "a") 11 true 0; TCreate (bs "b") 12 true 0;
     TCreate (bs "a/x") 1 false 2; TCreate (bs "b/y") 2 false 1; TCreate (bs "c") 3 false 1];
  '(_, s) ← PrefixTree.Adjust 20 s 20;
  '(_, s) ← tree_run s [TCreate (bs "b/z") 4 false 5; TRemove (bs "a/x")];
  Done s.

(** The states of the pulling loop: [b] is 3, its files are 5 and 7. *)
Definition pulling (h : heap) (n r : Z) (f : bool) (rest : list Z) : PrefixTree.t :=
  PrefixTree.mk h n r [mkKV 1 10 0 [2]; mkKV 2 10 0 (3 :: rest)] f [mkCtx 1 0 0; mkCtx 2 7 70].

Definition big_dir (h : heap) : Prop :=
  IsDir (nd h 3) = true ∧ sz_ (nd h 3) = 6 ∧ GetList (nd h 3) = [5; 7].

Lemma push_down_big h : big_dir h → big_dir (PushDownDomainTag h 3).
Proof.
  intros (Hd & Hs & Hl). unfold PushDownDomainTag. rewrite Hd, Hl. cbn [negb orb foldr].
  destruct (_ =? -1); [done|].
  set (d := domain_id_ (nd h 3)).
  assert (E : ∀ h d l, shape (nd (upd (SetDomainId d) l h) 3) = shape (nd h 3) ∧
    sz_ (nd (upd (SetDomainId d) l h) 3) = sz_ (nd h 3)).
  { intros h' d' l. destruct (retag_domain d' l h') as [[_ S] Sz]. by split. }
  assert (E3 : ∀ h h' : heap, shape (nd h' 3) = shape (nd h 3) ∧ sz_ (nd h' 3) = sz_ (nd h 3) → big_dir h → big_dir h').
  { intros h1 h2 [S Sz] (? & ? & ?). unfold big_dir, GetList, shape in *. injection S as _ _ -> ->. by rewrite Sz. }
  by do 3 (eapply E3; [apply E|]).
Qed.

Lemma pop_big h n r f x rest :
  PrefixTree.pop_back 2 (pulling h n r f (x :: rest)) = Done (pulling h n r f (take (length rest) (x :: rest))).
Proof.
  unfold PrefixTree.pop_back.
  change (domain_node_list (PrefixTree.kv_of (pulling h n r f (x :: rest)) 2)) with (3 :: x :: rest). cbv iota.
  cbn [length Nat.sub]. reflexivity.
Qed.

Lemma push_big h n r f rest y :
  PrefixTree.push_back 2 y (pulling h n r f rest) = pulling h n r f (rest ++ [y]).
Proof. reflexivity. Qed.

Lemma split_step h n r f x rest :
  big_dir h →
  PrefixTree.splitFileNode (pulling h n r f (x :: rest)) 2 3 =
    Done (true, pulling (PushDownDomainTag h 3) n r f (take (length rest) (x :: rest) ++ [5; 7])).
Proof.
  intros (Hd & Hs & Hl). unfold PrefixTree.splitFileNode.
  change (PrefixTree.nodes (pulling h n r f (x :: rest))) with h. rewrite Hd. cbn [negb].
  rewrite pop_big, bind_Done. cbv beta zeta.
  change (PrefixTree.nodes (pulling h n r f _)) with h. rewrite Hl.
  change (PrefixTree.set_nodes ?h' (pulling h n r f ?l)) with (pulling h' n r f l). cbn [foldl].
  by rewrite !push_big, <- app_assoc.
Qed.

(** The score of a concrete memory and size. *)
Ltac score_is v :=
  match goal with
  | |- context [PrefixTree.calculateScore ?a ?b ≫= _] =>
      replace (PrefixTree.calculateScore a b) with (Done v) by (vm_compute; reflexivity)
  end; rewrite bind_Done; cbv beta.

Lemma pull_loop_forever fuel h n r f rest res :
  big_dir h → rest ≠ [] → PrefixTree.pull_loop fuel (pulling h n r f rest) 0 40 30 res = NoFuel.
Proof.
  revert h rest. induction fuel as [|fuel IH]; intros h rest Hb Hr; [done|].
  pose proof Hb as (Hd & Hs & Hl).
  cbn [PrefixTree.pull_loop]. change (PrefixTree.first_of _ _) with (Done 3). rewrite bind_Done. cbv beta zeta.
  change (PrefixTree.nodes (pulling h n r f rest)) with h. rewrite Hs.
  score_is 60.  score_is 10.
  change (60 <=? 40) with false. cbv iota.
  change (PrefixTree.kvi _ (0 + 1)) with 2. destruct rest as [|x rest]; [done|].
  rewrite split_step by done. rewrite !bind_Done. cbv beta iota zeta.
  change (_ || _) with false. cbv iota. apply IH; [by apply push_down_big|by destruct (take _ _)].
Qed.

(** Pulling from the next server does not end when the first entry of that
    server is a directory too large to take and not its only entry: the split
    meant for the first entry drops the last one, and the same directory is
    tried again for ever, the list growing. *)
Theorem pull_never_ends fuel : (s ← before_pull; PrefixTree.Adjust fuel s 40) = NoFuel.
Proof.
  assert (∃ h n r f, before_pull = Done (PrefixTree.mk h n r [mkKV 1 10 0 [2]; mkKV 2 10 0 [3; 6]] f
      [mkCtx 1 2 20; mkCtx 2 2 20]) ∧ f = false ∧ big_dir h ∧ sz_ (nd h 2) = 0 ∧ sz_ (nd h 6) = 1)
    as (h & n & r & f & -> & -> & Hb & H2 & H6).
  { do 4 eexists. split; [vm_compute; reflexivity|]. repeat split; vm_compute; reflexivity. }
  rewrite bind_Done. cbv beta. unfold PrefixTree.Adjust, PrefixTree.GetAdjustContext, PrefixTree.calculateAdjustContext.
  cbn [PrefixTree.has_get_context_ PrefixTree.kv_list_ PrefixTree.make_contexts].
  unfold PrefixTree.calculateSum. cbn [domain_node_list foldl PrefixTree.nodes].
  destruct Hb as (Hd & Hs & Hl). rewrite H2, H6, Hs.
  score_is 0. score_is 70. rewrite !bind_Done. cbv beta.
  cbn [PrefixTree.adjust_context_vec_ length seq PrefixTree.adjust_rounds].
  match goal with
  | |- context [PrefixTree.adjust_over fuel ?s 0 []] =>
      replace (PrefixTree.adjust_over fuel s 0 []) with (Done ([] : list (Z * move_t), pulling h n r true [6]))
        by (vm_compute; reflexivity)
  end.
  rewrite bind_Done. cbv beta iota.
  replace (PrefixTree.adjust_pull fuel (pulling h n r true [6]) 0 40 []) with
    (PrefixTree.pull_loop fuel (pulling h n r true [6]) 0 40 30 []) by reflexivity.
  by rewrite pull_loop_forever.
Qed.
