(* ===== verification/Master.v ===== *)
(** * The master (src/master/master.cc)

    Inode numbers, the servers and their addresses, and where a file is kept,
    over the name tree.  The balancing thread never runs (its stop flag starts
    out true).  [Move] is modelled by the locks it takes and the call it makes:
    the answers of the lock server and of the extent server are arguments.

    The methods are functions of the master's state: what they do when no other
    runs.  Only parts of them hold a mutex; those parts, and the data that each
    touches, are the sections at the end of the module, which MasterNet.v runs for
    handlers that overlap. *)

From S2P Require Import Prelude StdContainers Sections Status PrefixTree TreeSpec.

Module Master.

Record t : Type := mk {
  ino_count_ : Z; register_id_to_addr_ : gmap Z bytes; inum_to_register_id_ : gmap Z Z;
  inum_to_path_ : gmap Z bytes; addr_to_register_id_ : gmap bytes Z; cur_register_kv_id_ : Z;
  reused_queue_ : list Z; t_ : PrefixTree.t }.

Definition make : outcome t := tr ← PrefixTree.make; Done (mk 2 ∅ ∅ ∅ ∅ 0 [] tr).

(** [getNewRegisterID], [doRegister] *)
Definition getNewRegisterID (m : t) : Z * t :=
  match reused_queue_ m with
  | id :: q => (id, mk (ino_count_ m) (register_id_to_addr_ m) (inum_to_register_id_ m) (inum_to_path_ m)
                      (addr_to_register_id_ m) (cur_register_kv_id_ m) q (t_ m))
  | [] => (cur_register_kv_id_ m, mk (ino_count_ m) (register_id_to_addr_ m) (inum_to_register_id_ m) (inum_to_path_ m)
                      (addr_to_register_id_ m) (cur_register_kv_id_ m + 1) [] (t_ m))
  end.

Definition doRegister (m : t) (addr : bytes) (id : Z) : t :=
  mk (ino_count_ m) (<[id := addr]> (register_id_to_addr_ m)) (inum_to_register_id_ m) (inum_to_path_ m)
     (<[addr := id]> (addr_to_register_id_ m)) (cur_register_kv_id_ m) (reused_queue_ m) (t_ m).

Definition set_tree (tr : PrefixTree.t) (m : t) : t :=
  mk (ino_count_ m) (register_id_to_addr_ m) (inum_to_register_id_ m) (inum_to_path_ m)
     (addr_to_register_id_ m) (cur_register_kv_id_ m) (reused_queue_ m) tr.

(** Every handler returns [master_protocol::OK]; the id is the answer. *)
Definition Regist (m : t) (addr : bytes) (sum : Z) : outcome (Z * t) :=
  let '(id, m) := getNewRegisterID m in
  let m := doRegister m addr id in
  tr ← PrefixTree.RegistNewKV (t_ m) id sum;
  Done (id, set_tree tr m).

Definition doUnregister (m : t) (id : Z) : t :=
  match register_id_to_addr_ m !! id with
  | None => m
  | Some addr =>
      mk (ino_count_ m) (delete id (register_id_to_addr_ m)) (inum_to_register_id_ m) (inum_to_path_ m)
         (delete addr (addr_to_register_id_ m)) (cur_register_kv_id_ m) (reused_queue_ m ++ [id]) (t_ m)
  end.

(** Maps keyed by [int]; reading with [[]] puts a default value in. *)
Definition key (inum : Z) : Z := sgn 32 inum.

Definition getInfoByInum (m : t) (inum : Z) : bytes * t :=
  let id := default 0 (inum_to_register_id_ m !! key inum) in
  let addr := default [] (register_id_to_addr_ m !! id) in
  (addr, mk (ino_count_ m) (<[id := addr]> (register_id_to_addr_ m)) (<[key inum := id]> (inum_to_register_id_ m))
            (inum_to_path_ m) (addr_to_register_id_ m) (cur_register_kv_id_ m) (reused_queue_ m) (t_ m)).

(** The recorded path of the new inode is the name alone; a failed creation
    fails an assertion. *)
Definition genInum (m : t) (parent : Z) (path : bytes) (is_dir : bool) (node_sz : Z) : outcome (Z * t) :=
  let id := ino_count_ m in
  let count := wrap64 (id + 1) in
  let id := if is_dir then id else Z.lor id (2 ^ 31) in
  let full := default [] (inum_to_path_ m !! key parent) in
  let paths := <[key parent := full]> (inum_to_path_ m) in
  let full_path := (if bool_decide (full = []) then [] else full ++ bs "/") ++ path in
  '(flag, kv_id, tr) ← PrefixTree.Create (t_ m) full_path id is_dir node_sz;
  _ ← ensure (IsOK flag);
  Done (id, mk count (register_id_to_addr_ m) (<[key id := kv_id]> (inum_to_register_id_ m)) (<[key id := path]> paths)
              (addr_to_register_id_ m) (cur_register_kv_id_ m) (reused_queue_ m) tr).

Definition AskForIno (m : t) (parent : Z) (path : bytes) (is_dir : bool) (node_sz : Z) : outcome (Z * bytes * t) :=
  '(ino, m) ← genInum m parent path is_dir node_sz;
  let '(addr, m) := getInfoByInum m ino in
  Done (ino, addr, m).

Definition AskForKV (m : t) (ino : Z) : bytes * t := getInfoByInum m ino.

(** [UpdateKVInfo] ignores the report. *)
Definition UpdateKVInfo (m : t) : t := m.

(** ** Hashing a path to a server *)

Definition letter (b : byte) : bool :=
  ((65 <=? b2z b) && (b2z b <=? 90)) || ((97 <=? b2z b) && (b2z b <=? 122)).

(** The remainder by 0 servers is undefined. *)
Definition hashValueToRegisterID (n val : Z) : outcome Z :=
  val ← (if (n <=? val) || (val <=? - n) then if n =? 0 then Undef else Done (Z.rem val n) else Done val);
  Done (if val <? 0 then val + n else val).

Definition int_ok (z : Z) : outcome Z := if (- 2 ^ 31 <=? z) && (z <? 2 ^ 31) then Done z else Undef.

Fixpoint hashStr_from (n sum : Z) (s : bytes) : outcome Z :=
  match s with
  | [] => Done sum
  | x :: s =>
      sum ← int_ok (sum * 26);
      sum ← int_ok (sum + (sgn 8 (b2z x) - 48));
      sum ← hashValueToRegisterID n sum;
      hashStr_from n sum s
  end.
Definition hashStr (n : Z) (s : bytes) : outcome Z := hashStr_from n 0 s.

(** The path up to the first character that is not a letter, and what follows
    that character. *)
Fixpoint first_word (p : bytes) : bytes * option bytes :=
  match p with
  | [] => ([], None)
  | c :: p => if letter c then let '(w, r) := first_word p in (c :: w, r) else ([], Some p)
  end.

Fixpoint hashPath_from (fuel : nat) (n : Z) (p : bytes) (hash_val : Z) : outcome Z :=
  match fuel with
  | O => NoFuel
  | S fuel =>
      let '(w, rest) := first_word p in
      h ← hashStr n w;
      hash_val ← int_ok (hash_val + h);
      hash_val ← hashValueToRegisterID n hash_val;
      match rest with
      | None => Done hash_val
      | Some [] => Done hash_val
      | Some p => hashPath_from fuel n p hash_val
      end
  end.

Definition hashPath (m : t) (path : bytes) : outcome Z :=
  match path with
  | [] => Done 0
  | _ => hashPath_from (S (length path)) (cur_register_kv_id_ m) path 0
  end.

(** [calculateScore] adds to variables that were never set. *)
Definition calculateScore (l : list AdjustContext) : outcome Z := Undef.

(** ** Move *)

Inductive move_event : Type := MLock (inum answer : Z) | MUnlock (inum : Z) | MCall.

(** The loop that locks: after a failure it gives back what it has and goes on
    with the next file.  [done] are the files before, latest first. *)
Fixpoint lock_loop (inum answers : list Z) (done : list Z) (go_on : bool) (status : Z) :
    bool * Z * list move_event :=
  match inum, answers with
  | i :: inum, a :: answers =>
      if a =? 0 then
        let '(g, st, ev) := lock_loop inum answers (i :: done) go_on status in (g, st, MLock i a :: ev)
      else
        let '(g, st, ev) := lock_loop inum answers (i :: done) false a in
        (g, st, MLock i a :: (MUnlock <$> done) ++ ev)
  | _, _ => (go_on, status, [])
  end.

(** The status, and what was done. *)
Definition Move (bind_ok : bool) (inum answers : list Z) (ret : Z) : Z * list move_event :=
  if negb bind_ok then (1, [])
  else
    let '(go_on, status, ev) := lock_loop inum answers [] true 0 in
    if go_on then (ret, ev ++ MCall :: (MUnlock <$> inum)) else (status, ev).

(** ** Sections

    [genInum] holds [ino_count_mutex_], [getNewRegisterID] holds [regist_lock_];
    [getInfoByInum], [doRegister] and [RegistNewKV] hold nothing.  Reading a map with
    [[]] may insert, and counts as writing. *)
Inductive mutex : Type := ino_count_mutex_ | regist_lock_.
Inductive place : Type :=
  | Ino_count | Inum_to_path | Inum_to_register_id | Register_id_to_addr | Addr_to_register_id | Register_ids | Tree.

#[global] Instance mutex_eq_dec : EqDecision mutex.
Proof. solve_decision. Defined.
#[global] Instance place_eq_dec : EqDecision place.
Proof. solve_decision. Defined.

Definition writing (l : list place) : list (place * access) := (λ p, (p, Writes)) <$> l.

Definition getInfoByInum_sections (inum : Z) : code t mutex place bytes :=
  Sec None (writing [Inum_to_register_id; Register_id_to_addr]) (λ m, Done (getInfoByInum m inum)) (λ addr, Ret (Done addr)).

Definition AskForIno_sections (parent : Z) (path : bytes) (is_dir : bool) (node_sz : Z) : code t mutex place (Z * bytes) :=
  Sec (Some ino_count_mutex_) (writing [Ino_count; Inum_to_path; Tree; Inum_to_register_id])
    (λ m, genInum m parent path is_dir node_sz)
    (λ ino, andthen (getInfoByInum_sections ino) (λ addr, Ret (Done (ino, addr)))).

Definition AskForKV_sections (ino : Z) : code t mutex place bytes := getInfoByInum_sections ino.

Definition Regist_sections (addr : bytes) (sum : Z) : code t mutex place Z :=
  Sec (Some regist_lock_) (writing [Register_ids]) (λ m, Done (getNewRegisterID m))
    (λ id, Sec None (writing [Register_id_to_addr; Addr_to_register_id]) (λ m, Done (tt, doRegister m addr id))
      (λ _, Sec None (writing [Tree]) (λ m, tr ← PrefixTree.RegistNewKV (t_ m) id sum; Done (tt, set_tree tr m))
        (λ _, Ret (Done id)))).

End Master.

(** The sections one after the other are the methods. *)
Lemma ask_for_ino_alone m p path d sz :
  alone (Master.AskForIno_sections p path d sz) m = '(ino, addr, m) ← Master.AskForIno m p path d sz; Done ((ino, addr), m).
Proof.
  cbn [alone Master.AskForIno_sections Master.getInfoByInum_sections andthen]. unfold Master.AskForIno.
  destruct (Master.genInum m p path d sz) as [[ino m1]| | |]; [|done..]. rewrite !bind_Done. cbv beta iota.
  by destruct (Master.getInfoByInum m1 ino).
Qed.

Lemma ask_for_kv_alone m ino : alone (Master.AskForKV_sections ino) m = Done (Master.AskForKV m ino).
Proof. cbn. done. Qed.

Lemma regist_alone m addr sum : alone (Master.Regist_sections addr sum) m = Master.Regist m addr sum.
Proof.
  cbn [alone Master.Regist_sections]. unfold Master.Regist. rewrite bind_Done. destruct (Master.getNewRegisterID m) as [id m1].
  rewrite bind_Done. cbv beta iota zeta. by destruct (PrefixTree.RegistNewKV _ id sum).
Qed.

(** ** Creating and locating files *)

Lemma key_inj i j : 0 ≤ i < 2 ^ 32 → 0 ≤ j < 2 ^ 32 → Master.key i = Master.key j → i = j.
Proof.
  intros Hi Hj. unfold Master.key, sgn. rewrite !Z.mod_small by lia. cbv zeta. change (2 ^ (32 - 1)) with (2 ^ 31).
  repeat case_test; lia.
Qed.

Lemma lor_bit31 i : 0 ≤ i < 2 ^ 31 → Z.lor i (2 ^ 31) = i + 2 ^ 31.
Proof.
  intros Hi. rewrite Z.add_nocarry_lxor.
  - symmetry. apply Z.lxor_lor, Z.bits_inj'. intros n Hn.
    rewrite Z.land_spec, Z.pow2_bits_eqb, Z.bits_0 by lia. destruct (Z.eqb_spec 31 n) as [<-|]; [|apply andb_false_r].
    rewrite (Z.bits_above_log2 i 31); [done|lia|]. destruct (decide (i = 0)) as [->|]; [done|]. apply Z.log2_lt_pow2; lia.
  - apply Z.bits_inj'. intros n Hn.
    rewrite Z.land_spec, Z.pow2_bits_eqb, Z.bits_0 by lia. destruct (Z.eqb_spec 31 n) as [<-|]; [|apply andb_false_r].
    rewrite (Z.bits_above_log2 i 31); [done|lia|]. destruct (decide (i = 0)) as [->|]; [done|]. apply Z.log2_lt_pow2; lia.
Qed.

(** The inode numbers given out so far. *)
Definition given (m : Master.t) (i : Z) : Prop :=
  2 ≤ i < Master.ino_count_ m ∨ 2 + 2 ^ 31 ≤ i < Master.ino_count_ m + 2 ^ 31.

(** The tree is the namespace [ns]; the files given out are where [located]
    says. *)
Record minv (m : Master.t) (ns : names) (located : gmap Z Z) : Prop := {
  mi_tree : tree_inv (Master.t_ m) ns;
  mi_count : 2 ≤ Master.ino_count_ m < 2 ^ 31;
  mi_given i k : located !! i = Some k → given m i ∧ Master.inum_to_register_id_ m !! Master.key i = Some k }.

Definition full_path (m : Master.t) (parent : Z) (path : bytes) : bytes :=
  let full := default [] (Master.inum_to_path_ m !! Master.key parent) in
  (if bool_decide (full = []) then [] else full ++ bs "/") ++ path.

(** In a tree, what can be created has a directory at its first step. *)
Lemma creatable_status s ns cs :
  tree_inv s ns → creatable (λ q, ns !! q) cs = true → create_status (λ q, ns !! q) cs = OK.
Proof.
  intros [_ N _] Hc. unfold create_status. destruct cs as [|c [|c2 cs]]; [done..|].
  unfold creatable in Hc. apply andb_true_iff in Hc as [_ Hc]. rewrite <- !N in *.
  change (c :: c2 :: cs) with ([c] ++ c2 :: cs) in Hc. rewrite removelast_app in Hc by done.
  set (q := removelast (c2 :: cs)) in Hc. clearbody q. unfold namespace in *. rewrite walk_app in Hc. destruct (walk _ _ [c]) as [x|]; [|done]. cbn in Hc |- *.
  unfold entry in *. destruct (IsDir (nd (PrefixTree.nodes s) x)) eqn:E; [done|].
  destruct q; cbn in Hc; rewrite ?E in Hc; done.
Qed.

Lemma getInfo_located m i j :
  0 ≤ i < 2 ^ 32 → is_Some (Master.inum_to_register_id_ m !! Master.key i) →
  (Master.getInfoByInum (Master.getInfoByInum m j).2 i).1 = (Master.getInfoByInum m i).1.
Proof.
  intros Hi [k Hk]. unfold Master.getInfoByInum. cbn.
  destruct (decide (Master.key j = Master.key i)) as [->|N].
  - rewrite (lookup_insert_eq (Master.inum_to_register_id_ m)), Hk. cbn. by rewrite lookup_insert_eq.
  - rewrite (lookup_insert_ne (Master.inum_to_register_id_ m)), Hk by done. cbn.
    rewrite lookup_insert. case_decide as E; [by rewrite E|done].
Qed.

Lemma given_range m i : Master.ino_count_ m < 2 ^ 31 → given m i → 0 ≤ i < 2 ^ 32.
Proof. unfold given. lia. Qed.

(** C34: Asking for an inode of a path that can be created succeeds: the inode
    number is new and tells files from directories, the entry and nothing else
    is added to the tree, the address is that of the server the tree chose, and
    from then on asking for the server of this inode, and of every inode given
    out before, gives the same address as now. *)
Theorem ask_for_ino_creates_and_locates m ns located parent path d sz :
  minv m ns located → Master.ino_count_ m < 2 ^ 31 - 1 →
  creatable (λ q, ns !! q) (comps (full_path m parent path)) = true →
  ∃ ino kv addr m', Master.AskForIno m parent path d sz = Done (ino, addr, m') ∧
    located !! ino = None ∧ d = (ino <? 2 ^ 31) ∧
    addr = default [] (Master.register_id_to_addr_ m !! kv) ∧
    minv m' (<[comps (full_path m parent path) := (d, ino)]> ns) (<[ino := kv]> located) ∧
    (Master.AskForKV m' ino).1 = addr ∧
    ∀ i, is_Some (located !! i) → (Master.AskForKV m' i).1 = (Master.AskForKV m i).1.
Proof.
  intros [I Hcnt Hloc] Hmax Hcr. unfold Master.AskForIno, Master.genInum.
  set (id := Master.ino_count_ m) in *. set (ino := if d then id else Z.lor id (2 ^ 31)).
  assert (Hino : ino = if d then id else id + 2 ^ 31) by (unfold ino; destruct d; [done|apply lor_bit31; lia]).
  assert (Hr : 0 ≤ ino < 2 ^ 32) by (rewrite Hino; destruct d; lia).
  destruct (create_inv _ ns (full_path m parent path) ino d sz I) as (kv & tr & E & I' & _).
  unfold full_path in E at 1. rewrite E. rewrite bind_Done. cbv beta iota.
  rewrite (creatable_status _ _ _ I Hcr). rewrite IsOK_OK. cbn [ensure]. rewrite !bind_Done. cbv beta iota.
  rewrite Hcr in I'.
  set (m1 := Master.mk _ _ _ _ _ _ _ _). exists ino, kv.
  assert (Hnew : ∀ i k, located !! i = Some k → i ≠ ino ∧ 0 ≤ i < 2 ^ 32).
  { intros i k Hi. apply Hloc in Hi as [G _]. split; [|apply (given_range m); [fold id; lia|done]].
    unfold given in G. fold id in G. rewrite Hino. destruct d; lia. }
  assert (Hkv : Master.inum_to_register_id_ m1 !! Master.key ino = Some kv) by apply lookup_insert_eq.
  exists (default [] (Master.register_id_to_addr_ m !! kv)), (Master.getInfoByInum m1 ino).2.
  split; [unfold Master.getInfoByInum; by rewrite Hkv|]. split; [|split; [|split; [|split; [|split]]]].
  - destruct (located !! ino) as [k|] eqn:Ek; [|done]. by destruct (Hnew _ _ Ek).
  - rewrite Hino. destruct d; symmetry; [apply Z.ltb_lt|apply Z.ltb_ge]; lia.
  - done.
  - constructor; cbn [Master.getInfoByInum snd Master.t_ Master.ino_count_ Master.inum_to_register_id_].
    + exact I'.
    + unfold m1. cbn. rewrite (wrap_small 64) by (change (2 ^ 64) with 18446744073709551616; lia). lia.
    + assert (Hcount : Master.ino_count_ m1 = id + 1)
        by (unfold m1; cbn; rewrite (wrap_small 64) by (change (2 ^ 64) with 18446744073709551616; lia); done).
      intros i k. rewrite lookup_insert_Some. intros [[<- <-]|[N Hi]].
      * split; [unfold given; cbn [Master.ino_count_]; rewrite Hcount, Hino; destruct d; lia|].
        rewrite Hkv. apply lookup_insert_eq.
      * destruct (Hloc _ _ Hi) as [G Hk]. split; [unfold given in *; cbn [Master.ino_count_]; rewrite Hcount; fold id in G; lia|].
        destruct (Hnew _ _ Hi) as [_ Hir].
        assert (Hkne : Master.key ino ≠ Master.key i) by (intros Ek; apply key_inj in Ek; [congruence|done|done]).
        rewrite lookup_insert_ne by done. unfold m1. cbn. by rewrite lookup_insert_ne.
  - unfold Master.AskForKV. rewrite getInfo_located; [|done|rewrite Hkv; eauto].
    unfold Master.getInfoByInum. by rewrite Hkv.
  - intros i [k Hi]. destruct (Hnew _ _ Hi) as [N Hir]. destruct (Hloc _ _ Hi) as [_ Hk].
    assert (Hkne : Master.key ino ≠ Master.key i) by (intros Ek; apply key_inj in Ek; [congruence|done|done]).
    unfold Master.AskForKV. rewrite getInfo_located; [|done|unfold m1; cbn; rewrite lookup_insert_ne by done; eauto].
    unfold Master.getInfoByInum, m1. cbn. by rewrite lookup_insert_ne.
Qed.

Lemma make_minv : ∃ m, Master.make = Done m ∧ minv m names_empty ∅.
Proof.
  destruct make_inv as (s & E & I & _). unfold Master.make. rewrite E, bind_Done. cbv beta.
  eexists. split; [done|]. constructor; [exact I|cbn; lia|]. intros i k. by rewrite lookup_empty.
Qed.

Lemma regist_minv m ns located addr sum id m' :
  minv m ns located → Master.Regist m addr sum = Done (id, m') → minv m' ns located.
Proof.
  intros [I C L]. unfold Master.Regist, Master.getNewRegisterID.
  destruct (Master.reused_queue_ m); intros [tr [Et [= <- <-]]]%bind_Done_inv;
    (constructor; [by eapply regist_inv|done|done]).
Qed.

Example ask_for_ino_creates_and_locates_witness :
  ∃ m m' ino addr, ('(_, m) ← (m ← Master.make; Master.Regist m (bs "s:1") 10); Done m) = Done m ∧
    Master.AskForIno m 1 (bs "f") false 7 = Done (ino, addr, m') ∧ (Master.AskForKV m' ino).1 = addr.
Proof.
  destruct make_minv as (m0 & E0 & I0).
  destruct (done_if_inv (λ m0, done_if (λ '(_, m), (Master.ino_count_ m <? 2 ^ 31 - 1) &&
      creatable (λ q, names_empty !! q) (comps (full_path m 1 (bs "f")))) (Master.Regist m0 (bs "s:1") 10)) Master.make)
    as (m1 & E1 & H1); [by vm_compute|]. rewrite E0 in E1. injection E1 as <-.
  destruct (done_if_inv _ _ H1) as ([id m] & E1 & [H2%Z.ltb_lt H3]%andb_true_iff).
  destruct (ask_for_ino_creates_and_locates m names_empty ∅ 1 (bs "f") false 7) as (ino & kv & addr & m' & E & H).
  - exact (regist_minv _ _ _ _ _ _ _ I0 E1).
  - exact H2.
  - exact H3.
  - exists m, m', ino, addr. rewrite E0, bind_Done, E1, bind_Done. split; [done|]. split; [exact E|]. apply H.
Defined.

(** The recorded path of a directory is its name alone, so creating below a
    directory that is not at the top of the tree looks in the wrong place: with
    [b] in [a], creating [c] in [b] fails the assertion and stops the master. *)
Theorem creating_in_nested_directory_stops_master :
  (m ← Master.make; '(_, m) ← Master.Regist m (bs "s:1") 10;
   '(a, _, m) ← Master.AskForIno m 1 (bs "a") true 0;
   '(b, _, m) ← Master.AskForIno m a (bs "b") true 0;
   Done (namespace (Master.t_ m) [bs "a"; bs "b"])) = Done (Some (true, 3)) ∧
  (m ← Master.make; '(_, m) ← Master.Regist m (bs "s:1") 10;
   '(a, _, m) ← Master.AskForIno m 1 (bs "a") true 0;
   '(b, _, m) ← Master.AskForIno m a (bs "b") true 0;
   Master.AskForIno m b (bs "c") false 0) = Throws.
Proof. split; vm_compute; reflexivity. Qed.

(** ** Hashing *)

Lemma hashValue_range n val :
  0 < n → ∃ v, Master.hashValueToRegisterID n val = Done v ∧ 0 ≤ v < n.
Proof.
  intros Hn. unfold Master.hashValueToRegisterID.
  destruct ((n <=? val) || (val <=? - n)) eqn:Eb.
  - test_false. rewrite bind_Done. cbv beta. eexists. split; [done|].
    pose proof (Z.rem_bound_abs val n ltac:(lia)). pose proof (Z.rem_bound_pos n val). case_test; lia.
  - rewrite bind_Done. cbv beta. apply orb_false_iff in Eb as [?%Z.leb_gt ?%Z.leb_gt].
    eexists. split; [done|]. case_test; lia.
Qed.

Lemma int_ok_small z : - 2 ^ 31 ≤ z < 2 ^ 31 → Master.int_ok z = Done z.
Proof.
  intros Hz. unfold Master.int_ok.
  rewrite (proj2 (Z.leb_le _ _)), (proj2 (Z.ltb_lt _ _)) by lia. done.
Qed.

Lemma sgn8_range x : -128 ≤ sgn 8 (b2z x) < 128.
Proof. pose proof (b2z_range x). unfold sgn. rewrite Z.mod_small by lia. cbv zeta. change (2 ^ (8 - 1)) with 128. change (2 ^ 8) with 256. case_test; lia. Qed.

Lemma hashStr_range n sum s :
  0 < n ≤ 2 ^ 26 → 0 ≤ sum < n → ∃ v, Master.hashStr_from n sum s = Done v ∧ 0 ≤ v < n.
Proof.
  intros Hn. revert sum. induction s as [|x s IH]; intros sum Hs; [by exists sum|]. cbn [Master.hashStr_from].
  pose proof (sgn8_range x).
  rewrite int_ok_small, bind_Done by lia. cbv beta. rewrite int_ok_small, bind_Done by lia. cbv beta.
  destruct (hashValue_range n (sum * 26 + (sgn 8 (b2z x) - 48))) as (v & -> & Hv); [lia|].
  rewrite bind_Done. by apply IH.
Qed.

Lemma first_word_short p w rest : Master.first_word p = (w, Some rest) → (length rest < length p)%nat.
Proof.
  revert w. induction p as [|c p IH]; intros w; cbn; [done|]. destruct (Master.letter c).
  - destruct (Master.first_word p) as [w' [r|]]; [|done]. intros [= _ ->]. specialize (IH w' eq_refl). lia.
  - intros [= _ ->]. lia.
Qed.

Lemma hashPath_from_range fuel n p h :
  0 < n ≤ 2 ^ 26 → 0 ≤ h < n → (length p < fuel)%nat →
  ∃ v, Master.hashPath_from fuel n p h = Done v ∧ 0 ≤ v < n.
Proof.
  intros Hn. revert p h. induction fuel as [|fuel IH]; intros p h Hh Hf; [lia|]. cbn [Master.hashPath_from].
  destruct (Master.first_word p) as [w rest] eqn:Ew.
  destruct (hashStr_range n 0 w Hn ltac:(lia)) as (v & Hv & Hr). unfold Master.hashStr. rewrite Hv, bind_Done. cbv beta.
  rewrite int_ok_small, bind_Done by lia. cbv beta.
  destruct (hashValue_range n (h + v)) as (v' & -> & Hv'); [lia|]. rewrite bind_Done. cbv beta.
  destruct rest as [[|c rest]|]; [by exists v'| |by exists v'].
  apply IH; [done|]. apply first_word_short in Ew. lia.
Qed.

(** Hashing a path gives the id of a server for every path and up to 2^26
    registered servers: the loops end and no [int] overflows. *)
Theorem hash_is_a_register_id m path :
  0 < Master.cur_register_kv_id_ m ≤ 2 ^ 26 →
  ∃ v, Master.hashPath m path = Done v ∧ 0 ≤ v < Master.cur_register_kv_id_ m.
Proof.
  intros Hn. unfold Master.hashPath. destruct path as [|c p]; [exists 0; split; [done|lia]|].
  apply hashPath_from_range; [done|lia|lia].
Qed.

Example hash_is_a_register_id_witness :
  ∃ v, Master.hashPath (Master.mk 2 ∅ ∅ ∅ ∅ 5 [] (PrefixTree.mk ∅ 1 0 [] false [])) (bs "usr/bin") = Done v ∧ 0 ≤ v < 5.
Proof. apply (hash_is_a_register_id (Master.mk 2 ∅ ∅ ∅ ∅ 5 [] (PrefixTree.mk ∅ 1 0 [] false []))). cbn. lia. Defined.

(** ** The locks of a move *)

(** The files still locked at the end, given the events. *)
Fixpoint still_locked (ev : list Master.move_event) (held : list Z) : list Z :=
  match ev with
  | [] => held
  | Master.MLock i a :: ev => still_locked ev (if a =? 0 then i :: held else held)
  | Master.MUnlock i :: ev => still_locked ev (filter (λ j, j ≠ i) held)
  | Master.MCall :: ev => still_locked ev held
  end.

Lemma still_locked_app e1 e2 held : still_locked (e1 ++ e2) held = still_locked e2 (still_locked e1 held).
Proof. revert held. induction e1 as [|[] e1 IH]; intros held; cbn; auto. Qed.

Lemma lock_loop_ok inum done :
  Master.lock_loop inum (replicate (length inum) 0) done true 0 = (true, 0, (λ i, Master.MLock i 0) <$> inum).
Proof. revert done. induction inum as [|i inum IH]; intros done; [reflexivity|]. cbn. by rewrite IH. Qed.

Lemma still_locked_lock inum held j :
  j ∈ still_locked ((λ i, Master.MLock i 0) <$> inum) held ↔ j ∈ inum ∨ j ∈ held.
Proof. revert held. induction inum as [|i inum IH]; intros held; cbn; [set_solver|]. rewrite IH. set_solver. Qed.

Lemma still_locked_unlock inum held j :
  j ∈ still_locked (Master.MUnlock <$> inum) held ↔ j ∈ held ∧ j ∉ inum.
Proof.
  revert held. induction inum as [|i inum IH]; intros held; cbn; [set_solver|].
  rewrite IH, list_elem_of_filter. set_solver.
Qed.

(** When every lock is granted, a move locks all its files, makes its call
    while they are locked, unlocks all of them and returns the answer of the
    call; when a lock is refused, the loop goes on locking, and the files it
    locks after the refusal stay locked. *)
Theorem move_locks inum ret :
  Master.Move true inum (replicate (length inum) 0) ret =
    (ret, ((λ i, Master.MLock i 0) <$> inum) ++ Master.MCall :: (Master.MUnlock <$> inum)) ∧
  still_locked (Master.Move true inum (replicate (length inum) 0) ret).2 [] = [] ∧
  still_locked (Master.Move true [5; 6; 7] [0; 1; 0] 0).2 [] = [7].
Proof.
  split; [|split; [|reflexivity]].
  - unfold Master.Move. cbn [negb]. by rewrite lock_loop_ok.
  - unfold Master.Move. cbn [negb]. rewrite lock_loop_ok. cbn [snd]. rewrite still_locked_app. cbn [still_locked].
    destruct (still_locked _ _) as [|j l] eqn:E; [done|]. exfalso.
    assert (j ∈ j :: l) as H by set_solver. rewrite <- E in H.
    apply still_locked_unlock in H as [H N]. apply still_locked_lock in H as [H|H]; [done|set_solver].
Qed.
