(* ===== verification/MasterBalance.v ===== *)
(** * The master's balancing thread (src/master/master.cc)

    What a round of the thread makes of the moves that [PrefixTree::Adjust] asks
    for: it sorts them by source and destination, and calls [Move] once for every
    run of equal pairs.  The thread of a new master runs no round, because its stop
    flag starts out true; its first step would read the unset sums of
    [calculateScore]. *)

From S2P Require Import Prelude StdContainers Status PrefixTree TreeSpec Master.

Module balance.

(** A move as [Adjust] returns it: the inode, from where, to where. *)
Abbreviation move_op := (Z * (Z * Z))%type.

(** [<] on pairs, and the order of the sort. *)
Definition pair_lt (p q : Z * Z) : bool := (p.1 <? q.1) || ((p.1 =? q.1) && (p.2 <? q.2)).
Definition before (a b : move_op) : bool := pair_lt a.2 b.2.

(** One call of [Move]; it has no lock server to name. *)
Record call : Type := mkCall { lock_addr : bytes; files : list Z; op_addr : Z * Z; src : bytes; dst : bytes }.

(** [inum_to_register_id_[i] = id], [register_id_to_addr_[id]] *)
Definition assign (i id : Z) (m : Master.t) : Master.t :=
  Master.mk (Master.ino_count_ m) (Master.register_id_to_addr_ m) (<[Master.key i := id]> (Master.inum_to_register_id_ m))
    (Master.inum_to_path_ m) (Master.addr_to_register_id_ m) (Master.cur_register_kv_id_ m) (Master.reused_queue_ m) (Master.t_ m).

Definition addr_of (id : Z) (m : Master.t) : bytes * Master.t :=
  let a := default [] (Master.register_id_to_addr_ m !! id) in
  (a, Master.mk (Master.ino_count_ m) (<[id := a]> (Master.register_id_to_addr_ m)) (Master.inum_to_register_id_ m)
        (Master.inum_to_path_ m) (Master.addr_to_register_id_ m) (Master.cur_register_kv_id_ m) (Master.reused_queue_ m) (Master.t_ m)).

Definition flush (pip_line : list Z) (p : Z * Z) (m : Master.t) : call * Master.t :=
  let '(s, m) := addr_of p.1 m in let '(d, m) := addr_of p.2 m in (mkCall [] pip_line p s d, m).

(** The loop over the sorted moves, with [pip_line] and [op_addr]. *)
Fixpoint loop (pip_line : list Z) (p : Z * Z) (ops : list move_op) (m : Master.t) : list call * Master.t :=
  match ops with
  | [] => if bool_decide (pip_line = []) then ([], m) else let '(c, m) := flush pip_line p m in ([c], m)
  | (i, q) :: ops =>
      let m := assign i q.2 m in
      if bool_decide (q = p) then loop (pip_line ++ [i]) p ops m
      else
        let '(c, m) := flush pip_line p m in
        let m := assign i q.2 m in
        let '(cs, m) := loop [i] q ops m in (c :: cs, m)
  end.

(** A round, once the moves are sorted. *)
Definition round (ops : list move_op) (m : Master.t) : list call * Master.t :=
  match ops with
  | [] => ([], m)
  | (i, q) :: ops => loop [i] q ops (assign i q.2 m)
  end.

End balance.
Import balance.

(** ** What a round does *)

(** [std::sort] leaves some arrangement in which nothing comes before what it should follow. *)
Definition sorted (ops : list move_op) : Prop := StronglySorted (λ a b, before b a = false) ops.

Definition addr (m : Master.t) (id : Z) : bytes := default [] (Master.register_id_to_addr_ m !! id).
Definition where_ (m : Master.t) (i : Z) : option Z := Master.inum_to_register_id_ m !! Master.key i.

(** The moves that a call stands for. *)
Definition moves (c : call) : list move_op := (λ i, (i, op_addr c)) <$> files c.

(** A call that names the servers' addresses, and some files. *)
Definition good (m : Master.t) (c : call) : Prop :=
  files c ≠ [] ∧ src c = addr m (op_addr c).1 ∧ dst c = addr m (op_addr c).2.

Lemma pair_lt_total p q : pair_lt p q = false → p ≠ q → pair_lt q p = true.
Proof. destruct p as [a b], q as [c d]. unfold pair_lt. cbn. intros H Hne. assert (a ≠ c ∨ b ≠ d) by (destruct (decide (a = c)); [right; congruence|by left]). lia. Qed.

Lemma pair_lt_le_trans p q r : pair_lt p q = true → pair_lt r q = false → pair_lt p r = true.
Proof. destruct p, q, r. unfold pair_lt. cbn. lia. Qed.

Lemma addr_assign i id m j : addr (assign i id m) j = addr m j.
Proof. done. Qed.

Lemma flush_spec l p m : ∃ m', flush l p m = (mkCall [] l p (addr m p.1) (addr m p.2), m') ∧
  (∀ id, addr m' id = addr m id) ∧ Master.inum_to_register_id_ m' = Master.inum_to_register_id_ m.
Proof.
  unfold flush, addr_of. assert (Hput : ∀ (mp : gmap Z bytes) k id,
    default [] (<[k := default [] (mp !! k)]> mp !! id) = default [] (mp !! id)).
  { intros mp k id. destruct (decide (k = id)) as [<-|]; [by rewrite lookup_insert_eq|by rewrite lookup_insert_ne]. }
  destruct (addr_of p.1 m) as [s m1] eqn:E1. destruct (addr_of p.2 m1) as [d m2] eqn:E2. exists m2.
  injection E1 as <- <-. injection E2 as <- <-. unfold addr. cbn [Master.register_id_to_addr_ Master.inum_to_register_id_].
  split; [by rewrite Hput|]. split; [|done]. intros id. by rewrite !Hput.
Qed.

(** The table after the moves, in order. *)
Definition assigned (ops : list move_op) (t : gmap Z Z) : gmap Z Z :=
  foldl (λ t '(i, q), <[Master.key i := q.2]> t) t ops.

Lemma loop_spec ops : ∀ l p m, l ≠ [] → 
  let '(cs, m') := loop l p ops m in
  mbind moves cs = ((λ i, (i, p)) <$> l) ++ ops ∧ Forall (good m) cs ∧ (∀ id, addr m' id = addr m id) ∧
  Master.inum_to_register_id_ m' = assigned ops (Master.inum_to_register_id_ m) ∧
  (sorted ops → Forall (λ o, pair_lt o.2 p = false) ops →
   StronglySorted (λ a b, pair_lt a b = true) (op_addr <$> cs) ∧ Forall (λ q, pair_lt q p = false) (op_addr <$> cs)).
Proof.
  induction ops as [|[i q] ops IH]; intros l p m Hl; cbn [loop].
  - rewrite bool_decide_false by done. destruct (flush_spec l p m) as (m' & -> & Ha & Hr).
    split; [cbn; by rewrite !app_nil_r|]. split; [by repeat constructor|]. split; [done|]. split; [done|].
    intros _ _. split; repeat constructor. unfold pair_lt. cbn. lia.
  - destruct (bool_decide_reflect (q = p)) as [->|Hne].
    + specialize (IH (l ++ [i]) p (assign i p.2 m) ltac:(by destruct l)). destruct (loop _ _ _ _) as [cs m'].
      destruct IH as (H1 & H2 & H3 & H4 & H5).
      split; [by rewrite H1, fmap_app, <- app_assoc|]. split; [exact H2|]. split; [exact H3|]. split; [exact H4|].
      intros [Hs _]%StronglySorted_inv [_ Hf]%Forall_cons. by apply H5.
    + destruct (flush_spec l p (assign i q.2 m)) as (m1 & -> & Ha & Hr).
      specialize (IH [i] q (assign i q.2 m1) ltac:(done)). destruct (loop _ _ _ _) as [cs m'].
      destruct IH as (H1 & H2 & H3 & H4 & H5).
      assert (Hm : ∀ id, addr (assign i q.2 m1) id = addr m id) by (intros id; by rewrite addr_assign, Ha).
      split; [|split; [|split; [|split]]].
      * cbn. by rewrite H1.
      * constructor; [done|]. eapply Forall_impl; [exact H2|]. unfold good. intros c. by rewrite !Hm.
      * intros id. by rewrite H3, Hm.
      * rewrite H4. cbn. rewrite Hr. cbn. by rewrite insert_insert_eq.
      * intros [Hs Hq]%StronglySorted_inv [Hpq Hf]%Forall_cons. cbn in Hpq.
        destruct H5 as [H5 H6]; [done|exact Hq|].
        assert (Hlt : Forall (λ r, pair_lt p r = true) (op_addr <$> cs)).
        { eapply Forall_impl; [exact H6|]. intros r Hr1. cbn. eapply pair_lt_le_trans; [|exact Hr1]. apply pair_lt_total; [done|done]. }
        split; [by constructor|]. constructor; [unfold pair_lt; cbn; lia|].
        eapply Forall_impl; [exact Hlt|]. intros r. destruct p, r. unfold pair_lt. cbn. lia.
Qed.

Lemma round_spec ops m :
  let '(cs, m') := round ops m in
  mbind moves cs = ops ∧ Forall (good m) cs ∧ (∀ id, addr m' id = addr m id) ∧
  Master.inum_to_register_id_ m' = assigned ops (Master.inum_to_register_id_ m) ∧
  (sorted ops → StronglySorted (λ a b, pair_lt a b = true) (op_addr <$> cs)).
Proof.
  destruct ops as [|[i q] ops]; cbn [round].
  { split_and!; [done|by constructor|done|done|intros _; constructor]. }
  pose proof (loop_spec ops [i] q (assign i q.2 m) ltac:(done)) as H. destruct (loop _ _ _ _) as [cs m'].
  destruct H as (H1 & H2 & H3 & H4 & H5). split; [exact H1|]. split; [exact H2|]. split; [exact H3|]. split; [exact H4|].
  intros [Hs Hf]%StronglySorted_inv. apply H5; [done|exact Hf].
Qed.

Lemma assigned_cons i q ops t : assigned ((i, q) :: ops) t = assigned ops (<[Master.key i := q.2]> t).
Proof. done. Qed.

Lemma assigned_other ops : ∀ t k, k ∉ Master.key <$> ops.*1 → assigned ops t !! k = t !! k.
Proof.
  induction ops as [|[i q] ops IH]; intros t k Hk; [done|].
  rewrite !fmap_cons in Hk. apply not_elem_of_cons in Hk as [Hne Hk]. cbn [fst] in Hne. rewrite assigned_cons, IH by done. by rewrite lookup_insert_ne.
Qed.

Lemma assigned_lookup ops : ∀ t i q, NoDup (Master.key <$> ops.*1) → (i, q) ∈ ops → assigned ops t !! Master.key i = Some q.2.
Proof.
  induction ops as [|[j r] ops IH]; intros t i q Hnd Hin; [by apply not_elem_of_nil in Hin|]. rewrite !fmap_cons in Hnd.
  apply NoDup_cons in Hnd as [Hj Hnd]. apply elem_of_cons in Hin as [[= -> ->]|Hin]; [|by apply IH].
  rewrite assigned_cons, assigned_other by done. by rewrite lookup_insert_eq.
Qed.

Lemma pair_lt_NoDup l : StronglySorted (λ a b, pair_lt a b = true) l → NoDup l.
Proof.
  induction 1 as [|p l _ IH Hf]; [constructor|]. constructor; [|done].
  intros Hp. rewrite Forall_forall in Hf. specialize (Hf p Hp). revert Hf. destruct p. unfold pair_lt. cbn. lia.
Qed.

(** However the sort arranges the moves that the tree asks for, a round
    calls [Move] once for every pair of servers that occurs, in ascending order,
    with exactly the inodes to be moved between them and the addresses they have
    registered (or none), and naming no lock server; and it says of every inode that
    it is where it is to go, whether its call succeeds or not, and of every other
    what it said before. *)
Theorem balance_round_batches m ops ops' :
  ops' ≡ₚ ops → sorted ops' → NoDup (Master.key <$> ops.*1) →
  let '(cs, m') := round ops' m in
  Forall (good m) cs ∧ NoDup (op_addr <$> cs) ∧ mbind moves cs ≡ₚ ops ∧
  (∀ i p, (i, p) ∈ ops ↔ ∃ c, c ∈ cs ∧ op_addr c = p ∧ i ∈ files c) ∧
  (∀ i p, (i, p) ∈ ops → where_ m' i = Some p.2) ∧
  (∀ i, Master.key i ∉ Master.key <$> ops.*1 → where_ m' i = where_ m i).
Proof.
  intros Hperm Hs Hnd. pose proof (round_spec ops' m) as H. destruct (round ops' m) as [cs m'].
  destruct H as (H1 & H2 & H3 & H4 & H5).
  assert (Hk : Master.key <$> ops'.*1 ≡ₚ Master.key <$> ops.*1) by (by rewrite Hperm).
  split; [done|]. split; [by apply pair_lt_NoDup, H5|]. split; [by rewrite H1|]. split; [|split].
  - intros i p. rewrite <- Hperm, <- H1, list_elem_of_bind. unfold moves. split.
    + intros (c & Hin & Hc). apply list_elem_of_fmap in Hin as (j & [= -> ->] & Hj). by exists c.
    + intros (c & Hc & <- & Hi). exists c. split; [|done]. apply list_elem_of_fmap. by exists i.
  - intros i p Hin. unfold where_. rewrite H4. apply assigned_lookup; [by rewrite Hk|by rewrite Hperm].
  - intros i Hi. unfold where_. rewrite H4. apply assigned_other. by rewrite Hk.
Qed.

Definition demo_master : Master.t :=
  Master.mk 9 {[0 := bs "a:1"; 1 := bs "b:2"]} {[2 := 0; 3 := 0; 4 := 1]} ∅ ∅ 2 [] (PrefixTree.mk ∅ 0 0 [] false []).
Definition demo_moves : list move_op := [(4, (1, 0)); (2, (0, 5)); (3, (0, 5))].

Lemma balance_round_batches_witness :
  (round [(3, (0, 5)); (2, (0, 5)); (4, (1, 0))] demo_master).1 =
    [mkCall [] [3; 2] (0, 5) (bs "a:1") []; mkCall [] [4] (1, 0) (bs "b:2") (bs "a:1")] ∧
  where_ (round [(3, (0, 5)); (2, (0, 5)); (4, (1, 0))] demo_master).2 3 = Some 5.
Proof.
  split; [by vm_compute|].
  pose proof (balance_round_batches demo_master demo_moves [(3, (0, 5)); (2, (0, 5)); (4, (1, 0))]) as H.
  destruct (round _ demo_master) as [cs m'] eqn:E. destruct H as (_ & _ & _ & _ & H & _).
  - apply (bool_decide_unpack _). by vm_compute.
  - repeat constructor.
  - apply (bool_decide_unpack _). by vm_compute.
  - apply (H 3 (0, 5)). unfold demo_moves. set_solver.
Defined.
