(* ===== verification/YfsClient.v ===== *)
(** * The file system client (src/client/yfs_client.cc)

    Files, directories and the names in them, stored in extents under locks.
    [Backend] is what the client needs of the objects it is built on (the
    extent client, the lock client and the client of the master);
    [BackendLaws] is what it may rely on; [FileSystem] is the abstract file
    system the client implements. *)

From S2P Require Import Prelude StdContainers LockServer ExtentServer ExtentCache.

(** ** What the client is built on *)

(** [extent_client], [lock_client] and [Client], as one caller sees them. *)
Class Backend (W : Type) : Type := {
  GetKVAddrByInum : W → Z → bytes * W;
  GetInumByName : W → Z → bytes → bool → Z → Z * bytes * W;
  new_ec : W → bytes → W;
  GetCurAddr : W → bytes;
  ConnectTo : W → bytes → W;
  ec_get : W → Z → bytes → Z * bytes * W;
  ec_getattr : W → Z → attr → Z * attr * W;
  ec_put : W → Z → bytes → Z * W;
  ec_setattr : W → Z → attr → Z * W;
  ec_remove : W → Z → Z * W;
  lc_acquire : W → Z → Z * W;
  lc_release : W → Z → Z * W;
}.

(** ** Data *)

Definition OK : Z := 0.
Definition RPCERR : Z := 1.
Definition NOENT : Z := 2.
Definition IOERR : Z := 3.
Definition EXIST : Z := 4.
Definition DIRENTERR : Z := 5.
Definition NOTDIR : Z := 6.

Record fileinfo : Type := mkFile { f_size : Z; f_atime : Z; f_mtime : Z; f_ctime : Z }.
Record dirinfo : Type := mkDir { d_atime : Z; d_mtime : Z; d_ctime : Z }.
Record dirent : Type := mkEntry { name : bytes; inum : Z }.

(** The fields of [struct stat] that the client writes. *)
Record stat : Type := mkStat {
  st_mode : Z; st_nlink : Z; st_atime : Z; st_mtime : Z; st_ctime : Z; st_size : Z }.

#[export] Instance dirent_eq_dec : EqDecision dirent.
Proof. solve_decision. Defined.

(** [S_IFREG | 0666] *)
Definition REGULAR : Z := Z.lor 32768 438.

(** ** Directory contents *)

Definition str_to_inum (k : bytes) : outcome Z := peek64 k 0.
Definition inum_to_str (k : Z) : bytes := u64_bytes k.
Definition str_to_int (k : bytes) : outcome Z := x ← peek32 k 0; Done (sgn 32 x).
Definition int_to_str (k : Z) : bytes := i32_bytes k.

(** One round of the loop of [parse_dir] at index [i], which is an
    [unsigned int]; [None] is the [return -1]. *)
Definition parse_entry (c : bytes) (i : Z) : outcome (option (dirent * Z)) :=
  if wrap64 (zlen c - i) <? 4 then Done None
  else
    k ← substr c i 4; size ← str_to_int k;
    let i := wrap32 (i + 4) in
    if wrap64 (zlen c - i) <? wrap32 size then Done None
    else
      nm ← substr c i (wrap64 size);
      let i := wrap32 (i + size) in
      if wrap64 (zlen c - i) <? 8 then Done None
      else
        k ← substr c i 8; id ← str_to_inum k;
        Done (Some (mkEntry nm id, wrap32 (i + 8))).

Fixpoint parse_loop (fuel : nat) (c : bytes) (i : Z) (vec : list dirent) : outcome (Z * list dirent) :=
  match fuel with
  | O => NoFuel
  | S fuel =>
      if negb (i <? zlen c) then Done (0, vec)
      else
        e ← parse_entry c i;
        match e with
        | None => Done (-1, vec)
        | Some (e, i) => parse_loop fuel c i (vec ++ [e])
        end
  end.

(** Every round of a content below 4 GiB moves [i] forward. *)
Definition parse_dir (c : bytes) (vec : list dirent) : outcome (Z * list dirent) :=
  parse_loop (S (length c)) c 0 vec.

Definition encode_entry (e : dirent) : bytes :=
  int_to_str (zlen (name e)) ++ name e ++ inum_to_str (inum e).

Definition encode_dir (vec : list dirent) : bytes := concat (encode_entry <$> vec).

(** Bit 31 of a number tells files from directories. *)
Definition isfile (i : Z) : bool := negb (Z.land i 2147483648 =? 0).
Definition isdir (i : Z) : bool := negb (isfile i).

(** [files[i].name == name] for some [i]. *)
Definition has_name (nm : bytes) (files : list dirent) : bool :=
  existsb (λ e, bytes_eqb (name e) nm) files.

(** The loop of a search, with the index where it stops. *)
Fixpoint find_by (p : dirent → bool) (files : list dirent) : option (nat * dirent) :=
  match files with
  | [] => None
  | e :: files =>
      if p e then Some (O, e)
      else match find_by p files with Some (i, e) => Some (S i, e) | None => None end
  end.

(** ** The client *)

Module yfs_client.
Section client.
Context {W : Type} `{Backend W}.

(** [made] is [ec != nullptr], which also says that [lc] exists. *)
Record t : Type := mk { made : bool; world : W }.

(** Code that changes the client. *)
Definition M (A : Type) : Type := t → outcome (A * t).

#[export] Instance M_ret : MRet M := λ A a s, Done (a, s).
#[export] Instance M_bind : MBind M := λ A B f m s, '(a, s) ← m s; f a s.

(** A call of the master's client, and a call through [ec] or [lc], which
    must exist. *)
Definition ask {A} (f : W → A * W) : M A := λ s,
  let '(a, w) := f (world s) in Done (a, mk (made s) w).
Definition via {A} (f : W → A * W) : M A := λ s,
  if made s then ask f s else Undef.

(** Code that does not touch the client. *)
Definition pure {A} (x : outcome A) : M A := λ s, a ← x; Done (a, s).

(** [initExtentClient(addr)] *)
Definition connect (addr : bytes) : M unit := λ s,
  if made s then
    if bool_decide (addr = GetCurAddr (world s)) then Done (tt, s)
    else Done (tt, mk true (ConnectTo (world s) addr))
  else Done (tt, mk true (new_ec (world s) addr)).

(** [initExtentClient(ino)] *)
Definition initExtentClient (ino : Z) : M unit :=
  addr ← ask (λ w, GetKVAddrByInum w ino); connect addr.

Definition acquire (id : Z) : M Z := via (λ w, lc_acquire w id).
Definition release (id : Z) : M Z := via (λ w, lc_release w id).

(** The exits of the operations: release the locks in turn, and return [r],
    or [IOERR] from the first release that fails. *)
Fixpoint leave (ids : list Z) (r : Z) : M Z :=
  match ids with
  | [] => mret r
  | id :: ids =>
      s ← release id;
      if negb (s =? lock_OK) then mret IOERR else leave ids r
  end.

Definition put (id : Z) (value : bytes) : M Z :=
  s ← via (λ w, ec_put w id value); mret (if negb (s =? ext_OK) then IOERR else OK).

Definition get (id : Z) (value : bytes) : M (Z * bytes) :=
  '(s, value) ← via (λ w, ec_get w id value); mret (if negb (s =? ext_OK) then IOERR else OK, value).

Definition remove (id : Z) : M Z :=
  s ← via (λ w, ec_remove w id); mret (if negb (s =? ext_OK) then IOERR else OK).

Definition getfile (id : Z) (fin : fileinfo) : M (Z * fileinfo) :=
  '(s, a) ← via (λ w, ec_getattr w id (mkAttr 0 0 0 0));
  if negb (s =? ext_OK) then mret (IOERR, fin)
  else mret (OK, mkFile (size a) (atime a) (mtime a) (ctime a)).

Definition getdir (id : Z) (din : dirinfo) : M (Z * dirinfo) :=
  '(s, a) ← via (λ w, ec_getattr w id (mkAttr 0 0 0 0));
  if negb (s =? ext_OK) then mret (IOERR, din)
  else mret (OK, mkDir (atime a) (mtime a) (ctime a)).

Definition getfileInfo (id : Z) (fin : fileinfo) : M (Z * fileinfo) :=
  _ ← initExtentClient id;
  s ← acquire id;
  if negb (s =? lock_OK) then mret (IOERR, fin)
  else
    '(r, fin) ← getfile id fin;
    r ← leave [id] r; mret (r, fin).

Definition getdirInfo (id : Z) (din : dirinfo) : M (Z * dirinfo) :=
  _ ← initExtentClient id;
  s ← acquire id;
  if negb (s =? lock_OK) then mret (IOERR, din)
  else
    '(r, din) ← getdir id din;
    r ← leave [id] r; mret (r, din).

(** Only the size of [a] is set: [junk] is what the rest of it holds. *)
Definition setattr (junk : attr) (id : Z) (want : stat) (st : stat) : M (Z * stat) :=
  _ ← initExtentClient id;
  s ← acquire id;
  if negb (s =? lock_OK) then mret (IOERR, st)
  else
    let a := mkAttr (atime junk) (mtime junk) (ctime junk) (wrap32 (st_size want)) in
    s ← via (λ w, ec_setattr w id a);
    if negb (s =? ext_OK) then r ← leave [id] IOERR; mret (r, st)
    else
      '(r, info) ← getfile id (mkFile 0 0 0 0);
      if negb (r =? OK) then r ← leave [id] r; mret (r, st)
      else
        let st := mkStat REGULAR 1 (f_atime info) (f_mtime info) (f_ctime info) (f_size info) in
        r ← leave [id] OK; mret (r, st).

(** [id] and [info] are the out parameters as they are passed in. *)
Definition create (parent : Z) (nm : bytes) (id : Z) (info : fileinfo) : M (Z * Z * fileinfo) :=
  _ ← initExtentClient parent;
  s ← acquire parent;
  if negb (s =? lock_OK) then mret (IOERR, id, info)
  else
    '(r, data) ← get parent [];
    if negb (r =? OK) then r ← leave [parent] r; mret (r, id, info)
    else
      '(p, files) ← pure (parse_dir data []);
      if p <? 0 then r ← leave [parent] DIRENTERR; mret (r, id, info)
      else if has_name nm files then r ← leave [parent] EXIST; mret (r, id, info)
      else
        '(id, addr) ← ask (λ w, GetInumByName w parent nm false (f_size info));
        _ ← connect addr;
        s ← acquire id;
        if negb (s =? lock_OK) then mret (IOERR, id, info)
        else
          r ← put id [];
          if negb (r =? OK) then r ← leave [parent; id] r; mret (r, id, info)
          else
            r ← put parent (encode_dir (files ++ [mkEntry nm id]));
            if negb (r =? OK) then r ← leave [id; parent] r; mret (r, id, info)
            else
              '(r, info) ← getfile id info;
              r ← leave [id; parent] r; mret (r, id, info).

Definition mkdir (parent : Z) (nm : bytes) (id : Z) (info : dirinfo) : M (Z * Z * dirinfo) :=
  _ ← initExtentClient parent;
  s ← acquire parent;
  if negb (s =? lock_OK) then mret (IOERR, id, info)
  else
    '(r, data) ← get parent [];
    if negb (r =? OK) then r ← leave [parent] r; mret (r, id, info)
    else
      '(p, files) ← pure (parse_dir data []);
      if p <? 0 then r ← leave [parent] DIRENTERR; mret (r, id, info)
      else if has_name nm files then r ← leave [parent] EXIST; mret (r, id, info)
      else
        '(id, addr) ← ask (λ w, GetInumByName w parent nm true 0);
        _ ← connect addr;
        s ← acquire id;
        if negb (s =? lock_OK) then mret (IOERR, id, info)
        else
          r ← put id [];
          if negb (r =? OK) then r ← leave [id; parent] r; mret (r, id, info)
          else
            r ← put parent (encode_dir (files ++ [mkEntry nm id]));
            if negb (r =? OK) then r ← leave [id; parent] r; mret (r, id, info)
            else
              '(r, info) ← getdir id info;
              r ← leave [id; parent] r; mret (r, id, info).

(** [(unsigned int)off] selects the branch, [off] itself the bytes. *)
Definition read_range (c : bytes) (size off : Z) : outcome bytes :=
  if zlen c <=? wrap32 off then Done []
  else
    let size := if wrap64 (zlen c - off) <? size then wrap64 (zlen c - off) else size in
    if (0 <=? off) && (off + size <=? zlen c)
    then Done (take (Z.to_nat size) (drop (Z.to_nat off) c)) else Undef.

Definition read (id size off : Z) : M (Z * bytes) :=
  _ ← initExtentClient id;
  s ← acquire id;
  if negb (s =? lock_OK) then mret (IOERR, [])
  else
    '(r, buf) ← get id [];
    if negb (r =? OK) then r ← leave [id] r; mret (r, buf)
    else
      buf ← pure (read_range buf size off);
      r ← leave [id] OK; mret (r, buf).

Definition write_range (origin : bytes) (size off : Z) (buf : bytes) : outcome bytes :=
  let old_size := wrap32 (zlen origin) in
  if old_size <=? wrap32 off then
    Done (origin ++ replicate (Z.to_nat (wrap32 (wrap32 off - old_size))) Byte.x00 ++ buf)
  else if (0 <=? off) && (off <=? zlen origin) then
    if size <? wrap32 (zlen origin - off) then
      if off + size <=? zlen origin
      then Done (take (Z.to_nat off) origin ++ buf ++ drop (Z.to_nat (off + size)) origin) else Undef
    else Done (take (Z.to_nat off) origin ++ buf)
  else Undef.

Definition write (id size off : Z) (buf : bytes) : M Z :=
  _ ← initExtentClient id;
  s ← acquire id;
  if negb (s =? lock_OK) then mret IOERR
  else
    '(r, origin) ← get id [];
    if negb (r =? OK) then leave [id] r
    else
      origin ← pure (write_range origin size off buf);
      r ← put id origin;
      leave [id] r.

(** What [lookup] returns besides the status: the number, whether it is a
    directory, and the information of the kind it is. *)
Definition lookup (parent : Z) (nm : bytes) (id : Z) (is_dir : bool) (fin : fileinfo) (din : dirinfo) :
    M (Z * Z * bool * fileinfo * dirinfo) :=
  _ ← initExtentClient parent;
  s ← acquire parent;
  if negb (s =? lock_OK) then mret (IOERR, id, is_dir, fin, din)
  else
    '(r, data) ← get parent [];
    if negb (r =? OK) then r ← leave [parent] r; mret (r, id, is_dir, fin, din)
    else
      '(p, files) ← pure (parse_dir data []);
      if p <? 0 then r ← leave [parent] r; mret (r, id, is_dir, fin, din)
      else
        match find_by (λ e, bytes_eqb (name e) nm) files with
        | None => r ← leave [parent] NOENT; mret (r, id, is_dir, fin, din)
        | Some (_, e) =>
            if isfile (inum e) then
              '(r, fin) ← getfileInfo (inum e) fin;
              r ← leave [parent] r; mret (r, inum e, false, fin, din)
            else
              '(r, din) ← getdirInfo (inum e) din;
              r ← leave [parent] r; mret (r, inum e, true, fin, din)
        end.

Definition readdir (id : Z) (files : list dirent) : M (Z * list dirent) :=
  if negb (isdir id) then mret (NOTDIR, files)
  else
    _ ← initExtentClient id;
    s ← acquire id;
    if negb (s =? lock_OK) then mret (IOERR, files)
    else
      '(r, data) ← get id [];
      if negb (r =? OK) then r ← leave [id] r; mret (r, files)
      else
        '(p, files) ← pure (parse_dir data files);
        r ← leave [id] (if p <? 0 then DIRENTERR else OK); mret (r, files).

Definition unlink (parent : Z) (nm : bytes) : M Z :=
  _ ← initExtentClient parent;
  s ← acquire parent;
  if negb (s =? lock_OK) then mret IOERR
  else
    '(r, data) ← get parent [];
    if negb (r =? OK) then mret r
    else
      '(p, files) ← pure (parse_dir data []);
      if p <? 0 then leave [parent] DIRENTERR
      else
        match find_by (λ e, bytes_eqb (c_str (name e)) nm) files with
        | None => leave [parent] NOENT
        | Some (i, e) =>
            if isdir (inum e) then leave [parent] NOENT
            else
              r ← put parent (encode_dir (delete i files));
              if negb (r =? OK) then leave [parent] r
              else
                s ← release parent;
                if negb (s =? lock_OK) then mret IOERR
                else
                  _ ← initExtentClient (inum e);
                  s ← acquire (inum e);
                  if negb (s =? lock_OK) then mret IOERR
                  else
                    r ← remove (inum e);
                    leave [inum e] r
        end.

End client.
Arguments t : clear implicits.
End yfs_client.

(** ** What the client may rely on *)

(** [shows w m held k]: through [w] the caller sees the extents [m] and holds
    the locks [held], and the master has [k] more numbers to give.  Locks are
    asked for once; connecting elsewhere changes nothing the caller sees, since
    the extent client looks for an extent where the master says it is.
    [named w i]: the master has just given [i]; a new extent needs such a number. *)
Class BackendLaws (W : Type) `{Backend W} : Type := {
  shows : W → gmap Z bytes → gset Z → nat → Prop;
  named : W → Z → Prop;
  shows_small w m h k : shows w m h k → store_ok m;
  addr_law w m h k i : shows w m h k → shows (GetKVAddrByInum w i).2 m h k;
  new_law w m h k a : shows w m h k → shows (new_ec w a) m h k;
  connect_law w m h k a : shows w m h k → shows (ConnectTo w a) m h k;
  inum_law w m h k p nm d sz : shows w m h (S k) →
    let '(i, a, w') := GetInumByName w p nm d sz in
    shows w' m h k ∧ named w' i ∧ m !! i = None ∧ isdir i = d ∧ 0 ≤ i < 2 ^ 64;
  connect_named w i a : named w i → named (ConnectTo w a) i;
  acquire_named w i j : named w i → named (lc_acquire w j).2 i;
  ec_get_law w m h k i : shows w m h k →
    let '(st, b', w') := ec_get w i [] in
    shows w' m h k ∧ match m !! i with Some c => st = ext_OK ∧ b' = c | None => st = ext_NOENT end;
  ec_getattr_law w m h k i a : shows w m h k →
    let '(st, a', w') := ec_getattr w i a in
    shows w' m h k ∧ match m !! i with Some c => st = ext_OK ∧ size a' = zlen c | None => st = ext_NOENT end;
  ec_put_law w m h k i b : shows w m h k → is_Some (m !! i) ∨ named w i → zlen b < 2 ^ 32 →
    let '(st, w') := ec_put w i b in st = ext_OK ∧ shows w' (<[i := b]> m) h k;
  ec_setattr_law w m h k i a : shows w m h k → 0 ≤ size a < 2 ^ 32 →
    let '(st, w') := ec_setattr w i a in
    match m !! i with
    | Some c => st = ext_OK ∧ shows w' (<[i := extent_server.resize c (size a)]> m) h k
    | None => st = ext_NOENT ∧ shows w' m h k
    end;
  ec_remove_law w m h k i : shows w m h k →
    let '(st, w') := ec_remove w i in st = ext_OK ∧ shows w' (delete i m) h k;
  acquire_law w m h k i : shows w m h k → i ∉ h →
    let '(st, w') := lc_acquire w i in st = lock_OK ∧ shows w' m ({[i]} ∪ h) k;
  release_law w m h k i : shows w m h k → i ∈ h →
    let '(st, w') := lc_release w i in st = lock_OK ∧ shows w' m (h ∖ {[i]}) k;
}.

(** ** Directory contents are well encoded *)

(** Names are C strings of less than 2 GiB. *)
Definition name_ok (nm : bytes) : Prop := c_str nm = nm ∧ zlen nm < 2 ^ 31.
Definition entry_ok (e : dirent) : Prop := zlen (name e) < 2 ^ 31 ∧ 0 ≤ inum e < 2 ^ 64.

Lemma length_encode_entry e : zlen (encode_entry e) = 12 + zlen (name e).
Proof. unfold encode_entry, int_to_str, inum_to_str. len. Qed.

Lemma encode_dir_app es es' : encode_dir (es ++ es') = encode_dir es ++ encode_dir es'.
Proof. unfold encode_dir. by rewrite fmap_app, concat_app. Qed.

Lemma encode_dir_cons e es : encode_dir (e :: es) = encode_entry e ++ encode_dir es.
Proof. done. Qed.

Lemma encode_dir_one e : encode_dir [e] = encode_entry e.
Proof. apply app_nil_r. Qed.

Lemma length_encode_dir es : zlen es ≤ zlen (encode_dir es).
Proof.
  induction es as [|e es IH]; [done|]. rewrite encode_dir_cons. len.
  pose proof (length_encode_entry e). lia.
Qed.

Lemma str_to_inum_u64 i : 0 ≤ i < 2 ^ 64 → str_to_inum (u64_bytes i) = Done i.
Proof.
  intros Hi. unfold str_to_inum. pose proof (peek_app 8 [] (u64_bytes i) [] (length_u64_bytes i)) as Hp.
  rewrite app_nil_r in Hp. cbn [app length] in Hp; change (Z.of_nat 0) with 0 in Hp; rewrite Hp, le_val_u64. by rewrite wrap_small.
Qed.

Lemma str_to_int_i32 n : 0 ≤ n < 2 ^ 31 → str_to_int (i32_bytes n) = Done n.
Proof.
  intros Hn. unfold str_to_int. pose proof (peek_app 4 [] (i32_bytes n) [] (length_i32_bytes n)) as Hp.
  rewrite app_nil_r in Hp. cbn [app length] in Hp; change (Z.of_nat 0) with 0 in Hp; rewrite Hp, bind_Done, le_val_i32.
  rewrite wrap_small, sgn_small by (cbn in *; lia). done.
Qed.

(** An encoded entry is read back. *)
Lemma parse_entry_encoded pre e post :
  entry_ok e → zlen (pre ++ encode_entry e ++ post) < 2 ^ 32 →
  parse_entry (pre ++ encode_entry e ++ post) (zlen pre) =
    Done (Some (e, zlen (pre ++ encode_entry e))).
Proof.
  intros [Hn Hi] Hl. pose proof (length_encode_entry e) as He. unfold parse_entry.
  revert Hl. rewrite !length_app, !Nat2Z.inj_add, He. intros Hl.
  rewrite (wrap_small 64) by lia. test_false.
  unfold encode_entry, int_to_str, inum_to_str. set (szb := i32_bytes (zlen (name e))).
  assert (Hsz : zlen szb = 4) by (unfold szb; len).
  assert (Hint : str_to_int szb = Done (zlen (name e))) by (apply str_to_int_i32; lia).
  replace (pre ++ (szb ++ name e ++ u64_bytes (inum e)) ++ post)
    with (pre ++ szb ++ (name e ++ u64_bytes (inum e) ++ post)) by by rewrite <- !app_assoc.
  rewrite (substr_app pre szb), bind_Done, Hint, bind_Done by done.
  cbv zeta. rewrite (wrap_small 32 (zlen pre + 4)), (wrap_small 32 (zlen (name e))), (wrap_small 64) by lia.
  test_false. rewrite (wrap_small 64 (zlen (name e))) by lia.
  replace (zlen pre + 4) with (zlen (pre ++ szb)) by (rewrite length_app; lia).
  rewrite (app_assoc pre szb), (substr_app (pre ++ szb) (name e)), bind_Done by done.
  replace (zlen (pre ++ szb) + zlen (name e)) with (zlen ((pre ++ szb) ++ name e)) by (rewrite (length_app _ (name e)); lia).
  rewrite (wrap_small 32 (zlen ((pre ++ szb) ++ name e))) by (rewrite !length_app; lia).
  rewrite (wrap_small 64) by (rewrite !length_app; lia).
  replace (_ <? 8) with false by (symmetry; apply Z.ltb_ge; rewrite !length_app; lia).
  rewrite (app_assoc (pre ++ szb) (name e)), (substr_app _ (u64_bytes (inum e))), bind_Done by len.
  rewrite str_to_inum_u64, bind_Done by done.
  rewrite wrap_small by (rewrite !length_app; lia). destruct e as [nm i]; cbn [name inum] in *.
  do 3 f_equal. rewrite !length_app. lia.
Qed.

Lemma parse_loop_encoded es : ∀ fuel pre vec,
  (length (encode_dir es) < fuel)%nat → Forall entry_ok es → zlen (pre ++ encode_dir es) < 2 ^ 32 →
  parse_loop fuel (pre ++ encode_dir es) (zlen pre) vec = Done (0, vec ++ es).
Proof.
  induction es as [|e es IH]; intros fuel pre vec Hf Hes Hl; (destruct fuel as [|fuel]; [lia|]); cbn [parse_loop].
  - change (encode_dir []) with ([] : bytes). rewrite !app_nil_r. test_false. done.
  - apply Forall_cons in Hes as [He Hes]. rewrite encode_dir_cons in *.
    pose proof (length_encode_entry e) as Hle.
    replace (zlen pre <? _) with true by (symmetry; apply Z.ltb_lt; rewrite !length_app; lia). cbn [negb].
    rewrite parse_entry_encoded, bind_Done by done.
    rewrite (app_assoc pre) in *. rewrite IH; [by rewrite <- app_assoc| |done|done].
    rewrite length_app in Hf. lia.
Qed.

Lemma parse_dir_encoded es vec :
  Forall entry_ok es → zlen (encode_dir es) < 2 ^ 32 → parse_dir (encode_dir es) vec = Done (0, vec ++ es).
Proof. intros Hes Hl. apply (parse_loop_encoded es _ [] vec); [lia|done|done]. Qed.

(** And what is read is an encoded entry. *)
Lemma substr_done c i n :
  0 ≤ i → 0 ≤ n → i + n ≤ zlen c → substr c i n = Done (take (Z.to_nat n) (drop (Z.to_nat i) c)).
Proof. intros. unfold substr. test_false. by rewrite Z.min_l by lia. Qed.

Lemma drop_split (c : bytes) i n :
  0 ≤ i → 0 ≤ n → drop (Z.to_nat i) c = take (Z.to_nat n) (drop (Z.to_nat i) c) ++ drop (Z.to_nat (i + n)) c.
Proof. intros. rewrite Z2Nat.inj_add, <- drop_drop by lia. by rewrite take_drop. Qed.

Lemma zlen_take_drop (c : bytes) i n :
  0 ≤ i → 0 ≤ n → i + n ≤ zlen c → zlen (take (Z.to_nat n) (drop (Z.to_nat i) c)) = n.
Proof. intros. len. Qed.

Lemma le_val_word n w : length w = n → le_bytes n (le_val w) = w.
Proof. intros <-. apply le_bytes_le_val. Qed.

Lemma str_to_int_word w : length w = 4%nat →
  str_to_int w = Done (sgn 32 (le_val w)) ∧ 0 ≤ le_val w < 2 ^ 32.
Proof.
  intros Hw. unfold str_to_int. pose proof (peek_app 4 [] w [] Hw) as Hp. rewrite app_nil_r in Hp.
  cbn [app length] in Hp. change (Z.of_nat 0) with 0 in Hp. rewrite Hp, bind_Done. split; [done|].
  pose proof (le_val_range w) as Hr. by rewrite Hw in Hr.
Qed.

Lemma str_to_inum_word w : length w = 8%nat → str_to_inum w = Done (le_val w) ∧ 0 ≤ le_val w < 2 ^ 64.
Proof.
  intros Hw. unfold str_to_inum. pose proof (peek_app 8 [] w [] Hw) as Hp. rewrite app_nil_r in Hp.
  cbn [app length] in Hp. change (Z.of_nat 0) with 0 in Hp. rewrite Hp. split; [done|].
  pose proof (le_val_range w) as Hr. by rewrite Hw in Hr.
Qed.

Lemma sgn32_cases z : 0 ≤ z < 2 ^ 32 →
  (z < 2 ^ 31 ∧ sgn 32 z = z) ∨ (2 ^ 31 ≤ z ∧ wrap32 (sgn 32 z) = z).
Proof.
  intros Hz. unfold sgn, wrap. rewrite Z.mod_small by done. change (2 ^ (32 - 1)) with (2 ^ 31).
  destruct (Z.ltb_spec z (2 ^ 31)); [by left|right]. split; [done|].
  replace (z - 2 ^ 32) with (z + (-1) * 2 ^ 32) by lia. rewrite Z.mod_add by lia. by apply Z.mod_small.
Qed.

Lemma parse_entry_read c i :
  0 ≤ i ≤ zlen c → zlen c < 2 ^ 31 →
  parse_entry c i = Done None ∨
  ∃ e i', parse_entry c i = Done (Some (e, i')) ∧ i < i' ≤ zlen c ∧ entry_ok e ∧
    drop (Z.to_nat i) c = encode_entry e ++ drop (Z.to_nat i') c.
Proof.
  intros Hi Hc. unfold parse_entry. rewrite (wrap_small 64) by lia.
  destruct (Z.ltb_spec (zlen c - i) 4); [by left|].
  rewrite substr_done, bind_Done by lia. set (szb := take _ (drop _ c)).
  assert (Hszb : zlen szb = 4) by (apply zlen_take_drop; lia).
  destruct (str_to_int_word szb) as [-> Hsz]; [lia|]. rewrite bind_Done. cbv zeta.
  rewrite (wrap_small 32 (i + 4)), (wrap_small 64) by lia.
  destruct (sgn32_cases (le_val szb) Hsz) as [[Hs ->]|[Hs Hw]]; [|rewrite Hw; left; by test_true].
  remember (le_val szb) as n eqn:Hn. rewrite (wrap_small 32 n), (wrap_small 64 n) by lia.
  destruct (Z.ltb_spec (zlen c - (i + 4)) n); [by left|].
  rewrite (substr_done c (i + 4) n), bind_Done by lia. set (nm := take _ _).
  assert (Hnm : zlen nm = n) by (apply zlen_take_drop; lia).
  rewrite (wrap_small 32), (wrap_small 64) by lia.
  destruct (Z.ltb_spec (zlen c - (i + 4 + n)) 8); [by left|right].
  rewrite substr_done, bind_Done by lia. set (idb := take (Z.to_nat 8) _).
  assert (Hidb : zlen idb = 8) by (apply zlen_take_drop; lia).
  destruct (str_to_inum_word idb) as [-> Hid]; [lia|]. rewrite bind_Done.
  rewrite (wrap_small 32) by lia. eexists _, _. split; [done|]. split; [lia|].
  split; [split; cbn [name inum]; [lia|done]|].
  unfold encode_entry, int_to_str, inum_to_str. cbn [name inum]. rewrite Hnm.
  unfold i32_bytes, u64_bytes. rewrite Hn, !le_val_word by lia. rewrite <- Hn.
  rewrite <- !app_assoc. unfold szb, nm, idb. rewrite <- !drop_split by lia. done.
Qed.

Lemma parse_loop_read c : zlen c < 2 ^ 31 → ∀ fuel i vec,
  0 ≤ i ≤ zlen c → zlen c - i < Z.of_nat fuel →
  ∃ r es, parse_loop fuel c i vec = Done (r, vec ++ es) ∧ Forall entry_ok es ∧
    (r = 0 ∧ drop (Z.to_nat i) c = encode_dir es ∨ r = -1).
Proof.
  intros Hc fuel. induction fuel as [|fuel IH]; intros i vec Hi Hf; [lia|]. cbn [parse_loop].
  destruct (Z.ltb_spec i (zlen c)); cbn [negb].
  - destruct (parse_entry_read c i Hi Hc) as [->|(e & i' & -> & Hi' & He & Hd)]; rewrite bind_Done.
    + exists (-1), []. rewrite app_nil_r. auto.
    + destruct (IH i' (vec ++ [e])) as (r & es & -> & Hes & Hr); [lia|lia|].
      exists r, (e :: es). rewrite <- app_assoc. split; [done|]. split; [by constructor|].
      destruct Hr as [[-> Hr]| ->]; [left|by right]. split; [done|]. by rewrite Hd, Hr.
  - exists 0, []. rewrite app_nil_r. split; [done|]. split; [done|]. left. split; [done|].
    by rewrite drop_ge by lia.
Qed.

Lemma parse_dir_read c : zlen c < 2 ^ 31 →
  ∃ r es, parse_dir c [] = Done (r, es) ∧ Forall entry_ok es ∧ (r = 0 ∧ c = encode_dir es ∨ r = -1).
Proof.
  intros Hc. destruct (parse_loop_read c Hc (S (length c)) 0 []) as (r & es & Hp & Hes & Hr); [lia|lia|].
  exists r, es. auto.
Qed.

(** C19: Directory contents are read back: a list of entries (names below 2 GiB)
    encodes to a content that parses to the same list; and of any content below
    2 GiB [parse_dir] returns in a bounded number of rounds, successfully
    exactly when the content is the encoding of the entries it returns. *)
Theorem directory_roundtrip es c :
  Forall entry_ok es → zlen (encode_dir es) < 2 ^ 32 → zlen c < 2 ^ 31 →
  parse_dir (encode_dir es) [] = Done (0, es) ∧
  ∃ r es', parse_dir c [] = Done (r, es') ∧
    (r = 0 ↔ Forall entry_ok es' ∧ c = encode_dir es') ∧
    (r ≠ 0 → ∀ es', Forall entry_ok es' → c ≠ encode_dir es').
Proof.
  intros Hes Hl Hc. split; [by apply (parse_dir_encoded es [])|].
  destruct (parse_dir_read c Hc) as (r & es' & Hp & Hok & Hr). exists r, es'. split; [done|].
  assert (Hn : ∀ es0, Forall entry_ok es0 → c = encode_dir es0 → r = 0).
  { intros es0 H0 ->. rewrite (parse_dir_encoded es0 []) in Hp by (done || lia). congruence. }
  split; [|naive_solver]. split; [naive_solver|]. intros [_ Hc']. by apply (Hn es').
Qed.

Lemma directory_roundtrip_witness :
  let es := [mkEntry (bs "a") 5; mkEntry (bs "notes") 2147483654] in
  parse_dir (encode_dir es) [] = Done (0, es) ∧
  ∃ r es', parse_dir (bs "abc") [] = Done (r, es') ∧
    (r = 0 ↔ Forall entry_ok es' ∧ bs "abc" = encode_dir es') ∧
    (r ≠ 0 → ∀ es', Forall entry_ok es' → bs "abc" ≠ encode_dir es').
Proof.
  intros es. apply (directory_roundtrip es (bs "abc")); [|vm_compute; reflexivity|vm_compute; reflexivity].
  unfold es. repeat constructor; cbn; lia.
Defined.
