(* ===== verification/FsBackend.v ===== *)
(** * A backend for the file system client

    The extent cache of ExtentCache.v over any connection that keeps its laws,
    numbers counted and marked as the master does (Master.genInum), and a lock
    service that takes a lock back when it is released, so that a release
    flushes the extent.  It is not a translation of code: it shows that the laws of
    [BackendLaws] can hold, with the modelled cache inside, and is the instance at
    which the theorems about the client are applied. *)

From S2P Require Import Prelude StdContainers LockServer ExtentServer ExtentCache YfsClient.

(** ** Numbers *)

Lemma isfile_testbit i : isfile i = Z.testbit i 31.
Proof.
  unfold isfile. assert (Hl : Z.land i 2147483648 = if Z.testbit i 31 then 2 ^ 31 else 0).
  { apply Z.bits_inj'. intros n Hn. rewrite Z.land_spec. change 2147483648 with (2 ^ 31).
    rewrite Z.pow2_bits_eqb by lia. destruct (Z.eqb_spec 31 n) as [<-|Hne].
    - rewrite andb_true_r. destruct (Z.testbit i 31); [by rewrite Z.pow2_bits_true|by rewrite Z.bits_0].
    - rewrite andb_false_r. destruct (Z.testbit i 31); [by rewrite Z.pow2_bits_false|by rewrite Z.bits_0]. }
  rewrite Hl. by destruct (Z.testbit i 31).
Qed.

Lemma testbit31_small i : 0 ≤ i < 2 ^ 31 → Z.testbit i 31 = false.
Proof.
  intros Hi. destruct (decide (i = 0)) as [->|Hne]; [apply Z.bits_0|].
  apply Z.bits_above_log2; [lia|]. apply Z.log2_lt_pow2; lia.
Qed.

(** The number the master gives to its [i]th object. *)
Definition numbered (i : Z) (is_dir : bool) : Z := if is_dir then i else Z.lor i (2 ^ 31).

Lemma numbered_kind i d : 0 ≤ i < 2 ^ 31 → isdir (numbered i d) = d.
Proof.
  intros Hi. unfold isdir, numbered. rewrite isfile_testbit. destruct d.
  - by rewrite testbit31_small.
  - by rewrite Z.lor_spec, Z.pow2_bits_true, orb_true_r by lia.
Qed.

Lemma numbered_range i d : 0 ≤ i < 2 ^ 31 → 0 ≤ numbered i d < 2 ^ 64.
Proof.
  intros Hi. unfold numbered. destruct d; [lia|].
  assert (0 ≤ Z.lor i (2 ^ 31)) by (apply Z.lor_nonneg; lia).
  split; [done|]. destruct (decide (Z.lor i (2 ^ 31) = 0)) as [->|Hne]; [lia|].
  apply Z.log2_lt_pow2; [lia|]. rewrite Z.log2_lor, Z.log2_pow2 by lia.
  assert (Z.log2 i < 64); [|lia]. destruct (decide (i = 0)) as [->|]; [done|]. apply Z.log2_lt_pow2; lia.
Qed.

(** ** The backend *)

Section side.
Context {E : Type} `{ExtentServiceLaws E}.

Implicit Types (m : gmap Z bytes) (h : gset Z) (k : nat).

(** [count] numbers are given out; [home] is where all extents are. *)
Record side : Type := mkSide {
  cache : extent_client_cache.t E; cur : bytes; home : bytes; held : gset Z; clock : Z; count : Z }.

Definition with_cache (w : side) (c : extent_client_cache.t E) : side :=
  mkSide c (cur w) (home w) (held w) (clock w + 1) (count w).

#[export] Instance side_backend : Backend side := {|
  GetKVAddrByInum w i := (home w, w);
  GetInumByName w p nm d sz :=
    (numbered (count w) d, home w, mkSide (cache w) (cur w) (home w) (held w) (clock w) (count w + 1));
  new_ec w a := mkSide (cache w) a (home w) (held w) (clock w) (count w);
  GetCurAddr w := cur w;
  ConnectTo w a := mkSide (cache w) a (home w) (held w) (clock w) (count w);
  ec_get w i b := let '(st, b, c) := extent_client_cache.get (cache w) (clock w) i b in (st, b, with_cache w c);
  ec_getattr w i a := let '(st, a, c) := extent_client_cache.getattr (cache w) i a in (st, a, with_cache w c);
  ec_put w i b := let '(st, c) := extent_client_cache.put (cache w) (clock w) i b in (st, with_cache w c);
  ec_setattr w i a := let '(st, c) := extent_client_cache.setattr (cache w) i a in (st, with_cache w c);
  ec_remove w i := let '(st, c) := extent_client_cache.remove (cache w) i in (st, with_cache w c);
  lc_acquire w i :=
    (lock_OK, mkSide (cache w) (cur w) (home w) ({[i]} ∪ held w) (clock w) (count w));
  lc_release w i :=
    let '(_, c) := extent_client_cache.flush (cache w) i in
    (lock_OK, mkSide c (cur w) (home w) (held w ∖ {[i]}) (clock w) (count w));
|}.

(** Every extent has a number that was given out. *)
Definition given (w : side) (i : Z) : Prop := ∃ j d, 0 ≤ j < count w ∧ i = numbered j d.

Definition side_shows (w : side) (m : gmap Z bytes) (h : gset Z) (k : nat) : Prop :=
  represents (cache w) m ∧ store_ok m ∧ held w = h ∧ 0 ≤ count w ∧ count w + Z.of_nat k ≤ 2 ^ 31 ∧
  map_Forall (λ i _, given w i) m.

Lemma numbered_inj i j d d' :
  0 ≤ i < 2 ^ 31 → 0 ≤ j < 2 ^ 31 → numbered i d = numbered j d' → i = j.
Proof.
  intros Hi Hj Heq. assert (Hd : d = d') by (by rewrite <- (numbered_kind i d), <- (numbered_kind j d'), Heq).
  subst d'. destruct d; [done|]. unfold numbered in Heq.
  apply Z.bits_inj'. intros n Hn. destruct (decide (n = 31)) as [->|Hne].
  - by rewrite !testbit31_small.
  - apply (f_equal (λ x, Z.testbit x n)) in Heq. rewrite !Z.lor_spec, Z.pow2_bits_false, !orb_false_r in Heq by done. done.
Qed.

Lemma given_fresh w m d :
  0 ≤ count w < 2 ^ 31 → map_Forall (λ i _, given w i) m → m !! numbered (count w) d = None.
Proof.
  intros Hc Hm. destruct (m !! _) as [c|] eqn:Hi; [|done].
  destruct (Hm _ _ Hi) as (j & d' & Hj & Heq). apply numbered_inj in Heq; lia.
Qed.

Lemma side_shows_cache w m m' h k c :
  side_shows w m h k → represents c m' → store_ok m' → map_Forall (λ i _, given w i) m' →
  side_shows (with_cache w c) m' h k.
Proof. intros (_ & _ & Hh & Hc & Hk & _) Hr Hok Hg. by split_and!. Qed.

Lemma given_insert w m i b :
  map_Forall (λ i _, given w i) m → is_Some (m !! i) ∨ given w i → map_Forall (λ i _, given w i) (<[i := b]> m).
Proof.
  intros Hm Hi j c. rewrite lookup_insert_Some. intros [[<- _]|[_ ?]]; [|by eapply Hm].
  destruct Hi as [[c' Hc]|]; [by eapply Hm|done].
Qed.

#[export] Program Instance side_laws : BackendLaws side := {| shows := side_shows; named := given |}.
Next Obligation. by intros w m h k (_ & ? & _). Qed.
Next Obligation. by intros w m h k i ?. Qed.
Next Obligation. by intros w m h k a ?. Qed.
Next Obligation. by intros w m h k a ?. Qed.
Next Obligation.
  intros w m h k p nm d sz (Hr & Hok & Hh & Hc & Hk & Hg). cbn [GetInumByName side_backend].
  split; [|split; [|split; [|split]]].
  - split_and!; try done; cbn [count]; [lia|lia|]. intros i c Hi.
    destruct (Hg i c Hi) as (j & d' & Hj & ->). exists j, d'. split; [cbn; lia|done].
  - exists (count w), d. split; [cbn; lia|done].
  - apply given_fresh; [lia|done].
  - apply numbered_kind. lia.
  - apply numbered_range. lia.
Qed.
Next Obligation. by intros w i a ?. Qed.
Next Obligation. by intros w i j ?. Qed.
Next Obligation.
  intros w m h k i Hs. cbn [ec_get side_backend]. assert (Hs' := Hs). destruct Hs' as (Hr & Hok & _ & _ & _ & Hg).
  destruct (cached_get_ok (cache w) m (clock w) i Hr) as (b & c & -> & Hr' & Hb).
  split; [by eapply side_shows_cache|]. destruct (m !! i); [|done]. split; [done|]. by apply Hb.
Qed.
Next Obligation.
  intros w m h k i a Hs. cbn [ec_getattr side_backend]. assert (Hs' := Hs). destruct Hs' as (Hr & Hok & _ & _ & _ & Hg).
  destruct (getattr_ok (cache w) m i a Hr Hok) as (a' & c & -> & Hr' & Ha).
  split; [by eapply side_shows_cache|]. destruct (m !! i); [|done]. split; [done|]. by apply Ha.
Qed.
Next Obligation.
  intros w m h k i b Hs Hi Hb. cbn [ec_put side_backend extent_client_cache.put]. split; [done|].
  assert (Hs' := Hs). destruct Hs' as (Hr & Hok & _ & _ & _ & Hg).
  eapply side_shows_cache; [exact Hs| |by apply map_Forall_insert_2|by apply given_insert].
  by apply (represents_insert (cache w) m i).
Qed.
Next Obligation.
  intros w m h k i a Hs Ha. cbn [ec_setattr side_backend]. assert (Hs' := Hs). destruct Hs' as (Hr & Hok & _ & _ & _ & Hg).
  destruct (setattr_ok (cache w) m i a Hr) as (c & -> & Hr'). destruct (m !! i) as [b|] eqn:Hi.
  - split; [done|]. eapply side_shows_cache; [exact Hs|done| |apply given_insert; [done|eauto]].
    apply map_Forall_insert_2; [|done]. rewrite length_resize by lia. lia.
  - split; [done|]. by eapply side_shows_cache.
Qed.
Next Obligation.
  intros w m h k i Hs. cbn [ec_remove side_backend]. assert (Hs' := Hs). destruct Hs' as (Hr & Hok & _ & _ & _ & Hg).
  unfold extent_client_cache.remove.
  assert (Hd : ∀ x, deleted x = true → dirty x = true →
    side_shows (with_cache w (extent_client_cache.store_entry i x (cache w))) (delete i m) h k).
  { intros x Hx Hy. eapply side_shows_cache; [exact Hs| | |].
    - pose proof (represents_insert (cache w) m i x (extent_client_cache.env (cache w)) Hr eq_refl) as Hi.
      unfold overlay in Hi. rewrite Hx in Hi. apply Hi. congruence.
    - by apply map_Forall_delete.
    - by apply map_Forall_delete. }
  destruct (extent_client_cache.cache_map_ (cache w) !! i); (split; [done|]); by apply Hd.
Qed.
Next Obligation. intros w m h k i (? & ? & <- & ?) Hi. cbn [lc_acquire side_backend]. by split_and!. Qed.
Next Obligation.
  intros w m h k i (Hr & Hok & <- & ? & ? & ?) Hi. cbn [lc_release side_backend].
  destruct (flush_ok (cache w) m i Hr Hok) as (c & -> & Hr' & _). by split_and!.
Qed.
End side.
Arguments side : clear implicits.
