(* ===== verification/FileSystem.v ===== *)
(** * The file system the client implements

    The abstract file system [fs] (directories as lists of entries, files as
    byte strings), and the proof that the operations of YfsClient.v act on it:
    first what each operation does to the extents, by a calculus of
    postconditions over the client's monad, then the refinement and the tree
    invariant, and last an instance of the client's backend built from the
    extent cache over an extent server. *)

From S2P Require Import Prelude StdContainers LockServer ExtentServer ExtentCache YfsClient FsBackend.
Import yfs_client.

(** ** Running the client *)

Section calculus.
Context {W : Type} `{BackendLaws W}.
Implicit Types (s : yfs_client.t W) (m : gmap Z bytes) (h : gset Z) (k : nat) (i p : Z).

(** [x] returns from [s], with an answer and a state in [Q]. *)
Definition wp {A} (x : M A) (Q : A → yfs_client.t W → Prop) s : Prop :=
  ∃ a s', x s = Done (a, s') ∧ Q a s'.

(** The client is connected, and shows [m], [h] and [k]. *)
Definition up s m h k : Prop := made s = true ∧ shows (world s) m h k.

Lemma up_shows s m h k : up s m h k → shows (world s) m h k.
Proof. by intros [_ ?]. Qed.

Lemma wp_bind {A B} (x : M A) (g : A → M B) Q s : wp x (λ a, wp (g a) Q) s → wp (x ≫= g) Q s.
Proof. intros (a & s1 & Hx & b & s2 & Hg & HQ). exists b, s2. split; [|done]. unfold mbind, M_bind. by rewrite Hx. Qed.

Lemma wp_ret {A} (a : A) (Q : A → yfs_client.t W → Prop) s : Q a s → wp (mret a) Q s.
Proof. intros. by exists a, s. Qed.

Lemma wp_mono {A} (x : M A) (Q Q' : A → yfs_client.t W → Prop) s :
  wp x Q s → (∀ a s', Q a s' → Q' a s') → wp x Q' s.
Proof. intros (a & s' & Hx & HQ) Hm. exists a, s'. auto. Qed.

(** What holds after a step by two accounts holds after it. *)
Lemma wp_and {A} (x : M A) (Q Q' : A → yfs_client.t W → Prop) s :
  wp x Q s → wp x Q' s → wp x (λ a s', Q a s' ∧ Q' a s') s.
Proof. intros (a & s1 & Hx & HQ) (b & s2 & Hx' & HQ'). exists a, s1. split; [done|]. split; [done|congruence]. Qed.

Lemma wp_pure {A} (x : outcome A) a (Q : A → yfs_client.t W → Prop) s : x = Done a → Q a s → wp (pure x) Q s.
Proof. intros -> HQ. by exists a, s. Qed.

Lemma wp_via {A} (g : W → A * W) (Q : A → yfs_client.t W → Prop) s :
  made s = true → (let '(a, w) := g (world s) in Q a (mk true w)) → wp (via g) Q s.
Proof.
  intros Hm HQ. destruct (g (world s)) as [a w] eqn:Hg. exists a, (mk true w).
  split; [|done]. unfold via, ask. by rewrite Hm, Hg.
Qed.

Lemma wp_connect s m h k addr (Q : unit → yfs_client.t W → Prop) :
  shows (world s) m h k → (∀ s', up s' m h k → Q tt s') → wp (connect addr) Q s.
Proof.
  intros Hs HQ. unfold wp, connect. destruct (made s) eqn:Hm; [|exists tt; eexists; split; [done|]; apply HQ; split; [done|by apply new_law]].
  destruct (bool_decide _); exists tt; eexists; (split; [done|]); apply HQ; (split; [done|]); [done|by apply connect_law].
Qed.

Lemma wp_connect_named s m h k addr i (Q : unit → yfs_client.t W → Prop) :
  up s m h k → named (world s) i → (∀ s', up s' m h k → named (world s') i → Q tt s') → wp (connect addr) Q s.
Proof.
  intros [Hm Hs] Hi HQ. unfold wp, connect. rewrite Hm.
  destruct (bool_decide _); exists tt; eexists; (split; [done|]);
    apply HQ; [by split|done|split; [done|by apply connect_law]|by apply connect_named].
Qed.

Lemma wp_init s m h k i (Q : unit → yfs_client.t W → Prop) :
  shows (world s) m h k → (∀ s', up s' m h k → Q tt s') → wp (initExtentClient i) Q s.
Proof.
  intros Hs HQ. apply wp_bind. pose proof (addr_law (world s) m h k i Hs) as Ha.
  destruct (GetKVAddrByInum (world s) i) as [addr w] eqn:Hg.
  exists addr, (mk (made s) w). unfold ask. rewrite Hg. split; [done|].
  by apply (wp_connect (mk (made s) w) m h k).
Qed.

Lemma wp_acquire s m h k i (Q : Z → yfs_client.t W → Prop) :
  up s m h k → i ∉ h → (∀ s', up s' m ({[i]} ∪ h) k → Q lock_OK s') → wp (acquire i) Q s.
Proof.
  intros [Hm Hs] Hi HQ. apply wp_via; [done|]. pose proof (acquire_law _ _ _ _ i Hs Hi) as Ha.
  destruct (lc_acquire (world s) i) as [st w]. destruct Ha as [-> Ha]. by apply HQ.
Qed.

Lemma wp_acquire_named s m h k i (Q : Z → yfs_client.t W → Prop) :
  up s m h k → i ∉ h → named (world s) i →
  (∀ s', up s' m ({[i]} ∪ h) k → named (world s') i → Q lock_OK s') → wp (acquire i) Q s.
Proof.
  intros [Hm Hs] Hi Hn HQ. apply wp_via; [done|]. pose proof (acquire_law _ _ _ _ i Hs Hi) as Ha.
  pose proof (acquire_named _ _ i Hn) as Hn'.
  destruct (lc_acquire (world s) i) as [st w]. destruct Ha as [-> Ha]. by apply HQ.
Qed.

Lemma wp_release s m h k i (Q : Z → yfs_client.t W → Prop) :
  up s m h k → i ∈ h → (∀ s', up s' m (h ∖ {[i]}) k → Q lock_OK s') → wp (release i) Q s.
Proof.
  intros [Hm Hs] Hi HQ. apply wp_via; [done|]. pose proof (release_law _ _ _ _ i Hs Hi) as Ha.
  destruct (lc_release (world s) i) as [st w]. destruct Ha as [-> Ha]. by apply HQ.
Qed.

Lemma wp_leave ids r (Q : Z → yfs_client.t W → Prop) : ∀ s m h h' k,
  up s m h k → NoDup ids → Forall (λ i, i ∈ h) ids → h ∖ list_to_set ids = h' →
  (∀ s', up s' m h' k → Q r s') → wp (leave ids r) Q s.
Proof.
  induction ids as [|i ids IH]; intros s m h h' k Hu Hnd Hin Hh HQ; cbn [leave].
  - apply wp_ret, HQ. by replace h' with h by set_solver.
  - apply NoDup_cons in Hnd as [Hni Hnd]. apply Forall_cons in Hin as [Hi Hin].
    apply wp_bind, (wp_release _ _ _ _ _ _ Hu Hi). intros s' Hu'. cbn [negb Z.eqb lock_OK].
    apply (IH s' m (h ∖ {[i]}) h' k); [done|done| |set_solver|done].
    rewrite Forall_forall in *. set_solver.
Qed.

Lemma wp_get s m h k i (Q : Z * bytes → yfs_client.t W → Prop) :
  up s m h k →
  (∀ s' b', up s' m h k →
     match m !! i with Some c => Q (OK, c) s' | None => Q (IOERR, b') s' end) →
  wp (get i []) Q s.
Proof.
  intros [Hm Hs] HQ. apply wp_bind, wp_via; [done|]. pose proof (ec_get_law _ _ _ _ i Hs) as Ha.
  destruct (ec_get (world s) i []) as [[st b'] w]. destruct Ha as [Hw Ha].
  specialize (HQ (mk true w) b' (conj eq_refl Hw)). apply wp_ret.
  destruct (m !! i); [by destruct Ha as [-> ->]|by rewrite Ha].
Qed.

Lemma wp_put s m h k i b (Q : Z → yfs_client.t W → Prop) :
  up s m h k → is_Some (m !! i) ∨ named (world s) i → zlen b < 2 ^ 32 →
  (∀ s', up s' (<[i := b]> m) h k → Q OK s') → wp (put i b) Q s.
Proof.
  intros [Hm Hs] Hi Hb HQ. apply wp_bind, wp_via; [done|]. pose proof (ec_put_law _ _ _ _ i b Hs Hi Hb) as Ha.
  destruct (ec_put (world s) i b) as [st w]. destruct Ha as [-> Ha]. by apply wp_ret, HQ.
Qed.

Lemma wp_remove s m h k i (Q : Z → yfs_client.t W → Prop) :
  up s m h k → (∀ s', up s' (delete i m) h k → Q OK s') → wp (remove i) Q s.
Proof.
  intros [Hm Hs] HQ. apply wp_bind, wp_via; [done|]. pose proof (ec_remove_law _ _ _ _ i Hs) as Ha.
  destruct (ec_remove (world s) i) as [st w]. destruct Ha as [-> Ha]. by apply wp_ret, HQ.
Qed.

Lemma wp_getfile s m h k i fin (Q : Z * fileinfo → yfs_client.t W → Prop) :
  up s m h k →
  (∀ s' fin', up s' m h k →
     match m !! i with Some c => f_size fin' = zlen c → Q (OK, fin') s' | None => Q (IOERR, fin) s' end) →
  wp (getfile i fin) Q s.
Proof.
  intros [Hm Hs] HQ. apply wp_bind, wp_via; [done|]. pose proof (ec_getattr_law _ _ _ _ i (mkAttr 0 0 0 0) Hs) as Ha.
  destruct (ec_getattr (world s) i _) as [[st a] w]. destruct Ha as [Hw Ha].
  specialize (HQ (mk true w) (mkFile (size a) (atime a) (mtime a) (ctime a)) (conj eq_refl Hw)).
  destruct (m !! i); [destruct Ha as [-> Ha]; by apply wp_ret, HQ|subst st; by apply wp_ret].
Qed.

Lemma wp_getdir s m h k i din (Q : Z * dirinfo → yfs_client.t W → Prop) :
  up s m h k →
  (∀ s' din', up s' m h k →
     match m !! i with Some c => Q (OK, din') s' | None => Q (IOERR, din) s' end) →
  wp (getdir i din) Q s.
Proof.
  intros [Hm Hs] HQ. apply wp_bind, wp_via; [done|]. pose proof (ec_getattr_law _ _ _ _ i (mkAttr 0 0 0 0) Hs) as Ha.
  destruct (ec_getattr (world s) i _) as [[st a] w]. destruct Ha as [Hw Ha].
  specialize (HQ (mk true w) (mkDir (atime a) (mtime a) (ctime a)) (conj eq_refl Hw)).
  destruct (m !! i); [destruct Ha as [-> Ha]; by apply wp_ret|subst st; by apply wp_ret].
Qed.

Lemma wp_inum s m h k p nm d sz (Q : Z * bytes → yfs_client.t W → Prop) :
  up s m h (S k) →
  (∀ s' i a, up s' m h k → named (world s') i → m !! i = None → isdir i = d → 0 ≤ i < 2 ^ 64 → Q (i, a) s') →
  wp (ask (λ w, GetInumByName w p nm d sz)) Q s.
Proof.
  intros [Hm Hs] HQ. pose proof (inum_law _ _ _ _ p nm d sz Hs) as Ha.
  destruct (GetInumByName (world s) p nm d sz) as [[i a] w] eqn:Hg.
  exists (i, a), (mk true w). unfold ask. rewrite Hg, Hm. split; [done|]. destruct Ha as (Hw & ? & ? & ? & ?). by apply HQ.
Qed.

Lemma wp_parse s c es (Q : Z * list dirent → yfs_client.t W → Prop) vec :
  Forall entry_ok es → c = encode_dir es → zlen c < 2 ^ 32 → Q (0, vec ++ es) s →
  wp (pure (parse_dir c vec)) Q s.
Proof. intros Hes -> Hc HQ. apply (wp_pure _ (0, vec ++ es)); [by apply parse_dir_encoded|done]. Qed.

End calculus.

(** Evaluate the status tests of the client. *)
Ltac status := cbn [negb Z.eqb lock_OK ext_OK OK IOERR Pos.eqb Z.ltb Z.compare].

(** Start an operation: connect and take the lock of [i]. *)
Ltac enter m i k :=
  apply wp_bind; eapply (wp_init _ m ∅ k); [eassumption|]; intros ? ?;
  apply wp_bind; eapply (wp_acquire _ m ∅ k i); [eassumption|set_solver|]; intros ? ?; status.

(** Start an operation on the directory [p], whose content is [m !! p]. *)
Ltac open_dir m p k Hp Hes :=
  enter m p k;
  apply wp_bind; eapply wp_get; [eassumption|]; intros ? ? ?; rewrite Hp; status;
  apply wp_bind; eapply wp_parse; [exact Hes|done|lia|]; status; cbn [app].

(** The same when there is no such extent: the operation fails. *)
Ltac open_missing m p k Hp :=
  enter m p k; apply wp_bind; eapply wp_get; [eassumption|]; intros ? ? ?; rewrite Hp; status.

Lemma held_one (i : Z) : ({[i]} ∪ ∅) ∖ list_to_set [i] = (∅ : gset Z).
Proof. set_solver. Qed.
Lemma held_two (i p : Z) : ({[i]} ∪ ({[p]} ∪ ∅)) ∖ list_to_set [i; p] = (∅ : gset Z).
Proof. set_solver. Qed.

Lemma find_by_elem q es n e : find_by q es = Some (n, e) → e ∈ es ∧ es !! n = Some e ∧ q e = true.
Proof.
  revert n. induction es as [|e0 es IH]; intros n; cbn [find_by]; [done|].
  destruct (q e0) eqn:Hq; [intros [= <- <-]; split; [left|done]|].
  destruct (find_by q es) as [[n' e']|]; [|done]. intros [= <- ->].
  destruct (IH n' eq_refl) as (? & ? & ?). split; [by right|done].
Qed.

Lemma encode_dir_delete n es : zlen (encode_dir (delete n es)) ≤ zlen (encode_dir es).
Proof.
  revert n. induction es as [|e es IH]; intros n; [done|]. rewrite encode_dir_cons, length_app.
  destruct n as [|n]; [change (delete 0%nat (e :: es)) with es; lia|]. change (delete (S n) (e :: es)) with (e :: delete n es).
  rewrite encode_dir_cons, length_app. specialize (IH n). lia.
Qed.

(** ** What the operations do to the extents *)

Section operations.
Context {W : Type} `{BackendLaws W}.
Implicit Types (s : yfs_client.t W) (m : gmap Z bytes) (k : nat) (i p : Z).

(** The lock of one extent is given back. *)
Lemma wp_leave_one s m i k r (Q : Z → yfs_client.t W → Prop) :
  up s m ({[i]} ∪ ∅) k → (∀ s', up s' m ∅ k → Q r s') → wp (leave [i] r) Q s.
Proof. intros Hu. eapply wp_leave; [done|apply NoDup_singleton|constructor; [set_solver|done]|apply held_one]. Qed.

Lemma wp_leave_two s m i p k r (Q : Z → yfs_client.t W → Prop) :
  i ≠ p → up s m ({[i]} ∪ ({[p]} ∪ ∅)) k → (∀ s', up s' m ∅ k → Q r s') → wp (leave [i; p] r) Q s.
Proof.
  intros Hne Hu. eapply wp_leave; [done| | |apply held_two].
  - apply NoDup_cons. split; [set_solver|apply NoDup_singleton].
  - repeat constructor; set_solver.
Qed.

Lemma wp_getfileInfo s m h k i fin (Q : Z * fileinfo → yfs_client.t W → Prop) :
  shows (world s) m h k → i ∉ h →
  (∀ s' fin', up s' m h k →
     match m !! i with Some c => f_size fin' = zlen c → Q (OK, fin') s' | None => Q (IOERR, fin') s' end) →
  wp (getfileInfo i fin) Q s.
Proof.
  intros Hs Hi HQ. apply wp_bind. eapply wp_init; [done|]. intros s1 H1.
  apply wp_bind. eapply wp_acquire; [done|done|]. intros s2 H2. status.
  apply wp_bind. eapply wp_getfile; [done|]. intros s3 fin' H3.
  destruct (m !! i) as [c|].
  - intros Hsz. apply wp_bind. eapply (wp_leave [i]); [done|apply NoDup_singleton|constructor; [set_solver|done]| |].
    { instantiate (1 := h). set_solver. }
    intros s4 H4. apply wp_ret. by apply HQ.
  - apply wp_bind. eapply (wp_leave [i]); [done|apply NoDup_singleton|constructor; [set_solver|done]| |].
    { instantiate (1 := h). set_solver. }
    intros s4 H4. apply wp_ret. by apply HQ.
Qed.

Lemma wp_getdirInfo s m h k i din (Q : Z * dirinfo → yfs_client.t W → Prop) :
  shows (world s) m h k → i ∉ h →
  (∀ s' din', up s' m h k → match m !! i with Some c => Q (OK, din') s' | None => Q (IOERR, din') s' end) →
  wp (getdirInfo i din) Q s.
Proof.
  intros Hs Hi HQ. apply wp_bind. eapply wp_init; [done|]. intros s1 H1.
  apply wp_bind. eapply wp_acquire; [done|done|]. intros s2 H2. status.
  apply wp_bind. eapply wp_getdir; [done|]. intros s3 din' H3.
  destruct (m !! i) as [c|]; apply wp_bind;
    (eapply (wp_leave [i] _ _ _ _ _ h); [done|apply NoDup_singleton|constructor; [set_solver|done]|set_solver|]);
    intros s4 H4; apply wp_ret; by apply HQ.
Qed.

(** Give the one lock back and return. *)
Ltac leave_one := apply wp_bind; eapply wp_leave_one; [eassumption|]; intros ? ?; apply wp_ret.

(** The new directory content after [create] and [mkdir]. *)
Definition entered m p es nm i : gmap Z bytes :=
  <[p := encode_dir (es ++ [mkEntry nm i])]> (<[i := []]> m).

Lemma create_spec s m k p nm i0 info0 es :
  shows (world s) m ∅ (S k) → m !! p = Some (encode_dir es) → Forall entry_ok es →
  zlen (encode_dir es) + 12 + zlen nm < 2 ^ 32 →
  wp (create p nm i0 info0) (λ '(r, i, info) s',
    if has_name nm es then r = EXIST ∧ up s' m ∅ (S k)
    else r = OK ∧ f_size info = 0 ∧ m !! i = None ∧ isdir i = false ∧ 0 ≤ i < 2 ^ 64 ∧
      up s' (entered m p es nm i) ∅ k) s.
Proof.
  intros Hs Hp Hes Hl. unfold create. open_dir m p (S k) Hp Hes.
  destruct (has_name nm es) eqn:Hn.
  { by leave_one. }
  apply wp_bind. eapply wp_inum; [done|]. intros s4 i a H4 Hn4 Hi Hk Hr.
  assert (Hne : i ≠ p) by congruence.
  apply wp_bind. eapply wp_connect_named; [apply H4|done|]. intros s5 H5 Hn5.
  apply wp_bind. eapply wp_acquire_named; [done|set_solver|done|]. intros s6 H6 Hn6. status.
  apply wp_bind. eapply wp_put; [done|by right|done|]. intros s7 H7. status.
  apply wp_bind. eapply wp_put; [done|left; rewrite lookup_insert_ne by done; eauto| |].
  { rewrite encode_dir_app, encode_dir_one, length_app, Nat2Z.inj_add, length_encode_entry. cbn [name]. lia. }
  intros s8 H8. status. fold (entered m p es nm i) in H8.
  apply wp_bind. eapply wp_getfile; [done|]. intros s9 fin H9. unfold entered at 1.
  rewrite lookup_insert_ne, lookup_insert_eq by done. intros Hsz.
  apply wp_bind. eapply wp_leave_two; [done|done|]. intros s10 H10. apply wp_ret. auto 10.
Qed.

Lemma mkdir_spec s m k p nm i0 info0 es :
  shows (world s) m ∅ (S k) → m !! p = Some (encode_dir es) → Forall entry_ok es →
  zlen (encode_dir es) + 12 + zlen nm < 2 ^ 32 →
  wp (mkdir p nm i0 info0) (λ '(r, i, info) s',
    if has_name nm es then r = EXIST ∧ up s' m ∅ (S k)
    else r = OK ∧ m !! i = None ∧ isdir i = true ∧ 0 ≤ i < 2 ^ 64 ∧ up s' (entered m p es nm i) ∅ k) s.
Proof.
  intros Hs Hp Hes Hl. unfold mkdir. open_dir m p (S k) Hp Hes.
  destruct (has_name nm es) eqn:Hn.
  { by leave_one. }
  apply wp_bind. eapply wp_inum; [done|]. intros s4 i a H4 Hn4 Hi Hk Hr.
  assert (Hne : i ≠ p) by congruence.
  apply wp_bind. eapply wp_connect_named; [apply H4|done|]. intros s5 H5 Hn5.
  apply wp_bind. eapply wp_acquire_named; [done|set_solver|done|]. intros s6 H6 Hn6. status.
  apply wp_bind. eapply wp_put; [done|by right|done|]. intros s7 H7. status.
  apply wp_bind. eapply wp_put; [done|left; rewrite lookup_insert_ne by done; eauto| |].
  { rewrite encode_dir_app, encode_dir_one, length_app, Nat2Z.inj_add, length_encode_entry. cbn [name]. lia. }
  intros s8 H8. status. fold (entered m p es nm i) in H8.
  apply wp_bind. eapply wp_getdir; [done|]. intros s9 din H9. unfold entered at 1.
  rewrite lookup_insert_ne, lookup_insert_eq by done.
  apply wp_bind. eapply wp_leave_two; [done|done|]. intros s10 H10. apply wp_ret. auto 10.
Qed.

(** Without the directory, every operation but [unlink] fails and holds nothing. *)
Lemma create_missing s m k p nm i0 info0 :
  shows (world s) m ∅ k → m !! p = None →
  wp (create p nm i0 info0) (λ '(r, _, _) s', r = IOERR ∧ up s' m ∅ k) s.
Proof. intros Hs Hp. unfold create. open_missing m p k Hp. by leave_one. Qed.

Lemma mkdir_missing s m k p nm i0 info0 :
  shows (world s) m ∅ k → m !! p = None →
  wp (mkdir p nm i0 info0) (λ '(r, _, _) s', r = IOERR ∧ up s' m ∅ k) s.
Proof. intros Hs Hp. unfold mkdir. open_missing m p k Hp. by leave_one. Qed.

Lemma lookup_missing s m k p nm i0 d0 fin din :
  shows (world s) m ∅ k → m !! p = None →
  wp (lookup p nm i0 d0 fin din) (λ '(r, _, _, _, _) s', r = IOERR ∧ up s' m ∅ k) s.
Proof. intros Hs Hp. unfold lookup. open_missing m p k Hp. by leave_one. Qed.

Lemma readdir_missing s m k p :
  isdir p = true → shows (world s) m ∅ k → m !! p = None →
  wp (readdir p []) (λ '(r, _) s', r = IOERR ∧ up s' m ∅ k) s.
Proof. intros Hd Hs Hp. unfold readdir. rewrite Hd. cbn [negb]. open_missing m p k Hp. by leave_one. Qed.

(** [unlink] keeps the lock. *)
Lemma unlink_missing s m k p nm :
  shows (world s) m ∅ k → m !! p = None →
  wp (unlink p nm) (λ r s', r = IOERR ∧ up s' m {[p]} k) s.
Proof.
  intros Hs Hp. unfold unlink. open_missing m p k Hp. apply wp_ret.
  by rewrite (right_id_L ∅ (∪)) in *.
Qed.

Lemma lookup_spec s m k p nm i0 d0 fin din es :
  shows (world s) m ∅ k → m !! p = Some (encode_dir es) → Forall entry_ok es →
  zlen (encode_dir es) < 2 ^ 32 → Forall (λ e, inum e ≠ p ∧ is_Some (m !! inum e)) es →
  wp (lookup p nm i0 d0 fin din) (λ '(r, i, d, fin', _) s',
    match find_by (λ e, bytes_eqb (name e) nm) es with
    | None => r = NOENT
    | Some (_, e) => r = OK ∧ i = inum e ∧ d = isdir (inum e) ∧
        (isfile (inum e) = true → ∀ c, m !! inum e = Some c → f_size fin' = zlen c)
    end ∧ up s' m ∅ k) s.
Proof.
  intros Hs Hp Hes Hl Hex. unfold lookup. open_dir m p k Hp Hes.
  destruct (find_by _ es) as [[n e]|] eqn:Hf; [|by leave_one].
  assert (inum e ≠ p ∧ is_Some (m !! inum e)) as [Hne [c Hc]].
  { rewrite Forall_forall in Hex. by apply Hex, (find_by_elem (λ e, bytes_eqb (name e) nm) es n e). }
  unfold isdir. destruct (isfile (inum e)) eqn:Hk; cbn [negb].
  - apply wp_bind. eapply wp_getfileInfo; [eapply up_shows; eassumption|set_solver|].
    intros s3 fin' Hu3. rewrite Hc. intros Hsz. leave_one. naive_solver.
  - apply wp_bind. eapply wp_getdirInfo; [eapply up_shows; eassumption|set_solver|].
    intros s3 din' Hu3. rewrite Hc. leave_one. naive_solver.
Qed.

Lemma readdir_spec s m k p es :
  isdir p = true → shows (world s) m ∅ k → m !! p = Some (encode_dir es) → Forall entry_ok es →
  zlen (encode_dir es) < 2 ^ 32 →
  wp (readdir p []) (λ '(r, es') s', r = OK ∧ es' = es ∧ up s' m ∅ k) s.
Proof. intros Hd Hs Hp Hes Hl. unfold readdir. rewrite Hd. cbn [negb]. open_dir m p k Hp Hes. by leave_one. Qed.

Lemma unlink_spec s m k p nm es :
  shows (world s) m ∅ k → m !! p = Some (encode_dir es) → Forall entry_ok es →
  zlen (encode_dir es) < 2 ^ 32 →
  wp (unlink p nm) (λ r s',
    match find_by (λ e, bytes_eqb (c_str (name e)) nm) es with
    | None => r = NOENT ∧ up s' m ∅ k
    | Some (n, e) =>
        if isdir (inum e) then r = NOENT ∧ up s' m ∅ k
        else r = OK ∧ up s' (delete (inum e) (<[p := encode_dir (delete n es)]> m)) ∅ k
    end) s.
Proof.
  intros Hs Hp Hes Hl. unfold unlink. open_dir m p k Hp Hes.
  destruct (find_by _ es) as [[n e]|] eqn:Hf; [|by eapply wp_leave_one].
  destruct (isdir (inum e)) eqn:Hk; [by eapply wp_leave_one|].
  apply wp_bind. eapply wp_put; [eassumption|eauto|pose proof (encode_dir_delete n es); lia|].
  intros s3 Hu3. status. apply wp_bind. eapply wp_release; [done|set_solver|]. intros s4 Hu4. status.
  replace (({[p]} ∪ ∅) ∖ {[p]}) with (∅ : gset Z) in Hu4 by set_solver.
  apply wp_bind. eapply wp_init; [apply Hu4|]. intros s5 Hu5.
  apply wp_bind. eapply wp_acquire; [done|set_solver|]. intros s6 Hu6. status.
  apply wp_bind. eapply wp_remove; [done|]. intros s7 Hu7. by eapply wp_leave_one.
Qed.

(** Reading and writing a file. *)
Definition read_at (c : bytes) (size off : Z) : bytes := take (Z.to_nat size) (drop (Z.to_nat off) c).

Definition write_at (c : bytes) (off : Z) (buf : bytes) : bytes :=
  take (Z.to_nat off) c ++ replicate (Z.to_nat (off - zlen c)) Byte.x00 ++ buf ++ drop (Z.to_nat (off + zlen buf)) c.

Lemma read_range_ok c size off :
  zlen c < 2 ^ 32 → 0 ≤ size → 0 ≤ off < 2 ^ 32 → read_range c size off = Done (read_at c size off).
Proof.
  intros Hc Hs Ho. unfold read_range, read_at. rewrite (wrap_small 32) by done.
  destruct (Z.leb_spec (zlen c) off); [by rewrite drop_ge, take_nil by lia|].
  rewrite wrap_small by lia. destruct (Z.ltb_spec (zlen c - off) size); repeat test_true; cbn [andb]; [|done].
  f_equal. rewrite !take_ge by (len); done.
Qed.

Lemma write_range_ok c off buf :
  zlen c < 2 ^ 32 → 0 ≤ off → off + zlen buf < 2 ^ 32 →
  write_range c (zlen buf) off buf = Done (write_at c off buf).
Proof.
  intros Hc Ho Hb. unfold write_range, write_at. cbv zeta. rewrite !(wrap_small 32 (zlen c)), (wrap_small 32 off) by lia.
  destruct (Z.leb_spec (zlen c) off).
  - rewrite wrap_small, take_ge, drop_ge, app_nil_r by lia. done.
  - repeat test_true. cbn [andb]. replace (Z.to_nat (off - zlen c)) with 0%nat by lia. cbn [replicate app].
    rewrite wrap_small by lia. destruct (Z.ltb_spec (zlen buf) (zlen c - off)); [by test_true|].
    by rewrite drop_ge, app_nil_r by lia.
Qed.

Lemma length_write_at c off buf :
  0 ≤ off → zlen (write_at c off buf) = Z.max (zlen c) (off + zlen buf).
Proof. intros Ho. unfold write_at. len. Qed.

Lemma read_spec s m k i size off :
  shows (world s) m ∅ k → 0 ≤ size → 0 ≤ off < 2 ^ 32 →
  wp (read i size off) (λ '(r, buf) s',
    match m !! i with Some c => r = OK ∧ buf = read_at c size off | None => r = IOERR end ∧ up s' m ∅ k) s.
Proof.
  intros Hs Hsz Ho. pose proof (shows_small _ _ _ _ Hs) as Hsm. unfold read. enter m i k.
  apply wp_bind. eapply wp_get; [eassumption|]. intros s3 b' Hu3.
  destruct (m !! i) as [c|] eqn:Hi; status; [|by leave_one].
  apply wp_bind. eapply wp_pure; [apply read_range_ok; [by eapply Hsm|done|done]|]. by leave_one.
Qed.

Lemma write_spec s m k i off buf :
  shows (world s) m ∅ k → 0 ≤ off → off + zlen buf < 2 ^ 32 →
  wp (write i (zlen buf) off buf) (λ r s',
    match m !! i with
    | Some c => r = OK ∧ up s' (<[i := write_at c off buf]> m) ∅ k
    | None => r = IOERR ∧ up s' m ∅ k
    end) s.
Proof.
  intros Hs Ho Hb. pose proof (shows_small _ _ _ _ Hs) as Hsm. unfold write. enter m i k.
  apply wp_bind. eapply wp_get; [eassumption|]. intros s3 b' Hu3.
  destruct (m !! i) as [c|] eqn:Hi; status; [|by eapply wp_leave_one].
  assert (Hc : zlen c < 2 ^ 32) by by eapply Hsm.
  apply wp_bind. eapply wp_pure; [by apply write_range_ok|].
  apply wp_bind. eapply wp_put; [eassumption|eauto|rewrite length_write_at by done; lia|].
  intros s4 Hu4. by eapply wp_leave_one.
Qed.

Lemma setattr_spec s m k junk i want st0 :
  shows (world s) m ∅ k → 0 ≤ st_size want < 2 ^ 32 →
  wp (setattr junk i want st0) (λ '(r, st) s',
    match m !! i with
    | Some c => let c' := extent_server.resize c (st_size want) in
        r = OK ∧ st_size st = zlen c' ∧ st_mode st = REGULAR ∧ st_nlink st = 1 ∧ up s' (<[i := c']> m) ∅ k
    | None => r = IOERR ∧ up s' m ∅ k
    end) s.
Proof.
  intros Hs Hw. unfold setattr. enter m i k. cbv zeta. rewrite wrap_small by done.
  apply wp_bind, wp_via; [match goal with Hu : up ?s _ _ _ |- made ?s = true => apply Hu end|].
  match goal with |- context [ec_setattr (world ?s) i ?a] =>
    pose proof (ec_setattr_law (world s) m ({[i]} ∪ ∅) k i a) as Ha;
    destruct (ec_setattr (world s) i a) as [st w] end.
  assert (Ha' := Ha ltac:(by eapply up_shows) Hw). clear Ha. cbn [size] in Ha'.
  destruct (m !! i) as [c|] eqn:Hi; destruct Ha' as [-> Ha']; status.
  - apply wp_bind. eapply (wp_getfile _ _ ({[i]} ∪ ∅) k); [by split|]. intros s4 fin Hu4.
    rewrite lookup_insert_eq. intros Hsz. status. leave_one. naive_solver.
  - apply wp_bind. eapply (wp_leave_one _ m i k); [by split|]. intros s4 Hu4. by apply wp_ret.
Qed.

End operations.

(** ** The abstract file system *)

Record fs : Type := mkFs { dirs : gmap Z (list dirent); files : gmap Z bytes }.

Inductive fop : Type :=
  | FCreate (p : Z) (nm : bytes)
  | FMkdir (p : Z) (nm : bytes)
  | FLookup (p : Z) (nm : bytes)
  | FReaddir (p : Z)
  | FUnlink (p : Z) (nm : bytes)
  | FRead (i size off : Z)
  | FWrite (i off : Z) (buf : bytes)
  | FTruncate (i n : Z)
  | FSize (i : Z).

Inductive freply : Type :=
  | RErr (st : Z)
  | ROk
  | RFile (i size : Z)
  | RDir (i : Z)
  | REntries (es : list dirent)
  | RData (b : bytes)
  | RLength (n : Z).

(** A new entry of [p] for a new object [ino]. *)
Definition enter_new (f : fs) (p : Z) (nm : bytes) (ino : Z) (is_dir : bool) : freply * fs :=
  match dirs f !! p with
  | None => (RErr IOERR, f)
  | Some es =>
      if has_name nm es then (RErr EXIST, f)
      else
        let es := es ++ [mkEntry nm ino] in
        if is_dir then (RDir ino, mkFs (<[p := es]> (<[ino := []]> (dirs f))) (files f))
        else (RFile ino 0, mkFs (<[p := es]> (dirs f)) (<[ino := []]> (files f)))
  end.

Definition on_file (f : fs) (i : Z) (g : bytes → freply * bytes) : freply * fs :=
  match files f !! i with
  | None => (RErr IOERR, f)
  | Some c => let '(r, c) := g c in (r, mkFs (dirs f) (<[i := c]> (files f)))
  end.

(** One operation; [ino] is the number of a new object. *)
Definition fs_step (f : fs) (ino : Z) (o : fop) : freply * fs :=
  match o with
  | FCreate p nm => enter_new f p nm ino false
  | FMkdir p nm => enter_new f p nm ino true
  | FLookup p nm =>
      (match dirs f !! p with
       | None => RErr IOERR
       | Some es =>
           match find_by (λ e, bytes_eqb (name e) nm) es with
           | None => RErr NOENT
           | Some (_, e) =>
               if isdir (inum e) then RDir (inum e)
               else RFile (inum e) (zlen (default [] (files f !! inum e)))
           end
       end, f)
  | FReaddir p =>
      (if isfile p then RErr NOTDIR
       else match dirs f !! p with None => RErr IOERR | Some es => REntries es end, f)
  | FUnlink p nm =>
      match dirs f !! p with
      | None => (RErr IOERR, f)
      | Some es =>
          match find_by (λ e, bytes_eqb (name e) nm) es with
          | None => (RErr NOENT, f)
          | Some (n, e) =>
              if isdir (inum e) then (RErr NOENT, f)
              else (ROk, mkFs (<[p := delete n es]> (dirs f)) (delete (inum e) (files f)))
          end
      end
  | FRead i size off => on_file f i (λ c, (RData (read_at c size off), c))
  | FWrite i off buf => on_file f i (λ c, (ROk, write_at c off buf))
  | FTruncate i n => on_file f i (λ c, let c := extent_server.resize c n in (RLength (zlen c), c))
  | FSize i => on_file f i (λ c, (RLength (zlen c), c))
  end.

(** What exists under a number, as the bytes the client stores. *)
Definition bytes_of (f : fs) (i : Z) : option bytes :=
  if isfile i then files f !! i else encode_dir <$> dirs f !! i.

(** The file system is a forest: numbers say the kind, names are unique in a
    directory, every entry leads to an object other than the directory itself,
    and no two entries lead to the same object. *)
Record wf_fs (f : fs) : Prop := {
  wf_dirs : ∀ i es, dirs f !! i = Some es → isdir i = true;
  wf_files : ∀ i c, files f !! i = Some c → isfile i = true;
  wf_entries : ∀ p es, dirs f !! p = Some es → Forall (λ e, entry_ok e ∧ c_str (name e) = name e) es;
  wf_names : ∀ p es, dirs f !! p = Some es → NoDup (name <$> es);
  wf_exists : ∀ p es e, dirs f !! p = Some es → e ∈ es → inum e ≠ p ∧ is_Some (bytes_of f (inum e));
  wf_once : ∀ p es e p' es' e', dirs f !! p = Some es → dirs f !! p' = Some es' →
    e ∈ es → e' ∈ es' → inum e = inum e' → p = p' ∧ e = e';
}.

(** Where an operation is defined: on numbers of the right kind, with names
    that are C strings, and within the 4 GiB of an extent.  [unlink] wants its
    directory to exist. *)
Definition enter_ok (f : fs) (p : Z) (nm : bytes) : Prop :=
  isdir p = true ∧ name_ok nm ∧ ∀ es, dirs f !! p = Some es → zlen (encode_dir es) + 12 + zlen nm < 2 ^ 32.

Definition fop_ok (f : fs) (o : fop) : Prop :=
  match o with
  | FCreate p nm | FMkdir p nm => enter_ok f p nm
  | FLookup p nm => isdir p = true
  | FReaddir p => True
  | FUnlink p nm => is_Some (dirs f !! p)
  | FRead i size off => isfile i = true ∧ 0 ≤ size ∧ 0 ≤ off < 2 ^ 32
  | FWrite i off buf => isfile i = true ∧ 0 ≤ off ∧ off + zlen buf < 2 ^ 32
  | FTruncate i n => isfile i = true ∧ 0 ≤ n < 2 ^ 32
  | FSize i => isfile i = true
  end.

(** The number given to a new object is new and of its kind. *)
Definition new_number (f : fs) (o : fop) (ino : Z) : Prop :=
  match o with
  | FCreate _ _ => bytes_of f ino = None ∧ isdir ino = false ∧ 0 ≤ ino < 2 ^ 64
  | FMkdir _ _ => bytes_of f ino = None ∧ isdir ino = true ∧ 0 ≤ ino < 2 ^ 64
  | _ => True
  end.

(** ** The invariant is kept *)

Lemma bytes_of_dir f p : isdir p = true → bytes_of f p = encode_dir <$> dirs f !! p.
Proof. unfold bytes_of, isdir. by destruct (isfile p). Qed.

Lemma bytes_of_file f i : isfile i = true → bytes_of f i = files f !! i.
Proof. unfold bytes_of. by intros ->. Qed.

Lemma isdir_isfile i : isdir i = false ↔ isfile i = true.
Proof. unfold isdir. by destruct (isfile i). Qed.

Lemma bytes_of_None f i : wf_fs f → bytes_of f i = None → dirs f !! i = None ∧ files f !! i = None.
Proof.
  intros Hf Hi. split.
  - destruct (dirs f !! i) eqn:Hd; [|done]. rewrite bytes_of_dir, Hd in Hi by by eapply wf_dirs. done.
  - destruct (files f !! i) eqn:Hd; [|done]. rewrite bytes_of_file in Hi by by eapply wf_files. congruence.
Qed.

Lemma has_name_spec nm es : has_name nm es = true ↔ nm ∈ name <$> es.
Proof.
  unfold has_name. rewrite existsb_exists. setoid_rewrite list_elem_of_fmap.
  setoid_rewrite list_elem_of_In. setoid_rewrite bool_decide_eq_true. naive_solver.
Qed.

(** The bytes under every number after the directory [p] gets new entries. *)
Lemma bytes_of_insert_dir f p es i fl :
  isdir p = true →
  bytes_of (mkFs (<[p := es]> (dirs f)) fl) i =
    if decide (i = p) then Some (encode_dir es) else bytes_of (mkFs (dirs f) fl) i.
Proof.
  intros Hp. unfold bytes_of, isdir in *. cbn [dirs files]. destruct (decide (i = p)) as [->|Hne].
  - destruct (isfile p); [done|]. by rewrite lookup_insert_eq.
  - by rewrite lookup_insert_ne.
Qed.

(** No entry leads to [i]. *)
Definition unlinked (f : fs) (i : Z) : Prop := ∀ p es e, dirs f !! p = Some es → e ∈ es → inum e ≠ i.

Lemma nothing_unlinked f i : wf_fs f → bytes_of f i = None → unlinked f i.
Proof. intros Hf Hi p es e Hp He <-. destruct (wf_exists f Hf p es e Hp He) as [_ [? ?]]. congruence. Qed.

Lemma exists_insert_dir f p es es' i :
  wf_fs f → dirs f !! p = Some es → is_Some (bytes_of f i) →
  is_Some (bytes_of (mkFs (<[p := es']> (dirs f)) (files f)) i).
Proof.
  intros Hf Hp Hi. rewrite bytes_of_insert_dir by by eapply wf_dirs. destruct f. by destruct (decide _).
Qed.

Lemma insert_dir_wf f p es es' :
  wf_fs f → dirs f !! p = Some es →
  Forall (λ e, entry_ok e ∧ c_str (name e) = name e) es' → NoDup (name <$> es') →
  (∀ e, e ∈ es' → inum e ≠ p ∧ is_Some (bytes_of f (inum e))) →
  (∀ e e', e ∈ es' → e' ∈ es' → inum e = inum e' → e = e') →
  (∀ e p' es'' e', e ∈ es' → p' ≠ p → dirs f !! p' = Some es'' → e' ∈ es'' → inum e ≠ inum e') →
  wf_fs (mkFs (<[p := es']> (dirs f)) (files f)).
Proof.
  intros Hf Hp Hok Hnd Hex Hin Hout. split; cbn [dirs files].
  - intros i es0. rewrite lookup_insert_Some. intros [[<- _]|[_ ?]]; by eapply wf_dirs.
  - apply Hf.
  - intros q es0. rewrite lookup_insert_Some. intros [[<- <-]|[_ ?]]; [done|by eapply wf_entries].
  - intros q es0. rewrite lookup_insert_Some. intros [[<- <-]|[_ ?]]; [done|by eapply wf_names].
  - intros q es0 e. rewrite lookup_insert_Some. intros Hq He.
    assert (inum e ≠ q ∧ is_Some (bytes_of f (inum e))) as [? ?].
    { destruct Hq as [[<- <-]|[_ Hq]]; [by apply Hex|by eapply wf_exists]. }
    split; [done|]. by eapply exists_insert_dir.
  - intros q es0 e q' es1 e'. rewrite !lookup_insert_Some. intros [[<- <-]|[? Hq]] [[<- <-]|[? Hq']] He He' Hi.
    + split; [done|]. by apply Hin.
    + by destruct (Hout e q' es1 e').
    + by destruct (Hout e' q es0 e).
    + by eapply (wf_once f Hf q es0 e q' es1 e').
Qed.

Lemma add_object_wf f i (d : bool) :
  wf_fs f → bytes_of f i = None → isdir i = d →
  wf_fs (if d then mkFs (<[i := []]> (dirs f)) (files f) else mkFs (dirs f) (<[i := []]> (files f))).
Proof.
  intros Hf Hi Hd. destruct (bytes_of_None f i Hf Hi) as [Hdi Hfi].
  assert (Hb : ∀ j, is_Some (bytes_of f j) →
    is_Some (bytes_of (if d then mkFs (<[i := []]> (dirs f)) (files f) else mkFs (dirs f) (<[i := []]> (files f))) j)).
  { intros j. unfold bytes_of. destruct d; cbn [dirs files]; (destruct (isfile j); [|rewrite !fmap_is_Some]);
      rewrite ?lookup_insert_is_Some'; auto. }
  assert (Hl : ∀ p es, (if d then <[i := []]> (dirs f) else dirs f) !! p = Some es → es = [] ∧ d = true ∧ p = i ∨ dirs f !! p = Some es).
  { intros p es. destruct d; [|auto]. rewrite lookup_insert_Some. naive_solver. }
  assert (Hdirs : dirs (if d then mkFs (<[i := []]> (dirs f)) (files f) else mkFs (dirs f) (<[i := []]> (files f))) =
    if d then <[i := []]> (dirs f) else dirs f) by by destruct d.
  split; rewrite ?Hdirs.
  - intros p es [(_ & -> & ->)|?]%Hl; [done|by eapply wf_dirs].
  - intros p c. destruct d; cbn [files]; [apply Hf|]. rewrite lookup_insert_Some.
    intros [[<- _]|[_ ?]]; [by apply isdir_isfile|by eapply wf_files].
  - intros p es [(-> & _)|?]%Hl; [done|by eapply wf_entries].
  - intros p es [(-> & _)|?]%Hl; [apply NoDup_nil_2|by eapply wf_names].
  - intros p es e [(-> & _)|?]%Hl He; [by apply elem_of_nil in He|].
    destruct (wf_exists f Hf p es e) as [? ?]; auto.
  - intros p es e p' es' e' [(-> & _)|?]%Hl [(-> & _)|?]%Hl He He' Heq;
      try (by apply elem_of_nil in He); try (by apply elem_of_nil in He').
    by eapply wf_once.
Qed.

Lemma set_file_wf f i c : wf_fs f → is_Some (files f !! i) → wf_fs (mkFs (dirs f) (<[i := c]> (files f))).
Proof.
  intros Hf Hi. split; cbn [dirs files]; try apply Hf.
  - intros j c'. rewrite lookup_insert_Some. intros [[<- _]|[_ ?]]; [destruct Hi|]; by eapply wf_files.
  - intros p es e Hp He. destruct (wf_exists f Hf p es e Hp He) as [? Hs]. split; [done|].
    unfold bytes_of in *. destruct (isfile (inum e)); [|done]. cbn [files]. rewrite lookup_insert_is_Some'. auto.
Qed.

Lemma delete_file_wf f i : wf_fs f → unlinked f i → wf_fs (mkFs (dirs f) (delete i (files f))).
Proof.
  intros Hf Hi. split; cbn [dirs files]; try apply Hf.
  - intros j c'. rewrite lookup_delete_Some. intros [_ ?]. by eapply wf_files.
  - intros p es e Hp He. destruct (wf_exists f Hf p es e Hp He) as [? Hs]. split; [done|].
    unfold bytes_of in *. destruct (isfile (inum e)); [|done]. cbn [files].
    rewrite lookup_delete_ne; [done|]. intros Heq. by apply (Hi p es e).
Qed.

Lemma enter_new_wf f p nm i d :
  wf_fs f → enter_ok f p nm → bytes_of f i = None → isdir i = d → 0 ≤ i < 2 ^ 64 →
  wf_fs (enter_new f p nm i d).2.
Proof.
  intros Hf (Hp & [Hc Hn] & _) Hi Hd Hr. unfold enter_new. destruct (dirs f !! p) as [es|] eqn:Hes; [|done].
  destruct (has_name nm es) eqn:Hh; [done|].
  assert (Hne : i ≠ p) by (intros ->; rewrite bytes_of_dir, Hes in Hi by done; done).
  pose proof (nothing_unlinked f i Hf Hi) as Hu.
  set (f' := if d then mkFs (<[i := []]> (dirs f)) (files f) else mkFs (dirs f) (<[i := []]> (files f))).
  assert (Hf' : wf_fs f') by by apply add_object_wf.
  assert (Hdirs : dirs f' = if d then <[i := []]> (dirs f) else dirs f) by (unfold f'; by destruct d).
  assert (Hes' : dirs f' !! p = Some es) by (rewrite Hdirs; destruct d; by rewrite ?lookup_insert_ne).
  assert (Hu' : unlinked f' i).
  { intros q es0 e. rewrite Hdirs. destruct d; [rewrite lookup_insert_Some|apply Hu].
    intros [[_ <-]|[_ Hq]] He; [by apply elem_of_nil in He|by eapply Hu]. }
  assert (Hs : is_Some (bytes_of f' i)).
  { unfold bytes_of, f', isdir in *. destruct d, (isfile i); try done; cbn [files dirs]; rewrite lookup_insert_eq; eauto. }
  replace (_.2) with (mkFs (<[p := es ++ [mkEntry nm i]]> (dirs f')) (files f'))
    by (unfold f'; by destruct d).
  apply (insert_dir_wf f' p es); [done|done| | | | |].
  - apply Forall_app. split; [by apply (wf_entries f' Hf' p)|]. repeat constructor; cbn [name inum]; lia || done.
  - rewrite fmap_app. apply NoDup_app. split; [by apply (wf_names f' Hf' p)|]. split; [|apply NoDup_singleton].
    intros x Hx Hx1. cbn in Hx1. apply list_elem_of_singleton in Hx1. subst x.
    apply has_name_spec in Hx. congruence.
  - intros e He. apply elem_of_app in He as [He|He]; [by apply (wf_exists f' Hf' p es e)|].
    apply list_elem_of_singleton in He. by subst e.
  - intros e e' [He|He]%elem_of_app [He'|He']%elem_of_app Hin;
      rewrite ?list_elem_of_singleton in *; subst; cbn [inum] in *; [|exfalso|exfalso|done].
    + by eapply (wf_once f' Hf' p es e p es e').
    + by apply (Hu' p es e).
    + by apply (Hu' p es e').
  - intros e p' es'' e' [He|He]%elem_of_app Hp' Hd' He' Hin.
    + by destruct (wf_once f' Hf' p es e p' es'' e') as [-> _].
    + apply list_elem_of_singleton in He. subst e. by apply (Hu' p' es'' e').
Qed.

Lemma unlink_wf f p n e es :
  wf_fs f → dirs f !! p = Some es → es !! n = Some e → isdir (inum e) = false →
  wf_fs (mkFs (<[p := delete n es]> (dirs f)) (delete (inum e) (files f))).
Proof.
  intros Hf Hp Hn Hk. pose proof (list_elem_of_lookup_2 _ _ _ Hn) as Hel.
  assert (Hsub : ∀ x, x ∈ delete n es → x ∈ es).
  { intros x Hx. rewrite (delete_Permutation es n e Hn). by right. }
  assert (Hnd : NoDup (name <$> es)) by by apply (wf_names f Hf p).
  assert (Hsplit : name <$> es ≡ₚ name e :: (name <$> delete n es)).
  { by rewrite (delete_Permutation es n e Hn) at 1. }
  rewrite Hsplit in Hnd. apply NoDup_cons in Hnd as [Hni Hnd].
  assert (Hf' : wf_fs (mkFs (<[p := delete n es]> (dirs f)) (files f))).
  { apply (insert_dir_wf f p es); [done|done| |done| | |].
    - apply Forall_forall. intros x Hx%Hsub. by apply (proj1 (Forall_forall _ _) (wf_entries f Hf p es Hp)).
    - intros x Hx%Hsub. by apply (wf_exists f Hf p es).
    - intros x y Hx%Hsub Hy%Hsub Hxy. by eapply (wf_once f Hf p es x p es y).
    - intros x p' es' y Hx%Hsub Hne Hp' Hy Hxy. by destruct (wf_once f Hf p es x p' es' y). }
  apply (delete_file_wf (mkFs _ (files f))); [done|]. intros q es' x Hq Hx Hi.
  change (<[p := delete n es]> (dirs f) !! q = Some es') in Hq.
  apply lookup_insert_Some in Hq as [[<- <-]|[Hne Hq]].
  - destruct (wf_once f Hf p es x p es e) as [_ ->]; auto.
    apply Hni, list_elem_of_fmap. eauto.
  - by destruct (wf_once f Hf q es' x p es e) as [-> _].
Qed.

Lemma on_file_wf f i g : wf_fs f → wf_fs (on_file f i g).2.
Proof.
  intros Hf. unfold on_file. destruct (files f !! i) eqn:Hi; [|done]. destruct (g _). by apply set_file_wf.
Qed.

Lemma fs_step_wf f ino o : wf_fs f → fop_ok f o → new_number f o ino → wf_fs (fs_step f ino o).2.
Proof.
  intros Hf Ho Hnew. destruct o; cbn [fs_step]; try done; try by apply on_file_wf.
  - destruct Hnew as (? & ? & ?). by apply enter_new_wf.
  - destruct Hnew as (? & ? & ?). by apply enter_new_wf.
  - destruct (dirs f !! p) as [es|] eqn:Hp; [|done].
    destruct (find_by _ es) as [[n e]|] eqn:Hfind; [|done].
    destruct (find_by_elem _ es n e Hfind) as (_ & Hn & _).
    destruct (isdir (inum e)) eqn:Hk; [done|]. by apply unlink_wf.
Qed.

(** ** The client implements it *)

Section refinement.
Context {W : Type} `{BackendLaws W}.
Implicit Types (s : yfs_client.t W) (f : fs) (o : fop) (m : gmap Z bytes) (k : nat).

(** The answer of [lookup]. *)
Definition found (r i : Z) (is_dir : bool) (fin : fileinfo) : freply :=
  if r =? OK then (if is_dir then RDir i else RFile i (f_size fin)) else RErr r.

(** What the variables of a caller hold that it hands over uninitialised. *)
Record junk : Type := mkJunk {
  j_inum : Z; j_is_dir : bool; j_fin : fileinfo; j_din : dirinfo; j_stat : stat; j_attr : attr }.

Context (jk : junk).

(** An operation of the client, with the answer it gives its caller. *)
Definition yfs_step (o : fop) : M freply :=
  match o with
  | FCreate p nm =>
      '(r, i, info) ← create p nm (j_inum jk) (j_fin jk); mret (if r =? OK then RFile i (f_size info) else RErr r)
  | FMkdir p nm => '(r, i, _) ← mkdir p nm (j_inum jk) (j_din jk); mret (if r =? OK then RDir i else RErr r)
  | FLookup p nm =>
      '(r, i, d, fin, _) ← lookup p nm (j_inum jk) (j_is_dir jk) (j_fin jk) (j_din jk);
      mret (found r i d fin)
  | FReaddir p => '(r, es) ← readdir p []; mret (if r =? OK then REntries es else RErr r)
  | FUnlink p nm => r ← unlink p nm; mret (if r =? OK then ROk else RErr r)
  | FRead i size off => '(r, b) ← read i size off; mret (if r =? OK then RData b else RErr r)
  | FWrite i off buf => r ← write i (zlen buf) off buf; mret (if r =? OK then ROk else RErr r)
  | FTruncate i n =>
      '(r, st) ← setattr (j_attr jk) i (mkStat 0 0 0 0 0 n) (j_stat jk);
      mret (if r =? OK then RLength (st_size st) else RErr r)
  | FSize i => '(r, fin) ← getfileInfo i (j_fin jk); mret (if r =? OK then RLength (f_size fin) else RErr r)
  end.

(** The extents are the file system, and no lock is held. *)
Definition shows_fs w f k : Prop := ∃ m, (∀ i, m !! i = bytes_of f i) ∧ shows w m ∅ k.
Definition implements s f k : Prop := wf_fs f ∧ shows_fs (world s) f k.

(** The outcome of a step: answer and new state are those of the abstract step. *)
Definition steps_to f o k (r : freply) s' : Prop :=
  ∃ ino f' k', fs_step f ino o = (r, f') ∧ (f' = f ∨ new_number f o ino) ∧ (k ≤ k')%nat ∧
    shows_fs (world s') f' k'.

Lemma steps_stay f o m k r s' :
  fs_step f 0 o = (r, f) → (∀ i, m !! i = bytes_of f i) → shows (world s') m ∅ k → steps_to f o k r s'.
Proof.
  intros Hf Hm Hs. exists 0, f, k. split; [done|]. split; [by left|]. split; [done|]. by exists m.
Qed.

Lemma steps_same f o m k r s' :
  fs_step f 0 o = (r, f) → (∀ i, m !! i = bytes_of f i) → up s' m ∅ k → steps_to f o k r s'.
Proof. intros Hf Hm Hu. eapply steps_stay; [done|done|]. by eapply up_shows. Qed.

Lemma steps_new f o k ino r f' m' k' s' :
  fs_step f ino o = (r, f') → new_number f o ino → (k ≤ k')%nat →
  (∀ i, m' !! i = bytes_of f' i) → up s' m' ∅ k' → steps_to f o k r s'.
Proof.
  intros Hf Hn Hk Hm Hu. exists ino, f', k'. split; [done|]. split; [by right|]. split; [done|].
  exists m'. split; [done|]. by eapply up_shows.
Qed.

Lemma steps_weaken f o k k' r s' : (k ≤ k')%nat → steps_to f o k' r s' → steps_to f o k r s'.
Proof. intros Hk (ino & f' & k2 & ? & ? & ? & ?). exists ino, f', k2. eauto with lia. Qed.

Lemma entries_ok f p es : wf_fs f → dirs f !! p = Some es → Forall entry_ok es.
Proof. intros Hf Hp. eapply Forall_impl; [by apply (wf_entries f Hf p)|]. naive_solver. Qed.

Lemma stores_dir f m p es :
  wf_fs f → (∀ i, m !! i = bytes_of f i) → dirs f !! p = Some es → m !! p = Some (encode_dir es).
Proof. intros Hf Hm Hp. rewrite Hm, bytes_of_dir, Hp; [done|]. by eapply wf_dirs. Qed.

(** The extents after a new entry. *)
Lemma stores_entered f m p es nm i (d : bool) :
  wf_fs f → (∀ j, m !! j = bytes_of f j) → isdir p = true → isdir i = d → i ≠ p →
  ∀ j, entered m p es nm i !! j = bytes_of
    (if d then mkFs (<[p := es ++ [mkEntry nm i]]> (<[i := []]> (dirs f))) (files f)
     else mkFs (<[p := es ++ [mkEntry nm i]]> (dirs f)) (<[i := []]> (files f))) j.
Proof.
  intros Hf Hm Hp Hd Hne j. unfold entered.
  replace (if d then _ else _) with
    (mkFs (<[p := es ++ [mkEntry nm i]]> (dirs (if d then mkFs (<[i := []]> (dirs f)) (files f) else mkFs (dirs f) (<[i := []]> (files f)))))
      (files (if d then mkFs (<[i := []]> (dirs f)) (files f) else mkFs (dirs f) (<[i := []]> (files f))))) by by destruct d.
  rewrite bytes_of_insert_dir by done. destruct (decide (j = p)) as [->|Hj]; [by rewrite lookup_insert_eq|].
  rewrite lookup_insert_ne by done. unfold bytes_of. destruct (decide (j = i)) as [->|Hji].
  - rewrite lookup_insert_eq. unfold isdir in Hd. destruct d, (isfile i); try done; cbn [dirs files]; by rewrite lookup_insert_eq.
  - rewrite lookup_insert_ne by done. rewrite Hm. unfold bytes_of.
    destruct d, (isfile j); cbn [dirs files]; by rewrite ?lookup_insert_ne.
Qed.

Lemma has_name_ok f p es nm : wf_fs f → dirs f !! p = Some es →
  find_by (λ e, bytes_eqb (c_str (name e)) nm) es = find_by (λ e, bytes_eqb (name e) nm) es.
Proof.
  intros Hf Hp. pose proof (wf_entries f Hf p es Hp) as He. clear Hp.
  induction He as [|e es [_ Hc] _ IH]; [done|]. cbn [find_by]. by rewrite Hc, IH.
Qed.

Lemma enter_existing f p es nm ino d :
  dirs f !! p = Some es → has_name nm es = true → enter_new f p nm ino d = (RErr EXIST, f).
Proof. intros Hp Hh. unfold enter_new. by rewrite Hp, Hh. Qed.

Lemma enter_missing f p nm ino d : dirs f !! p = None → enter_new f p nm ino d = (RErr IOERR, f).
Proof. intros Hp. unfold enter_new. by rewrite Hp. Qed.

Lemma stores_missing f m p :
  (∀ i, m !! i = bytes_of f i) → isdir p = true → dirs f !! p = None → m !! p = None.
Proof. intros Hm Hp Hd. by rewrite Hm, bytes_of_dir, Hd. Qed.

Lemma step_create f m s p nm k :
  wf_fs f → (∀ i, m !! i = bytes_of f i) → shows (world s) m ∅ (S k) → enter_ok f p nm →
  wp (yfs_step (FCreate p nm)) (steps_to f (FCreate p nm) k) s.
Proof.
  intros Hf Hm Hs (Hp & Hnm & Hl). cbn [yfs_step]. apply wp_bind.
  destruct (dirs f !! p) as [es|] eqn:Hes.
  - eapply wp_mono; [eapply create_spec; [done|by eapply stores_dir|by eapply entries_ok|by apply Hl]|].
    intros [[r i] info] s'. cbn beta iota. destruct (has_name nm es) eqn:Hh.
    + intros [-> Hu]. apply wp_ret, (steps_weaken _ _ _ (S k)); [lia|].
      eapply steps_same; [by eapply enter_existing|done|done].
    + intros (-> & Hsz & Hi & Hd & Hr & Hu). apply wp_ret. cbn [OK Z.eqb]. rewrite Hsz.
      eapply (steps_new _ _ _ i); [cbn [fs_step]; unfold enter_new; by rewrite Hes, Hh|split; [by rewrite <- Hm|done]|done| |done].
      apply (stores_entered f m p es nm i false); try done. intros ->.
      by rewrite (stores_dir f m p es Hf Hm Hes) in Hi.
  - eapply wp_mono; [eapply create_missing; [done|by eapply stores_missing]|].
    intros [[r i] info] s' [-> Hu]. apply wp_ret, (steps_weaken _ _ _ (S k)); [lia|].
    eapply steps_same; [by apply enter_missing|done|done].
Qed.

Lemma step_mkdir f m s p nm k :
  wf_fs f → (∀ i, m !! i = bytes_of f i) → shows (world s) m ∅ (S k) → enter_ok f p nm →
  wp (yfs_step (FMkdir p nm)) (steps_to f (FMkdir p nm) k) s.
Proof.
  intros Hf Hm Hs (Hp & Hnm & Hl). cbn [yfs_step]. apply wp_bind.
  destruct (dirs f !! p) as [es|] eqn:Hes.
  - eapply wp_mono; [eapply mkdir_spec; [done|by eapply stores_dir|by eapply entries_ok|by apply Hl]|].
    intros [[r i] info] s'. cbn beta iota. destruct (has_name nm es) eqn:Hh.
    + intros [-> Hu]. apply wp_ret, (steps_weaken _ _ _ (S k)); [lia|].
      eapply steps_same; [by eapply enter_existing|done|done].
    + intros (-> & Hi & Hd & Hr & Hu). apply wp_ret. cbn [OK Z.eqb].
      eapply (steps_new _ _ _ i); [cbn [fs_step]; unfold enter_new; by rewrite Hes, Hh|split; [by rewrite <- Hm|done]|done| |done].
      apply (stores_entered f m p es nm i true); try done. intros ->.
      by rewrite (stores_dir f m p es Hf Hm Hes) in Hi.
  - eapply wp_mono; [eapply mkdir_missing; [done|by eapply stores_missing]|].
    intros [[r i] info] s' [-> Hu]. apply wp_ret, (steps_weaken _ _ _ (S k)); [lia|].
    eapply steps_same; [by apply enter_missing|done|done].
Qed.

Lemma step_lookup f m s p nm k :
  wf_fs f → (∀ i, m !! i = bytes_of f i) → shows (world s) m ∅ k → isdir p = true →
  wp (yfs_step (FLookup p nm)) (steps_to f (FLookup p nm) k) s.
Proof.
  intros Hf Hm Hs Hp. cbn [yfs_step]. apply wp_bind. pose proof (shows_small _ _ _ _ Hs) as Hsm.
  destruct (dirs f !! p) as [es|] eqn:Hes.
  - pose proof (stores_dir f m p es Hf Hm Hes) as Hmp.
    eapply wp_mono; [eapply lookup_spec; [done|done|by eapply entries_ok|by apply (Hsm p)|]|].
    { apply Forall_forall. intros e He. rewrite Hm. by apply (wf_exists f Hf p es). }
    intros [[[[r i] d] fin] din] s' [Hfound Hu]. apply wp_ret.
    eapply steps_same; [|done|done]. cbn [fs_step]. rewrite Hes.
    destruct (find_by _ es) as [[n e]|] eqn:Hfind; [|by subst r].
    destruct Hfound as (-> & -> & -> & Hsz). unfold found. cbn [Z.eqb OK].
    destruct (isdir (inum e)) eqn:Hk; [done|]. apply isdir_isfile in Hk.
    destruct (find_by_elem _ es n e Hfind) as (He & _).
    destruct (wf_exists f Hf p es e Hes He) as [_ [c Hc]].
    rewrite (Hsz Hk c) by by rewrite Hm. rewrite bytes_of_file in Hc by done. by rewrite Hc.
  - eapply wp_mono; [eapply lookup_missing; [done|by eapply stores_missing]|].
    intros [[[[r i] d] fin] din] s' [-> Hu]. apply wp_ret.
    eapply steps_same; [cbn [fs_step]; by rewrite Hes|done|done].
Qed.

Lemma step_readdir f m s p k :
  wf_fs f → (∀ i, m !! i = bytes_of f i) → shows (world s) m ∅ k →
  wp (yfs_step (FReaddir p)) (steps_to f (FReaddir p) k) s.
Proof.
  intros Hf Hm Hs. cbn [yfs_step]. apply wp_bind. pose proof (shows_small _ _ _ _ Hs) as Hsm.
  destruct (isdir p) eqn:Hp.
  - assert (Hk : isfile p = false) by (unfold isdir in Hp; by destruct (isfile p)).
    destruct (dirs f !! p) as [es|] eqn:Hes.
    + pose proof (stores_dir f m p es Hf Hm Hes) as Hmp.
      eapply wp_mono; [eapply readdir_spec; [done|done|done|by eapply entries_ok|by apply (Hsm p)]|].
      intros [r es'] s' (-> & -> & Hu). apply wp_ret. cbn [OK Z.eqb].
      eapply steps_same; [cbn [fs_step]; by rewrite Hk, Hes|done|done].
    + eapply wp_mono; [eapply readdir_missing; [done|done|by eapply stores_missing]|].
      intros [r es'] s' (-> & Hu). apply wp_ret.
      eapply steps_same; [cbn [fs_step]; by rewrite Hk, Hes|done|done].
  - unfold readdir. rewrite Hp. apply wp_ret, wp_ret. apply isdir_isfile in Hp.
    eapply steps_stay; [cbn [fs_step]; by rewrite Hp|done|done].
Qed.

Lemma stores_unlinked f m p n e es :
  wf_fs f → (∀ i, m !! i = bytes_of f i) → isdir p = true → isdir (inum e) = false →
  ∀ i, delete (inum e) (<[p := encode_dir (delete n es)]> m) !! i =
    bytes_of (mkFs (<[p := delete n es]> (dirs f)) (delete (inum e) (files f))) i.
Proof.
  intros Hf Hm Hp Hk i. rewrite bytes_of_insert_dir by done. apply isdir_isfile in Hk.
  assert (Hne : inum e ≠ p) by (intros Heq; unfold isdir in Hp; by rewrite <- Heq, Hk in Hp).
  destruct (decide (i = inum e)) as [->|Hi].
  - rewrite lookup_delete_eq, decide_False, bytes_of_file by done. cbn [files]. by rewrite lookup_delete_eq.
  - rewrite lookup_delete_ne by done. destruct (decide (i = p)) as [->|Hip]; [by rewrite lookup_insert_eq|].
    rewrite lookup_insert_ne, Hm by done. unfold bytes_of. cbn [dirs files]. by rewrite lookup_delete_ne.
Qed.

Lemma step_unlink f m s p nm k :
  wf_fs f → (∀ i, m !! i = bytes_of f i) → shows (world s) m ∅ k → is_Some (dirs f !! p) →
  wp (yfs_step (FUnlink p nm)) (steps_to f (FUnlink p nm) k) s.
Proof.
  intros Hf Hm Hs [es Hes]. cbn [yfs_step]. apply wp_bind.
  pose proof (shows_small _ _ _ _ Hs) as Hsm. pose proof (stores_dir f m p es Hf Hm Hes) as Hmp.
  eapply wp_mono; [eapply unlink_spec; [done|done|by eapply entries_ok|by apply (Hsm p)]|].
  intros r s'. cbn beta. rewrite (has_name_ok f p es nm Hf Hes).
  destruct (find_by _ es) as [[n e]|] eqn:Hfind; [destruct (isdir (inum e)) eqn:Hk|].
  - intros [-> Hu]. apply wp_ret. eapply steps_same; [cbn [fs_step]; by rewrite Hes, Hfind, Hk|done|done].
  - intros [-> Hu]. apply wp_ret.
    eapply (steps_new _ _ _ 0); [cbn [fs_step]; by rewrite Hes, Hfind, Hk|done|done| |done].
    apply stores_unlinked; [done|done|by eapply wf_dirs|done].
  - intros [-> Hu]. apply wp_ret. eapply steps_same; [cbn [fs_step]; by rewrite Hes, Hfind|done|done].
Qed.

Lemma stores_file f m i c :
  (∀ j, m !! j = bytes_of f j) → isfile i = true →
  ∀ j, <[i := c]> m !! j = bytes_of (mkFs (dirs f) (<[i := c]> (files f))) j.
Proof.
  intros Hm Hi j. unfold bytes_of. cbn [dirs files]. destruct (decide (j = i)) as [->|Hne].
  - by rewrite Hi, !lookup_insert_eq.
  - rewrite !lookup_insert_ne, Hm by done. done.
Qed.

(** An operation on a file answers and writes what [g] says. *)
Lemma step_on_file f m i g o k r s' :
  (∀ j, m !! j = bytes_of f j) → isfile i = true →
  (∀ ino, fs_step f ino o = on_file f i g ∧ new_number f o ino) →
  match m !! i with
  | Some c => r = (g c).1 ∧ up s' (<[i := (g c).2]> m) ∅ k
  | None => r = RErr IOERR ∧ up s' m ∅ k
  end →
  steps_to f o k r s'.
Proof.
  intros Hm Hi Ho. pose proof (Hm i) as Hmi. rewrite bytes_of_file in Hmi by done.
  destruct (Ho 0) as [Ho1 Ho2]. unfold on_file in Ho1. rewrite Hmi. destruct (files f !! i) as [c|] eqn:Hc.
  - destruct (g c) as [r' c']. cbn [fst snd]. intros [-> Hu].
    eapply (steps_new _ _ _ 0); [exact Ho1|done|done|by apply stores_file|done].
  - intros [-> Hu]. by eapply steps_same.
Qed.

Lemma up_same s m i c k : up s m ∅ k → m !! i = Some c → up s (<[i := c]> m) ∅ k.
Proof. intros Hu Hi. by rewrite insert_id. Qed.

Lemma step_read f m s i size off k :
  wf_fs f → (∀ i, m !! i = bytes_of f i) → shows (world s) m ∅ k → fop_ok f (FRead i size off) →
  wp (yfs_step (FRead i size off)) (steps_to f (FRead i size off) k) s.
Proof.
  intros Hf Hm Hs (Hi & Hsz & Ho). cbn [yfs_step]. apply wp_bind.
  eapply wp_mono; [by eapply read_spec|]. intros [r b] s' [Hr Hu]. apply wp_ret.
  eapply step_on_file; [done|exact Hi|done|].
  destruct (m !! i) as [c|] eqn:Hc; cbn [fst snd]; [destruct Hr as [-> ->]|by subst r]. split; [done|by apply up_same].
Qed.

Lemma step_write f m s i off buf k :
  wf_fs f → (∀ i, m !! i = bytes_of f i) → shows (world s) m ∅ k → fop_ok f (FWrite i off buf) →
  wp (yfs_step (FWrite i off buf)) (steps_to f (FWrite i off buf) k) s.
Proof.
  intros Hf Hm Hs (Hi & Ho & Hl). cbn [yfs_step]. apply wp_bind.
  eapply wp_mono; [by eapply write_spec|]. intros r s' Hr. apply wp_ret.
  eapply step_on_file; [done|exact Hi|done|].
  destruct (m !! i) as [c|]; cbn [fst snd]; by destruct Hr as [-> ?].
Qed.

Lemma step_truncate f m s i n k :
  wf_fs f → (∀ i, m !! i = bytes_of f i) → shows (world s) m ∅ k → fop_ok f (FTruncate i n) →
  wp (yfs_step (FTruncate i n)) (steps_to f (FTruncate i n) k) s.
Proof.
  intros Hf Hm Hs (Hi & Hn). cbn [yfs_step]. apply wp_bind.
  eapply wp_mono; [by eapply setattr_spec|]. intros [r st] s' Hr. cbn beta iota zeta in Hr. apply wp_ret.
  eapply step_on_file; [done|exact Hi|done|].
  destruct (m !! i) as [c|]; cbn [fst snd]; [|by destruct Hr as [-> ?]].
  destruct Hr as (-> & -> & _ & _ & Hu). done.
Qed.

Lemma step_size f m s i k :
  wf_fs f → (∀ i, m !! i = bytes_of f i) → shows (world s) m ∅ k → isfile i = true →
  wp (yfs_step (FSize i)) (steps_to f (FSize i) k) s.
Proof.
  intros Hf Hm Hs Hi. cbn [yfs_step]. apply wp_bind.
  eapply wp_getfileInfo; [done|set_solver|]. intros s' fin Hu.
  destruct (m !! i) as [c|] eqn:Hc; [intros Hsz|]; apply wp_ret;
    (eapply step_on_file; [done|exact Hi|done|]); rewrite Hc; cbn [fst snd].
  - rewrite Hsz. split; [done|by apply up_same].
  - done.
Qed.

Lemma yfs_step_ok f s o k :
  implements s f (S k) → fop_ok f o → wp (yfs_step o) (steps_to f o k) s.
Proof.
  intros (Hf & m & Hm & Hs) Ho. destruct o.
  - by eapply step_create.
  - by eapply step_mkdir.
  - eapply wp_mono; [by eapply step_lookup|]. intros r s'. apply steps_weaken. lia.
  - eapply wp_mono; [by eapply step_readdir|]. intros r s'. apply steps_weaken. lia.
  - eapply wp_mono; [by eapply step_unlink|]. intros r s'. apply steps_weaken. lia.
  - eapply wp_mono; [by eapply step_read|]. intros r s'. apply steps_weaken. lia.
  - eapply wp_mono; [by eapply step_write|]. intros r s'. apply steps_weaken. lia.
  - eapply wp_mono; [by eapply step_truncate|]. intros r s'. apply steps_weaken. lia.
  - eapply wp_mono; [by eapply step_size|]. intros r s'. apply steps_weaken. lia.
Qed.

End refinement.

(** C1: The client implements the file system.  Over any backend that keeps its
    laws, from a state whose extents are a well-formed file system, with no
    lock held and at least one number left for new objects: every operation
    returns; its answer and the file system it leaves are those of the abstract
    operation (for a number that is new and of the right kind, when it creates
    an object); the file system is again well formed (names unique in a
    directory, no dangling entry, no object linked twice), and no lock is held. *)
Theorem yfs_implements_fs {W} `{BackendLaws W} (j : junk) (s : yfs_client.t W) (f : fs) o k :
  implements s f (S k) → fop_ok f o →
  ∃ ino r f' s' k',
    yfs_step j o s = Done (r, s') ∧ fs_step f ino o = (r, f') ∧ (f' = f ∨ new_number f o ino) ∧
    implements s' f' k' ∧ (k ≤ k')%nat.
Proof.
  intros Hi Ho. destruct (yfs_step_ok j f s o k Hi Ho) as (r & s' & Hs & ino & f' & k' & Hf & Hn & Hk & Hsh).
  exists ino, r, f', s', k'. split; [done|]. split; [done|]. split; [done|]. split; [|done]. split; [|done].
  destruct Hn as [-> |Hn]; [apply Hi|]. pose proof (fs_step_wf f ino o (proj1 Hi) Ho Hn) as Hwf. by rewrite Hf in Hwf.
Qed.

(** A client that is not connected yet, of a server with an empty root
    directory; the master has given the numbers 0 and 1. *)
Definition fresh_client : yfs_client.t (side served) :=
  mk false (mkSide (extent_client_cache.mk ∅ (mkServed (extent_server.make 4) 5)) [] (bs "127.0.0.1:3772") ∅ 6 2).
Definition no_junk : junk := mkJunk 0 false (mkFile 0 0 0 0) (mkDir 0 0 0) (mkStat 0 0 0 0 0 0) (mkAttr 0 0 0 0).
Definition root_only : fs := mkFs {[1 := []]} ∅.

Lemma root_only_wf : wf_fs root_only.
Proof.
  split; cbn [root_only dirs files].
  - intros i es [<- <-]%lookup_singleton_Some. done.
  - intros i c. by rewrite lookup_empty.
  - intros p es [<- <-]%lookup_singleton_Some. done.
  - intros p es [<- <-]%lookup_singleton_Some. apply NoDup_nil_2.
  - intros p es e [<- <-]%lookup_singleton_Some []%elem_of_nil.
  - intros p es e p' es' e' [<- <-]%lookup_singleton_Some ? []%elem_of_nil.
Qed.

Lemma fresh_client_implements : implements fresh_client root_only 4.
Proof.
  split; [apply root_only_wf|]. exists {[1 := []]}. split.
  - intros i. unfold bytes_of, root_only. cbn [dirs files].
    destruct (decide (i = 1)) as [->|Hi]; [by rewrite !lookup_singleton_eq|].
    rewrite !lookup_singleton_ne, lookup_empty by done. by destruct (isfile i).
  - split_and!; [|by apply map_Forall_singleton|done|done|done|].
    + assert (Hv : view (mkServed (extent_server.make 4) 5) = {[1 := []]}) by (vm_compute; reflexivity).
      rewrite <- Hv. apply (empty_represents (mkServed (extent_server.make 4) 5)). by apply (bool_decide_unpack _); vm_compute.
    + apply map_Forall_singleton. exists 1, true. by split; [cbn; lia|].
Qed.

Lemma yfs_implements_fs_witness :
  ∃ ino r f' s' k',
    yfs_step no_junk (FCreate 1 (bs "notes")) fresh_client = Done (r, s') ∧
    fs_step root_only ino (FCreate 1 (bs "notes")) = (r, f') ∧
    (f' = root_only ∨ new_number root_only (FCreate 1 (bs "notes")) ino) ∧
    implements s' f' k' ∧ (3 ≤ k')%nat.
Proof.
  apply (yfs_implements_fs no_junk fresh_client root_only (FCreate 1 (bs "notes")) 3).
  - apply fresh_client_implements.
  - split; [reflexivity|]. split; [split; reflexivity|]. intros es [= <-]. vm_compute. reflexivity.
Defined.

(** [unlink] in a directory that does not exist fails with the lock of the
    directory held, where [create] in the same directory fails with no lock
    held. *)
Theorem unlink_keeps_lock {W} `{BackendLaws W} (s : yfs_client.t W) m k p nm :
  shows (world s) m ∅ k → m !! p = None →
  (∃ s', unlink p nm s = Done (IOERR, s') ∧ shows (world s') m {[p]} k) ∧
  (∃ id info s', create p nm 0 (mkFile 0 0 0 0) s = Done (IOERR, id, info, s') ∧ shows (world s') m ∅ k).
Proof.
  intros Hs Hp. split.
  - destruct (unlink_missing s m k p nm Hs Hp) as (r & s' & Hr & -> & Hu). exists s'. split; [done|]. by eapply up_shows.
  - destruct (create_missing s m k p nm 0 (mkFile 0 0 0 0) Hs Hp) as ([[r id] info] & s' & Hr & -> & Hu).
    exists id, info, s'. split; [done|]. by eapply up_shows.
Qed.

Lemma unlink_keeps_lock_witness :
  (∃ s', unlink 7 (bs "a") fresh_client = Done (IOERR, s') ∧ shows (world s') {[1 := []]} {[7]} 4) ∧
  (∃ id info s', create 7 (bs "a") 0 (mkFile 0 0 0 0) fresh_client = Done (IOERR, id, info, s') ∧
    shows (world s') {[1 := []]} ∅ 4).
Proof.
  apply (unlink_keeps_lock fresh_client {[1 := []]} 4 7 (bs "a")); [|reflexivity].
  destruct fresh_client_implements as (_ & m & Hm & Hs).
  replace {[1 := []]} with m; [exact Hs|]. apply map_eq. intros i. rewrite Hm.
  unfold bytes_of, root_only. cbn [dirs files].
  destruct (decide (i = 1)) as [->|Hi]; [by rewrite !lookup_singleton_eq|].
  rewrite !lookup_singleton_ne, lookup_empty by done. by destruct (isfile i).
Defined.

(** Offsets of 4 GiB and more are cut to 32 bits when the client chooses
    what to do, not when it does it: on a content shorter than that, reading
    there either returns nothing or leaves the content behind, and writing
    there either lands at the remainder of the offset or is undefined. *)
Theorem large_offsets_wrap c size off buf :
  zlen c < 2 ^ 32 → 0 ≤ size < 2 ^ 63 → 2 ^ 32 ≤ off < 2 ^ 63 - 2 ^ 32 → zlen buf < 2 ^ 32 →
  read_range c size off = (if zlen c <=? wrap32 off then Done [] else Undef) ∧
  write_range c (zlen buf) off buf =
    (if zlen c <=? wrap32 off then Done (write_at c (wrap32 off) buf) else Undef).
Proof.
  intros Hc Hs Ho Hb. pose proof (wrap_range 32 off ltac:(lia)) as Hw. split.
  - unfold read_range. destruct (Z.leb_spec (zlen c) (wrap32 off)); [done|].
    assert (Hwr : wrap64 (zlen c - off) = zlen c - off + 2 ^ 64).
    { unfold wrap. symmetry. apply (Z.mod_unique _ _ (-1)); lia. }
    rewrite Hwr. test_false. test_true. test_false. done.
  - unfold write_range. cbv zeta. rewrite !(wrap_small 32 (zlen c)) by lia.
    destruct (Z.leb_spec (zlen c) (wrap32 off)).
    + rewrite wrap_small by lia. unfold write_at. by rewrite take_ge, drop_ge, app_nil_r by lia.
    + test_true. test_false. done.
Qed.

Lemma large_offsets_wrap_witness :
  read_range (bs "abc") 4 (2 ^ 32 + 1) = (if zlen (bs "abc") <=? wrap32 (2 ^ 32 + 1) then Done [] else Undef) ∧
  write_range (bs "abc") (zlen (bs "xy")) (2 ^ 32 + 1) (bs "xy") =
    (if zlen (bs "abc") <=? wrap32 (2 ^ 32 + 1)
     then Done (write_at (bs "abc") (wrap32 (2 ^ 32 + 1)) (bs "xy")) else Undef).
Proof. apply (large_offsets_wrap (bs "abc") 4 (2 ^ 32 + 1) (bs "xy")); cbn; lia. Defined.
