(* ===== verification/Fuse.v ===== *)
(** * The FUSE server (src/client/fuse.cc)

    The handlers the kernel's requests go to: each calls one operation of the
    file system client and turns its status into a reply.  The layout of
    directory entries is libfuse's, and an interface here.  [main], which mounts
    and runs the loop of libfuse, is not modelled, nor is what is printed. *)

From S2P Require Import Prelude StdContainers LockServer ExtentServer ExtentCache YfsClient FsBackend FileSystem.
Import yfs_client.

(** ** What libfuse provides *)

(** The bit of [to_set] for the size, the space an entry takes for the length
    of its name, and the bytes [fuse_add_dirent] writes for a name, a number
    and the position behind the entry. *)
Class Fuse : Type := {
  FUSE_SET_ATTR_SIZE : Z;
  fuse_dirent_size : Z → Z;
  fuse_add_dirent : bytes → Z → Z → bytes;
}.

(** ** Requests and replies *)

Definition ENOENT : Z := 2.
Definition EEXIST : Z := 17.
Definition ENOTDIR : Z := 20.
Definition ENOSYS : Z := 38.

(** [S_IFDIR | 0777] *)
Definition DIRECTORY : Z := Z.lor 16384 511.

(** [struct stat] and [fuse_entry_param] with the fields the server sets. *)
Record attributes : Type := mkAttrs { st_ino : Z; st : stat }.
Record fuse_entry_param : Type := mkParam {
  e_ino : Z; e_attr : attributes; generation : Z; attr_timeout : Z; entry_timeout : Z }.

Inductive request : Type :=
  | getattr_req (ino : Z)
  | setattr_req (ino : Z) (want : stat) (to_set : Z)
  | read_req (ino size off : Z)
  | write_req (ino : Z) (buf : bytes) (off : Z)
  | create_req (parent : Z) (nm : bytes)
  | mknod_req (parent : Z) (nm : bytes)
  | lookup_req (parent : Z) (nm : bytes)
  | readdir_req (ino size off : Z)
  | open_req (ino : Z)
  | mkdir_req (parent : Z) (nm : bytes)
  | unlink_req (parent : Z) (nm : bytes)
  | statfs_req.

Inductive reply : Type :=
  | fuse_reply_err (e : Z)
  | fuse_reply_attr (a : attributes)
  | fuse_reply_entry (e : fuse_entry_param)
  | fuse_reply_create (e : fuse_entry_param)
  | fuse_reply_buf (b : bytes)
  | fuse_reply_write (n : Z)
  | fuse_reply_open
  | fuse_reply_statfs (namemax bsize : Z).

(** ** Directory listings *)

Section listing.
Context `{Fuse}.

(** A [dirbuf] is its bytes. *)
Definition dirbuf_add (b : bytes) (nm : bytes) (ino : Z) : bytes :=
  let size := zlen b + fuse_dirent_size (zlen (c_str nm)) in
  b ++ fuse_add_dirent (c_str nm) ino size.

Definition dirbuf_of (es : list dirent) : bytes :=
  foldl (λ b e, dirbuf_add b (name e) (inum e)) [] es.

Definition reply_buf_limited (buf : bytes) (off maxsize : Z) : reply :=
  if wrap64 off <? zlen buf
  then fuse_reply_buf (take (Z.to_nat (Z.min (zlen buf - off) maxsize)) (drop (Z.to_nat off) buf))
  else fuse_reply_buf [].

End listing.

(** ** The handlers *)

Module fuseserver.
Section server.
Context {W : Type} `{Backend W, Fuse}.

#[local] Abbreviation M := (yfs_client.M (W:=W)).

(** What uninitialised variables hold; [je] is an entry parameter. *)
Context (jk : junk) (je : fuse_entry_param).

Definition err (e : Z) : M reply := mret (fuse_reply_err e).

Definition attr_of_file (info : fileinfo) : stat :=
  mkStat REGULAR 1 (f_atime info) (f_mtime info) (f_ctime info) (f_size info).

(** The size of a directory is whatever the structure held. *)
Definition attr_of_dir (nlink size : Z) (info : dirinfo) : stat :=
  mkStat DIRECTORY nlink (d_atime info) (d_mtime info) (d_ctime info) size.

(** [e] with the number and the attributes; [e.attr.st_ino] is not set. *)
Definition entry (ino : Z) (a : stat) : fuse_entry_param := mkParam ino (mkAttrs (st_ino (e_attr je)) a) 0 0 0.

Definition getattr_ (inum : Z) : M (Z * attributes) :=
  let zero := mkAttrs inum (mkStat 0 0 0 0 0 0) in
  if isfile inum then
    '(ret, info) ← getfileInfo inum (j_fin jk);
    if negb (ret =? OK) then mret (ret, zero) else mret (OK, mkAttrs inum (attr_of_file info))
  else
    '(ret, info) ← getdirInfo inum (j_din jk);
    if negb (ret =? OK) then mret (ret, zero) else mret (OK, mkAttrs inum (attr_of_dir 2 0 info)).

Definition getattr (ino : Z) : M reply :=
  '(ret, st) ← getattr_ ino;
  if negb (ret =? OK) then err ENOENT else mret (fuse_reply_attr st).

Definition setattr (ino : Z) (want : stat) (to_set : Z) : M reply :=
  if negb (Z.land FUSE_SET_ATTR_SIZE to_set =? 0) then
    _ ← pure (ensure (isfile ino));
    '(ret, st) ← yfs_client.setattr (j_attr jk) ino want (j_stat jk);
    if negb (ret =? OK) then err ENOSYS else mret (fuse_reply_attr (mkAttrs (st_ino (e_attr je)) st))
  else err ENOSYS.

Definition read (ino size off : Z) : M reply :=
  if off <? 0 then err ENOSYS
  else
    _ ← pure (ensure (isfile ino));
    '(ret, buf) ← yfs_client.read ino size off;
    if negb (ret =? OK) then (if ret =? NOENT then err ENOENT else err ENOSYS)
    else mret (fuse_reply_buf buf).

Definition write (ino : Z) (buf : bytes) (off : Z) : M reply :=
  if off <? 0 then err ENOSYS
  else
    _ ← pure (ensure (isfile ino));
    ret ← yfs_client.write ino (zlen buf) off buf;
    if negb (ret =? OK) then err ENOSYS else mret (fuse_reply_write (zlen buf)).

Definition createhelper (parent : Z) (nm : bytes) : M (Z * fuse_entry_param) :=
  '(ret, inum, info) ← yfs_client.create parent nm (j_inum jk) (j_fin jk);
  if negb (ret =? OK) then mret (ret, je) else mret (ret, entry inum (attr_of_file info)).

Definition create_or (ok : fuse_entry_param → reply) (parent : Z) (nm : bytes) : M reply :=
  '(ret, e) ← createhelper parent nm;
  if ret =? OK then mret (ok e)
  else if ret =? EXIST then err EEXIST else err ENOENT.

Definition create : Z → bytes → M reply := create_or fuse_reply_create.
Definition mknod : Z → bytes → M reply := create_or fuse_reply_entry.

Definition lookup (parent : Z) (nm : bytes) : M reply :=
  '(ret, inum, is_dir, finfo, dinfo) ← yfs_client.lookup parent nm (j_inum jk) (j_is_dir jk) (j_fin jk) (j_din jk);
  if negb (ret =? OK) then (if ret =? NOENT then err ENOENT else err ENOSYS)
  else
    mret (fuse_reply_entry (entry inum
      (if is_dir : bool then attr_of_dir 2 (st_size (st (e_attr je))) dinfo else attr_of_file finfo))).

Definition readdir (inum size off : Z) : M reply :=
  '(ret, files) ← yfs_client.readdir inum [];
  if negb (ret =? OK) then (if ret =? NOTDIR then err ENOTDIR else err ENOSYS)
  else mret (reply_buf_limited (dirbuf_of files) off size).

Definition mkdir (parent : Z) (nm : bytes) : M reply :=
  '(ret, inum, info) ← yfs_client.mkdir parent nm (j_inum jk) (j_din jk);
  if negb (ret =? OK) then (if ret =? EXIST then err EEXIST else err ENOSYS)
  else mret (fuse_reply_entry (entry inum (attr_of_dir 1 (st_size (st (e_attr je))) info))).

Definition unlink (parent : Z) (nm : bytes) : M reply :=
  ret ← yfs_client.unlink parent nm;
  if negb (ret =? OK) then (if ret =? NOENT then err ENOENT else err ENOSYS) else err 0.

(** [fuseserver_oper] *)
Definition oper (q : request) : M reply :=
  match q with
  | getattr_req ino => getattr ino
  | setattr_req ino want to_set => setattr ino want to_set
  | read_req ino size off => read ino size off
  | write_req ino buf off => write ino buf off
  | create_req parent nm => create parent nm
  | mknod_req parent nm => mknod parent nm
  | lookup_req parent nm => lookup parent nm
  | readdir_req ino size off => readdir ino size off
  | open_req _ => mret fuse_reply_open
  | mkdir_req parent nm => mkdir parent nm
  | unlink_req parent nm => unlink parent nm
  | statfs_req => mret (fuse_reply_statfs 255 512)
  end.

End server.
End fuseserver.

(** ** What the server promises *)

(** A reply without the times, and without the fields that hold nothing: the
    number in the attributes of an entry, the size of a directory. *)
Inductive answer : Type :=
  | AErr (e : Z)
  | AAttr (mode nlink size : Z)
  | AEntry (ino mode nlink size : Z)
  | AData (b : bytes)
  | ACount (n : Z)
  | AOpen
  | AStatfs (namemax bsize : Z).

Definition shown (a : stat) : Z := if st_mode a =? DIRECTORY then 0 else st_size a.

Definition as_answer (p : reply) : answer :=
  match p with
  | fuse_reply_err e => AErr e
  | fuse_reply_attr a => AAttr (st_mode (st a)) (st_nlink (st a)) (shown (st a))
  | fuse_reply_entry e | fuse_reply_create e =>
      let a := st (e_attr e) in AEntry (e_ino e) (st_mode a) (st_nlink a) (shown a)
  | fuse_reply_buf b => AData b
  | fuse_reply_write n => ACount n
  | fuse_reply_open => AOpen
  | fuse_reply_statfs n b => AStatfs n b
  end.

Section promise.
Context `{Fuse}.

(** The operation of the file system a request stands for. *)
Definition meaning (q : request) : option fop :=
  match q with
  | getattr_req ino => if isfile ino then Some (FSize ino) else None
  | setattr_req ino want to_set =>
      if Z.land FUSE_SET_ATTR_SIZE to_set =? 0 then None else Some (FTruncate ino (st_size want))
  | read_req ino size off => if off <? 0 then None else Some (FRead ino size off)
  | write_req ino buf off => if off <? 0 then None else Some (FWrite ino off buf)
  | create_req p nm | mknod_req p nm => Some (FCreate p nm)
  | lookup_req p nm => Some (FLookup p nm)
  | readdir_req ino _ _ => Some (FReaddir ino)
  | mkdir_req p nm => Some (FMkdir p nm)
  | unlink_req p nm => Some (FUnlink p nm)
  | open_req _ | statfs_req => None
  end.

(** The error a request gets for a status of the client. *)
Definition errno_of (q : request) (st : Z) : Z :=
  match q with
  | getattr_req _ => ENOENT
  | read_req _ _ _ | lookup_req _ _ | unlink_req _ _ => if st =? NOENT then ENOENT else ENOSYS
  | create_req _ _ | mknod_req _ _ => if st =? EXIST then EEXIST else ENOENT
  | mkdir_req _ _ => if st =? EXIST then EEXIST else ENOSYS
  | readdir_req _ _ _ => if st =? NOTDIR then ENOTDIR else ENOSYS
  | _ => ENOSYS
  end.

(** The answer to a request, from the answer of its operation. *)
Definition answer_of (q : request) (r : freply) : answer :=
  match r with
  | RErr st => AErr (errno_of q st)
  | ROk => match q with write_req _ buf _ => ACount (zlen buf) | _ => AErr 0 end
  | RFile i n => AEntry i REGULAR 1 n
  | RDir i => AEntry i DIRECTORY (match q with mkdir_req _ _ => 1 | _ => 2 end) 0
  | REntries es =>
      match q with
      | readdir_req _ size off => as_answer (reply_buf_limited (dirbuf_of es) off size)
      | _ => AErr 0
      end
  | RData b => AData b
  | RLength n => AAttr REGULAR 1 n
  end.

(** The answer to a request that stands for no operation. *)
Definition answer_at_once (f : fs) (q : request) : answer :=
  match q with
  | getattr_req ino =>
      match dirs f !! ino with Some _ => AAttr DIRECTORY 2 0 | None => AErr ENOENT end
  | open_req _ => AOpen
  | statfs_req => AStatfs 255 512
  | _ => AErr ENOSYS
  end.

Definition fuse_step (f : fs) (ino : Z) (q : request) : answer * fs :=
  match meaning q with
  | Some o => let '(r, f') := fs_step f ino o in (answer_of q r, f')
  | None => (answer_at_once f q, f)
  end.

(** Requests the kernel makes: numbers of the right kind, as [fop_ok] says. *)
Definition request_ok (f : fs) (q : request) : Prop := from_option (fop_ok f) True (meaning q).

End promise.

Section serving.
Context {W : Type} `{BackendLaws W, !Fuse}.
Context (jk : junk) (je : fuse_entry_param).
Implicit Types (s : yfs_client.t W) (f : fs) (q : request) (k : nat).

(** The outcome of a request: the answer and the file system are those promised. *)
Definition serves f q k (p : reply) s' : Prop :=
  ∃ ino f' k', fuse_step f ino q = (as_answer p, f') ∧
    (f' = f ∨ ∃ o, meaning q = Some o ∧ new_number f o ino) ∧ (k ≤ k')%nat ∧ shows_fs (world s') f' k'.

Lemma serves_step f q o k r p s' :
  meaning q = Some o → steps_to f o k r s' → as_answer p = answer_of q r → serves f q k p s'.
Proof.
  intros Hq (ino & f' & k' & Hf & Hn & Hk & Hs) Hp. exists ino, f', k'. split_and!; [|naive_solver|done|done].
  unfold fuse_step. by rewrite Hq, Hf, Hp.
Qed.

(** A handler does with the result of an operation what [yfs_step] leaves to it. *)
Lemma wp_yfs {A B C} (x : yfs_client.M A) (g : A → yfs_client.M C) (h : A → yfs_client.M B) Q
    (Q' : B → yfs_client.t W → Prop) s :
  wp (x ≫= g) Q s → (∀ a s', wp (g a) Q s' → wp (h a) Q' s') → wp (x ≫= h) Q' s.
Proof.
  intros (r & s' & Hx & HQ) Hh. unfold mbind, M_bind in Hx.
  destruct (x s) as [[a s1]| | |] eqn:Ha; try done. apply wp_bind. exists a, s1. split; [done|].
  apply Hh. by exists r, s'.
Qed.

Lemma wp_ret_inv {A} (a : A) (Q : A → yfs_client.t W → Prop) s : wp (mret a) Q s → Q a s.
Proof. by intros (? & ? & [= <- <-] & HQ). Qed.

Lemma errno_shown q st : as_answer (fuse_reply_err (errno_of q st)) = answer_of q (RErr st).
Proof. done. Qed.

(** Run the operation of a handler: [Ho] says what it does. *)
Ltac run Ho :=
  eapply wp_yfs; [first [exact (Ho _ eq_refl)|match goal with Hm : meaning _ = Some _ |- _ => exact (Ho _ Hm) end]|].

(** The handler's reply [p] for the answer in [Hr]. *)
Ltac reply Hr := apply wp_ret; eapply serves_step; [first [reflexivity|eassumption]|exact Hr|reflexivity].

(** Split on the status [r] of the operation, and reply. *)
Ltac on_status r Hr :=
  apply wp_ret_inv in Hr; unfold fuseserver.err; destruct (Z.eqb_spec r OK) as [->|?]; cbn [negb];
  [reply Hr
  |repeat match goal with |- context [r =? ?x] => let E := fresh "E" in destruct (r =? x) eqn:E end;
   apply wp_ret; (eapply serves_step; [first [reflexivity|eassumption]|exact Hr|]);
   cbn [as_answer answer_of errno_of]; repeat match goal with E : (r =? _) = _ |- _ => rewrite E end; reflexivity].

(** [setattr] replies with the attributes of a file. *)
Lemma fuse_setattr_ok f q s k i want to_set (Hq : q = setattr_req i want to_set) :
  implements s f (S k) → meaning q = Some (FTruncate i (st_size want)) → fop_ok f (FTruncate i (st_size want)) →
  wp (fuseserver.setattr jk je i want to_set) (serves f q k) s.
Proof.
  intros Hi Hm Hok. unfold fuseserver.setattr. subst q. pose proof Hm as Hbit. cbn [meaning] in Hbit.
  destruct (Z.land FUSE_SET_ATTR_SIZE to_set =? 0); [done|]. cbn [negb].
  destruct Hok as [Hfile Hsz]. apply wp_bind. eapply wp_pure; [by rewrite Hfile|].
  apply wp_bind. destruct Hi as (Hf & m & Hfm & Hs).
  pose proof (setattr_spec s m (S k) (j_attr jk) i (mkStat 0 0 0 0 0 (st_size want)) (j_stat jk) Hs Hsz) as Hat.
  pose proof (yfs_step_ok jk f s (FTruncate i (st_size want)) k) as Hst.
  specialize (Hst ltac:(split; [done|by exists m]) (conj Hfile Hsz)). cbn [yfs_step] in Hst.
  assert (Hst' : wp (yfs_client.setattr (j_attr jk) i (mkStat 0 0 0 0 0 (st_size want)) (j_stat jk))
    (λ '(r, st) s', steps_to f (FTruncate i (st_size want)) k (if r =? OK then RLength (st_size st) else RErr r) s') s).
  { destruct Hst as (r & s' & Hx & HQ). unfold mbind, M_bind in Hx.
    destruct (yfs_client.setattr _ _ _ _ s) as [[[r1 st1] s1]| | |] eqn:Ha; try done. injection Hx as <- <-. by exists (r1, st1), s1. }
  eapply wp_mono; [exact (wp_and _ _ _ _ Hat Hst')|]. clear Hat Hst Hst'. intros [r stt] s' [Hr Hst].
  destruct (m !! i) as [c|].
  - destruct Hr as (-> & Hsize & Hmode & Hlink & _). cbn [negb Z.eqb OK]. apply wp_ret.
    eapply serves_step; [exact Hm|exact Hst|]. cbn [as_answer answer_of st]. unfold shown. by rewrite Hmode, Hlink.
  - destruct Hr as [-> _]. cbn [negb Z.eqb OK IOERR]. apply wp_ret. by eapply serves_step; [exact Hm|exact Hst|].
Qed.

(** [create] and [mknod] differ in how they reply. *)
Lemma create_ok f q s k p nm ok :
  wp (yfs_step jk (FCreate p nm)) (steps_to f (FCreate p nm) k) s →
  meaning q = Some (FCreate p nm) → errno_of q = (λ st, if st =? EXIST then EEXIST else ENOENT) →
  (∀ e, as_answer (ok e) = as_answer (fuse_reply_entry e)) →
  wp (fuseserver.create_or jk je ok p nm) (serves f q k) s.
Proof.
  intros Ho Hm He Hok. apply wp_bind. eapply wp_yfs; [exact Ho|]. intros [[r i] fin] s' Hr%wp_ret_inv.
  destruct (Z.eqb_spec r OK) as [->|?]; cbn [negb]; apply wp_ret; cbn beta iota.
  - apply wp_ret. eapply serves_step; [exact Hm|exact Hr|by rewrite Hok].
  - rewrite (proj2 (Z.eqb_neq _ _)) by done. unfold fuseserver.err.
    destruct (r =? EXIST) eqn:E; apply wp_ret; (eapply serves_step; [exact Hm|exact Hr|]);
      cbn [as_answer answer_of]; by rewrite He, E.
Qed.

(** [getattr] of a directory stands for no operation of the file system. *)
Lemma fuse_getattr_ok f s k i :
  implements s f (S k) → (∀ o, meaning (getattr_req i) = Some o → wp (yfs_step jk o) (steps_to f o k) s) →
  wp (fuseserver.getattr jk i) (serves f (getattr_req i) k) s.
Proof.
  intros Hi Ho. unfold fuseserver.getattr, fuseserver.getattr_. apply wp_bind.
  destruct (isfile i) eqn:Hk.
  - assert (Hm : meaning (getattr_req i) = Some (FSize i)) by (cbn [meaning]; by rewrite Hk).
    run Ho. intros [r fin] s' Hr. apply wp_ret_inv in Hr.
    destruct (Z.eqb_spec r OK) as [->|?]; cbn [negb]; apply wp_ret; cbn beta iota.
    + reply Hr.
    + rewrite (proj2 (Z.eqb_neq _ _)) by done. cbn [negb]. reply Hr.
  - destruct Hi as (Hf & m & Hm & Hs). apply wp_bind. eapply wp_getdirInfo; [done|set_solver|].
    intros s' din [_ Hu]. pose proof (Hm i) as Hmi. rewrite bytes_of_dir in Hmi by (unfold isdir; by rewrite Hk).
    assert (Hsf : ∀ p, as_answer p = answer_at_once f (getattr_req i) → serves f (getattr_req i) k p s').
    { intros p Hp. exists 0, f, (S k). split_and!; [unfold fuse_step; cbn [meaning]; by rewrite Hk, Hp|by left|lia|by exists m]. }
    rewrite Hmi. destruct (dirs f !! i) as [es|] eqn:Hes; cbn [fmap option_fmap option_map];
      apply wp_ret; cbn [negb Z.eqb OK IOERR]; apply wp_ret; apply Hsf; cbn [answer_at_once]; by rewrite Hes.
Qed.

Lemma oper_ok f q s k :
  implements s f (S k) → request_ok f q → wp (fuseserver.oper jk je q) (serves f q k) s.
Proof.
  intros Hi Hq. unfold request_ok in Hq.
  assert (Ho : ∀ o, meaning q = Some o → wp (yfs_step jk o) (steps_to f o k) s).
  { intros o Ho. rewrite Ho in Hq. by apply yfs_step_ok. }
  assert (Hnone : meaning q = None → ∀ p, as_answer p = answer_at_once f q → serves f q k p s).
  { intros Hn p Hp. exists 0, f, (S k). split_and!; [unfold fuse_step; by rewrite Hn, Hp|by left|lia|apply Hi]. }
  destruct q; cbn [fuseserver.oper].
  - by apply fuse_getattr_ok.
  - destruct (Z.land FUSE_SET_ATTR_SIZE to_set =? 0) eqn:Hbit.
    + unfold fuseserver.setattr. rewrite Hbit. apply wp_ret, Hnone; [|done]. cbn [meaning]. by rewrite Hbit.
    + assert (Hm : meaning (setattr_req ino want to_set) = Some (FTruncate ino (st_size want))) by (cbn [meaning]; by rewrite Hbit).
      rewrite Hm in Hq. by eapply fuse_setattr_ok.
  - unfold fuseserver.read. destruct (off <? 0) eqn:Hoff; [apply wp_ret, Hnone; [cbn [meaning]; by rewrite Hoff|done]|].
    assert (Hm : meaning (read_req ino size off) = Some (FRead ino size off)) by (cbn [meaning]; by rewrite Hoff).
    rewrite Hm in Hq. apply wp_bind. eapply wp_pure; [by rewrite (proj1 Hq)|].
    run Ho. intros [r b] s' Hr. on_status r Hr.
  - unfold fuseserver.write. destruct (off <? 0) eqn:Hoff; [apply wp_ret, Hnone; [cbn [meaning]; by rewrite Hoff|done]|].
    assert (Hm : meaning (write_req ino buf off) = Some (FWrite ino off buf)) by (cbn [meaning]; by rewrite Hoff).
    rewrite Hm in Hq. apply wp_bind. eapply wp_pure; [by rewrite (proj1 Hq)|].
    run Ho. intros r s' Hr. on_status r Hr.
  - by apply create_ok; [apply Ho|..].
  - by apply create_ok; [apply Ho|..].
  - run Ho. intros [[[[r i] d] fin] din] s' Hr. unfold found in Hr. destruct d; on_status r Hr.
  - run Ho. intros [r es] s' Hr. on_status r Hr.
  - apply wp_ret. by apply Hnone.
  - run Ho. intros [[r i] din] s' Hr. on_status r Hr.
  - run Ho. intros r s' Hr. on_status r Hr.
  - apply wp_ret. by apply Hnone.
Qed.
End serving.

(** ** Reading a directory in pieces *)

(** The kernel's side of libfuse's layout: [next_dirent] takes the first entry
    off a reply, if it is there as a whole.  Names are those the kernel
    accepts. *)
Definition name_fits (nm : bytes) : Prop := 0 < zlen nm ≤ 1024.

Class FuseLaws `{Fuse} : Type := {
  next_dirent : bytes → option (bytes * Z * Z * bytes);
  dirent_length nm ino off : name_fits nm → zlen (fuse_add_dirent nm ino off) = fuse_dirent_size (zlen nm);
  dirent_size_pos nm : name_fits nm → 0 < fuse_dirent_size (zlen nm);
  next_whole nm ino off rest : name_fits nm → 0 ≤ ino < 2 ^ 64 → 0 ≤ off < 2 ^ 63 →
    next_dirent (fuse_add_dirent nm ino off ++ rest) = Some (nm, ino, off, rest);
  next_part nm ino off n : name_fits nm → (n < length (fuse_add_dirent nm ino off))%nat →
    next_dirent (take n (fuse_add_dirent nm ino off)) = None;
}.

Section paging.
Context `{FuseLaws}.
Implicit Types (es : list dirent) (b : bytes).

Definition listed (e : dirent) : Prop := c_str (name e) = name e ∧ name_fits (name e) ∧ 0 ≤ inum e < 2 ^ 64.
Definition pair_of (e : dirent) : bytes * Z := (name e, inum e).

Definition space (e : dirent) : Z := fuse_dirent_size (zlen (name e)).
Fixpoint total es : Z := match es with [] => 0 | e :: es => space e + total es end.

(** The entries of a reply, and the position behind the last of them. *)
Fixpoint parse (fuel : nat) (b : bytes) (pos : Z) : list (bytes * Z) * Z :=
  match fuel with
  | O => ([], pos)
  | S fuel =>
      match next_dirent b with
      | None => ([], pos)
      | Some (nm, ino, off, rest) => let '(l, pos) := parse fuel rest off in ((nm, ino) :: l, pos)
      end
  end.

(** The buffer from position [n] on. *)
Fixpoint encode (n : Z) es : bytes :=
  match es with
  | [] => []
  | e :: es => fuse_add_dirent (name e) (inum e) (n + space e) ++ encode (n + space e) es
  end.

Lemma space_pos e : listed e → 0 < space e.
Proof. intros (_ & Hf & _). by apply dirent_size_pos. Qed.

Lemma total_app es es' : total (es ++ es') = total es + total es'.
Proof. induction es as [|e es IH]; [done|]. cbn [app total]. lia. Qed.

Lemma total_nonneg es : Forall listed es → 0 ≤ total es.
Proof. induction 1 as [|e es He _ IH]; [done|]. cbn [total]. pose proof (space_pos e He). lia. Qed.

Lemma length_encode n es : Forall listed es → zlen (encode n es) = total es.
Proof.
  intros Hes. revert n. induction Hes as [|e es (_ & Hf & _) _ IH]; intros n; [done|].
  cbn [encode total]. rewrite length_app, Nat2Z.inj_add, IH, dirent_length by done. done.
Qed.

Lemma encode_app n es es' : encode n (es ++ es') = encode n es ++ encode (n + total es) es'.
Proof.
  revert n. induction es as [|e es IH]; intros n; cbn [app encode total]; [by rewrite Z.add_0_r|].
  rewrite IH, <- app_assoc. by rewrite Z.add_assoc.
Qed.

Lemma next_nothing : next_dirent [] = None.
Proof.
  pose proof (dirent_length (bs "a") 0 0) as Hl. pose proof (dirent_size_pos (bs "a")) as Hp.
  rewrite <- (next_part (bs "a") 0 0 0); [done|by split|].
  assert (name_fits (bs "a")) by by split. specialize (Hl ltac:(done)). specialize (Hp ltac:(done)). lia.
Qed.

Lemma dirbuf_encode es : Forall listed es → dirbuf_of es = encode 0 es.
Proof.
  unfold dirbuf_of. change (encode 0 es) with ([] ++ encode (zlen (@nil byte)) es). generalize (@nil byte).
  intros b Hes. revert b. induction Hes as [|e es (Hc & Hf & _) _ IH]; intros b; cbn [foldl encode]; [by rewrite app_nil_r|].
  rewrite IH. unfold dirbuf_add. rewrite Hc. fold (space e). cbv zeta.
  rewrite length_app, Nat2Z.inj_add, dirent_length by done. fold (space e). by rewrite <- app_assoc.
Qed.

(** A piece of the buffer from an entry on gives the entries that are whole in
    it, and the position behind them. *)
Lemma parse_piece es : ∀ n m fuel,
  Forall listed es → 0 ≤ n → n + total es < 2 ^ 63 → (length (take m (encode n es)) ≤ fuel)%nat →
  ∃ es1 es2, es = es1 ++ es2 ∧ parse fuel (take m (encode n es)) n = (pair_of <$> es1, n + total es1) ∧
    (∀ e, head es = Some e → space e ≤ Z.of_nat m → es1 ≠ []).
Proof.
  induction es as [|e es IH]; intros n m fuel Hes Hn Ht Hm.
  { exists [], []. cbn [encode total]. rewrite take_nil, Z.add_0_r. split; [done|]. split; [|done].
    destruct fuel; [done|]. cbn [parse]. by rewrite next_nothing. }
  apply Forall_cons in Hes as [He Hes]. pose proof He as (Hc & Hf & Hi). pose proof (space_pos e He) as Hsp.
  pose proof (dirent_length (name e) (inum e) (n + space e) Hf) as Hl. fold (space e) in Hl.
  pose proof (total_nonneg es Hes). cbn [encode total] in *.
  destruct (Z.leb_spec (space e) (Z.of_nat m)) as [Hfit|Hcut].
  - rewrite take_app_ge in * by lia. rewrite length_app in Hm. destruct fuel as [|fuel]; [lia|]. cbn [parse]. rewrite next_whole by (done || lia).
    destruct (IH (n + space e) (m - length (fuse_add_dirent (name e) (inum e) (n + space e)))%nat fuel) as (es1 & es2 & -> & Hp & _);
      [done|lia|lia|lia|].
    rewrite Hp. exists (e :: es1), es2. split; [done|]. split; [|done]. cbn [fmap list_fmap total]. unfold pair_of at 2. f_equal. lia.
  - rewrite take_app_le by lia. exists [], (e :: es). split; [done|]. cbn [total]. rewrite Z.add_0_r. split.
    + destruct fuel; [done|]. cbn [parse]. by rewrite next_part by (done || lia).
    + intros ? [= <-]. lia.
Qed.

Lemma reply_piece es1 es2 size :
  Forall listed (es1 ++ es2) → total (es1 ++ es2) < 2 ^ 63 → 0 ≤ size →
  reply_buf_limited (dirbuf_of (es1 ++ es2)) (total es1) size =
    fuse_reply_buf (take (Z.to_nat size) (encode (total es1) es2)).
Proof.
  intros Hes Ht Hs. pose proof Hes as [H1 H2]%Forall_app. rewrite total_app in Ht.
  pose proof (total_nonneg es1 H1). pose proof (total_nonneg es2 H2).
  unfold reply_buf_limited. rewrite dirbuf_encode, length_encode, total_app by done. rewrite wrap_small by lia.
  rewrite encode_app, drop_app_length' by (pose proof (length_encode 0 es1 H1); lia). rewrite Z.add_0_l.
  pose proof (length_encode (total es1) es2 H2) as Hl.
  destruct (Z.ltb_spec (total es1) (total es1 + total es2)).
  - f_equal. destruct (Z.leb_spec size (total es2)); [do 2 f_equal; lia|]. rewrite !take_ge by lia. done.
  - f_equal. destruct (encode _ es2); [by rewrite take_nil|cbn in Hl; lia].
Qed.

End paging.

Section reading.
Context {W : Type} `{BackendLaws W, FuseLaws}.
Context (jk : junk) (je : fuse_entry_param).
Implicit Types (s : yfs_client.t W) (f : fs) (k : nat) (es : list dirent).

(** How the kernel lists the directory [p]: it asks for [size] bytes at a time,
    each time behind the last entry it got, until there is none. *)
Fixpoint list_all (fuel : nat) (p size pos : Z) : yfs_client.M (W:=W) (option (list (bytes * Z))) :=
  match fuel with
  | O => mret None
  | S fuel =>
      r ← fuseserver.oper jk je (readdir_req p size pos);
      match r with
      | fuse_reply_buf b =>
          match parse (length b) b pos with
          | ([], _) => mret (Some [])
          | (l, pos) => rest ← list_all fuel p size pos; mret (app l <$> rest)
          end
      | _ => mret None
      end
  end.

Lemma list_rest f p size k es (Hes : Forall listed es) : dirs f !! p = Some es → wf_fs f →
  total es < 2 ^ 63 → Forall (λ e, space e ≤ size) es → 0 ≤ size →
  ∀ fuel es1 es2 s, es = es1 ++ es2 → (length es2 < fuel)%nat → implements s f k →
  wp (list_all fuel p size (total es1)) (λ r s', r = Some (pair_of <$> es2) ∧ implements s' f k) s.
Proof.
  intros Hp Hf Ht Hsp Hsz. induction fuel as [|fuel IH]; intros es1 es2 s Heq Hl Hi; [lia|].
  destruct Hi as (_ & m & Hm & Hs). pose proof (shows_small _ _ _ _ Hs) as Hsm.
  pose proof (stores_dir f m p es Hf Hm Hp) as Hmp. subst es.
  pose proof Hes as [Hl1 Hl2]%Forall_app. pose proof (total_nonneg es1 Hl1). pose proof (total_nonneg es2 Hl2).
  cbn [list_all fuseserver.oper]. apply wp_bind, wp_bind.
  eapply wp_mono; [eapply readdir_spec; [by eapply wf_dirs|exact Hs|exact Hmp|by eapply entries_ok|by apply (Hsm p)]|].
  intros [r es'] s' (-> & -> & Hu). cbn [negb Z.eqb OK]. apply wp_ret. rewrite reply_piece by done.
  rewrite total_app in Ht.
  destruct (parse_piece es2 (total es1) (Z.to_nat size) (length (take (Z.to_nat size) (encode (total es1) es2))))
    as (es3 & es4 & -> & Hparse & Hne); [done|done|lia|done|].
  rewrite Hparse. destruct es3 as [|e es3]; cbn [fmap list_fmap].
  - apply wp_ret. destruct es4 as [|e es4]; [|].
    + split; [done|]. split; [done|]. exists m. split; [done|]. by eapply up_shows.
    + exfalso. apply (Hne e); [done| |done]. rewrite !Forall_app, Forall_cons in Hsp. lia.
  - apply wp_bind. eapply wp_mono.
    + rewrite <- total_app. apply (IH (es1 ++ e :: es3) es4 s'); [by rewrite <- app_assoc|rewrite length_app in Hl; cbn in Hl; lia|].
      split; [done|]. exists m. split; [done|]. by eapply up_shows.
    + intros r s'' [-> Hi]. apply wp_ret. split; [|done]. exact (f_equal Some (eq_sym (fmap_app pair_of (e :: es3) es4))).
Qed.

End reading.

(** C7: The server serves the file system.  From a state whose extents are a
    well-formed file system, with no lock held and a number left for a new
    object, every request the kernel may make is answered, whatever uninitialised
    variables hold; the answer (its times aside) and the file system left are
    those promised: the operation the request stands for, its status turned into
    the error number; the attributes of files and directories; nothing for a
    negative offset or another attribute than the size.  The file system is again
    well formed and no lock is held. *)
Theorem fuse_serves_fs {W} `{BackendLaws W, !Fuse} jk je (s : yfs_client.t W) f q k :
  implements s f (S k) → request_ok f q →
  ∃ ino p f' s' k',
    fuseserver.oper jk je q s = Done (p, s') ∧ fuse_step f ino q = (as_answer p, f') ∧
    (f' = f ∨ ∃ o, meaning q = Some o ∧ new_number f o ino) ∧ implements s' f' k' ∧ (k ≤ k')%nat.
Proof.
  intros Hi Hq. destruct (oper_ok jk je f q s k Hi Hq) as (p & s' & Hp & ino & f' & k' & Hf & Hn & Hk & Hs).
  exists ino, p, f', s', k'. do 3 (split; [done|]). split; [|done]. split; [|done].
  destruct Hn as [-> |(o & Ho & Hn)]; [apply Hi|]. unfold request_ok in Hq. rewrite Ho in Hq.
  unfold fuse_step in Hf. rewrite Ho in Hf.
  pose proof (fs_step_wf f ino o (proj1 Hi) Hq Hn) as Hwf. destruct (fs_step f ino o) as [r f2]. by injection Hf as _ <-.
Qed.

(** C28: A directory is listed whole.  However few bytes the kernel asks for at a
    time, as long as they hold the longest entry, its requests, each from the
    position behind the last entry it got, end with every name and number of the
    directory once and in order. *)
Theorem directory_is_listed_whole {W} `{BackendLaws W, FuseLaws} jk je (s : yfs_client.t W) f p es size k :
  implements s f k → dirs f !! p = Some es → Forall (λ e, name_fits (name e) ∧ space e ≤ size) es →
  0 ≤ size → total es < 2 ^ 63 →
  ∃ s', list_all jk je (S (length es)) p size 0 s = Done (Some ((λ e, (name e, inum e)) <$> es), s') ∧ implements s' f k.
Proof.
  intros Hi Hp Hes Hs Ht. pose proof (proj1 Hi) as Hf. rewrite Forall_and in Hes. destruct Hes as [Hfit Hsp].
  assert (Hl : Forall listed es).
  { pose proof (wf_entries f Hf p es Hp) as He. rewrite !Forall_forall in *. intros e Hin.
    destruct (He e Hin) as [[_ ?] ?]. by split; [|split; [apply Hfit|]]. }
  destruct (list_rest jk je f p size k es Hl Hp Hf Ht Hsp Hs (S (length es)) [] es s) as (r & s' & Hr & -> & Hi'); [done|lia|done|].
  by exists s'.
Qed.

(** ** The layout of Linux *)

(** [struct fuse_dirent]: the number, the position, the length of the name, the
    type, and the name, padded to a multiple of 8. *)
#[local] Definition dirent_size (n : Z) : Z := (24 + n + 7) / 8 * 8.

#[local] Definition linux_dirent (nm : bytes) (ino off : Z) : bytes :=
  u64_bytes ino ++ u64_bytes off ++ i32_bytes (zlen nm) ++ i32_bytes 0 ++ nm ++
  replicate (Z.to_nat (dirent_size (zlen nm) - 24 - zlen nm)) Byte.x00.

#[local] Definition linux_next (b : bytes) : option (bytes * Z * Z * bytes) :=
  if zlen b <? 24 then None
  else
    let n := le_val (take 4 (drop 16 b)) in
    if zlen b <? dirent_size n then None
    else Some (take (Z.to_nat n) (drop 24 b), le_val (take 8 b), le_val (take 8 (drop 8 b)), drop (Z.to_nat (dirent_size n)) b).

#[export] Instance linux_fuse : Fuse := {|
  FUSE_SET_ATTR_SIZE := 8; fuse_dirent_size := dirent_size; fuse_add_dirent := linux_dirent |}.

Lemma dirent_size_bounds n : 24 + n ≤ dirent_size n < 24 + n + 8.
Proof. unfold dirent_size. Z.to_euclidean_division_equations. lia. Qed.

Lemma linux_dirent_length nm ino off : zlen (linux_dirent nm ino off) = dirent_size (zlen nm).
Proof. pose proof (dirent_size_bounds (zlen nm)). unfold linux_dirent. len. Qed.

(** The length of the name, read off the front of anything long enough. *)
Lemma linux_name_length nm ino off b :
  name_fits nm → (24 ≤ length b)%nat → b `prefix_of` linux_dirent nm ino off →
  le_val (take 4 (drop 16 b)) = zlen nm.
Proof.
  intros [_ Hn] Hb [rest Hr].
  assert (Heq : take 4 (drop 16 b) = take 4 (drop 16 (linux_dirent nm ino off))).
  { rewrite Hr, drop_app_le, take_app_le by (rewrite ?length_drop; lia). done. }
  rewrite Heq. unfold linux_dirent.
  rewrite app_assoc, drop_app_length' by (rewrite length_app, !length_u64_bytes; done).
  rewrite take_app_length' by by rewrite length_i32_bytes.
  rewrite le_val_i32. apply wrap_small. lia.
Qed.

#[export] Instance linux_laws : FuseLaws.
Proof.
  refine {| next_dirent := linux_next |}.
  - intros nm ino off _. apply linux_dirent_length.
  - intros nm [? _]. cbn. pose proof (dirent_size_bounds (zlen nm)). lia.
  - intros nm ino off rest Hn Hi Ho. cbn [fuse_add_dirent linux_fuse].
    pose proof (linux_dirent_length nm ino off) as Hl. pose proof (dirent_size_bounds (zlen nm)) as Hd.
    assert (Hname : le_val (take 4 (drop 16 (linux_dirent nm ino off ++ rest))) = zlen nm).
    { rewrite drop_app_le, take_app_le by (rewrite ?length_drop; lia).
      apply (linux_name_length nm ino off); [done|lia|done]. }
    unfold linux_next. rewrite Hname. cbv zeta. rewrite length_app. test_false. test_false.
    rewrite (drop_app_length' (linux_dirent nm ino off) rest (Z.to_nat _)) by lia.
    unfold linux_dirent. set (pad := replicate _ _). rewrite <- !app_assoc. repeat f_equal.
    + rewrite (app_assoc (u64_bytes ino)), (app_assoc _ (i32_bytes (zlen nm))), (app_assoc _ (i32_bytes 0)).
      rewrite drop_app_length' by (rewrite !length_app, !length_u64_bytes, !length_i32_bytes; done).
      apply take_app_length'. lia.
    + rewrite take_app_length' by by rewrite length_u64_bytes. rewrite le_val_u64. by apply wrap_small.
    + rewrite (drop_app_length' (u64_bytes ino)), take_app_length' by by rewrite length_u64_bytes.
      rewrite le_val_u64. apply wrap_small. lia.
  - intros nm ino off n Hn Hl. cbn [fuse_add_dirent linux_fuse] in *. unfold linux_next.
    pose proof (linux_dirent_length nm ino off) as Hd.
    destruct (Z.ltb_spec (zlen (take n (linux_dirent nm ino off))) 24); [done|].
    rewrite (linux_name_length nm ino off) by (done || lia || apply prefix_take). cbv zeta.
    rewrite length_take. by test_true.
Qed.

(** ** Witnesses *)

Definition no_param : fuse_entry_param := mkParam 0 (mkAttrs 0 (mkStat 0 0 0 0 0 0)) 0 0 0.

Lemma create_notes_ok : fop_ok root_only (FCreate 1 (bs "notes")).
Proof. split; [reflexivity|]. split; [split; reflexivity|]. intros es [= <-]. vm_compute. reflexivity. Qed.

Lemma fuse_serves_fs_witness :
  ∃ ino p f' s' k',
    fuseserver.oper no_junk no_param (create_req 1 (bs "notes")) fresh_client = Done (p, s') ∧
    fuse_step root_only ino (create_req 1 (bs "notes")) = (as_answer p, f') ∧
    (f' = root_only ∨ ∃ o, meaning (create_req 1 (bs "notes")) = Some o ∧ new_number root_only o ino) ∧
    implements s' f' k' ∧ (3 ≤ k')%nat.
Proof.
  apply (fuse_serves_fs no_junk no_param fresh_client root_only (create_req 1 (bs "notes")) 3).
  - apply fresh_client_implements.
  - apply create_notes_ok.
Defined.

(** The client after it has created a file in the root. *)
Definition noted : freply * yfs_client.t (side served) :=
  match yfs_step no_junk (FCreate 1 (bs "notes")) fresh_client with
  | Done p => p
  | _ => (ROk, fresh_client)
  end.
Definition noted_inum : Z := match noted.1 with RFile i _ => i | _ => 0 end.
Definition noted_fs : fs := (fs_step root_only noted_inum (FCreate 1 (bs "notes"))).2.

Lemma noted_implements : ∃ k, implements noted.2 noted_fs k.
Proof.
  destruct (yfs_step_ok no_junk root_only fresh_client (FCreate 1 (bs "notes")) 3 fresh_client_implements create_notes_ok)
    as (r & s' & Hs & ino & f' & k' & Hf & Hn & _ & Hsh).
  assert (Hnoted : noted = (r, s')) by (unfold noted; by rewrite Hs).
  assert (Hr : r = RFile ino 0) by by injection Hf.
  assert (noted_inum = ino) as Hino by (unfold noted_inum; by rewrite Hnoted, Hr).
  assert (Hfs : noted_fs = f') by (unfold noted_fs; by rewrite Hino, Hf).
  exists k'. rewrite Hfs, Hnoted. split; [|done]. pose proof (fs_step_wf root_only ino (FCreate 1 (bs "notes")) root_only_wf create_notes_ok) as Hwf.
  rewrite Hf in Hwf. apply Hwf. destruct Hn as [-> |Hn]; [|done]. by injection Hf.
Qed.

Lemma directory_is_listed_whole_witness :
  ∃ k s', list_all no_junk no_param 2 1 40 0 noted.2 = Done (Some [(bs "notes", noted_inum)], s') ∧ implements s' noted_fs k.
Proof.
  destruct noted_implements as [k Hk]. exists k.
  apply (directory_is_listed_whole no_junk no_param noted.2 noted_fs 1 [mkEntry (bs "notes") noted_inum] 40 k);
    [exact Hk|reflexivity| |lia|vm_compute; reflexivity].
  constructor; [|constructor]. split; [split; vm_compute; [reflexivity|discriminate]|vm_compute; discriminate].
Defined.
