(* ===== verification/KvClient.v ===== *)
(** * The client of the master (src/client/client.cc)

    [Client] asks the master where an inode lives and what number a new entry
    gets, and keeps a cache of addresses: [kv_addr_list_] holds the addresses
    with their use counts, [kv_addr_index_list_] the position for an inode, and
    [kv_addr_connect_status_] should say for which inodes the position is good. *)

From S2P Require Import Prelude StdContainers.

(** What the client needs of the connection to the master: to make it, and two
    calls, which leave the default answer when they fail. *)
Class MasterService (E : Type) : Type := {
  bind_master : E → bool * E;
  ask_for_kv : E → Z → bytes * E;
  ask_for_ino : E → Z → bytes → bool → Z → Z * bytes * E;
}.

Module Client.
Section client.
Context {E : Type} `{MasterService E}.

Record t : Type := mk {
  master_addr_ : bytes;
  kv_addr_index_list_ : gmap Z Z;
  kv_addr_connect_status_ : gmap Z Z;
  kv_addr_list_ : list (bytes * Z);
  reused_queue_ : list Z;
  rpc_pool_ : gset bytes;
  env : E;
}.

Definition make (addr : bytes) (e : E) : t := mk addr ∅ ∅ [] [] ∅ e.

Definition with_cache (s : t) (idx st : gmap Z Z) (l : list (bytes * Z)) (q : list Z) : t :=
  mk (master_addr_ s) idx st l q (rpc_pool_ s) (env s).
Definition with_env (s : t) (pool : gset bytes) (e : E) : t :=
  mk (master_addr_ s) (kv_addr_index_list_ s) (kv_addr_connect_status_ s) (kv_addr_list_ s)
    (reused_queue_ s) pool e.

(** [kv_addr_list_[i]]: undefined outside the vector. *)
Definition at_ (s : t) (i : Z) : outcome (bytes * Z) :=
  if i <? 0 then Undef
  else match kv_addr_list_ s !! Z.to_nat i with Some x => Done x | None => Undef end.

Definition set_at (s : t) (i : Z) (x : bytes * Z) : list (bytes * Z) := <[Z.to_nat i := x]> (kv_addr_list_ s).

(** [std::map::operator[]] inserts zero for a missing key. *)
Definition index_of (s : t) (ino : Z) : Z * t :=
  let id := default 0 (kv_addr_index_list_ s !! ino) in
  (id, with_cache s (<[ino := id]> (kv_addr_index_list_ s)) (kv_addr_connect_status_ s) (kv_addr_list_ s) (reused_queue_ s)).

(** [++] and [--] of an [int]. *)
Definition inc (n : Z) : outcome Z := if n =? 2 ^ 31 - 1 then Undef else Done (n + 1).
Definition dec (n : Z) : outcome Z := if n =? - 2 ^ 31 then Undef else Done (n - 1).

Definition getRpc (s : t) (addr : bytes) : bool * t :=
  if bool_decide (addr ∈ rpc_pool_ s) then (true, s)
  else
    let '(ok, e) := bind_master (env s) in
    (ok, with_env s (if ok then {[addr]} ∪ rpc_pool_ s else rpc_pool_ s) e).

Definition getKVAddrByInumViaMaster (s : t) (ino : Z) : bytes * t :=
  let '(cl, s) := getRpc s (master_addr_ s) in
  if negb cl then ([], s)
  else let '(r, e) := ask_for_kv (env s) ino in (r, with_env s (rpc_pool_ s) e).

Definition GetInumByName (s : t) (parent : Z) (name : bytes) (is_dir : bool) (sz : Z) : Z * bytes * t :=
  let '(cl, s) := getRpc s (master_addr_ s) in
  if negb cl then (0, [], s)
  else let '(i, a, e) := ask_for_ino (env s) parent name is_dir sz in (i, a, with_env s (rpc_pool_ s) e).

Definition getKVAddrByInumViaCache (s : t) (ino : Z) : outcome (bytes * t) :=
  if bool_decide (kv_addr_connect_status_ s !! ino = Some 0) then
    let '(id, s) := index_of s ino in
    '(a, _) ← at_ s id; Done (a, s)
  else Done ([], s).

Definition FailCache (s : t) (ino : Z) : outcome t :=
  let s := with_cache s (kv_addr_index_list_ s) (<[ino := 1]> (kv_addr_connect_status_ s)) (kv_addr_list_ s) (reused_queue_ s) in
  let '(id, s) := index_of s ino in
  '(a, n) ← at_ s id;
  if n =? 0 then Done s
  else
    n ← dec n;
    if n =? 0 then
      Done (with_cache s (kv_addr_index_list_ s) (kv_addr_connect_status_ s) (set_at s id ([], -1)) (reused_queue_ s ++ [id]))
    else
      Done (with_cache s (kv_addr_index_list_ s) (kv_addr_connect_status_ s) (set_at s id (a, n)) (reused_queue_ s)).

Definition getNextId (s : t) : Z * t :=
  match reused_queue_ s with
  | [] =>
      let l := kv_addr_list_ s ++ [([], 0)] in
      (zlen l - 1, with_cache s (kv_addr_index_list_ s) (kv_addr_connect_status_ s) l [])
  | id :: q => (id, with_cache s (kv_addr_index_list_ s) (kv_addr_connect_status_ s) (kv_addr_list_ s) q)
  end.

(** The entry [id] is used once more, now for [ino] at [addr]. *)
Definition use (s : t) (ino : Z) (addr : bytes) (id : Z) : outcome t :=
  '(_, n) ← at_ s id;
  n ← inc n;
  Done (with_cache s (<[ino := id]> (kv_addr_index_list_ s)) (<[id := 0]> (kv_addr_connect_status_ s))
          (set_at s id (addr, n)) (reused_queue_ s)).

(** The loop of [linkToKVAddr]: [n] rounds are left, the next is for [i]. *)
Fixpoint link_loop (s : t) (ino : Z) (addr : bytes) (i : Z) (n : nat) : outcome t :=
  match n with
  | O => let '(id, s) := getNextId s in use s ino addr id
  | S n =>
      '(a, c) ← at_ s i;
      if bool_decide (a = addr) && negb (c =? -1) then use s ino addr i
      else link_loop s ino addr (i + 1) n
  end.

Definition linkToKVAddr (s : t) (ino : Z) (addr : bytes) : outcome t :=
  link_loop s ino addr 0 (size (kv_addr_index_list_ s)).

Definition GetKVAddrByInum (s : t) (ino : Z) : outcome (bytes * t) :=
  '(ele, s) ← getKVAddrByInumViaCache s ino;
  if bool_decide (ele = []) then
    let '(ele, s) := getKVAddrByInumViaMaster s ino in
    if negb (bool_decide (ele = [])) then s ← linkToKVAddr s ino ele; Done (ele, s)
    else Done (ele, s)
  else Done (ele, s).

End client.
Arguments t : clear implicits.
End Client.

(** ** Which inodes the cache can answer for *)

Section cache.
Context {E : Type} `{MasterService E}.
Implicit Types (s : Client.t E) (ino : Z).

Import Client.

(** The keys marked good are positions of the list: [linkToKVAddr] marks the
    position and not the inode. *)
Definition marks_positions s : Prop :=
  ∀ i, kv_addr_connect_status_ s !! i = Some 0 → 0 ≤ i < zlen (kv_addr_list_ s).

Lemma at_Done s i x : at_ s i = Done x → 0 ≤ i < zlen (kv_addr_list_ s).
Proof.
  unfold at_. destruct (Z.ltb_spec i 0); [done|].
  destruct (kv_addr_list_ s !! Z.to_nat i) eqn:Hl; [|done]. intros _. apply lookup_lt_Some in Hl. lia.
Qed.

Lemma set_at_length s i x : zlen (set_at s i x) = zlen (kv_addr_list_ s).
Proof. unfold set_at. by rewrite length_insert. Qed.

Lemma use_marks s ino addr id s' :
  marks_positions s → use s ino addr id = Done s' →
  marks_positions s' ∧ zlen (kv_addr_list_ s') = zlen (kv_addr_list_ s).
Proof.
  intros Hm Hu. unfold use in Hu. apply bind_Done_inv in Hu as ([a n] & Ha & Hu).
  apply bind_Done_inv in Hu as (n' & _ & [= <-]). apply at_Done in Ha. unfold marks_positions.
  cbn [with_cache kv_addr_connect_status_ kv_addr_list_]. rewrite set_at_length. split; [|done].
  intros i. rewrite lookup_insert_Some. intros [[<- _]|[_ ?]]; [done|by apply Hm].
Qed.

Lemma getNextId_marks s id s' :
  marks_positions s → getNextId s = (id, s') →
  marks_positions s' ∧ zlen (kv_addr_list_ s) ≤ zlen (kv_addr_list_ s') ≤ zlen (kv_addr_list_ s) + 1.
Proof.
  unfold getNextId, marks_positions. intros Hm. destruct (reused_queue_ s); intros [= <- <-];
    cbn [with_cache kv_addr_connect_status_ kv_addr_list_]; [|split; [done|lia]].
  rewrite length_app. cbn [length]. split; [intros i Hi%Hm; lia|lia].
Qed.

Lemma link_marks ino addr n : ∀ s i s',
  marks_positions s → link_loop s ino addr i n = Done s' →
  marks_positions s' ∧ zlen (kv_addr_list_ s') ≤ zlen (kv_addr_list_ s) + 1.
Proof.
  induction n as [|n IH]; intros s i s' Hm Hl; cbn [link_loop] in Hl.
  - destruct (getNextId s) as [id s1] eqn:Hn. destruct (getNextId_marks s id s1 Hm Hn) as [Hm1 Hl1].
    apply use_marks in Hl as [? ?]; [|done]. split; [done|lia].
  - apply bind_Done_inv in Hl as ([a c] & _ & Hl). destruct (bool_decide _ && _); [|by eapply IH].
    apply use_marks in Hl as [? ?]; [|done]. split; [done|lia].
Qed.

(** What the master answers when it is asked now. *)
Definition master_says s ino : bytes := (getKVAddrByInumViaMaster s ino).1.

Lemma via_master_cache s ino :
  let s' := (getKVAddrByInumViaMaster s ino).2 in
  kv_addr_connect_status_ s' = kv_addr_connect_status_ s ∧ kv_addr_list_ s' = kv_addr_list_ s.
Proof.
  unfold getKVAddrByInumViaMaster, getRpc. destruct (bool_decide _).
  - cbn [negb]. by destruct (ask_for_kv _ _).
  - destruct (bind_master _) as [[] e]; cbn [negb]; [|done]. by destruct (ask_for_kv _ _).
Qed.

Lemma get_uncached s ino a s' :
  marks_positions s → GetKVAddrByInum s ino = Done (a, s') →
  marks_positions s' ∧ zlen (kv_addr_list_ s') ≤ zlen (kv_addr_list_ s) + 1 ∧
  (¬ 0 ≤ ino < zlen (kv_addr_list_ s) → a = master_says s ino).
Proof.
  intros Hm Hg. unfold GetKVAddrByInum in Hg. apply bind_Done_inv in Hg as ([ele s1] & Hc & Hg).
  assert (H1 : kv_addr_connect_status_ s1 = kv_addr_connect_status_ s ∧ kv_addr_list_ s1 = kv_addr_list_ s ∧
    (¬ 0 ≤ ino < zlen (kv_addr_list_ s) → ele = [] ∧ s1 = s)).
  { unfold getKVAddrByInumViaCache in Hc. destruct (bool_decide_reflect (kv_addr_connect_status_ s !! ino = Some 0)) as [Hk|].
    - cbn [index_of] in Hc. apply bind_Done_inv in Hc as ([a0 n0] & _ & [= <- <-]).
      split; [done|]. split; [done|]. intros Hn. by apply Hm in Hk.
    - injection Hc as <- <-. done. }
  destruct H1 as (Hst & Hl & Hout).
  assert (Hm1 : marks_positions s1) by (unfold marks_positions; by rewrite Hst, Hl).
  destruct (bool_decide_reflect (ele = [])) as [->|Hele].
  2:{ injection Hg as <- <-. split; [done|]. split; [rewrite Hl; lia|]. naive_solver. }
  unfold master_says. destruct (via_master_cache s1 ino) as [Hst2 Hl2].
  destruct (getKVAddrByInumViaMaster s1 ino) as [ele s2] eqn:Hv. cbn [snd] in Hst2, Hl2.
  assert (Hm2 : marks_positions s2) by (unfold marks_positions; by rewrite Hst2, Hl2).
  assert (Ha : ¬ 0 ≤ ino < zlen (kv_addr_list_ s) → ele = (getKVAddrByInumViaMaster s ino).1).
  { intros Hn. destruct (Hout Hn) as [_ ->]. by rewrite Hv. }
  destruct (negb _).
  - apply bind_Done_inv in Hg as (s3 & Hlk & [= <- <-]).
    destruct (link_marks ino ele _ s2 0 s3 Hm2 Hlk) as [Hm3 Hl3]. split; [done|]. split; [rewrite <- Hl, <- Hl2; done|done].
  - injection Hg as <- <-. split; [done|]. split; [rewrite Hl2, Hl; lia|done].
Qed.

Lemma fail_marks s ino s' :
  marks_positions s → FailCache s ino = Done s' →
  marks_positions s' ∧ zlen (kv_addr_list_ s') = zlen (kv_addr_list_ s).
Proof.
  intros Hm Hf. unfold FailCache in Hf. cbn [index_of] in Hf.
  apply bind_Done_inv in Hf as ([a n] & _ & Hf).
  assert (Hx : ∀ i, <[ino := 1]> (kv_addr_connect_status_ s) !! i = Some 0 → 0 ≤ i < zlen (kv_addr_list_ s)).
  { intros i. rewrite lookup_insert_Some. intros [[_ ?]|[_ ?]]; [done|by apply Hm]. }
  destruct (n =? 0); [injection Hf as <-; done|].
  apply bind_Done_inv in Hf as (n' & _ & Hf). unfold marks_positions.
  destruct (n' =? 0); injection Hf as <-; cbn [with_cache kv_addr_connect_status_ kv_addr_list_];
    by rewrite set_at_length.
Qed.

(** Calls of the client, and the answers they get. *)
Inductive call : Type := CGet (ino : Z) | CFail (ino : Z).

Definition call_step s (c : call) : outcome (bytes * Client.t E) :=
  match c with
  | CGet ino => GetKVAddrByInum s ino
  | CFail ino => s ← FailCache s ino; Done ([], s)
  end.

Fixpoint calls s (cs : list call) : outcome (Client.t E) :=
  match cs with
  | [] => Done s
  | c :: cs => '(_, s) ← call_step s c; calls s cs
  end.

Lemma calls_marks cs : ∀ s s',
  marks_positions s → calls s cs = Done s' →
  marks_positions s' ∧ zlen (kv_addr_list_ s') ≤ zlen (kv_addr_list_ s) + zlen cs.
Proof.
  induction cs as [|c cs IH]; intros s s' Hm Hc; cbn [calls] in Hc.
  - injection Hc as <-. split; [done|]. cbn. lia.
  - apply bind_Done_inv in Hc as ([a s1] & H1 & Hc).
    assert (marks_positions s1 ∧ zlen (kv_addr_list_ s1) ≤ zlen (kv_addr_list_ s) + 1) as [Hm1 Hl1].
    { destruct c as [ino|ino]; cbn [call_step] in H1.
      - destruct (get_uncached s ino a s1 Hm H1) as (? & ? & _). by split.
      - apply bind_Done_inv in H1 as (s2 & Hf & [= <- <-]). destruct (fail_marks s ino s2 Hm Hf) as [? ->]. split; [done|lia]. }
    destruct (IH s1 s' Hm1 Hc) as [? ?]. split; [done|]. cbn [length]. lia.
Qed.

Lemma make_marks addr (e : E) : marks_positions (make addr e).
Proof. intros i. cbn [make kv_addr_connect_status_]. by rewrite lookup_empty. Qed.
End cache.

(** The cache is never used for a file: its numbers are marked good by
    position, so after any calls that return, an inode whose number is not
    below the number of calls (files have bit 31 set) is always looked up at
    the master, and the answer is the master's. *)
Theorem file_addresses_come_from_master {E} `{MasterService E} addr (e : E) cs s ino a s' :
  calls (Client.make addr e) cs = Done s → zlen cs ≤ ino →
  Client.GetKVAddrByInum s ino = Done (a, s') → a = master_says s ino.
Proof.
  intros Hc Hi Hg. destruct (calls_marks cs _ s (make_marks addr e) Hc) as [Hm Hl]. cbn in Hl.
  destruct (get_uncached s ino a s' Hm Hg) as (_ & _ & Ha). apply Ha. lia.
Qed.

(** A master that always connects and knows a fixed place for every inode. *)
#[export] Instance fixed_master : MasterService (Z → bytes) := {|
  bind_master e := (true, e);
  ask_for_kv e i := (e i, e);
  ask_for_ino e p nm d sz := (0, [], e);
|}.

Definition two_servers (i : Z) : bytes := if i <? 7 then bs "a:1" else bs "b:1".

Lemma file_addresses_come_from_master_witness :
  ∃ s a s', Client.GetKVAddrByInum s (2 ^ 31 + 5) = Done (a, s') ∧ a = master_says s (2 ^ 31 + 5).
Proof.
  destruct (done_if_inv (λ s, done_if (λ _, true) (Client.GetKVAddrByInum s (2 ^ 31 + 5)))
    (calls (Client.make (bs "m:1") two_servers) [CGet 1; CFail 1])) as (s & Hc & H); [by vm_compute|].
  destruct (done_if_inv _ _ H) as ([a s'] & Hg & _).
  exists s, a, s'. split; [done|].
  apply (file_addresses_come_from_master (bs "m:1") two_servers [CGet 1; CFail 1] s (2 ^ 31 + 5) a s'); [done|vm_compute; discriminate|done].
Defined.

(** Runs against such a master, with at most one address in the vector. *)
Section runs.
Context (m : bytes) (e : Z → bytes).
Import Client.

Lemma get_asks idx st l q pool ino :
  st !! ino ≠ Some 0 → e ino ≠ [] →
  GetKVAddrByInum (mk m idx st l q pool e) ino =
    (s ← linkToKVAddr (mk m idx st l q ({[m]} ∪ pool) e) ino (e ino); Done (e ino, s)).
Proof.
  intros Hst He. unfold GetKVAddrByInum, getKVAddrByInumViaCache. cbn [kv_addr_connect_status_].
  rewrite bool_decide_eq_false_2, bind_Done by done. cbv beta iota.
  rewrite bool_decide_eq_true_2 by done. unfold getKVAddrByInumViaMaster, getRpc. cbn [master_addr_ rpc_pool_ Client.env].
  assert (Hp : m ∈ pool → pool = {[m]} ∪ pool) by set_solver.
  destruct (bool_decide_reflect (m ∈ pool)) as [Hin|Hin];
    cbn [bind_master fixed_master negb with_env ask_for_kv rpc_pool_ Client.env];
    rewrite bool_decide_eq_false_2 by done; cbn [negb]; rewrite <- ?Hp by done; done.
Qed.

(** The next round of the loop at the only address. *)
Lemma link_one idx st x c q pool ino a n :
  c ≠ 2 ^ 31 - 1 →
  link_loop (mk m idx st [(x, c)] q pool e) ino a 0 (S n) =
    if bool_decide (x = a) && negb (c =? -1)
    then Done (mk m (<[ino := 0]> idx) (<[0 := 0]> st) [(a, c + 1)] q pool e)
    else link_loop (mk m idx st [(x, c)] q pool e) ino a 1 n.
Proof.
  intros Hc. cbn [link_loop]. change (at_ _ 0) with (Done (x, c)). rewrite bind_Done. cbv beta iota.
  destruct (_ && _); [|done]. unfold use. change (at_ _ 0) with (Done (x, c)). rewrite bind_Done. cbv beta iota.
  unfold inc. replace (c =? 2 ^ 31 - 1) with false by (symmetry; by apply Z.eqb_neq). done.
Qed.

Lemma link_past idx st x q pool ino a n : link_loop (mk m idx st [x] q pool e) ino a 1 (S n) = Undef.
Proof. done. Qed.

(** The first address, and an address that takes the place of a dropped one. *)
Lemma link_first st pool ino a :
  link_loop (mk m ∅ st [] [] pool e) ino a 0 0 =
    Done (mk m (<[ino := 0]> ∅) (<[0 := 0]> st) [(a, 1)] [] pool e).
Proof. done. Qed.

Lemma link_reused idx st x pool ino a :
  link_loop (mk m idx st [(x, -1)] [0] pool e) ino a 1 0 =
    Done (mk m (<[ino := 0]> idx) (<[0 := 0]> st) [(a, 0)] [] pool e).
Proof. done. Qed.

Lemma fail_last idx st x pool ino :
  idx !! ino = Some 0 →
  FailCache (mk m idx st [(x, 1)] [] pool e) ino =
    Done (mk m (<[ino := 0]> idx) (<[ino := 1]> st) [([], -1)] [0] pool e).
Proof.
  intros Hi. unfold FailCache. cbn [index_of with_cache kv_addr_index_list_]. rewrite Hi. done.
Qed.
End runs.

(** Look a key up in a map written out, and count its keys. *)
Ltac find_key :=
  repeat first [rewrite lookup_insert_eq | rewrite lookup_insert_ne by lia | rewrite lookup_empty].
Ltac count_keys :=
  repeat first [rewrite map_size_insert_None by (find_key; done) |
                rewrite map_size_insert_Some by (find_key; eauto)]; rewrite ?map_size_empty.

(** One call: ask the master, and start the loop. *)
Ltac ask :=
  cbn [calls call_step]; rewrite get_asks by (find_key; congruence);
  unfold Client.linkToKVAddr; cbn [Client.kv_addr_index_list_]; count_keys.
Ltac next := cbn [andb negb Z.eqb Pos.eqb]; rewrite ?bind_Done; cbv beta iota; rewrite ?bind_Done; cbv beta iota.

(** The cache reads outside its vector of addresses, because the loop of
    [linkToKVAddr] is bounded by the number of inodes and not of addresses.  It
    does so when the inodes [i] and [j] live at one address and [k] at another;
    and with a single server, when the extents of [i] and then of [j] are
    looked up and flushed, each flush dropping the cached address and asking
    again. *)
Theorem address_cache_overruns (e : Z → bytes) i j k :
  i ≠ j → i ≠ k → j ≠ k → 0 < i → 0 < j → 0 < k → e i ≠ [] → e j = e i →
  (e k ≠ [] → e k ≠ e i → calls (Client.make (bs "m:1") e) [CGet i; CGet j; CGet k] = Undef) ∧
  calls (Client.make (bs "m:1") e) [CGet i; CFail i; CGet i; CGet j; CFail j; CGet j] = Undef.
Proof.
  intros Hij Hik Hjk Hi Hj Hk He Hej. split; [intros Hek Hkn|]; unfold Client.make; ask; rewrite link_first; next.
  - ask. rewrite link_one, Hej, bool_decide_eq_true_2 by done. next. ask.
    rewrite link_one by done. rewrite bool_decide_eq_false_2 by congruence. cbn [andb]. by rewrite link_past.
  - cbn [calls call_step]. rewrite fail_last by by find_key. next.
    ask. rewrite link_one by done. rewrite andb_false_r. rewrite link_reused. next.
    ask. rewrite link_one, Hej, bool_decide_eq_true_2 by done. next.
    cbn [calls call_step]. rewrite fail_last by by find_key. next.
    ask. rewrite link_one by done. rewrite andb_false_r. by rewrite link_past.
Qed.

Lemma address_cache_overruns_witness :
  (two_servers 8 ≠ [] → two_servers 8 ≠ two_servers 5 →
    calls (Client.make (bs "m:1") two_servers) [CGet 5; CGet 6; CGet 8] = Undef) ∧
  calls (Client.make (bs "m:1") two_servers) [CGet 5; CFail 5; CGet 5; CGet 6; CFail 6; CGet 6] = Undef.
Proof. apply (address_cache_overruns two_servers 5 6 8); try lia; done. Defined.
