(* ===== verification/Lru.v ===== *)
(** * The LRU cache (src/include/util/lru.h)

    A [std::list] of pairs, most recently used first, and a hash table from keys
    to list iterators.  An iterator is the identity of a list node; a node keeps
    it when it is spliced, and using it after the node is gone is undefined. *)

From S2P Require Import Prelude.

Module LRUCache.

(** A node: its identity, and its pair. *)
Abbreviation node K V := (nat * (K * V))%type.

Section lru.
Context {K V : Type} `{Countable K}.

(** [next] is the identity of the next node; [cb] says that there is a
    callback. *)
Record t : Type := mk {
  capacity_ : Z; cb : bool; hs_table_ : gmap K nat; list_ : list (node K V); next : nat }.

Definition make (capacity : Z) (cb : bool) : t := mk capacity cb ∅ [] 0.

(** [*it]. *)
Fixpoint deref (l : list (node K V)) (it : nat) : outcome (K * V) :=
  match l with
  | [] => Undef
  | (id, kv) :: l => if Nat.eqb id it then Done kv else deref l it
  end.

Definition without (l : list (node K V)) (it : nat) : list (node K V) := filter (λ n, n.1 ≠ it) l.

(** [list_.splice(list_.begin(), list_, it)]. *)
Definition splice (l : list (node K V)) (it : nat) : outcome (list (node K V)) :=
  kv ← deref l it; Done ((it, kv) :: without l it).

(** [it->second = value]. *)
Definition set_value (it : nat) (value : V) (n : node K V) : node K V :=
  if Nat.eqb n.1 it then (n.1, (n.2.1, value)) else n.
Definition assign (l : list (node K V)) (it : nat) (value : V) : outcome (list (node K V)) :=
  _ ← deref l it; Done (set_value it value <$> l).

(** [list_.begin()], of a list that is not empty. *)
Definition begin (l : list (node K V)) : outcome nat := match l with [] => Undef | n :: _ => Done n.1 end.

Definition Get (s : t) (key : K) : outcome (option V * t) :=
  match hs_table_ s !! key with
  | Some it =>
      l ← splice (list_ s) it;
      b ← begin l;
      kv ← deref l b;
      Done (Some kv.2, mk (capacity_ s) (cb s) (<[key := b]> (hs_table_ s)) l (next s))
  | None => Done (None, s)
  end.

(** The pairs the callback is called with, and the new state. *)
Definition Put (s : t) (key : K) (value : V) : outcome (list (K * V) * t) :=
  match hs_table_ s !! key with
  | Some it =>
      l ← assign (list_ s) it value;
      l ← splice l it;
      b ← begin l;
      Done ([], mk (capacity_ s) (cb s) (<[key := b]> (hs_table_ s)) l (next s))
  | None =>
      let l := (next s, (key, value)) :: list_ s in
      let hs := <[key := next s]> (hs_table_ s) in
      if capacity_ s <? zlen l then
        match last l with
        | Some (_, kv) =>
            Done (if cb s then [kv] else [],
                  mk (capacity_ s) (cb s) (delete kv.1 hs) (take (length l - 1) l) (S (next s)))
        | None => Undef
        end
      else Done ([], mk (capacity_ s) (cb s) hs l (S (next s)))
  end.

(** A run: the answers to the gets and the evictions of the puts. *)
Inductive op : Type := OGet (k : K) | OPut (k : K) (v : V).
Inductive answer : Type := AGet (v : option V) | APut (evicted : list (K * V)).

Definition step (s : t) (o : op) : outcome (answer * t) :=
  match o with
  | OGet k => '(v, s) ← Get s k; Done (AGet v, s)
  | OPut k v => '(e, s) ← Put s k v; Done (APut e, s)
  end.

Fixpoint run (s : t) (ops : list op) : outcome (list answer * t) :=
  match ops with
  | [] => Done ([], s)
  | o :: ops => '(a, s) ← step s o; '(l, s) ← run s ops; Done (a :: l, s)
  end.

End lru.
Arguments t _ _ {_ _}.
Arguments op : clear implicits.
Arguments answer : clear implicits.
End LRUCache.

Lemma NoDup_fmap_filter {A B} (f : A → B) (P : A → Prop) `{∀ x, Decision (P x)} (l : list A) :
  NoDup (f <$> l) → NoDup (f <$> filter P l).
Proof.
  induction l as [|x l IH]; [done|]. rewrite fmap_cons. intros [Hx Hnd]%NoDup_cons.
  destruct (decide (P x)); [|rewrite filter_cons_False by done; auto].
  rewrite filter_cons_True, fmap_cons by done. apply NoDup_cons. split; [|auto].
  intros (y & Heq & [_ Hy]%list_elem_of_filter)%list_elem_of_fmap. apply Hx. rewrite Heq.
  apply list_elem_of_fmap. by exists y.
Qed.

(** ** The reference: a recency list

    All pairs ever put, the most recently used first; the cache holds the first
    [cap] of them, and a put evicts what it pushes over that mark. *)

Section reference.
Context {K V : Type} `{Countable K}.
Implicit Types (r : list (K * V)) (l : list (LRUCache.node K V)) (k : K) (v : V).
Import LRUCache.

Fixpoint find r k : option V :=
  match r with
  | [] => None
  | (k', v) :: r => if decide (k' = k) then Some v else find r k
  end.

Definition drop_key r k : list (K * V) := filter (λ p, p.1 ≠ k) r.
Definition touch r k v : list (K * V) := (k, v) :: drop_key r k.

Definition ref_step (cap : nat) (cb : bool) r (o : op K V) : answer K V * list (K * V) :=
  match o with
  | OGet k =>
      match find (take cap r) k with
      | Some v => (AGet (Some v), touch r k v)
      | None => (AGet None, r)
      end
  | OPut k v =>
      (APut (match find (take cap r) k with
             | Some _ => []
             | None => if cb then option_list (touch r k v !! cap) else []
             end), touch r k v)
  end.

Fixpoint ref_run (cap : nat) (cb : bool) r (ops : list (op K V)) : list (answer K V) * list (K * V) :=
  match ops with
  | [] => ([], r)
  | o :: ops =>
      let '(a, r) := ref_step cap cb r o in
      let '(l, r) := ref_run cap cb r ops in (a :: l, r)
  end.

Lemma find_Some r k v : find r k = Some v → (k, v) ∈ r.
Proof.
  induction r as [|[k' v'] r IH]; [done|]. cbn [find]. destruct (decide (k' = k)) as [->|].
  - intros [= ->]. left.
  - intros ?. right. auto.
Qed.

Lemma find_None r k : find r k = None → Forall (λ p, p.1 ≠ k) r.
Proof.
  induction r as [|[k' v'] r IH]; [done|]. cbn [find]. destruct (decide (k' = k)); [done|]. intros. constructor; auto.
Qed.

Lemma drop_key_app r r' k : drop_key (r ++ r') k = drop_key r k ++ drop_key r' k.
Proof. apply filter_app. Qed.

Lemma drop_key_none r k : Forall (λ p, p.1 ≠ k) r → drop_key r k = r.
Proof. induction 1 as [|p r Hp Hr IH]; [done|]. unfold drop_key in *. by rewrite filter_cons_True, IH. Qed.

Lemma drop_key_elem r k p : p ∈ drop_key r k ↔ p.1 ≠ k ∧ p ∈ r.
Proof. unfold drop_key. by rewrite list_elem_of_filter. Qed.

Lemma length_drop_key r k v :
  NoDup (fst <$> r) → (k, v) ∈ r → S (length (drop_key r k)) = length r.
Proof.
  induction r as [|[k' v'] r IH]; [by intros _ ?%elem_of_nil|]. rewrite fmap_cons. cbn [fst].
  intros [Hk Hnd]%NoDup_cons [[= -> ->]|Hin]%elem_of_cons; unfold drop_key.
  - rewrite filter_cons_False by (cbn; auto). fold (drop_key r k'). rewrite drop_key_none; [done|].
    apply Forall_forall. intros p Hp Heq. apply Hk, list_elem_of_fmap. eauto.
  - rewrite filter_cons_True; [cbn; f_equal; by apply IH|]. cbn. intros ->.
    apply Hk, list_elem_of_fmap. by exists (k, v).
Qed.

Lemma keys_app_disjoint r r' k v p :
  NoDup (fst <$> r ++ r') → (k, v) ∈ r → p ∈ r' → p.1 ≠ k.
Proof.
  rewrite fmap_app. intros (_ & Hd & _)%NoDup_app Hin Hp <-. apply (Hd p.1).
  - apply list_elem_of_fmap. by exists (p.1, v).
  - apply list_elem_of_fmap. by exists p.
Qed.

(** Touching a pair below the mark keeps the mark; touching another pushes. *)
Lemma take_touch_in cap r k v v0 :
  NoDup (fst <$> r) → (k, v0) ∈ take cap r → take cap (touch r k v) = touch (take cap r) k v.
Proof.
  intros Hnd Hin. rewrite <- (take_drop cap r) in Hnd.
  unfold touch. rewrite <- (take_drop cap r) at 1. rewrite drop_key_app.
  rewrite (drop_key_none (drop cap r)) by (apply Forall_forall; intros p Hp; by eapply keys_app_disjoint).
  assert (Hl : S (length (drop_key (take cap r) k)) = length (take cap r)).
  { apply (length_drop_key _ _ v0); [|done]. rewrite fmap_app in Hnd. by apply NoDup_app in Hnd as [? _]. }
  rewrite length_take in Hl. destruct (decide (cap ≤ length r)%nat).
  - rewrite app_comm_cons. rewrite take_app_le by (cbn; lia). apply take_ge. cbn. lia.
  - rewrite drop_ge, app_nil_r by lia. apply take_ge. cbn. lia.
Qed.

Lemma touch_out cap r k v :
  Forall (λ p, p.1 ≠ k) (take cap r) → ∃ r', touch r k v = ((k, v) :: take cap r) ++ r' ∧
    (length r < cap → r' = [])%nat.
Proof.
  intros Hk. exists (drop_key (drop cap r) k). split.
  - unfold touch. rewrite <- (take_drop cap r) at 1. by rewrite drop_key_app, (drop_key_none (take cap r)).
  - intros Hl. by rewrite drop_ge by lia.
Qed.

Lemma take_touch_out cap r k v :
  Forall (λ p, p.1 ≠ k) (take cap r) →
  take cap (touch r k v) = take cap ((k, v) :: take cap r) ∧
  touch r k v !! cap = ((k, v) :: take cap r) !! cap.
Proof.
  intros Hk. destruct (touch_out cap r k v Hk) as (r' & -> & Hr').
  destruct (decide (length r < cap)%nat).
  - by rewrite Hr', app_nil_r by done.
  - assert (Hl : length ((k, v) :: take cap r) = S cap) by (cbn; rewrite length_take; lia).
    split; [by rewrite take_app_le by lia|]. by rewrite lookup_app_l by lia.
Qed.

Lemma touch_keys r k v : NoDup (fst <$> r) → NoDup (fst <$> touch r k v).
Proof.
  intros Hnd. unfold touch. rewrite fmap_cons. apply NoDup_cons. split.
  - intros ([k' v'] & Heq & Hp)%list_elem_of_fmap. apply drop_key_elem in Hp as [Hne _]. by cbn in *.
  - by apply NoDup_fmap_filter.
Qed.
End reference.

(** ** The cache is the reference *)

Section equivalence.
Context {K V : Type} `{Countable K}.
Implicit Types (r : list (K * V)) (l : list (LRUCache.node K V)) (k : K) (v : V) (s : LRUCache.t K V).
Import LRUCache.

(** The nodes are the first pairs of the recency list, and the table finds the
    node of every key. *)
Record agrees s r : Prop := {
  ag_list : snd <$> list_ s = take (Z.to_nat (capacity_ s)) r;
  ag_keys : NoDup (fst <$> r);
  ag_ids : NoDup (fst <$> list_ s);
  ag_next : Forall (λ n, n.1 < next s)%nat (list_ s);
  ag_table : ∀ k it, hs_table_ s !! k = Some it ↔ ∃ v, (it, (k, v)) ∈ list_ s;
}.

Lemma deref_elem l it kv : NoDup (fst <$> l) → (it, kv) ∈ l → deref l it = Done kv.
Proof.
  induction l as [|[id kv'] l IH]; [by intros _ ?%elem_of_nil|]. rewrite fmap_cons. cbn [fst deref].
  intros [Hid Hnd]%NoDup_cons [[= <- ->]|Hin]%elem_of_cons; [by rewrite Nat.eqb_refl|].
  destruct (Nat.eqb_spec id it) as [->|]; [|auto].
  exfalso. apply Hid, list_elem_of_fmap. by exists (it, kv).
Qed.

(** In the list, the node [it] and the key [k] single out the same pair. *)
Lemma node_of_key l it k v :
  NoDup (fst <$> l) → NoDup (fst <$> (snd <$> l)) → (it, (k, v)) ∈ l →
  Forall (λ n, n.1 = it ↔ n.2.1 = k) l.
Proof.
  intros Hid Hk Hin. apply Forall_forall. intros [id [k' v']] Hn. cbn [fst snd]. split.
  - intros ->. pose proof (deref_elem l it _ Hid Hin) as H1. rewrite (deref_elem l it _ Hid Hn) in H1. congruence.
  - intros ->. apply list_elem_of_lookup_1 in Hin as [i Hi], Hn as [j Hj].
    rewrite <- list_fmap_compose in Hk.
    assert (i = j) as ->; [|congruence].
    eapply (NoDup_lookup (fst ∘ snd <$> l)); [done|rewrite list_lookup_fmap, Hi; done|by rewrite list_lookup_fmap, Hj].
Qed.

Lemma without_values l it k :
  Forall (λ n, n.1 = it ↔ n.2.1 = k) l → snd <$> without l it = drop_key (snd <$> l) k.
Proof.
  induction 1 as [|[id [k' v']] l Hn Hl IH]; [done|]. cbn [fst snd] in Hn. unfold without, drop_key in *.
  rewrite fmap_cons. cbn [snd]. destruct (decide (id = it)) as [->|Hne].
  - rewrite !filter_cons_False by (cbn; naive_solver). done.
  - rewrite !filter_cons_True by (cbn; naive_solver). rewrite fmap_cons. by f_equal.
Qed.

Lemma without_elem l it n : n ∈ without l it ↔ n.1 ≠ it ∧ n ∈ l.
Proof. unfold without. by rewrite list_elem_of_filter. Qed.

Lemma keys_take s r : agrees s r → NoDup (fst <$> (snd <$> list_ s)).
Proof.
  intros Ha. rewrite (ag_list s r Ha). pose proof (ag_keys s r Ha) as Hk.
  rewrite <- (take_drop (Z.to_nat (capacity_ s)) r), fmap_app in Hk. by apply NoDup_app in Hk as [? _].
Qed.

(** Moving the node of [k] to the front, with any value. *)
Lemma agrees_front s r it k v v0 :
  agrees s r → (it, (k, v0)) ∈ list_ s →
  agrees (mk (capacity_ s) (cb s) (<[k := it]> (hs_table_ s)) ((it, (k, v)) :: without (list_ s) it) (next s))
    (touch r k v).
Proof.
  intros Ha Hin. pose proof (node_of_key _ it k v0 (ag_ids s r Ha) (keys_take s r Ha) Hin) as Hn.
  assert (Hkv : (k, v0) ∈ take (Z.to_nat (capacity_ s)) r).
  { rewrite <- (ag_list s r Ha). apply list_elem_of_fmap. by exists (it, (k, v0)). }
  destruct Ha as [Hl Hk Hid Hnx Ht]. split; cbn [capacity_ list_ hs_table_ next].
  - rewrite fmap_cons, (without_values _ _ k), Hl by done. symmetry. by apply (take_touch_in _ _ _ _ v0).
  - by apply touch_keys.
  - rewrite fmap_cons. apply NoDup_cons. split; [|by apply NoDup_fmap_filter].
    intros (n & Heq & [Hne _]%without_elem)%list_elem_of_fmap. by apply Hne.
  - constructor; [rewrite Forall_forall in Hnx; by apply (Hnx _ Hin)|].
    apply Forall_forall. intros n [_ Hx]%without_elem. rewrite Forall_forall in Hnx. by apply Hnx.
  - intros k' it'. rewrite lookup_insert_Some, Ht. rewrite Forall_forall in Hn. split.
    + intros [[-> ->]|[Hne [v' Hv']]]; [exists v; left|]. exists v'. right. apply without_elem.
      split; [|done]. cbn. intros ->. by apply Hne, eq_sym, (Hn _ Hv').
    + intros [v' [[= -> -> ->]|Hv']%elem_of_cons]; [by left|right]. apply without_elem in Hv' as [Hne Hv'].
      split; [|by exists v']. intros <-. by apply Hne, (Hn _ Hv').
Qed.

Lemma table_find s r k :
  agrees s r → find (take (Z.to_nat (capacity_ s)) r) k =
    match hs_table_ s !! k with
    | Some it => match deref (list_ s) it with Done kv => Some kv.2 | _ => None end
    | None => None
    end.
Proof.
  intros Ha. destruct (hs_table_ s !! k) as [it|] eqn:Hit.
  - apply (ag_table s r Ha) in Hit as [v Hv]. rewrite (deref_elem _ _ _ (ag_ids s r Ha) Hv). cbn [snd].
    rewrite <- (ag_list s r Ha). pose proof (keys_take s r Ha) as Hk.
    assert (Hin : (k, v) ∈ snd <$> list_ s) by (apply list_elem_of_fmap; by exists (it, (k, v))).
    revert Hk Hin. generalize (snd <$> list_ s). intros rs. induction rs as [|[k' v'] rs IH]; [by intros _ ?%elem_of_nil|].
    rewrite fmap_cons. cbn [fst find]. intros [Hn Hk]%NoDup_cons [[= -> ->]|Hin]%elem_of_cons; [by rewrite decide_True|].
    rewrite decide_False; [auto|]. intros ->. apply Hn, list_elem_of_fmap. by exists (k, v).
  - destruct (find _ k) as [v|] eqn:Hf; [|done]. apply find_Some in Hf. rewrite <- (ag_list s r Ha) in Hf.
    apply list_elem_of_fmap in Hf as ([it kv] & Heq & Hn). cbn in Heq. subst kv.
    assert (hs_table_ s !! k = Some it) by (apply (ag_table s r Ha); eauto). congruence.
Qed.

Lemma splice_elem l it kv : NoDup (fst <$> l) → (it, kv) ∈ l → splice l it = Done ((it, kv) :: without l it).
Proof. intros Hid Hin. unfold splice. by rewrite (deref_elem l it kv). Qed.

Lemma assign_elem l it k v v0 :
  NoDup (fst <$> l) → (it, (k, v0)) ∈ l →
  ∃ l', assign l it v = Done l' ∧ splice l' it = Done ((it, (k, v)) :: without l it).
Proof.
  intros Hid Hin. unfold assign. rewrite (deref_elem l it (k, v0)) by done. eexists. split; [done|].
  set (l' := set_value it v <$> l).
  assert (Hid' : fst <$> l' = fst <$> l).
  { unfold l'. rewrite <- list_fmap_compose. apply list_fmap_ext. intros i n _. cbn. unfold set_value. by destruct (Nat.eqb n.1 it). }
  rewrite (splice_elem l' it (k, v)); [|by rewrite Hid'|].
  - do 2 f_equal. unfold without, l'. clear. induction l as [|n l IH]; [done|]. rewrite fmap_cons. unfold set_value at 1.
    destruct (Nat.eqb_spec n.1 it) as [He|Hne].
    + by rewrite !filter_cons_False by (cbn; auto).
    + rewrite !filter_cons_True by (cbn; auto). f_equal. exact IH.
  - apply list_elem_of_fmap. exists (it, (k, v0)). unfold set_value. cbn [fst snd]. by rewrite Nat.eqb_refl.
Qed.

Lemma Get_agrees s r k :
  agrees s r → ∃ s' o, Get s k = Done (o, s') ∧ capacity_ s' = capacity_ s ∧ cb s' = cb s ∧
    let '(a, r') := ref_step (Z.to_nat (capacity_ s)) (cb s) r (OGet k) in a = AGet o ∧ agrees s' r'.
Proof.
  intros Ha. pose proof (table_find s r k Ha) as Hf. unfold Get. cbn [ref_step].
  destruct (hs_table_ s !! k) as [it|] eqn:Hit; [|rewrite Hf; by exists s, None].
  apply (ag_table s r Ha) in Hit as [v Hv]. rewrite (deref_elem _ _ _ (ag_ids s r Ha) Hv) in Hf. cbn [snd] in Hf.
  rewrite Hf, (splice_elem _ it (k, v)), bind_Done by (done || apply Ha). cbn [begin deref]. rewrite bind_Done.
  cbn [deref fst]. rewrite Nat.eqb_refl, bind_Done. eexists _, _. split; [done|]. split; [done|]. split; [done|].
  split; [done|]. by apply (agrees_front s r it k v v).
Qed.

(** The state after a new key, before and after the last node goes. *)
Lemma fresh_key s r k : agrees s r → hs_table_ s !! k = None → ∀ n, n ∈ list_ s → n.2.1 ≠ k ∧ (n.1 < next s)%nat.
Proof.
  intros Ha Hk [id [k' v']] Hn. cbn [fst snd]. split.
  - intros ->. assert (hs_table_ s !! k = Some id) by (apply (ag_table s r Ha); eauto). congruence.
  - pose proof (ag_next s r Ha) as Hx. rewrite Forall_forall in Hx. by apply (Hx _ Hn).
Qed.

Lemma agrees_push s r k v l hs :
  agrees s r → hs_table_ s !! k = None →
  snd <$> l = take (Z.to_nat (capacity_ s)) (touch r k v) →
  l `prefix_of` (next s, (k, v)) :: list_ s →
  (∀ k' it, hs !! k' = Some it ↔ ∃ v', (it, (k', v')) ∈ l) →
  agrees (mk (capacity_ s) (cb s) hs l (S (next s))) (touch r k v).
Proof.
  intros Ha Hk Hl [l' Hpre] Hhs. pose proof (fresh_key s r k Ha Hk) as Hfr.
  assert (Hid : NoDup (fst <$> (next s, (k, v)) :: list_ s)).
  { rewrite fmap_cons. apply NoDup_cons. split; [|apply Ha].
    intros (n & Heq & Hn)%list_elem_of_fmap. cbn in Heq. destruct (Hfr n Hn). lia. }
  assert (Hin : ∀ n, n ∈ l → n ∈ (next s, (k, v)) :: list_ s) by (intros n Hn; rewrite Hpre; apply elem_of_app; by left).
  split; cbn [capacity_ list_ hs_table_ next].
  - done.
  - apply touch_keys, Ha.
  - rewrite Hpre, fmap_app in Hid. by apply NoDup_app in Hid as [? _].
  - apply Forall_forall. intros n [->|Hn]%Hin%elem_of_cons; [cbn; lia|]. destruct (Hfr n Hn). lia.
  - done.
Qed.

Lemma Put_new_agrees s r k v :
  agrees s r → hs_table_ s !! k = None → 0 ≤ capacity_ s →
  ∃ e s', Put s k v = Done (e, s') ∧ capacity_ s' = capacity_ s ∧ cb s' = cb s ∧
    e = (if cb s then option_list (touch r k v !! Z.to_nat (capacity_ s)) else []) ∧ agrees s' (touch r k v).
Proof.
  intros Ha Hk Hcap. pose proof (fresh_key s r k Ha Hk) as Hfr.
  assert (Hout : Forall (λ p, p.1 ≠ k) (take (Z.to_nat (capacity_ s)) r)).
  { rewrite <- (ag_list s r Ha). apply Forall_forall. intros p (n & -> & Hn)%list_elem_of_fmap. by apply Hfr. }
  destruct (take_touch_out _ r k v Hout) as [Ht Hat]. rewrite <- (ag_list s r Ha) in Ht, Hat.
  assert (Hlen : (length (list_ s) ≤ Z.to_nat (capacity_ s))%nat).
  { pose proof (f_equal length (ag_list s r Ha)) as E. rewrite length_fmap, length_take in E. lia. }
  set (l := (next s, (k, v)) :: list_ s) in *.
  change ((k, v) :: (snd <$> list_ s)) with (snd <$> l) in Ht, Hat. rewrite <- fmap_take in Ht.
  assert (Htab : ∀ k' it, <[k := next s]> (hs_table_ s) !! k' = Some it ↔ ∃ v', (it, (k', v')) ∈ l).
  { intros k' it. rewrite lookup_insert_Some, (ag_table s r Ha). unfold l. setoid_rewrite elem_of_cons. split.
    - intros [[-> ->]|[_ [v' ?]]]; eauto.
    - intros [v' [[= -> -> ->]|Hn]]; [by left|right]. split; [|eauto]. intros ->. by destruct (Hfr _ Hn). }
  unfold Put. rewrite Hk. fold l. destruct (Z.ltb_spec (capacity_ s) (zlen l)) as [Hlt|Hge].
  - assert (Hl : length l = S (Z.to_nat (capacity_ s))) by (unfold l in *; cbn [length] in *; lia).
    destruct (last l) as [[id [k' v']]|] eqn:Hlast; [|by apply last_None in Hlast].
    eexists _, _. split; [done|]. split; [done|]. split; [done|].
    apply last_Some in Hlast as [l0 Hl0]. rewrite Hl0, length_app in Hl. cbn [length] in Hl.
    assert (Hcl : Z.to_nat (capacity_ s) = length l0) by lia.
    assert (Hlk : (snd <$> l) !! Z.to_nat (capacity_ s) = Some (k', v')).
    { rewrite Hcl, Hl0, fmap_app, lookup_app_r by (by rewrite length_fmap). by rewrite length_fmap, Nat.sub_diag. }
    split; [by rewrite Hat, Hlk|]. cbn [fst].
    replace (take (length l - 1) l) with (take (Z.to_nat (capacity_ s)) l)
      by (f_equal; rewrite Hl0, length_app; cbn [length]; lia).
    apply (agrees_push s r); [done|done|by rewrite Ht|by apply prefix_take|].
    rewrite Hcl, Hl0, take_app_length. intros k1 it. rewrite lookup_delete_Some, Htab, Hl0.
    assert (Hnk : ∀ n, n ∈ l0 → n.2.1 ≠ k').
    { pose proof (touch_keys r k v (ag_keys s r Ha)) as Hkeys.
      rewrite <- (take_drop (Z.to_nat (capacity_ s)) (touch r k v)) in Hkeys.
      intros n Hn Heq. eapply (keys_app_disjoint _ _ k' n.2.2 (k', v') Hkeys); [| |done].
      - rewrite Ht, Hcl, Hl0, take_app_length. apply list_elem_of_fmap. exists n. split; [|done]. destruct n as [? [? ?]]; cbn in *; congruence.
      - apply list_elem_of_lookup. exists 0%nat. by rewrite lookup_drop, Nat.add_0_r, Hat. }
    setoid_rewrite elem_of_app. setoid_rewrite list_elem_of_singleton. split.
    + intros [Hne [w [?|[= -> -> ->]]]]; [eauto|done].
    + intros [w Hw]. split; [|eauto]. intros <-. by apply (Hnk _ Hw).
  - eexists _, _. split; [done|]. split; [done|]. split; [done|].
    split; [rewrite Hat, lookup_ge_None_2 by (rewrite length_fmap; lia); by destruct (cb s)|].
    apply (agrees_push s r); [done|done|rewrite Ht; by rewrite take_ge by lia|done|done].
Qed.

Lemma Put_agrees s r k v :
  agrees s r → 0 ≤ capacity_ s →
  ∃ e s', Put s k v = Done (e, s') ∧ capacity_ s' = capacity_ s ∧ cb s' = cb s ∧
    let '(a, r') := ref_step (Z.to_nat (capacity_ s)) (cb s) r (OPut k v) in a = APut e ∧ agrees s' r'.
Proof.
  intros Ha Hcap. pose proof (table_find s r k Ha) as Hf. cbn [ref_step].
  destruct (hs_table_ s !! k) as [it|] eqn:Hit.
  - unfold Put. rewrite Hit. apply (ag_table s r Ha) in Hit as [v0 Hv].
    rewrite (deref_elem _ _ _ (ag_ids s r Ha) Hv) in Hf. cbn [snd] in Hf. rewrite Hf.
    destruct (assign_elem (list_ s) it k v v0 (ag_ids s r Ha) Hv) as (l' & -> & Hsp).
    rewrite bind_Done, Hsp, bind_Done. cbn [begin]. rewrite bind_Done.
    eexists _, _. split; [done|]. split; [done|]. split; [done|]. split; [done|].
    by apply (agrees_front s r it k v v0).
  - rewrite Hf. destruct (Put_new_agrees s r k v Ha Hit Hcap) as (e & s' & ? & ? & ? & -> & ?).
    eexists _, s'. split_and!; done.
Qed.

Lemma run_agrees ops : ∀ s r,
  agrees s r → 0 ≤ capacity_ s →
  ∃ s', run s ops = Done ((ref_run (Z.to_nat (capacity_ s)) (cb s) r ops).1, s') ∧
    agrees s' (ref_run (Z.to_nat (capacity_ s)) (cb s) r ops).2 ∧ capacity_ s' = capacity_ s.
Proof.
  induction ops as [|o ops IH]; intros s r Ha Hcap; [by exists s|]. cbn [run ref_run].
  assert (∃ a s1, step s o = Done (a, s1) ∧ capacity_ s1 = capacity_ s ∧ cb s1 = cb s ∧
    let '(a', r') := ref_step (Z.to_nat (capacity_ s)) (cb s) r o in a' = a ∧ agrees s1 r') as (a & s1 & Hs & Hc & Hcb & Hr).
  { destruct o as [k|k v].
    - destruct (Get_agrees s r k Ha) as (s' & o & Hg & ? & ? & Hr). exists (AGet o), s'. cbn [step]. by rewrite Hg.
    - destruct (Put_agrees s r k v Ha Hcap) as (e & s' & Hp & ? & ? & Hr). exists (APut e), s'. cbn [step]. by rewrite Hp. }
  rewrite Hs, bind_Done. cbv beta iota. destruct (ref_step _ _ r o) as [a' r']. destruct Hr as [-> Ha1].
  destruct (IH s1 r' Ha1) as (s' & Hrun & Ha' & Hc'); [lia|]. rewrite Hc, Hcb in *.
  rewrite Hrun, bind_Done. cbv beta iota. destruct (ref_run _ _ r' ops) as [outs r'']. exists s'. split_and!; [done|done|congruence].
Qed.

Lemma make_agrees capacity b : agrees (make capacity b) [].
Proof.
  split; cbn [make list_ capacity_ hs_table_ next]; [by rewrite take_nil|apply NoDup_nil_2|apply NoDup_nil_2|done|].
  intros k it. rewrite lookup_empty. split; [done|]. by intros [v ?%elem_of_nil].
Qed.
End equivalence.

(** C17: The LRU cache is equivalent to its reference: for every capacity and
    sequence of gets and puts no iterator is used after its node is gone, every
    get answers and every put evicts as the list of all pairs in the order of
    their last use says, cut after [capacity] pairs; and the cache holds the
    first [capacity] pairs of that list, in that order. *)
Theorem lru_is_recency_list {K V} `{Countable K} capacity cb (ops : list (LRUCache.op K V)) :
  0 ≤ capacity →
  let cap := Z.to_nat capacity in
  let '(outs, r) := ref_run cap cb [] ops in
  ∃ s, LRUCache.run (LRUCache.make capacity cb) ops = Done (outs, s) ∧
    snd <$> LRUCache.list_ s = take cap r ∧ (length (LRUCache.list_ s) ≤ cap)%nat ∧ NoDup (fst <$> r).
Proof.
  intros Hcap. cbv zeta. destruct (run_agrees ops _ [] (make_agrees capacity cb) Hcap) as (s & Hr & Ha & Hc).
  cbn [LRUCache.make LRUCache.capacity_ LRUCache.cb] in *. destruct (ref_run _ cb [] ops) as [outs r]. cbn [fst snd] in *.
  exists s. split; [done|]. destruct Ha as [Hl Hk _ _ _]. rewrite Hc in Hl. split; [done|]. split; [|done].
  pose proof (f_equal length Hl) as E. rewrite length_fmap, length_take in E. lia.
Qed.

Lemma lru_is_recency_list_witness :
  let ops := [LRUCache.OPut 1 10; LRUCache.OPut 2 20; LRUCache.OGet 1; LRUCache.OPut 3 30; LRUCache.OGet 2; LRUCache.OPut 1 11] in
  let cap := Z.to_nat 2 in
  let '(outs, r) := ref_run cap true [] ops in
  ∃ s, LRUCache.run (LRUCache.make 2 true) ops = Done (outs, s) ∧
    snd <$> LRUCache.list_ s = take cap r ∧ (length (LRUCache.list_ s) ≤ cap)%nat ∧ NoDup (fst <$> r).
Proof. intros ops. apply (lru_is_recency_list 2 true ops). lia. Defined.
