(* ===== verification/Kv.v ===== *)
(** * The key-value interface and its in-memory implementation
    (src/include/kv/kv.h, src/kv/mock_kv.cc) *)

From S2P Require Import Prelude StdContainers.

(** ** The interface

    [Query] adds the pairs of the versions of a key to the map it is given. *)
Class KV (S : Type) : Type := {
  Put : S → bytes → bytes → bool * S;
  Get : S → bytes → bytes → bool * bytes;
  Query : S → bytes → list (bytes * bytes) → bool * list (bytes * bytes);
}.

(** [k] is a version of [key]: [key], an underscore, and at least a byte. *)
Definition version_of (key k : bytes) : bool :=
  (zlen key + 1 <? zlen k) && bytes_eqb key (take (length key) k) &&
    bool_decide (k !! length key = Some (z2b 95)).

(** What a store promises: [stores s m] says that it is the map [m], and
    [Query] finds the versions of a key in it. *)
Class KVLaws (S : Type) `{KV S} : Type := {
  stores : S → list (bytes * bytes) → Prop;
  stores_ordered s m : stores s m → ordered m;
  put_law s m k v : stores s m → let '(ok, s') := Put s k v in ok = true ∧ stores s' (om_assign k v m);
  get_law s m k v : stores s m →
    Get s k v = match om_find k m with Some v' => (true, v') | None => (false, v) end;
  query_law s m k : stores s m → Query s k [] = (true, filter (λ p, version_of k p.1 = true) m);
}.

(** ** MockKV *)

Module MockKV.
Abbreviation t := (list (bytes * bytes)).

Definition Put (kvs_ : t) (key value : bytes) : bool * t := (true, om_assign key value kvs_).

Definition Get (kvs_ : t) (key value : bytes) : bool * bytes :=
  match om_find key kvs_ with Some v => (true, v) | None => (false, value) end.

(** The loop over all pairs. *)
Fixpoint query_loop (key : bytes) (it : t) (values : list (bytes * bytes)) : list (bytes * bytes) :=
  match it with
  | [] => values
  | (k, v) :: it => query_loop key it (if version_of key k then om_insert k v values else values)
  end.

Definition Query (kvs_ : t) (key : bytes) (values : list (bytes * bytes)) : bool * list (bytes * bytes) :=
  (true, query_loop key kvs_ values).
End MockKV.

#[export] Instance mock_kv : KV MockKV.t := {|
  Put := MockKV.Put; Get := MockKV.Get; Query := MockKV.Query |}.

(** Pairs inserted in order into a map end up behind it. *)
Lemma om_insert_last k v (m : list (bytes * bytes)) :
  Forall (λ p, less p.1 k = true) m → om_insert k v m = m ++ [(k, v)].
Proof. induction 1 as [|[k' v'] m Hk Hm IH]; [done|]. cbn [om_insert fst] in *. by rewrite Hk, IH. Qed.

Lemma query_loop_filter key it : ∀ values,
  ordered it → Forall (λ p, Forall (λ q, less q.1 p.1 = true) values) it →
  MockKV.query_loop key it values = values ++ filter (λ p, version_of key p.1 = true) it.
Proof.
  induction it as [|[k v] it IH]; intros values Ho Hv; cbn [MockKV.query_loop]; [by rewrite app_nil_r|].
  apply StronglySorted_inv in Ho as [Ho Hk]. apply Forall_cons in Hv as [Hv1 Hv]. cbn [fst] in Hv1.
  destruct (version_of key k) eqn:Hver.
  - rewrite om_insert_last, filter_cons_True by done. rewrite IH; [by rewrite <- app_assoc|done|].
    rewrite Forall_forall in *. intros p Hp. apply Forall_app. split; [by apply Hv|].
    repeat constructor. by apply (Hk p).
  - rewrite filter_cons_False by (cbn; congruence). by apply IH.
Qed.

#[export] Program Instance mock_kv_laws : KVLaws MockKV.t := {| stores s m := s = m ∧ ordered m |}.
Next Obligation. by intros s m [_ ?]. Qed.
Next Obligation. intros s m k v [-> Ho]. split; [done|]. split; [done|]. by apply om_assign_ordered. Qed.
Next Obligation. by intros s m k v [-> _]. Qed.
Next Obligation.
  intros s m k [-> Ho]. cbn [Query mock_kv MockKV.Query]. unfold MockKV.Query. f_equal.
  rewrite query_loop_filter; [done|done|]. apply Forall_forall. done.
Qed.
