(* ===== verification/Mvcc.v ===== *)
(** * Multi-version reads over a key-value store (src/mvcc/mvcc.cc)

    A version of [key] at time [ts] is the pair [key_ts] of the store, a removal
    the pair [key_ts_d]; [ts] is written as the four bytes of an [int].  The
    development is over the interface [KV] of Kv.v. *)

From S2P Require Import Prelude StdContainers Kv.

Definition underscore : byte := z2b 95.

Definition ts_to_str (t : Z) : bytes := i32_bytes t.
Definition str_to_ts (str : bytes) : outcome Z := x ← peek32 str 0; Done (sgn 32 x).

(** [std::count(begin, end, '_')], [find_last_of("_")] and
    [find_first_of("_")]. *)
Definition count_ (s : bytes) : Z := zlen (filter (λ b, b = underscore) s).
Fixpoint find_first_of (s : bytes) : option Z :=
  match s with
  | [] => None
  | b :: s => if decide (b = underscore) then Some 0 else Z.succ <$> find_first_of s
  end.
Fixpoint find_last_of (s : bytes) : option Z :=
  match s with
  | [] => None
  | b :: s =>
      match find_last_of s with
      | Some i => Some (i + 1)
      | None => if decide (b = underscore) then Some 0 else None
      end
  end.

(** ** The search for a version *)

(** One round of the loop: [ret], [lb] and [ub] are [int]s; [vec[mid]] is
    undefined outside the vector, and so is an overflowing sum. *)
Fixpoint search_loop (fuel : nat) (vec : list (Z * Z)) (key ret lb ub : Z) : outcome Z :=
  match fuel with
  | O => NoFuel
  | S fuel =>
      if lb <=? ub then
        if 2 ^ 31 <=? lb + ub then Undef
        else
          let mid := Z.quot (lb + ub) 2 in
          if mid <? 0 then Undef
          else
            match vec !! Z.to_nat mid with
            | None => Undef
            | Some (t, _) =>
                if t <=? key then search_loop fuel vec key mid (mid + 1) ub
                else search_loop fuel vec key ret lb (mid - 1)
            end
      else Done ret
  end.

(** Every round halves [ub - lb]. *)
Definition search_version (vec : list (Z * Z)) (key : Z) : outcome Z :=
  search_loop (S (length vec)) vec key (-1) 0 (sgn 32 (wrap64 (zlen vec - 1))).

(** ** The operations *)

Module SimpleMVCC.
Section mvcc.
Context {S : Type} `{KV S}.

Definition Insert (m_kv_ : S) (raw_key value : bytes) (ts : Z) : bool * S :=
  let '(_, m_kv_) := Put m_kv_ (raw_key ++ [underscore] ++ ts_to_str ts) value in (true, m_kv_).

(** What the loop of [Select] reads off a key: its time, and whether it is a
    removal; [None] is the internal error. *)
Definition read_key (k : bytes) : outcome (option (Z * bool)) :=
  let times_ := count_ k in
  if (times_ <=? 0) || (2 <? times_) then Done None
  else if times_ =? 1 then
    match find_last_of k with
    | Some pos_ts => s ← substr k (pos_ts + 1) (zlen k); t ← str_to_ts s; Done (Some (t, false))
    | None => Undef
    end
  else
    match find_first_of k with
    | Some pos_ts => s ← substr k (pos_ts + 1) 4; t ← str_to_ts s; Done (Some (t, true))
    | None => Undef
    end.

(** [data_timestamp], [data_value] and [data_del] after the loop; [cnt] is the
    number of pairs before. *)
Fixpoint select_loop (data : list (bytes * bytes)) (cnt : Z) :
    outcome (option (list (Z * Z) * list bytes * list Z)) :=
  match data with
  | [] => Done (Some ([], [], []))
  | (k, v) :: data =>
      r ← read_key k;
      match r with
      | None => Done None
      | Some (t, is_del) =>
          rest ← select_loop data (cnt + 1);
          match rest with
          | None => Done None
          | Some (ts, values, del) =>
              Done (Some ((t, cnt) :: ts, v :: values, if is_del : bool then t :: del else del))
          end
      end
  end.

(** The end of [Select]: the version at [idx]. *)
Definition select_at (ts : list (Z * Z)) (values : list bytes) (del : list Z) (idx : Z) : outcome (bool * bytes) :=
  if idx <? 0 then Done (false, [])
  else
    match ts !! Z.to_nat idx with
    | None => Undef
    | Some (t, i) =>
        if bool_decide (t ∈ del) then Done (false, [])
        else match values !! Z.to_nat i with Some v => Done (true, v) | None => Undef end
    end.

Definition Select (m_kv_ : S) (raw_key value : bytes) (ts : Z) : outcome (bool * bytes) :=
  let '(_, data) := Query m_kv_ raw_key [] in
  if bool_decide (data = []) then Done (false, value)
  else
    r ← select_loop data 0;
    match r with
    | None => Done (false, value)
    | Some (data_timestamp, data_value, data_del) =>
        idx ← search_version data_timestamp ts;
        select_at data_timestamp data_value data_del idx
    end.

Definition Delete (m_kv_ : S) (raw_key : bytes) (ts : Z) : bool * S :=
  let '(_, data) := Query m_kv_ raw_key [] in
  if bool_decide (data = []) then (false, m_kv_)
  else
    let '(_, m_kv_) := Put m_kv_ (raw_key ++ [underscore] ++ ts_to_str ts ++ [underscore; z2b 100]) [] in
    (true, m_kv_).

End mvcc.
End SimpleMVCC.

(** ** The binary search finds the last version that is not later *)

Lemma search_loop_spec vec key : ∀ fuel ret lb ub,
  (∀ i j x y, (i ≤ j)%nat → vec !! i = Some x → vec !! j = Some y → x.1 ≤ y.1) →
  zlen vec < 2 ^ 30 → 0 ≤ lb → ub < zlen vec → lb ≤ ub + 1 → ret = lb - 1 →
  (∀ i x, vec !! i = Some x → Z.of_nat i < lb → x.1 ≤ key) →
  (∀ i x, vec !! i = Some x → ub < Z.of_nat i → key < x.1) →
  ub - lb + 1 < Z.of_nat fuel →
  ∃ idx, search_loop fuel vec key ret lb ub = Done idx ∧ -1 ≤ idx < zlen vec ∧
    (∀ i x, vec !! i = Some x → Z.of_nat i ≤ idx → x.1 ≤ key) ∧
    (∀ i x, vec !! i = Some x → idx < Z.of_nat i → key < x.1).
Proof.
  induction fuel as [|fuel IH]; intros ret lb ub Hs Hl Hlb Hub Hle -> Hlo Hhi Hf; [lia|]. cbn [search_loop].
  destruct (Z.leb_spec lb ub).
  - test_false. cbv zeta. rewrite Z.quot_div_nonneg by lia.
    assert (Hmid : lb ≤ (lb + ub) / 2 ≤ ub) by (split; [apply Z.div_le_lower_bound|apply Z.div_le_upper_bound]; lia).
    set (mid := (lb + ub) / 2) in *. test_false.
    destruct (vec !! Z.to_nat mid) as [[t c]|] eqn:Hx; [|apply lookup_ge_None in Hx; lia].
    destruct (Z.leb_spec t key).
    + apply IH; [done|done|lia|lia|lia|lia| |done|lia].
      intros i x Hi Hlt. assert (x.1 ≤ t); [|lia]. apply (Hs i (Z.to_nat mid) x (t, c)); [lia|done|done].
    + apply IH; [done|done|lia|lia|lia|lia|done| |lia].
      intros i x Hi Hlt. assert (t ≤ x.1); [|lia]. apply (Hs (Z.to_nat mid) i (t, c) x); [lia|done|done].
  - exists (lb - 1). split; [done|]. split; [lia|]. split.
    + intros i x Hi Hlt. apply (Hlo i); [done|lia].
    + intros i x Hi Hlt. apply (Hhi i); [done|lia].
Qed.

Lemma search_version_spec vec key :
  (∀ i j x y, (i ≤ j)%nat → vec !! i = Some x → vec !! j = Some y → x.1 ≤ y.1) → zlen vec < 2 ^ 30 → vec ≠ [] →
  ∃ idx, search_version vec key = Done idx ∧ -1 ≤ idx < zlen vec ∧
    (∀ i x, vec !! i = Some x → Z.of_nat i ≤ idx → x.1 ≤ key) ∧
    (∀ i x, vec !! i = Some x → idx < Z.of_nat i → key < x.1).
Proof.
  intros Hs Hl Hne. assert (0 < zlen vec) by (destruct vec; [done|cbn; lia]).
  unfold search_version. rewrite wrap_small, sgn_small by (cbn in *; lia).
  apply search_loop_spec; try done; try lia.
  intros i x Hi%lookup_lt_Some Hlt. lia.
Qed.

(** ** The keys of versions *)

(** Raw keys without an underscore, and times whose four bytes hold none: an
    underscore there is counted as one of the key's ([mvcc_bad_times]). *)
Definition key_ok (k : bytes) : Prop := Forall (λ b, b ≠ underscore) k.
Definition ts_ok (t : Z) : Prop := - 2 ^ 31 ≤ t < 2 ^ 31 ∧ count_ (ts_to_str t) = 0.

(** What [Select] relies on where its sort is commented out: among these times,
    the order of the bytes, lowest first, is that of the times. *)
Definition in_order (l : list Z) : Prop :=
  Forall (λ t, Forall (λ t', less (ts_to_str t) (ts_to_str t') = true → t ≤ t') l) l.

(** The key of the version of [k] at [t], or of its removal. *)
Definition vkey (k : bytes) (t : Z) (d : bool) : bytes :=
  k ++ underscore :: ts_to_str t ++ (if d then [underscore; z2b 100] else []).

Lemma count_app a b : count_ (a ++ b) = count_ a + count_ b.
Proof. unfold count_. rewrite filter_app, length_app. lia. Qed.
Lemma count_cons b s : count_ (b :: s) = (if decide (b = underscore) then 1 else 0) + count_ s.
Proof. unfold count_. rewrite filter_cons. destruct (decide _); cbn [length]; lia. Qed.
Lemma count_key k : key_ok k → count_ k = 0.
Proof. induction 1 as [|b k Hb Hk IH]; [done|]. by rewrite count_cons, decide_False. Qed.
Lemma find_first_key k s : key_ok k → find_first_of (k ++ underscore :: s) = Some (zlen k).
Proof.
  induction 1 as [|b k Hb Hk IH]; cbn [app find_first_of]; [by rewrite decide_True|].
  rewrite decide_False, IH by done. cbn. f_equal. lia.
Qed.

Lemma find_last_none s : count_ s = 0 → find_last_of s = None.
Proof.
  induction s as [|b s IH]; [done|]. rewrite count_cons. intros Hc. cbn [find_last_of].
  assert (0 ≤ count_ s) by (unfold count_; lia). destruct (decide (b = underscore)); [lia|].
  rewrite IH by lia. done.
Qed.

Lemma find_last_key k s : count_ s = 0 → find_last_of (k ++ underscore :: s) = Some (zlen k).
Proof.
  intros Hs. induction k as [|b k IH]; cbn [app find_last_of].
  - rewrite find_last_none by done. by rewrite decide_True.
  - rewrite IH. f_equal. cbn [length]. lia.
Qed.

Lemma substr_from (a b c : bytes) n :
  zlen b ≤ n → (c = [] ∨ n = zlen b) → substr (a ++ b ++ c) (zlen a) n = Done b.
Proof.
  intros Hn [->| ->]; [|by apply substr_app]. rewrite app_nil_r. unfold substr. rewrite length_app.
  test_false. replace (Z.min _ _) with (zlen b) by lia. by rewrite !Nat2Z.id, drop_app_length, firstn_all.
Qed.

Lemma str_to_ts_bytes t : - 2 ^ 31 ≤ t < 2 ^ 31 → str_to_ts (ts_to_str t) = Done t.
Proof.
  intros Ht. unfold str_to_ts, ts_to_str. pose proof (peek_app 4 [] (i32_bytes t) [] (length_i32_bytes t)) as Hp.
  rewrite app_nil_r in Hp. cbn [app length] in Hp. change (Z.of_nat 0) with 0 in Hp.
  rewrite Hp, bind_Done, le_val_i32, sgn_wrap32 by done. done.
Qed.

Lemma read_vkey k t d : key_ok k → ts_ok t → SimpleMVCC.read_key (vkey k t d) = Done (Some (t, d)).
Proof.
  intros Hk [Ht Hc]. unfold SimpleMVCC.read_key, vkey.
  replace (k ++ underscore :: ts_to_str t ++ if d then [underscore; z2b 100] else [])
    with ((k ++ [underscore]) ++ ts_to_str t ++ if d then [underscore; z2b 100] else []) by by rewrite <- app_assoc.
  rewrite !count_app, (count_key k), Hc by done.
  assert (H4 : zlen (ts_to_str t) = 4) by (unfold ts_to_str; by rewrite length_i32_bytes).
  assert (Hlen : zlen k + 1 = zlen (k ++ [underscore])) by (rewrite length_app; cbn [length]; lia).
  destruct d.
  - change (0 + _ + _ <=? 0) with false. change (2 <? _) with false. change (_ =? 1) with false. cbn [orb].
    rewrite <- (app_assoc k). cbn [app]. rewrite find_first_key by done. rewrite Hlen.
    replace (k ++ underscore :: ts_to_str t ++ [underscore; z2b 100])
      with ((k ++ [underscore]) ++ ts_to_str t ++ [underscore; z2b 100]) by by rewrite <- app_assoc.
    rewrite (substr_from (k ++ [underscore])) by (lia || by right). by rewrite bind_Done, str_to_ts_bytes.
  - change (0 + _ + _ <=? 0) with false. change (2 <? _) with false. change (_ =? 1) with true. cbn [orb].
    rewrite <- (app_assoc k) at 1. cbn [app]. rewrite app_nil_r, find_last_key by done. rewrite Hlen.
    rewrite <- (app_nil_r (ts_to_str t)), (substr_from (k ++ [underscore])), bind_Done, str_to_ts_bytes; [done|done| |by left].
    rewrite !length_app. lia.
Qed.

Lemma take_key (k s : bytes) : take (length k) (k ++ s) = k.
Proof. by rewrite take_app_length. Qed.

(** A version of [k] is a version of no other key. *)
Lemma version_of_vkey k k' t d : key_ok k → key_ok k' → version_of k (vkey k' t d) = true ↔ k = k'.
Proof.
  intros Hk Hk'. unfold version_of. rewrite !andb_true_iff, !bool_decide_eq_true, Z.ltb_lt. split.
  - intros [[_ Ht] Hu]. set (s := vkey k' t d) in *.
    assert (Hs : s = k ++ underscore :: drop (S (length k)) s).
    { rewrite <- (take_drop (length k) s) at 1. rewrite <- Ht. f_equal. by apply drop_S. }
    pose proof (find_first_key k (drop (S (length k)) s) Hk) as H1. rewrite <- Hs in H1.
    unfold s, vkey in H1. rewrite find_first_key in H1 by done. injection H1 as Hlen.
    rewrite Ht. unfold s, vkey. replace (length k) with (length k') by lia. apply take_key.
  - intros <-. unfold vkey. rewrite take_key. split; [split; [|done]|].
    + rewrite !length_app. cbn [length]. rewrite length_app. unfold ts_to_str. rewrite length_i32_bytes. lia.
    + by rewrite lookup_app_r, Nat.sub_diag by lia.
Qed.

Lemma vkey_inj k k' t t' d d' :
  key_ok k → key_ok k' → ts_ok t → ts_ok t' → vkey k t d = vkey k' t' d' → k = k' ∧ t = t' ∧ d = d'.
Proof.
  intros Hk Hk' Ht Ht' Heq. split.
  - apply (version_of_vkey k k' t' d'); [done|done|]. rewrite <- Heq. by apply version_of_vkey.
  - pose proof (read_vkey k t d Hk Ht) as H1. rewrite Heq, read_vkey in H1 by done. by injection H1 as -> ->.
Qed.

Lemma ltb_prefix p a b : bytes_ltb (p ++ a) (p ++ b) = bytes_ltb a b.
Proof. induction p as [|x p IH]; [done|]. cbn [app bytes_ltb]. by rewrite Z.ltb_irrefl. Qed.

Lemma ltb_same_length (a b x y : bytes) :
  length a = length b → bytes_ltb (a ++ x) (b ++ y) = true → bytes_ltb a b = true ∨ a = b.
Proof.
  revert b. induction a as [|c a IH]; intros [|c' b] Hl; try done; [by right|]. cbn [app bytes_ltb]. injection Hl as Hl.
  destruct (Z.ltb_spec (b2z c) (b2z c')); [by left|]. destruct (Z.ltb_spec (b2z c') (b2z c)); [done|].
  intros [?| ->]%(IH b Hl); [by left|right]. f_equal. apply b2z_inj. lia.
Qed.

(** The store keeps the versions of a key in the order of the bytes of their times. *)
Lemma vkey_order k t t' d d' :
  ts_ok t → ts_ok t' → less (vkey k t d) (vkey k t' d') = true → t = t' ∨ less (ts_to_str t) (ts_to_str t') = true.
Proof.
  intros [Ht _] [Ht' _]. unfold less, less_bytes, vkey. rewrite ltb_prefix. cbn [bytes_ltb]. rewrite Z.ltb_irrefl.
  intros [?|Heq]%ltb_same_length; [by right|left|by unfold ts_to_str; rewrite !length_i32_bytes].
  pose proof (str_to_ts_bytes t Ht) as H1. rewrite Heq, str_to_ts_bytes in H1 by done. by injection H1.
Qed.

Lemma ordered_lookup {A} (R : relation A) l i j x y :
  StronglySorted R l → (i < j)%nat → l !! i = Some x → l !! j = Some y → R x y.
Proof.
  intros Hs. revert i j. induction Hs as [|z l Hs IH Hz]; intros i j Hij Hi Hj; [done|].
  destruct j as [|j]; [lia|]. cbn in Hj. destruct i as [|i]; cbn in Hi.
  - injection Hi as ->. rewrite Forall_forall in Hz. by eapply Hz, list_elem_of_lookup_2.
  - by apply (IH i j); [lia| |].
Qed.

Lemma ordered_filter {A} (R : relation A) (P : A → Prop) `{∀ x, Decision (P x)} l :
  StronglySorted R l → StronglySorted R (filter P l).
Proof.
  induction 1 as [|x l Hs IH Hx]; [constructor|]. rewrite filter_cons. destruct (decide (P x)); [|done].
  constructor; [done|]. rewrite Forall_forall in *. intros y [_ Hy]%list_elem_of_filter. auto.
Qed.

(** ** The versions of the store *)

(** What was inserted and what was removed: the values by key and time, and the
    keys and times of the removals. *)
Record history : Type := mkHistory { inserted : gmap (bytes * Z) bytes; removed : gset (bytes * Z) }.

Definition versions (h : history) (k : bytes) : list Z :=
  snd <$> filter (λ p, p.1 = k) ((map_to_list (inserted h)).*1 ++ elements (removed h)).

(** The latest time of the list that is not after [ts]. *)
Definition newest (l : list Z) (ts : Z) : option Z :=
  foldr (λ t acc, if t <=? ts then Some (match acc with Some a => Z.max t a | None => t end) else acc) None l.

Definition spec_insert (h : history) (k v : bytes) (t : Z) : history :=
  mkHistory (<[(k, t) := v]> (inserted h)) (removed h).
Definition spec_delete (h : history) (k : bytes) (t : Z) : bool * history :=
  if bool_decide (versions h k = []) then (false, h)
  else (true, mkHistory (inserted h) ({[(k, t)]} ∪ removed h)).
Definition spec_select (h : history) (k value : bytes) (ts : Z) : bool * bytes :=
  if bool_decide (versions h k = []) then (false, value)
  else
    match newest (versions h k) ts with
    | None => (false, [])
    | Some t =>
        if bool_decide ((k, t) ∈ removed h) then (false, [])
        else match inserted h !! (k, t) with Some v => (true, v) | None => (false, []) end
    end.

Lemma elem_of_versions h k t : t ∈ versions h k ↔ is_Some (inserted h !! (k, t)) ∨ (k, t) ∈ removed h.
Proof.
  unfold versions. rewrite list_elem_of_fmap. split.
  - intros ([k' t'] & -> & [Hk Hp]%list_elem_of_filter). cbn [fst snd] in *. subst k'.
    apply elem_of_app in Hp as [([p v] & Heq & Hin)%list_elem_of_fmap|Hp%elem_of_elements]; [left|by right].
    cbn in Heq. subst p. apply elem_of_map_to_list in Hin. eauto.
  - intros Hp. exists (k, t). split; [done|]. apply list_elem_of_filter. split; [done|]. apply elem_of_app.
    destruct Hp as [[v Hv]|Hp]; [left|right; by apply elem_of_elements].
    apply list_elem_of_fmap. exists (k, t, v). split; [done|]. by apply elem_of_map_to_list.
Qed.

Lemma newest_spec l ts :
  match newest l ts with
  | Some t => t ∈ l ∧ t ≤ ts ∧ ∀ t', t' ∈ l → t' ≤ ts → t' ≤ t
  | None => ∀ t', t' ∈ l → ts < t'
  end.
Proof.
  induction l as [|x l IH]; cbn [newest foldr]; [by intros t' ?%elem_of_nil|]. fold (newest l ts). destruct (Z.leb_spec x ts).
  - destruct (newest l ts) as [a|].
    + destruct IH as (Ha & Hat & Hmax). split; [destruct (Z.max_spec x a) as [[_ ->]|[_ ->]]; [by right|left]|].
      split; [lia|]. intros t' [->|Ht']%elem_of_cons Hle; [lia|]. specialize (Hmax t' Ht' Hle). lia.
    + split; [left|]. split; [done|]. intros t' [->|Ht']%elem_of_cons Hle; [lia|]. specialize (IH t' Ht'). lia.
  - destruct (newest l ts) as [a|].
    + destruct IH as (Ha & Hat & Hmax). split; [by right|]. split; [done|]. intros t' [->|Ht']%elem_of_cons Hle; [lia|auto].
    + intros t' [->|Ht']%elem_of_cons; [done|auto].
Qed.

(** The pairs of the store are the versions of the history. *)
Record records (m : list (bytes * bytes)) (h : history) : Prop := {
  rec_ordered : ordered m;
  rec_pairs key v : (key, v) ∈ m ↔ ∃ k t d, key_ok k ∧ ts_ok t ∧ key = vkey k t d ∧
    if d : bool then (k, t) ∈ removed h ∧ v = [] else inserted h !! (k, t) = Some v;
  rec_ok k t : is_Some (inserted h !! (k, t)) ∨ (k, t) ∈ removed h → key_ok k ∧ ts_ok t;
}.

Lemma select_loop_spec k data : ∀ cnt,
  key_ok k → Forall (λ e, ∃ t d, ts_ok t ∧ e.1 = vkey k t d) data →
  ∃ L del, SimpleMVCC.select_loop data cnt =
      Done (Some (imap (λ i p, (p.1, cnt + Z.of_nat i)) L, data.*2, del)) ∧
    data.*1 = (λ p, vkey k p.1 p.2) <$> L ∧ Forall (λ p : Z * bool, ts_ok p.1) L ∧
    ∀ t, t ∈ del ↔ (t, true) ∈ L.
Proof.
  induction data as [|[key v] data IH]; intros cnt Hk Hd.
  - exists [], []. split; [done|]. split; [done|]. split; [done|]. intros t. set_solver.
  - apply Forall_cons in Hd as [(t & d & Ht & Heq) Hd]. cbn [fst] in Heq. subst key.
    destruct (IH (cnt + 1) Hk Hd) as (L & del & Hl & Hkeys & Hts & Hdel).
    exists ((t, d) :: L), (if d then t :: del else del). cbn [SimpleMVCC.select_loop].
    rewrite read_vkey, bind_Done by done. cbv beta iota. rewrite Hl, bind_Done. cbv beta iota.
    split; [|split; [|split]].
    + rewrite imap_cons. cbn [fst]. rewrite Z.add_0_r. do 5 f_equal. apply imap_ext. intros i p _. cbn. f_equal. lia.
    + rewrite !fmap_cons. cbn [fst snd]. by rewrite Hkeys.
    + by constructor.
    + intros t'. destruct d; rewrite elem_of_cons, ?elem_of_cons, Hdel; naive_solver.
Qed.

Section select.
Context {S : Type} `{KVLaws S}.

Lemma query_versions m h k e :
  records m h → key_ok k → e ∈ filter (λ p, version_of k p.1 = true) m →
  ∃ t d, ts_ok t ∧ e.1 = vkey k t d.
Proof.
  intros Hr Hk [Hv He]%list_elem_of_filter. destruct e as [key v]. cbn [fst] in *.
  apply (rec_pairs m h Hr) in He as (k' & t & d & Hk' & Ht & -> & _). exists t, d. split; [done|].
  apply version_of_vkey in Hv; [by subst k'|done|done].
Qed.

Lemma versions_query m h k t d v :
  records m h → key_ok k → ts_ok t →
  (vkey k t d, v) ∈ filter (λ p, version_of k p.1 = true) m ↔
    if d then (k, t) ∈ removed h ∧ v = [] else inserted h !! (k, t) = Some v.
Proof.
  intros Hr Hk Ht. rewrite list_elem_of_filter. cbn [fst]. rewrite (rec_pairs m h Hr). split.
  - intros [_ (k' & t' & d' & Hk' & Ht' & Heq & Hx)]. apply vkey_inj in Heq as (-> & -> & ->); done.
  - intros Hx. split; [by apply version_of_vkey|]. by exists k, t, d.
Qed.

(** What the loop of [Select] reads off the versions [data] of [k]: [L] lists
    their times and kinds, in the order of the bytes of the times. *)
Record reads (h : history) (k : bytes) (data : list (bytes * bytes)) (L : list (Z * bool)) : Prop := {
  rd_at i t d : L !! i = Some (t, d) → ts_ok t ∧ ∃ v, data !! i = Some (vkey k t d, v);
  rd_index t d v : ts_ok t → (vkey k t d, v) ∈ data → ∃ i, L !! i = Some (t, d);
  rd_length : length L = length data;
  rd_order i j t d t' d' : (i ≤ j)%nat → L !! i = Some (t, d) → L !! j = Some (t', d') →
    t = t' ∨ less (ts_to_str t) (ts_to_str t') = true;
}.

Lemma select_reads m h k (data := filter (λ p : bytes * bytes, version_of k p.1 = true) m) :
  records m h → key_ok k →
  ∃ L del, reads h k data L ∧
    SimpleMVCC.select_loop data 0 = Done (Some (imap (λ i p, (p.1, 0 + Z.of_nat i)) L, data.*2, del)) ∧
    ∀ t, t ∈ del ↔ (t, true) ∈ L.
Proof.
  intros Hr Hk. destruct (select_loop_spec k data 0 Hk) as (L & del & Hl & Hkeys & Hts & Hdel).
  { apply Forall_forall. intros e He. by apply (query_versions m h k e). }
  exists L, del. split; [|done].
  assert (HL : ∀ i t d, L !! i = Some (t, d) → ts_ok t ∧ ∃ v, data !! i = Some (vkey k t d, v)).
  { intros i t d Hi. rewrite Forall_forall in Hts. split; [by apply (Hts (t, d)), (list_elem_of_lookup_2 _ i)|].
    assert (Hi1 : data.*1 !! i = Some (vkey k t d)) by by rewrite Hkeys, list_lookup_fmap, Hi.
    rewrite list_lookup_fmap in Hi1. destruct (data !! i) as [[key v]|]; [|done]. exists v. cbn in Hi1. congruence. }
  split; [done| | |].
  - intros t d v Ht [i Hi]%list_elem_of_lookup_1. exists i.
    assert (Hi1 : data.*1 !! i = Some (vkey k t d)) by by rewrite list_lookup_fmap, Hi.
    rewrite Hkeys, list_lookup_fmap in Hi1. destruct (L !! i) as [[t' d']|] eqn:HLi; [|done].
    destruct (HL i t' d' HLi) as [Ht' _]. injection Hi1 as Hi1. by apply vkey_inj in Hi1 as (_ & -> & ->).
  - by rewrite <- (length_fmap fst data), Hkeys, length_fmap.
  - intros i j t d t' d' Hij Hi Hj.
    destruct (decide (i = j)) as [->|Hne']; [left; rewrite Hi in Hj; by injection Hj as -> ->|].
    destruct (HL i t d Hi) as (Ht & v & Hdi), (HL j t' d' Hj) as (Ht' & v' & Hdj).
    apply (vkey_order k t t' d d' Ht Ht').
    assert (Hlt : lt (vkey k t d, v) (vkey k t' d', v')); [|exact Hlt].
    apply (ordered_lookup lt data i j); [apply ordered_filter, Hr|lia|done|done].
Qed.

Lemma reads_versions m h k L t (data := filter (λ p : bytes * bytes, version_of k p.1 = true) m) :
  records m h → key_ok k → reads h k data L → t ∈ versions h k ↔ ∃ d i, L !! i = Some (t, d).
Proof.
  intros Hr Hk Hrd. rewrite elem_of_versions. split.
  - intros Ht. destruct (rec_ok m h Hr k t Ht) as [_ Hok]. destruct Ht as [[v Hv]|Hd].
    + exists false. apply (rd_index h k data L Hrd t false v Hok). by apply (versions_query m h k t false v).
    + exists true. apply (rd_index h k data L Hrd t true [] Hok). by apply (versions_query m h k t true []).
  - intros (d & i & Hi). destruct (rd_at h k data L Hrd i t d Hi) as (Ht & v & Hv%list_elem_of_lookup_2).
    apply (versions_query m h k t d v Hr Hk Ht) in Hv. destruct d; [right; apply Hv|left; exists v; exact Hv].
Qed.

(** Times in order are read in their order. *)
Lemma rd_sorted m h k L (data := filter (λ p : bytes * bytes, version_of k p.1 = true) m) i j t d t' d' :
  records m h → key_ok k → reads h k data L → in_order (versions h k) →
  (i ≤ j)%nat → L !! i = Some (t, d) → L !! j = Some (t', d') → t ≤ t'.
Proof.
  intros Hr Hk Hrd Ho Hij Hi Hj. destruct (rd_order h k data L Hrd i j t d t' d' Hij Hi Hj) as [->|Hl]; [done|].
  unfold in_order in Ho. rewrite Forall_forall in Ho. assert (Ht : t ∈ versions h k) by (apply (reads_versions m h k L); eauto).
  specialize (Ho t Ht). rewrite Forall_forall in Ho. apply Ho; [|done]. apply (reads_versions m h k L); eauto.
Qed.

Lemma reads_removed m h k L t (data := filter (λ p : bytes * bytes, version_of k p.1 = true) m) :
  records m h → key_ok k → reads h k data L → (t, true) ∈ L ↔ (k, t) ∈ removed h.
Proof.
  intros Hr Hk Hrd. split.
  - intros [j Hj]%list_elem_of_lookup_1.
    destruct (rd_at h k data L Hrd j t true Hj) as (Ht & w & Hw%list_elem_of_lookup_2).
    by apply (versions_query m h k t true w Hr Hk Ht) in Hw as [? _].
  - intros Hrm. destruct (rec_ok m h Hr k t (or_intror Hrm)) as [_ Ht].
    destruct (rd_index h k data L Hrd t true [] Ht) as [j Hj]; [by apply (versions_query m h k t true [])|].
    by apply list_elem_of_lookup_2 in Hj.
Qed.

(** The index the search returns is that of the newest time. *)
Lemma newest_index (L : list (Z * bool)) vs ts idx :
  (∀ t, t ∈ vs ↔ ∃ d i, L !! i = Some (t, d)) →
  (∀ i j t d t' d', (i ≤ j)%nat → L !! i = Some (t, d) → L !! j = Some (t', d') → t ≤ t') →
  -1 ≤ idx < zlen L →
  (∀ i t d, L !! i = Some (t, d) → Z.of_nat i ≤ idx → t ≤ ts) →
  (∀ i t d, L !! i = Some (t, d) → idx < Z.of_nat i → ts < t) →
  match newest vs ts with
  | None => idx < 0
  | Some t => 0 ≤ idx ∧ ∃ d, L !! Z.to_nat idx = Some (t, d)
  end.
Proof.
  intros Hvs Hsort Hrange Hlo Hhi. pose proof (newest_spec vs ts) as Hnew.
  assert (Hhi' : ∀ i t d, L !! i = Some (t, d) → t ≤ ts → Z.of_nat i ≤ idx).
  { intros i t d Hi Hle. destruct (decide (Z.of_nat i ≤ idx)) as [|Hn]; [done|].
    specialize (Hhi i t d Hi). lia. }
  destruct (decide (idx < 0)) as [Hneg|Hpos].
  - destruct (newest vs ts) as [t|]; [|done]. destruct Hnew as ((d & i & Hi)%Hvs & Hle & _).
    specialize (Hhi' i t d Hi Hle). lia.
  - destruct (lookup_lt_is_Some_2 L (Z.to_nat idx)) as [[t d] Hi]; [lia|].
    assert (Hle : t ≤ ts) by (apply (Hlo _ t d Hi); lia).
    assert (Hin : t ∈ vs) by (apply Hvs; eauto).
    destruct (newest vs ts) as [t0|]; [|specialize (Hnew t Hin); lia].
    destruct Hnew as ((d0 & i0 & Hi0)%Hvs & Hle0 & Hmax). specialize (Hmax t Hin Hle).
    pose proof (Hhi' i0 t0 d0 Hi0 Hle0) as Hi0'.
    assert (t0 ≤ t) by (apply (Hsort i0 (Z.to_nat idx) t0 d0 t d); [lia|done|done]).
    split; [lia|]. exists d. by replace t0 with t by lia.
Qed.

Lemma query_empty m h k :
  records m h → key_ok k → filter (λ p, version_of k p.1 = true) m = [] ↔ versions h k = [].
Proof.
  intros Hr Hk. destruct (select_reads m h k Hr Hk) as (L & del & Hrd & _).
  pose proof (λ t, reads_versions m h k L t Hr Hk Hrd) as Hvs. cbv zeta in Hvs.
  pose proof (rd_length h k _ L Hrd) as Hll. split.
  - intros Hnil. apply elem_of_nil_inv. intros t (d & i & Hi)%Hvs. rewrite Hnil in Hll. by destruct L.
  - intros Hv. destruct L as [|[t d] L]; [by destruct (filter _ m)|].
    assert (Hin : t ∈ versions h k) by (apply Hvs; by exists d, 0%nat).
    rewrite Hv in Hin. by apply elem_of_nil in Hin.
Qed.

(** [Select] of a store that records [h], at a key whose times are in order. *)
Lemma select_records s m h k value ts :
  stores s m → records m h → key_ok k → zlen m < 2 ^ 30 → in_order (versions h k) →
  SimpleMVCC.Select s k value ts = Done (spec_select h k value ts).
Proof.
  intros Hs Hr Hk Hlen Hord. unfold SimpleMVCC.Select, spec_select. rewrite (query_law s m k Hs).
  destruct (select_reads m h k Hr Hk) as (L & del & Hrd & Hloop & Hdel).
  pose proof (reads_versions m h k L) as Hvs. pose proof (reads_removed m h k L) as Hrm. cbv zeta in Hvs, Hrm.
  set (data := filter (λ p : bytes * bytes, version_of k p.1 = true) m) in *.
  assert (Hsort := λ i j t d t' d', rd_sorted m h k L i j t d t' d' Hr Hk Hrd Hord).
  assert (Hll := rd_length h k data L Hrd). pose proof (query_empty m h k Hr Hk) as Hemp. fold data in Hemp.
  rewrite (bool_decide_ext _ _ Hemp). destruct (bool_decide_reflect (versions h k = [])) as [|Hne]; [done|].
  rewrite <- Hemp in Hne. rewrite Hloop, bind_Done. cbv beta iota.
  set (vec := imap _ L).
  assert (Hvec : ∀ i, vec !! i = (λ p : Z * bool, (p.1, Z.of_nat i)) <$> L !! i).
  { intros i. unfold vec. rewrite list_lookup_imap. by destruct (L !! i). }
  assert (Hvl : zlen vec = zlen L) by (unfold vec; by rewrite length_imap).
  destruct (search_version_spec vec ts) as (idx & -> & Hrange & Hlo & Hhi).
  { intros i j x y Hij. rewrite !Hvec. destruct (L !! i) as [[t d]|] eqn:Hi, (L !! j) as [[t' d']|] eqn:Hj; try done.
    intros [= <-] [= <-]. by apply (Hsort i j t d t' d'). }
  { pose proof (length_filter (λ p : bytes * bytes, version_of k p.1 = true) m). unfold data in Hll. lia. }
  { intros Hv. apply (f_equal length) in Hv. destruct data; [done|]. cbn in *. lia. }
  rewrite bind_Done, Hvl in *. unfold SimpleMVCC.select_at.
  pose proof (newest_index L (versions h k) ts idx) as Hnew. specialize (Hnew (λ t, Hvs t Hr Hk Hrd) Hsort Hrange).
  assert (Hnew' := Hnew ltac:(intros i t d Hi Hle; apply (Hlo i (t, Z.of_nat i)); [by rewrite Hvec, Hi|done])
                        ltac:(intros i t d Hi Hlt; apply (Hhi i (t, Z.of_nat i)); [by rewrite Hvec, Hi|done])). clear Hnew.
  destruct (newest (versions h k) ts) as [t|]; [|by test_true].
  destruct Hnew' as [Hpos [d Hi]]. test_false. rewrite Hvec, Hi. cbn [fmap option_fmap option_map fst].
  rewrite (bool_decide_ext _ _ (iff_trans (Hdel t) (Hrm t Hr Hk Hrd))).
  destruct (bool_decide_reflect ((k, t) ∈ removed h)) as [|Hnr]; [done|].
  destruct (rd_at h k data L Hrd _ t d Hi) as (Ht & v & Hdi). pose proof (list_elem_of_lookup_2 _ _ _ Hdi) as Hin.
  apply (versions_query m h k t d v Hr Hk Ht) in Hin. destruct d; [by destruct Hin|].
  by rewrite Hin, Nat2Z.id, list_lookup_fmap, Hdi.
Qed.

(** ** Runs *)

Inductive mop : Type := MInsert (k v : bytes) (t : Z) | MDelete (k : bytes) (t : Z).

Definition mop_ok (o : mop) : Prop :=
  match o with MInsert k _ t | MDelete k t => key_ok k ∧ ts_ok t end.

#[export] Instance key_ok_dec k : Decision (key_ok k).
Proof. unfold key_ok. apply _. Defined.
#[export] Instance mop_ok_dec o : Decision (mop_ok o).
Proof. destruct o; unfold mop_ok, ts_ok; apply _. Defined.
#[export] Instance in_order_dec l : Decision (in_order l).
Proof. unfold in_order. apply _. Defined.

Definition mvcc_step (s : S) (o : mop) : bool * S :=
  match o with
  | MInsert k v t => SimpleMVCC.Insert s k v t
  | MDelete k t => SimpleMVCC.Delete s k t
  end.

Definition history_step (h : history) (o : mop) : bool * history :=
  match o with
  | MInsert k v t => (true, spec_insert h k v t)
  | MDelete k t => spec_delete h k t
  end.

Fixpoint mvcc_run (s : S) (ops : list mop) : list bool * S :=
  match ops with
  | [] => ([], s)
  | o :: ops => let '(r, s) := mvcc_step s o in let '(rs, s) := mvcc_run s ops in (r :: rs, s)
  end.

Fixpoint history_run (h : history) (ops : list mop) : list bool * history :=
  match ops with
  | [] => ([], h)
  | o :: ops => let '(r, h) := history_step h o in let '(rs, h) := history_run h ops in (r :: rs, h)
  end.

Lemma elem_of_assign (m : list (bytes * bytes)) key v k0 v0 :
  ordered m → (key, v) ∈ om_assign k0 v0 m ↔ (key = k0 ∧ v = v0) ∨ (key ≠ k0 ∧ (key, v) ∈ m).
Proof.
  intros Ho. assert (Hfind : ∀ m : list (bytes * bytes), ordered m → ∀ key v : bytes, (key, v) ∈ m ↔ om_find key m = Some v).
  { clear. intros m Ho key v. split; [by apply om_find_elem|].
    intros (k' & Hin & Hs)%om_find_Some. apply same_eq in Hs. by subst k'. }
  rewrite (Hfind _ (om_assign_ordered k0 v0 m Ho)), om_find_assign, (Hfind m) by done.
  destruct (same k0 key) eqn:Hs.
  - apply same_eq in Hs. subst k0. naive_solver.
  - assert (key ≠ k0); [|naive_solver]. intros ->. by rewrite same_refl in Hs.
Qed.

Lemma records_insert m h k v t :
  records m h → key_ok k → ts_ok t → records (om_assign (vkey k t false) v m) (spec_insert h k v t).
Proof.
  intros Hr Hk Ht. split; [apply om_assign_ordered, Hr| |].
  - intros key w. rewrite (elem_of_assign _ _ _ _ _ (rec_ordered m h Hr)), (rec_pairs m h Hr). cbn [spec_insert inserted removed]. split.
    + intros [[-> ->]|[Hne (k' & t' & d & Hk' & Ht' & -> & Hx)]].
      * exists k, t, false. by rewrite lookup_insert_eq.
      * exists k', t', d. destruct d; [done|]. rewrite lookup_insert_ne; [done|]. by intros [= -> ->].
    + intros (k' & t' & d & Hk' & Ht' & -> & Hx). destruct (decide (vkey k' t' d = vkey k t false)) as [Heq|Hne].
      * apply vkey_inj in Heq as (-> & -> & ->); [|done..]. rewrite lookup_insert_eq in Hx. left. naive_solver.
      * right. split; [done|]. exists k', t', d. destruct d; [done|].
        rewrite lookup_insert_ne in Hx; [done|]. by intros [= -> ->].
  - intros k' t'. cbn [spec_insert inserted removed]. rewrite lookup_insert_is_Some'.
    intros [[[= <- <-]|?]|?]; [done|apply (rec_ok m h Hr); auto..].
Qed.

Lemma records_delete m h k t :
  records m h → key_ok k → ts_ok t →
  records (om_assign (vkey k t true) [] m) (mkHistory (inserted h) ({[(k, t)]} ∪ removed h)).
Proof.
  intros Hr Hk Ht. split; [apply om_assign_ordered, Hr| |].
  - intros key w. rewrite (elem_of_assign _ _ _ _ _ (rec_ordered m h Hr)), (rec_pairs m h Hr). cbn [inserted removed]. split.
    + intros [[-> ->]|[Hne (k' & t' & d & Hk' & Ht' & -> & Hx)]].
      * exists k, t, true. set_solver.
      * exists k', t', d. destruct d; set_solver.
    + intros (k' & t' & d & Hk' & Ht' & -> & Hx). destruct (decide (vkey k' t' d = vkey k t true)) as [Heq|Hne].
      * apply vkey_inj in Heq as (-> & -> & ->); [|done..]. left. by destruct Hx as [_ ->].
      * right. split; [done|]. exists k', t', d. destruct d; [|done]. destruct Hx as [Hx ->].
        apply elem_of_union in Hx as [Hx%elem_of_singleton|Hx]; [by injection Hx as -> ->|done].
  - intros k' t'. cbn [inserted removed]. rewrite elem_of_union, elem_of_singleton.
    intros [?|[[= <- <-]|?]]; [apply (rec_ok m h Hr); auto|done|apply (rec_ok m h Hr); auto].
Qed.

Lemma length_assign (m : list (bytes * bytes)) k v : zlen (om_assign k v m) ≤ zlen m + 1.
Proof.
  induction m as [|[k' v'] m IH]; cbn [om_assign length]; [lia|].
  destruct (less k' k); [cbn [length]; lia|]. destruct (less k k'); cbn [length]; lia.
Qed.

Lemma vkey_false k t : k ++ [underscore] ++ ts_to_str t = vkey k t false.
Proof. unfold vkey. by rewrite app_nil_r. Qed.

Lemma mvcc_step_ok s m h o :
  stores s m → records m h → mop_ok o →
  (mvcc_step s o).1 = (history_step h o).1 ∧
  ∃ m', stores (mvcc_step s o).2 m' ∧ records m' (history_step h o).2 ∧ zlen m' ≤ zlen m + 1.
Proof.
  intros Hs Hr Ho. destruct o as [k v t|k t]; destruct Ho as [Hk Ht]; cbn [mvcc_step history_step].
  - unfold SimpleMVCC.Insert. rewrite vkey_false. pose proof (put_law s m (vkey k t false) v Hs) as Hp.
    destruct (Put s _ v) as [ok s']. destruct Hp as [_ Hp]. split; [done|]. eexists. split; [exact Hp|].
    split; [by apply records_insert|apply length_assign].
  - unfold SimpleMVCC.Delete, spec_delete. rewrite (query_law s m k Hs), (bool_decide_ext _ _ (query_empty m h k Hr Hk)).
    destruct (bool_decide _); [split; [done|]; exists m; split_and!; [done|done|lia]|].
    pose proof (put_law s m (vkey k t true) [] Hs) as Hp. unfold vkey in Hp. cbn [app].
    destruct (Put s _ []) as [ok s']. destruct Hp as [_ Hp]. split; [done|]. eexists. split; [exact Hp|].
    split; [by apply records_delete|apply length_assign].
Qed.

Lemma mvcc_run_ok ops : ∀ s m h,
  stores s m → records m h → Forall mop_ok ops →
  (mvcc_run s ops).1 = (history_run h ops).1 ∧
  ∃ m', stores (mvcc_run s ops).2 m' ∧ records m' (history_run h ops).2 ∧ zlen m' ≤ zlen m + zlen ops.
Proof.
  induction ops as [|o ops IH]; intros s m h Hs Hr Hops.
  - split; [done|]. exists m. split_and!; [done|done|cbn; lia].
  - apply Forall_cons in Hops as [Ho Hops]. cbn [mvcc_run history_run].
    destruct (mvcc_step_ok s m h o Hs Hr Ho) as (H1 & m1 & Hs1 & Hr1 & Hl1).
    destruct (mvcc_step s o) as [r s1], (history_step h o) as [r' h1]. cbn [fst snd] in *. subst r'.
    destruct (IH s1 m1 h1 Hs1 Hr1 Hops) as (H2 & m2 & Hs2 & Hr2 & Hl2).
    destruct (mvcc_run s1 ops) as [rs s2], (history_run h1 ops) as [rs' h2]. cbn [fst snd length] in *. subst rs'.
    split; [done|]. exists m2. split_and!; [done|done|lia].
Qed.

Lemma empty_records : records [] (mkHistory ∅ ∅).
Proof.
  split; [constructor| |].
  - intros key v. cbn [inserted removed]. split; [by intros ?%elem_of_nil|].
    intros (k & t & d & _ & _ & _ & Hx). destruct d; [by destruct Hx as [?%elem_of_empty _]|by rewrite lookup_empty in Hx].
  - intros k t. cbn [inserted removed]. rewrite lookup_empty. intros [[? ?]|?%elem_of_empty]; done.
Qed.
End select.

(** C15: Reads of a multi-version store.  Over any store that keeps the laws of
    [KV] and is empty at first: after any insertions and removals, for keys
    without an underscore and at any [int] times whose bytes hold none, every
    operation answers as the history of versions says; and where the order of
    the bytes of the key's times, lowest first, is their order, [Select] at any
    time returns what the history of the key says: the value of its newest
    version that is not later, and a failure when there is none or that version
    is a removal.  Both conditions are needed ([mvcc_bad_times]). *)
Theorem mvcc_select_newest {S} `{KVLaws S} (s : S) ops k value ts :
  stores s [] → Forall mop_ok ops → key_ok k → zlen ops < 2 ^ 30 →
  let '(rs, s') := mvcc_run s ops in
  let '(rs', h) := history_run (mkHistory ∅ ∅) ops in
  rs = rs' ∧ (in_order (versions h k) → SimpleMVCC.Select s' k value ts = Done (spec_select h k value ts)).
Proof.
  intros Hs Hops Hk Hl. destruct (mvcc_run_ok ops s [] _ Hs empty_records Hops) as (H1 & m & Hs' & Hr & Hm).
  destruct (mvcc_run s ops) as [rs s'], (history_run _ ops) as [rs' h]. cbn [fst snd length] in *.
  split; [done|]. intros Ho. apply (select_records s' m); [done|done|done|lia|done].
Qed.

(** Times of every byte, one of them negative, in the order of their bytes;
    those of the other key are not. *)
Lemma mvcc_select_newest_witness :
  let ops := [MInsert (bs "k") (bs "a") 1048576; MInsert (bs "k") (bs "b") 50331649; MInsert (bs "k") (bs "c") 83886081;
              MDelete (bs "k") 1107296258; MInsert (bs "kk") (bs "d") 1; MInsert (bs "kk") (bs "e") (-256)] in
  let '(rs, s') := mvcc_run ([] : MockKV.t) ops in
  let '(rs', h) := history_run (mkHistory ∅ ∅) ops in
  rs = rs' ∧ SimpleMVCC.Select s' (bs "k") [] 70000000 = Done (spec_select h (bs "k") [] 70000000).
Proof.
  intros ops. refine (match mvcc_select_newest ([] : MockKV.t) ops (bs "k") [] 70000000 _ _ _ _ with conj H1 H2 => conj H1 (H2 _) end).
  - split; [done|constructor].
  - apply (bool_decide_unpack _). vm_compute. exact I.
  - apply (bool_decide_unpack _). vm_compute. exact I.
  - vm_compute. reflexivity.
  - apply (bool_decide_unpack _). vm_compute. exact I.
Defined.

(** The conditions are needed: a version at 95, which is written as an
    underscore, reads as removed; after one at 24415, written with two
    underscores, no version of the key is read; and a version at 256, whose
    bytes sort before those of 1, hides the version at 1. *)
Theorem mvcc_bad_times :
  let after ops := (mvcc_run ([] : MockKV.t) ops).2 in
  SimpleMVCC.Select (after [MInsert (bs "k") (bs "a") 95]) (bs "k") (bs "?") 95 = Done (false, []) ∧
  SimpleMVCC.Select (after [MInsert (bs "k") (bs "a") 1; MInsert (bs "k") (bs "b") 24415]) (bs "k") (bs "?") 1 =
    Done (false, bs "?") ∧
  (let ops := [MInsert (bs "k") (bs "a") 1; MInsert (bs "k") (bs "b") 256] in
   Forall mop_ok ops ∧ ¬ in_order [1; 256] ∧ SimpleMVCC.Select (after ops) (bs "k") (bs "?") 1 = Done (false, [])).
Proof.
  cbv zeta. split; [vm_compute; reflexivity|]. split; [vm_compute; reflexivity|]. split; [|split; [|vm_compute; reflexivity]].
  - apply (bool_decide_unpack _). vm_compute. exact I.
  - apply (bool_decide_unpack _). vm_compute. exact I.
Qed.
