(* ===== verification/Wal.v ===== *)
(** * The write-ahead log (src/wal/wal.cc)

    Logs are collected in memory and written to a file in one go; a restart
    reads the file back.  The disk is a map from paths to contents; [writable]
    says which paths can be opened for writing, and an open stream writes at the
    end of its file.  Writes to an open stream succeed. *)

From S2P Require Import Prelude Status.

Module Wal.

(** [WalType]: PUT, DEL and UNKNOWN are 0, 1 and 2. *)
Definition PUT : Z := 0.
Definition DEL : Z := 1.
Definition UNKNOWN : Z := 2.

Record Log : Type := mkLog { type_ : Z; key_ : bytes; value_ : bytes }.
Definition no_log : Log := mkLog UNKNOWN [] [].

#[export] Instance Log_eq_dec : EqDecision Log.
Proof. solve_decision. Defined.

Definition int_to_str (i : Z) : bytes := i32_bytes i.

(** [operator<<] *)
Definition write_log (s : Log) : bytes :=
  int_to_str (type_ s) ++ int_to_str (zlen (key_ s)) ++ key_ s ++ int_to_str (zlen (value_ s)) ++ value_ s.

(** [in.read(tmp, sizeof(int))]: the number and the rest, or the stream fails. *)
Definition read_int (rest : bytes) : option (Z * bytes) :=
  if zlen rest <? 4 then None else Some (sgn 32 (le_val (take 4 rest)), drop 4 rest).

(** A string of [res] bytes.  [new char(res + 1)] is one [char]: reading into it
    and the terminator at [a[res]] are defined only when [res] is zero. *)
Definition read_str (rest : bytes) (res : Z) : outcome (bytes * bytes) :=
  if res =? 0 then Done ([], rest) else Undef.

(** [operator>>]: whether the stream is still good, the log, and the rest. *)
Definition read_log (rest : bytes) (s : Log) : outcome (bool * Log * bytes) :=
  match read_int rest with
  | None => Done (false, s, [])
  | Some (ty, rest) =>
      let s := mkLog ty (key_ s) (value_ s) in
      match read_int rest with
      | None => Done (false, s, [])
      | Some (res, rest) =>
          '(k, rest) ← read_str rest res;
          let s := mkLog ty k (value_ s) in
          match read_int rest with
          | None => Done (false, s, [])
          | Some (res, rest) => '(v, rest) ← read_str rest res; Done (true, mkLog ty k v, rest)
          end
      end
  end.

(** The loop of [Recover]; every round takes at least twelve bytes. *)
Fixpoint read_logs (fuel : nat) (rest : bytes) (log : Log) (mlog_ : list Log) : outcome (list Log) :=
  match fuel with
  | O => NoFuel
  | S fuel =>
      '(good, log, rest) ← read_log rest log;
      if good : bool then read_logs fuel rest log (mlog_ ++ [log]) else Done mlog_
  end.

(** [is_open] and [good] are the state of the stream [dlog_]. *)
Record t : Type := mk {
  mlog_ : list Log; is_open : bool; good : bool; log_file_ : bytes;
  disk : gmap bytes bytes; writable : bytes → bool }.

Definition make (d : gmap bytes bytes) (w : bytes → bool) : t := mk [] false true [] d w.

Definition with_log (s : t) (l : list Log) : t := mk l (is_open s) (good s) (log_file_ s) (disk s) (writable s).

(** [dlog_.open]: a failure sets the fail bit; opening an open stream fails. *)
Definition open_dlog (s : t) (trunc : bool) : t :=
  if negb (is_open s) && writable s (log_file_ s) then
    let c := if trunc then [] else default [] (disk s !! log_file_ s) in
    mk (mlog_ s) true (good s) (log_file_ s) (<[log_file_ s := c]> (disk s)) (writable s)
  else mk (mlog_ s) (is_open s) false (log_file_ s) (disk s) (writable s).

(** [std::ofstream tmp(log_file_, trunc)], closed again. *)
Definition truncate (s : t) : t :=
  if writable s (log_file_ s)
  then mk (mlog_ s) (is_open s) (good s) (log_file_ s) (<[log_file_ s := []]> (disk s)) (writable s) else s.

Definition Start (s : t) : Status * t := (OK, open_dlog (truncate (with_log s [])) true).

Definition Recover (s : t) : outcome (Status * t) :=
  let s := with_log s [] in
  match disk s !! log_file_ s with
  | None => Done (Corruption (bs "open error"), s)
  | Some c =>
      l ← read_logs (S (length c)) c no_log [];
      let s := open_dlog (with_log s l) false in
      Done (if is_open s then OK else Corruption (bs "open error"), s)
  end.

Definition set_path (s : t) (path : bytes) : t :=
  let file := if bool_decide (last path = Some (z2b 47)) then path ++ bs "log.ctgfs" else path ++ bs "/log.ctgfs" in
  mk (mlog_ s) (is_open s) (good s) file (disk s) (writable s).

Definition Init (s : t) (path : bytes) : outcome (Status * t) :=
  if bool_decide (path = []) then Done (InvalidArgument (bs "path size is 0"), s)
  else
    let s := set_path s path in
    match disk s !! log_file_ s with
    | Some _ => Recover s
    | None => Done (Start s)
    end.

Definition LogToDiskWithoutLock (s : t) (log : Log) : Status * t :=
  if negb (good s) then (Corruption (bs "log_ is not good"), s)
  else if negb (is_open s) then (Corruption (bs "log_ is not open"), s)
  else
    (OK, mk (mlog_ s) true (good s) (log_file_ s)
           (<[log_file_ s := default [] (disk s !! log_file_ s) ++ write_log log]> (disk s)) (writable s)).

(** The same under the mutex. *)
Definition LogToDisk (s : t) (log : Log) : Status * t := LogToDiskWithoutLock s log.

Definition AppendToMLog (s : t) (log : Log) : Status * t := (OK, with_log s (mlog_ s ++ [log])).

(** The loop of [SyncToDLog]. *)
Fixpoint sync_loop (s : t) (ret : Status) (logs : list Log) : Status * t :=
  match logs with
  | [] => (ret, s)
  | log :: logs =>
      if IsOK ret then let '(ret, s) := LogToDiskWithoutLock s log in sync_loop s ret logs
      else (ret, s)
  end.

Definition SyncToDLog (s : t) : Status * t :=
  let '(ret, s) := sync_loop s OK (mlog_ s) in (ret, with_log s []).

Definition Stop (s : t) : Status * t :=
  let '(_, s) := SyncToDLog s in
  (OK, mk (mlog_ s) false (if is_open s then good s else false) (log_file_ s) (disk s) (writable s)).

End Wal.

(** ** What is written *)

Import Wal.

Definition write_logs (l : list Log) : bytes := concat (write_log <$> l).

(** An open, good stream. *)
Definition open_at (s : t) (c : bytes) : Prop :=
  is_open s = true ∧ good s = true ∧ disk s !! log_file_ s = Some c.

Lemma write_logs_app l l' : write_logs (l ++ l') = write_logs l ++ write_logs l'.
Proof. unfold write_logs. by rewrite fmap_app, concat_app. Qed.

Lemma sync_loop_open l : ∀ s c,
  open_at s c →
  ∃ s', sync_loop s OK l = (OK, s') ∧ open_at s' (c ++ write_logs l) ∧ log_file_ s' = log_file_ s ∧
    (∀ p, p ≠ log_file_ s → disk s' !! p = disk s !! p) ∧ writable s' = writable s.
Proof.
  induction l as [|x l IH]; intros s c Ho.
  - exists s. change (write_logs []) with ([] : bytes). by rewrite app_nil_r.
  - destruct Ho as (Hop & Hg & Hd). cbn [sync_loop]. rewrite IsOK_OK. unfold LogToDiskWithoutLock.
    rewrite Hop, Hg, Hd. cbn [negb default].
    destruct (IH (mk (mlog_ s) true true (log_file_ s) (<[log_file_ s := c ++ write_log x]> (disk s)) (writable s)) (c ++ write_log x))
      as (s' & Hs & Ho' & Hf & Hp & Hw).
    { split; [done|]. split; [done|]. cbn. by rewrite lookup_insert_eq. }
    cbn [log_file_ disk writable] in *. exists s'. split; [done|]. split; [by rewrite <- app_assoc in Ho'|].
    split; [done|]. split; [|done]. intros p Hp'. by rewrite Hp, lookup_insert_ne.
Qed.

(** ** What is read back *)

Definition log_ok (x : Log) : Prop :=
  0 ≤ type_ x < 2 ^ 31 ∧ zlen (key_ x) < 2 ^ 31 ∧ zlen (value_ x) < 2 ^ 31.

#[export] Instance log_ok_dec x : Decision (log_ok x).
Proof. unfold log_ok. apply _. Defined.

(** A log without key and value. *)
Definition bare (x : Log) : bool := bool_decide (key_ x = []) && bool_decide (value_ x = []).

Lemma read_int_word n rest : 0 ≤ n < 2 ^ 31 → read_int (int_to_str n ++ rest) = Some (n, rest).
Proof.
  intros Hn. unfold read_int, int_to_str. rewrite length_app, length_i32_bytes. test_false.
  rewrite take_app_length', drop_app_length' by (symmetry; apply length_i32_bytes).
  rewrite le_val_i32, wrap_small, sgn_small by (cbn in *; lia). done.
Qed.

Lemma read_log_written x rest s :
  log_ok x → read_log (write_log x ++ rest) s = if bare x then Done (true, x, rest) else Undef.
Proof.
  intros (Ht & Hk & Hv). unfold read_log, write_log. rewrite <- !app_assoc.
  rewrite !read_int_word by lia. unfold read_str, bare. destruct x as [ty k v]. cbn [type_ key_ value_] in *.
  destruct k as [|b k]; [|done]. change (zlen [] =? 0) with true. cbv iota. rewrite bind_Done. cbv beta iota. cbn [app].
  rewrite read_int_word by lia. destruct v as [|b v]; [|done]. done.
Qed.

Lemma length_write_log x : (12 ≤ length (write_log x))%nat.
Proof. unfold write_log, int_to_str. len. Qed.

Lemma read_logs_written l : ∀ fuel s acc,
  Forall log_ok l → (length (write_logs l) < fuel)%nat →
  read_logs fuel (write_logs l) s acc = if forallb bare l then Done (acc ++ l) else Undef.
Proof.
  induction l as [|x l IH]; intros fuel s acc Hl Hf; (destruct fuel as [|fuel]; [lia|]); cbn [read_logs].
  - by rewrite app_nil_r.
  - apply Forall_cons in Hl as [Hx Hl]. change (write_logs (x :: l)) with (write_log x ++ write_logs l) in *.
    rewrite length_app in Hf. pose proof (length_write_log x). rewrite read_log_written by done.
    cbn [forallb]. destruct (bare x); [|done]. rewrite bind_Done. cbv beta iota. rewrite IH by (done || lia).
    cbn [andb]. by rewrite <- app_assoc.
Qed.

(** Appending logs collects them. *)
Fixpoint append_all (s : t) (l : list Log) : t :=
  match l with [] => s | x :: l => append_all (AppendToMLog s x).2 l end.

Lemma append_all_log l : ∀ s, append_all s l = with_log s (mlog_ s ++ l).
Proof.
  induction l as [|x l IH]; intros s; cbn [append_all]; [rewrite app_nil_r; by destruct s|].
  rewrite IH. cbn. by rewrite <- app_assoc.
Qed.

(** A fresh log object with its file. *)
Definition named (d : gmap bytes bytes) (w : bytes → bool) (file : bytes) : t := mk [] false true file d w.

Lemma set_path_make d w path : set_path (make d w) path = named d w (log_file_ (set_path (make d w) path)).
Proof. done. Qed.

Lemma file_name d d' w path : log_file_ (set_path (make d w) path) = log_file_ (set_path (make d' w) path).
Proof. done. Qed.

Lemma start_named d w file :
  w file = true → Start (named d w file) = (OK, mk [] true true file (<[file := []]> (<[file := []]> d)) w).
Proof. intros Hw. unfold Start, truncate, open_dlog, with_log, named. cbn. rewrite Hw. cbn. by rewrite Hw. Qed.

Lemma recover_named d w file l :
  w file = true → d !! file = Some (write_logs l) → Forall log_ok l →
  Recover (named d w file) =
    if forallb bare l then Done (OK, mk l true true file (<[file := write_logs l]> d) w) else Undef.
Proof.
  intros Hw Hd Hl. unfold Recover, named, with_log. cbn [disk log_file_]. rewrite Hd.
  rewrite read_logs_written by (done || lia). destruct (forallb bare l); [|done]. rewrite bind_Done.
  unfold open_dlog, with_log. cbn [is_open negb andb writable log_file_]. rewrite Hw. cbn [mlog_ disk log_file_ is_open app default].
  by rewrite Hd.
Qed.

(** C22: A stopped log, read by a restart.  When the logs appended after the
    start of a fresh log in a writable place are written by [Stop], the file
    holds their encodings in order; and a restart on that file gets them all
    back if every key and value is empty, and reads and writes outside the one
    byte it allocates otherwise. *)
Theorem wal_restart d w path l (file := log_file_ (set_path (make d w) path)) :
  path ≠ [] → d !! file = None → w file = true → Forall log_ok l →
  ∃ s0, Init (make d w) path = Done (OK, s0) ∧
    let d' := disk (Stop (append_all s0 l)).2 in
    d' !! file = Some (write_logs l) ∧
    (forallb bare l = true → ∃ s1, Init (make d' w) path = Done (OK, s1) ∧ mlog_ s1 = l ∧ is_open s1 = true) ∧
    (forallb bare l = false → Init (make d' w) path = Undef).
Proof.
  intros Hp Hd Hw Hl. unfold Init. rewrite bool_decide_eq_false_2 by done. fold file.
  change (disk (set_path (make d w) path) !! file) with (d !! file). rewrite Hd. set (s0 := mk [] true true file (<[file := []]> (<[file := []]> d)) w).
  exists s0. split; [f_equal; apply (start_named d w file Hw)|]. cbv zeta.
  assert (Ho : open_at (append_all s0 l) []).
  { rewrite append_all_log. split; [done|]. split; [done|]. cbn. by rewrite lookup_insert_eq. }
  assert (Hm : mlog_ (append_all s0 l) = l) by by rewrite append_all_log.
  assert (Hf0 : log_file_ (append_all s0 l) = file) by by rewrite append_all_log.
  destruct (sync_loop_open l _ _ Ho) as (s' & Hs & (_ & _ & Hdisk) & Hf & _ & _).
  unfold Stop, SyncToDLog. rewrite Hm, Hs. cbn [fst snd with_log disk]. rewrite Hf, Hf0 in Hdisk. cbn [app] in Hdisk.
  split; [done|]. rewrite (file_name (disk s') d). fold file.
  change (disk (set_path (make (disk s') w) path)) with (disk s'). rewrite Hdisk, set_path_make, (file_name (disk s') d).
  fold file. rewrite (recover_named _ _ _ l) by done.
  destruct (forallb bare l); (split; [|done]); [|done]. intros _. by eexists.
Qed.

Lemma wal_restart_witness :
  let file := log_file_ (set_path (make ∅ (λ _, true)) (bs "tmp")) in
  ∃ s0, Init (make ∅ (λ _, true)) (bs "tmp") = Done (OK, s0) ∧
    let d' := disk (Stop (append_all s0 [mkLog PUT (bs "k") (bs "v"); mkLog DEL (bs "k") []])).2 in
    d' !! file = Some (write_logs [mkLog PUT (bs "k") (bs "v"); mkLog DEL (bs "k") []]) ∧
    (forallb bare [mkLog PUT (bs "k") (bs "v"); mkLog DEL (bs "k") []] = true →
      ∃ s1, Init (make d' (λ _, true)) (bs "tmp") = Done (OK, s1) ∧
        mlog_ s1 = [mkLog PUT (bs "k") (bs "v"); mkLog DEL (bs "k") []] ∧ is_open s1 = true) ∧
    (forallb bare [mkLog PUT (bs "k") (bs "v"); mkLog DEL (bs "k") []] = false →
      Init (make d' (λ _, true)) (bs "tmp") = Undef).
Proof.
  apply (wal_restart ∅ (λ _, true) (bs "tmp") [mkLog PUT (bs "k") (bs "v"); mkLog DEL (bs "k") []]).
  - discriminate.
  - reflexivity.
  - reflexivity.
  - apply (bool_decide_unpack _). vm_compute. exact I.
Defined.
