(* ===== verification/RaftKv.v ===== *)
(** * The replicated store (src/raft/fsm.cc, src/kv/raft_kv.cc, src/util/waiter.cc)

    [RocksFSM] proposes puts as log entries and applies the entries raft
    commits to a RocksDB; [RaftKV] puts through it and reads locally; a [Waiter]
    brings the result of a proposal back to the caller.  RocksDB and raft
    themselves are not part of the repository: RocksDB is an interface, raft
    gives the batches of entries to apply and the status of a proposal. *)

From S2P Require Import Prelude StdContainers Status Kv Mvcc.

(** ** RocksDB *)

Class RocksDB (D : Type) : Type := {
  db_put : D → bytes → bytes → bool * D;
  db_get : D → bytes → option bytes;
  db_seek : D → bytes → list (bytes * bytes);
}.

(** It is an ordered map; [Seek] finds the first key that is not smaller. *)
Class RocksDBLaws (D : Type) `{RocksDB D} : Type := {
  holds : D → list (bytes * bytes) → Prop;
  holds_ordered d m : holds d m → ordered m;
  db_put_law d m k v : holds d m → let '(ok, d') := db_put d k v in ok = true ∧ holds d' (om_assign k v m);
  db_get_law d m k : holds d m → db_get d k = om_find k m;
  db_seek_law d m k : holds d m → db_seek d k = filter (λ p, less p.1 k = false) m;
}.

(** ** The state machine *)

Definition OP_UNKNOWN : Z := 0.
Definition OP_GET : Z := 1.
Definition OP_PUT : Z := 2.

(** [IOBuf::cutn]: at most [n] bytes from the front. *)
Definition cutn (n : Z) (data : bytes) : bytes * bytes := (take (Z.to_nat n) data, drop (Z.to_nat n) data).

(** [cutn(&size, sizeof(uint32_t))]; a short buffer leaves [size] without a value. *)
Definition cut_size (data : bytes) : outcome (Z * bytes) :=
  if zlen data <? 4 then Undef else let '(w, data) := cutn 4 data in Done (le_val w, data).

Module RocksFSM.
Section fsm.
Context {D : Type} `{RocksDB D}.

Record t : Type := mk { leader_term_ : Z; db_ : D }.

Definition IsLeader (s : t) : bool := negb (leader_term_ s <? 0).
Definition on_leader_start (s : t) (term : Z) : t := mk term (db_ s).
Definition on_leader_stop (s : t) : t := mk (-1) (db_ s).

(** The entry that [propose] hands to raft. *)
Definition propose (type : Z) (key value : bytes) : bytes :=
  [z2b type] ++ i32_bytes (zlen key) ++ key ++
  (if type =? OP_PUT then i32_bytes (zlen value) ++ value else []).

(** [RocksFSM::Put] and [Get] propose; they always return OK. *)
Definition Put (key value : bytes) : Status * bytes := (OK, propose OP_PUT key value).
Definition Get (key : bytes) : Status * bytes := (OK, propose OP_GET key []).

Definition put (s : t) (key value : bytes) : Status * t :=
  let '(ok, d) := db_put (db_ s) key value in
  (if ok : bool then OK else Corruption [], mk (leader_term_ s) d).

(** One round of the loop of [on_apply]. *)
Definition apply_entry (s : t) (data : bytes) : outcome t :=
  let '(ty, data) := cutn 1 data in
  let type := match ty with [] => OP_UNKNOWN | b :: _ => b2z b end in
  if type =? OP_PUT then
    '(size, data) ← cut_size data;
    let '(key, data) := cutn size data in
    '(size, data) ← cut_size data;
    let '(value, data) := cutn size data in
    Done (put s key value).2
  else Done s.

Fixpoint on_apply (s : t) (iter : list bytes) : outcome t :=
  match iter with
  | [] => Done s
  | data :: iter => s ← apply_entry s data; on_apply s iter
  end.

Definition LocalGet (s : t) (key value : bytes) : Status * bytes :=
  match db_get (db_ s) key with Some v => (OK, v) | None => (Corruption [], value) end.

(** [values.insert] for every pair from [Seek(key)] on. *)
Definition LocalQuery (s : t) (key : bytes) (values : list (bytes * bytes)) : Status * list (bytes * bytes) :=
  (OK, fold_left (λ m p, om_insert p.1 p.2 m) (db_seek (db_ s) key) values).

End fsm.
Arguments t : clear implicits.
End RocksFSM.

(** ** RaftKV *)

Module RaftKV.
Section kv.
Context {D : Type} `{RocksDB D}.

(** [waited] is the status that [waiter->Wait()] returns; the entry is what is
    proposed, if anything. *)
Definition Put (fsm_ : RocksFSM.t D) (key value : bytes) (waited : Status) : bool * option bytes :=
  if RocksFSM.IsLeader fsm_ then
    let '(s, entry) := RocksFSM.Put key value in
    if negb (IsOK s) then (false, Some entry)
    else (IsOK waited, Some entry)
  else (false, None).

Definition Get (fsm_ : RocksFSM.t D) (key value : bytes) : bool * bytes :=
  let '(s, value) := RocksFSM.LocalGet fsm_ key value in (IsOK s, value).

(** [it->first.find("_") != npos] *)
Definition has_underscore (k : bytes) : bool := bool_decide (underscore ∈ k).

Definition Query (fsm_ : RocksFSM.t D) (key : bytes) (value : list (bytes * bytes)) : bool * list (bytes * bytes) :=
  let '(s, tmp) := RocksFSM.LocalQuery fsm_ key [] in
  (IsOK s, fold_left (λ m p, if has_underscore p.1 then om_insert p.1 p.2 m else m) tmp value).

End kv.
End RaftKV.

(** ** The log is replayed as it was proposed *)

Section replay.
Context {D : Type} `{RocksDBLaws D}.
Implicit Types (s : RocksFSM.t D).

Inductive command : Type := CPut (k v : bytes) | CGet (k : bytes).

Definition entry (c : command) : bytes :=
  match c with CPut k v => (RocksFSM.Put k v).2 | CGet k => (RocksFSM.Get k).2 end.

Definition command_ok (c : command) : Prop :=
  match c with CPut k v => zlen k < 2 ^ 32 ∧ zlen v < 2 ^ 32 | CGet k => zlen k < 2 ^ 32 end.

(** What the commands make of a map. *)
Fixpoint commanded (m : list (bytes * bytes)) (cs : list command) : list (bytes * bytes) :=
  match cs with
  | [] => m
  | CPut k v :: cs => commanded (om_assign k v m) cs
  | CGet _ :: cs => commanded m cs
  end.

Lemma cutn_app n (a b : bytes) : n = zlen a → cutn n (a ++ b) = (a, b).
Proof. intros ->. unfold cutn. by rewrite Nat2Z.id, take_app_length, drop_app_length. Qed.

Lemma cutn_all (a : bytes) : cutn (zlen a) a = (a, []).
Proof. pose proof (cutn_app (zlen a) a [] eq_refl) as E. by rewrite app_nil_r in E. Qed.

Lemma cut_size_app n rest : 0 ≤ n < 2 ^ 32 → cut_size (i32_bytes n ++ rest) = Done (n, rest).
Proof.
  intros Hn. unfold cut_size. rewrite length_app, length_i32_bytes. test_false.
  rewrite cutn_app by (by rewrite length_i32_bytes). by rewrite le_val_i32, wrap_small.
Qed.

Lemma apply_entry_ok s m c :
  holds (RocksFSM.db_ s) m → command_ok c →
  ∃ s', RocksFSM.apply_entry s (entry c) = Done s' ∧ holds (RocksFSM.db_ s') (commanded m [c]) ∧
    RocksFSM.leader_term_ s' = RocksFSM.leader_term_ s.
Proof.
  intros Hs Hc. unfold RocksFSM.apply_entry. destruct c as [k v|k]; cbn [entry RocksFSM.Put RocksFSM.Get snd commanded].
  - destruct Hc as [Hk Hv]. unfold RocksFSM.propose. rewrite cutn_app by done.
    change (b2z (z2b OP_PUT) =? OP_PUT) with true. change (OP_PUT =? OP_PUT) with true. cbv beta iota zeta.
    rewrite cut_size_app, bind_Done by lia. cbv beta iota. rewrite cutn_app by done.
    rewrite cut_size_app, bind_Done by lia. cbv beta iota.
    rewrite cutn_all. unfold RocksFSM.put.
    pose proof (db_put_law (RocksFSM.db_ s) m k v Hs) as Hp. destruct (db_put _ k v) as [ok d]. destruct Hp as [-> Hp].
    eexists. split; [done|]. done.
  - exists s. done.
Qed.

Lemma on_apply_ok cs : ∀ s m,
  holds (RocksFSM.db_ s) m → Forall command_ok cs →
  ∃ s', RocksFSM.on_apply s (entry <$> cs) = Done s' ∧ holds (RocksFSM.db_ s') (commanded m cs) ∧
    RocksFSM.leader_term_ s' = RocksFSM.leader_term_ s.
Proof.
  induction cs as [|c cs IH]; intros s m Hs Hcs; [by exists s|]. apply Forall_cons in Hcs as [Hc Hcs].
  destruct (apply_entry_ok s m c Hs Hc) as (s1 & H1 & Hs1 & Hl1). cbn [fmap list_fmap RocksFSM.on_apply].
  rewrite H1, bind_Done. destruct (IH s1 _ Hs1 Hcs) as (s2 & H2 & Hs2 & Hl2).
  exists s2. split; [done|]. split; [|congruence]. by destruct c.
Qed.

Lemma on_apply_app s l1 l2 :
  RocksFSM.on_apply s (l1 ++ l2) = (s ← RocksFSM.on_apply s l1; RocksFSM.on_apply s l2).
Proof.
  revert s. induction l1 as [|x l1 IH]; intros s; [done|]. cbn [app RocksFSM.on_apply].
  destruct (RocksFSM.apply_entry s x); [|done..]. rewrite !bind_Done. apply IH.
Qed.

(** The batches raft gives to [on_apply]. *)
Fixpoint apply_batches s (batches : list (list bytes)) : outcome (RocksFSM.t D) :=
  match batches with
  | [] => Done s
  | b :: batches => s ← RocksFSM.on_apply s b; apply_batches s batches
  end.

Lemma apply_batches_concat batches : ∀ s, apply_batches s batches = RocksFSM.on_apply s (concat batches).
Proof.
  induction batches as [|b batches IH]; intros s; [done|]. cbn [apply_batches concat]. rewrite on_apply_app.
  destruct (RocksFSM.on_apply s b); [|done..]. rewrite !bind_Done. apply IH.
Qed.

Lemma fold_insert_ordered (l : list (bytes * bytes)) : ∀ m : list (bytes * bytes),
  ordered l → Forall (λ p, Forall (λ q, less q.1 p.1 = true) m) l →
  fold_left (λ m p, om_insert p.1 p.2 m) l m = m ++ l.
Proof.
  induction l as [|[k v] l IH]; intros m Ho Hm; cbn [fold_left fst snd]; [by rewrite app_nil_r|].
  apply StronglySorted_inv in Ho as [Ho Hk]. apply Forall_cons in Hm as [Hm1 Hm]. cbn [fst] in Hm1.
  rewrite om_insert_last by done. rewrite IH; [by rewrite <- app_assoc|done|].
  rewrite Forall_forall in *. intros p Hp. apply Forall_app. split; [by apply Hm|].
  repeat constructor. by apply (Hk p).
Qed.

Lemma fold_insert_filter (g : bytes → bool) (l : list (bytes * bytes)) : ∀ m : list (bytes * bytes),
  fold_left (λ m p, if g p.1 then om_insert p.1 p.2 m else m) l m =
    fold_left (λ m p, om_insert p.1 p.2 m) (filter (λ p, g p.1 = true) l) m.
Proof.
  induction l as [|[k v] l IH]; intros m; [done|]. cbn [fold_left fst snd].
  destruct (g k) eqn:Hg; [rewrite filter_cons_True by done|rewrite filter_cons_False by (cbn; congruence)]; by rewrite IH.
Qed.

Lemma query_holds s m key :
  holds (RocksFSM.db_ s) m →
  RaftKV.Query s key [] =
    (true, filter (λ p, RaftKV.has_underscore p.1 = true) (filter (λ p, less p.1 key = false) m)).
Proof.
  intros Hs. unfold RaftKV.Query, RocksFSM.LocalQuery. rewrite (db_seek_law _ m key Hs). pose proof (holds_ordered _ m Hs) as Ho.
  rewrite (fold_insert_ordered _ []); [|by apply ordered_filter|by apply Forall_forall].
  cbn [app]. rewrite fold_insert_filter, (fold_insert_ordered _ []); [done|by apply ordered_filter, ordered_filter|by apply Forall_forall].
Qed.
End replay.

(** An ordered map is a RocksDB. *)
#[export] Instance map_rocks : RocksDB (list (bytes * bytes)) := {|
  db_put d k v := (true, om_assign k v d);
  db_get d k := om_find k d;
  db_seek d k := filter (λ p, less p.1 k = false) d;
|}.

#[export] Program Instance map_rocks_laws : RocksDBLaws (list (bytes * bytes)) := {| holds d m := d = m ∧ ordered m |}.
Next Obligation. by intros d m [_ ?]. Qed.
Next Obligation. intros d m k v [-> Ho]. split; [done|]. split; [done|]. by apply om_assign_ordered. Qed.
Next Obligation. by intros d m k [-> _]. Qed.
Next Obligation. by intros d m k [-> _]. Qed.

(** C16: The state machine replays the log: however raft cuts the committed
    entries into batches, a replica that applies the entries of proposed puts
    and gets holds what these commands make of its map, in order, and reads it
    back; so replicas that start equal and applied the same entries are equal. *)
Theorem raft_log_replays {D} `{RocksDBLaws D} (s : RocksFSM.t D) m cs batches key value :
  holds (RocksFSM.db_ s) m → Forall command_ok cs → concat batches = entry <$> cs →
  ∃ s', apply_batches s batches = Done s' ∧ holds (RocksFSM.db_ s') (commanded m cs) ∧
    RocksFSM.IsLeader s' = RocksFSM.IsLeader s ∧
    RaftKV.Get s' key value =
      match om_find key (commanded m cs) with Some v => (true, v) | None => (false, value) end.
Proof.
  intros Hs Hcs Hb. destruct (on_apply_ok cs s m Hs Hcs) as (s' & Ha & Hs' & Hl).
  exists s'. rewrite apply_batches_concat, Hb. split; [done|]. split; [done|].
  split; [unfold RocksFSM.IsLeader; by rewrite Hl|].
  unfold RaftKV.Get, RocksFSM.LocalGet. rewrite (db_get_law _ _ key Hs'). by destruct (om_find key _).
Qed.

Lemma raft_log_replays_witness :
  let cs := [CPut (bs "a") (bs "1"); CGet (bs "a"); CPut (bs "b") []; CPut (bs "a") (bs "2")] in
  ∃ s', apply_batches (RocksFSM.mk 3 ([] : list (bytes * bytes))) [take 1 (entry <$> cs); drop 1 (entry <$> cs)] = Done s' ∧
    holds (RocksFSM.db_ s') (commanded [] cs) ∧
    RocksFSM.IsLeader s' = RocksFSM.IsLeader (RocksFSM.mk 3 ([] : list (bytes * bytes))) ∧
    RaftKV.Get s' (bs "a") [] =
      match om_find (bs "a") (commanded [] cs) with Some v => (true, v) | None => (false, []) end.
Proof.
  intros cs. apply (raft_log_replays (RocksFSM.mk 3 ([] : list (bytes * bytes))) [] cs).
  - split; [done|constructor].
  - unfold cs. repeat constructor; cbn; lia.
  - reflexivity.
Defined.

(** ** Multi-version reads over the replicated store *)

(** A leader whose proposals are committed and applied before [Put] returns. *)
Section leader.
Context {D : Type} `{RocksDB D}.

Definition put_and_apply (s : RocksFSM.t D) (k v : bytes) : bool * RocksFSM.t D :=
  match RaftKV.Put s k v OK with
  | (ok, Some entry) => (ok, match RocksFSM.on_apply s [entry] with Done s => s | _ => s end)
  | (ok, None) => (ok, s)
  end.

#[export] Instance raft_kv : KV (RocksFSM.t D) := {|
  Put := put_and_apply; Get := RaftKV.Get; Query := RaftKV.Query |}.
End leader.

(** [Query] of the replicated store does not keep to the versions of its
    key: it returns every pair from the key on whose key has an underscore
    somewhere.  Multi-version reads over it therefore answer with the values of
    other keys: with one version of "k" and one of "m" stored, a read of "k"
    returns the value of "m", and so does a read of the key "a", which was never
    inserted. *)
Theorem raft_query_other_keys {D} `{RocksDBLaws D} (s : RocksFSM.t D) m key :
  holds (RocksFSM.db_ s) m →
  RaftKV.Query s key [] =
    (true, filter (λ p, RaftKV.has_underscore p.1 = true) (filter (λ p, less p.1 key = false) m)) ∧
  let s' := (mvcc_run (RocksFSM.mk 1 ([] : list (bytes * bytes)))
               [MInsert (bs "k") (bs "of k") 1; MInsert (bs "m") (bs "of m") 2]).2 in
  SimpleMVCC.Select s' (bs "k") [] 5 = Done (true, bs "of m") ∧
  SimpleMVCC.Select s' (bs "a") [] 5 = Done (true, bs "of m").
Proof.
  intros Hs. split; [by apply query_holds|]. vm_compute. split; reflexivity.
Qed.

Lemma raft_query_other_keys_witness :
  RaftKV.Query (RocksFSM.mk 1 ([] : list (bytes * bytes))) (bs "k") [] =
    (true, filter (λ p, RaftKV.has_underscore p.1 = true) (filter (λ p, less p.1 (bs "k") = false) [])) ∧
  let s' := (mvcc_run (RocksFSM.mk 1 ([] : list (bytes * bytes)))
               [MInsert (bs "k") (bs "of k") 1; MInsert (bs "m") (bs "of m") 2]).2 in
  SimpleMVCC.Select s' (bs "k") [] 5 = Done (true, bs "of m") ∧
  SimpleMVCC.Select s' (bs "a") [] 5 = Done (true, bs "of m").
Proof.
  apply (raft_query_other_keys (RocksFSM.mk 1 ([] : list (bytes * bytes))) [] (bs "k")). split; [done|constructor].
Defined.
