(* ===== verification/RaftLife.v ===== *)
(** * Opening and closing the state machine (src/raft/fsm.cc)

    The pointers of [RocksFSM] to its raft node and its database, while the thread
    that opens and closes it and the node's own thread take their steps.  The node
    delivers entries and changes of leadership from its initialisation on, until
    it has delivered [on_shutdown], which it does after [shutdown] was called. *)

From S2P Require Import Prelude Status.

Module RocksFSM_life.

(** Where the node is: not initialised, running, told to shut down, or within
    [on_shutdown], after so many of its steps. *)
Inductive raft_state : Type := Down | Up | Told | Within (n : nat).

(** [live]: the database object that [db_] points to, if not null, exists. *)
Record t : Type := mk { node_ : bool; leader_term_ : Z; db_ : bool; live : bool; raft : raft_state }.

Definition make : t := mk false (-1) false false Down.

Definition IsLeader (s : t) : bool := negb (leader_term_ s <? 0).

(** [Open]: the node, then the database. *)
Definition open_node (ok : bool) (s : t) : Status * t :=
  if ok then (OK, mk true (leader_term_ s) (db_ s) (live s) Up)
  else (Corruption (bs "failed to init raft node"), mk false (leader_term_ s) (db_ s) (live s) (raft s)).
Definition open_db (err : option bytes) (s : t) : Status * t :=
  match err with
  | None => (OK, mk (node_ s) (leader_term_ s) true true (raft s))
  | Some e => (Corruption (bs "Can't open rocksdb " ++ e), s)
  end.
Definition Open (node_ok : bool) (err : option bytes) (s : t) : Status * t :=
  let '(st, s) := open_node node_ok s in if negb (IsOK st) then (st, s) else open_db err s.

(** [Close]: the database is deleted, the node told, the pointers cleared. *)
Definition close_delete (s : t) : outcome t :=
  if db_ s then
    if live s then Done (mk (node_ s) (leader_term_ s) true false (raft s)) else Undef
  else Done s.
Definition close_shutdown (s : t) : t :=
  if node_ s then mk (node_ s) (leader_term_ s) (db_ s) (live s) (match raft s with Up => Told | r => r end) else s.
Definition close_clear (s : t) : t := mk false (leader_term_ s) false (live s) (raft s).
Definition Close (s : t) : outcome t := s ← close_delete s; Done (close_clear (close_shutdown s)).

(** [on_shutdown], up to its [Close]. *)
Definition shutdown_reset (s : t) : t := mk false (-1) (db_ s) (live s) (raft s).

(** What the threads do. *)
Inductive event : Type :=
  | OpenNode (ok : bool) | OpenDb (err : option bytes) | CloseDelete | CloseShutdown | CloseClear
  | Propose | Apply | LeaderStart (term : Z) | LeaderStop | Shutdown.

Definition running (s : t) : bool := match raft s with Up | Told => true | _ => false end.
Definition set_raft (r : raft_state) (s : t) : t := mk (node_ s) (leader_term_ s) (db_ s) (live s) r.

(** [Shutdown] is the next of the four steps of [on_shutdown]. *)
Definition shutdown_step (s : t) : option (outcome t) :=
  match raft s with
  | Told => Some (Done (set_raft (Within 1) (shutdown_reset s)))
  | Within 1 => Some (s ← close_delete s; Done (set_raft (Within 2) s))
  | Within 2 => Some (Done (set_raft (Within 3) (close_shutdown s)))
  | Within 3 => Some (Done (set_raft (Within 4) (close_clear s)))
  | _ => None
  end.

(** [None]: the step is not possible now. *)
Definition step (e : event) (s : t) : option (outcome t) :=
  match e with
  | OpenNode ok => Some (Done (open_node ok s).2)
  | OpenDb err => Some (Done (open_db err s).2)
  | CloseDelete => Some (close_delete s)
  | CloseShutdown => Some (Done (close_shutdown s))
  | CloseClear => Some (Done (close_clear s))
  | Propose => Some (if node_ s then Done s else Undef)
  | Apply => if running s then Some (if db_ s && live s then Done s else Undef) else None
  | LeaderStart term => if running s then Some (Done (mk (node_ s) term (db_ s) (live s) (raft s))) else None
  | LeaderStop => if running s then Some (Done (mk (node_ s) (-1) (db_ s) (live s) (raft s))) else None
  | Shutdown => shutdown_step s
  end.

Fixpoint run (es : list event) (s : t) : option (outcome t) :=
  match es with
  | [] => Some (Done s)
  | e :: es => match step e s with Some (Done s) => run es s | r => r end
  end.

End RocksFSM_life.
Import RocksFSM_life.

Definition in_use (e : event) : Prop :=
  match e with Propose | Apply | LeaderStart _ | LeaderStop => True | _ => False end.

Definition opening : list event := [OpenNode true; OpenDb None].
Definition closing : list event := [CloseDelete; CloseShutdown; CloseClear].
Definition shutting : list event := [Shutdown; Shutdown; Shutdown; Shutdown].

Lemma run_app es1 es2 s : run (es1 ++ es2) s = match run es1 s with Some (Done s) => run es2 s | r => r end.
Proof. revert s. induction es1 as [|e es1 IH]; intros s; [done|]. cbn. destruct (step e s) as [[]|]; done. Qed.

Lemma run_use es : ∀ l, Forall in_use es → ∃ l', run es (mk true l true true Up) = Some (Done (mk true l' true true Up)).
Proof.
  induction es as [|e es IH]; intros l Hes; [by exists l|]. apply Forall_cons in Hes as [He Hes].
  destruct e; try done; cbn; by apply IH.
Qed.

(** Between opening and closing, any order of proposals, entries and changes of
    leadership is safe, and closing frees the database once and leaves no leader,
    if the node's [on_shutdown] comes after it.  It is not defined: an entry that
    arrives before the database is open, or whenever it could not be opened although
    the node is up; an entry that arrives while the machine closes; an [on_shutdown]
    that overtakes the rest of [Close], which deletes the database again; and a
    proposal after closing. *)
Theorem life_of_state_machine es :
  Forall in_use es →
  (∃ s, run (opening ++ es ++ closing ++ shutting) make = Some (Done s) ∧
     db_ s = false ∧ live s = false ∧ node_ s = false ∧ IsLeader s = false) ∧
  run [OpenNode true; Apply] make = Some Undef ∧
  (∀ e, run [OpenNode true; OpenDb (Some e); Apply] make = Some Undef) ∧
  run (opening ++ es ++ [CloseDelete; Apply]) make = Some Undef ∧
  run (opening ++ es ++ [CloseDelete; CloseShutdown; Shutdown; Shutdown]) make = Some Undef ∧
  run (opening ++ es ++ closing ++ [Propose]) make = Some Undef.
Proof.
  intros Hes. destruct (run_use es (-1) Hes) as [l Hl].
  assert (Hgo : ∀ es', run (opening ++ es ++ es') make = run es' (mk true l true true Up)).
  { intros es'. rewrite run_app. change (run opening make) with (Some (Done (mk true (-1) true true Up))). cbv beta iota.
    by rewrite run_app, Hl. }
  rewrite !Hgo. split; [by eexists|]. by split_and!.
Qed.
