(* ===== verification/Waiter.v ===== *)
(** * Waiting for a proposal (src/util/waiter.cc, src/raft/fsm.cc)

    A caller of [Wait] and the closure that signals it.  [Wait] looks at
    [completed_] without the mutex, takes it and sleeps until it is notified, or its
    time is up, or it wakes by itself; [Signal] sets [completed_], then [status_],
    then notifies, without the mutex.  [completed_] is one byte, read and written at
    once; [status_] is a code and a string, so its assignment in [Signal] and its copy
    in [Wait] each begin and end, and a copy and an assignment under way at the same
    time are a data race: nothing is defined from there on. *)

From S2P Require Import Prelude Status.

Module Waiter.
Section waiter.
(** The constructor's time-out and that of the call, 0 for none; the status that
    is signalled. *)
Context (timeout_ timeout_ms : Z) (status : Status).

Definition timeout : Z := if negb (timeout_ms =? 0) then timeout_ms else if negb (timeout_ =? 0) then timeout_ else 0.

(** [WCopy]: copying [status_] to return it; [SAssigning]: assigning it. *)
Inductive wait_pc : Type := WCheck | WLock | WSleep | WWoken (in_time : bool) | WCopy | WDone (s : Status).
Inductive signal_pc : Type := SComplete | SAssign | SAssigning | SNotify | SDone.

Record t : Type := mk { completed_ : bool; status_ : Status; wpc : wait_pc; spc : signal_pc }.

Definition make : t := mk false OK WCheck SComplete.

Definition timed_out : Status :=
  TimeOut (bs "Waiter timeout for " ++ decimal_digits 20 timeout ++ bs "ms").

(** The steps of the caller. *)
Definition wait_step (w : t) : option t :=
  match wpc w with
  | WCheck => Some (mk (completed_ w) (status_ w) (if completed_ w then WCopy else WLock) (spc w))
  | WLock => Some (mk (completed_ w) (status_ w) WSleep (spc w))
  | WWoken in_time =>
      if timeout =? 0 then Some (mk (completed_ w) (status_ w) WCopy (spc w))
      else
        let completed := in_time in
        Some (mk completed (status_ w) (if negb completed then WDone timed_out else WCopy) (spc w))
  | WCopy => Some (mk (completed_ w) (status_ w) (WDone (status_ w)) (spc w))
  | WSleep | WDone _ => None
  end.

(** The steps of [Signal(status)]. *)
Definition signal_step (w : t) : option t :=
  match spc w with
  | SComplete => Some (mk true (status_ w) (wpc w) SAssign)
  | SAssign => Some (mk (completed_ w) (status_ w) (wpc w) SAssigning)
  | SAssigning => Some (mk (completed_ w) status (wpc w) SNotify)
  | SNotify => Some (mk (completed_ w) (status_ w) (match wpc w with WSleep => WWoken true | pc => pc end) SDone)
  | SDone => None
  end.

(** The copy meets the assignment. *)
Definition races (w : t) : bool := match wpc w, spc w with WCopy, SAssigning => true | _, _ => false end.

Inductive step : t → t → Prop :=
  | step_wait w w' : races w = false → wait_step w = Some w' → step w w'
  | step_signal w w' : races w = false → signal_step w = Some w' → step w w'
  | step_spurious w : wpc w = WSleep → step w (mk (completed_ w) (status_ w) (WWoken true) (spc w))
  | step_timer w : wpc w = WSleep → timeout ≠ 0 → step w (mk (completed_ w) (status_ w) (WWoken false) (spc w)).

Definition reachable : t → Prop := rtc step make.

End waiter.

(** [RocksClosure::Run]: what a proposal's end is signalled as. *)
Definition Run (ok : bool) (error_str : bytes) : Status := if ok then OK else Corruption error_str.

End Waiter.
Import Waiter.

(** ** What is known at every moment *)

Section waiting.
Context (timeout_ timeout_ms : Z) (status : Status).
Notation timeout := (timeout timeout_ timeout_ms).
Notation timed_out := (timed_out timeout_ timeout_ms).
Notation step := (step timeout_ timeout_ms status).
Notation wait_step := (wait_step timeout_ timeout_ms).
Notation reachable := (reachable timeout_ timeout_ms status).

Record waiter_inv (w : Waiter.t) : Prop := {
  wi_before : wpc w = WCheck → completed_ w = true ↔ spc w ≠ SComplete;
  wi_status : status_ w = match spc w with SNotify | SDone => status | _ => OK end;
  wi_woken : wpc w = WWoken false → timeout ≠ 0;
  wi_done s : wpc w = WDone s → s = OK ∨ s = status ∨ (timeout ≠ 0 ∧ s = timed_out);
}.

Lemma status_known w : waiter_inv w → status_ w = OK ∨ status_ w = status.
Proof. intros H. rewrite (wi_status w H). destruct (spc w); auto. Qed.

Lemma waiter_inv_step w w' : waiter_inv w → step w w' → waiter_inv w'.
Proof.
  intros I Hstep. destruct Hstep as [w1 w2 _ Hs|w1 w2 _ Hs|w1 Hs|w1 Hs Ht]; pose proof (status_known w1 I) as Hk; destruct I as [Hc Hst Hw Hd].
  - unfold Waiter.wait_step in Hs. destruct (wpc w1) eqn:Ew; try done.
    + injection Hs as <-. by destruct (completed_ w1).
    + injection Hs as <-. by split; cbn.
    + destruct (Z.eqb_spec timeout 0) as [E|E]; injection Hs as <-; split; cbn; try done; destruct in_time; try done.
      intros s [= <-]. tauto.
    + injection Hs as <-. split; cbn; try done. intros s [= <-]. tauto.
  - unfold Waiter.signal_step in Hs. destruct (spc w1) eqn:Es; try done; injection Hs as <-; split; cbn; try done.
    + intros Hwc. rewrite (Hc Hwc). split; [intros _; done|done].
    + intros Hwc. rewrite (Hc Hwc). split; [intros _; done|done].
    + destruct (wpc w1); try done. intros _. rewrite Hc by done. done.
    + destruct (wpc w1); try done.
    + destruct (wpc w1); try done.
  - by split.
  - by split.
Qed.

Lemma waiter_inv_reachable w : reachable w → waiter_inv w.
Proof.
  intros Hr. unfold Waiter.reachable in Hr. remember make as w0 eqn:Hw0.
  assert (H0 : waiter_inv w0) by (subst w0; split; cbn; [by split|done|done|done]).
  clear Hw0. induction Hr as [w|w w1 w2 Hs _ IH]; [done|]. by apply IH, (waiter_inv_step w).
Qed.

(** Every step is one of the few that are left. *)
Definition left (w : Waiter.t) : nat :=
  match wpc w with WCheck => 5 | WLock => 4 | WSleep => 3 | WWoken _ => 2 | WCopy => 1 | WDone _ => 0 end +
  match spc w with SComplete => 4 | SAssign => 3 | SAssigning => 2 | SNotify => 1 | SDone => 0 end.

Lemma step_left w w' : step w w' → (left w' < left w)%nat.
Proof.
  intros Hstep. destruct Hstep as [w w' _ Hs|w w' _ Hs|w Hs|w Hs _]; unfold left.
  - unfold Waiter.wait_step in Hs. destruct (wpc w); try done; try (injection Hs as <-; cbn; lia).
    + injection Hs as <-. destruct (completed_ w); cbn; lia.
    + destruct (timeout =? 0); injection Hs as <-; cbn; [lia|]. destruct in_time; cbn; lia.
  - unfold Waiter.signal_step in Hs. destruct (spc w); try done; injection Hs as <-; cbn; try lia.
    destruct (wpc w); lia.
  - cbn. rewrite Hs. lia.
  - cbn. rewrite Hs. lia.
Qed.

Lemma nsteps_left n w w' : nsteps step n w w' → (n + left w' ≤ left w)%nat.
Proof. induction 1 as [|n w1 w2 w3 Hs%step_left _ IH]; lia. Qed.

Lemma wait_stuck w : wait_step w = None → wpc w = WSleep ∨ ∃ s, wpc w = WDone s.
Proof. unfold Waiter.wait_step. destruct (wpc w); try done; [by left|by destruct (timeout =? 0)|right; eauto]. Qed.


End waiting.
