(* ===== verification/Sockaddr.v ===== *)
(** * Addresses (src/rpc/rpc.cc, src/client/lock_client_cache.cc)

    What [make_sockaddr] makes of an address "host:port", the order on socket
    addresses, and the address that a lock client gives itself.  The resolver of
    the C library is an argument. *)

From S2P Require Import Prelude StdContainers.

(** ** Numbers in strings *)

Definition isspace (c : Byte.byte) : bool := (b2z c =? 32) || ((9 <=? b2z c) && (b2z c <=? 13)).
Definition isdigit (c : Byte.byte) : bool := (48 <=? b2z c) && (b2z c <=? 57).

Fixpoint digits (acc : Z) (s : bytes) : Z :=
  match s with
  | c :: s => if isdigit c then digits (acc * 10 + (b2z c - 48)) s else acc
  | [] => acc
  end.

(** [atoi]: a number that is no [int] is undefined. *)
Fixpoint atoi (s : bytes) : outcome Z :=
  match s with
  | [] => Done 0
  | c :: r =>
      if isspace c then atoi r
      else
        let v := if b2z c =? 45 then - digits 0 r else if b2z c =? 43 then digits 0 r else digits 0 s in
        if (- 2 ^ 31 <=? v) && (v <? 2 ^ 31) then Done v else Undef
  end.

(** [ost << n] for an [int] that is not negative. *)
Definition decimal (n : Z) : bytes := decimal_digits 10 n.

(** [htons] on a little-endian machine. *)
Definition htons (x : Z) : Z := x mod 256 * 256 + x / 256.

(** ** Addresses *)

Definition AF_INET : Z := 2.
Definition INADDR_NONE : Z := 2 ^ 32 - 1.

Record sockaddr_in : Type := mkSin { sin_family : Z; s_addr : Z; sin_port : Z }.

(** [index] *)
Fixpoint index (s : bytes) (c : Byte.byte) : option nat :=
  match s with
  | [] => None
  | b :: s => if bool_decide (b = c) then Some 0%nat else S <$> index s c
  end.

Section resolver.
(** The C library: the address a dotted string stands for, or INADDR_NONE; the
    length and the address of a host's name. *)
Context (inet_addr : bytes → Z) (gethostbyname : bytes → option (Z * Z)).

(** A name that is not found ends the process. *)
Definition make_sockaddr_host (host port : bytes) : outcome sockaddr_in :=
  a ← (let a := inet_addr host in
       if negb (a =? INADDR_NONE) then Done a
       else match gethostbyname host with
            | Some (len, a) => if negb (len =? 4) then Throws else Done a
            | None => Throws
            end);
  p ← atoi port; Done (mkSin AF_INET a (htons (wrap 16 p))).

(** The host goes to an array of 200 characters, whatever its length. *)
Definition make_sockaddr (hostandport : bytes) : outcome sockaddr_in :=
  match index (c_str hostandport) Byte.x3a with
  | None => make_sockaddr_host (bs "127.0.0.1") (c_str hostandport)
  | Some i =>
      if 200 <=? Z.of_nat i then Undef
      else make_sockaddr_host (take i (c_str hostandport)) (drop (i + 1) (c_str hostandport))
  end.

End resolver.

(** [operator<] *)
Definition less_sin (a b : sockaddr_in) : bool :=
  (s_addr a <? s_addr b) || ((s_addr a =? s_addr b) && (sin_port a <? sin_port b)).

(** The [id] of a lock client: its own address, from the port of its server. *)
Definition lock_client_id (port : Z) : bytes := bs "127.0.0.1" ++ bs ":" ++ decimal port.

(** ** Numbers are read as they are written *)

Lemma b2z_digit d : 0 ≤ d < 10 → b2z (z2b (48 + d)) = 48 + d.
Proof. intros Hd. rewrite b2z_z2b. apply Z.mod_small. lia. Qed.

Lemma digits_app l r : ∀ acc, Forall (λ c, isdigit c = true) l → digits acc (l ++ r) = digits (digits acc l) r.
Proof. induction l as [|c l IH]; intros acc H; [done|]. apply Forall_cons in H as [Hc H]. cbn. rewrite Hc. by apply IH. Qed.

Lemma isdigit_digit d : 0 ≤ d < 10 → isdigit (z2b (48 + d)) = true.
Proof. intros Hd. unfold isdigit. rewrite b2z_digit by done. lia. Qed.

Lemma decimal_are_digits f : ∀ n, Forall (λ c, isdigit c = true) (decimal_digits f n).
Proof.
  induction f as [|f IH]; intros n; [constructor|]. cbn. apply Forall_app. split; [by case_match|].
  constructor; [|done]. apply isdigit_digit. apply Z.mod_pos_bound. lia.
Qed.

Lemma digits_decimal f : ∀ n, 0 ≤ n < 10 ^ Z.of_nat f → digits 0 (decimal_digits f n) = n.
Proof.
  induction f as [|f IH]; intros n Hn; [cbn in *; lia|]. cbn [decimal_digits].
  assert (Hm : 0 ≤ n mod 10 < 10) by (apply Z.mod_pos_bound; lia).
  assert (Hd : ∀ acc, digits acc [z2b (48 + n mod 10)] = acc * 10 + n mod 10).
  { intros acc. cbn. rewrite isdigit_digit, b2z_digit by done. lia. }
  rewrite digits_app, Hd.
  - destruct (Z.ltb_spec n 10); [cbn; rewrite Z.mod_small by lia; lia|].
    rewrite IH; [pose proof (Z.div_mod n 10); lia|]. rewrite Nat2Z.inj_succ, Z.pow_succ_r in Hn by lia.
    split; [apply Z.div_pos; lia|apply Z.div_lt_upper_bound; lia].
  - case_match; [constructor|apply decimal_are_digits].
Qed.

Lemma decimal_nonempty n : decimal n ≠ [].
Proof. unfold decimal. cbn [decimal_digits]. intros H. apply app_nil in H as [_ H]. done. Qed.

(** [atoi] reads what the stream wrote. *)
Lemma atoi_decimal n : 0 ≤ n < 10 ^ 10 → atoi (decimal n) = if n <? 2 ^ 31 then Done n else Undef.
Proof.
  intros Hn. pose proof (decimal_are_digits 10 n) as Hall. pose proof (decimal_nonempty n) as Hne.
  pose proof (digits_decimal 10 n Hn) as Hv. fold (decimal n) in Hall, Hv.
  destruct (decimal n) as [|c r]; [done|]. apply Forall_cons in Hall as [Hc _].
  cbn [atoi]. unfold isspace, isdigit in *. rewrite Hv.
  assert ((b2z c =? 32) || (9 <=? b2z c) && (b2z c <=? 13) = false) as -> by lia.
  assert (b2z c =? 45 = false) as -> by lia. assert (b2z c =? 43 = false) as -> by lia.
  assert (- 2 ^ 31 <=? n = true) as -> by lia. done.
Qed.

(** ** The order on addresses *)

#[export] Instance less_sockaddr : Less sockaddr_in := less_sin.
#[export] Instance less_sockaddr_laws : LessLaws sockaddr_in.
Proof. split; unfold less, less_sockaddr, less_sin; intros; lia. Qed.

(** ** Splitting an address *)

Lemma c_str_all s : Byte.x00 ∉ s → c_str s = s.
Proof.
  induction s as [|c s IH]; intros H; [done|]. apply not_elem_of_cons in H as [Hc H]. cbn.
  destruct (Z.eqb_spec (b2z c) 0) as [E|]; [|by rewrite IH]. destruct Hc. by rewrite <- (z2b_b2z c), E.
Qed.

Lemma index_app l c r : c ∉ l → index (l ++ c :: r) c = Some (length l).
Proof.
  induction l as [|b l IH]; intros H; cbn; [by rewrite bool_decide_true|].
  apply not_elem_of_cons in H as [Hb H]. rewrite bool_decide_false by congruence. by rewrite IH.
Qed.

Lemma index_none l c : c ∉ l → index l c = None.
Proof.
  induction l as [|b l IH]; intros H; cbn; [done|]. apply not_elem_of_cons in H as [Hb H].
  rewrite bool_decide_false by congruence. by rewrite IH.
Qed.

Lemma digit_not c s : Forall (λ c, isdigit c = true) s → isdigit c = false → c ∉ s.
Proof. intros Hs Hc Hin. rewrite Forall_forall in Hs. specialize (Hs c Hin). congruence. Qed.

Lemma htons_involutive p : 0 ≤ p < 2 ^ 16 → htons (htons p) = p.
Proof. intros Hp. unfold htons. Z.to_euclidean_division_equations. lia. Qed.

Lemma decimal_plain n c : isdigit c = false → c ∉ decimal n.
Proof. apply digit_not, decimal_are_digits. Qed.

Section resolved.
Context (inet_addr : bytes → Z) (gethostbyname : bytes → option (Z * Z)).
Notation make_sockaddr := (make_sockaddr inet_addr gethostbyname).

(** C38: An address "host:port" is read back exactly when it fits: for a host of
    fewer than 200 characters that the resolver knows by address or by name, and a
    port below 2^16, the socket address has that host and that port; a larger port
    is cut to 16 bits, one that is no [int] is undefined, a host that is not found
    ends the process, and a host of 200 characters or more overruns the array it is
    copied to.  Without a colon the host is this machine, so the id that a lock
    client builds from its port leads back to it. *)
Theorem make_sockaddr_bounds host n :
  Byte.x00 ∉ host → Byte.x3a ∉ host → 0 ≤ n < 10 ^ 10 →
  (200 ≤ zlen host → make_sockaddr (host ++ bs ":" ++ decimal n) = Undef) ∧
  (zlen host < 200 → 
   (inet_addr host ≠ INADDR_NONE → n < 2 ^ 31 →
    make_sockaddr (host ++ bs ":" ++ decimal n) = Done (mkSin AF_INET (inet_addr host) (htons (wrap 16 n)))) ∧
   (inet_addr host = INADDR_NONE → ∀ a, gethostbyname host = Some (4, a) → n < 2 ^ 31 →
    make_sockaddr (host ++ bs ":" ++ decimal n) = Done (mkSin AF_INET a (htons (wrap 16 n)))) ∧
   (inet_addr host = INADDR_NONE → gethostbyname host = None → make_sockaddr (host ++ bs ":" ++ decimal n) = Throws) ∧
   (inet_addr host ≠ INADDR_NONE → 2 ^ 31 ≤ n → make_sockaddr (host ++ bs ":" ++ decimal n) = Undef)) ∧
  (n < 2 ^ 16 → htons (htons (wrap 16 n)) = n) ∧
  make_sockaddr (decimal n) = make_sockaddr (lock_client_id n).
Proof.
  intros Hnul Hcol Hn.
  assert (Hc : ∀ h, Byte.x00 ∉ h → Byte.x3a ∉ h → make_sockaddr (h ++ bs ":" ++ decimal n) =
    if 200 <=? zlen h then Undef else make_sockaddr_host inet_addr gethostbyname h (decimal n)).
  { intros h Hh1 Hh2. unfold Sockaddr.make_sockaddr. change (bs ":" ++ decimal n) with (Byte.x3a :: decimal n).
    rewrite c_str_all.
    - rewrite index_app by done. case_match; [done|]. rewrite take_app_length, Nat.add_1_r.
      by rewrite drop_app_ge, Nat.sub_succ_l, Nat.sub_diag by lia.
    - rewrite elem_of_app, elem_of_cons. intros [?|[?|Hin]]; [done|done|]. by apply decimal_plain in Hin. }
  assert (Hself : make_sockaddr (decimal n) = make_sockaddr_host inet_addr gethostbyname (bs "127.0.0.1") (decimal n)).
  { unfold Sockaddr.make_sockaddr. rewrite c_str_all, index_none by (by apply decimal_plain). done. }
  rewrite (Hc host Hnul Hcol). split; [|split; [|split]].
  - intros Hl. by test_true.
  - intros Hl. test_false. unfold make_sockaddr_host. rewrite atoi_decimal by done. split_and!.
    + intros Ha Hp. rewrite (proj2 (Z.eqb_neq _ _) Ha). test_true. done.
    + intros -> a -> Hp. test_true. done.
    + intros -> ->. done.
    + intros Ha Hp. rewrite (proj2 (Z.eqb_neq _ _) Ha). test_false. done.
  - intros Hp. rewrite wrap_small by lia. apply htons_involutive. lia.
  - unfold lock_client_id. rewrite Hself, Hc; [done|..]; by apply (bool_decide_unpack _); vm_compute.
Qed.

End resolved.

Definition demo_inet (h : bytes) : Z := if bool_decide (h = bs "127.0.0.1") then 16777343 else INADDR_NONE.
Definition demo_host (h : bytes) : option (Z * Z) := if bool_decide (h = bs "node") then Some (4, 33554559) else None.

Lemma make_sockaddr_bounds_witness :
  make_sockaddr demo_inet demo_host (bs "node:3772") = Done (mkSin 2 33554559 (htons 3772)) ∧
  make_sockaddr demo_inet demo_host (replicate 200 Byte.x61 ++ bs ":1") = Undef.
Proof.
  split.
  - destruct (make_sockaddr_bounds demo_inet demo_host (bs "node") 3772) as (_ & (_ & H & _) & _ & _);
      [by apply (bool_decide_unpack _); vm_compute..|lia| |].
    + by vm_compute.
    + exact (H ltac:(by vm_compute) 33554559 ltac:(by vm_compute) ltac:(by vm_compute)).
  - destruct (make_sockaddr_bounds demo_inet demo_host (replicate 200 Byte.x61) 1) as (H & _);
      [by apply (bool_decide_unpack _); vm_compute..|lia|].
    apply H. by vm_compute.
Defined.
