(* ===== verification/Connection.v ===== *)
(** * Connections

    [connection] of [rpc/connection.cc]: messages (PDUs) over a non-blocking
    socket.  [send] is run by any number of threads, split where it waits;
    [read_cb] and [write_cb] are called by the polling thread; what the socket
    answers is an argument of each step.  The socket of the other side gets the
    bytes written, the [wire]. *)

From S2P Require Import Prelude.

Definition MAX_PDU : Z := 10 * 2 ^ 20.

(** [htonl] and [ntohl] on a little-endian machine. *)
Definition htonl (x : Z) : Z := le_val (rev (i32_bytes x)).

(** [buf] is the pointer with the bytes written to it so far: all of them for
    a message to send, the first [solong] for a message being read. *)
Record charbuf : Type := mkBuf { buf : option bytes; sz : Z; solong : Z }.
Definition charbuf_new : charbuf := mkBuf None 0 0.

(** What a call of [write] or [read] returns; the flag says that [errno] is
    [EAGAIN] after it, which a call that does not fail leaves as it was. *)
Inductive written : Type := Wrote (n : Z) | WriteFails (again : bool).
Inductive got : Type := Got (b : bytes) (again : bool) | ReadFails (again : bool).

Module connection.

Record t : Type := mk {
  dead_ : bool; wpdu_ : charbuf; rpdu_ : charbuf; waiters_ : Z; refno_ : Z;
  watch_r : bool; watch_w : bool   (* what the poll manager watches for [fd_] *)
}.

Definition make : t := mk false charbuf_new charbuf_new 0 1 true false.

Definition set_dead (c : t) : t := mk true (wpdu_ c) (rpdu_ c) (waiters_ c) (refno_ c) (watch_r c) (watch_w c).
Definition set_wpdu (w : charbuf) (c : t) : t :=
  mk (dead_ c) w (rpdu_ c) (waiters_ c) (refno_ c) (watch_r c) (watch_w c).
Definition set_rpdu (r : charbuf) (c : t) : t :=
  mk (dead_ c) (wpdu_ c) r (waiters_ c) (refno_ c) (watch_r c) (watch_w c).
Definition add_waiter (n : Z) (c : t) : t :=
  mk (dead_ c) (wpdu_ c) (rpdu_ c) (waiters_ c + n) (refno_ c) (watch_r c) (watch_w c).
Definition set_ref (n : Z) (c : t) : t :=
  mk (dead_ c) (wpdu_ c) (rpdu_ c) (waiters_ c) n (watch_r c) (watch_w c).
Definition watch (r w : bool) (c : t) : t :=
  mk (dead_ c) (wpdu_ c) (rpdu_ c) (waiters_ c) (refno_ c) r w.

(** The result, the buffer after, and the bytes that went to the socket. *)
Definition writepdu (w : charbuf) (a : written) : outcome (bool * charbuf * bytes) :=
  _ ← ensure (0 <=? solong w);
  if solong w =? sz w then Done (true, w, [])
  else
    match buf w with
    | None => Undef
    | Some b =>
        if (solong w =? 0) && (zlen b <? 4) then Undef
        else
          let b := if solong w =? 0 then i32_bytes (htonl (sz w)) ++ drop 4 b else b in
          match a with
          | WriteFails again =>
              if again then Done (true, mkBuf (Some b) (sz w) (solong w), [])
              else Done (false, mkBuf (Some b) 0 (-1), [])
          | Wrote n => Done (true, mkBuf (Some b) (sz w) (solong w + n), take (Z.to_nat n) (drop (Z.to_nat (solong w)) b))
          end
    end.

(** The first part of [readpdu], the length: [inl] when it returns false. *)
Definition readpdu_size (r : charbuf) (a : got) : outcome (unit + charbuf) :=
  match a with
  | ReadFails again => _ ← ensure (negb again); Done (inl ())
  | Got b _ =>
      if negb (zlen b =? 4) then Done (inl ())
      else
        let size := sgn 32 (htonl (le_val b)) in
        if MAX_PDU <? size then Done (inl ())
        else
          _ ← ensure (negb (bool_decide (is_Some (buf r))));
          (* [malloc] of [size + 4] as [size_t]: nothing can be that large *)
          if size <? -4 then Throws
          else if size <? 0 then Undef
          else Done (inr (mkBuf (Some b) size 4))
  end.

(** The second part, the rest of the message. *)
Definition readpdu_rest (r : charbuf) (a : got) : outcome (bool * charbuf) :=
  match a with
  | ReadFails again | Got [] again => Done (again, if again then r else charbuf_new)
  | Got b _ =>
      match buf r with
      | None => Undef
      | Some x =>
          if sz r + 4 <? solong r + zlen b then Undef
          else Done (true, mkBuf (Some (x ++ b)) (sz r) (solong r + zlen b))
      end
  end.

Definition readpdu (r : charbuf) (a1 a2 : got) : outcome (bool * charbuf) :=
  hdr ← (if sz r =? 0 then readpdu_size r a1 else Done (inr r));
  match hdr with inl _ => Done (false, r) | inr r => readpdu_rest r a2 end.

(** Where a thread that called [send] or [closeconn] is.  The flag of a waiting
    thread says that it was woken up. *)
Inductive phase : Type :=
  | Waiting (b : bytes) (woken : bool)        (* [pthread_cond_wait(&send_wait_)] *)
  | Completing (woken : bool)                 (* [pthread_cond_wait(&send_complete_)] *)
  | Removing                                  (* [block_remove_fd] of [send] *)
  | Closing                                   (* [block_remove_fd] of [closeconn] *)
  | Sent (ret : bool)
  | Closed.

(** The end of [send]; the last result says that the waiters are woken. *)
Definition send_finish (c : t) : t * phase * bool :=
  let ret := negb (dead_ c) && (solong (wpdu_ c) =? sz (wpdu_ c)) in
  (set_wpdu charbuf_new c, Sent ret, 0 <? waiters_ c).

(** The loop that waits for the rest of the message. *)
Definition send_complete (c : t) : t * phase * bool :=
  if negb (dead_ c) && (0 <=? solong (wpdu_ c)) && (solong (wpdu_ c) <? sz (wpdu_ c))
  then (c, Completing false, false)
  else send_finish c.

(** The loop that waits for the turn, and what [send] does in its turn.  The
    shutdown of the loss test shows in what the socket answers. *)
Definition send_turn (c : t) (b : bytes) (a : written) : outcome (t * phase * bool * bytes) :=
  if negb (dead_ c) && bool_decide (is_Some (buf (wpdu_ c))) then Done (c, Waiting b false, false, [])
  else
    let c := add_waiter (-1) c in
    if dead_ c then Done (c, Sent false, false, [])
    else
      '(ok, w, out) ← writepdu (mkBuf (Some b) (zlen b) 0) a;
      let c := set_wpdu w c in
      if negb ok then Done (set_dead c, Removing, false, out)
      else if solong w =? sz w then Done (send_finish c, out)
      else Done (send_complete (watch (watch_r c) true c), out).

Definition send (c : t) (b : bytes) (a : written) : outcome (t * phase * bool * bytes) :=
  send_turn (add_waiter 1 c) b a.

(** The flag says that the sender is signalled. *)
Definition write_cb (c : t) (a : written) : outcome (t * bool * bytes) :=
  _ ← ensure (negb (dead_ c));
  if sz (wpdu_ c) =? 0 then Done (watch (watch_r c) false c, false, [])
  else
    '(ok, w, out) ← writepdu (wpdu_ c) a;
    let c := set_wpdu w c in
    if negb ok then Done (set_dead (watch false false c), true, out)
    else
      _ ← ensure (0 <=? solong w);
      if solong w <? sz w then Done (c, false, out) else Done (c, true, out).

(** What [read_cb] does with the result of [readpdu].  [consumed] is what
    [got_pdu] answers if it is called, which is when the last result has a
    message. *)
Definition read_done (c : t) (succ : bool) (r : charbuf) (consumed : bool) : t * bool * option bytes :=
  let c := set_rpdu r c in
  let '(c, signal) := if succ then (c, false) else (set_dead (watch false false c), true) in
  match buf r with
  | Some b =>
      if sz r =? solong r then (if consumed then set_rpdu charbuf_new c else c, signal, Some b)
      else (c, signal, None)
  | None => (c, signal, None)
  end.

Definition read_cb (c : t) (a1 a2 : got) (consumed : bool) : outcome (t * bool * option bytes) :=
  if dead_ c then Done (c, false, None)
  else
    '(succ, r) ← (if negb (bool_decide (is_Some (buf (rpdu_ c)))) || (solong (rpdu_ c) <? sz (rpdu_ c))
                  then readpdu (rpdu_ c) a1 a2 else Done (true, rpdu_ c));
    Done (read_done c succ r consumed).

Definition closeconn (c : t) : t * phase := if dead_ c then (c, Closed) else (set_dead c, Closing).

(** [block_remove_fd] returns: in [send] what follows it, in [closeconn] the
    end. *)
Definition removed (c : t) (p : phase) : option (t * phase * bool) :=
  match p with
  | Removing => Some (send_finish (watch false false c))
  | Closing => Some (watch false false c, Closed, false)
  | _ => None
  end.

Definition isdead (c : t) : bool := dead_ c.
Definition incref (c : t) : t := set_ref (refno_ c + 1) c.
Definition ref (c : t) : Z := refno_ c.

(** [None] after [delete this]: the destructor has its own checks. *)
Definition decref (c : t) : outcome (option t) :=
  let c := set_ref (refno_ c - 1) c in
  _ ← ensure (0 <=? refno_ c);
  if (refno_ c =? 0) && dead_ c
  then _ ← ensure (negb (bool_decide (is_Some (buf (wpdu_ c))))); Done None
  else Done (Some c).

End connection.

(** ** The threads of one connection

    Every step holds [m_].  [begun] lists the sends that got their turn, as they
    got it. *)
Record sys : Type := mkSys {
  conn : connection.t; threads : gmap nat connection.phase; wire : bytes; begun : list (nat * bytes)
}.
Definition sys_make : sys := mkSys connection.make ∅ [] [].

Inductive event : Type :=
  | ESend (i : nat) (b : bytes) (a : written)
  | ETurn (i : nat) (a : written)              (* a waiter was woken and has the mutex *)
  | EComplete (i : nat)                        (* the sender was signalled *)
  | ERemoved (i : nat)
  | EClose (i : nat)
  | EWriteCb (a : written)
  | EReadCb (a1 a2 : got) (consumed : bool)
  | ESpurious (i : nat).

Definition wake_waiter (p : connection.phase) : connection.phase :=
  match p with connection.Waiting b _ => connection.Waiting b true | p => p end.
Definition wake_sender (p : connection.phase) : connection.phase :=
  match p with connection.Completing _ => connection.Completing true | p => p end.

Definition to_phase (i : nat) (p : connection.phase) (wake : bool) (ts : gmap nat connection.phase) :=
  <[i := p]> (if wake then wake_waiter <$> ts else ts).

(** The turn of a send: it takes the buffer unless the connection is dead or
    another send has it. *)
Definition takes_turn (c : connection.t) : bool :=
  negb (connection.dead_ c) && negb (bool_decide (is_Some (buf (connection.wpdu_ c)))).

Definition turned (s : sys) (i : nat) (b : bytes)
    (r : outcome (connection.t * connection.phase * bool * bytes)) : outcome sys :=
  '(c, p, wake, out) ← r;
  Done (mkSys c (to_phase i p wake (threads s)) (wire s ++ out)
          (begun s ++ if takes_turn (conn s) then [(i, b)] else [])).

Definition step (s : sys) (e : event) : option (outcome sys) :=
  match e with
  | ESend i b a =>
      match threads s !! i with
      | Some _ => None
      | None => Some (turned s i b (connection.send (conn s) b a))
      end
  | ETurn i a =>
      match threads s !! i with
      | Some (connection.Waiting b true) => Some (turned s i b (connection.send_turn (conn s) b a))
      | _ => None
      end
  | EComplete i =>
      match threads s !! i with
      | Some (connection.Completing true) =>
          let '(c, p, wake) := connection.send_complete (conn s) in
          Some (Done (mkSys c (to_phase i p wake (threads s)) (wire s) (begun s)))
      | _ => None
      end
  | ERemoved i =>
      p ← threads s !! i;
      '(c, p, wake) ← connection.removed (conn s) p;
      Some (Done (mkSys c (to_phase i p wake (threads s)) (wire s) (begun s)))
  | EClose i =>
      match threads s !! i with
      | Some _ => None
      | None =>
          let '(c, p) := connection.closeconn (conn s) in
          Some (Done (mkSys c (<[i := p]> (threads s)) (wire s) (begun s)))
      end
  | EWriteCb a =>
      Some ('(c, signal, out) ← connection.write_cb (conn s) a;
            Done (mkSys c (if (signal : bool) then wake_sender <$> threads s else threads s) (wire s ++ out) (begun s)))
  | EReadCb a1 a2 consumed =>
      Some ('(c, signal, _) ← connection.read_cb (conn s) a1 a2 consumed;
            Done (mkSys c (if (signal : bool) then wake_sender <$> threads s else threads s) (wire s) (begun s)))
  | ESpurious i =>
      p ← threads s !! i;
      Some (Done (mkSys (conn s) (<[i := wake_sender (wake_waiter p)]> (threads s)) (wire s) (begun s)))
  end.

(** What a call of [write] can return, and the messages the program sends. *)
Definition can_write (len : Z) (a : written) : Prop :=
  match a with Wrote n => 0 ≤ n ≤ len | WriteFails _ => True end.

Definition event_ok (s : sys) (e : event) : Prop :=
  match e with
  | ESend _ b a => 4 ≤ zlen b < 2 ^ 31 ∧ can_write (zlen b) a
  | ETurn i a => ∀ b w, threads s !! i = Some (connection.Waiting b w) → can_write (zlen b) a
  | EWriteCb a => let w := connection.wpdu_ (conn s) in can_write (sz w - solong w) a
  | _ => True
  end.

Inductive runs : sys → sys → Prop :=
  | runs_refl s : runs s s
  | runs_step s e s' s'' : event_ok s e → step s e = Some (Done s') → runs s' s'' → runs s s''.
