(* ===== verification/ConnSend.v ===== *)
(** * Sending on a connection

    The invariant of the threads that send on one connection: what is on the
    wire, who writes, and who waits for what. *)

From S2P Require Import Prelude Connection.

(** ** Sending *)

(** The bytes of a message on the wire. *)
Definition frame (b : bytes) : bytes := i32_bytes (htonl (zlen b)) ++ drop 4 b.
Definition frames (l : list (nat * bytes)) : list bytes := frame <$> l.*2.
Definition stream (l : list (nat * bytes)) : bytes := concat (frames l).

#[local] Arguments stream : simpl never.
#[local] Arguments frame : simpl never.

Lemma length_wire_frame b : 4 ≤ zlen b → zlen (frame b) = zlen b.
Proof. intros. unfold frame. len. Qed.

Lemma stream_app l k : stream (l ++ k) = stream l ++ stream k.
Proof. unfold stream, frames. by rewrite !fmap_app, concat_app. Qed.
Lemma stream_one i b : stream [(i, b)] = frame b.
Proof. unfold stream, frames. cbn. by rewrite app_nil_r. Qed.

Lemma drop_frame b : 4 ≤ zlen b → i32_bytes (htonl (zlen b)) ++ drop 4 (frame b) = frame b.
Proof. intros. unfold frame. by rewrite drop_app_length' by len. Qed.

(** The first call of [writepdu] for a message, and the later ones. *)
Definition after_write (b : bytes) (k : Z) (a : written) : bool * charbuf * bytes :=
  match a with
  | Wrote n => (true, mkBuf (Some (frame b)) (zlen b) (k + n), take (Z.to_nat n) (drop (Z.to_nat k) (frame b)))
  | WriteFails true => (true, mkBuf (Some (frame b)) (zlen b) k, [])
  | WriteFails false => (false, mkBuf (Some (frame b)) 0 (-1), [])
  end.

Lemma writepdu_first b a :
  4 ≤ zlen b → connection.writepdu (mkBuf (Some b) (zlen b) 0) a = Done (after_write b 0 a).
Proof.
  intros Hb. unfold connection.writepdu. cbn [solong sz buf]. cbn [ensure Z.leb Z.compare]. rewrite bind_Done.
  test_false. test_false. cbn [andb]. cbv iota. fold (frame b). by destruct a as [n|[]].
Qed.

Lemma writepdu_next b k a :
  4 ≤ zlen b → 0 ≤ k < zlen b →
  connection.writepdu (mkBuf (Some (frame b)) (zlen b) k) a = Done (after_write b k a).
Proof.
  intros Hb Hk. unfold connection.writepdu. cbn [solong sz buf].
  replace (0 <=? k) with true by lia. cbn [ensure]. rewrite bind_Done. test_false.
  replace (zlen (frame b) <? 4) with false by (rewrite length_wire_frame; lia). rewrite andb_false_r.
  replace (if k =? 0 then i32_bytes (htonl (zlen b)) ++ drop 4 (frame b) else frame b) with (frame b).
  - by destruct a as [n|[]].
  - case_test; [by rewrite drop_frame|done].
Qed.

(** What is known between two steps.  [connected] relates the buffer of the
    message being sent to the wire. *)
Definition is_sender (p : connection.phase) : bool :=
  match p with connection.Completing _ | connection.Removing => true | _ => false end.
Definition is_waiter (p : connection.phase) : Z :=
  match p with connection.Waiting _ _ => 1 | _ => 0 end.
Definition is_closer (p : connection.phase) : bool :=
  match p with connection.Closing | connection.Closed => true | _ => false end.

Definition idle (s : sys) : Prop :=
  connection.wpdu_ (conn s) = charbuf_new ∧
  wire s `prefix_of` stream (begun s) ∧ (connection.dead_ (conn s) = false → wire s = stream (begun s)) ∧
  ∀ i p, threads s !! i = Some p → is_sender p = false.

Definition writing (s : sys) : Prop :=
  ∃ l i b, begun s = l ++ [(i, b)] ∧ 4 ≤ zlen b < 2 ^ 31 ∧
    (∀ j p, threads s !! j = Some p → is_sender p = true → j = i) ∧
    ((∃ k, connection.wpdu_ (conn s) = mkBuf (Some (frame b)) (zlen b) k ∧ 0 ≤ k ≤ zlen b ∧
        wire s = stream l ++ take (Z.to_nat k) (frame b)) ∨
     (connection.wpdu_ (conn s) = mkBuf (Some (frame b)) 0 (-1) ∧ connection.dead_ (conn s) = true ∧
        wire s `prefix_of` stream (begun s))).

Definition stays (c : connection.t) (ts : gmap nat connection.phase) : Prop :=
  (connection.dead_ c = false ∧ 0 ≤ solong (connection.wpdu_ c) < sz (connection.wpdu_ c)) ∨
  ∃ j p, ts !! j = Some p ∧ is_closer p = true.

(** What is known of the threads. *)
Record tinv (c : connection.t) (ts : gmap nat connection.phase) (w : bytes) (bg : list (nat * bytes)) : Prop := {
  ti_size i b wk : ts !! i = Some (connection.Waiting b wk) → 4 ≤ zlen b < 2 ^ 31;
  ti_sleep i b : ts !! i = Some (connection.Waiting b false) → is_Some (buf (connection.wpdu_ c));
  ti_count : connection.waiters_ c = msum is_waiter ts;
  ti_sent i : ts !! i = Some (connection.Sent true) →
    ∃ l b l', bg = l ++ (i, b) :: l' ∧ stream (l ++ [(i, b)]) `prefix_of` w;
  ti_watch : connection.dead_ c = false → solong (connection.wpdu_ c) < sz (connection.wpdu_ c) →
    connection.watch_w c = true;
  ti_complete i : ts !! i = Some (connection.Completing false) → stays c ts;
  ti_closer i p : ts !! i = Some p → is_closer p = true → connection.dead_ c = true;
  ti_removing i : ts !! i = Some connection.Removing → connection.dead_ c = true;
}.

Record sinv (s : sys) : Prop := {
  si_link : idle s ∨ writing s;
  si_threads : tinv (conn s) (threads s) (wire s) (begun s);
}.

Lemma is_waiter_nonneg p : 0 ≤ is_waiter p.
Proof. by destruct p. Qed.
Lemma is_waiter_wake p : is_waiter (wake_waiter p) = is_waiter p.
Proof. by destruct p. Qed.
Lemma is_waiter_wake_sender p : is_waiter (wake_sender p) = is_waiter p.
Proof. by destruct p. Qed.

Lemma lookup_to_phase i p wake ts j q :
  to_phase i p wake ts !! j = Some q ↔
  (j = i ∧ q = p) ∨ (j ≠ i ∧ ∃ q0, ts !! j = Some q0 ∧ q = if wake then wake_waiter q0 else q0).
Proof.
  unfold to_phase. destruct (decide (j = i)) as [->|N].
  - rewrite lookup_insert_eq. naive_solver.
  - rewrite lookup_insert_ne by done. destruct wake; [|naive_solver].
    rewrite lookup_fmap. destruct (ts !! j); cbn; naive_solver.
Qed.

Lemma waiters_to_phase i p wake ts :
  msum is_waiter (to_phase i p wake ts) = msum is_waiter ts - from_option is_waiter 0 (ts !! i) + is_waiter p.
Proof.
  unfold to_phase.
  change (<[i := p]> ?m) with (partial_alter (λ _, Some p) i m). rewrite msum_alter. cbn. destruct wake; [|done].
  rewrite (msum_fmap is_waiter wake_waiter) by apply is_waiter_wake.
  rewrite lookup_fmap. destruct (ts !! i); cbn; [by rewrite is_waiter_wake|done].
Qed.

(** A thread moves to [p]; [wake] wakes the waiters. *)
Section moves.
Context (c c' : connection.t) (ts : gmap nat connection.phase) (w w' : bytes) (bg bg' : list (nat * bytes)).
Context (i : nat) (p : connection.phase) (wake : bool).
Hypothesis Hinv : tinv c ts w bg.
Hypothesis Hdead : connection.dead_ c = true → connection.dead_ c' = true.
Hypothesis Hw : w `prefix_of` w'.
Hypothesis Hbg : bg `prefix_of` bg'.
Hypothesis Hcount :
  connection.waiters_ c' = connection.waiters_ c - from_option is_waiter 0 (ts !! i) + is_waiter p.
Hypothesis Hbuf : (is_Some (buf (connection.wpdu_ c)) → is_Some (buf (connection.wpdu_ c'))) ∨
  wake = true ∨ connection.waiters_ c' = 0.
Hypothesis Hwatch : connection.dead_ c' = false → solong (connection.wpdu_ c') < sz (connection.wpdu_ c') →
  connection.watch_w c' = true.
Hypothesis Hothers : ∀ j, j ≠ i → ts !! j = Some (connection.Completing false) → stays c' (to_phase i p wake ts).
Hypothesis Hp : match p with
  | connection.Waiting b wk => 4 ≤ zlen b < 2 ^ 31 ∧ (wk = false → is_Some (buf (connection.wpdu_ c')))
  | connection.Sent true => ∃ l b l', bg' = l ++ (i, b) :: l' ∧ stream (l ++ [(i, b)]) `prefix_of` w'
  | connection.Completing false => stays c' (to_phase i p wake ts)
  | connection.Closing | connection.Closed | connection.Removing => connection.dead_ c' = true
  | _ => True
  end.

Lemma moved : tinv c' (to_phase i p wake ts) w' bg'.
Proof.
  split.
  - intros j b wk [[-> <-]|(N & q & Hq & E)]%lookup_to_phase; [apply Hp|].
    destruct wake, q; simplify_eq/=; by eapply ti_size.
  - intros j b [[-> <-]|(N & q & Hq & E)]%lookup_to_phase; [by apply Hp|].
    destruct Hbuf as [Hb|[->|Hz]]; [|by destruct q|].
    + apply Hb. destruct wake, q; simplify_eq/=. by eapply ti_sleep.
    + exfalso. pose proof (waiters_to_phase i p wake ts) as Hm.
      assert (1 ≤ msum is_waiter (to_phase i p wake ts)).
      { apply (msum_lookup_le is_waiter _ j (connection.Waiting b false) is_waiter_nonneg), lookup_to_phase. eauto. }
      rewrite <- (ti_count _ _ _ _ Hinv) in Hm. lia.
  - rewrite waiters_to_phase, Hcount. by rewrite (ti_count _ _ _ _ Hinv).
  - intros j [[-> <-]|(N & q & Hq & E)]%lookup_to_phase; [apply Hp|].
    assert (Hs : ts !! j = Some (connection.Sent true)) by (by destruct wake, q; simplify_eq/=).
    destruct (ti_sent _ _ _ _ Hinv j Hs) as (l & b & l' & -> & Hl). destruct Hbg as [k ->].
    exists l, b, (l' ++ k). split; [by rewrite <- app_assoc|]. by etrans.
  - done.
  - intros j [[-> <-]|(N & q & Hq & E)]%lookup_to_phase; [apply Hp|].
    apply (Hothers j N). by destruct wake, q; simplify_eq/=.
  - intros j q0 [[-> ->]|(N & q & Hq & ->)]%lookup_to_phase Hc.
    + by destruct p.
    + apply Hdead, (ti_closer _ _ _ _ Hinv j q Hq). by destruct wake, q.
  - intros j [[-> <-]|(N & q & Hq & E)]%lookup_to_phase; [done|].
    apply Hdead, (ti_removing _ _ _ _ Hinv j). by destruct wake, q; simplify_eq/=.
Qed.
End moves.

Lemma stays_insert c c' ts i p wake :
  stays c ts → is_closer (default connection.Removing (ts !! i)) = false →
  connection.dead_ c' = connection.dead_ c → connection.wpdu_ c' = connection.wpdu_ c →
  stays c' (to_phase i p wake ts).
Proof.
  intros [H|(j & q & Hj & Hq)] Hi Hd Hw; [left; by rewrite Hd, Hw|right].
  exists j, q. split; [|done]. apply lookup_to_phase. right. split; [intros ->; by rewrite Hj in Hi; cbn in Hi; rewrite Hq in Hi|].
  exists q. split; [done|]. by destruct wake, q.
Qed.

(** A thread that is not the sender moves, the buffers stay. *)
Lemma link_moved s c' i p wake :
  idle s ∨ writing s →
  connection.wpdu_ c' = connection.wpdu_ (conn s) →
  (connection.dead_ (conn s) = true → connection.dead_ c' = true) →
  (is_sender p = true → ∃ q, threads s !! i = Some q ∧ is_sender q = true) →
  let s' := mkSys c' (to_phase i p wake (threads s)) (wire s) (begun s) in idle s' ∨ writing s'.
Proof.
  intros Hl Hw Hd Hp s'.
  assert (Hts : ∀ j q, threads s' !! j = Some q → is_sender q = true →
    ∃ q0, threads s !! j = Some q0 ∧ is_sender q0 = true).
  { intros j q [[-> ->]|(N & q0 & Hq & ->)]%lookup_to_phase Hs; [by apply Hp|].
    exists q0. split; [done|]. by destruct wake, q0. }
  destruct Hl as [(E & Hpre & Hall & Hno)|(l & k & x & E & Hx & Hone & Hk)]; [left|right].
  - split; [cbn; by rewrite Hw|]. split; [done|]. split.
    + intros Hd'. cbn in Hd'. apply Hall. destruct (connection.dead_ (conn s)); [by rewrite Hd in Hd'|done].
    + intros j q Hj. destruct (is_sender q) eqn:Es; [|done].
      destruct (Hts j q Hj Es) as (q0 & Hq0 & Hs0). by rewrite (Hno _ _ Hq0) in Hs0.
  - exists l, k, x. split; [done|]. split; [done|]. split.
    + intros j q Hj Es. destruct (Hts j q Hj Es) as (q0 & Hq0 & Hs0). by eapply Hone.
    + cbn. rewrite Hw. destruct Hk as [Hk|(Hk & Hdd & Hpre)]; [by left|right; auto].
Qed.

Lemma prefix_take_stream l b k : stream l ++ take k (frame b) `prefix_of` stream l ++ frame b.
Proof. apply prefix_app. exists (drop k (frame b)). by rewrite take_drop. Qed.

Definition enters (s : sys) (i : nat) (b : bytes) : Prop :=
  threads s !! i = None ∨ ∃ wk, threads s !! i = Some (connection.Waiting b wk).

Definition entering (s : sys) (i : nat) : connection.t :=
  connection.add_waiter (1 - from_option is_waiter 0 (threads s !! i)) (conn s).

Lemma enters_facts s i b : enters s i b →
  is_closer (default connection.Removing (threads s !! i)) = false ∧
  ∀ q, threads s !! i = Some q → is_sender q = false.
Proof. intros [->|[? ->]]; split; intros; by simplify_eq. Qed.

Lemma turn_wait s i b :
  sinv s → 4 ≤ zlen b < 2 ^ 31 → enters s i b → is_Some (buf (connection.wpdu_ (conn s))) →
  sinv (mkSys (entering s i) (to_phase i (connection.Waiting b false) false (threads s)) (wire s ++ []) (begun s ++ [])).
Proof.
  intros [Hl Ht] Hb Hi Hbuf. rewrite !app_nil_r. destruct (enters_facts s i b Hi) as [Hcl Hns]. split.
  - by apply link_moved.
  - eapply moved; try done; cbn; [lia|auto| |].
    + apply (ti_watch _ _ _ _ Ht).
    + intros j N Hj. apply (stays_insert (conn s)); [by eapply ti_complete|done..].
Qed.

Lemma turn_dead s i b :
  sinv s → enters s i b → connection.dead_ (conn s) = true →
  sinv (mkSys (connection.add_waiter (-1) (entering s i)) (to_phase i (connection.Sent false) false (threads s))
          (wire s ++ []) (begun s ++ [])).
Proof.
  intros [Hl Ht] Hi Hd. rewrite !app_nil_r. destruct (enters_facts s i b Hi) as [Hcl Hns]. split.
  - by apply link_moved.
  - eapply moved; try done; cbn; [lia|auto| |].
    + apply (ti_watch _ _ _ _ Ht).
    + intros j N Hj. apply (stays_insert (conn s)); [by eapply ti_complete|done..].
Qed.

(** In its turn on an idle connection, a send writes; an answer of [EAGAIN] is
    like one of 0 bytes. *)
Definition amount (a : written) : option Z :=
  match a with Wrote n => Some n | WriteFails true => Some 0 | WriteFails false => None end.

Lemma send_turn_idle c b a (c1 := connection.add_waiter (-1) c) :
  connection.dead_ c = false → connection.wpdu_ c = charbuf_new → 4 ≤ zlen b → can_write (zlen b) a →
  connection.send_turn c b a = Done match amount a with
    | None => (connection.set_dead (connection.set_wpdu (mkBuf (Some (frame b)) 0 (-1)) c1), connection.Removing, false, [])
    | Some n =>
        if n =? zlen b
        then (connection.set_wpdu charbuf_new c1, connection.Sent true, 0 <? connection.waiters_ c1, frame b)
        else (connection.watch (connection.watch_r c) true (connection.set_wpdu (mkBuf (Some (frame b)) (zlen b) n) c1),
              connection.Completing false, false, take (Z.to_nat n) (frame b))
    end.
Proof.
  intros Hd Hw Hb Ha. unfold connection.send_turn. fold c1.
  assert (Hd1 : connection.dead_ c1 = false) by done.
  rewrite Hd, Hd1, Hw. cbn [negb andb buf charbuf_new]. rewrite bool_decide_false by (by intros [? ?]).
  cbv iota. rewrite writepdu_first by done. rewrite bind_Done.
  assert (Hgo : ∀ n, 0 ≤ n ≤ zlen b →
    (let '(ok, w, out) := (true, mkBuf (Some (frame b)) (zlen b) n, take (Z.to_nat n) (frame b)) in
      let c := connection.set_wpdu w c1 in
      if negb ok then Done (connection.set_dead c, connection.Removing, false, out)
      else if solong w =? sz w then Done (connection.send_finish c, out)
      else Done (connection.send_complete (connection.watch (connection.watch_r c) true c), out)) =
    Done (if n =? zlen b
      then (connection.set_wpdu charbuf_new c1, connection.Sent true, 0 <? connection.waiters_ c1, frame b)
      else (connection.watch (connection.watch_r c) true (connection.set_wpdu (mkBuf (Some (frame b)) (zlen b) n) c1),
              connection.Completing false, false, take (Z.to_nat n) (frame b)))).
  { intros n Hn. cbn [negb solong sz]. cbv zeta. pose proof (length_wire_frame b Hb). destruct (Z.eqb_spec n (zlen b)) as [E|N].
    - rewrite take_ge by lia. unfold connection.send_finish. cbn. rewrite Hd. by replace (n =? zlen b) with true by lia.
    - unfold connection.send_complete. cbn. rewrite Hd. cbn [negb andb].
      replace (0 <=? n) with true by lia. by replace (n <? zlen b) with true by lia. }
  destruct a as [n|[]]; cbn [after_write amount]; [|apply (Hgo 0); lia|done].
  rewrite (Z.add_0_l n). apply (Hgo n Ha).
Qed.

Lemma turn_go s i b a :
  sinv s → 4 ≤ zlen b < 2 ^ 31 → can_write (zlen b) a → enters s i b → takes_turn (conn s) = true →
  ∃ s', turned s i b (connection.send_turn (entering s i) b a) = Done s' ∧ sinv s'.
Proof.
  intros [Hl Ht] Hb Ha Hi Htk. destruct (enters_facts s i b Hi) as [Hcl Hns].
  assert (Hd : connection.dead_ (conn s) = false) by (unfold takes_turn in Htk; by destruct (connection.dead_ _)).
  assert (Hidle : idle s).
  { destruct Hl as [?|(l & k & x & _ & _ & _ & Hw)]; [done|]. exfalso. unfold takes_turn in Htk.
    rewrite Hd in Htk. destruct Hw as [(k' & Hw & _)|(Hw & _)]; by rewrite Hw in Htk. }
  destruct Hidle as (Hw0 & _ & Hwire & Hno). specialize (Hwire Hd).
  assert (Hone : ∀ p wake j q, to_phase i p wake (threads s) !! j = Some q → is_sender q = true → j = i).
  { intros p wake j q [[-> _]|(N & q0 & Hq & ->)]%lookup_to_phase Hs; [done|].
    assert (is_sender q0 = true) by (by destruct wake, q0). by rewrite (Hno _ _ Hq) in *. }
  assert (Hnoc : ∀ j, threads s !! j ≠ Some (connection.Completing false)) by (intros j Hj; by specialize (Hno _ _ Hj)).
  set (c1 := connection.add_waiter (-1) (entering s i)).
  assert (Hc1 : connection.waiters_ c1 = connection.waiters_ (conn s) - from_option is_waiter 0 (threads s !! i))
    by (cbn; lia).
  assert (Hc1' : 0 ≤ connection.waiters_ c1).
  { rewrite Hc1, (ti_count _ _ _ _ Ht). pose proof (msum_nonneg is_waiter (delete i (threads s)) is_waiter_nonneg).
    rewrite (msum_delete is_waiter (threads s) i). lia. }
  rewrite (send_turn_idle (entering s i) b a) by (done || lia). fold c1. unfold turned. rewrite bind_Done, Htk.
  destruct (amount a) as [n|] eqn:En.
  - assert (0 ≤ n ≤ zlen b) by (by destruct a as [|[]]; cbn in *; simplify_eq; lia).
    destruct (Z.eqb_spec n (zlen b)) as [E|N].
    + eexists. split; [done|]. split.
      * left. split; [done|]. cbn. rewrite stream_app, stream_one, Hwire. split; [done|]. split; [done|].
        intros j q Hj. destruct (is_sender q) eqn:Es; [|done]. pose proof (Hone _ _ _ _ Hj Es) as ->.
        by apply lookup_to_phase in Hj as [[_ ->]|[? _]].
      * assert (Hpre : stream (begun s ++ [(i, b)]) `prefix_of` wire s ++ frame b)
          by by rewrite stream_app, stream_one, Hwire.
        eapply moved; try done; cbn; [by apply prefix_app_r|by apply prefix_app_r|lia|lia| |].
        -- intros j _ Hj. by destruct (Hnoc j).
        -- by exists (begun s), b, [].
    + eexists. split; [done|]. split.
      * right. exists (begun s), i, b. split; [done|]. split; [done|]. split; [apply Hone|].
        left. exists n. split; [done|]. split; [done|]. cbn. by rewrite Hwire.
      * eapply moved; try done; cbn; [by apply prefix_app_r|by apply prefix_app_r|lia| | |].
        -- left. eauto.
        -- intros j _ Hj. by destruct (Hnoc j).
        -- left. cbn. rewrite Hd. split; [done|lia].
  - eexists. split; [done|]. rewrite app_nil_r. split.
    + right. exists (begun s), i, b. split; [done|]. split; [done|]. split; [apply Hone|].
      right. split; [done|]. split; [done|]. cbn. rewrite Hwire, stream_app. by apply prefix_app_r.
    + eapply moved; try done; cbn; [by apply prefix_app_r|lia| |].
      * left. eauto.
      * intros j _ Hj. by destruct (Hnoc j).
Qed.

Lemma turn_ok s i b a :
  sinv s → 4 ≤ zlen b < 2 ^ 31 → can_write (zlen b) a → enters s i b →
  ∃ s', turned s i b (connection.send_turn (entering s i) b a) = Done s' ∧ sinv s'.
Proof.
  intros Hs Hb Ha Hi. destruct (takes_turn (conn s)) eqn:Htk; [by apply turn_go|].
  unfold turned. rewrite Htk. unfold connection.send_turn.
  change (connection.dead_ (entering s i)) with (connection.dead_ (conn s)).
  change (connection.wpdu_ (entering s i)) with (connection.wpdu_ (conn s)).
  change (connection.dead_ (connection.add_waiter (-1) (entering s i))) with (connection.dead_ (conn s)).
  unfold takes_turn in Htk. destruct (connection.dead_ (conn s)) eqn:Hd; cbn [negb andb] in *.
  - eexists. split; [done|]. by apply (turn_dead s i b).
  - case_bool_decide as Hbuf; [|done]. eexists. split; [done|]. by apply turn_wait.
Qed.

(** The end of a send whose thread [i] is the sender. *)
Lemma finish_ok s c i p :
  sinv s → threads s !! i = Some p → is_sender p = true →
  connection.wpdu_ c = connection.wpdu_ (conn s) → connection.waiters_ c = connection.waiters_ (conn s) →
  connection.dead_ c = connection.dead_ (conn s) →
  (connection.dead_ c = false → ¬ (0 ≤ solong (connection.wpdu_ c) < sz (connection.wpdu_ c))) →
  let '(c', p', wake) := connection.send_finish c in
  sinv (mkSys c' (to_phase i p' wake (threads s)) (wire s) (begun s)).
Proof.
  intros [Hl Ht] Hi Hp Hw Hwait Hd Hend. unfold connection.send_finish.
  destruct Hl as [(_ & _ & _ & Hno)|(l & k & b & E & Hb & Hone & Hwp)]; [by rewrite (Hno _ _ Hi) in Hp|].
  pose proof (Hone _ _ Hi Hp) as <-. rewrite Hd, Hw in *.
  assert (Hwire : wire s `prefix_of` stream (begun s) ∧ (connection.dead_ (conn s) = false →
    solong (connection.wpdu_ (conn s)) = sz (connection.wpdu_ (conn s)) ∧ wire s = stream (begun s))).
  { rewrite E, stream_app, stream_one. pose proof (length_wire_frame b ltac:(lia)) as Hf.
    destruct Hwp as [(n & Hn & Hr & Hwi)|(Hn & Hdd & Hwi)].
    - rewrite Hwi. split; [apply prefix_take_stream|]. rewrite Hn in Hend |- *. cbn [solong sz] in *. intros Hd0.
      specialize (Hend Hd0). split; [lia|]. by rewrite take_ge by lia.
    - rewrite E, stream_app, stream_one in Hwi. split; [done|congruence]. }
  destruct Hwire as [Hpre Hall]. split.
  - left. split; [done|]. split; [done|]. split; [intros Hd'; cbn in Hd'; rewrite Hd in Hd'; by apply Hall|].
    intros j q [[-> ->]|(N & q0 & Hq & ->)]%lookup_to_phase; [done|].
    destruct (is_sender q0) eqn:Es; [by destruct N; eapply Hone|]. by destruct (_ <? _), q0.
  - assert (Hwt : is_waiter p = 0) by (by destruct p). eapply moved; try done; cbn.
    + by rewrite Hd.
    + rewrite Hi. cbn. lia.
    + destruct (Z.ltb_spec 0 (connection.waiters_ c)); [by right; left|]. right; right.
      pose proof (msum_nonneg is_waiter (threads s) is_waiter_nonneg). rewrite <- (ti_count _ _ _ _ Ht) in *. lia.
    + intros j N Hj. by destruct N; eapply Hone.
    + destruct (connection.dead_ (conn s)) eqn:Hdd; [done|]. destruct (Hall eq_refl) as [-> Hwi]. cbn [negb andb].
      rewrite Z.eqb_refl. exists l, b, []. split; [done|]. by rewrite Hwi, E.
Qed.

Lemma complete_ok s i :
  sinv s → threads s !! i = Some (connection.Completing true) →
  let '(c', p', wake) := connection.send_complete (conn s) in
  sinv (mkSys c' (to_phase i p' wake (threads s)) (wire s) (begun s)).
Proof.
  intros Hs Hi. unfold connection.send_complete.
  destruct (negb (connection.dead_ (conn s)) && (0 <=? solong (connection.wpdu_ (conn s))) &&
            (solong (connection.wpdu_ (conn s)) <? sz (connection.wpdu_ (conn s)))) eqn:Et.
  - apply andb_true_iff in Et as [[Hd H1]%andb_true_iff H2]. apply negb_true_iff in Hd.
    destruct Hs as [Hl Ht]. split.
    + apply link_moved; [done..|]. intros _. by eexists.
    + eapply moved; try done.
      * rewrite Hi. cbn. lia.
      * auto.
      * apply (ti_watch _ _ _ _ Ht).
      * intros j N Hj. left. cbn. split; [done|lia].
      * left. cbn. split; [done|lia].
  - apply (finish_ok s (conn s) i (connection.Completing true)); try done. intros Hd [H1 H2]. rewrite Hd in Et. cbn in Et.
    apply andb_false_iff in Et. lia.
Qed.

Lemma closer_stays c ts i p : ts !! i = Some p → is_closer p = true → stays c ts.
Proof. right. eauto. Qed.

Lemma removed_ok s i p r :
  sinv s → threads s !! i = Some p → connection.removed (conn s) p = Some r →
  let '(c', p', wake) := r in sinv (mkSys c' (to_phase i p' wake (threads s)) (wire s) (begun s)).
Proof.
  intros Hs Hi Hr. pose proof (si_threads s Hs) as Ht. destruct p; try done; injection Hr as <-.
  - pose proof (ti_removing _ _ _ _ Ht i Hi) as Hd. apply (finish_ok s _ i connection.Removing); try done. cbn. congruence.
  - pose proof (ti_closer _ _ _ _ Ht i _ Hi eq_refl) as Hd. split.
    + apply link_moved; try done. apply Hs.
    + eapply moved; try done; cbn; [rewrite Hi; cbn; lia|auto|congruence|].
      intros j _ _. apply (closer_stays _ _ i connection.Closed); [|done]. apply lookup_to_phase. auto.
Qed.

Lemma close_ok s i :
  sinv s → threads s !! i = None →
  let '(c', p') := connection.closeconn (conn s) in sinv (mkSys c' (<[i := p']> (threads s)) (wire s) (begun s)).
Proof.
  intros Hs Hi. pose proof (si_threads s Hs) as Ht. unfold connection.closeconn.
  assert (H : ∀ c' p', is_closer p' = true → is_waiter p' = 0 → is_sender p' = false → connection.dead_ c' = true →
    connection.wpdu_ c' = connection.wpdu_ (conn s) → connection.waiters_ c' = connection.waiters_ (conn s) →
    sinv (mkSys c' (to_phase i p' false (threads s)) (wire s) (begun s))).
  { intros c' p' Hc Hwt Hsd Hd Hw Hn. split.
    - apply link_moved; try done; [apply Hs|congruence].
    - eapply moved; try done; cbn; [rewrite Hi; cbn; lia|left; by rewrite Hw|congruence| |by destruct p'].
      intros j _ _. apply (closer_stays _ _ i p'); [|done]. apply lookup_to_phase. auto. }
  destruct (connection.dead_ (conn s)) eqn:Hd; by apply H.
Qed.

(** A callback: the threads stay where they are, a sender may be signalled. *)
Lemma lookup_signal (signal : bool) (ts : gmap nat connection.phase) i q :
  (if signal then wake_sender <$> ts else ts) !! i = Some q →
  ∃ q0, ts !! i = Some q0 ∧ q = (if signal then wake_sender q0 else q0).
Proof. destruct signal; [|naive_solver]. rewrite lookup_fmap. destruct (ts !! i); cbn; naive_solver. Qed.

Lemma called_back c c' ts w w' bg (signal : bool) :
  tinv c ts w bg → (connection.dead_ c = true → connection.dead_ c' = true) → w `prefix_of` w' →
  connection.waiters_ c' = connection.waiters_ c →
  (is_Some (buf (connection.wpdu_ c)) → is_Some (buf (connection.wpdu_ c'))) →
  (connection.dead_ c' = false → solong (connection.wpdu_ c') < sz (connection.wpdu_ c') → connection.watch_w c' = true) →
  (signal = false → ∀ i, ts !! i = Some (connection.Completing false) → stays c' ts) →
  tinv c' (if signal then wake_sender <$> ts else ts) w' bg.
Proof.
  intros Ht Hd Hw Hn Hb Hwt Hst. split.
  - intros i b wk (q & Hq & E)%lookup_signal. destruct signal, q; simplify_eq/=; by eapply ti_size.
  - intros i b (q & Hq & E)%lookup_signal. apply Hb, (ti_sleep _ _ _ _ Ht i b). by destruct signal, q; simplify_eq/=.
  - rewrite Hn, (ti_count _ _ _ _ Ht). destruct signal; [|done]. symmetry. apply msum_fmap, is_waiter_wake_sender.
  - intros i (q & Hq & E)%lookup_signal. assert (Hs : ts !! i = Some (connection.Sent true)) by (by destruct signal, q; simplify_eq/=).
    destruct (ti_sent _ _ _ _ Ht i Hs) as (l & b & l' & -> & Hl). exists l, b, l'. split; [done|]. by etrans.
  - done.
  - intros i (q & Hq & E)%lookup_signal. destruct signal; [by destruct q|]. subst q. by eapply Hst.
  - intros i q0 (q & Hq & ->)%lookup_signal Hc. apply Hd, (ti_closer _ _ _ _ Ht i q Hq). by destruct signal, q.
  - intros i (q & Hq & E)%lookup_signal. apply Hd, (ti_removing _ _ _ _ Ht i). by destruct signal, q; simplify_eq/=.
Qed.

Lemma sender_signal (signal : bool) (ts : gmap nat connection.phase) i q :
  (if signal then wake_sender <$> ts else ts) !! i = Some q →
  ∃ q0, ts !! i = Some q0 ∧ is_sender q0 = is_sender q.
Proof. intros (q0 & Hq & ->)%lookup_signal. exists q0. split; [done|]. by destruct signal, q0. Qed.

Lemma not_closed s j p :
  sinv s → connection.dead_ (conn s) = false → threads s !! j = Some p → is_closer p = false.
Proof.
  intros Hs Hd Hj. destruct (is_closer p) eqn:E; [|done]. by rewrite (ti_closer _ _ _ _ (si_threads s Hs) j p Hj E) in Hd.
Qed.

Lemma idle_signal s c' w bg (signal : bool) :
  idle s → connection.wpdu_ c' = connection.wpdu_ (conn s) →
  (connection.dead_ (conn s) = true → connection.dead_ c' = true) → w = wire s → bg = begun s →
  idle (mkSys c' (if signal then wake_sender <$> threads s else threads s) w bg).
Proof.
  intros (Hw & Hp & Ha & Hn) Hw' Hd -> ->. split; [cbn; by rewrite Hw'|]. split; [done|]. split.
  - intros Hd'. cbn in Hd'. apply Ha. destruct (connection.dead_ (conn s)); [by rewrite Hd in Hd'|done].
  - intros i q (q0 & Hq & <-)%sender_signal. by eapply Hn.
Qed.

Lemma writing_wire s c' w (signal : bool) l i b :
  begun s = l ++ [(i, b)] → 4 ≤ zlen b < 2 ^ 31 →
  (∀ j p, threads s !! j = Some p → is_sender p = true → j = i) →
  ((∃ k, connection.wpdu_ c' = mkBuf (Some (frame b)) (zlen b) k ∧ 0 ≤ k ≤ zlen b ∧
      w = stream l ++ take (Z.to_nat k) (frame b)) ∨
   (connection.wpdu_ c' = mkBuf (Some (frame b)) 0 (-1) ∧ connection.dead_ c' = true ∧ w `prefix_of` stream (begun s))) →
  writing (mkSys c' (if signal then wake_sender <$> threads s else threads s) w (begun s)).
Proof.
  intros E Hb Hone Hw. exists l, i, b. split; [done|]. split; [done|]. split; [|done].
  intros j q (q0 & Hq & Es)%sender_signal Hs. rewrite Hs in Es. by eapply Hone.
Qed.

Lemma write_cb_ok s a :
  sinv s → (let w := connection.wpdu_ (conn s) in can_write (sz w - solong w) a) →
  if connection.dead_ (conn s) then connection.write_cb (conn s) a = Throws
  else ∃ c' signal out, connection.write_cb (conn s) a = Done (c', signal, out) ∧
    sinv (mkSys c' (if (signal : bool) then wake_sender <$> threads s else threads s) (wire s ++ out) (begun s)).
Proof.
  intros Hs Ha. pose proof (si_threads s Hs) as Ht. unfold connection.write_cb.
  destruct (connection.dead_ (conn s)) eqn:Hd; [done|]. cbn [negb ensure]. rewrite bind_Done.
  destruct (si_link s Hs) as [Hidle|(l & i & b & E & Hb & Hone & [(k & Hw & Hk & Hwire)|(_ & Hdd & _)])]; [| |congruence].
  - pose proof Hidle as (Hw & _). rewrite Hw. cbn. eexists _, false, []. split; [done|]. rewrite app_nil_r. split.
    + left. by apply (idle_signal s _ (wire s) (begun s) false).
    + eapply (called_back (conn s) _ (threads s) (wire s) _ _ false); try done; cbn; [by rewrite Hw|].
      intros _ j Hj. right. destruct (ti_complete _ _ _ _ Ht j Hj) as [[_ Hc]|Hc]; [|done]. rewrite Hw in Hc. cbn in Hc. lia.
  - rewrite Hw. cbn [sz]. test_false. rewrite Hw in Ha. cbn [sz solong] in Ha.
    pose proof (length_wire_frame b ltac:(lia)) as Hf.
    assert (Hpost : ∀ n c' (signal : bool), connection.wpdu_ c' = mkBuf (Some (frame b)) (zlen b) (k + n) →
      0 ≤ n ≤ zlen b - k → connection.dead_ c' = false → connection.waiters_ c' = connection.waiters_ (conn s) →
      connection.watch_w c' = connection.watch_w (conn s) → (signal = false → k + n < zlen b) →
      sinv (mkSys c' (if signal then wake_sender <$> threads s else threads s)
              (wire s ++ take (Z.to_nat n) (drop (Z.to_nat k) (frame b))) (begun s))).
    { intros n c' signal Hc' Hn Hdc Hwc Hwa Hsg. split.
      - right. apply (writing_wire s c' _ signal l i b); [done..|]. left. exists (k + n). split; [done|]. split; [lia|].
        rewrite Hwire, <- app_assoc, take_take_drop. f_equal. f_equal. lia.
      - eapply called_back; try done; cbn; [congruence|by apply prefix_app_r|rewrite Hc'; eauto| |].
        + rewrite Hc', Hwa. cbn. intros _ Hlt. apply (ti_watch _ _ _ _ Ht Hd). rewrite Hw. cbn. lia.
        + intros Hsf j Hj. left. rewrite Hc', Hdc. cbn. specialize (Hsg Hsf). split; [done|lia]. }
    destruct (decide (k = zlen b)) as [->|Nk].
    + unfold connection.writepdu. cbn [solong sz]. replace (0 <=? zlen b) with true by lia. cbn [ensure].
      rewrite bind_Done. rewrite Z.eqb_refl. rewrite bind_Done. cbn [negb solong sz connection.wpdu_ connection.set_wpdu].
      replace (0 <=? zlen b) with true by lia. cbn [ensure]. rewrite bind_Done, Z.ltb_irrefl.
      eexists _, true, []. split; [done|]. specialize (Hpost 0). rewrite Z.add_0_r in Hpost. apply (Hpost _ true); done || lia.
    + rewrite writepdu_next by lia. rewrite bind_Done. destruct a as [n|[]]; cbn [after_write negb solong sz connection.wpdu_ connection.set_wpdu].
      * cbn in Ha. replace (0 <=? k + n) with true by lia. cbn [ensure]. rewrite bind_Done.
        case_test; (eexists _, _, _; split; [done|]); [apply (Hpost n _ false)|apply (Hpost n _ true)]; done || lia.
      * replace (0 <=? k) with true by lia. cbn [ensure]. rewrite bind_Done. test_true. eexists _, _, _. split; [done|].
        apply (Hpost 0 _ false); rewrite ?Z.add_0_r; done || lia.
      * eexists _, _, _. split; [done|]. rewrite app_nil_r. split.
        -- right. apply (writing_wire s _ _ true l i b); [done..|]. right. split; [done|]. split; [done|].
           rewrite Hwire, E, stream_app, stream_one. apply prefix_take_stream.
        -- by eapply (called_back _ _ _ _ _ _ true).
Qed.

Lemma read_cb_ok s a1 a2 consumed c' signal o :
  sinv s → connection.read_cb (conn s) a1 a2 consumed = Done (c', signal, o) →
  sinv (mkSys c' (if (signal : bool) then wake_sender <$> threads s else threads s) (wire s) (begun s)).
Proof.
  intros Hs. unfold connection.read_cb.
  assert (H : ∀ (c' : connection.t) (signal : bool), connection.wpdu_ c' = connection.wpdu_ (conn s) →
    connection.waiters_ c' = connection.waiters_ (conn s) →
    (connection.dead_ (conn s) = true → connection.dead_ c' = true) →
    (connection.dead_ c' = false → connection.watch_w c' = connection.watch_w (conn s)) →
    (signal = false → connection.dead_ c' = connection.dead_ (conn s)) →
    sinv (mkSys c' (if signal then wake_sender <$> threads s else threads s) (wire s) (begun s))).
  { intros c1 sg Hw Hn Hd Hwa Hsg. pose proof (si_threads s Hs) as Ht. split.
    - destruct (si_link s Hs) as [Hi|(l & i & b & E & Hb & Hone & Hk)].
      + left. by apply idle_signal.
      + right. apply (writing_wire s c1 _ sg l i b); [done..|]. rewrite Hw.
        destruct Hk as [Hk|(Hk & Hdd & Hp)]; [by left|right; auto].
    - eapply called_back; try done; cbn; [by rewrite Hw| |].
      + rewrite Hw. intros Hd1 Hlt. rewrite (Hwa Hd1). apply (ti_watch _ _ _ _ Ht); [|done].
        destruct (connection.dead_ (conn s)); [by rewrite Hd in Hd1|done].
      + intros Hsf j Hj. unfold stays. rewrite Hw, (Hsg Hsf). apply (ti_complete _ _ _ _ Ht j Hj). }
  destruct (connection.dead_ (conn s)) eqn:Hd; [intros [= <- <- _]; by apply (H _ false)|].
  intros ([succ r] & _ & Hr)%bind_Done_inv. injection Hr as Hr. unfold connection.read_done in Hr.
  destruct succ; (destruct (buf r); [destruct (sz r =? solong r)|]); try destruct consumed; injection Hr as <- <- _;
    (by apply (H _ false)) || by apply (H _ true).
Qed.

Lemma spurious_ok s i p :
  sinv s → threads s !! i = Some p →
  sinv (mkSys (conn s) (<[i := wake_sender (wake_waiter p)]> (threads s)) (wire s) (begun s)).
Proof.
  intros Hs Hi. pose proof (si_threads s Hs) as Ht.
  change (<[i := ?q]> (threads s)) with (to_phase i q false (threads s)). split.
  - apply link_moved; try done; [apply Hs|]. intros Hp. exists p. split; [done|]. by destruct p.
  - eapply moved; try done; cbn.
    + rewrite Hi. cbn. rewrite is_waiter_wake_sender, is_waiter_wake. lia.
    + auto.
    + apply (ti_watch _ _ _ _ Ht).
    + intros j N Hj. destruct (ti_complete _ _ _ _ Ht j Hj) as [H|(k & q & Hk & Hq)]; [by left|right].
      destruct (decide (k = i)) as [->|Nk].
      * exists i, (wake_sender (wake_waiter p)). split; [apply lookup_to_phase; auto|]. rewrite Hi in Hk. injection Hk as ->. by destruct q.
      * exists k, q. split; [apply lookup_to_phase; eauto|done].
    + destruct p as [b w|[]| | |[]|]; cbn; try done; try (by eapply ti_closer); try (by eapply ti_removing).
      * split; [by eapply ti_size|done].
      * by eapply ti_sent.
Qed.

Definition is_read (e : event) : bool := match e with EReadCb _ _ _ => true | _ => false end.
Definition is_write (e : event) : bool := match e with EWriteCb _ => true | _ => false end.

Lemma step_ok s e o :
  sinv s → event_ok s e → step s e = Some o →
  match o with
  | Done s' => sinv s'
  | Throws => connection.dead_ (conn s) = true ∧ is_write e = true ∨ is_read e = true
  | _ => is_read e = true
  end.
Proof.
  intros Hs He. destruct e as [i b a|i a|i|i|i|a|a1 a2 cons|i]; cbn [step is_read is_write]; cbn in He.
  - destruct (threads s !! i) eqn:Hi; [done|]. intros [= <-].
    destruct (turn_ok s i b a) as (s' & E & Hs'); [done|apply He..|by left|].
    unfold connection.send. unfold entering in E. rewrite Hi in E.
    change (1 - from_option is_waiter 0 None) with 1 in E. by rewrite E.
  - destruct (threads s !! i) as [[b [|]| | | | |]|] eqn:Hi; try done. intros [= <-].
    destruct (turn_ok s i b a) as (s' & E & Hs'); [done|by eapply ti_size, Hi; apply Hs|by eapply He|right; eauto|].
    unfold entering in E. rewrite Hi in E. change (1 - from_option is_waiter 0 _) with (1 - 1) in E.
    assert (Hc : connection.add_waiter (1 - 1) (conn s) = conn s).
    { destruct (conn s). unfold connection.add_waiter. cbn. by rewrite Z.add_0_r. }
    rewrite Hc in E. by rewrite E.
  - destruct (threads s !! i) as [[|[]| | | |]|] eqn:Hi; try done.
    pose proof (complete_ok s i Hs Hi) as H. destruct (connection.send_complete (conn s)) as [[c p] w]. by intros [= <-].
  - destruct (threads s !! i) as [p|] eqn:Hi; [|done]. cbn [mbind option_bind].
    destruct (connection.removed (conn s) p) as [[[c' p'] w]|] eqn:Er; [|done]. intros [= <-].
    by pose proof (removed_ok s i p _ Hs Hi Er).
  - destruct (threads s !! i) eqn:Hi; [done|]. pose proof (close_ok s i Hs Hi) as H.
    destruct (connection.closeconn (conn s)) as [c p]. by intros [= <-].
  - intros [= <-]. pose proof (write_cb_ok s a Hs He) as H. destruct (connection.dead_ (conn s)).
    + rewrite H. left. done.
    + destruct H as (c' & sg & out & E & H). by rewrite E.
  - intros [= <-]. destruct (connection.read_cb (conn s) a1 a2 cons) as [[[c' sg] o']| | |] eqn:Er; cbn; auto.
    by eapply read_cb_ok.
  - destruct (threads s !! i) as [p|] eqn:Hi; [|done]. cbn. intros [= <-]. by apply spurious_ok.
Qed.

Lemma no_threads i p : threads sys_make !! i ≠ Some p.
Proof. change (threads sys_make) with (∅ : gmap nat connection.phase). by rewrite lookup_empty. Qed.

Lemma sinv_make : sinv sys_make.
Proof.
  split.
  - left. split; [done|]. split; [done|]. split; [done|]. intros i p Hi. by apply no_threads in Hi.
  - split; try done; intros; by match goal with H : _ !! _ = Some _ |- _ => apply no_threads in H end.
Qed.

Lemma runs_sinv s s' : runs s s' → sinv s → sinv s'.
Proof. induction 1 as [|s e s1 s2 He Hs _ IH]; [done|]. intros Hi. apply IH. exact (step_ok s e _ Hi He Hs). Qed.
