(* ===== verification/ConnRead.v ===== *)
(** * Messages from one end of a connection to the other

    What reading makes of the bytes that were sent, and the properties of
    connections: messages arrive whole and in order, and senders are woken. *)

From S2P Require Import Prelude Connection ConnSend.
#[local] Arguments stream : simpl never.
#[local] Arguments frame : simpl never.
#[local] Arguments stays : simpl never.

(** ** Receiving

    What a socket with the bytes [inbox] gives: some of them, at most as many as
    asked for (which a negative [int] is not a bound for), or the end, or an
    error. *)
Inductive choice : Type := Gives (n : nat) (again : bool) | Ends (again : bool) | Breaks (again : bool).

Definition socket_read (len : Z) (inbox : bytes) (ch : choice) : option (got * bytes) :=
  match ch with
  | Gives n again =>
      if (0 <? Z.of_nat n) && (Z.of_nat n <=? zlen inbox) && ((Z.of_nat n <=? len) || (len <? 0))
      then Some (Got (take n inbox) again, drop n inbox) else None
  | Ends again => Some (Got [] again, inbox)
  | Breaks again => Some (ReadFails again, inbox)
  end.

Record rsys : Type := mkR { rconn : connection.t; inbox : bytes; taken : list bytes }.
Definition rmake (w : bytes) : rsys := mkR connection.make w [].

(** What a call leaves behind: the messages that [got_pdu] took are added. *)
Definition store (s : rsys) (ib : bytes) (consumed : bool) (r : outcome (connection.t * bool * option bytes)) : outcome rsys :=
  '(c, _, o) ← r; Done (mkR c ib (taken s ++ if consumed then from_option (λ x : bytes, [x]) [] o else [])).

(** One call of [read_cb]. *)
Definition rstep (s : rsys) (ch1 ch2 : choice) (consumed : bool) : option (outcome rsys) :=
  let r := connection.rpdu_ (rconn s) in
  let go a1 a2 rest := store s rest consumed (connection.read_cb (rconn s) a1 a2 consumed) in
  if connection.dead_ (rconn s) || (bool_decide (is_Some (buf r)) && (sz r <=? solong r))
  then Some (go (Got [] false) (Got [] false) (inbox s))
  else if sz r =? 0 then
    '(a1, rest) ← socket_read 4 (inbox s) ch1;
    match connection.readpdu_size r a1 with
    | Done (inr r) => '(a2, rest) ← socket_read (sz r - solong r) rest ch2; Some (go a1 a2 rest)
    | _ => Some (go a1 (Got [] false) rest)
    end
  else
    '(a2, rest) ← socket_read (sz r - solong r) (inbox s) ch2; Some (go (Got [] false) a2 rest).

Inductive rruns : rsys → rsys → Prop :=
  | rruns_refl s : rruns s s
  | rruns_step s ch1 ch2 consumed s' s'' :
      rstep s ch1 ch2 consumed = Some (Done s') → rruns s' s'' → rruns s s''.

Lemma htonl_range x : 0 ≤ htonl x < 2 ^ 32.
Proof. unfold htonl. pose proof (le_val_range (rev (i32_bytes x))) as H. rewrite length_rev, length_i32_bytes in H. exact H. Qed.

Lemma htonl_htonl x : 0 ≤ x < 2 ^ 32 → htonl (htonl x) = x.
Proof.
  intros Hx. unfold htonl at 1, i32_bytes at 1. unfold htonl.
  replace 4%nat with (length (rev (i32_bytes x))) by (by rewrite length_rev, length_i32_bytes).
  rewrite le_bytes_le_val, rev_involutive, le_val_i32. by apply wrap_small.
Qed.

(** The messages that arrive whole. *)
Definition fits (b : bytes) : Prop := 4 < zlen b ≤ MAX_PDU.

Lemma read_size_frame b again :
  fits b →
  connection.readpdu_size charbuf_new (Got (take 4 (frame b)) again) =
    Done (inr (mkBuf (Some (take 4 (frame b))) (zlen b) 4)).
Proof.
  intros [H1 H2]. assert (MAX_PDU < 2 ^ 31) by done. unfold connection.readpdu_size.
  assert (E : take 4 (frame b) = i32_bytes (htonl (zlen b))) by (unfold frame; by rewrite take_app_length' by len).
  rewrite E. rewrite length_i32_bytes. cbn [negb Z.eqb Z.of_nat Pos.of_succ_nat Pos.succ Pos.eqb].
  rewrite le_val_i32, (wrap_small 32 (htonl _)) by apply htonl_range. rewrite htonl_htonl by lia.
  rewrite sgn_small by lia. test_false. cbn. by test_false; test_false.
Qed.

Section receiving.
Context (l : list bytes) (w : bytes).
Hypothesis Hfit : Forall fits l.
Hypothesis Hw : w `prefix_of` concat (frame <$> l).

Definition between (s : rsys) (done rest : list bytes) : Prop :=
  connection.rpdu_ (rconn s) = charbuf_new ∧ w = concat (frame <$> done) ++ inbox s.
Definition within (s : rsys) (done rest : list bytes) : Prop :=
  ∃ b rest' k, rest = b :: rest' ∧ 4 ≤ k ≤ zlen b ∧
    connection.rpdu_ (rconn s) = mkBuf (Some (take (Z.to_nat k) (frame b))) (zlen b) k ∧
    w = concat (frame <$> done) ++ take (Z.to_nat k) (frame b) ++ inbox s.

Definition rinv (s : rsys) : Prop := ∃ done rest,
  l = done ++ rest ∧ taken s = frame <$> done ∧
  (connection.dead_ (rconn s) = true ∨ connection.dead_ (rconn s) = false ∧ (between s done rest ∨ within s done rest)).

Lemma inbox_rest done rest ib :
  l = done ++ rest → w = concat (frame <$> done) ++ ib → ib `prefix_of` concat (frame <$> rest).
Proof.
  intros -> E. rewrite E, fmap_app, concat_app in Hw. by apply prefix_app_inv in Hw.
Qed.

Lemma prefix_take_frame (ib x : bytes) b n :
  ib `prefix_of` frame b ++ x → (n ≤ length ib)%nat → (n ≤ length (frame b))%nat → take n ib = take n (frame b).
Proof. intros [z E] H1 H2. rewrite <- (take_app_le ib z n), <- E by done. by apply take_app_le. Qed.
Lemma read_rest_some x z k b again :
  1 ≤ zlen b → k + zlen b ≤ z + 4 →
  connection.readpdu_rest (mkBuf (Some x) z k) (Got b again) = Done (true, mkBuf (Some (x ++ b)) z (k + zlen b)).
Proof. intros H1 H2. destruct b; [cbn in H1; lia|]. cbn [connection.readpdu_rest buf sz solong]. by test_false. Qed.

(** The rest of the message [b] of which [k] bytes are there. *)
Lemma read_rest_ok done b rest' k ib ch a rest :
  l = done ++ b :: rest' → 4 ≤ k < zlen b → w = concat (frame <$> done) ++ take (Z.to_nat k) (frame b) ++ ib →
  socket_read (zlen b - k) ib ch = Some (a, rest) →
  ∃ succ r, connection.readpdu_rest (mkBuf (Some (take (Z.to_nat k) (frame b))) (zlen b) k) a = Done (succ, r) ∧
    (succ = false ∧ buf r = None ∨ ∃ k', succ = true ∧ 4 ≤ k' ≤ zlen b ∧ r = mkBuf (Some (take (Z.to_nat k') (frame b))) (zlen b) k' ∧
       w = concat (frame <$> done) ++ take (Z.to_nat k') (frame b) ++ rest).
Proof.
  intros El Hk Ew Hr. pose proof (length_wire_frame b ltac:(lia)) as Hf.
  assert (Hpre : ib `prefix_of` drop (Z.to_nat k) (frame b) ++ concat (frame <$> rest')).
  { pose proof (inbox_rest _ _ _ El Ew) as Hp. cbn in Hp.
    rewrite <- (take_drop (Z.to_nat k) (frame b)) in Hp at 2. rewrite <- app_assoc in Hp. by apply prefix_app_inv in Hp. }
  assert (Hstay : ∀ again : bool, ∃ succ r, Done (again, if again then mkBuf (Some (take (Z.to_nat k) (frame b))) (zlen b) k else charbuf_new) = Done (succ, r) ∧
    (succ = false ∧ buf r = None ∨ ∃ k', succ = true ∧ 4 ≤ k' ≤ zlen b ∧ r = mkBuf (Some (take (Z.to_nat k') (frame b))) (zlen b) k' ∧
       w = concat (frame <$> done) ++ take (Z.to_nat k') (frame b) ++ ib)).
  { intros again. eexists _, _. split; [done|]. destruct again; [right|by left]. exists k. split; [done|]. split; [lia|done]. }
  destruct ch as [n again|again|again]; cbn in Hr; [|injection Hr as <- <-; by apply Hstay..].
  destruct ((0 <? Z.of_nat n) && (Z.of_nat n <=? zlen ib) && ((Z.of_nat n <=? zlen b - k) || (zlen b - k <? 0))) eqn:E; [|done].
  injection Hr as <- <-. apply andb_true_iff in E as [[H1 H2]%andb_true_iff H3].
  assert (Hn : (1 ≤ n)%nat ∧ (n ≤ length ib)%nat ∧ Z.of_nat n ≤ zlen b - k) by lia. clear H1 H2 H3.
  assert (El2 : length (take n ib) = n) by (rewrite length_take; lia).
  assert (Et : take n ib = take n (drop (Z.to_nat k) (frame b))).
  { destruct Hpre as [z Ez]. rewrite <- (take_app_le ib z n), <- Ez by lia. apply take_app_le. rewrite length_drop. lia. }
  exists true, (mkBuf (Some (take (Z.to_nat k) (frame b) ++ take n ib)) (zlen b) (k + Z.of_nat n)). split.
  - rewrite read_rest_some by (rewrite El2; lia). by rewrite El2.
  - right. exists (k + Z.of_nat n). split; [done|]. split; [lia|].
    replace (Z.to_nat (k + Z.of_nat n)) with (Z.to_nat k + n)%nat by lia. rewrite <- take_take_drop, Et. split; [done|].
    rewrite Ew, <- (take_drop n ib) at 1. by rewrite Et, <- !app_assoc.
Qed.
Lemma done_ok s done b rest' k ib consumed :
  l = done ++ b :: rest' → taken s = frame <$> done → connection.dead_ (rconn s) = false → 4 ≤ k ≤ zlen b →
  w = concat (frame <$> done) ++ take (Z.to_nat k) (frame b) ++ ib →
  let '(c, _, o) := connection.read_done (rconn s) true (mkBuf (Some (take (Z.to_nat k) (frame b))) (zlen b) k) consumed in
  rinv (mkR c ib (taken s ++ if consumed then from_option (λ x : bytes, [x]) [] o else [])).
Proof.
  intros El Et Hd Hk Ew. pose proof (length_wire_frame b ltac:(lia)) as Hf. unfold connection.read_done. cbn [buf sz solong].
  assert (Hin : rinv (mkR (connection.set_rpdu (mkBuf (Some (take (Z.to_nat k) (frame b))) (zlen b) k) (rconn s)) ib (taken s))).
  { exists done, (b :: rest'). split; [done|]. split; [done|]. right. split; [done|]. right. by exists b, rest', k. }
  destruct (Z.eqb_spec (zlen b) k) as [E|N]; [|destruct consumed; by rewrite app_nil_r].
  destruct consumed; [|by rewrite app_nil_r]. rewrite <- E in *. rewrite take_ge in * by lia. cbn [from_option].
  exists (done ++ [b]), rest'. split; [by rewrite <- app_assoc|]. split; [by rewrite fmap_app, Et|].
  right. split; [done|]. left. split; [done|]. rewrite fmap_app, concat_app, <- app_assoc. cbn. by rewrite app_nil_r.
Qed.

Lemma fail_ok s done rest r ib consumed :
  l = done ++ rest → taken s = frame <$> done → buf r = None →
  let '(c, _, o) := connection.read_done (rconn s) false r consumed in
  rinv (mkR c ib (taken s ++ if consumed then from_option (λ x : bytes, [x]) [] o else [])).
Proof.
  intros El Et Hr. unfold connection.read_done. rewrite Hr. exists done, rest. split; [done|].
  split; [|by left]. destruct consumed; by rewrite app_nil_r.
Qed.

Lemma read_cb_reads c a1 a2 consumed succ r :
  connection.dead_ c = false →
  (buf (connection.rpdu_ c) = None ∨ solong (connection.rpdu_ c) < sz (connection.rpdu_ c)) →
  connection.readpdu (connection.rpdu_ c) a1 a2 = Done (succ, r) →
  connection.read_cb c a1 a2 consumed = Done (connection.read_done c succ r consumed).
Proof.
  intros Hd Hn Hr. unfold connection.read_cb. rewrite Hd, Hr.
  replace (negb (bool_decide (is_Some (buf (connection.rpdu_ c)))) || (solong (connection.rpdu_ c) <? sz (connection.rpdu_ c)))
    with true; [done|]. symmetry. apply orb_true_iff. destruct Hn as [Hn|Hn]; [left|right; lia].
  rewrite Hn. by rewrite bool_decide_false by (by intros [? ?]).
Qed.

Lemma rinv_done (x : connection.t * bool * option bytes) s ib (consumed : bool) :
  (let '(c, _, o) := x in rinv (mkR c ib (taken s ++ if consumed then from_option (λ x : bytes, [x]) [] o else []))) →
  ∃ s', store s ib consumed (Done x) = Done s' ∧ rinv s'.
Proof. destruct x as [[c sg] o]. intros H. eexists. split; [done|]. exact H. Qed.

(** Reading starts a message, or goes on with one. *)
Lemma rstep_between s done rest ch1 ch2 consumed o :
  l = done ++ rest → taken s = frame <$> done → connection.dead_ (rconn s) = false → between s done rest →
  rstep s ch1 ch2 consumed = Some o → (∃ s', o = Done s' ∧ rinv s') ∨ (o = Throws ∧ ch1 = Breaks true).
Proof.
  intros El Et Hd [Hr Ew]. unfold rstep. rewrite Hd, Hr. cbn [buf charbuf_new sz solong].
  rewrite bool_decide_false by (by intros [? ?]). cbn [orb andb Z.eqb]. cbv iota.
  assert (Hfail : ∀ a1 ib, connection.readpdu_size charbuf_new a1 = Done (inl ()) →
    ∃ s', store s ib consumed (connection.read_cb (rconn s) a1 (Got [] false) consumed) = Done s' ∧ rinv s').
  { intros a1 ib Ha. rewrite (read_cb_reads _ _ _ _ false charbuf_new); [|done|rewrite Hr; by left|].
    - apply rinv_done. by eapply fail_ok.
    - rewrite Hr. unfold connection.readpdu. cbn [sz charbuf_new Z.eqb]. by rewrite Ha. }
  destruct ch1 as [n again|again|[]]; cbn [socket_read mbind option_bind].
  2: { cbn [connection.readpdu_size negb zlen]. intros [= <-]. left. by apply Hfail. }
  2: { intros [= <-]. right. split; [|done]. unfold connection.read_cb, connection.readpdu. rewrite Hd, Hr. done. }
  2: { intros [= <-]. left. by apply Hfail. }
  destruct ((0 <? Z.of_nat n) && (Z.of_nat n <=? zlen (inbox s)) && ((Z.of_nat n <=? 4) || (4 <? 0))) eqn:E; [|done].
  apply andb_true_iff in E as [[H1 H2]%andb_true_iff H3].
  assert (Hl : length (take n (inbox s)) = n) by (rewrite length_take; lia).
  destruct (decide (n = 4%nat)) as [->|N].
  2: { assert (Ha : connection.readpdu_size charbuf_new (Got (take n (inbox s)) again) = Done (inl ())).
       { cbn [connection.readpdu_size]. rewrite Hl. by replace (Z.of_nat n =? 4) with false by lia. }
       cbn [mbind option_bind]. rewrite Ha. intros [= <-]. left. by apply Hfail. }
  pose proof (inbox_rest _ _ _ El Ew) as Hp. destruct rest as [|b rest'].
  { apply prefix_nil_inv in Hp. by rewrite Hp in Hl. }
  assert (Hb : fits b) by (apply (proj1 (Forall_forall fits l) Hfit); rewrite El; set_solver).
  pose proof Hb as [Hb4 _]. pose proof (length_wire_frame b ltac:(lia)) as Hf. cbn in Hp.
  assert (E4 : take 4 (inbox s) = take 4 (frame b)) by (eapply prefix_take_frame; [exact Hp|rewrite length_take in Hl; lia|lia]).
  assert (Hsz : connection.readpdu_size charbuf_new (Got (take 4 (inbox s)) again) =
    Done (inr (mkBuf (Some (take (Z.to_nat 4) (frame b))) (zlen b) 4))) by (rewrite E4; by apply read_size_frame).
  cbn [mbind option_bind]. rewrite Hsz. cbn [sz solong].
  destruct (socket_read (zlen b - 4) (drop 4 (inbox s)) ch2) as [[a2 rest]|] eqn:Er; [|done]. intros [= <-]. left.
  assert (Ew4 : w = concat (frame <$> done) ++ take (Z.to_nat 4) (frame b) ++ drop 4 (inbox s)).
  { change (Z.to_nat 4) with 4%nat. rewrite <- E4. by rewrite take_drop. }
  destruct (read_rest_ok done b rest' 4 _ ch2 a2 rest El ltac:(lia) Ew4 Er) as (succ & r & Hrr & Hpost).
  rewrite (read_cb_reads _ _ _ _ succ r); [|done|rewrite Hr; by left|].
  - apply rinv_done. destruct Hpost as [[-> Hn]|(k' & -> & Hk' & -> & Ew')]; [by eapply fail_ok|by eapply done_ok].
  - rewrite Hr. unfold connection.readpdu. change (sz charbuf_new =? 0) with true. cbv iota. by rewrite Hsz.
Qed.

Lemma rstep_within s done rest ch1 ch2 consumed o :
  l = done ++ rest → taken s = frame <$> done → connection.dead_ (rconn s) = false → within s done rest →
  rstep s ch1 ch2 consumed = Some o → ∃ s', o = Done s' ∧ rinv s'.
Proof.
  intros El Et Hd (b & rest' & k & -> & Hk & Hr & Ew). unfold rstep. rewrite Hd, Hr. cbn [buf sz solong orb].
  rewrite bool_decide_true by eauto. cbn [andb]. destruct (Z.leb_spec (zlen b) k) as [Hge|Hlt].
  - assert (k = zlen b) as -> by lia. intros [= <-].
    assert (E : connection.read_cb (rconn s) (Got [] false) (Got [] false) consumed =
      Done (connection.read_done (rconn s) true (connection.rpdu_ (rconn s)) consumed)).
    { unfold connection.read_cb. rewrite Hd, Hr. cbn [buf solong sz]. rewrite bool_decide_true by eauto. by rewrite Z.ltb_irrefl. }
    rewrite E, Hr. apply rinv_done. by eapply done_ok.
  - replace (zlen b =? 0) with false by lia.
    destruct (socket_read (zlen b - k) (inbox s) ch2) as [[a2 rest]|] eqn:Er; [|done]. intros [= <-].
    destruct (read_rest_ok done b rest' k _ ch2 a2 rest El ltac:(lia) Ew Er) as (succ & r & Hrr & Hpost).
    rewrite (read_cb_reads _ _ _ _ succ r); [|done|rewrite Hr; by right|].
    + apply rinv_done. destruct Hpost as [[-> Hn]|(k' & -> & Hk' & -> & Ew')]; [by eapply fail_ok|by eapply done_ok].
    + rewrite Hr. unfold connection.readpdu. cbn [sz]. by replace (zlen b =? 0) with false by lia.
Qed.

(** A call of [read_cb]. *)
Lemma rstep_ok s ch1 ch2 consumed o :
  rinv s → rstep s ch1 ch2 consumed = Some o →
  (∃ s', o = Done s' ∧ rinv s') ∨ (o = Throws ∧ ch1 = Breaks true).
Proof.
  intros (done & rest & El & Et & Hs) Hstep. destruct (connection.dead_ (rconn s)) eqn:Hd.
  - revert Hstep. unfold rstep, connection.read_cb. rewrite Hd. cbn [orb]. intros [= <-]. left. eexists. split; [done|].
    exists done, rest. split; [done|]. split; [|by left]. destruct consumed; by rewrite app_nil_r.
  - destruct Hs as [|[_ [Hb|Hi]]]; [done|by eapply rstep_between|left; by eapply rstep_within].
Qed.

Lemma rinv_make : rinv (rmake w).
Proof. exists [], l. split; [done|]. split; [done|]. right. split; [done|]. by left. Qed.

Lemma rruns_rinv s s' : rruns s s' → rinv s → rinv s'.
Proof.
  induction 1 as [|s ch1 ch2 consumed s1 s2 Hs _ IH]; [done|]. intros Hi. apply IH.
  destruct (rstep_ok s ch1 ch2 consumed _ Hi Hs) as [(s' & E & H)|[E _]]; [by injection E as ->|done].
Qed.
End receiving.

(** ** From one end to the other *)

Lemma wire_prefix s : sinv s → wire s `prefix_of` stream (begun s).
Proof.
  intros [[(_ & H & _)|(l & i & b & E & Hb & _ & Hw)] _]; [done|].
  destruct Hw as [(k & _ & _ & ->)|(_ & _ & H)]; [|done]. rewrite E, stream_app, stream_one. apply prefix_take_stream.
Qed.

Lemma prefix_length_le (x y : bytes) : x `prefix_of` y → zlen x ≤ zlen y.
Proof. intros H%prefix_length. lia. Qed.

(** A message whose frame is all on the wire [w] is taken or complete when all
    of [w] was read. *)
Lemma all_read l w r l1 b l2 :
  Forall fits l → rinv l w r → inbox r = [] → connection.dead_ (rconn r) = false →
  l = l1 ++ b :: l2 → concat (frame <$> (l1 ++ [b])) `prefix_of` w →
  frame b ∈ taken r ∨ buf (connection.rpdu_ (rconn r)) = Some (frame b).
Proof.
  intros Hfit (done & rest & El & Et & Hs) Hi Hd El1 Hp. destruct Hs as [|[_ Hs]]; [congruence|].
  assert (Hb : zlen (frame b) = zlen b ∧ 4 < zlen b).
  { assert (fits b) as [H _] by (apply (proj1 (Forall_forall fits l) Hfit); rewrite El1; set_solver).
    split; [apply length_wire_frame; lia|done]. }
  rewrite El1 in El. apply prefix_length_le in Hp as Hpl.
  assert (Hrest : ∀ k, l1 = done ++ k → rest = k ++ b :: l2 →
    frame b ∈ taken r ∨ buf (connection.rpdu_ (rconn r)) = Some (frame b)).
  { intros k -> Er. rewrite <- app_assoc, !fmap_app, !concat_app, !length_app in Hpl. cbn in Hpl. rewrite !length_app in Hpl. cbn in Hpl.
    destruct Hs as [[_ Ew]|(b' & rest' & n & Er' & Hn & Hr & Ew)].
    - rewrite Hi, app_nil_r in Ew. rewrite Ew in Hpl. lia.
    - rewrite Hi, app_nil_r in Ew. rewrite Ew, length_app, length_take in Hpl. rewrite Er in Er'.
      destruct k as [|x k]; cbn in Er'; injection Er' as -> Er'; [|cbn in Hpl; rewrite length_app in Hpl; lia].
      right. rewrite Hr. cbn. cbn in Hpl. by rewrite take_ge by lia. }
  apply app_eq_inv in El as [(k & E1 & E2)|(k & E1 & E2)]; [by eapply Hrest|].
  destruct k as [|x k]; cbn in E2.
  - apply (Hrest []); [by rewrite app_nil_r in *|done].
  - injection E2 as <- _. left. rewrite Et, E1. apply list_elem_of_fmap. exists b. split; [done|]. set_solver.
Qed.

(** C24: Messages cross a connection in order and whole.  Any number of threads
    send on one end, whose socket takes the bytes in any portions; the other end
    reads any portions of what is on the wire so far.  What it hands on is an
    initial part of the messages in the order their sends had their turn, each
    with its length written over its first four bytes, also when either end
    fails or is closed; and when it has read all of the wire and not failed, it
    has every message whose send returned true, the last perhaps not taken yet. *)
Theorem connection_transports s w r :
  runs sys_make s → Forall fits (begun s).*2 → w `prefix_of` wire s → rruns (rmake w) r →
  taken r `prefix_of` frames (begun s) ∧
  (w = wire s → inbox r = [] → connection.dead_ (rconn r) = false →
   ∀ i, threads s !! i = Some (connection.Sent true) →
   ∃ b, (i, b) ∈ begun s ∧ (frame b ∈ taken r ∨ buf (connection.rpdu_ (rconn r)) = Some (frame b))).
Proof.
  intros Hs Hfit Hw Hr. pose proof (runs_sinv _ _ Hs sinv_make) as Hi.
  assert (Hpre : w `prefix_of` concat (frame <$> (begun s).*2)) by (etrans; [exact Hw|by apply wire_prefix]).
  pose proof (rruns_rinv _ _ Hfit Hpre _ _ Hr (rinv_make _ _)) as Hri. split.
  - destruct Hri as (done & rest & El & -> & _). unfold frames. rewrite El, fmap_app. by apply prefix_app_r.
  - intros -> Hin Hd i Hsent. destruct (ti_sent _ _ _ _ (si_threads s Hi) i Hsent) as (l & b & l' & E & Hp).
    exists b. split; [rewrite E; set_solver|].
    apply (all_read _ _ _ l.*2 b l'.*2 Hfit Hri Hin Hd); [by rewrite E, fmap_app|].
    unfold stream, frames in Hp. by rewrite fmap_app in Hp.
Qed.

(** Two threads send, the first in two portions, and the other end reads in four. *)
Definition demo_first : bytes := bs "0123first".
Definition demo_second : bytes := bs "0123second".
Definition demo_sys : sys :=
  mkSys (connection.mk false charbuf_new charbuf_new 0 1 true true)
    (<[1%nat := connection.Sent true]> (<[0%nat := connection.Sent true]>
      {[ 0%nat := connection.Completing true; 1%nat := connection.Waiting demo_second true ]}))
    (stream [(0%nat, demo_first); (1%nat, demo_second)]) [(0%nat, demo_first); (1%nat, demo_second)].

Lemma demo_runs : runs sys_make demo_sys.
Proof.
  eapply (runs_step _ (ESend 0 demo_first (Wrote 3))); [vm_compute; done|vm_compute; reflexivity|].
  eapply (runs_step _ (ESend 1 demo_second (Wrote 0))); [vm_compute; done|vm_compute; reflexivity|].
  eapply (runs_step _ (EWriteCb (Wrote 6))); [vm_compute; done|vm_compute; reflexivity|].
  eapply (runs_step _ (EComplete 0)); [vm_compute; done|vm_compute; reflexivity|].
  eapply (runs_step _ (ETurn 1 (Wrote 10))); [|vm_compute; reflexivity|].
  { intros b w [= <- <-]. vm_compute. done. }
  match goal with |- runs ?s demo_sys => assert (s = demo_sys) as -> by (vm_compute; reflexivity) end. constructor.
Qed.

Definition demo_read : rsys :=
  mkR connection.make [] [frame demo_first; frame demo_second].

Lemma demo_rruns : rruns (rmake (wire demo_sys)) demo_read.
Proof.
  eapply (rruns_step _ (Gives 4 false) (Gives 2 false) true); [vm_compute; reflexivity|].
  eapply (rruns_step _ (Ends false) (Gives 3 false) false); [vm_compute; reflexivity|].
  eapply (rruns_step _ (Ends false) (Ends false) true); [vm_compute; reflexivity|].
  eapply (rruns_step _ (Gives 4 false) (Gives 6 false) true); [vm_compute; reflexivity|].
  match goal with |- rruns ?s demo_read => assert (s = demo_read) as -> by (vm_compute; reflexivity) end. constructor.
Qed.

Lemma connection_transports_witness :
  taken demo_read `prefix_of` frames (begun demo_sys) ∧
  (wire demo_sys = wire demo_sys → inbox demo_read = [] → connection.dead_ (rconn demo_read) = false →
   ∀ i, threads demo_sys !! i = Some (connection.Sent true) →
   ∃ b, (i, b) ∈ begun demo_sys ∧
     (frame b ∈ taken demo_read ∨ buf (connection.rpdu_ (rconn demo_read)) = Some (frame b))).
Proof.
  apply (connection_transports demo_sys (wire demo_sys) demo_read).
  - exact demo_runs.
  - repeat constructor; vm_compute; discriminate.
  - reflexivity.
  - exact demo_rruns.
Defined.

Lemma one_sender s i j p q :
  sinv s → threads s !! i = Some p → threads s !! j = Some q → is_sender p = true → is_sender q = true → i = j.
Proof.
  intros Hi Hp Hq Sp Sq. destruct (si_link s Hi) as [(_ & _ & _ & Hn)|(l & k & b & _ & _ & Hone & _)].
  - by rewrite (Hn _ _ Hp) in Sp.
  - by rewrite (Hone _ _ Hp Sp), (Hone _ _ Hq Sq).
Qed.

Lemma to_phase_other ts i j p q : ts !! i = Some p → j ≠ i → to_phase j q false ts !! i = Some p.
Proof. intros Hi N. unfold to_phase. by rewrite lookup_insert_ne. Qed.

(** A turn on a dead connection. *)
Lemma turned_dead s i b a c :
  connection.dead_ c = true →
  turned s i b (connection.send_turn c b a) =
    Done (mkSys (connection.add_waiter (-1) c) (to_phase i (connection.Sent false) false (threads s)) (wire s ++ [])
            (begun s ++ if takes_turn (conn s) then [(i, b)] else [])).
Proof. intros Hd. unfold turned, connection.send_turn. rewrite Hd. cbn [negb andb]. cbn. by rewrite Hd. Qed.

(** A sleeping sender of a dead connection stays. *)
Lemma stranded s i e s' :
  sinv s → threads s !! i = Some (connection.Completing false) → connection.dead_ (conn s) = true →
  e ≠ ESpurious i → step s e = Some (Done s') →
  threads s' !! i = Some (connection.Completing false) ∧ connection.dead_ (conn s') = true.
Proof.
  intros Hi Hc Hd Hne. destruct e as [j b a|j a|j|j|j|a|a1 a2 cons|j]; cbn [step].
  - destruct (threads s !! j) eqn:Hj; [done|]. unfold connection.send. rewrite turned_dead by done. intros [= <-].
    split; [|done]. apply to_phase_other; [done|congruence].
  - destruct (threads s !! j) as [[b [|]| | | | |]|] eqn:Hj; try done. rewrite turned_dead by done. intros [= <-].
    split; [|done]. apply to_phase_other; [done|congruence].
  - destruct (threads s !! j) as [[|[]| | | |]|] eqn:Hj; try done. by rewrite (one_sender s i j _ _ Hi Hc Hj) in Hc; simplify_eq.
  - destruct (threads s !! j) as [p|] eqn:Hj; [|done]. cbn [mbind option_bind]. destruct p; try done.
    + by rewrite (one_sender s i j _ _ Hi Hc Hj) in Hc; simplify_eq.
    + cbn. intros [= <-]. split; [|done]. apply to_phase_other; [done|congruence].
  - destruct (threads s !! j) eqn:Hj; [done|]. unfold connection.closeconn. rewrite Hd. intros [= <-].
    split; [|done]. cbn. rewrite lookup_insert_ne by congruence. done.
  - unfold connection.write_cb. by rewrite Hd.
  - unfold connection.read_cb. rewrite Hd. by intros [= <-].
  - destruct (threads s !! j) as [p|] eqn:Hj; [|done]. cbn. intros [= <-]. split; [|done]. cbn.
    rewrite lookup_insert_ne by congruence. done.
Qed.

(** C39: Nobody who sends waits in vain, unless the connection is closed by
    [closeconn].  In every state of the threads of a connection: no step of
    theirs is undefined, and only a write callback on a dead connection, or a
    read, can stop the program; a thread that waits for its turn while not woken
    waits for another message that is being sent; a sender that waits while not
    woken has bytes to send, the connection is alive and the poll manager
    watches it for writing; there is one sender at most.  But [closeconn] wakes
    nobody: a sender that waits on a dead connection goes on waiting, whatever
    is done, until it wakes up by itself. *)
Theorem senders_are_woken s :
  runs sys_make s →
  (∀ e o, event_ok s e → step s e = Some o → is_read e = false →
    (∃ s', o = Done s') ∨ (o = Throws ∧ is_write e = true ∧ connection.dead_ (conn s) = true)) ∧
  (∀ i b, threads s !! i = Some (connection.Waiting b false) → is_Some (buf (connection.wpdu_ (conn s)))) ∧
  (∀ i, threads s !! i = Some (connection.Completing false) →
    (∀ j p, threads s !! j = Some p → is_closer p = false) →
    let w := connection.wpdu_ (conn s) in
    connection.dead_ (conn s) = false ∧ solong w < sz w ∧ connection.watch_w (conn s) = true) ∧
  (∀ i j p q, threads s !! i = Some p → threads s !! j = Some q → is_sender p = true → is_sender q = true → i = j) ∧
  (∀ i e s', threads s !! i = Some (connection.Completing false) → connection.dead_ (conn s) = true →
    e ≠ ESpurious i → step s e = Some (Done s') →
    threads s' !! i = Some (connection.Completing false) ∧ connection.dead_ (conn s') = true).
Proof.
  intros Hs. pose proof (runs_sinv _ _ Hs sinv_make) as Hi. pose proof (si_threads s Hi) as Ht.
  split; [|split; [|split; [|split]]].
  - intros e o He Hst Hr. pose proof (step_ok s e o Hi He Hst) as H. rewrite Hr in H.
    destruct o; [left; eauto|right; naive_solver|done|done].
  - intros i b. apply (ti_sleep _ _ _ _ Ht).
  - intros i Hc Hno. destruct (ti_complete _ _ _ _ Ht i Hc) as [[Hd Hlt]|(j & p & Hj & Hp)]; [|by rewrite (Hno j p Hj) in Hp].
    split; [done|]. split; [lia|]. apply (ti_watch _ _ _ _ Ht); [done|lia].
  - intros i j p q. by apply one_sender.
  - intros i e s' Hc Hd Hne. by apply stranded.
Qed.

(** A sender that waits when another thread closes the connection. *)
Definition stranded_sys : sys :=
  mkSys (connection.mk true (mkBuf (Some (frame demo_first)) 9 3) charbuf_new 0 1 true true)
    (<[1%nat := connection.Closing]> {[ 0%nat := connection.Completing false ]})
    (take 3 (frame demo_first)) [(0%nat, demo_first)].

Lemma stranded_runs : runs sys_make stranded_sys.
Proof.
  eapply (runs_step _ (ESend 0 demo_first (Wrote 3))); [vm_compute; done|vm_compute; reflexivity|].
  eapply (runs_step _ (EClose 1)); [done|vm_compute; reflexivity|].
  match goal with |- runs ?s stranded_sys => assert (s = stranded_sys) as -> by (vm_compute; reflexivity) end. constructor.
Qed.

Lemma senders_are_woken_witness :
  threads stranded_sys !! 0%nat = Some (connection.Completing false) ∧
  ∀ e s', e ≠ ESpurious 0 → step stranded_sys e = Some (Done s') →
    threads s' !! 0%nat = Some (connection.Completing false) ∧ connection.dead_ (conn s') = true.
Proof.
  split; [reflexivity|]. intros e s' He Hs.
  destruct (senders_are_woken stranded_sys stranded_runs) as (_ & _ & _ & _ & H).
  apply (H 0%nat e s'); [reflexivity|reflexivity|exact He|exact Hs].
Defined.
