(* ===== verification/ConnTable.v ===== *)
(** * Who holds a connection (src/rpc/connection.cc, src/rpc/rpc.cc)

    Connections are counted by hand: the listener of a server ([tcpsconn]) holds
    those it accepted, the server ([rpcs]) the latest one of every client, each job
    of [dispatch] the one its request came on; a client ([rpcc]) holds its channel,
    and each of its calls the one it last sent on.  A heap of connections, with
    every use of a pointer checked, models all of them; what is sent on a
    connection is in Connection.v. *)

From S2P Require Import Prelude.

(** ** Connections as objects *)

(** [create_time_] is seconds and microseconds. *)
Record conn : Type := mkConn { fd_ : Z; create_time_ : Z * Z; dead_ : bool; refno_ : Z }.

Abbreviation heap := (gmap Z conn).

Definition set_refno (c : conn) (n : Z) : conn := mkConn (fd_ c) (create_time_ c) (dead_ c) n.
Definition set_dead (c : conn) : conn := mkConn (fd_ c) (create_time_ c) true (refno_ c).

Definition deref (h : heap) (c : Z) : outcome conn := match h !! c with Some x => Done x | None => Undef end.

Definition incref (h : heap) (c : Z) : outcome heap :=
  x ← deref h c; Done (<[c := set_refno x (refno_ x + 1)]> h).

(** [delete this] when the last owner of a dead connection leaves. *)
Definition decref (h : heap) (c : Z) : outcome heap :=
  x ← deref h c;
  _ ← ensure (0 <=? refno_ x - 1);
  if (refno_ x - 1 =? 0) && dead_ x then Done (delete c h) else Done (<[c := set_refno x (refno_ x - 1)]> h).

Definition isdead (h : heap) (c : Z) : outcome bool := x ← deref h c; Done (dead_ x).
Definition ref (h : heap) (c : Z) : outcome Z := x ← deref h c; Done (refno_ x).

Definition compare_times (a b : Z * Z) : Z :=
  if b.1 <? a.1 then 1 else if a.1 <? b.1 then -1 else if b.2 <? a.2 then 1 else if a.2 <? b.2 then -1 else 0.

Definition compare (h : heap) (c another : Z) : outcome Z :=
  x ← deref h c; y ← deref h another; Done (compare_times (create_time_ x) (create_time_ y)).

(** [closeconn]; a connection also dies when reading or writing it fails. *)
Definition closeconn (h : heap) (c : Z) : outcome heap := x ← deref h c; Done (<[c := set_dead x]> h).

(** ** The server *)

Module srv.

(** A job of [dispatch]: one that waits in the pool, one whose handler runs, with
    the number of its client, and one that sends its answer. *)
Inductive job : Type := Queued (c : Z) | Running (c clt : Z) | Sending (c : Z).

Definition job_conn (j : job) : Z := match j with Queued c | Running c _ | Sending c => c end.

(** [conns_] of [tcpsconn] by descriptor, [conns_] of [rpcs] by client; the
    connections whose count nobody will take back; who has spoken on connections
    of which times. *)
Record t : Type := mk {
  objs : heap; next : Z; listener : gmap Z Z; conns_ : gmap Z Z; jobs : gmap Z job;
  leaked : list Z; spoke : list (Z * (Z * Z)) }.

Definition make : t := mk ∅ 0 ∅ ∅ ∅ [] [].

Definition with_objs (h : heap) (s : t) : t := mk h (next s) (listener s) (conns_ s) (jobs s) (leaked s) (spoke s).
Definition with_conns (m : gmap Z Z) (s : t) : t := mk (objs s) (next s) (listener s) m (jobs s) (leaked s) (spoke s).
Definition with_jobs (m : gmap Z job) (s : t) : t := mk (objs s) (next s) (listener s) (conns_ s) m (leaked s) (spoke s).

(** [process_accept] of a descriptor: the entries that are dead and held by the
    table alone are dropped, in any order since each is by itself. *)
Definition gc_entry (p : Z * Z) (hl : heap * gmap Z Z) : outcome (heap * gmap Z Z) :=
  let '(h, l) := hl in
  d ← isdead h p.2;
  r ← ref h p.2;
  if d && (r =? 1) then h ← decref h p.2; Done (h, delete p.1 l) else Done (h, l).

Fixpoint gc (ps : list (Z * Z)) (hl : heap * gmap Z Z) : outcome (heap * gmap Z Z) :=
  match ps with [] => Done hl | p :: ps => hl ← gc_entry p hl; gc ps hl end.

Definition process_accept (fd : Z) (now : Z * Z) (s : t) : outcome t :=
  let ch := next s in
  let h := <[ch := mkConn fd now false 1]> (objs s) in
  '(h, l) ← gc (map_to_list (listener s)) (h, listener s);
  Done (mk h (ch + 1) (<[fd := ch]> l) (conns_ s) (jobs s) (leaked s) (spoke s)).

(** A turn of [accept_conn]: what [select] says. *)
Inductive selected : Type := Interrupted | Failed | Pipe | Listening (fd : Z) (now : Z * Z) | Neither | Accept_failed.

Definition accept_conn (e : selected) (s : t) : outcome (bool * t) :=
  match e with
  | Interrupted => Done (true, s)
  | Failed | Neither => Throws
  | Pipe | Accept_failed => Done (false, s)
  | Listening fd now => s ← process_accept fd now s; Done (true, s)
  end.

(** [~tcpsconn], after its thread has ended. *)
Fixpoint close_all (cs : list Z) (h : heap) : outcome heap :=
  match cs with [] => Done h | c :: cs => h ← closeconn h c; h ← decref h c; close_all cs h end.

Definition stop (s : t) : outcome t :=
  h ← close_all (map_to_list (listener s)).*2 (objs s);
  Done (mk h (next s) ∅ (conns_ s) (jobs s) (leaked s) (spoke s)).

Definition set_job (j : Z) (x : job) (s : t) : t := with_jobs (<[j := x]> (jobs s)) s.

(** [got_pdu]: [succ] when the pool takes the job. *)
Definition got_pdu (j c : Z) (succ : bool) (s : t) : outcome t :=
  h ← incref (objs s) c;
  if succ then Done (set_job j (Queued c) (with_objs h s))
  else h ← decref h c; Done (with_objs h s).

(** What the first part of [dispatch] finds in a message. *)
Inductive found : Type := Bad_header | Old_server | Unknown_proc | Handled (clt : Z) (is_new : bool).

(** The latest connection of a client. *)
Definition save_conn (clt c : Z) (s : t) : outcome t :=
  match conns_ s !! clt with
  | None => h ← incref (objs s) c; Done (with_conns (<[clt := c]> (conns_ s)) (with_objs h s))
  | Some o =>
      x ← compare (objs s) o c;
      if x <? 0 then
        h ← decref (objs s) o;
        h ← incref h c;
        Done (with_conns (<[clt := c]> (conns_ s)) (with_objs h s))
      else Done s
  end.

(** The end of [dispatch]. *)
Definition leave (j c : Z) (s : t) : outcome t :=
  h ← decref (objs s) c; Done (with_jobs (delete j (jobs s)) (with_objs h s)).

Definition note (clt c : Z) (s : t) : outcome t :=
  x ← deref (objs s) c;
  Done (mk (objs s) (next s) (listener s) (conns_ s) (jobs s) (leaked s) ((clt, create_time_ x) :: spoke s)).

(** [dispatch] up to the handler; an answer to another instance's client leaves
    without [decref]. *)
Definition dispatch_begin (j c : Z) (f : found) (s : t) : outcome t :=
  match f with
  | Bad_header => leave j c s
  | Unknown_proc => h ← decref (objs s) c; Throws
  | Old_server =>
      Done (mk (objs s) (next s) (listener s) (conns_ s) (delete j (jobs s)) (c :: leaked s) (spoke s))
  | Handled clt is_new =>
      s ← (if clt =? 0 then Done s else s ← note clt c s; save_conn clt c s);
      Done (set_job j (if (clt =? 0) || is_new then Running c clt else Sending c) s)
  end.

(** [dispatch] after the handler: the connection for the reply.  [operator[]] of a client without number gives a null pointer. *)
Definition dispatch_end (j c clt : Z) (s : t) : outcome (Z * t) :=
  d ← isdead (objs s) c;
  if d && negb (bool_decide (conns_ s !! clt = Some c)) then
    h ← decref (objs s) c;
    match conns_ s !! clt with
    | None => Undef
    | Some o => h ← incref h o; Done (o, set_job j (Sending o) (with_objs h s))
    end
  else Done (c, set_job j (Sending c) s).

(** ** Runs *)

Inductive event : Type :=
  | Accept (e : selected) | Dies (c : Z) | Pdu (j c : Z) (succ : bool) | Begin (j : Z) (f : found) | End_ (j : Z) | Sent (j : Z) | Stop.

(** What the kernel and the poll manager guarantee: a new descriptor is not open,
    only a connection that is not dead reads; a job number names one job. *)
Definition possible (s : t) (e : event) : bool :=
  match e with
  | Accept (Listening fd _) => bool_decide (map_Forall (λ _ x, fd_ x ≠ fd) (objs s))
  | Accept _ | Stop => true
  | Dies c => bool_decide (is_Some (objs s !! c))
  | Pdu j c _ =>
      match objs s !! c with Some x => negb (dead_ x) | None => false end && bool_decide (jobs s !! j = None)
  | Begin j _ => match jobs s !! j with Some (Queued _) => true | _ => false end
  | End_ j => match jobs s !! j with Some (Running _ _) => true | _ => false end
  | Sent j => match jobs s !! j with Some (Sending _) => true | _ => false end
  end.

Definition step (e : event) (s : t) : outcome t :=
  match e with
  | Accept e => '(_, s) ← accept_conn e s; Done s
  | Dies c => h ← closeconn (objs s) c; Done (with_objs h s)
  | Pdu j c succ => got_pdu j c succ s
  | Begin j f => match jobs s !! j with Some (Queued c) => dispatch_begin j c f s | _ => Undef end
  | End_ j => match jobs s !! j with Some (Running c clt) => '(_, s) ← dispatch_end j c clt s; Done s | _ => Undef end
  | Sent j => match jobs s !! j with Some (Sending c) => leave j c s | _ => Undef end
  | Stop => stop s
  end.

Inductive reach : t → Prop :=
  | reach_make : reach make
  | reach_step s e s' : reach s → possible s e = true → step e s = Done s' → reach s'.

End srv.

(** ** Counting *)

(** Every count is the number of owners, and an object without owners is gone. *)
Definition counted (h : heap) (own : Z → Z) : Prop :=
  ∀ c, match h !! c with Some x => refno_ x = own c ∧ 0 < own c | None => own c = 0 end.

Definition one (c i : Z) : Z := if i =? c then 1 else 0.

Lemma one_same c : one c c = 1. Proof. unfold one. by rewrite Z.eqb_refl. Qed.
Lemma one_other c i : i ≠ c → one c i = 0. Proof. unfold one. intros. by rewrite (proj2 (Z.eqb_neq _ _)). Qed.
Lemma one_nonneg c i : 0 ≤ one c i. Proof. unfold one. case_match; lia. Qed.

Lemma counted_some h own c : counted h own → 0 < own c → ∃ x, h !! c = Some x ∧ refno_ x = own c.
Proof. intros H Hc. specialize (H c). destruct (h !! c) as [x|]; [|lia]. exists x. naive_solver. Qed.

(** Only counts change, and only a dead object goes. *)
Definition stays_at (x x' : option conn) : Prop :=
  match x, x' with
  | Some x, Some x' => fd_ x' = fd_ x ∧ create_time_ x' = create_time_ x ∧ dead_ x' = dead_ x
  | Some x, None => dead_ x = true
  | None, None => True
  | None, Some _ => False
  end.
Definition stays (h h' : heap) : Prop := ∀ c, stays_at (h !! c) (h' !! c).

#[export] Instance stays_preorder : PreOrder stays.
Proof.
  split.
  - intros h c. by destruct (h !! c).
  - intros h1 h2 h3 H1 H2 c. specialize (H1 c). specialize (H2 c). unfold stays_at in *.
    destruct (h1 !! c), (h2 !! c), (h3 !! c); naive_solver congruence.
Qed.

Lemma lives_insert h c x x' :
  h !! c = Some x → fd_ x' = fd_ x → create_time_ x' = create_time_ x → dead_ x' = dead_ x → stays h (<[c := x']> h).
Proof.
  intros Hx ? ? ? i. destruct (decide (i = c)) as [->|Hne].
  - by rewrite lookup_insert_eq, Hx.
  - rewrite lookup_insert_ne by done. by destruct (h !! i).
Qed.

Lemma stays_alive h h' c x : stays h h' → h !! c = Some x → dead_ x = false →
  ∃ x', h' !! c = Some x' ∧ fd_ x' = fd_ x ∧ create_time_ x' = create_time_ x ∧ dead_ x' = false.
Proof. intros H Hx Hd. specialize (H c). rewrite Hx in H. destruct (h' !! c) as [x'|]; cbn in H; [|congruence]. exists x'. naive_solver. Qed.

Lemma stays_back h h' c x' : stays h h' → h' !! c = Some x' →
  ∃ x, h !! c = Some x ∧ fd_ x' = fd_ x ∧ create_time_ x' = create_time_ x ∧ dead_ x' = dead_ x.
Proof. intros H Hx. specialize (H c). rewrite Hx in H. destruct (h !! c) as [x|]; cbn in H; [|done]. by exists x. Qed.

Lemma incref_counted h own own' c :
  counted h own → 0 < own c → (∀ i, own' i = own i + one c i) → ∃ h', incref h c = Done h' ∧ counted h' own' ∧ stays h h'.
Proof.
  intros H Hc Ho. destruct (counted_some h own c H Hc) as (x & Hx & Hr). unfold incref, deref. rewrite Hx, bind_Done.
  eexists. split; [done|]. split; [|by eapply lives_insert].
  intros i. destruct (decide (i = c)) as [->|Hne].
  - rewrite lookup_insert_eq, Ho, one_same. cbn. lia.
  - rewrite lookup_insert_ne, Ho, one_other by done. rewrite Z.add_0_r. apply H.
Qed.

Lemma decref_counted h own own' c :
  counted h own → 0 < own c → (own c = 1 → ∃ x, h !! c = Some x ∧ dead_ x = true) → (∀ i, own' i = own i - one c i) →
  ∃ h', decref h c = Done h' ∧ counted h' own' ∧ stays h h'.
Proof.
  intros H Hc Hd Ho. destruct (counted_some h own c H Hc) as (x & Hx & Hr). unfold decref, deref. rewrite Hx, bind_Done.
  rewrite (proj2 (Z.leb_le _ _)) by lia. cbn [ensure]. rewrite bind_Done, Hr. cbv beta.
  destruct (Z.eqb_spec (own c - 1) 0) as [E|E].
  - destruct Hd as (x' & Hx' & Hdead); [lia|]. rewrite Hx in Hx'. injection Hx' as <-. rewrite Hdead. cbn [andb].
    eexists. split; [done|]. split.
    + intros i. destruct (decide (i = c)) as [->|Hne].
      * rewrite lookup_delete_eq, Ho, one_same. lia.
      * rewrite lookup_delete_ne, Ho, one_other by done. rewrite Z.sub_0_r. apply H.
    + intros i. destruct (decide (i = c)) as [->|Hne].
      * by rewrite lookup_delete_eq, Hx.
      * rewrite lookup_delete_ne by done. by destruct (h !! i).
  - cbn [andb]. eexists. split; [done|]. split; [|by eapply lives_insert].
    intros i. destruct (decide (i = c)) as [->|Hne].
    + rewrite lookup_insert_eq, Ho, one_same. cbn. lia.
    + rewrite lookup_insert_ne, Ho, one_other by done. rewrite Z.sub_0_r. apply H.
Qed.

Lemma closeconn_counted h own c x :
  counted h own → h !! c = Some x → closeconn h c = Done (<[c := set_dead x]> h) ∧ counted (<[c := set_dead x]> h) own.
Proof.
  intros H Hx. unfold closeconn, deref. rewrite Hx, bind_Done. split; [done|].
  intros i. destruct (decide (i = c)) as [->|Hne].
  - rewrite lookup_insert_eq. specialize (H c). by rewrite Hx in H.
  - rewrite lookup_insert_ne by done. apply H.
Qed.

Lemma decref_other h h' c d x : decref h c = Done h' → d ≠ c → h !! d = Some x → h' !! d = Some x.
Proof.
  unfold decref, deref. destruct (h !! c) as [y|]; [|done]. rewrite bind_Done. intros H Hne Hx. revert H.
  destruct (0 <=? refno_ y - 1); [|done]. cbn [ensure]. rewrite bind_Done.
  case_match; intros [= <-]; [by rewrite lookup_delete_ne|by rewrite lookup_insert_ne].
Qed.

(** ** The invariant of the server *)

Lemma msum_put {A} (f : A → Z) (m : gmap Z A) i a : msum f (<[i := a]> m) = msum f m - from_option f 0 (m !! i) + f a.
Proof. apply (msum_alter f m i (Some a)). Qed.
Lemma msum_del {A} (f : A → Z) (m : gmap Z A) i : msum f (delete i m) = msum f m - from_option f 0 (m !! i).
Proof. rewrite (msum_delete f m i). lia. Qed.

Ltac srv_cbn :=
  cbn [srv.objs srv.next srv.listener srv.conns_ srv.jobs srv.leaked srv.spoke srv.with_objs srv.with_conns srv.with_jobs srv.set_job].

Section server.
Import srv.
Implicit Types (s : t) (l : gmap Z Z).

Definition held l (i : Z) : Z := msum (λ c, one c i) l.

Lemma held_nonneg l i : 0 ≤ held l i. Proof. apply msum_nonneg. intros. apply one_nonneg. Qed.
Lemma held_in l k c : l !! k = Some c → 0 < held l c.
Proof.
  intros H. pose proof (msum_lookup_le (λ d, one d c) l k c (λ d, one_nonneg d c) H) as Hle. cbv beta in Hle.
  rewrite one_same in Hle. unfold held. lia.
Qed.
Lemma held_put l k c i : held (<[k := c]> l) i = held l i - from_option (λ d, one d i) 0 (l !! k) + one c i.
Proof. apply (msum_put (λ d, one d i)). Qed.
Lemma held_del l k i : held (delete k l) i = held l i - from_option (λ d, one d i) 0 (l !! k).
Proof. apply (msum_del (λ d, one d i)). Qed.

Lemma held_find l c : held l c ≠ 0 → ∃ k, l !! k = Some c.
Proof.
  unfold held. induction l as [|k d l Hk IH] using map_ind; [done|]. rewrite msum_insert by done. intros H.
  destruct (decide (c = d)) as [->|Hne]; [exists k; apply lookup_insert_eq|].
  rewrite one_other in H by done. destruct IH as (k' & Hk'); [lia|]. exists k'. rewrite lookup_insert_ne; [done|]. congruence.
Qed.

Definition at_jobs (m : gmap Z job) (i : Z) : Z := msum (λ j, one (job_conn j) i) m.
Definition lost (cs : list Z) (i : Z) : Z := foldr (λ c n, one c i + n) 0 cs.

Lemma at_jobs_nonneg m i : 0 ≤ at_jobs m i. Proof. apply msum_nonneg. intros. apply one_nonneg. Qed.
Lemma at_jobs_in m k j : m !! k = Some j → 0 < at_jobs m (job_conn j).
Proof.
  intros H. pose proof (msum_lookup_le (λ d, one (job_conn d) (job_conn j)) m k j (λ d, one_nonneg _ _) H) as Hle. cbv beta in Hle.
  rewrite one_same in Hle. unfold at_jobs. lia.
Qed.
Lemma lost_nonneg cs i : 0 ≤ lost cs i.
Proof. induction cs as [|c cs IH]; cbn [lost foldr]; [lia|]. pose proof (one_nonneg c i). unfold lost in IH. lia. Qed.

(** How often a connection is held. *)
Definition own s (i : Z) : Z := held (listener s) i + held (conns_ s) i + at_jobs (jobs s) i + lost (leaked s) i.

Definition not_later (a b : Z * Z) : Prop := compare_times a b ≤ 0.

Lemma not_later_trans a b c : not_later a b → not_later b c → not_later a c.
Proof. unfold not_later, compare_times. destruct a, b, c. cbn. repeat case_match; lia. Qed.
Lemma not_later_flip a b : 0 ≤ compare_times a b → not_later b a.
Proof. unfold not_later, compare_times. destruct a, b. cbn. repeat case_match; lia. Qed.
Lemma not_later_refl a : not_later a a.
Proof. unfold not_later, compare_times. repeat case_match; lia. Qed.

Record shape s : Prop := {
  v_next c x : objs s !! c = Some x → c < next s;
  v_listen fd c x : listener s !! fd = Some c → objs s !! c = Some x → fd_ x = fd;
  v_alive c x : objs s !! c = Some x → dead_ x = false → listener s !! fd_ x = Some c;
  v_fds c d x y : objs s !! c = Some x → objs s !! d = Some y → fd_ x = fd_ y → c = d;
  v_latest clt tm : (clt, tm) ∈ spoke s →
    ∃ c, conns_ s !! clt = Some c ∧ ∀ x, objs s !! c = Some x → not_later tm (create_time_ x);
  v_spoke clt c x : conns_ s !! clt = Some c → objs s !! c = Some x → (clt, create_time_ x) ∈ spoke s;
  v_nobody : conns_ s !! 0 = None;
  v_running j c clt : jobs s !! j = Some (Running c clt) → clt ≠ 0 →
    ∀ x, objs s !! c = Some x → (clt, create_time_ x) ∈ spoke s;
  v_spoken j c clt : jobs s !! j = Some (Running c clt) → clt ≠ 0 → is_Some (conns_ s !! clt);
}.

Definition sinv s : Prop := counted (objs s) (own s) ∧ shape s.

(** Objects die, and go. *)
Definition wanes (h h' : heap) : Prop := ∀ c x', h' !! c = Some x' →
  ∃ x, h !! c = Some x ∧ fd_ x' = fd_ x ∧ create_time_ x' = create_time_ x ∧ (dead_ x = true → dead_ x' = true).

#[export] Instance wanes_preorder : PreOrder wanes.
Proof.
  split; [intros h c x Hx; eauto|].
  intros h1 h2 h3 H1 H2 c x (y & Hy & E1 & E2 & E3)%H2. destruct (H1 c y Hy) as (z & Hz & ? & ? & ?).
  exists z. split_and!; [done|congruence|congruence|auto].
Qed.

Lemma stays_wanes h h' : stays h h' → wanes h h'.
Proof. intros H c x' (x & ? & ? & ? & E)%(stays_back _ _ c x' H). exists x. rewrite E. auto. Qed.

Lemma wanes_close h c x : h !! c = Some x → wanes h (<[c := set_dead x]> h).
Proof. intros Hx i x' [[<- <-]|[_ Hi]]%lookup_insert_Some; [by exists x|eauto]. Qed.

Lemma shape_wanes s h : shape s → wanes (objs s) h → shape (with_objs h s).
Proof.
  intros [] H. split; cbn.
  - intros c x' (x & Hx & _)%H. eauto.
  - intros fd c x' Hl (x & Hx & -> & _)%H. eauto.
  - intros c x' (x & Hx & -> & _ & E)%H Hd. apply v_alive0; [done|]. destruct (dead_ x); [|done]. by rewrite E in Hd.
  - intros c d x' y' (x & Hx & -> & _)%H (y & Hy & -> & _)%H. eauto.
  - intros clt tm (c & Hc & Ht)%v_latest0. exists c. split; [done|].
    intros x' (x & Hx & _ & -> & _)%H. eauto.
  - intros clt c x' Hc (x & Hx & _ & -> & _)%H. eauto.
  - done.
  - intros j c clt Hj Hn x' (x & Hx & _ & -> & _)%H. eauto.
  - eauto.
Qed.

Lemma own_listener s c x : sinv s → objs s !! c = Some x → dead_ x = false → 0 < held (listener s) c.
Proof. intros [_ V] Hx Hd. eapply held_in, (v_alive _ V); eauto. Qed.

(** Somebody besides the listener may always leave. *)
Lemma may_leave s c : sinv s → held (listener s) c < own s c → own s c = 1 → ∃ x, objs s !! c = Some x ∧ dead_ x = true.
Proof.
  intros V Hlt H1. destruct (counted_some _ _ c (proj1 V)) as (x & Hx & _); [lia|]. exists x. split; [done|].
  destruct (dead_ x) eqn:Hd; [done|]. pose proof (own_listener s c x V Hx Hd). lia.
Qed.

Lemma own_nonneg s c : 0 ≤ held (listener s) c ∧ 0 ≤ held (conns_ s) c ∧ 0 ≤ at_jobs (jobs s) c ∧ 0 ≤ lost (leaked s) c.
Proof. pose proof (held_nonneg (listener s) c). pose proof (held_nonneg (conns_ s) c). pose proof (at_jobs_nonneg (jobs s) c). pose proof (lost_nonneg (leaked s) c). lia. Qed.

(** A job's connection. *)
Lemma job_object s k j : sinv s → jobs s !! k = Some j → ∃ x, objs s !! job_conn j = Some x ∧ held (listener s) (job_conn j) < own s (job_conn j).
Proof.
  intros V Hj. pose proof (at_jobs_in _ _ _ Hj). pose proof (own_nonneg s (job_conn j)).
  destruct (counted_some _ _ (job_conn j) (proj1 V)) as (x & Hx & _); [unfold own; lia|]. exists x. split; [done|unfold own; lia].
Qed.

Lemma at_jobs_put m k j i : at_jobs (<[k := j]> m) i = at_jobs m i - from_option (λ d, one (job_conn d) i) 0 (m !! k) + one (job_conn j) i.
Proof. apply (msum_put (λ d, one (job_conn d) i)). Qed.
Lemma at_jobs_del m k i : at_jobs (delete k m) i = at_jobs m i - from_option (λ d, one (job_conn d) i) 0 (m !! k).
Proof. apply (msum_del (λ d, one (job_conn d) i)). Qed.

(** A job that leaves, or goes on with the same connection. *)
Lemma shape_job_out s j : shape s → shape (with_jobs (delete j (jobs s)) s).
Proof.
  intros []. split; cbn; try done.
  - intros i c clt [_ Hj]%lookup_delete_Some. eauto.
  - intros i c clt [_ Hj]%lookup_delete_Some. eauto.
Qed.

Lemma shape_job_in s j x :
  shape s → (∀ c clt, x = Running c clt → clt = 0 ∨ (is_Some (conns_ s !! clt) ∧ ∀ y, objs s !! c = Some y → (clt, create_time_ y) ∈ spoke s)) →
  shape (set_job j x s).
Proof.
  intros [] Hx. split; cbn; try done.
  - intros i c clt [[-> ->]|[_ Hj]]%lookup_insert_Some Hn; [|eauto]. destruct (Hx c clt eq_refl) as [|[_ H]]; done.
  - intros i c clt [[-> ->]|[_ Hj]]%lookup_insert_Some Hn; [|eauto]. destruct (Hx c clt eq_refl) as [|[H _]]; done.
Qed.

Lemma leave_ok j c s k : sinv s → jobs s !! j = Some k → job_conn k = c → ∃ s', leave j c s = Done s' ∧ sinv s'.
Proof.
  intros V Hj <-. destruct (job_object s j k V Hj) as (x & Hx & Hlt). pose proof (at_jobs_in _ _ _ Hj). pose proof (own_nonneg s (job_conn k)).
  set (s1 := with_jobs (delete j (jobs s)) s).
  destruct (decref_counted (objs s) (own s) (own s1) (job_conn k)) as (h & Hd & Hc & Hst);
    [apply V|unfold own; lia|by apply may_leave| |].
  - intros i. unfold own, s1. srv_cbn. rewrite at_jobs_del, Hj. cbn [from_option]. lia.
  - eexists. split; [unfold leave; by rewrite Hd, bind_Done|]. split; [exact Hc|].
    apply (shape_wanes s1); [by apply shape_job_out, V|by apply stays_wanes].
Qed.

Lemma got_pdu_ok j c succ s x :
  sinv s → objs s !! c = Some x → dead_ x = false → jobs s !! j = None → ∃ s', got_pdu j c succ s = Done s' ∧ sinv s'.
Proof.
  intros V Hx Hd Hj. pose proof (own_listener s c x V Hx Hd) as Hl. pose proof (own_nonneg s c).
  destruct (incref_counted (objs s) (own s) (λ i, own s i + one c i) c) as (h & Hi & Hc & Hst); [apply V|unfold own; lia|done|].
  unfold got_pdu. rewrite Hi, bind_Done. destruct succ.
  - eexists. split; [done|]. split.
    + intros i. pose proof (Hc i) as Hci. unfold own, set_job in *. srv_cbn. rewrite at_jobs_put, Hj. cbn [from_option job_conn].
      destruct (h !! i); lia.
    + apply shape_job_in; [|done]. apply shape_wanes; [apply V|by apply stays_wanes].
  - destruct (decref_counted h (λ i, own s i + one c i) (own s) c) as (h' & Hd' & Hc' & Hst'); [done| | |intros; lia|].
    { cbv beta. pose proof (one_nonneg c c). unfold own. lia. }
    { cbv beta. rewrite one_same. unfold own. lia. }
    rewrite Hd', bind_Done. eexists. split; [done|]. split; [exact Hc'|].
    apply shape_wanes; [apply V|]. apply stays_wanes. by etrans.
Qed.

(** The latest connection of a client is there. *)
Lemma latest_object s clt o : sinv s → conns_ s !! clt = Some o →
  ∃ z, objs s !! o = Some z ∧ held (listener s) o < own s o.
Proof.
  intros V Ho. pose proof (held_in _ _ _ Ho). pose proof (own_nonneg s o).
  destruct (counted_some _ _ o (proj1 V)) as (z & Hz & _); [unfold own; lia|]. exists z. split; [done|unfold own; lia].
Qed.

Lemma compare_spec h c d x y : h !! c = Some x → h !! d = Some y →
  compare h c d = Done (compare_times (create_time_ x) (create_time_ y)).
Proof. intros Hx Hy. unfold compare, deref. by rewrite Hx, bind_Done, Hy. Qed.

(** A client's latest connection is the one it spoke on last in time. *)
Lemma shape_saved s h clt c x :
  sinv s → objs s !! c = Some x → clt ≠ 0 → wanes (objs s) h →
  (∀ o y, conns_ s !! clt = Some o → objs s !! o = Some y → not_later (create_time_ y) (create_time_ x)) →
  shape (mk h (next s) (listener s) (<[clt := c]> (conns_ s)) (jobs s) (leaked s) ((clt, create_time_ x) :: spoke s)).
Proof.
  intros V Hx Hn Hw Hold. destruct (shape_wanes s h (proj2 V) Hw) as [V1 V2 V3 V4 V5 V6 V7 V8 V9]. cbn in *.
  assert (Hxh : ∀ y, h !! c = Some y → create_time_ y = create_time_ x).
  { intros y Hy. destruct (Hw c y Hy) as (x0 & Hx0 & _ & E & _). congruence. }
  split; cbn; try done.
  - intros cl tm. rewrite elem_of_cons. intros [[= -> ->]|Hin].
    + exists c. rewrite lookup_insert_eq. split; [done|]. intros y Hy. rewrite (Hxh y Hy). apply not_later_refl.
    + destruct (v_latest _ (proj2 V) _ _ Hin) as (o & Ho & Hto). destruct (decide (cl = clt)) as [->|Hne].
      * exists c. rewrite lookup_insert_eq. split; [done|]. intros y Hy. rewrite (Hxh y Hy).
        destruct (latest_object s clt o V Ho) as (z & Hz & _). eapply not_later_trans; [by apply Hto|by eapply Hold].
      * destruct (V5 _ _ Hin) as (o' & Ho' & Ht'). exists o'. by rewrite lookup_insert_ne.
  - intros cl d y [[-> ->]|[_ Hd]]%lookup_insert_Some Hy; rewrite elem_of_cons; [left|right; eauto].
    by rewrite (Hxh y Hy).
  - by rewrite lookup_insert_ne.
  - intros i d cl Hi Hcl y Hy. rewrite elem_of_cons. right. eauto.
  - intros i d cl Hi Hcl. rewrite lookup_insert_is_Some'. right. eauto.
Qed.

Lemma shape_spoke s clt c o x z :
  sinv s → objs s !! c = Some x → conns_ s !! clt = Some o → objs s !! o = Some z →
  0 ≤ compare_times (create_time_ z) (create_time_ x) →
  shape (mk (objs s) (next s) (listener s) (conns_ s) (jobs s) (leaked s) ((clt, create_time_ x) :: spoke s)).
Proof.
  intros [_ [V1 V2 V3 V4 V5 V6 V7 V8 V9]] Hx Ho Hz Hcmp. split; cbn; try done.
  - intros cl tm. rewrite elem_of_cons. intros [[= -> ->]|Hin]; [|eauto].
    exists o. split; [done|]. intros y Hy. simplify_eq. by apply not_later_flip.
  - intros cl d y Hd Hy. rewrite elem_of_cons. eauto.
  - intros i d cl Hi Hcl y Hy. rewrite elem_of_cons. eauto.
Qed.

(** Who spoke on the connection of a job is noted, and its latest connection is
    at least as new. *)
Lemma save_conn_ok j c clt s :
  sinv s → jobs s !! j = Some (Queued c) → clt ≠ 0 →
  ∃ s', (s ← note clt c s; save_conn clt c s) = Done s' ∧ sinv s' ∧ jobs s' = jobs s ∧
    is_Some (conns_ s' !! clt) ∧ ∀ y, objs s' !! c = Some y → (clt, create_time_ y) ∈ spoke s'.
Proof.
  intros V Hj Hn. destruct (job_object s j _ V Hj) as (x & Hx & Hlt). cbn [job_conn] in *.
  pose proof (at_jobs_in _ _ _ Hj) as Hjc. cbn [job_conn] in Hjc. pose proof (own_nonneg s c) as Hpos.
  unfold note, deref. rewrite Hx, !bind_Done. unfold save_conn. srv_cbn.
  assert (Hnow : ∀ h, wanes (objs s) h → ∀ y, h !! c = Some y → (clt, create_time_ y) ∈ (clt, create_time_ x) :: spoke s).
  { intros h Hw y (x0 & Hx0 & _ & -> & _)%Hw. rewrite Hx in Hx0. injection Hx0 as <-. by left. }
  destruct (conns_ s !! clt) as [o|] eqn:Ho.
  - destruct (latest_object s clt o V Ho) as (z & Hz & Hol).
    rewrite (compare_spec _ _ _ _ _ Hz Hx), bind_Done. case_test.
    + destruct (decref_counted (objs s) (own s) (λ i, own s i - one o i) o) as (h1 & Hd & Hc1 & Hst1);
        [apply V|pose proof (held_nonneg (listener s) o); lia|by apply may_leave|done|].
      assert (Hpc : 0 < own s c - one o c).
      { unfold own. destruct (decide (c = o)) as [->|]; [|rewrite one_other by done; lia].
        pose proof (held_in _ _ _ Ho). rewrite one_same. lia. }
      destruct (incref_counted h1 (λ i, own s i - one o i) (λ i, own s i - one o i + one c i) c Hc1 Hpc) as (h2 & Hi & Hc2 & Hst2); [done|].
      assert (Hw : wanes (objs s) h2) by (apply stays_wanes; by etrans).
      rewrite Hd, bind_Done, Hi, bind_Done. eexists. split; [done|]. split_and!; [split|done| |by apply Hnow].
      * intros i. pose proof (Hc2 i) as Hci. unfold own in *. srv_cbn. rewrite held_put, Ho. cbn [from_option].
        destruct (h2 !! i); lia.
      * apply (shape_saved s h2 clt c x); try done. intros o' y Ho' Hy. simplify_eq. unfold not_later. lia.
      * srv_cbn. rewrite lookup_insert_eq. by eexists.
    + eexists. split; [done|]. split_and!; [split|done|srv_cbn; rewrite Ho; by eexists|by apply Hnow].
      * apply V.
      * by apply (shape_spoke s clt c o x z).
  - destruct (incref_counted (objs s) (own s) (λ i, own s i + one c i) c) as (h2 & Hi & Hc2 & Hst2); [apply V|unfold own; lia|done|].
    rewrite Hi, bind_Done. apply stays_wanes in Hst2.
    eexists. split; [done|]. split_and!; [split|done| |by apply Hnow].
    + intros i. pose proof (Hc2 i) as Hci. unfold own in *. srv_cbn. rewrite held_put, Ho. cbn [from_option].
      destruct (h2 !! i); lia.
    + apply (shape_saved s h2 clt c x); try done. intros o' y Ho'. congruence.
    + srv_cbn. rewrite lookup_insert_eq. by eexists.
Qed.

(** Replacing a job on the same connection. *)
Lemma own_set_job s j x c i :
  jobs s !! j = Some x → own (set_job j c s) i = own s i - one (job_conn x) i + one (job_conn c) i.
Proof. intros Hj. unfold own, set_job. srv_cbn. rewrite at_jobs_put, Hj. cbn [from_option]. lia. Qed.

Lemma counted_ext h o1 o2 : counted h o1 → (∀ i, o2 i = o1 i) → counted h o2.
Proof. intros H E i. rewrite E. apply H. Qed.

Lemma dispatch_begin_ok j c f s :
  sinv s → jobs s !! j = Some (Queued c) → f ≠ Unknown_proc → ∃ s', dispatch_begin j c f s = Done s' ∧ sinv s'.
Proof.
  intros V Hj Hf. destruct f as [| |  |clt is_new]; [by eapply leave_ok| |done|]; unfold dispatch_begin.
  - eexists. split; [done|]. split; [|destruct (shape_job_out s j (proj2 V)); by split].
    eapply counted_ext; [apply V|]. intros i. unfold own. srv_cbn. rewrite at_jobs_del, Hj. cbn [from_option job_conn lost foldr].
    fold (lost (leaked s) i). lia.
  - assert (∃ s1, (if clt =? 0 then Done s else s ← note clt c s; save_conn clt c s) = Done s1 ∧ sinv s1 ∧ jobs s1 = jobs s ∧
      (clt = 0 ∨ is_Some (conns_ s1 !! clt) ∧ ∀ y, objs s1 !! c = Some y → (clt, create_time_ y) ∈ spoke s1))
      as (s1 & -> & V1 & Hj1 & Hclt).
    { destruct (Z.eqb_spec clt 0) as [->|Hn]; [exists s; auto|].
      destruct (save_conn_ok j c clt s V Hj Hn) as (s1 & E & ? & ? & ? & ?). exists s1. split; [exact E|auto]. }
    rewrite bind_Done. eexists. split; [done|]. split.
    + eapply counted_ext; [apply V1|]. intros i. rewrite (own_set_job _ _ (Queued c)) by by rewrite Hj1.
      unfold set_job. srv_cbn. case_match; cbn [job_conn]; lia.
    + apply shape_job_in; [apply V1|]. intros d cl Hd. case_match; [|done]. injection Hd as <- <-. done.
Qed.

(** The connection a reply goes out on. *)
Definition reply_conn s (c clt o : Z) : Prop :=
  ∃ x y, objs s !! c = Some x ∧ objs s !! o = Some y ∧
    if dead_ x then conns_ s !! clt = Some o ∧ not_later (create_time_ x) (create_time_ y) else o = c.

Lemma dispatch_end_ok j c clt s :
  sinv s → jobs s !! j = Some (Running c clt) → clt ≠ 0 →
  ∃ o s', dispatch_end j c clt s = Done (o, s') ∧ sinv s' ∧ reply_conn s c clt o.
Proof.
  intros V Hj Hn. destruct (job_object s j _ V Hj) as (x & Hx & Hlt). cbn [job_conn] in *.
  pose proof (own_nonneg s c) as Hpos. unfold dispatch_end, isdead, deref. rewrite Hx, bind_Done.
  destruct (v_spoken _ (proj2 V) _ _ _ Hj Hn) as (o & Ho). destruct (latest_object s clt o V Ho) as (z & Hz & Hol).
  assert (Hto : not_later (create_time_ x) (create_time_ z)).
  { destruct (v_latest _ (proj2 V) _ _ (v_running _ (proj2 V) _ _ _ Hj Hn x Hx)) as (o' & Ho' & Ht). simplify_eq. by apply Ht. }
  rewrite bind_Done. destruct (dead_ x) eqn:Hd; cbn [andb negb].
  - case_bool_decide as Hoc; cbn [negb].
    + exists c. eexists. split; [done|]. split; [|exists x, z; rewrite Hd; rewrite Ho in Hoc; simplify_eq; done].
      split.
      * eapply counted_ext; [apply V|]. intros i. rewrite (own_set_job _ _ (Running c clt)) by done. unfold set_job. srv_cbn. cbn [job_conn]. lia.
      * apply shape_job_in; [apply V|done].
    + rewrite Ho in Hoc. assert (Hne : o ≠ c) by congruence.
      destruct (decref_counted (objs s) (own s) (λ i, own s i - one c i) c) as (h1 & Hd1 & Hc1 & Hst1); [apply V|lia|eauto|done|].
      destruct (incref_counted h1 (λ i, own s i - one c i) (λ i, own s i - one c i + one o i) o Hc1) as (h2 & Hi & Hc2 & Hst2);
        [rewrite one_other by done; pose proof (own_nonneg s o); lia|done|].
      rewrite Hd1, bind_Done, Ho, Hi, bind_Done. exists o. eexists. split; [done|]. split; [split|exists x, z; by rewrite Hd].
      * intros i. pose proof (Hc2 i) as Hci. unfold own in *. unfold set_job. srv_cbn. rewrite at_jobs_put, Hj. cbn [from_option job_conn].
        destruct (h2 !! i); lia.
      * apply shape_job_in; [|done]. apply shape_wanes; [apply V|]. apply stays_wanes. by etrans.
  - exists c. eexists. split; [done|]. split; [|exists x, x; by rewrite Hd].
    split.
    + eapply counted_ext; [apply V|]. intros i. rewrite (own_set_job _ _ (Running c clt)) by done. unfold set_job. srv_cbn. cbn [job_conn]. lia.
    + apply shape_job_in; [apply V|done].
Qed.

(** A client without a number is not remembered, and its reply has nowhere to go
    once its connection is dead. *)
Lemma dispatch_end_nobody j c s x :
  sinv s → jobs s !! j = Some (Running c 0) → objs s !! c = Some x →
  if dead_ x then dispatch_end j c 0 s = Undef else ∃ s', dispatch_end j c 0 s = Done (c, s') ∧ sinv s'.
Proof.
  intros V Hj Hx. destruct (job_object s j _ V Hj) as (x' & Hx' & Hlt). cbn [job_conn] in *. simplify_eq.
  unfold dispatch_end, isdead, deref. rewrite Hx, !bind_Done, (v_nobody _ (proj2 V)). destruct (dead_ x) eqn:Hd; cbn [andb].
  - case_bool_decide; [done|]. cbn [negb].
    destruct (decref_counted (objs s) (own s) (λ i, own s i - one c i) c) as (h1 & -> & _);
      [apply V|pose proof (own_nonneg s c); lia|eauto|done|done].
  - eexists. split; [done|]. split.
    + eapply counted_ext; [apply V|]. intros i. rewrite (own_set_job _ _ (Running c 0)) by done. unfold set_job. srv_cbn. cbn [job_conn]. lia.
    + apply shape_job_in; [apply V|done].
Qed.

(** ** The listener *)

(** The collector drops the entries that are dead and held by it alone. *)
Lemma gc_ok (rest : Z → Z) (Hrest : ∀ i, 0 ≤ rest i) ps : ∀ h l,
  counted h (λ i, held l i + rest i) → NoDup ps.*1 → (∀ p, p ∈ ps → l !! p.1 = Some p.2) →
  ∃ h' l', gc ps (h, l) = Done (h', l') ∧ counted h' (λ i, held l' i + rest i) ∧ stays h h' ∧ l' ⊆ l ∧
    (∀ p x, p ∈ ps → h !! p.2 = Some x → dead_ x = true → refno_ x = 1 → h' !! p.2 = None) ∧
    (∀ fd c x, l !! fd = Some c → h' !! c = Some x → l' !! fd = Some c).
Proof.
  induction ps as [|[fd c] ps IH]; intros h l Hc Hnd Hps.
  { exists h, l. split_and!; try done. intros p x Hp. by apply elem_of_nil in Hp. }
  apply NoDup_cons in Hnd as [Hfd Hnd]. pose proof (Hps (fd, c) ltac:(by left)) as Hl. cbn in Hl.
  pose proof (held_in _ _ _ Hl) as Hh.
  destruct (counted_some _ _ c Hc) as (x & Hx & Hr); [pose proof (Hrest c); lia|].
  cbn [gc]. unfold gc_entry, isdead, ref, deref. cbn [fst snd]. rewrite Hx, !bind_Done. cbv beta.
  destruct (dead_ x && (refno_ x =? 1)) eqn:Eb.
  - apply andb_true_iff in Eb as [Hd E1]. apply Z.eqb_eq in E1.
    destruct (decref_counted h (λ i, held l i + rest i) (λ i, held (delete fd l) i + rest i) c) as (h1 & Hdec & Hc1 & Hst1);
      [done|pose proof (Hrest c); lia|eauto|intros i; rewrite held_del, Hl; cbn [from_option]; lia|].
    assert (Hgone : h1 !! c = None).
    { specialize (Hc1 c). cbv beta in Hc1. rewrite held_del, Hl in Hc1. cbn [from_option] in Hc1. rewrite one_same in Hc1.
      destruct (h1 !! c); [cbn in Hr; pose proof (Hrest c); lia|done]. }
    rewrite Hdec, !bind_Done. cbv beta.
    destruct (IH h1 (delete fd l) Hc1 Hnd) as (h' & l' & Hg & Hc' & Hst' & Hsub & Hgone' & Hkeep).
    { intros p Hp. rewrite lookup_delete_ne; [apply Hps; by right|]. intros E. apply Hfd, list_elem_of_fmap. by exists p. }
    exists h', l'. split_and!; [exact Hg|done|by etrans|etrans; [done|apply delete_subseteq]| |].
    + assert (Hgc : h' !! c = None) by (destruct (h' !! c) eqn:E; [|done]; apply (stays_back _ _ _ _ Hst') in E as (? & ? & _); congruence).
      intros p y [->|Hp]%elem_of_cons Hy Hyd Hy1; [done|]. cbn [snd].
      destruct (decide (p.2 = c)) as [->|Hne]; [done|].
      assert (Hy' : ∃ y', h1 !! p.2 = Some y' ∧ dead_ y' = true ∧ refno_ y' = 1) by (exists y; split_and!; [by eapply decref_other|done|done]).
      destruct Hy' as (y' & ? & ? & ?). by eapply Hgone'.
    + intros fd' c' y Hl' Hy. apply (Hkeep _ _ y); [|done]. rewrite lookup_delete_ne; [done|]. intros ->. simplify_eq.
      apply (stays_back _ _ _ _ Hst') in Hy as (? & ? & _). congruence.
  - destruct (IH h l Hc Hnd) as (h' & l' & Hg & Hc' & Hst' & Hsub & Hgone' & Hkeep); [intros p Hp; apply Hps; by right|].
    exists h', l'. split_and!; [exact Hg|done..| |done].
    intros p y [->|Hp]%elem_of_cons Hy Hyd Hy1; [|by eapply Hgone']. cbn in Hy. simplify_eq.
    rewrite Hyd, Hy1 in Eb. done.
Qed.

Lemma next_free s : sinv s → objs s !! next s = None ∧ own s (next s) = 0.
Proof.
  intros V. assert (Hn : objs s !! next s = None) by (destruct (objs s !! next s) as [x|] eqn:E; [apply (v_next _ (proj2 V)) in E; lia|done]).
  pose proof (proj1 V (next s)) as H. by rewrite Hn in H.
Qed.

(** What a new connection and the collector leave of the shape. *)
Lemma shape_accept s fd now h l :
  sinv s → map_Forall (λ _ x, fd_ x ≠ fd) (objs s) → stays (<[next s := mkConn fd now false 1]> (objs s)) h → l ⊆ listener s →
  (∀ fd c x, listener s !! fd = Some c → h !! c = Some x → l !! fd = Some c) →
  shape (mk h (next s + 1) (<[fd := next s]> l) (conns_ s) (jobs s) (leaked s) (spoke s)).
Proof.
  intros V Hfd Hst Hsub Hkeep. destruct (next_free s V) as [Hn Ho].
  assert (Hback : ∀ c x', h !! c = Some x' → (c = next s ∧ fd_ x' = fd) ∨
    (c ≠ next s ∧ ∃ x, objs s !! c = Some x ∧ fd_ x' = fd_ x ∧ create_time_ x' = create_time_ x ∧ dead_ x' = dead_ x ∧ fd_ x ≠ fd)).
  { intros c x' (x & [[<- <-]|[Hne Hx]]%lookup_insert_Some & E1 & E2 & E3)%(stays_back _ _ _ _ Hst); [by left|right].
    split; [done|]. exists x. split_and!; try done. by apply (Hfd c). }
  pose proof (proj2 V) as [V1 V2 V3 V4 V5 V6 V7 V8 V9].
  assert (Hold : ∀ c x', objs s !! c ≠ None → h !! c = Some x' → ∃ x, objs s !! c = Some x ∧ create_time_ x' = create_time_ x).
  { intros c x' Hc [[-> _]|(_ & x & ? & _ & ? & _)]%Hback; [done|eauto]. }
  split; cbn; try done.
  - intros c x' [[-> _]|(_ & x & Hx & _)]%Hback; [lia|]. apply V1 in Hx. lia.
  - intros fd' c x' [[-> <-]|[Hne Hl]]%lookup_insert_Some Hx; destruct (Hback _ _ Hx) as [[E1 E2]|(E1 & x & Hx' & E2 & _)]; try done.
    + subst. pose proof (lookup_weaken _ _ _ _ Hl Hsub) as Hl'. pose proof (held_in _ _ _ Hl'). pose proof (own_nonneg s (next s)). unfold own in Ho. lia.
    + rewrite E2. apply (V2 fd' c); [by eapply lookup_weaken|done].
  - intros c x' Hx Hd. destruct (Hback _ _ Hx) as [[-> <-]|(Hne & x & Hx' & E & _ & Ed & Hf)]; [by rewrite lookup_insert_eq|].
    rewrite lookup_insert_ne by congruence. apply (Hkeep _ _ x'); [|done]. rewrite E. apply V3; [done|congruence].
  - intros c d x y [[-> Ex]|(Hc & x0 & Hx0 & Ex & _ & _ & Nx)]%Hback [[-> Ey]|(Hd & y0 & Hy0 & Ey & _ & _ & Ny)]%Hback E; try congruence.
    apply (V4 c d x0 y0); congruence.
  - intros clt tm (c & Hc & Ht)%V5. exists c. split; [done|]. intros x' Hx.
    destruct (latest_object s clt c V Hc) as (z & Hz & _). destruct (Hold c x') as (x & Hx' & ->); [by rewrite Hz|done|]. by apply Ht.
  - intros clt c x' Hc Hx. destruct (latest_object s clt c V Hc) as (z & Hz & _).
    destruct (Hold c x') as (x & Hx' & ->); [by rewrite Hz|done|]. eauto.
  - intros j c clt Hj Hnz x' Hx. destruct (job_object s j _ V Hj) as (z & Hz & _). cbn [job_conn] in Hz.
    destruct (Hold c x') as (x & Hx' & ->); [by rewrite Hz|done|]. eauto.
Qed.

Lemma process_accept_ok fd now s :
  sinv s → map_Forall (λ _ x, fd_ x ≠ fd) (objs s) →
  ∃ s', process_accept fd now s = Done s' ∧ sinv s' ∧ jobs s' = jobs s ∧ conns_ s' = conns_ s ∧
    objs s' !! next s = Some (mkConn fd now false 1) ∧
    ∀ c x, objs s !! c = Some x → dead_ x = true → held (listener s) c = 1 → own s c = 1 → objs s' !! c = None.
Proof.
  intros V Hfd. destruct (next_free s V) as [Hn Ho]. unfold process_accept. set (h0 := <[next s := mkConn fd now false 1]> (objs s)).
  set (rest := λ i, held (conns_ s) i + at_jobs (jobs s) i + lost (leaked s) i + one (next s) i).
  destruct (gc_ok rest) with (ps := map_to_list (listener s)) (h := h0) (l := listener s) as (h & l & Hg & Hc & Hst & Hsub & Hgone & Hkeep).
  { intros i. unfold rest. pose proof (own_nonneg s i). pose proof (one_nonneg (next s) i). lia. }
  { intros i. unfold rest, h0. destruct (decide (i = next s)) as [->|Hne].
    - rewrite lookup_insert_eq, one_same. cbn. unfold own in Ho. lia.
    - rewrite lookup_insert_ne, one_other by done. pose proof (proj1 V i) as Hi. unfold own in Hi. destruct (objs s !! i); lia. }
  { apply NoDup_fst_map_to_list. }
  { intros [k c] Hp. by apply elem_of_map_to_list in Hp. }
  rewrite Hg, bind_Done. eexists. split; [done|].
  assert (Hl : listener s !! fd = None).
  { destruct (listener s !! fd) as [c|] eqn:E; [|done]. exfalso. pose proof (held_in _ _ _ E). pose proof (own_nonneg s c).
    destruct (counted_some _ _ c (proj1 V)) as (x & Hx & _); [unfold own; lia|]. apply (Hfd c x Hx). by apply (v_listen _ (proj2 V) fd c). }
  assert (Hl' : l !! fd = None) by (by eapply lookup_weaken_None).
  split; [split|split; [done|split; [done|split]]].
  - intros i. pose proof (Hc i) as Hi. unfold rest in Hi. unfold own. srv_cbn. rewrite held_put, Hl'. cbn [from_option]. destruct (h !! i); lia.
  - by apply (shape_accept s fd now h l).
  - srv_cbn. destruct (stays_alive h0 h (next s) (mkConn fd now false 1) Hst) as ([f tm d r] & Hx & E1 & E2 & E3); [apply lookup_insert_eq|done|].
    cbn in *. subst. rewrite Hx. do 2 f_equal. pose proof (Hc (next s)) as Hi. rewrite Hx in Hi. cbn in Hi.
    unfold rest in Hi. rewrite one_same in Hi. unfold own in Ho.
    pose proof (own_nonneg s (next s)). assert (held l (next s) = 0); [|lia].
    destruct (decide (held l (next s) = 0)) as [|H0]; [done|]. destruct (held_find l (next s) H0) as (k & Hk).
    pose proof (held_in _ _ _ (lookup_weaken _ _ _ _ Hk Hsub)). lia.
  - srv_cbn. intros c x Hx Hd H1 Hown.
    assert (Hne : c ≠ next s) by (intros ->; congruence).
    destruct (held_find (listener s) c) as (k & Hk); [lia|].
    apply (Hgone (k, c) x); [by apply elem_of_map_to_list|by cbn; unfold h0; rewrite lookup_insert_ne|done|].
    pose proof (proj1 V c) as Hcc. rewrite Hx in Hcc. lia.
Qed.

(** ** The end of the listener *)

Lemma held_list l i : held l i = lost (map_to_list l).*2 i.
Proof.
  unfold held, msum. rewrite map_fold_foldr. unfold lost. induction (map_to_list l) as [|[k c] ps IH]; [done|].
  cbn. by rewrite IH.
Qed.

Lemma close_all_ok (rest : Z → Z) (Hrest : ∀ i, 0 ≤ rest i) cs : ∀ h,
  counted h (λ i, lost cs i + rest i) →
  ∃ h', close_all cs h = Done h' ∧ counted h' rest ∧ wanes h h' ∧ ∀ c x, c ∈ cs → h' !! c = Some x → dead_ x = true.
Proof.
  induction cs as [|c cs IH]; intros h Hc.
  { exists h. split_and!; [done|exact Hc|done|]. intros c x H. by apply elem_of_nil in H. }
  pose proof (lost_nonneg cs c) as Hl. pose proof (Hrest c) as Hr.
  assert (Hpos : 0 < lost (c :: cs) c + rest c) by (cbn [lost foldr]; fold (lost cs c); rewrite one_same; lia).
  destruct (counted_some _ _ c Hc Hpos) as (x & Hx & _).
  destruct (closeconn_counted h _ c x Hc Hx) as [Hcl Hc1]. cbn [close_all]. rewrite Hcl, bind_Done.
  destruct (decref_counted _ _ (λ i, lost cs i + rest i) c Hc1 Hpos) as (h2 & Hd & Hc2 & Hst).
  { intros _. exists (set_dead x). by rewrite lookup_insert_eq. }
  { intros i. cbn [lost foldr]. fold (lost cs i). lia. }
  rewrite Hd, bind_Done. destruct (IH h2 Hc2) as (h' & Hall & Hc' & Hw & Hdead).
  assert (Hw0 : wanes (<[c := set_dead x]> h) h') by (etrans; [by apply stays_wanes|done]).
  exists h'. split_and!; [done|done|etrans; [by eapply wanes_close|done]|].
  intros d y [->|Hd']%elem_of_cons Hy; [|by eapply Hdead].
  destruct (Hw0 c y Hy) as (z & Hz & _ & _ & E). rewrite lookup_insert_eq in Hz. injection Hz as <-. by apply E.
Qed.

Lemma stop_ok s : sinv s → ∃ s', stop s = Done s' ∧ sinv s'.
Proof.
  intros V. set (rest := λ i, held (conns_ s) i + at_jobs (jobs s) i + lost (leaked s) i).
  destruct (close_all_ok rest) with (cs := (map_to_list (listener s)).*2) (h := objs s) as (h & Hall & Hc & Hw & Hdead).
  { intros i. unfold rest. pose proof (own_nonneg s i). lia. }
  { eapply counted_ext; [apply V|]. intros i. rewrite <- held_list. unfold own, rest. lia. }
  unfold stop. rewrite Hall, bind_Done. eexists. split; [done|].
  destruct (shape_wanes s h (proj2 V) Hw) as [V1 V2 V3 V4 V5 V6 V7 V8 V9]. split; [|split; cbn in *; try done].
  - eapply counted_ext; [exact Hc|]. intros i. unfold own, rest. srv_cbn. change (held ∅ i) with 0. lia.
  - intros c x Hx Hd. exfalso. pose proof (V3 c x Hx Hd) as Hl.
    rewrite (Hdead c x) in Hd; [done| |done]. apply list_elem_of_fmap. exists (fd_ x, c). by rewrite elem_of_map_to_list.
Qed.

(** ** Every step *)

Definition nowhere_to_reply s (e : event) : Prop :=
  ∃ j c x, e = End_ j ∧ jobs s !! j = Some (Running c 0) ∧ objs s !! c = Some x ∧ dead_ x = true.

Lemma accept_conn_ok e s : sinv s → possible s (Accept e) = true →
  match accept_conn e s with
  | Done (_, s') => sinv s' | Throws => e = Failed ∨ e = Neither | _ => False
  end.
Proof.
  intros V Hp. destruct e as [| | |fd now| |]; cbn [accept_conn]; auto.
  cbn [possible] in Hp. apply bool_decide_eq_true in Hp.
  destruct (process_accept_ok fd now s V Hp) as (s' & -> & V' & _). by rewrite bind_Done.
Qed.

Lemma srv_step_ok e s : sinv s → possible s e = true →
  match step e s with
  | Done s' => sinv s'
  | Throws => e = Accept Failed ∨ e = Accept Neither ∨ ∃ j, e = Begin j Unknown_proc
  | Undef => nowhere_to_reply s e
  | NoFuel => False
  end.
Proof.
  intros V Hp. destruct e as [e|c|j c succ|j f|j|j|]; cbn [step].
  - pose proof (accept_conn_ok e s V Hp) as H. destruct (accept_conn e s) as [[? s']| | |]; cbn; [done|naive_solver|done|done].
  - cbn in Hp. apply bool_decide_eq_true in Hp as [x Hx].
    destruct (closeconn_counted (objs s) (own s) c x (proj1 V) Hx) as [-> Hc]. rewrite bind_Done.
    split; [exact Hc|]. apply shape_wanes; [apply V|by apply wanes_close].
  - cbn in Hp. apply andb_true_iff in Hp as [Hd Hj]. apply bool_decide_eq_true in Hj.
    destruct (objs s !! c) as [x|] eqn:Hx; [|done]. apply negb_true_iff in Hd.
    by destruct (got_pdu_ok j c succ s x V Hx Hd Hj) as (s' & -> & V').
  - cbn in Hp. destruct (jobs s !! j) as [[c|c clt|c]|] eqn:Hj; try done.
    destruct f as [| | |clt is_new].
    3: { destruct (job_object s j _ V Hj) as (x & Hx & Hlt). cbn [job_conn] in *. pose proof (own_nonneg s c).
         cbn [dispatch_begin].
         destruct (decref_counted (objs s) (own s) (λ i, own s i - one c i) c) as (h & -> & _);
           [apply V|lia|by apply may_leave|done|]. rewrite bind_Done. right; right; by eexists. }
    all: edestruct (dispatch_begin_ok j c) as (s' & Hs & V'); [exact V|exact Hj| |rewrite Hs; exact V']; done.
  - cbn in Hp. destruct (jobs s !! j) as [[c|c clt|c]|] eqn:Hj; try done.
    destruct (Z.eq_dec clt 0) as [->|Hn].
    + destruct (job_object s j _ V Hj) as (x & Hx & _). cbn [job_conn] in Hx.
      pose proof (dispatch_end_nobody j c s x V Hj Hx) as H. destruct (dead_ x) eqn:Hd.
      * rewrite H. exists j, c, x. by split_and!.
      * by destruct H as (s' & -> & V').
    + by destruct (dispatch_end_ok j c clt s V Hj Hn) as (o & s' & -> & V' & _).
  - cbn in Hp. destruct (jobs s !! j) as [[c|c clt|c]|] eqn:Hj; try done.
    by destruct (leave_ok j c s _ V Hj eq_refl) as (s' & -> & V').
  - by destruct (stop_ok s V) as (s' & -> & V').
Qed.

Lemma reach_sinv s : reach s → sinv s.
Proof.
  induction 1 as [|s e s' _ V Hp Hs].
  - split.
    { intros c. change (objs make) with (∅ : heap). by rewrite lookup_empty. }
    split; cbn; try done.
    intros clt tm H. by apply elem_of_nil in H.
  - pose proof (srv_step_ok e s V Hp) as H. by rewrite Hs in H.
Qed.

(** C31: However connections come, die, carry requests and are given up, by any
    number of workers in any order, the count of every connection is the number of
    pointers to it, so that no pointer dangles and no connection without a pointer
    stays; the listener frees at its next accept what is dead and held by it alone.
    The server uses a null pointer in one case: the connection of a client without
    a number is dead when its handler ends.  A connection on which a client of an
    older server instance spoke is never freed. *)
Theorem connections_never_dangle s e :
  reach s → possible s e = true →
  (∀ c, match objs s !! c with Some x => refno_ x = own s c ∧ 0 < own s c | None => own s c = 0 end) ∧
  match step e s with
  | Done s' => ∀ c, c ∈ leaked s' → is_Some (objs s' !! c)
  | Throws => e = Accept Failed ∨ e = Accept Neither ∨ ∃ j, e = Begin j Unknown_proc
  | Undef => nowhere_to_reply s e
  | NoFuel => False
  end ∧
  (∀ fd now s', process_accept fd now s = Done s' → e = Accept (Listening fd now) →
     ∀ c x, objs s !! c = Some x → dead_ x = true → held (listener s) c = 1 → own s c = 1 → objs s' !! c = None).
Proof.
  intros V%reach_sinv Hp. split; [apply V|]. split.
  - pose proof (srv_step_ok e s V Hp) as H. destruct (step e s) as [s'| | |]; try done.
    intros c Hc. destruct (counted_some _ _ c (proj1 H)) as (x & Hx & _); [|by eexists].
    pose proof (own_nonneg s' c). unfold own. enough (0 < lost (leaked s') c) by lia.
    clear -Hc. induction (leaked s') as [|d cs IH]; [by apply elem_of_nil in Hc|]. cbn [lost foldr]. fold (lost cs c).
    pose proof (lost_nonneg cs c). apply elem_of_cons in Hc as [<-|Hc]; [rewrite one_same; lia|]. pose proof (one_nonneg d c). specialize (IH Hc). lia.
  - intros fd now s' Hs' -> c x Hx Hd Hh Ho. cbn in Hp. apply bool_decide_eq_true in Hp.
    destruct (process_accept_ok fd now s V Hp) as (s2 & Hs2 & _ & _ & _ & _ & Hgc). rewrite Hs' in Hs2. injection Hs2 as ->. by eapply Hgc.
Qed.

(** The reply to a client with a number always has a connection to go out on:
    the one the request came on as long as that is alive, and otherwise the newest
    of all the connections on which the client has spoken. *)
Theorem replies_find_their_client s j c clt :
  reach s → jobs s !! j = Some (Running c clt) → clt ≠ 0 →
  ∃ x o y s', objs s !! c = Some x ∧ dispatch_end j c clt s = Done (o, s') ∧ objs s !! o = Some y ∧ jobs s' !! j = Some (Sending o) ∧
    (dead_ x = false → o = c) ∧
    (dead_ x = true → conns_ s !! clt = Some o ∧ ∀ tm, (clt, tm) ∈ spoke s → compare_times tm (create_time_ y) ≤ 0).
Proof.
  intros V%reach_sinv Hj Hn. destruct (dispatch_end_ok j c clt s V Hj Hn) as (o & s' & E & V' & x & y & Hx & Hy & H).
  exists x, o, y, s'. split_and!; try done.
  - revert E. unfold dispatch_end. intros [d [_ E]]%bind_Done_inv. revert E.
    destruct (d && negb (bool_decide (conns_ s !! clt = Some c))).
    + intros [h [_ E]]%bind_Done_inv. destruct (conns_ s !! clt); [|done]. apply bind_Done_inv in E as [h' [_ [= <- <-]]]. apply lookup_insert_eq.
    + intros [= <- <-]. apply lookup_insert_eq.
  - intros Hd. by rewrite Hd in H.
  - intros Hd. rewrite Hd in H. destruct H as [Ho _]. split; [done|]. intros tm Htm.
    destruct (v_latest _ (proj2 V) _ _ Htm) as (o' & Ho' & Ht). simplify_eq. by apply Ht.
Qed.

End server.

Fixpoint srv_run (es : list srv.event) (s : srv.t) : outcome srv.t :=
  match es with
  | [] => Done s
  | e :: es => if srv.possible s e then s ← srv.step e s; srv_run es s else NoFuel
  end.

Lemma srv_run_reach es : ∀ s s', srv.reach s → srv_run es s = Done s' → srv.reach s'.
Proof.
  induction es as [|e es IH]; intros s s' Hs; cbn [srv_run]; [by intros [= <-]|].
  destruct (srv.possible s e) eqn:Hp; [|done]. intros (s1 & H1 & H2)%bind_Done_inv. apply (IH s1); [|done].
  by eapply srv.reach_step.
Qed.

(** A client that speaks on one connection, loses it, and speaks on another. *)
Definition two_connections : list srv.event :=
  [srv.Accept (srv.Listening 7 (3, 0)); srv.Pdu 1 0 true; srv.Begin 1 (srv.Handled 42 true); srv.Accept (srv.Listening 8 (3, 5));
   srv.Pdu 2 1 true; srv.Begin 2 (srv.Handled 42 false); srv.Dies 0].

Definition after_two : srv.t := Eval vm_compute in match srv_run two_connections srv.make with Done s => s | _ => srv.make end.

Lemma after_two_reach : srv.reach after_two.
Proof. apply (srv_run_reach two_connections srv.make); [constructor|by vm_compute]. Qed.

Lemma connections_never_dangle_witness :
  match srv.step (srv.End_ 1) after_two with Done s' => ∀ c, c ∈ srv.leaked s' → is_Some (srv.objs s' !! c) | _ => False end.
Proof.
  pose proof (connections_never_dangle after_two (srv.End_ 1) after_two_reach ltac:(by vm_compute)) as (_ & H & _).
  destruct (srv.step (srv.End_ 1) after_two) as [s'| | |] eqn:E; [exact H|by vm_compute in E..].
Defined.

Lemma replies_find_their_client_witness : ∃ s', srv.dispatch_end 1 0 42 after_two = Done (1, s').
Proof.
  destruct (replies_find_their_client after_two 1 0 42 after_two_reach) as (x & o & y & s' & Hx & E & _ & _ & _ & H); [by vm_compute|done|].
  destruct H as [Ho _]; [vm_compute in Hx; by injection Hx as <-|]. vm_compute in Ho. injection Ho as <-. by exists s'.
Defined.

(** ** The client *)

Module clt.

(** [chan_] of [rpcc], and [ch] of every call. *)
Record t : Type := mk { objs : heap; next : Z; chan_ : option Z; calls : gmap Z (option Z) }.

Definition make : t := mk ∅ 0 None ∅.

(** [connect_to_dst]: a descriptor and the time when the connection is made. *)
Definition connect_to_dst (dial : option (Z * (Z * Z))) (s : t) : t :=
  match dial with
  | Some (fd, now) => mk (<[next s := mkConn fd now false 1]> (objs s)) (next s + 1) (Some (next s)) (calls s)
  | None => mk (objs s) (next s) None (calls s)
  end.

(** [get_refconn]: its first half, and what a call takes. *)
Definition get_chan (dial : option (Z * (Z * Z))) (s : t) : outcome t :=
  match chan_ s with
  | None => Done (connect_to_dst dial s)
  | Some c =>
      d ← isdead (objs s) c;
      if (d : bool) then h ← decref (objs s) c; Done (connect_to_dst dial (mk h (next s) (chan_ s) (calls s))) else Done s
  end.

Definition take_chan (j : Z) (s : t) : outcome t :=
  match chan_ s with
  | None => Done s
  | Some n =>
      h ← (match (calls s !! j : option (option Z)) with Some (Some o) => decref (objs s) o | _ => Done (objs s) end : outcome heap);
      h ← incref h n; Done (mk h (next s) (chan_ s) (<[j := Some n]> (calls s)))
  end.

Definition get_refconn (j : Z) (dial : option (Z * (Z * Z))) (s : t) : outcome t := s ← get_chan dial s; take_chan j s.

(** The start and the end of [call1], and the destructor. *)
Definition call_begin (j : Z) (s : t) : t := mk (objs s) (next s) (chan_ s) (<[j := None]> (calls s)).

Definition call_end (j : Z) (s : t) : outcome t :=
  h ← (match (calls s !! j : option (option Z)) with Some (Some o) => decref (objs s) o | _ => Done (objs s) end : outcome heap);
  Done (mk h (next s) (chan_ s) (delete j (calls s))).

Definition destroy (s : t) : outcome t :=
  match chan_ s with
  | None => Done s
  | Some c => h ← closeconn (objs s) c; h ← decref h c; Done (mk h (next s) None (calls s))
  end.

Inductive event : Type := Call (j : Z) | Refconn (j : Z) (dial : option (Z * (Z * Z))) | Return (j : Z) | Dies (c : Z) | Destroy.

Definition possible (s : t) (e : event) : bool :=
  match e with
  | Call j => bool_decide (calls s !! j = None)
  | Refconn j _ | Return j => bool_decide (is_Some (calls s !! j))
  | Dies c => bool_decide (is_Some (objs s !! c))
  | Destroy => bool_decide (calls s = ∅)
  end.

Definition step (e : event) (s : t) : outcome t :=
  match e with
  | Call j => Done (call_begin j s)
  | Refconn j dial => get_refconn j dial s
  | Return j => call_end j s
  | Dies c => h ← closeconn (objs s) c; Done (mk h (next s) (chan_ s) (calls s))
  | Destroy => destroy s
  end.

Inductive reach : t → Prop :=
  | reach_make : reach make
  | reach_step s e s' : reach s → possible s e = true → step e s = Done s' → reach s'.

End clt.

Section client.
Import clt.
Implicit Types (s : t).

Definition opt (o : option Z) (i : Z) : Z := from_option (λ c, one c i) 0 o.
Definition takers (m : gmap Z (option Z)) (i : Z) : Z := msum (λ o, opt o i) m.
Definition cown s (i : Z) : Z := opt (chan_ s) i + takers (calls s) i.

Lemma opt_nonneg o i : 0 ≤ opt o i. Proof. destruct o; [apply one_nonneg|done]. Qed.
Lemma takers_nonneg m i : 0 ≤ takers m i. Proof. apply msum_nonneg. intros. apply opt_nonneg. Qed.
Lemma takers_in m j c : m !! j = Some (Some c) → 0 < takers m c.
Proof.
  intros H. pose proof (msum_lookup_le (λ o, opt o c) m j _ (λ o, opt_nonneg o c) H) as Hle. cbn in Hle. rewrite one_same in Hle. unfold takers. lia.
Qed.
Lemma takers_put m j o i : takers (<[j := o]> m) i = takers m i - from_option (λ o, opt o i) 0 (m !! j) + opt o i.
Proof. apply (msum_put (λ o, opt o i)). Qed.
Lemma takers_del m j i : takers (delete j m) i = takers m i - from_option (λ o, opt o i) 0 (m !! j).
Proof. apply (msum_del (λ o, opt o i)). Qed.

(** Counts are right, and only the channel can be alive. *)
Record cinv s : Prop := {
  c_count : counted (objs s) (cown s);
  c_next c x : objs s !! c = Some x → c < next s;
  c_alive c x : objs s !! c = Some x → dead_ x = false → chan_ s = Some c }.

Lemma cown_pos s c : cinv s → 0 ≤ opt (chan_ s) c ∧ 0 ≤ takers (calls s) c.
Proof. split; [apply opt_nonneg|apply takers_nonneg]. Qed.

Lemma cinv_free s : cinv s → cown s (next s) = 0.
Proof.
  intros V. pose proof (c_count _ V (next s)) as H. destruct (objs s !! next s) as [x|] eqn:E; [|done].
  apply (c_next _ V) in E. lia.
Qed.

Lemma connect_ok s h dial :
  cinv s → counted h (takers (calls s)) → wanes (objs s) h → (∀ c x, h !! c = Some x → dead_ x = true) →
  cinv (connect_to_dst dial (mk h (next s) (chan_ s) (calls s))).
Proof.
  intros V Hc Hw Hd. pose proof (cinv_free s V) as Hf. pose proof (cown_pos s (next s) V) as Hp. unfold cown in Hf.
  destruct dial as [[fd now]|]; cbn [connect_to_dst]; split; cbn [objs next chan_ calls].
  - intros i. unfold cown. cbn [objs next chan_ calls opt from_option]. destruct (decide (i = next s)) as [->|Hne].
    + rewrite lookup_insert_eq, one_same. cbn. lia.
    + rewrite lookup_insert_ne, one_other by done. rewrite Z.add_0_l. apply Hc.
  - intros c x [[<- _]|[_ (x0 & Hx0 & _)%Hw]]%lookup_insert_Some; [lia|]. apply (c_next _ V) in Hx0. lia.
  - intros c x [[<- _]|[_ Hx]]%lookup_insert_Some Hx'; [done|]. by rewrite (Hd c x Hx) in Hx'.
  - eapply counted_ext; [exact Hc|]. intros i. done.
  - intros c x (x0 & Hx0 & _)%Hw. by apply (c_next _ V c x0).
  - intros c x Hx Hx'. by rewrite (Hd c x Hx) in Hx'.
Qed.

Lemma get_chan_ok dial s : cinv s →
  ∃ s', get_chan dial s = Done s' ∧ cinv s' ∧ calls s' = calls s ∧
    match chan_ s' with Some c => ∃ x, objs s' !! c = Some x ∧ dead_ x = false | None => dial = None end.
Proof.
  intros V. unfold get_chan. destruct (chan_ s) as [c|] eqn:Hch.
  - assert (Hpos : 0 < cown s c) by (unfold cown; rewrite Hch; cbn; rewrite one_same; pose proof (takers_nonneg (calls s) c); lia).
    destruct (counted_some _ _ c (c_count _ V) Hpos) as (x & Hx & _). unfold isdead, deref. rewrite Hx, !bind_Done.
    destruct (dead_ x) eqn:Hd.
    + destruct (decref_counted (objs s) (cown s) (takers (calls s)) c (c_count _ V) Hpos) as (h & Hdec & Hc & Hst);
        [eauto|intros i; unfold cown; rewrite Hch; cbn; lia|].
      rewrite Hdec, bind_Done. eexists. split; [done|].
      assert (Hdead : ∀ d y, h !! d = Some y → dead_ y = true).
      { intros d y (y0 & Hy0 & _ & _ & ->)%(stays_back _ _ _ _ Hst). destruct (dead_ y0) eqn:E; [done|].
        pose proof (c_alive _ V d y0 Hy0 E). congruence. }
      split; [|split].
      * rewrite <- Hch. apply connect_ok; [done|done|by apply stays_wanes|done].
      * by destruct dial as [[]|].
      * destruct dial as [[fd now]|]; cbn; [|done]. exists (mkConn fd now false 1). by rewrite lookup_insert_eq.
    + exists s. split_and!; [done|done|done|]. rewrite Hch. eauto.
  - eexists. split; [done|]. split; [|split].
    + replace s with (mk (objs s) (next s) (chan_ s) (calls s)) by by destruct s.
      apply connect_ok; [done| |done|].
      * eapply counted_ext; [apply V|]. intros i. unfold cown. by rewrite Hch.
      * intros c x Hx. destruct (dead_ x) eqn:Hd; [done|]. pose proof (c_alive _ V c x Hx Hd). congruence.
    + by destruct dial as [[]|].
    + destruct dial as [[fd now]|]; cbn; [|done]. exists (mkConn fd now false 1). by rewrite lookup_insert_eq.
Qed.

(** A call lets go of its connection. *)
Lemma drop_ok j s : cinv s → is_Some (calls s !! j) →
  ∃ h, match (calls s !! j : option (option Z)) with Some (Some o) => decref (objs s) o | _ => Done (objs s) end = Done h ∧
    counted h (λ i, opt (chan_ s) i + takers (delete j (calls s)) i) ∧ stays (objs s) h.
Proof.
  intros V [o Ho]. rewrite Ho. destruct o as [o|].
  - pose proof (takers_in _ _ _ Ho) as Ht. pose proof (opt_nonneg (chan_ s) o) as Hp.
    apply decref_counted with (own := cown s); [apply V|unfold cown; lia| |].
    + intros H1. destruct (counted_some _ _ o (c_count _ V)) as (x & Hx & _); [lia|]. exists x. split; [done|].
      destruct (dead_ x) eqn:Hd; [done|]. pose proof (c_alive _ V o x Hx Hd) as E. unfold cown in H1. rewrite E in H1. cbn in H1. rewrite one_same in H1. lia.
    + intros i. rewrite takers_del, Ho. unfold cown. cbn [from_option opt]. lia.
  - exists (objs s). split; [done|]. split; [|done]. eapply counted_ext; [apply V|].
    intros i. rewrite takers_del, Ho. unfold cown. cbn [from_option opt]. lia.
Qed.

Lemma take_chan_ok j s : cinv s → is_Some (calls s !! j) →
  ∃ s', take_chan j s = Done s' ∧ cinv s' ∧ chan_ s' = chan_ s ∧ stays (objs s) (objs s') ∧
    calls s' !! j = match chan_ s with Some c => Some (Some c) | None => calls s !! j end.
Proof.
  intros V Hj. unfold take_chan. destruct (chan_ s) as [n|] eqn:Hch; [|by exists s].
  destruct (drop_ok j s V Hj) as (h & Hd & Hc & Hst). rewrite Hd, bind_Done.
  destruct (incref_counted h _ (λ i, opt (chan_ s) i + takers (<[j := Some n]> (calls s)) i) n Hc) as (h' & Hi & Hc' & Hst').
  { cbv beta. rewrite Hch. cbn. rewrite one_same. pose proof (takers_nonneg (delete j (calls s)) n). lia. }
  { intros i. cbv beta. rewrite takers_put, takers_del. cbn [opt from_option]. lia. }
  rewrite Hi, bind_Done. eexists. split; [done|]. assert (Hs : stays (objs s) h') by by etrans.
  split; [split; cbn|split; [done|split; [done|cbn; apply lookup_insert_eq]]].
  - rewrite Hch in Hc'. exact Hc'.
  - intros c x (x0 & Hx0 & _)%(stays_back _ _ _ _ Hs). by apply (c_next _ V c x0).
  - intros c x (x0 & Hx0 & _ & _ & E)%(stays_back _ _ _ _ Hs) Hx. rewrite <- Hch. apply (c_alive _ V c x0); congruence.
Qed.

Lemma clt_step_ok e s : cinv s → possible s e = true → ∃ s', step e s = Done s' ∧ cinv s'.
Proof.
  intros V Hp. destruct e as [j|j dial|j|c|]; cbn [step possible] in *; apply bool_decide_eq_true in Hp.
  - eexists. split; [done|]. destruct V as [V1 V2 V3]. split; cbn; [|done|done].
    eapply counted_ext; [exact V1|]. intros i. unfold cown. cbn [chan_ calls call_begin]. rewrite takers_put, Hp. cbn [from_option opt]. lia.
  - unfold get_refconn. destruct (get_chan_ok dial s V) as (s1 & -> & V1 & E & _). rewrite bind_Done.
    destruct (take_chan_ok j s1 V1) as (s2 & -> & V2 & _); [by rewrite E|]. eauto.
  - unfold call_end. destruct (drop_ok j s V Hp) as (h & Hd & Hc & Hst). rewrite Hd, bind_Done.
    eexists. split; [done|]. split; cbn; [exact Hc| |].
    + intros c x (x0 & Hx0 & _)%(stays_back _ _ _ _ Hst). by apply (c_next _ V c x0).
    + intros c x (x0 & Hx0 & _ & _ & E)%(stays_back _ _ _ _ Hst) Hx. apply (c_alive _ V c x0); congruence.
  - destruct Hp as [x Hx]. destruct (closeconn_counted _ _ c x (c_count _ V) Hx) as [-> Hc]. rewrite bind_Done.
    eexists. split; [done|]. pose proof (wanes_close _ c x Hx) as Hw. split; cbn; [exact Hc| |].
    + intros d y (y0 & Hy0 & _)%Hw. by apply (c_next _ V d y0).
    + intros d y (y0 & Hy0 & _ & _ & E)%Hw Hd. apply (c_alive _ V d y0); [done|]. destruct (dead_ y0); [|done]. by rewrite E in Hd.
  - unfold destroy. destruct (chan_ s) as [c|] eqn:Hch; [|eauto].
    assert (Hpos : 0 < cown s c) by (unfold cown; rewrite Hch; cbn; rewrite one_same; pose proof (takers_nonneg (calls s) c); lia).
    destruct (counted_some _ _ c (c_count _ V) Hpos) as (x & Hx & _).
    destruct (closeconn_counted _ _ c x (c_count _ V) Hx) as [-> Hc]. rewrite bind_Done.
    destruct (decref_counted _ _ (takers (calls s)) c Hc Hpos) as (h & Hd & Hc' & Hst);
      [intros _; exists (set_dead x); by rewrite lookup_insert_eq|intros i; unfold cown; rewrite Hch; cbn; lia|].
    rewrite Hd, bind_Done. eexists. split; [done|].
    assert (Hw : wanes (objs s) h) by (etrans; [by eapply wanes_close|by apply stays_wanes]).
    split; cbn; [exact Hc'| |].
    + intros d y (y0 & Hy0 & _)%Hw. by apply (c_next _ V d y0).
    + intros d y Hy Hd'. exfalso. destruct (stays_back _ _ _ _ Hst Hy) as (y0 & Hy0 & _ & _ & E).
      apply lookup_insert_Some in Hy0 as [[<- <-]|[Hne Hy0]]; [cbn in E; congruence|].
      assert (Ed : dead_ y0 = false) by congruence. pose proof (c_alive _ V d y0 Hy0 Ed). congruence.
Qed.

Lemma reach_cinv s : reach s → cinv s.
Proof.
  induction 1 as [|s e s' _ V Hp Hs].
  - split; cbn; [intros c; change (objs make) with (∅ : heap); by rewrite lookup_empty|done|done].
  - destruct (clt_step_ok e s V Hp) as (s1 & H1 & V1). congruence.
Qed.

(** Calls of a client share one channel: whatever connections die and whatever
    connecting says, no pointer of a call or of the client dangles and every count
    is right; asking for a connection gives the call the channel, which is alive,
    whenever there is one or connecting works, and otherwise leaves the call with
    what it had. *)
Theorem calls_share_channel s e :
  reach s → possible s e = true →
  ∃ s', step e s = Done s' ∧
    (∀ c, match objs s' !! c with Some x => refno_ x = cown s' c ∧ 0 < cown s' c | None => cown s' c = 0 end) ∧
    ∀ j dial, e = Refconn j dial →
      match chan_ s' with
      | Some c => calls s' !! j = Some (Some c) ∧ ∃ x, objs s' !! c = Some x ∧ dead_ x = false
      | None => dial = None ∧ calls s' !! j = calls s !! j
      end.
Proof.
  intros V%reach_cinv Hp. destruct (clt_step_ok e s V Hp) as (s' & Hs & V'). exists s'. split; [done|]. split; [apply V'|].
  intros j dial ->. cbn [possible] in Hp. apply bool_decide_eq_true in Hp. revert Hs. cbn [step]. unfold get_refconn.
  destruct (get_chan_ok dial s V) as (s1 & -> & V1 & E & H1). rewrite bind_Done.
  destruct (take_chan_ok j s1 V1) as (s2 & -> & V2 & Ech & Hst & Ej); [by rewrite E|]. intros [= <-].
  rewrite Ech, Ej. destruct (chan_ s1) as [c|] eqn:Hch; [|by rewrite E].
  split; [done|]. destruct H1 as (x & Hx & Hd). destruct (stays_alive _ _ _ _ Hst Hx Hd) as (x' & Hx' & _ & _ & Hd'). eauto.
Qed.

End client.

Lemma calls_share_channel_witness :
  ∃ s', clt.step (clt.Refconn 3 (Some (9, (1, 1)))) (clt.call_begin 3 clt.make) = Done s' ∧ clt.calls s' !! 3 = Some (Some 0).
Proof.
  destruct (calls_share_channel (clt.call_begin 3 clt.make) (clt.Refconn 3 (Some (9, (1, 1))))) as (s' & Hs & _ & H).
  - by apply (clt.reach_step clt.make (clt.Call 3)); [constructor|vm_compute|].
  - by vm_compute.
  - exists s'. split; [done|]. specialize (H 3 _ eq_refl). vm_compute in Hs. injection Hs as <-. exact (proj1 H).
Defined.
