(* ===== verification/RpcStub.v ===== *)
(** * Typed remote calls (src/include/rpc/rpc.h, src/rpc/rpc.cc)

    What [rpcc::call] and [rpcs::reg] make of a call: the arguments are
    marshalled, framed, unmarshalled by the handler object of the procedure, and
    the result comes back the same way.  A call is run here from its beginning to
    its end over a connection that loses nothing: the request is dispatched, its
    reply given to [got_pdu], and the caller woken.  What the parts do when
    messages are lost, repeated or late is in RpcServer.v and RpcClient.v. *)

From S2P Require Import Prelude StdContainers ExtentServer Marshall RpcServer RpcClient Connection ConnSend.

Definition unmarshal_args_failure : Z := -2.

(** No argument. *)
Definition unit_ : codec unit := mkCodec (λ _ m, Done m) (λ u, Done (tt, u)).

(** ** The server side *)

Section stub.
Context {S : Type}.

(** [handler::fn] on the object: the return value, what is marshalled as
    reply, and the object afterwards. *)
Definition handler : Type := S → unm → mar → outcome (Z * mar * S).

(** A method: the object, the arguments, what [R r] holds before. *)
Definition fn {A R} (c : codec A) (d : codec R) (r0 : R) (meth : S → A → R → outcome (Z * R * S)) : handler :=
  λ s args ret,
    '(a, args) ← get c args;
    if negb (okdone args) then Done (unmarshal_args_failure, ret, s)
    else
      '(b, r, s) ← meth s a r0;
      ret ← put d r ret; Done (b, ret, s).

Context {A1 A2 A3 A4 A5 A6 A7 R : Type}.
Context (c1 : codec A1) (c2 : codec A2) (c3 : codec A3) (c4 : codec A4) (c5 : codec A5) (c6 : codec A6) (c7 : codec A7).
Context (d : codec R) (r0 : R).

(** The templates of [reg], by the number of arguments. *)
Definition fn1 (meth : S → A1 → R → outcome (Z * R * S)) : handler := fn c1 d r0 meth.
Definition fn2 (meth : S → A1 → A2 → R → outcome (Z * R * S)) : handler :=
  fn (pair_ c1 c2) d r0 (λ s '(a1, a2), meth s a1 a2).
Definition fn3 (meth : S → A1 → A2 → A3 → R → outcome (Z * R * S)) : handler :=
  fn (pair_ c1 (pair_ c2 c3)) d r0 (λ s '(a1, (a2, a3)), meth s a1 a2 a3).
Definition fn4 (meth : S → A1 → A2 → A3 → A4 → R → outcome (Z * R * S)) : handler :=
  fn (pair_ c1 (pair_ c2 (pair_ c3 c4))) d r0 (λ s '(a1, (a2, (a3, a4))), meth s a1 a2 a3 a4).
Definition fn5 (meth : S → A1 → A2 → A3 → A4 → A5 → R → outcome (Z * R * S)) : handler :=
  fn (pair_ c1 (pair_ c2 (pair_ c3 (pair_ c4 c5)))) d r0 (λ s '(a1, (a2, (a3, (a4, a5)))), meth s a1 a2 a3 a4 a5).
Definition fn6 (meth : S → A1 → A2 → A3 → A4 → A5 → A6 → R → outcome (Z * R * S)) : handler :=
  fn (pair_ c1 (pair_ c2 (pair_ c3 (pair_ c4 (pair_ c5 c6))))) d r0
     (λ s '(a1, (a2, (a3, (a4, (a5, a6))))), meth s a1 a2 a3 a4 a5 a6).
Definition fn7 (meth : S → A1 → A2 → A3 → A4 → A5 → A6 → A7 → R → outcome (Z * R * S)) : handler :=
  fn (pair_ c1 (pair_ c2 (pair_ c3 (pair_ c4 (pair_ c5 (pair_ c6 c7)))))) d r0
     (λ s '(a1, (a2, (a3, (a4, (a5, (a6, a7)))))), meth s a1 a2 a3 a4 a5 a6 a7).

End stub.
Arguments handler : clear implicits.

(** A server with its handler objects, all for one object. *)
Record server (S : Type) : Type := mkServer { base : rpcs.t; handlers : gmap Z (handler S); object : S }.
Arguments mkServer {_} _ _ _.
Arguments base {_} _.
Arguments handlers {_} _.
Arguments object {_} _.

Section calls.
Context {S : Type}.

(** [reg1] *)
Definition reg (p : Z) (h : handler S) (sv : server S) : outcome (server S) :=
  b ← rpcs.reg1 (base sv) p; Done (mkServer b (<[p := h]> (handlers sv)) (object sv)).

(** The handler object of [rpcbind]. *)
Definition bind_handler (nonce : Z) : handler S := fn1 i32 i32 0 (λ s a _, Done (0, nonce, s)).

(** The constructor registers it. *)
Definition server_make (nonce count : Z) (s : S) : outcome (server S) :=
  reg bind_proc (bind_handler nonce)
      (mkServer (rpcs.mk nonce ∅ ∅ 1 ∅ count count ∅) ∅ s).

(** [dispatch] of one message, and the message sent back. *)
Definition dispatch (sv : server S) (b : bytes) : outcome (option bytes * server S) :=
  let '(h, req) := unpack_req_header (unm_of b) in
  '(n, srv) ← rpcs.dispatch_begin (base sv) h (u_ok req);
  match n with
  | rpcs.Drop => Done (None, mkServer srv (handlers sv) (object sv))
  | rpcs.Send_header ret =>
      rep ← pack_reply_header (mkRep (xid h) ret) mar_new;
      Done (Some (data rep), mkServer srv (handlers sv) (object sv))
  | rpcs.Resend b1 _ =>
      '(reply, srv) ← rpcs.dispatch_send srv (clt_nonce h) b1;
      Done (Some reply, mkServer srv (handlers sv) (object sv))
  | rpcs.Run =>
      match (handlers sv !! proc h : option (handler S)) with
      | None => Throws
      | Some f =>
          '(ret, rep, obj) ← f (object sv) req mar_new;
          '(b1, _, srv) ← rpcs.dispatch_reply srv (clt_nonce h) (wrap32 (xid h)) ret rep;
          '(reply, srv) ← rpcs.dispatch_send srv (clt_nonce h) b1;
          Done (Some reply, mkServer srv (handlers sv) obj)
      end
  end.

(** ** The client side *)

(** Messages go to the server, and what it sends back to the client. *)
Fixpoint exchange (cl : rpcc.t) (sv : server S) (msgs : list bytes) : outcome (rpcc.t * server S) :=
  match msgs with
  | [] => Done (cl, sv)
  | m :: msgs =>
      '(r, sv) ← dispatch sv (frame m);
      cl ← match r with None => Done cl | Some r => rpcc.got_pdu cl (frame r) end;
      exchange cl sv msgs
  end.

(** A default [unmarshall]. *)
Definition unm_none : unm := mkUnm [] 0 false.

(** [call1], when its first wait ends with the reply. *)
Definition call1 (cl : rpcc.t) (sv : server S) (p : Z) (req : mar) : outcome (Z * unm * rpcc.t * server S) :=
  '(r, cl) ← rpcc.call1_begin cl p req;
  match r with
  | inl e => Done (e, unm_none, cl, sv)
  | inr (x, rep, req) =>
      let '(msgs, cl) := rpcc.transmit cl (data req) in
      '(cl, sv) ← exchange cl sv msgs;
      let u := from_option rpcc.un (unm_none) (rpcc.calls_ cl !! sgn 32 x) in
      '(ret, cl) ← rpcc.call1_finish cl x rep (data req);
      Done (ret, u, cl, sv)
  end.

(** [call] with its arguments marshalled by [c]: what [call_m] returns. *)
Definition call {A R} (c : codec A) (d : codec R) (cl : rpcc.t) (sv : server S) (p : Z) (a : A) :
    outcome (Z * option R * rpcc.t * server S) :=
  m ← put c a mar_new;
  '(ret, u, cl, sv) ← call1 cl sv p m;
  '(ret, r) ← rpcc.call_m d ret u;
  Done (ret, r, cl, sv).

(** [bind] *)
Definition bind (cl : rpcc.t) (sv : server S) : outcome (Z * rpcc.t * server S) :=
  '(ret, r, cl, sv) ← call i32 i32 cl sv bind_proc 0;
  Done (ret, rpcc.bind_return cl ret (wrap32 (default 0 r)), sv).

Context {A1 A2 A3 A4 A5 A6 A7 R : Type}.
Context (c1 : codec A1) (c2 : codec A2) (c3 : codec A3) (c4 : codec A4) (c5 : codec A5) (c6 : codec A6) (c7 : codec A7).
Context (d : codec R) (cl : rpcc.t) (sv : server S) (p : Z).

(** The templates of [call], by the number of arguments. *)
Definition call_0 := call unit_ d cl sv p tt.
Definition call_1 a1 := call c1 d cl sv p a1.
Definition call_2 a1 a2 := call (pair_ c1 c2) d cl sv p (a1, a2).
Definition call_3 a1 a2 a3 := call (pair_ c1 (pair_ c2 c3)) d cl sv p (a1, (a2, a3)).
Definition call_4 a1 a2 a3 a4 := call (pair_ c1 (pair_ c2 (pair_ c3 c4))) d cl sv p (a1, (a2, (a3, a4))).
Definition call_5 a1 a2 a3 a4 a5 :=
  call (pair_ c1 (pair_ c2 (pair_ c3 (pair_ c4 c5)))) d cl sv p (a1, (a2, (a3, (a4, a5)))).
Definition call_6 a1 a2 a3 a4 a5 a6 :=
  call (pair_ c1 (pair_ c2 (pair_ c3 (pair_ c4 (pair_ c5 c6))))) d cl sv p (a1, (a2, (a3, (a4, (a5, a6))))).
Definition call_7 a1 a2 a3 a4 a5 a6 a7 :=
  call (pair_ c1 (pair_ c2 (pair_ c3 (pair_ c4 (pair_ c5 (pair_ c6 c7)))))) d cl sv p
    (a1, (a2, (a3, (a4, (a5, (a6, a7)))))).

End calls.

#[export] Program Instance unit_laws : CodecLaws unit_ := {| enc _ := []; wf _ := True |}.
Next Obligation. intros [] m _ Hm _. exists (capa m). rewrite app_nil_r. by destruct m. Qed.
Next Obligation. intros [] a b _ _. cbn. by rewrite Z.add_0_r. Qed.

(** ** Client and server agree *)

Section sync.
Context {S : Type}.
Implicit Types (cl : rpcc.t) (sv : server S).

(** No call is on its way.  [ex] are the requests whose handlers have run; those
    of this client have ids it has issued, the client may use its number for the
    server, and every handler object is registered. *)
Record in_sync (ex : list (Z * Z)) cl sv : Prop := {
  y_cli : ∃ ans, window_ok ans (rpcc.xid_rep_window_ cl) ∧ ∀ x, x ∈ ans → 0 < x < rpcc.xid_ cl;
  y_srv : ∃ fin, inv (base sv) ∅ ex fin;
  y_ids : ∀ x, (rpcc.clt_nonce_ cl, x) ∈ ex → x < rpcc.xid_ cl;
  y_xid : 1 ≤ rpcc.xid_ cl;
  y_nonce : 0 < rpcc.clt_nonce_ cl < 2 ^ 32;
  y_snonce : rpcc.srv_nonce_ cl = 0 ∨ rpcc.srv_nonce_ cl = rpcs.nonce_ (base sv);
  y_srange : 0 ≤ rpcs.nonce_ (base sv) < 2 ^ 32;
  y_alive : rpcc.destroy_wait_ cl = false;
  y_quiet : rpcc.lossytest_ cl = false ∧ rpcc.isvalid (rpcc.dup_req_ cl) = false;
  y_procs : ∀ p h, handlers sv !! p = Some h → p ∈ rpcs.procs_ (base sv);
}.

Lemma remember_block s c x reply b s' :
  rpcs.dispatch_remember s c x reply = Done (b, s') →
  rpcs.heap s' !! b = Some reply ∧ rpcs.nonce_ s' = rpcs.nonce_ s ∧ rpcs.procs_ s' = rpcs.procs_ s.
Proof.
  unfold rpcs.dispatch_remember. destruct (0 <? c).
  - intros [s1 [H1 [= <- <-]]]%bind_Done_inv. revert H1. unfold rpcs.add_reply.
    destruct (rpcs.window _ _); [done|]. intros [= <-]. cbn. by rewrite lookup_insert_eq.
  - intros [= <- <-]. cbn. by rewrite lookup_insert_eq.
Qed.

(** A request that was not seen before runs its handler. *)
Lemma begin_new srv ex fin h :
  inv srv ∅ ex fin → proc h ∈ rpcs.procs_ srv → srv_nonce h = 0 ∨ srv_nonce h = rpcs.nonce_ srv →
  (∀ x, (clt_nonce h, x) ∈ ex → x < wrap32 (xid h)) →
  ∃ srv', rpcs.dispatch_begin srv h true = Done (rpcs.Run, srv') ∧ inv srv' ∅ ((clt_nonce h, wrap32 (xid h)) :: ex) fin ∧
    rpcs.nonce_ srv' = rpcs.nonce_ srv ∧ rpcs.procs_ srv' = rpcs.procs_ srv.
Proof.
  intros I Hp Hn Hnew. destruct (dispatch_begin_spec srv ∅ ex fin h I Hp Hn) as (n & srv' & Hb & Hpost).
  assert (Hout : (clt_nonce h, wrap32 (xid h)) ∉ ex) by (intros Hx%Hnew; lia).
  destruct (begin_keeps _ _ _ _ _ Hb) as (Hk1 & Hk2 & _). unfold begin_post in Hpost.
  destruct n; [| |by exists srv'; destruct Hpost|]; exfalso.
  - destruct Hpost as (_ & _ & Hx & _). done.
  - destruct Hpost as (_ & _ & _ & y & Hy%Hnew & Hlt). lia.
  - destruct Hpost as (_ & _ & reply & Hf & _). by apply Hout, (i_fin _ _ _ _ I _ _ reply).
Qed.

(** From the handler's return to the send. *)
Lemma reply_sent srv ex fin c x ret rep m :
  inv srv ∅ ex fin → 0 < c → (c, x) ∈ ex → (∀ reply, (c, x, reply) ∉ fin) →
  0 ≤ ret → pack_reply_header (mkRep (sgn 32 x) ret) rep = Done m →
  ∃ b srv' srv'' fin', rpcs.dispatch_reply srv c x ret rep = Done (b, data m, srv') ∧
    rpcs.dispatch_send srv' c b = Done (data m, srv'') ∧ inv srv'' ∅ ex fin' ∧
    rpcs.nonce_ srv'' = rpcs.nonce_ srv ∧ rpcs.procs_ srv'' = rpcs.procs_ srv.
Proof.
  intros I Hc Hx Hf Hret Hm.
  assert (I1 : inv srv {[0%nat := Running c x 0]} ex fin).
  { apply (inv_workers srv ∅ ex fin 0 (Running c x 0) I). split_and!; [lia|done|]. intros _. split; [done|].
    intros t p'. by rewrite lookup_empty. }
  destruct (dispatch_remember_spec srv _ ex fin 0 c x 0 (data m) I1 (lookup_singleton_eq _ _)) as (b & srv' & Hr & I2).
  destruct (remember_block _ _ _ _ _ _ Hr) as (Hb & Hn & Hp).
  exists b, srv', srv', ((c, x, data m) :: fin). split_and!; [| | |done|done].
  - unfold rpcs.dispatch_reply. test_true. cbn [ensure]. by rewrite bind_Done, Hm, bind_Done, Hr.
  - unfold rpcs.dispatch_send. rewrite Hb. by test_false.
  - apply (inv_idle _ _ _ _ 0) in I2. by rewrite insert_singleton_eq, delete_singleton_eq in I2.
Qed.

(** What a message is on the wire. *)
Lemma frame_message n ws (body : bytes) : length n = 4%nat →
  ∃ n', length n' = 4%nat ∧ frame (n ++ ws ++ body) = n' ++ ws ++ body.
Proof.
  intros Hn. eexists. split; [apply length_i32_bytes|]. unfold frame. by rewrite drop_app_length' by lia.
Qed.

Definition zeros (n : nat) : bytes := replicate n Byte.x00.

(** A reply with the value [r], as bytes. *)
Definition reply_bytes {R} (d : codec R) `{!CodecLaws d} (x ret : Z) (r : R) : bytes :=
  zeros 4 ++ concat (be32_bytes <$> [x; ret]) ++ zeros 12 ++ enc d r.

(** A new request is unpacked and given to the handler object of its procedure. *)
Lemma dispatch_handler {A} (c : codec A) `{!CodecLaws c} (f : handler S) sv ex fin h a :
  inv (base sv) ∅ ex fin → proc h ∈ rpcs.procs_ (base sv) →
  srv_nonce h = 0 ∨ srv_nonce h = rpcs.nonce_ (base sv) → (∀ x, (clt_nonce h, x) ∈ ex → x < wrap32 (xid h)) →
  req_header_wf h → handlers sv !! proc h = Some f → wf c a → zlen (enc c a) < 2 ^ 29 →
  ∃ m1 req srv1 hd, put c a mar_new = Done m1 ∧ pack_req_header h m1 = Done req ∧ length hd = 24%nat ∧
    inv srv1 ∅ ((clt_nonce h, wrap32 (xid h)) :: ex) fin ∧
    rpcs.nonce_ srv1 = rpcs.nonce_ (base sv) ∧ rpcs.procs_ srv1 = rpcs.procs_ (base sv) ∧
    dispatch sv (frame (data req)) =
      ('(ret, rep, obj) ← f (object sv) (mkUnm (hd ++ enc c a) RPC_HEADER_SZ true) mar_new;
       '(b1, _, srv) ← rpcs.dispatch_reply srv1 (clt_nonce h) (wrap32 (xid h)) ret rep;
       '(reply, srv) ← rpcs.dispatch_send srv (clt_nonce h) b1;
       Done (Some reply, mkServer srv (handlers sv) obj)).
Proof.
  intros I Hp Hn Hnew Hh Hf Ha Hal.
  destruct (message_bytes c a [xid h; proc h; clt_nonce h; srv_nonce h; xid_rep h]) as (m1 & cap & Hput & _ & Hpack);
    [done|done|cbn; lia|].
  destruct (begin_new (base sv) ex fin h I Hp Hn Hnew) as (srv1 & Hb & I1 & Hn1 & Hp1).
  set (ws := concat (be32_bytes <$> [xid h; proc h; clt_nonce h; srv_nonce h; xid_rep h])) in *.
  destruct (frame_message (zeros 4) ws (enc c a) eq_refl) as (n' & Hn' & Hfr).
  eexists m1, _, srv1, (n' ++ ws). split; [done|]. split; [exact Hpack|].
  split; [unfold ws; by rewrite length_app, Hn'|]. split; [done|]. split; [done|]. split; [done|].
  match goal with |- context [data (mkMar ?l cap)] => change (data (mkMar l cap)) with (zeros 4 ++ ws ++ enc c a) end.
  rewrite Hfr. unfold dispatch. pose proof (unpack_req_ok h n' (enc c a) Hh Hn') as Hu. cbn zeta in Hu. fold ws in Hu.
  rewrite Hu. cbn [u_ok]. rewrite Hb, bind_Done. cbv beta iota. by rewrite Hf, <- app_assoc.
Qed.

(** The server runs the method on the arguments and sends its result. *)
Lemma dispatch_run {A R} (c : codec A) (d : codec R) `{!CodecLaws c, !CodecLaws d} (r0 : R) meth sv ex fin h a ret r obj :
  inv (base sv) ∅ ex fin → proc h ∈ rpcs.procs_ (base sv) →
  srv_nonce h = 0 ∨ srv_nonce h = rpcs.nonce_ (base sv) → (∀ x, (clt_nonce h, x) ∈ ex → x < wrap32 (xid h)) →
  0 < clt_nonce h → req_header_wf h → 0 ≤ xid h →
  handlers sv !! proc h = Some (fn c d r0 meth : handler S) → meth (object sv) a r0 = Done (ret, r, obj) →
  wf c a → zlen (enc c a) < 2 ^ 29 → wf d r → zlen (enc d r) < 2 ^ 29 → 0 ≤ ret →
  ∃ m1 req srv fin', put c a mar_new = Done m1 ∧ pack_req_header h m1 = Done req ∧
    dispatch sv (frame (data req)) = Done (Some (reply_bytes d (xid h) ret r), mkServer srv (handlers sv) obj) ∧
    inv srv ∅ ((clt_nonce h, xid h) :: ex) fin' ∧
    rpcs.nonce_ srv = rpcs.nonce_ (base sv) ∧ rpcs.procs_ srv = rpcs.procs_ (base sv).
Proof.
  intros I Hp Hn Hnew Hc Hh Hx Hfn Hm Ha Hal Hr Hrl Hret.
  assert (Hxid : wrap32 (xid h) = xid h) by (apply wrap_small; destruct Hh; lia).
  assert (Hsgn : sgn 32 (xid h) = xid h) by (apply sgn_small; destruct Hh; lia).
  destruct (message_bytes d r [xid h; ret]) as (m2 & cap2 & Hput2 & _ & Hpack2); [done|done|cbn; lia|].
  destruct (dispatch_handler c _ sv ex fin h a I Hp Hn Hnew Hh Hfn Ha Hal)
    as (m1 & req & srv1 & hd & Hput & Hpack & Hhd & I1 & Hn1 & Hp1 & Hdis). rewrite Hxid in *.
  assert (Hnf : ∀ reply, (clt_nonce h, xid h, reply) ∉ fin).
  { intros reply Hf%(i_fin _ _ _ _ I). apply Hnew in Hf. lia. }
  assert (Hpack3 : pack_reply_header (mkRep (sgn 32 (xid h)) ret) m2 = Done (mkMar (reply_bytes d (xid h) ret r) cap2))
    by (unfold pack_reply_header; cbn [r_xid r_ret]; rewrite Hsgn; exact Hpack2).
  destruct (reply_sent srv1 ((clt_nonce h, xid h) :: ex) fin (clt_nonce h) (xid h) ret m2 _ I1 Hc ltac:(by left) Hnf Hret Hpack3)
    as (b & srv2 & srv3 & fin' & Hrep & Hsend & I3 & Hn3 & Hp3).
  exists m1, req, srv3, fin'. split; [done|]. split; [exact Hpack|]. split; [|split; [done|]; split; congruence].
  rewrite Hdis. destruct (read_body c a hd) as (u & Hget & Hdone); [done..|].
  unfold fn. rewrite Hget, bind_Done. cbv beta iota. rewrite Hdone. cbn [negb].
  rewrite Hm, bind_Done. cbv beta iota. rewrite Hput2, !bind_Done. cbv beta iota.
  rewrite Hrep, bind_Done. cbv beta iota. by rewrite Hsend, bind_Done.
Qed.

(** The client takes the reply of an outstanding call. *)
Lemma reply_received {R} (d : codec R) `{!CodecLaws d} cl ans x ret r ca :
  window_ok ans (rpcc.xid_rep_window_ cl) → 0 < x < 2 ^ 31 → 0 ≤ ret < 2 ^ 31 →
  rpcc.calls_ cl !! x = Some ca → rpcc.done_ ca = false → wf d r → zlen (enc d r) < 2 ^ 29 →
  ∃ w u u', rpcc.got_pdu cl (frame (reply_bytes d x ret r)) =
      Done (rpcc.set_calls (<[x := rpcc.mkCaller true ret u]> (rpcc.calls_ cl)) (rpcc.set_window w cl)) ∧
    window_ok (x :: ans) w ∧ get d u = Done (r, u') ∧ okdone u' = true.
Proof.
  intros Hw Hx Hret Hca Hdone Hr Hrl.
  destruct (update_xid_rep_ok cl ans x Hw Hx) as (w & Hup & Hw').
  set (ws := concat (be32_bytes <$> [x; ret])).
  destruct (frame_message (zeros 4) ws (zeros 12 ++ enc d r) eq_refl) as (n & Hn & Hf).
  destruct (read_body d r (n ++ ws ++ zeros 12)) as (u & Hget & Hok);
    [done|done|unfold ws, zeros; rewrite !length_app, Hn, length_replicate; done|].
  rewrite <- !app_assoc in Hget.
  exists w, (mkUnm (n ++ ws ++ zeros 12 ++ enc d r) RPC_HEADER_SZ true), u.
  split; [|done]. unfold reply_bytes. fold ws. rewrite Hf. unfold rpcc.got_pdu.
  pose proof (unpack_rep_ok (mkRep x ret) n (zeros 12 ++ enc d r) ltac:(split; cbn; lia) Hn) as Hu.
  cbn zeta in Hu. cbn [r_xid r_ret] in Hu. fold ws in Hu. rewrite Hu. cbn [u_ok negb r_xid r_ret].
  rewrite (wrap_small 32 x), Hup, bind_Done by lia. cbv beta iota.
  change (rpcc.calls_ (rpcc.set_window w cl)) with (rpcc.calls_ cl). rewrite Hca, Hdone.
  unfold take_in. cbn [u_buf].
  assert ((RPC_HEADER_SZ <=? zlen (n ++ ws ++ zeros 12 ++ enc d r)) = true) as ->; [|done].
  apply Z.leb_le. unfold RPC_HEADER_SZ, ws, zeros. rewrite !length_app, length_replicate, Hn. cbn. lia.
Qed.

(** The client after the first section of [call1]. *)
Definition begun cl : rpcc.t :=
  rpcc.mk (rpcc.clt_nonce_ cl) (rpcc.srv_nonce_ cl) (rpcc.bind_done_ cl) (rpcc.xid_ cl + 1) (rpcc.lossytest_ cl)
    (rpcc.retrans_ cl) (rpcc.destroy_wait_ cl) (<[rpcc.xid_ cl := rpcc.mkCaller false 0 unm_none]> (rpcc.calls_ cl))
    (rpcc.xid_rep_window_ cl) (rpcc.dup_req_ cl) (rpcc.xid_rep_done_ cl).

(** Its request is numbered, packed and sent once. *)
Lemma call_begun ex cl sv p :
  in_sync ex cl sv → rpcc.xid_ cl < 2 ^ 31 - 1 → (p =? bind_proc) = negb (rpcc.bind_done_ cl) → - 2 ^ 31 ≤ p < 2 ^ 31 →
  ∃ f, let h := mkReq (rpcc.xid_ cl) p (rpcc.clt_nonce_ cl) (rpcc.srv_nonce_ cl) f in
    req_header_wf h ∧ ∀ m1 req, pack_req_header h m1 = Done req →
      rpcc.call1_begin cl p m1 = Done (inr (rpcc.xid_ cl, f, req), begun cl) ∧
      rpcc.transmit (begun cl) (data req) = ([data req], begun cl).
Proof.
  intros [(ans & (f & ps & Ewin & W) & Hans) _ Hex Hx1 Hnc Hsn Hsr Hal [Hl Hq] Hpr] Hx Hb Hp.
  assert (Hf : 0 ≤ f < 2 ^ 31) by (apply (w_pos _ _ _ _ W); set_solver).
  exists f. intros h. split; [|intros m1 req Hpack; split].
  - repeat split; cbn [xid proc clt_nonce srv_nonce xid_rep h]; try lia; destruct Hsn as [-> | ->]; lia.
  - unfold rpcc.call1_begin, rpcc.front, begun. rewrite Hb, negb_involutive, Hal, Ewin.
    destruct (rpcc.bind_done_ cl); cbn [andb orb negb]; rewrite bind_Done,
      (sgn_small 32 (rpcc.xid_ cl)), (sgn_wrap 32 p), (sgn_small 32 f) by lia;
      fold h; rewrite Hpack, bind_Done; by rewrite (wrap_small 32 (rpcc.xid_ cl + 1)) by lia.
  - unfold rpcc.transmit. change (rpcc.dup_req_ (begun cl)) with (rpcc.dup_req_ cl). by rewrite Hq.
Qed.

(** A typed call runs the method once, and returns what it returns. *)
Lemma call_ok {A R} (c : codec A) (d : codec R) `{!CodecLaws c, !CodecLaws d} (r0 : R) meth ex cl sv p a ret r obj :
  in_sync ex cl sv → rpcc.xid_ cl < 2 ^ 31 - 1 → (p =? bind_proc) = negb (rpcc.bind_done_ cl) → - 2 ^ 31 ≤ p < 2 ^ 31 →
  handlers sv !! p = Some (fn c d r0 meth : handler S) → meth (object sv) a r0 = Done (ret, r, obj) →
  wf c a → zlen (enc c a) < 2 ^ 29 → wf d r → zlen (enc d r) < 2 ^ 29 → 0 ≤ ret < 2 ^ 31 →
  ∃ cl' sv', call c d cl sv p a = Done (ret, Some r, cl', sv') ∧
    in_sync ((rpcc.clt_nonce_ cl, rpcc.xid_ cl) :: ex) cl' sv' ∧
    object sv' = obj ∧ handlers sv' = handlers sv ∧ rpcs.nonce_ (base sv') = rpcs.nonce_ (base sv) ∧
    rpcc.xid_ cl' = rpcc.xid_ cl + 1 ∧ rpcc.bind_done_ cl' = rpcc.bind_done_ cl ∧
    rpcc.clt_nonce_ cl' = rpcc.clt_nonce_ cl.
Proof.
  intros Hy Hx Hb Hp Hfn Hm Ha Hal' Hr Hrl Hret. destruct (call_begun ex cl sv p Hy Hx Hb Hp) as (f & Hh & Hbegun).
  destruct Hy as [(ans & Hw & Hans) (fin & I) Hex Hx1 Hnc Hsn Hsr Hal [Hl Hq] Hpr]. set (x := rpcc.xid_ cl) in *.
  set (h := mkReq x p (rpcc.clt_nonce_ cl) (rpcc.srv_nonce_ cl) f) in *.
  assert (Hxs : sgn 32 x = x) by (apply sgn_small; lia).
  assert (Hxw : wrap32 x = x) by (apply wrap_small; lia).
  destruct (dispatch_run c d r0 meth sv ex fin h a ret r obj I) as (m1 & req & srv & fin' & Hput & Hpack & Hdis & I' & Hn' & Hp');
    cbn [proc srv_nonce clt_nonce xid h]; rewrite ?Hxw; try done; try lia.
  { by eapply Hpr. }
  change (xid h) with x in Hdis, I'. change (clt_nonce h) with (rpcc.clt_nonce_ cl) in I'.
  destruct (Hbegun m1 req Hpack) as [Hbegin Hsend]. clear Hbegun. set (cl1 := begun cl) in *.
  destruct (reply_received d cl1 ans x ret r (rpcc.mkCaller false 0 unm_none)) as (w & u & u' & Hgot & Hw' & Hget & Hok);
    [done|lia|done|by cbn; rewrite lookup_insert_eq|done|done|done|].
  set (cl2 := rpcc.set_calls _ _) in Hgot.
  destruct (update_xid_rep_ok (rpcc.set_calls (delete x (rpcc.calls_ cl2)) cl2) (x :: ans) x Hw' ltac:(lia)) as (w2 & Hup2 & Hw2).
  set (cl3 := rpcc.set_window w2 _) in Hup2.
  assert (Hca : rpcc.calls_ cl2 !! x = Some (rpcc.mkCaller true ret u)) by (cbn; by rewrite lookup_insert_eq).
  assert (Hend : rpcc.call1_finish cl2 x f (data req) = Done (ret, cl3)).
  { unfold rpcc.call1_finish. rewrite Hxs, Hca, Hup2, bind_Done. cbv beta zeta. cbn [default from_option id rpcc.done_ rpcc.intret andb].
    change (rpcc.lossytest_ cl3) with (rpcc.lossytest_ cl). by rewrite Hl. }
  exists cl3, (mkServer srv (handlers sv) obj). split; [|split; [|split_and!; [done|done|exact Hn'|done..]]].
  - unfold call. rewrite Hput, bind_Done. unfold call1. rewrite Hbegin, bind_Done. cbv beta iota.
    rewrite Hsend. cbn [exchange]. rewrite Hdis, bind_Done. cbv beta iota.
    rewrite Hgot, !bind_Done. cbv beta iota. fold cl2. rewrite Hxs, Hca. rewrite Hend, bind_Done. cbv beta iota.
    rewrite bind_Done. cbv beta iota. unfold rpcc.call_m. test_false. cbn [from_option rpcc.un]. rewrite Hget, bind_Done. cbv beta iota. by rewrite Hok.
  - split; try done.
    + exists (x :: x :: ans). split; [done|]. intros y. cbn. rewrite !elem_of_cons. intros [->|[->|Hy%Hans]]; lia.
    + exists fin'. exact I'.
    + intros y. cbn. rewrite elem_of_cons.
      intros [[= ->]|Hy%Hex]; lia.
    + cbn. lia.
    + cbn. by rewrite Hn'.
    + cbn. by rewrite Hn'.
    + intros q hd. cbn. rewrite Hp'. apply Hpr.
Qed.

(** A call whose handler object fails, or refuses the arguments, takes the server
    with it. *)
Definition stopped (o : outcome (Z * mar * S)) : Prop :=
  o = Throws ∨ ∃ ret rep s, o = Done (ret, rep, s) ∧ ret < 0.

Lemma call_stops {A R} (c : codec A) (d : codec R) `{!CodecLaws c} (f : handler S) ex cl sv p a :
  in_sync ex cl sv → rpcc.xid_ cl < 2 ^ 31 - 1 → (p =? bind_proc) = negb (rpcc.bind_done_ cl) → - 2 ^ 31 ≤ p < 2 ^ 31 →
  handlers sv !! p = Some f → wf c a → zlen (enc c a) < 2 ^ 29 →
  ((∀ hd, length hd = 24%nat → stopped (f (object sv) (mkUnm (hd ++ enc c a) RPC_HEADER_SZ true) mar_new)) →
   call c d cl sv p a = Throws) ∧
  ((∀ hd, length hd = 24%nat → f (object sv) (mkUnm (hd ++ enc c a) RPC_HEADER_SZ true) mar_new = Undef) →
   call c d cl sv p a = Undef).
Proof.
  intros Hy Hx Hb Hp Hf Ha Hal. destruct (call_begun ex cl sv p Hy Hx Hb Hp) as (fr & Hh & Hbegun).
  destruct Hy as [_ (fin & I) Hex Hx1 _ Hsn _ _ _ Hpr]. cbv zeta in Hh, Hbegun.
  destruct (dispatch_handler c f sv ex fin (mkReq (rpcc.xid_ cl) p (rpcc.clt_nonce_ cl) (rpcc.srv_nonce_ cl) fr) a I) as (m1 & req & srv1 & hd & Hput & Hpack & Hhd & _ & _ & _ & Hdis);
    [by eapply Hpr|exact Hsn| |exact Hh|exact Hf|done|done|].
  { intros x Hin%Hex. cbn [xid]. rewrite wrap_small by lia. exact Hin. }
  destruct (Hbegun m1 req Hpack) as [Hbegin Hsend].
  split; intros Hstop; specialize (Hstop hd Hhd); unfold call, call1; rewrite Hput, bind_Done, Hbegin, bind_Done;
    cbv beta iota; rewrite Hsend; cbn [exchange]; rewrite Hdis.
  - destruct Hstop as [-> | (ret & rep & s & -> & Hret)]; [done|]. rewrite bind_Done. cbv beta iota.
    unfold rpcs.dispatch_reply. by test_false.
  - by rewrite Hstop.
Qed.

(** The calls of one client do not disturb another. *)
Lemma sync_other ex n x cl cl' sv sv' :
  in_sync ex cl sv → in_sync ((n, x) :: ex) cl' sv' → n ≠ rpcc.clt_nonce_ cl →
  rpcs.nonce_ (base sv') = rpcs.nonce_ (base sv) → in_sync ((n, x) :: ex) cl sv'.
Proof.
  intros [] [] Hn Heq. split; try done; [|by rewrite Heq..].
  intros y [[= ? ?]|Hy]%elem_of_cons; [congruence|auto].
Qed.

(** A new client, of a server that has not seen its number. *)
Lemma sync_new ex fin n sv :
  inv (base sv) ∅ ex fin → (∀ x, (n, x) ∉ ex) → 0 < n < 2 ^ 32 → 0 ≤ rpcs.nonce_ (base sv) < 2 ^ 32 →
  (∀ p h, handlers sv !! p = Some h → p ∈ rpcs.procs_ (base sv)) →
  in_sync ex (rpcc.make n false true) sv.
Proof.
  intros I Hx Hn Hs Hp. split; cbn; try done.
  - exists []. split; [|set_solver]. exists 0, []. split; [done|]. split; cbn; try set_solver; try lia. repeat constructor.
  - by exists fin.
  - intros x Hin. by apply Hx in Hin.
  - by left.
Qed.

Lemma bind_ok ex cl sv :
  in_sync ex cl sv → rpcc.xid_ cl < 2 ^ 31 - 1 → rpcc.bind_done_ cl = false →
  handlers sv !! bind_proc = Some (bind_handler (rpcs.nonce_ (base sv))) → rpcs.nonce_ (base sv) < 2 ^ 31 →
  ∃ cl' sv', bind cl sv = Done (0, cl', sv') ∧ in_sync ((rpcc.clt_nonce_ cl, rpcc.xid_ cl) :: ex) cl' sv' ∧
    object sv' = object sv ∧ handlers sv' = handlers sv ∧ rpcs.nonce_ (base sv') = rpcs.nonce_ (base sv) ∧
    rpcc.xid_ cl' = rpcc.xid_ cl + 1 ∧ rpcc.bind_done_ cl' = true ∧ rpcc.clt_nonce_ cl' = rpcc.clt_nonce_ cl.
Proof.
  intros Hy Hx Hb Hh Hn. pose proof (y_srange _ _ _ Hy) as Hr.
  destruct (call_ok i32 i32 0 (λ s a _, Done (0, rpcs.nonce_ (base sv), s)) ex cl sv bind_proc 0 0 (rpcs.nonce_ (base sv)) (object sv))
    as (cl' & sv' & Hc & Hy' & Ho & Hh' & Hn' & Hx' & Hb' & Hnc); try done; try (cbn; lia).
  { by rewrite Hb. }
  exists (rpcc.bind_return cl' 0 (rpcs.nonce_ (base sv))), sv'.
  split; [unfold bind; rewrite Hc, bind_Done; cbn [default id]; by rewrite wrap_small by lia|].
  split; [|by split_and!]. destruct Hy'. split; try done. cbn. by right.
Qed.

(** A server before its first request. *)
Record unused (nonce : Z) sv : Prop := {
  u_inv : inv (base sv) ∅ [] [];
  u_nonce : rpcs.nonce_ (base sv) = nonce;
  u_procs p : is_Some (handlers sv !! p) ↔ p ∈ rpcs.procs_ (base sv);
  u_bind : handlers sv !! bind_proc = Some (bind_handler nonce) }.

Lemma unused_make nonce count (s : S) :
  ∃ sv, server_make nonce count s = Done sv ∧ unused nonce sv ∧ object sv = s ∧
    handlers sv = {[bind_proc := bind_handler nonce]}.
Proof.
  eexists. split; [unfold server_make, reg, rpcs.reg1; cbn; rewrite decide_False by set_solver; done|].
  split; [|done]. split; cbn; [|done| |done].
  - eapply inv_same; [apply (init_inv nonce count ∅)|done..].
  - intros p. rewrite lookup_insert_is_Some', lookup_empty, is_Some_alt. set_solver.
Qed.

Lemma unused_reg nonce sv p h :
  unused nonce sv → handlers sv !! p = None →
  ∃ sv', reg p h sv = Done sv' ∧ unused nonce sv' ∧ object sv' = object sv ∧ handlers sv' = <[p := h]> (handlers sv).
Proof.
  intros [] Hp. unfold reg, rpcs.reg1. rewrite decide_False by (rewrite <- u_procs0, Hp; by intros [? ?]).
  eexists. split; [done|]. split; [|done]. split; cbn; [by eapply inv_same|done| |].
  - intros q. rewrite lookup_insert_is_Some', u_procs0. set_solver.
  - rewrite lookup_insert_ne; [done|]. intros ->. congruence.
Qed.

(** A new client of an unused server can bind. *)
Lemma unused_bind nonce sv n :
  unused nonce sv → 0 ≤ nonce < 2 ^ 31 → 0 < n < 2 ^ 32 →
  ∃ cl' sv', bind (rpcc.make n false true) sv = Done (0, cl', sv') ∧ in_sync [(n, 1)] cl' sv' ∧
    object sv' = object sv ∧ handlers sv' = handlers sv ∧ rpcc.xid_ cl' = 2 ∧ rpcc.bind_done_ cl' = true.
Proof.
  intros [] Hr Hn. subst nonce.
  destruct (bind_ok [] (rpcc.make n false true) sv) as (cl' & sv' & H1 & H2 & H3 & H4 & _ & H5 & H6 & _);
    [|cbn; lia|done|done|lia|].
  - apply (sync_new [] []); [done|set_solver|done|lia|]. intros p h Hp. apply u_procs0. by rewrite Hp.
  - exists cl', sv'. split_and!; done.
Qed.

End sync.

(** The next registration of a constructor. *)
Ltac reg_next :=
  match goal with
  | Hu : unused ?nonce ?s, Ho : object ?s = _, Hh : handlers ?s = _ |- context [reg ?p ?h ?s] =>
      let H := fresh in let O := fresh in
      destruct (unused_reg nonce s p h Hu) as (? & -> & ? & O & H); [rewrite Hh; by vm_compute|];
      rewrite Hh in H; rewrite Ho in O; clear Hu Ho Hh; rewrite ?bind_Done
  end.

(** ** Whole sessions *)

(** A service behind remote calls: what an operation does through a client and
    a server, what it does to the object, when it can be called (its messages
    fit, and the object is one that answers so many operations), and which servers
    offer it. *)
Class Stub (O Res S : Type) : Type := {
  remote : O → rpcc.t → server S → outcome (Res * rpcc.t * server S);
  local : O → S → outcome (Res * S);
  callable : O → Prop;
  proper : nat → S → Prop;
  offered : gmap Z (handler S) → Prop;
}.

Class StubLaws (O Res S : Type) `{Stub O Res S} : Prop := {
  stub_law n o ex cl sv r s :
    in_sync ex cl sv → offered (handlers sv) → proper (Datatypes.S n) (object sv) → callable o →
    local o (object sv) = Done (r, s) → rpcc.bind_done_ cl = true → rpcc.xid_ cl < 2 ^ 31 - 1 →
    ∃ cl' sv', remote o cl sv = Done (r, cl', sv') ∧
      in_sync ((rpcc.clt_nonce_ cl, rpcc.xid_ cl) :: ex) cl' sv' ∧ object sv' = s ∧
      handlers sv' = handlers sv ∧ rpcs.nonce_ (base sv') = rpcs.nonce_ (base sv) ∧
      rpcc.xid_ cl' = rpcc.xid_ cl + 1 ∧ rpcc.bind_done_ cl' = rpcc.bind_done_ cl ∧ rpcc.clt_nonce_ cl' = rpcc.clt_nonce_ cl;
  local_law n o s r s' : proper (Datatypes.S n) s → callable o → local o s = Done (r, s') → proper n s';
}.

Section session.
Context {O Res S : Type} `{StubLaws O Res S}.

(** Clients call in turn, [i] being who calls. *)
Fixpoint session (cs : gmap nat rpcc.t) (sv : server S) (ops : list (nat * O)) :
    outcome (list Res * gmap nat rpcc.t * server S) :=
  match ops with
  | [] => Done ([], cs, sv)
  | (i, o) :: ops =>
      match cs !! i with
      | None => Undef
      | Some cl =>
          '(r, cl, sv) ← remote o cl sv;
          '(rs, cs, sv) ← session (<[i := cl]> cs) sv ops;
          Done (r :: rs, cs, sv)
      end
  end.

Fixpoint local_run (s : S) (ops : list O) : outcome (list Res * S) :=
  match ops with
  | [] => Done ([], s)
  | o :: ops => '(r, s) ← local o s; '(rs, s) ← local_run s ops; Done (r :: rs, s)
  end.

(** Every client is bound, has its own number, and ids for [n] more calls. *)
Record joined (n : Z) (ex : list (Z * Z)) (cs : gmap nat rpcc.t) (sv : server S) : Prop := {
  j_sync i cl : cs !! i = Some cl → in_sync ex cl sv ∧ rpcc.bind_done_ cl = true ∧ rpcc.xid_ cl + n < 2 ^ 31;
  j_apart i j cl cl' : cs !! i = Some cl → cs !! j = Some cl' → rpcc.clt_nonce_ cl = rpcc.clt_nonce_ cl' → i = j;
}.

Lemma session_local k ops : ∀ ex cs sv rs s,
  0 ≤ k → joined (k + zlen ops) ex cs sv → offered (handlers sv) → proper (length ops) (object sv) →
  Forall (λ p, is_Some (cs !! p.1) ∧ callable p.2) ops → local_run (object sv) ops.*2 = Done (rs, s) →
  ∃ ex' cs' sv', session cs sv ops = Done (rs, cs', sv') ∧ object sv' = s ∧ joined k (ex' ++ ex) cs' sv' ∧ handlers sv' = handlers sv.
Proof.
  induction ops as [|[i o] ops IH]; intros ex cs sv rs s Hk J Hoff Hp Hops Hrun.
  { injection Hrun as <- <-. exists [], cs, sv. split_and!; [done|done| |done].
    change (zlen []) with 0 in J. by rewrite Z.add_0_r in J. }
  apply Forall_cons in Hops as [[[cl Hi] Ho] Hops]. cbn [fst snd] in *.
  destruct (j_sync _ _ _ _ J i cl Hi) as (Hy & Hb & Hx). cbn [length] in Hx.
  cbn [local_run fmap list_fmap snd] in Hrun. apply bind_Done_inv in Hrun as ([r1 s1] & Hl1 & Hrun).
  apply bind_Done_inv in Hrun as ([rs2 s2] & Hrun & [= <- <-]).
  destruct (stub_law _ o ex cl sv r1 s1 Hy Hoff Hp Ho Hl1 Hb ltac:(lia)) as (cl1 & sv1 & Hr & Hy1 & Hobj & Hh & Hn & Hx1 & Hb1 & Hnc).
  assert (J1 : joined (k + zlen ops) ((rpcc.clt_nonce_ cl, rpcc.xid_ cl) :: ex) (<[i := cl1]> cs) sv1).
  { split.
    - intros j cj [[<- <-]|[Hne Hj]]%lookup_insert_Some; [split_and!; [done|congruence|lia]|].
      destruct (j_sync _ _ _ _ J j cj Hj) as (Hyj & Hbj & Hxj). cbn [length] in Hxj. split_and!; [|done|lia].
      eapply sync_other; [done|done| |done]. intros Heq. by apply Hne, (j_apart _ _ _ _ J i j cl cj).
    - intros j l cj ck [[<- <-]|[Hnj Hj]]%lookup_insert_Some [[<- <-]|[Hnl Hl]]%lookup_insert_Some Heq; try done.
      + rewrite Hnc in Heq. by apply (j_apart _ _ _ _ J i l cl ck).
      + rewrite Hnc in Heq. by apply (j_apart _ _ _ _ J j i cj cl).
      + by apply (j_apart _ _ _ _ J j l cj ck). }
  destruct (IH _ _ sv1 rs2 s2 Hk J1) as (ex2 & cs2 & sv2 & Hs & Hobj2 & J2 & Hh2).
  - by rewrite Hh.
  - rewrite Hobj. by eapply local_law.
  - eapply Forall_impl; [exact Hops|]. intros [j oj] [Hj ?]. split; [|done]. cbn in *. rewrite lookup_insert_is_Some'. auto.
  - by rewrite Hobj.
  - cbn [session]. rewrite Hi, Hr, bind_Done. cbv beta iota. rewrite Hs, bind_Done.
    exists (ex2 ++ [(rpcc.clt_nonce_ cl, rpcc.xid_ cl)]), cs2, sv2. split_and!; [done|done| |congruence].
    by rewrite <- app_assoc.
Qed.

End session.

Section joining.
Context {S : Type}.
Implicit Types (sv : server S) (cs : gmap nat rpcc.t).

(** New clients with the numbers [ns] bind in turn. *)
Fixpoint bind_all (i : nat) (ns : list Z) cs sv : outcome (gmap nat rpcc.t * server S) :=
  match ns with
  | [] => Done (cs, sv)
  | n :: ns =>
      '(_, cl, sv) ← bind (rpcc.make n false true) sv;
      bind_all (Nat.succ i) ns (<[i := cl]> cs) sv
  end.

(** The server between requests. *)
Record resting (nonce : Z) (ex : list (Z * Z)) sv : Prop := {
  e_inv : ∃ fin, inv (base sv) ∅ ex fin;
  e_nonce : rpcs.nonce_ (base sv) = nonce;
  e_procs p h : handlers sv !! p = Some h → p ∈ rpcs.procs_ (base sv);
  e_bind : handlers sv !! bind_proc = Some (bind_handler nonce) }.

Lemma unused_resting nonce sv : unused nonce sv → resting nonce [] sv.
Proof. intros []. split; [by exists []|done| |done]. intros p h Hp. apply u_procs0. by rewrite Hp. Qed.

(** A bound client joins the others. *)
Lemma join_one k ex n x i cs cl sv sv1 :
  joined k ex cs sv → in_sync ((n, x) :: ex) cl sv1 → rpcc.clt_nonce_ cl = n → rpcc.bind_done_ cl = true →
  rpcc.xid_ cl + k < 2 ^ 31 → rpcs.nonce_ (base sv1) = rpcs.nonce_ (base sv) →
  (∀ j cj, cs !! j = Some cj → rpcc.clt_nonce_ cj ≠ n) →
  joined k ((n, x) :: ex) (<[i := cl]> cs) sv1.
Proof.
  intros J Hy Hcl Hbd Hx Hnon Hold. split.
  - intros j cj [[<- <-]|[Hne Hj]]%lookup_insert_Some; [done|].
    destruct (j_sync _ _ _ _ J j cj Hj) as (Hyj & Hbj & Hxj). split; [|done].
    eapply sync_other; [done|done| |done]. intros Heq. by apply (Hold j cj Hj).
  - intros j l cj c2 [[<- <-]|[Hnj Hj]]%lookup_insert_Some [[<- <-]|[Hnl Hl]]%lookup_insert_Some Heq; [done|..].
    + exfalso. apply (Hold _ _ Hl). congruence.
    + exfalso. apply (Hold _ _ Hj). congruence.
    + by apply (j_apart _ _ _ _ J j l cj c2).
Qed.

Lemma bind_all_joined nonce k (Hnonce : 0 ≤ nonce < 2 ^ 31) (Hk : k < 2 ^ 31 - 2) ns : ∀ i ex cs sv,
  resting nonce ex sv → joined k ex cs sv → NoDup ns → Forall (λ n, 0 < n < 2 ^ 32) ns →
  (∀ n x, (n, x) ∈ ex → n ∉ ns) → (∀ j, is_Some (cs !! j) ↔ (j < i)%nat) →
  (∀ j cl, cs !! j = Some cl → rpcc.clt_nonce_ cl ∉ ns) →
  ∃ ex' cs' sv', bind_all i ns cs sv = Done (cs', sv') ∧ joined k ex' cs' sv' ∧
    (∀ j, is_Some (cs' !! j) ↔ (j < i + length ns)%nat) ∧ object sv' = object sv ∧ handlers sv' = handlers sv.
Proof.
  induction ns as [|n ns IH]; intros i ex cs sv Hr J Hnd Hns Hex Hcs Hold.
  { exists ex, cs, sv. split_and!; try done. intros j. by rewrite Hcs, Nat.add_0_r. }
  apply NoDup_cons in Hnd as [Hn Hnd]. apply Forall_cons in Hns as [Hrange Hns].
  pose proof Hr as [[fin I] Hno Hpr Hbi].
  assert (Hsync : in_sync ex (rpcc.make n false true) sv).
  { apply (sync_new ex fin); try done; [|lia]. intros x Hx. apply (Hex _ _ Hx). by left. }
  destruct (bind_ok ex _ sv Hsync) as (cl & sv1 & Hb & Hy & Ho & Hh & Hnon & Hx & Hbd & Hcl); [cbn; lia|done|by rewrite Hno|lia|].
  cbn [rpcc.clt_nonce_ rpcc.xid_ rpcc.make] in *.
  assert (J1 : joined k ((n, 1) :: ex) (<[i := cl]> cs) sv1).
  { eapply (join_one k ex n 1 i cs cl sv sv1); [done|done|done|done|lia|done|]. intros j cj Hj Heq. apply (Hold j cj Hj). rewrite Heq. by left. }
  assert (Hr1 : resting nonce ((n, 1) :: ex) sv1).
  { split; [apply Hy|by rewrite Hnon| |by rewrite Hh]. apply Hy. }
  destruct (IH (Nat.succ i) ((n, 1) :: ex) (<[i := cl]> cs) sv1 Hr1 J1 Hnd Hns) as (ex' & cs' & sv' & Hall & J' & Hdom & Hobj & Hhand).
  - intros m x [[= -> ->]|Hm]%elem_of_cons; [done|]. intros Hin. apply (Hex _ _ Hm). by right.
  - intros j. rewrite lookup_insert_is_Some', Hcs, Nat.lt_succ_r. split; [intros [->|?]|intros ?]; [lia|lia|].
    destruct (decide (i = j)); [by left|right; lia].
  - intros j cj [[<- <-]|[_ Hj]]%lookup_insert_Some; [by rewrite Hcl|]. intros Hin. apply (Hold _ _ Hj). by right.
  - exists ex', cs', sv'. cbn [bind_all]. rewrite Hb, bind_Done. split_and!; [done|done| |congruence|congruence].
    intros j. rewrite Hdom. cbn [length]. by rewrite Nat.add_succ_comm.
Qed.

End joining.

Section served.
Context {O Res S : Type} `{StubLaws O Res S}.

(** Clients bind to an unused server, and then call it in any order: every call
    answers what the operation answers on the object, one after the other; and the
    clients can go on, with [k] more calls. *)
Lemma served_further k nonce sv ns ops rs s :
  unused nonce sv → offered (handlers sv) → proper (length ops) (object sv) → 0 ≤ nonce < 2 ^ 31 →
  NoDup ns → Forall (λ n, 0 < n < 2 ^ 32) ns → 0 ≤ k → k + zlen ops < 2 ^ 31 - 2 →
  Forall (λ p, (p.1 < length ns)%nat ∧ callable p.2) ops → local_run (object sv) ops.*2 = Done (rs, s) →
  ∃ cs1 sv1 cs2 sv2 ex, bind_all 0 ns ∅ sv = Done (cs1, sv1) ∧ session cs1 sv1 ops = Done (rs, cs2, sv2) ∧
    object sv2 = s ∧ joined k ex cs2 sv2 ∧ handlers sv2 = handlers sv.
Proof.
  intros Hu Hoff Hp Hr Hnd Hns Hk Hlen Hops Hrun.
  destruct (bind_all_joined nonce (k + zlen ops) Hr Hlen ns 0 [] ∅ sv) as (ex & cs1 & sv1 & Hb & J & Hdom & Hobj & Hh); try done.
  - by apply unused_resting.
  - intros n x Hx. by apply not_elem_of_nil in Hx.
  - intros j. rewrite lookup_empty, is_Some_alt. split; [done|intros Hj; by apply Nat.nlt_0_r in Hj].
  - destruct (session_local k ops ex cs1 sv1 rs s Hk J) as (ex2 & cs2 & sv2 & Hs & Hobj2 & J2 & Hh2).
    + by rewrite Hh.
    + by rewrite Hobj.
    + eapply Forall_impl; [exact Hops|]. intros [i o] [Hi ?]. by rewrite Hdom.
    + by rewrite Hobj.
    + exists cs1, sv1, cs2, sv2, (ex2 ++ ex). split_and!; [done|done|done|done|congruence].
Qed.

Lemma served_locally nonce sv ns ops rs s :
  unused nonce sv → offered (handlers sv) → proper (length ops) (object sv) → 0 ≤ nonce < 2 ^ 31 →
  NoDup ns → Forall (λ n, 0 < n < 2 ^ 32) ns → zlen ops < 2 ^ 31 - 2 →
  Forall (λ p, (p.1 < length ns)%nat ∧ callable p.2) ops → local_run (object sv) ops.*2 = Done (rs, s) →
  ∃ cs1 sv1 cs2 sv2, bind_all 0 ns ∅ sv = Done (cs1, sv1) ∧ session cs1 sv1 ops = Done (rs, cs2, sv2) ∧ object sv2 = s.
Proof.
  intros Hu Hoff Hp Hr Hnd Hns Hlen Hops Hrun.
  destruct (served_further 0 nonce sv ns ops rs s) as (cs1 & sv1 & cs2 & sv2 & _ & ? & ? & ? & _); try done.
  by exists cs1, sv1, cs2, sv2.
Qed.

End served.

(** ** From the constructor to the reply *)

Section first_call.
Context {A R S : Type} (c : codec A) (d : codec R) `{!CodecLaws c, !CodecLaws d} (r0 : R).

(** A method registered with a new server answers a bound client: whatever
    types it takes and returns, the call runs it once on the object with the
    arguments given, and returns its status and its result; a procedure that was
    not registered, or is registered twice, is refused by an assertion. *)
Theorem typed_call_runs_method meth nonce count n p (s : S) a ret r s' :
  0 ≤ nonce < 2 ^ 31 → 0 < n < 2 ^ 32 → - 2 ^ 31 ≤ p < 2 ^ 31 → p ≠ bind_proc →
  meth s a r0 = Done (ret, r, s') →
  wf c a → zlen (enc c a) < 2 ^ 29 → wf d r → zlen (enc d r) < 2 ^ 29 → 0 ≤ ret < 2 ^ 31 →
  (∃ cl sv, (sv ← server_make nonce count s; sv ← reg p (fn c d r0 meth) sv;
             '(_, cl, sv) ← bind (rpcc.make n false true) sv;
             '(ret, r, cl, sv) ← call c d cl sv p a; Done (ret, r, cl, sv)) = Done (ret, Some r, cl, sv) ∧
     object sv = s') ∧
  (sv ← server_make nonce count s; sv ← reg p (fn c d r0 meth) sv; reg p (fn c d r0 meth) sv) = Throws.
Proof.
  intros Hnonce Hn Hp Hpb Hm Ha Hal Hr Hrl Hret.
  destruct (unused_make nonce count s) as (sv & Hmake & Hu & Hobj & Hh).
  destruct (unused_reg nonce sv p (fn c d r0 meth) Hu) as (sv1 & Hreg & Hu1 & Hobj1 & Hh1).
  { rewrite Hh. by apply lookup_singleton_None. }
  split; rewrite Hmake, bind_Done, Hreg, bind_Done.
  - destruct (unused_bind nonce sv1 n Hu1 Hnonce Hn) as (cl & sv2 & Hb & Hy & Hobj2 & Hh2 & Hx & Hbd).
    edestruct (call_ok c d r0 meth [(n, 1)] cl sv2 p a ret r s') as (cl' & sv' & Hc & _ & Ho & _);
      [exact Hy|lia|rewrite Hbd; by apply Z.eqb_neq|lia|by rewrite Hh2, Hh1, lookup_insert_eq
      |by rewrite Hobj2, Hobj1, Hobj|exact Ha|exact Hal|exact Hr|exact Hrl|exact Hret|].
    exists cl', sv'. rewrite Hb, bind_Done. cbv beta iota. rewrite Hc, bind_Done. by split.
  - unfold reg, rpcs.reg1. rewrite decide_True; [done|].
    destruct Hu1. rewrite <- u_procs0, Hh1, lookup_insert_eq. by eexists.
Qed.

End first_call.

Lemma typed_call_runs_method_witness :
  let meth (s : Z) (a : bytes * Z) (r : bytes) : outcome (Z * bytes * Z) :=
    Done (7, a.1 ++ r ++ a.1, s + a.2) in
  ∃ cl sv, (sv ← server_make 77 0 5; sv ← reg 300 (fn (pair_ str i32) str [] meth) sv;
            '(_, cl, sv) ← bind (rpcc.make 9 false true) sv;
            '(ret, r, cl, sv) ← call (pair_ str i32) str cl sv 300 (bs "ab", 3); Done (ret, r, cl, sv)) =
     Done (7, Some (bs "abab"), cl, sv) ∧ object sv = 8.
Proof.
  intros meth.
  apply (typed_call_runs_method (pair_ str i32) str [] meth 77 0 9 300 5 (bs "ab", 3) 7 (bs "abab") 8);
    try (by vm_compute); by split.
Defined.
