(* ===== verification/RpcNetwork.v ===== *)
(** * Remote calls over an unreliable network (src/rpc/rpc.cc, classes rpcc and rpcs together)

    The client of RpcClient.v and the server of RpcServer.v, with its handler
    objects and the object they work on, joined by a network that loses,
    repeats, delays and reorders messages.  Any number of threads call, any
    number of workers serve, other clients send what they like.  A handler is one step
    here; RpcSections.v has handlers that overlap. *)

From S2P Require Import Prelude Marshall RpcServer Connection ConnSend RpcStub RpcClient.

(** What a worker does in a handler: it has the request, or the handler has
    returned and its reply is not recorded yet. *)
Inductive job : Type :=
  | Asked (u : unm)
  | Ran (ret : Z) (rep : mar).

(** The history of the calls: the beginning of a call, the run of a handler, the
    return of a call.  [k_since] and [q_until] are the numbers of runs before them,
    [e_world] is what the world showed the handler: a clock, how the calls ended that
    it made itself. *)
Record call : Type := mkCall { k_id : Z; k_proc : Z; k_args : mar; k_since : nat }.
Record run (World : Type) : Type := mkRun { e_clt : Z; e_id : Z; e_proc : Z; e_in : unm; e_ret : Z; e_out : mar; e_world : World }.
Record return_ : Type := mkReturn { q_id : Z; q_ret : Z; q_out : unm; q_until : nat }.
Arguments mkRun {_} _ _ _ _ _ _ _.
Arguments e_clt {_} _.
Arguments e_id {_} _.
Arguments e_proc {_} _.
Arguments e_in {_} _.
Arguments e_ret {_} _.
Arguments e_out {_} _.
Arguments e_world {_} _.

Section net.

(** The handlers in each world, and bounds on the object within which a run is
    looked at. *)
Context {S World : Type} (hs : World → gmap Z (handler S)) (within : S → bool).

(** A message sent stays in the network: [requests] and [replies] hold all that
    were ever sent, and each may arrive any number of times. *)
Record net : Type := mkNet {
  n_cli : csys; n_srv : dsys; n_obj : S; n_jobs : gmap nat job;
  n_requests : list bytes; n_replies : list bytes;
  n_calls : list call; n_log : list (run World); n_returns : list return_ }.

Inductive nevent : Type :=
  | NBegin (t : nat) (p : Z) (m : mar)     (** the first section of [call1] *)
  | NTransmit (t : nat)                    (** one transmission of its loop *)
  | NArrive (w i : nat)                    (** a request of the client reaches a worker *)
  | NOther (w : nat) (b : bytes)           (** so does a message of another client *)
  | NRun (w : nat) (v : World)               (** the handler, in the world [v] *)
  | NReply (w : nat)                       (** the rest of [dispatch] *)
  | NSend (w : nat)
  | NDeliver (i : nat)                     (** a reply reaches [got_pdu] *)
  | NEnd (t : nat)                         (** the last sections of [call1] *)
  | NCancel
  | NBound (ret r : Z).

Definition set_cli (c : rpcc.t) (s : csys) : csys :=
  mkC c (threads s) (cancelled s) (answered s) (issued s) (pdus s) (results s).

(** The number of the client, which tells its requests and replies. *)
Definition number (s : net) : Z := rpcc.clt_nonce_ (cli (n_cli s)).

(** The reply that [dispatch] sends without a handler. *)
Definition refusal (h : req_header) (n : rpcs.next) : outcome (list bytes) :=
  match n with
  | rpcs.Send_header ret => m ← pack_reply_header (mkRep (xid h) ret) mar_new; Done [data m]
  | _ => Done []
  end.

(** [dispatch] up to the handler; replies to other clients go elsewhere. *)
Definition receive (s : net) (w : nat) (b : bytes) : option (outcome net) :=
  let '(h, u) := unpack_req_header (unm_of (frame b)) in
  match dstep (n_srv s) (DRecv w h (u_ok u)) with
  | None => None
  | Some o => Some (
      d ← o;
      '(n, _) ← rpcs.dispatch_begin (srv (n_srv s)) h (u_ok u);
      out ← refusal h n;
      let jobs := match n with rpcs.Run => <[w := Asked u]> (n_jobs s) | _ => n_jobs s end in
      let out := if clt_nonce h =? number s then out else [] in
      Done (mkNet (n_cli s) d (n_obj s) jobs (n_requests s) (n_replies s ++ out) (n_calls s) (n_log s) (n_returns s)))
  end.

(** [None]: not enabled. *)
Definition nstep (s : net) (e : nevent) : option (outcome net) :=
  let now := length (n_log s) in
  match e with
  | NBegin t p m =>
      match cstep (n_cli s) (CBegin t p m) with
      | None => None
      | Some o => Some (
          c ← o;
          let k := match threads c !! t with Some (x, _, _) => [mkCall x (sgn 32 p) m now] | None => [] end in
          Done (mkNet c (n_srv s) (n_obj s) (n_jobs s) (n_requests s) (n_replies s) (k ++ n_calls s) (n_log s) (n_returns s)))
      end
  | NTransmit t =>
      match threads (n_cli s) !! t with
      | None => None
      | Some (_, _, req) =>
          let '(msgs, c) := rpcc.transmit (cli (n_cli s)) req in
          Some (Done (mkNet (set_cli c (n_cli s)) (n_srv s) (n_obj s) (n_jobs s) (n_requests s ++ msgs) (n_replies s)
                        (n_calls s) (n_log s) (n_returns s)))
      end
  | NArrive w i => match n_requests s !! i with None => None | Some b => receive s w b end
  | NOther w b =>
      if clt_nonce (unpack_req_header (unm_of (frame b))).1 =? number s then None else receive s w b
  | NRun w v =>
      match workers (n_srv s) !! w, n_jobs s !! w with
      | Some (Running clt x p), Some (Asked u) => Some
          match hs v !! p with
          | None => Throws
          | Some f =>
              '(ret, rep, obj) ← f (n_obj s) u mar_new;
              Done (mkNet (n_cli s) (n_srv s) obj (<[w := Ran ret rep]> (n_jobs s)) (n_requests s) (n_replies s)
                      (n_calls s) (n_log s ++ [mkRun clt x p u ret rep v]) (n_returns s))
          end
      | _, _ => None
      end
  | NReply w =>
      match n_jobs s !! w with
      | Some (Ran ret rep) =>
          match dstep (n_srv s) (DReturn w ret rep) with
          | None => None
          | Some o => Some (
              d ← o;
              Done (mkNet (n_cli s) d (n_obj s) (delete w (n_jobs s)) (n_requests s) (n_replies s)
                      (n_calls s) (n_log s) (n_returns s)))
          end
      | _ => None
      end
  | NSend w =>
      match workers (n_srv s) !! w with
      | Some (Sending clt b) => Some (
          '(reply, srv') ← rpcs.dispatch_send (srv (n_srv s)) clt b;
          let d := mkD srv' (delete w (workers (n_srv s))) (executed (n_srv s)) (finished (n_srv s)) in
          let out := if clt =? number s then [reply] else [] in
          Done (mkNet (n_cli s) d (n_obj s) (n_jobs s) (n_requests s) (n_replies s ++ out)
                  (n_calls s) (n_log s) (n_returns s)))
      | _ => None
      end
  | NDeliver i =>
      match n_replies s !! i with
      | None => None
      | Some b =>
          match cstep (n_cli s) (CPdu (frame b)) with
          | None => None
          | Some o => Some (
              c ← o;
              Done (mkNet c (n_srv s) (n_obj s) (n_jobs s) (n_requests s) (n_replies s) (n_calls s) (n_log s) (n_returns s)))
          end
      end
  | NEnd t =>
      match threads (n_cli s) !! t with
      | None => None
      | Some (x, rep, req) => Some (
          let u := from_option rpcc.un unm_none (rpcc.calls_ (cli (n_cli s)) !! sgn 32 x) in
          '(ret, c) ← rpcc.call1_finish (cli (n_cli s)) x rep req;
          let c := mkC c (delete t (threads (n_cli s))) (cancelled (n_cli s)) (x :: answered (n_cli s)) (issued (n_cli s))
                     (pdus (n_cli s)) ((x, ret, replies (pdus (n_cli s)) x) :: results (n_cli s)) in
          Done (mkNet c (n_srv s) (n_obj s) (n_jobs s) (n_requests s) (n_replies s) (n_calls s) (n_log s)
                  (mkReturn x ret u now :: n_returns s)))
      end
  | NCancel =>
      let c := mkC (rpcc.cancel (cli (n_cli s))) (threads (n_cli s)) true (answered (n_cli s)) (issued (n_cli s))
                 (pdus (n_cli s)) (results (n_cli s)) in
      Some (Done (mkNet c (n_srv s) (n_obj s) (n_jobs s) (n_requests s) (n_replies s) (n_calls s) (n_log s) (n_returns s)))
  | NBound ret r =>
      let c := set_cli (rpcc.bind_return (cli (n_cli s)) ret (wrap32 r)) (n_cli s) in
      Some (Done (mkNet c (n_srv s) (n_obj s) (n_jobs s) (n_requests s) (n_replies s) (n_calls s) (n_log s) (n_returns s)))
  end.

(** A new client of a server. *)
Definition ninit (n : Z) (lossy : bool) (sv : server S) : net :=
  mkNet (cinit n lossy true) (mkD (base sv) ∅ [] []) (object sv) ∅ [] [] [] [] [].

(** A message with room for a header in front. *)
Definition framed (m : mar) : Prop := 24 ≤ zlen (data m) ∧ 24 ≤ capa m.

(** Transaction ids stay below 2^31. *)
Definition ntyped (s : net) (e : nevent) : Prop :=
  match e with
  | NBegin _ _ m => rpcc.xid_ (cli (n_cli s)) < 2 ^ 31 - 1 ∧ framed m
  | _ => True
  end.

Inductive nreach (s0 : net) : net → Prop :=
  | nreach_init : nreach s0 s0
  | nreach_step s e s' : nreach s0 s → ntyped s e → nstep s e = Some (Done s') → within (n_obj s') = true → nreach s0 s'.

(** A handler object replies with a message and an [int], and keeps what holds
    of the object. *)
Definition behaves (P : S → Prop) (f : handler S) : Prop :=
  ∀ s u ret rep s', P s → f s u mar_new = Done (ret, rep, s') → within s' = true → framed rep ∧ - 2 ^ 31 ≤ ret < 2 ^ 31 ∧ P s'.

(** ** What a run of the whole promises *)

(** The handlers ran one after the other, from the first state of the object
    to the present one. *)
Fixpoint replays (s : S) (l : list (run World)) (s' : S) : Prop :=
  match l with
  | [] => s' = s
  | e :: l => ∃ f s1, hs (e_world e) !! e_proc e = Some f ∧ f s (e_in e) mar_new = Done (e_ret e, e_out e, s1) ∧ within s1 = true ∧ replays s1 l s'
  end.

End net.
Arguments net : clear implicits.
Arguments nevent : clear implicits.

(** A received message has the content of the one sent. *)
Definition holds (u : unm) (m : mar) : Prop :=
  ∃ hd : bytes, length hd = 24%nat ∧ u = mkUnm (hd ++ get_content m) RPC_HEADER_SZ true.

Section runs.
Context {World : Type}.
Implicit Types l : list (run World).

(** A run whose reply the client got for its call. *)
Definition answer (n : Z) (l : list (run World)) (x ret : Z) (u : unm) (i : nat) : Prop :=
  ∃ e, l !! i = Some e ∧ e_clt e = n ∧ e_id e = x ∧ e_ret e = ret ∧ holds u (e_out e).

(** ** What the parts leave alone *)

Lemma update_keeps c x c' : rpcc.update_xid_rep c x = Done c' → ∃ w, c' = rpcc.set_window w c.
Proof.
  unfold rpcc.update_xid_rep. intros [f [_ E]]%bind_Done_inv. destruct (x <=? f).
  - injection E as <-. exists (rpcc.xid_rep_window_ c). by destruct c.
  - destruct (rpcc.put_xid x _); [done|]. injection E as <-. eauto.
Qed.

(** The client's numbers and its copy of a request. *)
Definition same_client (c c' : rpcc.t) : Prop :=
  rpcc.clt_nonce_ c' = rpcc.clt_nonce_ c ∧ rpcc.srv_nonce_ c' = rpcc.srv_nonce_ c ∧ rpcc.dup_req_ c' = rpcc.dup_req_ c.

Lemma begin_effect c p m r c' :
  1 ≤ rpcc.xid_ c < 2 ^ 31 - 1 → rpcc.call1_begin c p m = Done (r, c') →
  (∃ e, r = inl e ∧ c' = c) ∨
  ∃ rep m', r = inr (rpcc.xid_ c, rep, m') ∧
    pack_req_header (mkReq (rpcc.xid_ c) (sgn 32 p) (rpcc.clt_nonce_ c) (rpcc.srv_nonce_ c) (sgn 32 rep)) m = Done m' ∧
    rpcc.front c = Done rep ∧ same_client c c' ∧ rpcc.xid_ c' = rpcc.xid_ c + 1 ∧
    rpcc.calls_ c' = <[rpcc.xid_ c := rpcc.mkCaller false 0 unm_none]> (rpcc.calls_ c).
Proof.
  intros Hx. unfold rpcc.call1_begin. destruct (_ || _); [intros [= <- <-]; eauto|].
  destruct (rpcc.destroy_wait_ c); [intros [= <- <-]; eauto|]. rewrite (sgn_small 32 (rpcc.xid_ c)) by lia.
  intros [rep [Hf [m' [Hm [= <- <-]]]%bind_Done_inv]]%bind_Done_inv. right. exists rep, m'.
  split_and!; try done. cbn. rewrite (wrap_small 32); lia.
Qed.

Lemma got_effect c b c' :
  rpcc.got_pdu c b = Done c' →
  same_client c c' ∧ rpcc.xid_ c' = rpcc.xid_ c ∧
  ∀ x ca, rpcc.calls_ c' !! x = Some ca → rpcc.calls_ c !! x = Some ca ∨
    let '(h, u) := unpack_reply_header (unm_of b) in x = r_xid h ∧ ca = rpcc.mkCaller true (r_ret h) (take_in u).
Proof.
  unfold rpcc.got_pdu. destruct (unpack_reply_header (unm_of b)) as [h u].
  destruct (negb (u_ok u)); [intros [= <-]; unfold same_client; auto|].
  intros [c1 [[w ->]%update_keeps E]]%bind_Done_inv. injection E as <-. cbn [rpcc.calls_ rpcc.set_window].
  destruct (rpcc.calls_ c !! r_xid h) as [ca0|]; [|unfold same_client; auto].
  destruct (rpcc.done_ ca0); [unfold same_client; auto|]. split_and!; try done.
  intros x ca. cbn. rewrite lookup_insert_Some. naive_solver.
Qed.

Lemma finish_effect c x rep req ret c' :
  rpcc.call1_finish c x rep req = Done (ret, c') →
  rpcc.clt_nonce_ c' = rpcc.clt_nonce_ c ∧ rpcc.srv_nonce_ c' = rpcc.srv_nonce_ c ∧ rpcc.xid_ c' = rpcc.xid_ c ∧
  (rpcc.dup_req_ c' = rpcc.dup_req_ c ∨ rpcc.rq_buf (rpcc.dup_req_ c') = req) ∧
  rpcc.calls_ c' = delete (sgn 32 x) (rpcc.calls_ c) ∧
  (ret < 0 ∨ ∃ ca, rpcc.calls_ c !! sgn 32 x = Some ca ∧ rpcc.done_ ca = true ∧ rpcc.intret ca = ret).
Proof.
  unfold rpcc.call1_finish. intros [c1 [[w ->]%update_keeps E]]%bind_Done_inv.
  injection E as <- <-. split_and!; [by destruct (_ && _)..| |by destruct (_ && _)|].
  - destruct (_ && _); [|by left]. cbn. destruct (rpcc.isvalid _); auto.
  - destruct (rpcc.calls_ c !! sgn 32 x) as [ca|]; cbn [default from_option id rpcc.done_]; [|left; done].
    destruct (rpcc.done_ ca) eqn:E; [right; eauto|left; done].
Qed.

(** ** Messages *)

Lemma pack_framed ws m : framed m → (length ws ≤ 5)%nat →
  ∃ m' tl, pack_words ws m = Done m' ∧ data m' = take 4 (data m) ++ concat (be32_bytes <$> ws) ++ tl ++ get_content m ∧
    length tl = (20 - 4 * length ws)%nat.
Proof.
  intros [H1 H2] Hws. rewrite pack_words_ok by lia. eexists _, (drop (4 + 4 * length ws) (take 24 (data m))).
  split; [done|]. cbn [data]. split.
  - do 2 f_equal. unfold get_content. rewrite <- (take_drop 24 (data m)) at 1.
    rewrite drop_app_le; [done|]. rewrite length_take. lia.
  - rewrite length_drop, length_take. lia.
Qed.

(** A packed message on the wire. *)
Lemma framed_wire ws m m' : framed m → (length ws ≤ 5)%nat → pack_words ws m = Done m' →
  ∃ n tl, length n = 4%nat ∧ length tl = (20 - 4 * length ws)%nat ∧
    frame (data m') = n ++ concat (be32_bytes <$> ws) ++ tl ++ get_content m.
Proof.
  intros Hm Hws E. destruct (pack_framed ws m Hm Hws) as (m1 & tl & E' & Hd & Htl).
  rewrite E in E'. injection E' as <-. rewrite Hd.
  destruct (frame_message (take 4 (data m)) (concat (be32_bytes <$> ws)) (tl ++ get_content m)) as (n & Hn & ->).
  { destruct Hm. rewrite length_take. lia. }
  eauto.
Qed.

Lemma request_arrives h m m' : framed m → req_header_wf h → pack_req_header h m = Done m' →
  ∃ u, unpack_req_header (unm_of (frame (data m'))) = (h, u) ∧ u_ok u = true ∧ holds u m.
Proof.
  intros Hm Hh E. destruct (λ H, framed_wire _ m m' Hm H E) as (n & tl & Hn & Htl & ->); [cbn; lia|].
  destruct tl; [|done]. cbn [app].
  pose proof (unpack_req_ok h n (get_content m) Hh Hn) as Hu. cbn zeta in Hu. rewrite Hu.
  eexists. split; [done|]. split; [done|]. eexists. rewrite app_assoc. split; [|done].
  rewrite length_app, Hn. done.
Qed.

Lemma reply_arrives h m m' : framed m → reply_header_wf h → pack_reply_header h m = Done m' →
  ∃ u, unpack_reply_header (unm_of (frame (data m'))) = (h, u) ∧ u_ok u = true ∧ holds (take_in u) m.
Proof.
  intros Hm Hh E. destruct (λ H, framed_wire _ m m' Hm H E) as (n & tl & Hn & Htl & ->); [cbn; lia|].
  pose proof (unpack_rep_ok h n (tl ++ get_content m) Hh Hn) as Hu. cbn zeta in Hu. rewrite Hu.
  eexists. split; [done|]. split; [done|]. exists (n ++ concat (be32_bytes <$> [r_xid h; r_ret h]) ++ tl).
  assert (Hl : length (n ++ concat (be32_bytes <$> [r_xid h; r_ret h]) ++ tl) = 24%nat).
  { rewrite !length_app, Hn, Htl. done. }
  split; [done|]. unfold take_in. cbn [u_buf]. rewrite <- !app_assoc.
  assert ((RPC_HEADER_SZ <=? zlen (n ++ concat (be32_bytes <$> [r_xid h; r_ret h]) ++ tl ++ get_content m)) = true)
    as ->; [|done].
  rewrite !length_app in *. apply Z.leb_le. unfold RPC_HEADER_SZ. lia.
Qed.

(** ** The invariant *)

(** The request of a call. *)
Definition is_request (n : Z) (k : call) (b : bytes) : Prop :=
  ∃ sn rep m, 0 ≤ sn < 2 ^ 32 ∧ 0 ≤ rep < k_id k ∧
    pack_req_header (mkReq (k_id k) (k_proc k) n sn rep) (k_args k) = Done m ∧ b = data m.

(** The reply with what a run returned. *)
Definition is_reply (n : Z) (l : list (run World)) (x : Z) (b : bytes) : Prop :=
  ∃ e m, e ∈ l ∧ e_clt e = n ∧ e_id e = x ∧ 0 ≤ e_ret e ∧
    pack_reply_header (mkRep (sgn 32 x) (e_ret e)) (e_out e) = Done m ∧ b = data m.

(** What the client has sent, and may still send. *)
Record wired (n : Z) (c : rpcc.t) (th : gmap nat (Z * Z * bytes)) (ks : list call) (reqs : list bytes) (now : nat) : Prop := {
  wi_number : rpcc.clt_nonce_ c = n;
  wi_server : 0 ≤ rpcc.srv_nonce_ c < 2 ^ 32;
  wi_call k : k ∈ ks → 0 < k_id k < rpcc.xid_ c ∧ (k_since k ≤ now)%nat ∧ framed (k_args k) ∧ - 2 ^ 31 ≤ k_proc k < 2 ^ 31;
  wi_one k k' : k ∈ ks → k' ∈ ks → k_id k = k_id k' → k = k';
  wi_thread t x rep b : th !! t = Some (x, rep, b) → ∃ k, k ∈ ks ∧ k_id k = x ∧ is_request n k b;
  wi_req b : b ∈ reqs → ∃ k, k ∈ ks ∧ is_request n k b;
  wi_dup : rpcc.isvalid (rpcc.dup_req_ c) = true → ∃ k, k ∈ ks ∧ is_request n k (rpcc.rq_buf (rpcc.dup_req_ c)) }.

(** What the handlers have done, and the workers are about to send. *)
Record served (n : Z) (ks : list call) (l : list (run World)) (sv : rpcs.t) (ws : gmap nat dpoint) (ex : list (Z * Z))
    (fin : list (Z * Z * bytes)) (jobs : gmap nat job) : Prop := {
  se_run i e : l !! i = Some e → e_clt e = n →
    ∃ k, k ∈ ks ∧ k_id k = e_id e ∧ k_proc k = e_proc e ∧ holds (e_in e) (k_args k) ∧ (k_since k ≤ i)%nat;
  se_out e : e ∈ l → framed (e_out e) ∧ - 2 ^ 31 ≤ e_ret e < 2 ^ 31;
  se_ex e : e ∈ l → (e_clt e, e_id e) ∈ ex;
  se_once i j e e' : l !! i = Some e → l !! j = Some e' → e_clt e ≠ 0 → e_clt e = e_clt e' → e_id e = e_id e' → i = j;
  se_fin x b : (n, x, b) ∈ fin → is_reply n l x b;
  se_asked w u : jobs !! w = Some (Asked u) → ∃ clt x p, ws !! w = Some (Running clt x p) ∧
    (clt = n → ∃ k, k ∈ ks ∧ k_id k = x ∧ k_proc k = p ∧ holds u (k_args k)) ∧
    (clt ≠ 0 → ∀ e, e ∈ l → e_clt e = clt → e_id e ≠ x);
  se_ran w ret rep : jobs !! w = Some (Ran ret rep) → ∃ clt x p e, ws !! w = Some (Running clt x p) ∧
    e ∈ l ∧ e_clt e = clt ∧ e_id e = x ∧ e_ret e = ret ∧ e_out e = rep;
  se_send w b : ws !! w = Some (Sending n b) → b < rpcs.brk sv ∧
    ∀ reply, rpcs.heap sv !! b = Some reply → ∃ x, (n, x, reply) ∈ fin }.

(** What the client may get to know. *)
Record known (n x : Z) (cs : gmap Z rpcc.caller) (l : list (run World)) (reps : list bytes) (rets : list return_) : Prop := {
  kn_reply b : b ∈ reps → ∃ h u, unpack_reply_header (unm_of (frame b)) = (h, u) ∧ 0 < r_xid h < x ∧
    (0 ≤ r_ret h → ∃ i, answer n l (r_xid h) (r_ret h) (take_in u) i);
  kn_call y ca : cs !! y = Some ca → rpcc.done_ ca = true → 0 ≤ rpcc.intret ca →
    ∃ i, answer n l y (rpcc.intret ca) (rpcc.un ca) i;
  kn_ret q : q ∈ rets → 0 ≤ q_ret q → ∃ i, (i < q_until q)%nat ∧ answer n l (q_id q) (q_ret q) (q_out q) i }.

Lemma answer_lt n l x ret u i : answer n l x ret u i → (i < length l)%nat.
Proof. intros (e & He & _). by eapply lookup_lt_Some. Qed.

Lemma answer_app n l l' x ret u i : answer n l x ret u i → answer n (l ++ l') x ret u i.
Proof. intros (e & He & H). exists e. split; [by apply lookup_app_l_Some|done]. Qed.

Lemma is_reply_app n l l' x b : is_reply n l x b → is_reply n (l ++ l') x b.
Proof. intros (e & m & He & H). exists e, m. split; [set_solver|done]. Qed.

(** More calls and runs, a later time, the same client. *)
Lemma wired_now n c c' th th' ks reqs now now' :
  wired n c th ks reqs now → rpcc.clt_nonce_ c' = rpcc.clt_nonce_ c → 0 ≤ rpcc.srv_nonce_ c' < 2 ^ 32 →
  rpcc.xid_ c ≤ rpcc.xid_ c' → rpcc.dup_req_ c' = rpcc.dup_req_ c → th' ⊆ th → (now ≤ now')%nat →
  wired n c' th' ks reqs now'.
Proof.
  intros W Hn Hs Hx Hd Hth Hnow. constructor; try apply W; rewrite ?Hn, ?Hd; try apply W; [done| |].
  - intros k Hk. destruct (wi_call _ _ _ _ _ _ W k Hk) as (? & ? & ? & ?). split_and!; try done; lia.
  - intros t x rep b Ht. eapply (wi_thread _ _ _ _ _ _ W). by eapply lookup_weaken.
Qed.

Lemma known_now n x x' cs l l' reps rets :
  known n x cs l reps rets → x ≤ x' → known n x' cs (l ++ l') reps rets.
Proof.
  intros K Hx. constructor.
  - intros b Hb. destruct (kn_reply _ _ _ _ _ _ K b Hb) as (h & u & ? & ? & H). exists h, u.
    split_and!; [done|lia|lia|]. intros ?. destruct H as [i Hi]; [done|]. eauto using answer_app.
  - intros y ca H1 H2 H3. destruct (kn_call _ _ _ _ _ _ K y ca H1 H2 H3) as [i Hi]. eauto using answer_app.
  - intros q H1 H2. destruct (kn_ret _ _ _ _ _ _ K q H1 H2) as (i & ? & Hi). eauto using answer_app.
Qed.

Lemma served_calls n ks k l sv ws ex fin jobs :
  served n ks l sv ws ex fin jobs → served n (k ++ ks) l sv ws ex fin jobs.
Proof.
  intros []. constructor; try done.
  - intros i e H1 H2. destruct (se_run0 i e H1 H2) as (k' & ? & ?). exists k'. set_solver.
  - intros w u Hw. destruct (se_asked0 w u Hw) as (clt & x & p & ? & H & ?). exists clt, x, p. split_and!; [done| |done].
    intros Hc. destruct (H Hc) as (k' & ? & ?). exists k'. set_solver.
Qed.

Lemma replays_snoc {S} (hs : World → gmap Z (handler S)) within s l s1 e f s2 :
  replays hs within s l s1 → hs (e_world e) !! e_proc e = Some f → f s1 (e_in e) mar_new = Done (e_ret e, e_out e, s2) →
  within s2 = true → replays hs within s (l ++ [e]) s2.
Proof.
  revert s. induction l as [|e' l IH]; cbn [replays app]; intros s.
  - intros -> ? ? ?. by exists f, s2.
  - intros (f' & s' & ? & ? & ? & ?) ? ? ?. exists f', s'. auto 6.
Qed.

(** ** Every event keeps it *)

Lemma begin_wired n c th ks reqs now t p m rep m' c' :
  wired n c th ks reqs now → 0 < n < 2 ^ 32 → 1 ≤ rpcc.xid_ c < 2 ^ 31 - 1 → 0 ≤ rep < rpcc.xid_ c → framed m →
  pack_req_header (mkReq (rpcc.xid_ c) (sgn 32 p) (rpcc.clt_nonce_ c) (rpcc.srv_nonce_ c) (sgn 32 rep)) m = Done m' →
  same_client c c' → rpcc.xid_ c' = rpcc.xid_ c + 1 →
  wired n c' (<[t := (rpcc.xid_ c, rep, data m')]> th) (mkCall (rpcc.xid_ c) (sgn 32 p) m now :: ks) reqs now.
Proof.
  intros W Hn Hx Hr Hm Hp (Hcn & Hcs & Hcd) Hx'. set (k := mkCall _ _ _ _).
  assert (Hk : is_request n k (data m')).
  { exists (rpcc.srv_nonce_ c), rep, m'. split; [apply W|]. split; [done|]. split; [|done].
    rewrite (wi_number _ _ _ _ _ _ W), (sgn_small 32 rep) in Hp by lia. done. }
  assert (Hold : ∀ b, (∃ k, k ∈ ks ∧ is_request n k b) → ∃ k', k' ∈ k :: ks ∧ is_request n k' b)
    by (intros b (k' & ? & ?); exists k'; set_solver).
  pose proof (sgn_range 32 p ltac:(lia)) as Hs. change (2 ^ (32 - 1)) with (2 ^ 31) in Hs.
  constructor; rewrite ?Hcn, ?Hcs, ?Hcd, ?Hx'; try apply W.
  - intros k' [->|Hk']%elem_of_cons; [cbn [k k_id k_since k_args k_proc]; split_and!; try done; lia|].
    destruct (wi_call _ _ _ _ _ _ W k' Hk') as (? & ? & ? & ?). split_and!; try done; lia.
  - intros k1 k2 [->|H1]%elem_of_cons [->|H2]%elem_of_cons; [done|..|by apply (wi_one _ _ _ _ _ _ W)]; cbn.
    + apply (wi_call _ _ _ _ _ _ W) in H2. lia.
    + apply (wi_call _ _ _ _ _ _ W) in H1. lia.
  - intros t' x r b [[_ [= <- <- <-]]|[_ Ht]]%lookup_insert_Some; [exists k; set_solver|].
    destruct (wi_thread _ _ _ _ _ _ W _ _ _ _ Ht) as (k' & ? & ?). exists k'. set_solver.
  - intros b Hb. apply Hold. by apply (wi_req _ _ _ _ _ _ W).
  - intros Hv. apply Hold. by apply (wi_dup _ _ _ _ _ _ W).
Qed.

Lemma transmit_wired n c th ks reqs now t x rep req msgs c' :
  wired n c th ks reqs now → th !! t = Some (x, rep, req) → rpcc.transmit c req = (msgs, c') →
  wired n c' th ks (reqs ++ msgs) now ∧ rpcc.calls_ c' = rpcc.calls_ c ∧ rpcc.xid_ c' = rpcc.xid_ c ∧
  rpcc.xid_rep_window_ c' = rpcc.xid_rep_window_ c.
Proof.
  intros W Ht. destruct (wi_thread _ _ _ _ _ _ W _ _ _ _ Ht) as (k & Hk & _ & Hr). unfold rpcc.transmit.
  destruct (rpcc.isvalid (rpcc.dup_req_ c)) eqn:Hv; cbn [andb]; [destruct (_ <? _)|]; intros [= <- <-]; (split; [|done]).
  - destruct (wi_dup _ _ _ _ _ _ W Hv) as (k' & Hk' & Hr'). constructor; try apply W; [|done].
    intros b [Hb|Hb]%elem_of_app; [by apply (wi_req _ _ _ _ _ _ W)|].
    apply elem_of_cons in Hb as [->|Hb]; [eauto|]. apply list_elem_of_singleton in Hb as ->. eauto.
  - constructor; try apply W. intros b [Hb|Hb%list_elem_of_singleton]%elem_of_app; [by apply (wi_req _ _ _ _ _ _ W)|subst; eauto].
  - constructor; try apply W. intros b [Hb|Hb%list_elem_of_singleton]%elem_of_app; [by apply (wi_req _ _ _ _ _ _ W)|subst; eauto].
Qed.

Lemma finish_wired n c th ks reqs now t x rep req ret c' :
  wired n c th ks reqs now → th !! t = Some (x, rep, req) → rpcc.call1_finish c x rep req = Done (ret, c') →
  wired n c' (delete t th) ks reqs now.
Proof.
  intros W Ht (H1 & H2 & H3 & H4 & _)%finish_effect.
  destruct (wi_thread _ _ _ _ _ _ W _ _ _ _ Ht) as (k & Hk & _ & Hr).
  constructor; rewrite ?H1, ?H2, ?H3; try apply W.
  - intros t' y r b [_ H]%lookup_delete_Some. by eapply (wi_thread _ _ _ _ _ _ W).
  - destruct H4 as [-> | ->]; [apply W|]. eauto.
Qed.

Lemma served_frees n ks l sv sv' ws ex fin jobs :
  served n ks l sv ws ex fin jobs → rpcs.heap sv' ⊆ rpcs.heap sv → rpcs.brk sv' = rpcs.brk sv →
  served n ks l sv' ws ex fin jobs.
Proof.
  intros [] Hh Hb. constructor; try done. intros w b Hw. destruct (se_send0 w b Hw) as [H1 H2].
  rewrite Hb. split; [done|]. intros reply Hr. apply H2. by eapply lookup_weaken.
Qed.

(** A worker that had nothing to do gets a handler to run, or a remembered reply. *)
Lemma served_run n ks l sv ws ex fin jobs w c x p u :
  served n ks l sv ws ex fin jobs → ws !! w = None → (c ≠ 0 → (c, x) ∉ ex) →
  (c = n → ∃ k, k ∈ ks ∧ k_id k = x ∧ k_proc k = p ∧ holds u (k_args k)) →
  served n ks l sv (<[w := Running c x p]> ws) ((c, x) :: ex) fin (<[w := Asked u]> jobs).
Proof.
  intros [] Hw Hx Hk. constructor; try done.
  - intros e He. right. by apply se_ex0.
  - intros w' u' [[<- [= <-]]|[N H]]%lookup_insert_Some.
    + exists c, x, p. rewrite lookup_insert_eq. split_and!; [done|done|]. intros Hc e He Ec Ei.
      apply Hx; [done|]. rewrite <- Ec, <- Ei. by apply se_ex0.
    + rewrite lookup_insert_ne by done. by apply se_asked0.
  - intros w' ret rep [[_ ?]|[N H]]%lookup_insert_Some; [done|]. rewrite lookup_insert_ne by done. by apply se_ran0.
  - intros w' b [[_ ?]|[N H]]%lookup_insert_Some; [done|]. by eapply se_send0.
Qed.

Lemma served_resend n ks l sv ws ex fin jobs w c b :
  served n ks l sv ws ex fin jobs → ws !! w = None →
  (c = n → b < rpcs.brk sv ∧ ∀ reply, rpcs.heap sv !! b = Some reply → ∃ x, (n, x, reply) ∈ fin) →
  served n ks l sv (<[w := Sending c b]> ws) ex fin jobs.
Proof.
  intros [] Hw Hb. constructor; try done.
  - intros w' u H. assert (w ≠ w') by (intros <-; destruct (se_asked0 _ _ H) as (? & ? & ? & E & _); congruence).
    rewrite lookup_insert_ne by done. by apply se_asked0.
  - intros w' ret rep H. assert (w ≠ w') by (intros <-; destruct (se_ran0 _ _ _ H) as (? & ? & ? & ? & E & _); congruence).
    rewrite lookup_insert_ne by done. by apply se_ran0.
  - intros w' b' [[_ [= -> ->]]|[N H]]%lookup_insert_Some; [by apply Hb|]. by eapply se_send0.
Qed.

(** The request that a header of the client belongs to. *)
Definition asks (n : Z) (ks : list call) (h : req_header) (u : unm) : Prop :=
  ∃ k, k ∈ ks ∧ xid h = k_id k ∧ proc h = k_proc k ∧ 0 ≤ xid_rep h < k_id k ∧ k_id k < 2 ^ 31 ∧ holds u (k_args k).

Lemma request_asks n c th ks reqs now b : 0 < n < 2 ^ 32 → rpcc.xid_ c < 2 ^ 31 →
  wired n c th ks reqs now → b ∈ reqs →
  ∃ h u, unpack_req_header (unm_of (frame b)) = (h, u) ∧ u_ok u = true ∧ clt_nonce h = n ∧ asks n ks h u.
Proof.
  intros Hn Hx W Hb. destruct (wi_req _ _ _ _ _ _ W b Hb) as (k & Hk & sn & rep & m & Hs & Hr & Hp & ->).
  destruct (wi_call _ _ _ _ _ _ W k Hk) as (Hki & _ & Hm & Hkp).
  destruct (request_arrives (mkReq (k_id k) (k_proc k) n sn rep) (k_args k) m Hm) as (u & Hu & Hok & Hh);
    [split_and!; cbn; lia|done|].
  eexists _, u. split; [exact Hu|]. split; [done|]. split; [done|]. exists k. cbn. split_and!; done || lia.
Qed.

(** [dispatch] of a message, whoever sent it. *)
Lemma receive_served n ks l sv sv' ws ex fin jobs w h ok u nx :
  0 < n → served n ks l sv ws ex fin jobs → inv sv ws ex fin → ws !! w = None → (clt_nonce h = n → asks n ks h u) →
  rpcs.dispatch_begin sv h ok = Done (nx, sv') →
  let c := clt_nonce h in let x := wrap32 (xid h) in
  match nx with
  | rpcs.Run => served n ks l sv' (<[w := Running c x (proc h)]> ws) ((c, x) :: ex) fin (<[w := Asked u]> jobs)
  | rpcs.Resend b _ => served n ks l sv' (<[w := Sending c b]> ws) ex fin jobs
  | _ => served n ks l sv' ws ex fin jobs
  end.
Proof.
  intros Hn V I Hw Ha E. cbv zeta.
  assert (V' : served n ks l sv' ws ex fin jobs) by (destruct (begin_keeps _ _ _ _ _ E) as (_ & _ & ? & ?); by eapply served_frees).
  destruct (begin_cases _ _ _ _ _ _ _ _ I E) as [[-> _]|[[-> _]|P]]; [done..|].
  destruct nx as [|r| |b m]; [done|done|destruct P as [Hx I']|destruct P as (Hc & I' & reply & Hf & _ & Hb)].
  - apply served_run; [done|done|done|]. intros Hc. destruct (Ha Hc) as (k & Hk & H1 & H2 & H3 & H4 & H5).
    exists k. rewrite H1, wrap_small by lia. done.
  - apply served_resend; [done|done|]. intros Ec. destruct (Ha Ec) as (k & Hk & H1 & H2 & H3 & H4 & H5).
    rewrite H1, !wrap_small in Hb by lia. specialize (Hb ltac:(lia)). split.
    + apply (i_heap _ _ _ _ I'). by rewrite Hb.
    + intros reply' Hr. rewrite Hb in Hr. injection Hr as <-. rewrite Ec in Hf. eauto.
Qed.

Lemma refusal_known n c ks th reqs now cs l reps rets h u sv sv' ws ex fin ok nx out :
  known n (rpcc.xid_ c) cs l reps rets → rpcc.xid_ c < 2 ^ 31 → wired n c th ks reqs now → inv sv ws ex fin →
  rpcs.dispatch_begin sv h ok = Done (nx, sv') → refusal h nx = Done out →
  (clt_nonce h = n → asks n ks h u) →
  known n (rpcc.xid_ c) cs l (reps ++ (if clt_nonce h =? n then out else [])) rets.
Proof.
  intros K Hx W I E Hr Ha. destruct (Z.eqb_spec (clt_nonce h) n) as [Ec|]; [|by rewrite app_nil_r].
  destruct nx as [|ret| |]; [injection Hr as <-; by rewrite app_nil_r| |injection Hr as <-; by rewrite app_nil_r..].
  assert (Hret : - 2 ^ 31 ≤ ret < 0).
  { destruct (begin_cases _ _ _ _ _ _ _ _ I E) as [[? _]|[[[= ->] _]|(_ & -> & _)]]; done. }
  destruct (Ha Ec) as (k & Hk & H1 & _). destruct (wi_call _ _ _ _ _ _ W k Hk) as (Hki & _).
  cbn in Hr. apply bind_Done_inv in Hr as [m [Hm [= <-]]].
  destruct (reply_arrives (mkRep (xid h) ret) mar_new m) as (u' & Hu & _ & _);
    [by split|split; cbn; lia|done|].
  constructor; try apply K. intros b [Hb|Hb]%elem_of_app; [by apply K|]. apply list_elem_of_singleton in Hb as ->.
  eexists _, u'. split; [exact Hu|]. cbn. split; lia.
Qed.

(** A handler runs. *)
Lemma handler_served n ks l sv ws ex fin jobs w c x p u ret rep v now :
  served n ks l sv ws ex fin jobs → inv sv ws ex fin → ws !! w = Some (Running c x p) → jobs !! w = Some (Asked u) →
  framed rep → - 2 ^ 31 ≤ ret < 2 ^ 31 → (∀ k, k ∈ ks → (k_since k ≤ now)%nat) → now = length l →
  served n ks (l ++ [mkRun c x p u ret rep v]) sv ws ex fin (<[w := Ran ret rep]> jobs).
Proof.
  intros V I Hw Hj Hm Hret Hnow ->. set (e0 := mkRun c x p u ret rep v).
  destruct (se_asked _ _ _ _ _ _ _ _ V w u Hj) as (c' & x' & p' & Hw' & Hk & Hnew).
  rewrite Hw in Hw'. injection Hw' as <- <- <-.
  assert (Hin : ∀ e, e ∈ l ++ [e0] → e ∈ l ∨ e = e0) by set_solver.
  assert (Hat : ∀ i e, (l ++ [e0]) !! i = Some e → l !! i = Some e ∨ i = length l ∧ e = e0).
  { intros i e [?|[? H]]%lookup_app_Some; [by left|right]. apply list_lookup_singleton_Some in H as [? <-]. split; [lia|done]. }
  constructor.
  - intros i e [He|[-> ->]]%Hat Hc; [by apply V|]. cbn in Hc. destruct (Hk Hc) as (k & ? & ? & ? & ?).
    exists k. split_and!; try done. by apply Hnow.
  - intros e [He| ->]%Hin; [by apply V|done].
  - intros e [He| ->]%Hin; [by apply V|]. cbn. by apply (i_run _ _ _ _ I) in Hw as (_ & ? & _).
  - intros i j e e' [He|[-> ->]]%Hat [He'|[-> ->]]%Hat H0 Ec Ei; [by eapply V| | |done]; exfalso; cbn in *.
    + eapply (Hnew ltac:(congruence) e); [by eapply list_elem_of_lookup_2|done..].
    + eapply (Hnew ltac:(congruence) e'); [by eapply list_elem_of_lookup_2|done..].
  - intros y b Hb. apply is_reply_app. by apply V.
  - intros w' u' [[_ ?]|[N Hj']]%lookup_insert_Some; [done|].
    destruct (se_asked _ _ _ _ _ _ _ _ V w' u' Hj') as (c' & x' & p' & Hw' & Hk' & Hnew').
    exists c', x', p'. split_and!; [done|done|]. intros Hc e [He| ->]%Hin; [by apply Hnew'|].
    cbn. intros -> ->. by apply N, (i_one _ _ _ _ I _ _ _ _ _ _ Hw Hw').
  - intros w' r m [[<- [= <- <-]]|[N Hj']]%lookup_insert_Some.
    + exists c, x, p, e0. split_and!; try done. set_solver.
    + destruct (se_ran _ _ _ _ _ _ _ _ V w' r m Hj') as (c' & x' & p' & e & ? & ? & ?). exists c', x', p', e. set_solver.
  - by apply V.
Qed.

(** Its reply is recorded. *)
Lemma reply_served n ks l sv ws ex fin jobs w c x p ret rep b reply sv' :
  0 < n → served n ks l sv ws ex fin jobs → inv sv ws ex fin → ws !! w = Some (Running c x p) → jobs !! w = Some (Ran ret rep) →
  rpcs.dispatch_reply sv c x ret rep = Done (b, reply, sv') →
  served n ks l sv' (<[w := Sending c b]> ws) ex ((c, x, reply) :: fin) (delete w jobs).
Proof.
  intros Hn V I Hw Hj (-> & Hh & Hb & Hret & m & Hm & ->)%reply_heap.
  destruct (se_ran _ _ _ _ _ _ _ _ V w ret rep Hj) as (c' & x' & p' & e & Hw' & He & E1 & E2 & E3 & E4).
  rewrite Hw in Hw'. injection Hw' as <- <- <-. constructor; try apply V.
  - intros y d [[= -> -> ->]|Hd]%elem_of_cons; [|by apply V]. exists e, m. subst. done.
  - intros w' u [N H]%lookup_delete_Some. rewrite lookup_insert_ne by done. by apply V.
  - intros w' r d [N H]%lookup_delete_Some. rewrite lookup_insert_ne by done. by apply V.
  - intros w' d [[<- [= -> <-]]|[N H]]%lookup_insert_Some; rewrite Hh, Hb.
    + split; [lia|]. intros reply. rewrite lookup_insert_eq. intros [= <-]. exists x. by left.
    + destruct (se_send _ _ _ _ _ _ _ _ V w' d H) as [? Hr]. split; [lia|].
      intros reply. rewrite lookup_insert_ne by lia. intros [y ?]%Hr. exists y. by right.
Qed.

(** And sent. *)
Lemma send_served n ks l sv ws ex fin jobs w c b reply sv' :
  served n ks l sv ws ex fin jobs → ws !! w = Some (Sending c b) → rpcs.dispatch_send sv c b = Done (reply, sv') →
  served n ks l sv' (delete w ws) ex fin jobs ∧ (c = n → ∃ x, is_reply n l x reply).
Proof.
  intros V Hw E. unfold rpcs.dispatch_send in E. destruct (rpcs.heap sv !! b) as [r|] eqn:Hb; [|done].
  assert (r = reply ∧ rpcs.heap sv' ⊆ rpcs.heap sv ∧ rpcs.brk sv' = rpcs.brk sv) as (-> & H1 & H2).
  { destruct (c =? 0); injection E as <- <-; split_and!; try done. apply delete_subseteq. }
  split.
  - eapply served_frees; [|done|done]. destruct V. constructor; try done.
    + intros w' u H. assert (w ≠ w') by (intros <-; destruct (se_asked0 _ _ H) as (? & ? & ? & E' & _); congruence).
      rewrite lookup_delete_ne by done. by apply se_asked0.
    + intros w' ret rep H. assert (w ≠ w') by (intros <-; destruct (se_ran0 _ _ _ H) as (? & ? & ? & ? & E' & _); congruence).
      rewrite lookup_delete_ne by done. by apply se_ran0.
    + intros w' b' [_ H]%lookup_delete_Some. by eapply se_send0.
  - intros ->. destruct (se_send _ _ _ _ _ _ _ _ V w b Hw) as [_ H]. destruct (H _ Hb) as [x Hx].
    exists x. by apply V.
Qed.

Lemma sent_known n c th ks reqs now sv ws ex fin jobs cs l reps rets x b :
  known n (rpcc.xid_ c) cs l reps rets → wired n c th ks reqs now → served n ks l sv ws ex fin jobs →
  rpcc.xid_ c < 2 ^ 31 → is_reply n l x b → known n (rpcc.xid_ c) cs l (reps ++ [b]) rets.
Proof.
  intros K W V Hx (e & m & He & En & Ex & Hret & Hm & ->).
  pose proof He as (i & Hi)%list_elem_of_lookup. destruct (se_run _ _ _ _ _ _ _ _ V i e Hi En) as (k & Hk & Hki & _).
  destruct (wi_call _ _ _ _ _ _ W k Hk) as (Hkr & _). destruct (se_out _ _ _ _ _ _ _ _ V e He) as [Hf Hr].
  rewrite sgn_small in Hm by lia.
  destruct (reply_arrives (mkRep x (e_ret e)) (e_out e) m Hf) as (u & Hu & _ & Hh); [split; cbn; lia|done|].
  constructor; try apply K. intros b [Hb|Hb]%elem_of_app; [by apply K|]. apply list_elem_of_singleton in Hb as ->.
  eexists _, u. split; [exact Hu|]. cbn. split; [lia|]. intros _. exists i, e. done.
Qed.

Lemma got_known n x l reps rets c b c' :
  known n x (rpcc.calls_ c) l reps rets → b ∈ reps → rpcc.got_pdu c (frame b) = Done c' →
  known n x (rpcc.calls_ c') l reps rets.
Proof.
  intros K Hb (_ & _ & Hc)%got_effect. destruct (kn_reply _ _ _ _ _ _ K b Hb) as (h & u & Hu & _ & Ha). rewrite Hu in Hc.
  constructor; try apply K. intros y ca Hy Hd Hr.
  destruct (Hc y ca Hy) as [?|[-> ->]]; [by apply (kn_call _ _ _ _ _ _ K)|]. by apply Ha.
Qed.

Lemma end_known n l reps rets c x rep req ret c' :
  known n (rpcc.xid_ c) (rpcc.calls_ c) l reps rets → 0 < x < 2 ^ 31 →
  rpcc.call1_finish c x rep req = Done (ret, c') →
  known n (rpcc.xid_ c') (rpcc.calls_ c') l reps
    (mkReturn x ret (from_option rpcc.un unm_none (rpcc.calls_ c !! sgn 32 x)) (length l) :: rets).
Proof.
  intros K Hx (_ & _ & -> & _ & -> & Hret)%finish_effect. rewrite sgn_small in * by lia.
  constructor; [apply K| |].
  - intros y ca [_ Hy]%lookup_delete_Some. by apply (kn_call _ _ _ _ _ _ K).
  - intros q [->|Hq]%elem_of_cons; [|by apply K]. cbn. intros Hr.
    destruct Hret as [?|(ca & Hca & Hd & <-)]; [lia|]. rewrite Hca. cbn.
    destruct (kn_call _ _ _ _ _ _ K x ca Hca Hd Hr) as [i Hi]. exists i. split; [by eapply answer_lt|done].
Qed.

End runs.

Section steps.
Context {S World : Type} (hs : World → gmap Z (handler S)) (within : S → bool).
Context (P : S → Prop) (n : Z) (Hn : 0 < n < 2 ^ 32) (lossy : bool) (sv : server S).
Context (Hbehave : ∀ v p f, hs v !! p = Some f → behaves within P f).

(** The invariants of the client and of the server, and those of what is
    between them. *)
Record ninv (s : net S World) : Prop := {
  ni_cli : let c := n_cli s in cinv (cli c) (threads c) (cancelled c) (answered c) (issued c) (pdus c) (results c);
  ni_srv : let d := n_srv s in inv (srv d) (workers d) (executed d) (finished d);
  ni_wired : wired n (cli (n_cli s)) (threads (n_cli s)) (n_calls s) (n_requests s) (length (n_log s));
  ni_served : let d := n_srv s in
    served n (n_calls s) (n_log s) (srv d) (workers d) (executed d) (finished d) (n_jobs s);
  ni_known : known n (rpcc.xid_ (cli (n_cli s))) (rpcc.calls_ (cli (n_cli s))) (n_log s) (n_replies s) (n_returns s);
  ni_replays : replays hs within (object sv) (n_log s) (n_obj s);
  ni_obj : P (n_obj s) }.

Lemma ninit_inv nonce : unused nonce sv → P (object sv) → ninv (ninit n lossy sv).
Proof.
  intros Hu HP. split; cbn.
  - apply cinit_inv.
  - apply Hu.
  - split; cbn; set_solver by lia.
  - split; cbn; set_solver.
  - split; cbn; set_solver.
  - done.
  - done.
Qed.

(** The number of the client never changes. *)
Lemma ninv_number s : ninv s → number s = n.
Proof. intros I. apply (wi_number _ _ _ _ _ _ (ni_wired _ I)). Qed.

Lemma ninv_xid s : ninv s → 1 ≤ rpcc.xid_ (cli (n_cli s)) < 2 ^ 31.
Proof. intros I. apply (c_xid _ _ _ _ _ _ _ (ni_cli _ I)). Qed.

Lemma receive_inv s w b s' :
  ninv s → (∀ h u, unpack_req_header (unm_of (frame b)) = (h, u) → clt_nonce h = n → asks n (n_calls s) h u) →
  receive s w b = Some (Done s') → ninv s'.
Proof.
  intros I Ha. pose proof (ninv_xid _ I) as Hx. pose proof (ninv_number _ I) as Hnum.
  destruct I as [Ic Is W V K R Ho]. unfold receive.
  destruct (unpack_req_header (unm_of (frame b))) as [h u] eqn:Eu. specialize (Ha h u eq_refl).
  destruct (dstep (n_srv s) (DRecv w h (u_ok u))) as [o|] eqn:Ed; [|done]. intros [= E].
  apply bind_Done_inv in E as [d [-> E]]. apply bind_Done_inv in E as [[nx sv'] [Eb E]].
  apply bind_Done_inv in E as [out [Er [= <-]]]. rewrite Hnum.
  assert (Ty : typed (DRecv w h (u_ok u))).
  { cbn. revert Eu. unfold unpack_req_header. repeat destruct (get_be32 _). intros [= <- _]. cbn. apply wrap_range. lia. }
  pose proof (dstep_inv _ _ _ Is Ty Ed) as Is'. cbn in Ed.
  destruct (workers (n_srv s) !! w) eqn:Ew; [done|]. rewrite Eb, bind_Done in Ed. injection Ed as <-.
  pose proof (receive_served _ _ _ _ _ _ _ _ _ _ _ _ _ _ (proj1 Hn) V Is Ew Ha Eb) as V'. cbv zeta in V'.
  pose proof (refusal_known _ _ _ _ _ _ _ _ _ _ _ _ _ _ _ _ _ _ _ _ K (proj2 Hx) W Is Eb Er Ha) as K'.
  split; cbn [n_cli n_srv n_calls n_log n_jobs n_requests n_replies n_returns n_obj]; try done.
  cbn [srv workers executed finished]. by destruct nx.
Qed.

(** The parts of the invariant that an event leaves alone are dealt with. *)
Ltac parts :=
  split; cbn [n_cli n_srv n_calls n_log n_jobs n_requests n_replies n_returns n_obj
              set_cli cli threads cancelled answered issued pdus results]; try done.

Lemma begin_step_inv s t p m s' : ninv s → ntyped s (NBegin t p m) → nstep hs s (NBegin t p m) = Some (Done s') → ninv s'.
Proof.
  intros I Ty. pose proof (ninv_xid _ I) as Hx.
  pose proof I as [Ic Is W V K R Ho]. cbn [nstep].
  destruct (cstep (n_cli s) (CBegin t p m)) as [o|] eqn:E0; [|done]. intros [= E].
  apply bind_Done_inv in E as [c' [-> [= <-]]]. pose proof (cstep_inv _ (CBegin t p m) _ Ic (proj1 Ty) E0) as Ic'.
  cbn in E0. destruct (threads (n_cli s) !! t) eqn:Et; [done|]. injection E0 as E0.
  apply bind_Done_inv in E0 as [[r c] [E0 [= <-]]].
  apply begin_effect in E0 as [(e & -> & ->)|(rep & m' & -> & Hp & Hf & Hs & Hx' & Hc)]; [| |destruct Ty; lia].
  + rewrite Et. by split.
  + cbn [threads] in *. rewrite lookup_insert_eq.
    parts.
    * apply (begin_wired _ _ _ _ _ _ _ _ _ _ _ _ W Hn); try done; [destruct Ty; lia| |apply Ty].
      by eapply front_range.
    * by apply served_calls.
    * cbn [cli]. rewrite Hx', Hc. apply (known_now _ _ (rpcc.xid_ (cli (n_cli s)) + 1)) with (l' := []) in K; [|lia].
      rewrite app_nil_r in K. destruct K. split; try done.
      intros y ca [[<- <-]|[_ Hy]]%lookup_insert_Some; [done|by apply kn_call0].
Qed.

Lemma run_step_inv s w v s' : ninv s → within (n_obj s') = true → nstep hs s (NRun w v) = Some (Done s') → ninv s'.
Proof.
  intros I Hin. pose proof (ninv_xid _ I) as Hx.
  pose proof I as [Ic Is W V K R Ho]. cbn [nstep].
  destruct (workers (n_srv s) !! w) as [[c x p|]|] eqn:Ew; [|done..].
  destruct (n_jobs s !! w) as [[u|]|] eqn:Ej; [|done..].
  destruct (hs v !! p) as [f|] eqn:Ef; [|done]. intros [= E].
  apply bind_Done_inv in E as [[[ret rep] obj] [E [= <-]]]. destruct (Hbehave v p f Ef _ _ _ _ _ Ho E Hin) as (Hm & Hr & Ho').
  parts.
  + eapply wired_now; [exact W|done|apply W|lia|done|done|rewrite length_app; lia].
  + eapply handler_served; [done..| |done]. intros k Hk. by apply W.
  + by eapply known_now.
  + by eapply replays_snoc.
Qed.

Lemma reply_step_inv s w s' : ninv s → nstep hs s (NReply w) = Some (Done s') → ninv s'.
Proof.
  intros I. pose proof (ninv_xid _ I) as Hx.
  pose proof I as [Ic Is W V K R Ho]. cbn [nstep].
  destruct (n_jobs s !! w) as [[|ret rep]|] eqn:Ej; [done| |done].
  destruct (dstep (n_srv s) (DReturn w ret rep)) as [o|] eqn:E0; [|done]. intros [= E].
  apply bind_Done_inv in E as [d [-> [= <-]]]. pose proof (dstep_inv _ (DReturn w ret rep) _ Is Logic.I E0) as Is'.
  cbn in E0. destruct (workers (n_srv s) !! w) as [[c x p|]|] eqn:Ew; [|done..]. injection E0 as E0.
  apply bind_Done_inv in E0 as [[[b reply] sv'] [E0 [= <-]]].
  parts.
  eapply reply_served; try done. lia.
Qed.

Lemma send_step_inv s w s' : ninv s → nstep hs s (NSend w) = Some (Done s') → ninv s'.
Proof.
  intros I. pose proof (ninv_xid _ I) as Hx. pose proof (ninv_number _ I) as Hnum.
  pose proof I as [Ic Is W V K R Ho]. cbn [nstep].
  destruct (workers (n_srv s) !! w) as [[|c b]|] eqn:Ew; [done| |done]. intros [= E].
  apply bind_Done_inv in E as [[reply sv'] [E [= <-]]].
  destruct (send_served _ _ _ _ _ _ _ _ _ _ _ _ _ V Ew E) as [V' Hrep].
  assert (E0 : dstep (n_srv s) (DSend w) =
    Some (Done (mkD sv' (delete w (workers (n_srv s))) (executed (n_srv s)) (finished (n_srv s))))).
  { cbn. by rewrite Ew, E, bind_Done. }
  pose proof (dstep_inv _ (DSend w) _ Is Logic.I E0) as Is'.
  parts.
  rewrite Hnum. destruct (Z.eqb_spec c n) as [->|]; [|by rewrite app_nil_r].
  destruct Hrep as [x Hrep]; [done|].
  exact (sent_known _ _ _ _ _ _ _ _ _ _ _ _ _ _ _ x reply K W V' (proj2 Hx) Hrep).
Qed.

Lemma deliver_step_inv s i s' : ninv s → nstep hs s (NDeliver i) = Some (Done s') → ninv s'.
Proof.
  intros I. pose proof (ninv_xid _ I) as Hx.
  pose proof I as [Ic Is W V K R Ho]. cbn [nstep].
  destruct (n_replies s !! i) as [b|] eqn:Ei; [|done]. apply list_elem_of_lookup_2 in Ei.
  destruct (cstep (n_cli s) (CPdu (frame b))) as [o|] eqn:E0; [|done]. intros [= E].
  apply bind_Done_inv in E as [c' [-> [= <-]]].
  assert (Tc : ctyped (n_cli s) (CPdu (frame b))).
  { cbn. destruct (kn_reply _ _ _ _ _ _ K b Ei) as (h & u & -> & Hr & _). done. }
  pose proof (cstep_inv _ (CPdu (frame b)) _ Ic Tc E0) as Ic'.
  cbn in E0. destruct (unpack_reply_header (unm_of (frame b))) as [h u]. injection E0 as E0.
  apply bind_Done_inv in E0 as [c1 [E0 E1]]. pose proof (got_effect _ _ _ E0) as ((H1 & H2 & H3) & H4 & _).
  pose proof (got_known _ _ _ _ _ _ _ _ K Ei E0) as K'. rewrite <- H4 in K'.
  assert (W' : wired n c1 (threads (n_cli s)) (n_calls s) (n_requests s) (length (n_log s)))
    by (eapply wired_now; [exact W|done|rewrite H2; apply W|lia|done|done|lia]).
  destruct (u_ok u); injection E1 as <-; by split.
Qed.

Lemma end_step_inv s t s' : ninv s → nstep hs s (NEnd t) = Some (Done s') → ninv s'.
Proof.
  intros I. pose proof (ninv_xid _ I) as Hx.
  pose proof I as [Ic Is W V K R Ho]. cbn [nstep].
  destruct (threads (n_cli s) !! t) as [[[x rep] req]|] eqn:Et; [|done]. intros [= E].
  apply bind_Done_inv in E as [[ret c'] [E [= <-]]].
  assert (0 < x < 2 ^ 31) as Hx'.
  { destruct (c_thread _ _ _ _ _ _ _ Ic _ _ _ _ Et). lia. }
  parts.
  + by eapply finish_inv.
  + by eapply finish_wired.
  + by eapply end_known.
Qed.

Lemma nstep_inv s e s' : ninv s → ntyped s e → within (n_obj s') = true → nstep hs s e = Some (Done s') → ninv s'.
Proof.
  intros I Ty Hin. pose proof (ninv_xid _ I) as Hx. pose proof (ninv_number _ I) as Hnum.
  pose proof I as [Ic Is W V K R Ho].
  destruct e as [t p m|t|w i|w b|w v|w|w|i|t| |ret r]; [by apply begin_step_inv| | | |by apply run_step_inv|by apply reply_step_inv|
    by apply send_step_inv|by apply deliver_step_inv|by apply end_step_inv| |]; cbn [nstep].
  - destruct (threads (n_cli s) !! t) as [[[x rep] req]|] eqn:Et; [|done].
    destruct (rpcc.transmit (cli (n_cli s)) req) as [msgs c'] eqn:E0. intros [= <-].
    destruct (transmit_wired _ _ _ _ _ _ _ _ _ _ _ _ W Et E0) as (W' & H1 & H2 & H3).
    parts.
    + destruct Ic. constructor; rewrite ?H1, ?H2, ?H3; done.
    + by rewrite H1, H2.
  - destruct (n_requests s !! i) as [b|] eqn:Ei; [|done]. apply receive_inv; [done|].
    intros h u Hu _. destruct (request_asks _ _ _ _ _ _ b Hn (proj2 Hx) W) as (h' & u' & Hu' & _ & _ & Ha);
      [by eapply list_elem_of_lookup_2|]. rewrite Hu in Hu'. by injection Hu' as <- <-.
  - destruct (Z.eqb_spec (clt_nonce (unpack_req_header (unm_of (frame b))).1) (number s)) as [|N]; [done|].
    apply receive_inv; [done|]. intros h u Hu Hc. rewrite Hu, Hnum in N. done.
  - intros [= <-].
    parts.
    + by eapply cancel_inv.
    + eapply wired_now; [exact W|done|apply W|done|done|done|done].
    + split; try apply K. intros y ca. cbn. rewrite lookup_fmap. intros (ca0 & _ & ->)%fmap_Some. done.
  - intros [= <-].
    assert (Ic' := cstep_inv (n_cli s) (CBound ret (wrap32 r)) _ Ic Logic.I eq_refl).
    parts.
    + eapply wired_now; [exact W|..]; unfold set_cli, rpcc.bind_return; cbn [cli]; destruct (ret =? 0); cbn; try done; try apply W.
      apply wrap_range. lia.
    + unfold set_cli, rpcc.bind_return; cbn [cli]; by destruct (ret =? 0).
Qed.

Lemma nreach_inv nonce s :
  unused nonce sv → P (object sv) → nreach hs within (ninit n lossy sv) s → ninv s.
Proof. intros Hu HP. induction 1; [by eapply ninit_inv|]. by eapply nstep_inv. Qed.

(** The run behind a return. *)
Lemma returned_run s q : ninv s → q ∈ n_returns s → 0 ≤ q_ret q →
  ∃ k i e, k ∈ n_calls s ∧ k_id k = q_id q ∧ (k_since k ≤ i < q_until q)%nat ∧
    n_log s !! i = Some e ∧ e_clt e = n ∧ e_id e = q_id q ∧ e_proc e = k_proc k ∧ holds (e_in e) (k_args k) ∧
    e_ret e = q_ret q ∧ holds (q_out q) (e_out e).
Proof.
  intros R Hq Hr. destruct (kn_ret _ _ _ _ _ _ (ni_known _ R) q Hq Hr) as (i & Hi & e & He & Hen & Hei & Her & Ho).
  destruct (se_run _ _ _ _ _ _ _ _ (ni_served _ R) i e He Hen) as (k & Hk & Hki & Hkp & Hka & Hks).
  exists k, i, e. split_and!; try done; congruence.
Qed.

(** C2: Remote calls take effect once, while they last.  Whatever the network
    loses, repeats, delays and reorders, whatever other clients send, and however
    callers, workers, time-outs and cancellations interleave: the handlers run one
    after the other on the object; no request has its handler run twice; and a
    call that returns a status of its handler, not a failure, has had it run on its
    arguments, at a moment after the call began and before it returned, and returns
    what that run gave. *)
Theorem calls_take_effect_once nonce s :
  unused nonce sv → P (object sv) → nreach hs within (ninit n lossy sv) s →
  replays hs within (object sv) (n_log s) (n_obj s) ∧
  (∀ i j e e', n_log s !! i = Some e → n_log s !! j = Some e' → e_clt e ≠ 0 → e_clt e = e_clt e' →
     e_id e = e_id e' → i = j) ∧
  ∀ q, q ∈ n_returns s → 0 ≤ q_ret q →
    ∃ k i e, k ∈ n_calls s ∧ k_id k = q_id q ∧ (k_since k ≤ i < q_until q)%nat ∧
      n_log s !! i = Some e ∧ e_clt e = n ∧ e_id e = q_id q ∧ e_proc e = k_proc k ∧ holds (e_in e) (k_args k) ∧
      e_ret e = q_ret q ∧ holds (q_out q) (e_out e).
Proof.
  intros Hu HP R%(nreach_inv nonce); [|done..]. split; [apply R|]. split; [apply (ni_served _ R)|].
  intros q. by apply returned_run.
Qed.

End steps.

(** ** Typed handlers *)

(** A typed value that was packed is what the other side reads. *)
Lemma holds_reads {A} (c : codec A) `{!CodecLaws c} a u m :
  holds u m → put c a mar_new = Done m → wf c a → zlen (enc c a) < 2 ^ 29 →
  ∃ u', get c u = Done (a, u') ∧ okdone u' = true.
Proof.
  intros (hd & Hhd & ->) Hp Hw Hl. destruct (message_bytes c a [] Hw Hl) as (m1 & cap & E' & Hd & _); [cbn; lia|].
  rewrite Hp in E'. injection E' as <-. destruct (read_body c a hd Hw Hl Hhd) as (u1 & Hu & Hok). exists u1.
  unfold get_content. by rewrite Hd, drop_app_length' by by rewrite length_replicate.
Qed.

(** What a message packs is determined by it. *)
Lemma put_inj {A} (c : codec A) `{!CodecLaws c} a b m :
  put c a mar_new = Done m → put c b mar_new = Done m → wf c a → wf c b →
  zlen (enc c a) < 2 ^ 29 → zlen (enc c b) < 2 ^ 29 → a = b.
Proof.
  intros Ha Hb Hwa Hwb Hla Hlb. pose (u := mkUnm (zeros 24 ++ get_content m) RPC_HEADER_SZ true).
  assert (Hu : holds u m) by (exists (zeros 24); split; [apply length_replicate|done]).
  destruct (holds_reads c a u m Hu Ha Hwa Hla) as (u1 & E1 & _). destruct (holds_reads c b u m Hu Hb Hwb Hlb) as (u2 & E2 & _).
  rewrite E1 in E2. by injection E2.
Qed.

(** What a handler of a run reads. *)
Definition reads {World A} (c : codec A) (e : run World) : option A :=
  match get c (e_in e) with Done (a, u) => if okdone u then Some a else None | _ => None end.

Lemma reads_of {World A} (c : codec A) (e : run World) a u : get c (e_in e) = Done (a, u) → okdone u = true → reads c e = Some a.
Proof. unfold reads. by intros -> ->. Qed.

(** A handler object refuses a request that it cannot read, or runs its method. *)
Lemma fn_cases {S A R} (c : codec A) (d : codec R) (r0 : R) meth (s : S) u ret rep s' :
  fn c d r0 meth s u mar_new = Done (ret, rep, s') →
  ∃ a u', get c u = Done (a, u') ∧
    ((okdone u' = false ∧ ret = unmarshal_args_failure ∧ rep = mar_new ∧ s' = s) ∨
     (okdone u' = true ∧ ∃ r, meth s a r0 = Done (ret, r, s') ∧ put d r mar_new = Done rep)).
Proof.
  unfold fn. intros [[a u'] [Hg E]]%bind_Done_inv. exists a, u'. split; [done|].
  destruct (okdone u'); cbn [negb] in E; [right|injection E as <- <- <-; by left].
  apply bind_Done_inv in E as [[[b r] s1] [Hm E]]. apply bind_Done_inv in E as [m [Hp [= <- <- <-]]].
  split; [done|]. by exists r.
Qed.

Lemma fn_framed {S A R} (c : codec A) (d : codec R) `{!CodecLaws d} (r0 : R) meth (s : S) u ret rep s' :
  fn c d r0 meth s u mar_new = Done (ret, rep, s') →
  (∀ a r, meth s a r0 = Done (ret, r, s') → wf d r ∧ zlen (enc d r) < 2 ^ 29 ∧ - 2 ^ 31 ≤ ret < 2 ^ 31) →
  framed rep ∧ - 2 ^ 31 ≤ ret < 2 ^ 31.
Proof.
  intros (a & u' & _ & [(_ & -> & -> & ->)|(_ & r & Hm & E)])%fn_cases H; [by repeat split|].
  destruct (H _ _ Hm) as (Hw & Hl & Hr). split; [|done].
  destruct (message_bytes d r [] Hw Hl) as (m1 & cap & E' & Hd & _); [cbn; lia|]. rewrite E in E'. injection E' as ->. split.
  - rewrite Hd, length_app, length_replicate. lia.
  - destruct (put_law (c := d) r mar_new Hw) as (cap' & E' & Hok); [by repeat split|cbn; unfold size_max; lia|].
    rewrite E in E'. injection E' as ->. destruct Hok as [? ?]. unfold DEFAULT_RPC_SZ in *. cbn [data capa] in *. lia.
Qed.

Lemma fn_behaves {S A R} within (P : S → Prop) (c : codec A) (d : codec R) `{!CodecLaws d} (r0 : R) meth :
  (∀ s a ret r s', P s → meth s a r0 = Done (ret, r, s') → within s' = true →
     wf d r ∧ zlen (enc d r) < 2 ^ 29 ∧ - 2 ^ 31 ≤ ret < 2 ^ 31 ∧ P s') →
  behaves within P (fn c d r0 meth).
Proof.
  intros H s u ret rep s' HP E Hin.
  destruct (fn_framed c d r0 meth s u ret rep s' E) as [? ?]; [intros a r Hm; pose proof (H _ _ _ _ _ HP Hm Hin); tauto|].
  split_and!; try done || lia.
  apply fn_cases in E as (a & u' & _ & [(_ & _ & _ & ->)|(_ & r & Hm & _)]); [done|].
  by destruct (H _ _ _ _ _ HP Hm Hin) as (_ & _ & _ & ?).
Qed.

(** What a run of a typed method did, and what the caller reads. *)
Lemma fn_ran {S A R} (c : codec A) (d : codec R) `{!CodecLaws d} (r0 : R) meth (s : S) u ret rep s' :
  fn c d r0 meth s u mar_new = Done (ret, rep, s') → 0 ≤ ret →
  ∃ a u' r, get c u = Done (a, u') ∧ okdone u' = true ∧ meth s a r0 = Done (ret, r, s') ∧ put d r mar_new = Done rep ∧
    ∀ v, wf d r → zlen (enc d r) < 2 ^ 29 → holds v rep → rpcc.call_m d ret v = Done (ret, Some r).
Proof.
  intros (a & u' & Hg & [(_ & -> & _)|(Hok & r & Hm & Hp)])%fn_cases Hret; [done|]. exists a, u', r. split_and!; try done.
  intros v Hw Hl Hv. destruct (holds_reads d r v rep Hv Hp Hw Hl) as (u1 & Hu & Hok1).
  unfold rpcc.call_m. test_false. rewrite Hu, bind_Done. cbv beta iota. by rewrite Hok1.
Qed.

Section history.
Context {S World : Type} (hs : World → gmap Z (handler S)) (within : S → bool).

(** A run takes the object from one state to the next. *)
Definition ran (e : run World) (s s' : S) : Prop :=
  ∃ f, hs (e_world e) !! e_proc e = Some f ∧ f s (e_in e) mar_new = Done (e_ret e, e_out e, s') ∧ within s' = true.

(** The states of the object between the runs. *)
Lemma replays_states l : ∀ s s', replays hs within s l s' →
  ∃ O : nat → S, O 0%nat = s ∧ O (length l) = s' ∧ (∀ i e, l !! i = Some e → ran e (O i) (O (Datatypes.S i))) ∧
    (∀ i s1, (i ≤ length l)%nat → replays hs within s (take i l) s1 → s1 = O i).
Proof.
  induction l as [|e l IH]; intros s s'.
  - intros ->. exists (λ _, s). split_and!; try done. intros i s1 _. by rewrite take_nil.
  - intros (f & s1 & Hf & E & Hin & R). destruct (IH _ _ R) as (O & H0 & Hl & Hstep & Hat).
    exists (λ i, match i with 0%nat => s | Datatypes.S i => O i end). split_and!; [done|done| |].
    + intros [|i] e' Hi; [|by apply Hstep]. injection Hi as <-. rewrite H0. by exists f.
    + intros [|i] s2 Hi; [done|]. cbn. intros (f' & s3 & Hf' & E' & _ & R').
      rewrite Hf in Hf'. injection Hf' as <-. rewrite E in E'. injection E' as <-. apply Hat; [cbn in Hi; lia|done].
Qed.

Lemma ran_det e s s1 s2 : ran e s s1 → ran e s s2 → s1 = s2.
Proof. intros (f & Hf & E & _) (f' & Hf' & E' & _). rewrite Hf in Hf'. injection Hf' as <-. rewrite E in E'. by injection E'. Qed.

End history.

Lemma replays_at {S World} (hs : World → gmap Z (handler S)) within l : ∀ s s' i e,
  replays hs within s l s' → l !! i = Some e →
  ∃ f s1 s2, replays hs within s (take i l) s1 ∧ hs (e_world e) !! e_proc e = Some f ∧
    f s1 (e_in e) mar_new = Done (e_ret e, e_out e, s2) ∧ within s2 = true ∧
    replays hs within s2 (drop (Datatypes.S i) l) s'.
Proof.
  induction l as [|e' l IH]; intros s s' i e; [done|]. intros (f & s1 & Hf & E & Hin & R) Hi.
  destruct i as [|i]; [injection Hi as ->; exists f, s, s1; by repeat split|].
  destruct (IH s1 s' i e R Hi) as (f' & s2 & s3 & H1 & H2 & H3 & H4 & H5). exists f', s2, s3.
  split_and!; try done. by exists f, s1.
Qed.

Section typed.
Context {S World : Type} (hs : World → gmap Z (handler S)) (within : S → bool) (P : S → Prop).
Context (Hbehave : ∀ v p f, hs v !! p = Some f → behaves within P f).

Lemma replays_keeps l : ∀ s s', replays hs within s l s' → P s → P s'.
Proof.
  induction l as [|e l IH]; intros s s'; [by intros ->|]. intros (f & s1 & Hf & E & Hin & R) HP.
  destruct (Hbehave _ _ _ Hf _ _ _ _ _ HP E Hin) as (_ & _ & HP1). by apply (IH s1).
Qed.

(** A call of the client, with its argument, that returned what the caller reads
    as the status [st] and the reply [o]. *)
Definition returned {A R} (c : codec A) (d : codec R) (s : net S World) (k : call) (q : return_) (p : Z) (a : A) (st : Z) (o : option R) : Prop :=
  k ∈ n_calls s ∧ k_proc k = p ∧ put c a mar_new = Done (k_args k) ∧
  q ∈ n_returns s ∧ q_id q = k_id k ∧ rpcc.call_m d (q_ret q) (q_out q) = Done (st, o).

(** Its method ran once, on the state that the runs before had left, with what the
    world [shown] there, and gave that status and that reply. *)
Lemma returned_ran {A R} (c : codec A) (d : codec R) `{!CodecLaws c, !CodecLaws d} (r0 : R) (meth : World → S → A → R → outcome (Z * R * S)) (shown : World → S → S)
    n sv s k q p a st o :
  ninv hs within P n sv s → P (object sv) → returned c d s k q p a st o → 0 ≤ st → wf c a → zlen (enc c a) < 2 ^ 29 →
  (∀ v, hs v !! p = Some (λ s, fn c d r0 (meth v) (shown v s))) →
  (∀ v s1 ret r s2, P s1 → meth v (shown v s1) a r0 = Done (ret, r, s2) → within s2 = true → wf d r ∧ zlen (enc d r) < 2 ^ 29) →
  ∃ i e s1 r s2, n_log s !! i = Some e ∧ (k_since k ≤ i < q_until q)%nat ∧ e_clt e = n ∧ e_id e = k_id k ∧ e_proc e = p ∧
    (∃ u, get c (e_in e) = Done (a, u) ∧ okdone u = true) ∧
    replays hs within (object sv) (take i (n_log s)) s1 ∧ meth (e_world e) (shown (e_world e) s1) a r0 = Done (st, r, s2) ∧
    e_ret e = st ∧ put d r mar_new = Done (e_out e) ∧ wf d r ∧ o = Some r ∧ ran hs within e s1 s2.
Proof.
  intros I H0 (Hk & Hp & Ha & Hq & Hid & Hc) Hst Hw Hl Hm Hsmall.
  assert (Hr : 0 ≤ q_ret q).
  { unfold rpcc.call_m in Hc. destruct (Z.ltb_spec (q_ret q) 0); [injection Hc as <- <-; lia|done]. }
  destruct (returned_run _ _ _ _ _ s q I Hq Hr) as (k1 & i & e & Hk1 & Hid1 & Hi & He & Hce & Hei & Hep & Hin & Her & Ho).
  assert (k1 = k) as -> by (apply (wi_one _ _ _ _ _ _ (ni_wired _ _ _ _ _ _ I)); [done|done|congruence]).
  destruct (replays_at _ _ _ _ _ _ _ (ni_replays _ _ _ _ _ _ I) He) as (f & s1 & s2 & R1 & Hf & E & Hw2 & R2).
  rewrite Hep, Hp, Hm in Hf. injection Hf as <-. rewrite <- Her in Hr.
  destruct (fn_ran c d r0 (meth (e_world e)) (shown (e_world e) s1) _ _ _ _ E Hr) as (a' & u & r & Hg & Hok & Hrun & Hput & Hread).
  destruct (holds_reads c a (e_in e) (k_args k) Hin Ha Hw Hl) as (u' & Hg' & _). rewrite Hg in Hg'. injection Hg' as -> <-.
  destruct (Hsmall _ _ _ _ _ (replays_keeps _ _ _ R1 H0) Hrun Hw2) as [Hwr Hlr].
  rewrite <- Her, (Hread _ Hwr Hlr Ho) in Hc. injection Hc as <- <-.
  exists i, e, s1, r, s2. split_and!; try done || lia || congruence; [by exists u|]. exists (λ s, fn c d r0 (meth (e_world e)) (shown (e_world e) s)). split; [by rewrite Hep, Hp|by split].
Qed.

End typed.

(** ** Runs *)

Section runs.
Context {S World : Type} (hs : World → gmap Z (handler S)) (within : S → bool).

Fixpoint nrun (s : net S World) (es : list (nevent World)) : option (outcome (net S World)) :=
  match es with
  | [] => Some (Done s)
  | e :: es => match nstep hs s e with Some (Done s') => nrun s' es | r => r end
  end.

#[export] Instance framed_dec m : Decision (framed m).
Proof. unfold framed. apply _. Defined.
#[export] Instance ntyped_dec (s : net S World) e : Decision (ntyped s e).
Proof. destruct e; cbn; apply _. Defined.

(** Every event of the run respects the bound on the ids, and those on the object. *)
Fixpoint ntyped_run (s : net S World) (es : list (nevent World)) : bool :=
  match es with
  | [] => true
  | e :: es => bool_decide (ntyped s e) && match nstep hs s e with Some (Done s') => within (n_obj s') && ntyped_run s' es | _ => true end
  end.

Lemma nrun_reach s0 s es s' :
  nreach hs within s0 s → ntyped_run s es = true → nrun s es = Some (Done s') → nreach hs within s0 s'.
Proof.
  revert s. induction es as [|e es IH]; intros s R; cbn [nrun ntyped_run]; [by intros _ [= <-]|].
  intros [Te%bool_decide_eq_true Ts]%andb_true_iff. destruct (nstep hs s e) as [[s1| | |]|] eqn:E; try done.
  apply andb_true_iff in Ts as [Hin Ts]. apply IH; [|done]. by econstructor.
Qed.

End runs.

(** A sum behind one method: two threads add 10 and 3; the requests are
    overtaken and repeated, and so are the replies. *)
Definition add_meth (s a r : Z) : outcome (Z * Z * Z) := let t := sgn 32 (s + a) in Done (0, t, t).
Definition sum_server : server Z :=
  match (sv ← server_make 77 0 0; reg 5 (fn1 i32 i32 0 add_meth) sv) with
  | Done sv => sv
  | _ => mkServer (rpcs.mk 77 ∅ ∅ 1 ∅ 0 0 ∅) ∅ 0
  end.
Definition int_arg (x : Z) : mar := match put i32 x mar_new with Done m => m | _ => mar_new end.
Definition sum_events : list (nevent unit) :=
  [NBegin 0 1 (int_arg 0); NTransmit 0; NArrive 0 0; NRun 0 tt; NReply 0; NSend 0; NDeliver 0; NEnd 0; NBound 0 77;
   NBegin 1 5 (int_arg 10); NBegin 2 5 (int_arg 3); NTransmit 1; NTransmit 2; NTransmit 2;
   NArrive 0 2; NArrive 1 3; NRun 0 tt; NReply 0; NArrive 2 1; NArrive 1 3; NRun 2 tt; NSend 0; NSend 1; NReply 2; NSend 2;
   NDeliver 3; NDeliver 2; NDeliver 1; NEnd 1; NEnd 2; NArrive 0 1; NSend 0; NDeliver 4].
Definition sum_start : net Z unit := ninit 9 false sum_server.
Definition sum_end : net Z unit :=
  match nrun (λ _, handlers sum_server) sum_start sum_events with Some (Done s) => s | _ => sum_start end.

Lemma bind_behaves {S} within (P : S → Prop) nonce : - 2 ^ 31 ≤ nonce < 2 ^ 31 → behaves within P (bind_handler nonce).
Proof. intros Hn. apply (fn_behaves within P i32 i32). intros s a ret r s' HP [= <- <- <-] _. by split_and!; try (cbn; lia). Qed.

(** A server of one typed method. *)
Lemma one_method {S} nonce count p (f : handler S) s0 :
  p ≠ bind_proc →
  ∃ sv, (sv ← server_make nonce count s0; reg p f sv) = Done sv ∧ unused nonce sv ∧ object sv = s0 ∧
    handlers sv = <[p := f]> {[bind_proc := bind_handler nonce]}.
Proof.
  intros Hp. destruct (unused_make nonce count s0) as (sv & -> & Hu & Ho & Hh).
  destruct (unused_reg nonce sv p f Hu) as (sv' & Hr & Hu' & Ho' & Hh').
  { rewrite Hh. by apply lookup_singleton_None. }
  exists sv'. rewrite bind_Done, Hr. split_and!; [done|done|congruence|by rewrite Hh', Hh].
Qed.

Lemma one_method_behaves {S} within (P : S → Prop) nonce p (f : handler S) (hs : gmap Z (handler S)) :
  hs = <[p := f]> {[bind_proc := bind_handler nonce]} → - 2 ^ 31 ≤ nonce < 2 ^ 31 → behaves within P f →
  ∀ p' f', hs !! p' = Some f' → behaves within P f'.
Proof.
  intros -> Hn Hf p' f' [[_ <-]|[_ [_ <-]%lookup_singleton_Some]]%lookup_insert_Some; [done|by apply bind_behaves].
Qed.

Lemma calls_take_effect_once_witness :
  n_obj sum_end = 13 ∧ replays (λ _, handlers sum_server) (λ _, true) 0 (n_log sum_end) (n_obj sum_end) ∧
  ∃ k i e, k ∈ n_calls sum_end ∧ k_id k = 2 ∧ n_log sum_end !! i = Some e ∧ e_id e = 2 ∧ e_proc e = k_proc k ∧
    holds (e_in e) (k_args k).
Proof.
  destruct (one_method 77 0 5 (fn1 i32 i32 0 add_meth) 0 ltac:(done)) as (sv & Hsv & Hu & Ho & Hh).
  assert (Es : sum_server = sv) by (unfold sum_server; by rewrite Hsv).
  assert (Hb : ∀ p f, handlers sum_server !! p = Some f → behaves (λ _, true) (λ _ : Z, True) f).
  { rewrite Es. eapply one_method_behaves; [done|done|]. apply (fn_behaves _ _ i32 i32). intros s a ret r s' _ [= <- <- <-] _.
    pose proof (sgn_range 32 (s + a) ltac:(lia)) as Hr. split_and!; [exact Hr|cbn; lia|lia|lia|done]. }
  rewrite <- Es in Hu.
  destruct (calls_take_effect_once (λ _ : unit, handlers sum_server) (λ _, true) (λ _, True) 9 ltac:(lia) false sum_server (λ _, Hb) 77 sum_end Hu Logic.I) as (H1 & _ & H3).
  - apply (nrun_reach _ _ _ sum_start sum_events); [constructor|vm_compute; reflexivity|].
    unfold sum_end. by vm_compute.
  - split; [vm_compute; reflexivity|]. split; [rewrite <- Ho, <- Es; exact H1|].
    destruct (H3 (nth 1 (n_returns sum_end) (mkReturn 0 0 unm_none 0))) as (k & i & e & H4 & H5 & _ & H6 & _ & H7 & H8 & H9 & _).
    + apply list_elem_of_lookup_2 with (i := 1%nat). vm_compute. reflexivity.
    + by vm_compute.
    + exists k, i, e. by split_and!.
Defined.
