(* ===== verification/RpcSections.v ===== *)
(** * Handlers in sections, over an unreliable network (src/rpc/rpc.cc, rpcs::dispatch)

    In RpcNetwork.v a handler is one step on the object.  Here a worker runs it
    section by section, among the sections of the other workers' handlers
    (Sections.v): it enters a section when its mutex is free, and leaves it with
    the section's effect; two workers in sections that race are undefined
    behaviour.  The main lemma says when the two agree: some handlers, the [lone]
    ones, have several sections, or touch data without the server's mutex; as long
    as none of them overlaps another handler, every run in sections is a run of
    RpcNetwork.v. *)

From S2P Require Import Prelude Marshall RpcServer Connection ConnSend RpcStub RpcClient RpcNetwork Sections.

(** ** Handler objects *)

Section handlers.
Context {S L C : Type}.

(** The handler object of a method in sections. *)
Definition fn_code {A R} (c : codec A) (d : codec R) (r0 : R) (meth : A → R → code S L C (Z * R)) (args : unm) :
    code S L C (Z * mar) :=
  match get c args with
  | Done (a, args) =>
      if negb (okdone args) then Ret (Done (unmarshal_args_failure, mar_new))
      else andthen (meth a r0) (λ '(b, r), Ret (ret ← put d r mar_new; Done (b, ret)))
  | o => Ret (_ ← o; Undef)
  end.

(** It does what the handler object of the method alone does. *)
Lemma alone_fn {A R} (c : codec A) (d : codec R) (r0 : R) meth meth' u s :
  (∀ s a, meth' s a r0 = '((b, r), s) ← alone (meth a r0) s; Done (b, r, s)) →
  fn c d r0 meth' s u mar_new = '((b, m), s) ← alone (fn_code c d r0 meth u) s; Done (b, m, s).
Proof.
  intros Hm. unfold fn, fn_code. destruct (get c u) as [[a u']| | |]; [|done..]. rewrite bind_Done. cbv beta iota.
  destruct (negb (okdone u')); [done|]. rewrite Hm, alone_andthen.
  destruct (alone (meth a r0) s) as [[[b r] s1]| | |]; [|done..]. rewrite !bind_Done. cbn. by destruct (put d r mar_new).
Qed.

Lemma fn_code_single {A R} (c : codec A) (d : codec R) (r0 : R) meth u :
  (∀ a, single (meth a r0)) → single (fn_code c d r0 meth u).
Proof.
  intros Hm. unfold fn_code. destruct (get c u) as [[a u']| | |]; [|done..]. destruct (negb _); [done|].
  apply single_andthen; [done|]. intros [b r]. eauto.
Qed.

Lemma fn_code_held {A R} l (c : codec A) (d : codec R) (r0 : R) meth u :
  (∀ a, held l (meth a r0)) → held l (fn_code c d r0 meth u).
Proof.
  intros Hm. unfold fn_code. destruct (get c u) as [[a u']| | |]; [|done..]. destruct (negb _); [done|].
  apply held_andthen; [done|]. intros [b r]. eauto.
Qed.

(** [bind] touches nothing. *)
Definition bind_code (nonce : Z) : unm → code S L C (Z * mar) := fn_code i32 i32 0 (λ _ _, Ret (Done (0, nonce))).

Lemma alone_bind nonce u s :
  bind_handler nonce s u mar_new = '((b, m), s) ← alone (bind_code nonce u) s; Done (b, m, s).
Proof. apply (alone_fn i32 i32 0 (λ _ _, Ret (Done (0, nonce))) (λ (s : S) (_ _ : Z), Done (0, nonce, s))). done. Qed.

End handlers.

(** ** The network *)

Section fine.
Context {S World L C : Type} `{EqDecision L, EqDecision C}.

(** The handlers in sections, which of them are not to overlap others, and the
    bounds on the object. *)
Context (cs : World → gmap Z (unm → code S L C (Z * mar))) (lone : Z → bool) (within : S → bool).

(** A worker in a handler: what is left of it, and whether it is in its next
    section. *)
Record doing : Type := mkDoing { d_proc : Z; d_world : World; d_code : code S L C (Z * mar); d_inside : bool }.
Record fnet : Type := mkFine { coarse : net S World; busy : gmap nat doing }.

Inductive fevent : Type :=
  | FNet (e : nevent World)          (** anything but a handler *)
  | FCall (w : nat) (v : World)      (** a handler begins *)
  | FEnter (w : nat)
  | FExit (w : nat).

Definition set_obj (o : S) (s : net S World) : net S World :=
  mkNet (n_cli s) (n_srv s) o (n_jobs s) (n_requests s) (n_replies s) (n_calls s) (n_log s) (n_returns s).

(** The handler has returned. *)
Definition complete (w : nat) (v : World) (ret : Z) (rep : mar) (s : net S World) : net S World :=
  match workers (n_srv s) !! w, n_jobs s !! w with
  | Some (Running clt x p), Some (Asked u) =>
      mkNet (n_cli s) (n_srv s) (n_obj s) (<[w := Ran ret rep]> (n_jobs s)) (n_requests s) (n_replies s)
        (n_calls s) (n_log s ++ [mkRun clt x p u ret rep v]) (n_returns s)
  | _, _ => s
  end.

Definition settle (s : fnet) (w : nat) (fr : doing) : outcome fnet :=
  match d_code fr with
  | Ret o => '(ret, rep) ← o; Done (mkFine (complete w (d_world fr) ret rep (coarse s)) (delete w (busy s)))
  | Sec _ _ _ _ => Done (mkFine (coarse s) (<[w := fr]> (busy s)))
  end.

(** The mutexes and the data of the sections that workers are in. *)
Definition lock_of (fr : doing) : option L :=
  if d_inside fr then match d_code fr with Sec l _ _ _ => l | Ret _ => None end else None.
Definition touched (fr : doing) : list (C * access) :=
  if d_inside fr then match d_code fr with Sec _ t _ _ => t | Ret _ => [] end else [].

Definition lock_free (l : option L) (m : gmap nat doing) : bool :=
  bool_decide (l = None) || bool_decide (map_Forall (λ _ fr, lock_of fr ≠ l) m).
Definition racing (t : list (C * access)) (m : gmap nat doing) : bool :=
  bool_decide (¬ map_Forall (λ _ fr, race t (touched fr) = false) m).

(** [None]: not enabled. *)
Definition fstep (s : fnet) (e : fevent) : option (outcome fnet) :=
  match e with
  | FNet (NRun _ _) => None
  | FNet e => match nstep (λ _, ∅) (coarse s) e with None => None | Some o => Some (c ← o; Done (mkFine c (busy s))) end
  | FCall w v =>
      match workers (n_srv (coarse s)) !! w, n_jobs (coarse s) !! w, busy s !! w with
      | Some (Running clt x p), Some (Asked u), None => Some
          match cs v !! p with None => Throws | Some c => settle s w (mkDoing p v (c u) false) end
      | _, _, _ => None
      end
  | FEnter w =>
      match busy s !! w with
      | Some (mkDoing p v (Sec l t f k) false) =>
          if lock_free l (delete w (busy s)) then Some
            (if racing t (delete w (busy s)) then Undef
             else Done (mkFine (coarse s) (<[w := mkDoing p v (Sec l t f k) true]> (busy s))))
          else None
      | _ => None
      end
  | FExit w =>
      match busy s !! w with
      | Some (mkDoing p v (Sec l t f k) true) => Some
          ('(x, o) ← f (n_obj (coarse s)); settle (mkFine (set_obj o (coarse s)) (busy s)) w (mkDoing p v (k x) false))
      | _ => None
      end
  end.

(** A lone handler that has begun and not returned is the only one. *)
Definition apart (s : fnet) : Prop :=
  ∀ w w' fr fr', busy s !! w = Some fr → busy s !! w' = Some fr' → lone (d_proc fr) = true → w = w'.

Definition ftyped (s : fnet) (e : fevent) : Prop := match e with FNet e => ntyped (coarse s) e | _ => True end.

Inductive freach (s0 : net S World) : fnet → Prop :=
  | freach_init : freach s0 (mkFine s0 ∅)
  | freach_step s e s' : freach s0 s → ftyped s e → fstep s e = Some (Done s') →
      within (n_obj (coarse s')) = true → apart s' → freach s0 s'.

(** ** The other events *)

Lemma receive_set_obj o s w b s' :
  receive s w b = Some (Done s') →
  receive (set_obj o s) w b = Some (Done (set_obj o s')) ∧ n_obj s' = n_obj s ∧
    workers (n_srv s) !! w = None ∧ (∀ w', w' ≠ w →
    workers (n_srv s') !! w' = workers (n_srv s) !! w' ∧ n_jobs s' !! w' = n_jobs s !! w').
Proof.
  unfold receive. cbn [set_obj n_srv n_cli n_obj n_jobs n_requests n_replies n_calls n_log n_returns].
  destruct (unpack_req_header (unm_of (frame b))) as [h u]. destruct (dstep (n_srv s) (DRecv w h (u_ok u))) as [o'|] eqn:Ed; [|done].
  intros [= E]. apply bind_Done_inv in E as [d [-> E]]. apply bind_Done_inv in E as [[nx sv'] [Eb E]].
  apply bind_Done_inv in E as [out [Er [= <-]]]. rewrite !bind_Done, Eb, bind_Done. cbv beta iota. rewrite Er. split; [done|].
  cbn [n_obj n_srv n_jobs]. split; [done|]. cbn in Ed. destruct (workers (n_srv s) !! w) eqn:Ew; [done|]. split; [done|].
  rewrite Eb in Ed. injection Ed as <-. intros w' Hne.
  destruct nx; cbn [workers]; rewrite ?lookup_insert_ne by done; by split.
Qed.

Definition is_run (e : nevent World) : bool := match e with NRun _ _ => true | _ => false end.

(** They neither look at the object nor disturb a worker in a handler. *)
Lemma nstep_set_obj hs hs' o s e s' :
  is_run e = false → nstep hs s e = Some (Done s') →
  nstep hs' (set_obj o s) e = Some (Done (set_obj o s')) ∧ n_obj s' = n_obj s ∧
  ∀ w clt x p u, workers (n_srv s) !! w = Some (Running clt x p) → n_jobs s !! w = Some (Asked u) →
    workers (n_srv s') !! w = Some (Running clt x p) ∧ n_jobs s' !! w = Some (Asked u).
Proof.
  intros He. destruct e as [t p m|t|w i|w b|w v|w|w|i|t| |ret r]; try done; cbn [nstep set_obj n_cli n_srv n_requests n_replies n_jobs n_log n_obj n_calls n_returns].
  - destruct (cstep (n_cli s) (CBegin t p m)) as [o'|]; [|done]. intros [= E].
    apply bind_Done_inv in E as [c [-> [= <-]]]. by split_and!.
  - destruct (threads (n_cli s) !! t) as [[[x rep] req]|]; [|done].
    destruct (rpcc.transmit (cli (n_cli s)) req). intros [= <-]. by split_and!.
  - destruct (n_requests s !! i) as [b|]; [|done]. intros (H1 & H2 & H3 & H4)%(receive_set_obj o).
    split; [done|]. split; [done|]. intros w' clt x p u Hw Hj. destruct (H4 w') as [-> ->]; [|done]. congruence.
  - change (number (set_obj o s)) with (number s). destruct (clt_nonce _ =? number s); [done|].
    intros (H1 & H2 & H3 & H4)%(receive_set_obj o).
    split; [done|]. split; [done|]. intros w' clt x p u Hw Hj. destruct (H4 w') as [-> ->]; [|done]. congruence.
  - destruct (n_jobs s !! w) as [[|ret rep]|] eqn:Ej; [done| |done].
    destruct (dstep (n_srv s) (DReturn w ret rep)) as [o'|] eqn:Ed; [|done]. intros [= E].
    apply bind_Done_inv in E as [d [-> [= <-]]]. split; [done|]. split; [done|]. cbn [n_srv n_jobs].
    intros w' clt x p u Hw Hj. assert (w' ≠ w) by congruence. rewrite lookup_delete_ne by done. split; [|done].
    cbn in Ed. destruct (workers (n_srv s) !! w) as [[c y q|]|]; [|done..]. injection Ed as Ed.
    apply bind_Done_inv in Ed as [[[b reply] sv'] [_ [= <-]]]. cbn. by rewrite lookup_insert_ne.
  - destruct (workers (n_srv s) !! w) as [[|clt b]|] eqn:Ew; [done| |done]. intros [= E].
    apply bind_Done_inv in E as [[reply sv'] [-> [= <-]]]. rewrite bind_Done. cbv beta iota. change (number (set_obj o s)) with (number s).
    split; [done|]. split; [done|]. cbn [n_srv n_jobs workers]. intros w' clt' x p u Hw Hj.
    rewrite lookup_delete_ne by congruence. done.
  - destruct (n_replies s !! i) as [b|]; [|done]. destruct (cstep (n_cli s) (CPdu (frame b))) as [o'|]; [|done]. intros [= E].
    apply bind_Done_inv in E as [c [-> [= <-]]]. by split_and!.
  - destruct (threads (n_cli s) !! t) as [[[x rep] req]|]; [|done]. intros [= E].
    apply bind_Done_inv in E as [[ret c] [E [= <-]]]. cbv zeta. rewrite E, bind_Done. by split_and!.
  - intros [= <-]. by split_and!.
  - intros [= <-]. by split_and!.
Qed.

(** ** Runs in sections are runs of whole handlers *)

Section coarse.
Context (hs : World → gmap Z (handler S)) (s0 : net S World).
Context (Hin0 : within (n_obj s0) = true).

(** The handlers in sections, alone, are the handlers; those that are not lone are
    single sections. *)
Context (Hcs : ∀ v p c, cs v !! p = Some c → ∃ f, hs v !! p = Some f ∧
  ∀ u s, f s u mar_new = '((b, m), s) ← alone (c u) s; Done (b, m, s)).
Context (Hone : ∀ v p c u, cs v !! p = Some c → lone p = false → single (c u)).

(** What is left of a handler leads where all of it led. *)
Definition leads (c : code S L C (Z * mar)) (o : S) (c' : code S L C (Z * mar)) (o' : S) : Prop :=
  ∀ r, alone c' o' = Done r → alone c o = Done r.

(** A worker in a handler, which has the sections [c]. *)
Definition serving (s : net S World) (w : nat) (d : doing) (c : code S L C (Z * mar)) : Prop :=
  ∃ clt x u c0, workers (n_srv s) !! w = Some (Running clt x (d_proc d)) ∧ n_jobs s !! w = Some (Asked u) ∧
    cs (d_world d) !! d_proc d = Some c0 ∧ c = c0 u.

(** [c] is the state in which the handlers are one step: either no handler is
    between two sections, or one is and has the object to itself. *)
Record sim (c : net S World) (s : fnet) : Prop := {
  si_net : c = set_obj (n_obj c) (coarse s);
  si_in : within (n_obj c) = true;
  si_busy w d : busy s !! w = Some d → ∃ c0, serving (coarse s) w d c0 ∧ leads c0 (n_obj c) (d_code d) (n_obj (coarse s));
  si_obj : (n_obj c = n_obj (coarse s) ∧ ∀ w d, busy s !! w = Some d → serving (coarse s) w d (d_code d)) ∨
    (∃ w d, busy s = {[w := d]} ∧ lone (d_proc d) = true) }.

Definition reached (s : fnet) : Prop := ∃ c, nreach hs within s0 c ∧ sim c s.

Lemma complete_obj w v ret rep s : n_obj (complete w v ret rep s) = n_obj s.
Proof. unfold complete. by repeat case_match. Qed.
Lemma complete_set_obj w v ret rep o s : complete w v ret rep (set_obj o s) = set_obj o (complete w v ret rep s).
Proof. unfold complete. cbn. by repeat case_match. Qed.

(** A handler that returns: the one step. *)
Lemma complete_step c s w d c0 o ret rep :
  c = set_obj (n_obj c) s → serving s w d c0 → alone c0 (n_obj c) = Done ((ret, rep), o) →
  nstep hs c (NRun w (d_world d)) = Some (Done (set_obj o (complete w (d_world d) ret rep s))).
Proof.
  intros -> (clt & x & u & c1 & Hw & Hj & Hc & ->) E. destruct (Hcs _ _ _ Hc) as (f & Hf & Hfu).
  cbn [nstep set_obj n_srv n_jobs n_obj] in *. unfold complete. rewrite Hw, Hj, Hf, Hfu, E. done.
Qed.

Lemma serving_complete s w w' d c0 v ret rep : w ≠ w' → serving s w d c0 → serving (complete w' v ret rep s) w d c0.
Proof.
  intros Hne (clt & x & u & c1 & Hw & Hj & Hc & ->). exists clt, x, u, c1. unfold complete.
  destruct (workers (n_srv s) !! w') as [[? ? ?|? ?]|], (n_jobs s !! w') as [[?|? ?]|]; cbn [n_srv n_jobs];
    rewrite ?lookup_insert_ne by done; done.
Qed.

(** The last section of a handler, when no other is between two of its own. *)
Lemma return_reached c s w d c0 o ret rep :
  nreach hs within s0 c → sim c s → serving (coarse s) w d c0 → alone c0 (n_obj c) = Done ((ret, rep), o) →
  within o = true → (∀ w' d', w' ≠ w → busy s !! w' = Some d' → serving (coarse s) w' d' (d_code d')) →
  reached (mkFine (complete w (d_world d) ret rep (set_obj o (coarse s))) (delete w (busy s))).
Proof.
  intros R [Hc Hin Hb Ho] Hs E Hino Hf. rewrite complete_set_obj.
  exists (set_obj o (complete w (d_world d) ret rep (coarse s))).
  assert (Hf' : ∀ w' d', delete w (busy s) !! w' = Some d' → serving (complete w (d_world d) ret rep (coarse s)) w' d' (d_code d')).
  { intros w' d' [Hne Hd]%lookup_delete_Some. apply serving_complete; [done|]. by apply Hf. }
  split; [|split]; cbn [coarse busy set_obj n_obj]; try done.
  - apply (nreach_step _ _ _ c (NRun w (d_world d))); [exact R|exact Logic.I|by eapply complete_step|done].
  - intros w' d' Hd. exists (d_code d'). split; [by apply Hf'|]. by intros r.
  - by left.
Qed.

Lemma net_reached c s e s' :
  nreach hs within s0 c → sim c s → ftyped s (FNet e) → fstep s (FNet e) = Some (Done s') → reached s'.
Proof.
  intros R [Hc Hin Hb Ho] Ty E. assert (He : is_run e = false) by (destruct e; done || by cbn in E).
  assert (∃ s1, nstep (λ _, ∅) (coarse s) e = Some (Done s1) ∧ s' = mkFine s1 (busy s)) as (s1 & E1 & ->).
  { destruct e; try done; cbn [fstep] in E; destruct (nstep _ _ _) as [o|]; try done;
      injection E as E; apply bind_Done_inv in E as [c1 [-> [= <-]]]; eauto. }
  destruct (nstep_set_obj (λ _, ∅) hs (n_obj c) _ _ _ He E1) as (H1 & H2 & H3). rewrite <- Hc in H1.
  assert (Hs : ∀ w d c0, serving (coarse s) w d c0 → serving s1 w d c0).
  { intros w d c0 (clt & x & u & c1 & Hw & Hj & Hcc & ->). destruct (H3 w clt x (d_proc d) u Hw Hj). by exists clt, x, u, c1. }
  exists (set_obj (n_obj c) s1). split.
  - eapply nreach_step; [exact R| |exact H1|exact Hin]. rewrite Hc. by destruct e.
  - split; cbn [coarse busy]; try done.
    + intros w d Hd. destruct (Hb w d Hd) as (c0 & ? & Hl). exists c0. split; [by apply Hs|]. cbn [set_obj n_obj]. by rewrite H2.
    + destruct Ho as [[Ho Hf]|Ho]; [left|by right]. split; [cbn; by rewrite H2|]. intros w d Hd. by apply Hs, Hf.
Qed.

(** A worker gets on with the sections of its handler. *)
Lemma go_on_reached c s w d c0 o :
  nreach hs within s0 c → sim c s → serving (coarse s) w d c0 → leads c0 (n_obj c) (d_code d) o →
  ((o = n_obj (coarse s) ∧ d_code d = c0 ∧ n_obj c = n_obj (coarse s) ∧
      ∀ w' d', w' ≠ w → busy s !! w' = Some d' → serving (coarse s) w' d' (d_code d')) ∨
   (lone (d_proc d) = true ∧ ∀ w', w' ≠ w → busy s !! w' = None)) →
  reached (mkFine (set_obj o (coarse s)) (<[w := d]> (busy s))).
Proof.
  intros R [Hc Hin Hb Ho] Hs Hl H. exists c. split; [done|].
  split; cbn [coarse busy set_obj n_obj]; [done|done| |].
  - intros w' d' [[<- <-]|[Hne Hd]]%lookup_insert_Some; [by exists c0|].
    destruct H as [(-> & _ & _ & Hf)|[_ Hf]]; [by apply Hb|]. by rewrite Hf in Hd by done.
  - destruct H as [(-> & <- & Heq & Hf)|[Hlo Hf]]; [left|right].
    + split; [done|]. intros w' d' [[<- <-]|[Hne Hd]]%lookup_insert_Some; [done|by apply Hf].
    + exists w, d. split; [|done]. apply map_eq. intros w'. destruct (decide (w = w')) as [<-|Hne].
      * by rewrite lookup_insert_eq, lookup_singleton_eq.
      * rewrite lookup_insert_ne, lookup_singleton_ne by done. by apply Hf.
Qed.

Lemma call_reached c s w v s' :
  nreach hs within s0 c → sim c s → fstep s (FCall w v) = Some (Done s') → within (n_obj (coarse s')) = true → apart s' → reached s'.
Proof.
  intros R Hsim E Hin Hap. pose proof Hsim as [Hc Hinc Hb Ho]. cbn [fstep] in E.
  destruct (workers (n_srv (coarse s)) !! w) as [[clt x p|]|] eqn:Ew; [|done..].
  destruct (n_jobs (coarse s) !! w) as [[u|]|] eqn:Ej; [|done..]. destruct (busy s !! w) eqn:Ed; [done|]. injection E as E.
  destruct (cs v !! p) as [c0|] eqn:Ec; [|done]. set (d := mkDoing p v (c0 u) false).
  assert (Hs : serving (coarse s) w d (c0 u)) by (by exists clt, x, u, c0).
  assert (Hself : coarse s = set_obj (n_obj (coarse s)) (coarse s)) by (by destruct (coarse s)).
  unfold settle in E. cbn [d_code] in E. fold d in E. destruct (c0 u) as [o|X l t f k] eqn:Eu.
  - apply bind_Done_inv in E as [[ret rep] [-> [= <-]]]. change (d_world _) with (d_world d) in *.
    destruct Ho as [[Heq Hf]|(w0 & d0 & Hbusy & Hlo)].
    + rewrite Hself. apply (return_reached c s w d _ (n_obj (coarse s)) ret rep R Hsim Hs); [|cbn in Hin; rewrite complete_obj in Hin; exact Hin|auto].
      by rewrite Heq.
    + assert (Hne : w0 ≠ w) by (intros ->; by rewrite Hbusy, lookup_singleton_eq in Ed).
      exists (set_obj (n_obj c) (complete w (d_world d) ret rep (coarse s))). split.
      * apply (nreach_step _ _ _ c (NRun w (d_world d))); [exact R|exact Logic.I|eapply complete_step; [exact Hc|exact Hs|done]|done].
      * split; cbn [coarse busy set_obj n_obj]; [done|done| |].
        -- intros w' d' [Hne' Hd]%lookup_delete_Some. destruct (Hb w' d' Hd) as (c1 & Hs1 & Hl1). exists c1. rewrite complete_obj.
           split; [|done]. by apply serving_complete.
        -- right. exists w0, d0. split; [|done]. rewrite Hbusy. by rewrite delete_singleton_ne.
  - injection E as <-. rewrite Hself. destruct Ho as [[Heq Hf]|(w0 & d0 & Hbusy & Hlo)].
    + apply (go_on_reached c s w d _ (n_obj (coarse s)) R Hsim Hs).
      * intros r. by rewrite Heq.
      * left. split_and!; [done|done|done|]. intros w' d' _. apply Hf.
    + exfalso. assert (Hne : w0 ≠ w) by (intros ->; by rewrite Hbusy, lookup_singleton_eq in Ed).
      apply Hne. apply (Hap w0 w d0 d); cbn [busy]; [|by rewrite lookup_insert_eq|done].
      rewrite lookup_insert_ne by done. by rewrite Hbusy, lookup_singleton_eq.
Qed.

Lemma enter_reached c s w s' :
  nreach hs within s0 c → sim c s → fstep s (FEnter w) = Some (Done s') → reached s'.
Proof.
  intros R [Hc Hinc Hb Ho] E. cbn [fstep] in E. destruct (busy s !! w) as [[p v [|X l t f k] [|]]|] eqn:Ed; try done.
  destruct (lock_free _ _); [|done]. destruct (racing _ _); [done|]. injection E as <-.
  exists c. split; [done|]. split; cbn [coarse busy]; [done|done| |].
  - intros w' d' [[<- <-]|[Hne Hd]]%lookup_insert_Some; [|by apply Hb]. exact (Hb _ _ Ed).
  - destruct Ho as [[Heq Hf]|(w0 & d0 & Hbusy & Hlo)]; [left|right].
    + split; [done|]. intros w' d' [[<- <-]|[Hne Hd]]%lookup_insert_Some; [|by apply Hf]. exact (Hf _ _ Ed).
    + rewrite Hbusy in Ed. apply lookup_singleton_Some in Ed as [-> ->]. rewrite Hbusy, insert_singleton_eq.
      by eexists _, _.
Qed.

Lemma exit_reached c s w s' :
  nreach hs within s0 c → sim c s → fstep s (FExit w) = Some (Done s') → within (n_obj (coarse s')) = true → apart s' → reached s'.
Proof.
  intros R Hsim E Hin Hap. pose proof Hsim as [Hc Hinc Hb Ho]. cbn [fstep] in E.
  destruct (busy s !! w) as [[p v [|X l t f k] [|]]|] eqn:Ed; try done. injection E as E.
  apply bind_Done_inv in E as [[x o] [Ef E]]. destruct (Hb _ _ Ed) as (c0 & Hs & Hl). cbn [d_code] in Hl.
  set (d := mkDoing p v (k x) false) in E.
  assert (Hs' : serving (coarse s) w d c0) by exact Hs.
  assert (Hl' : leads c0 (n_obj c) (k x) o). { intros r Hr. apply Hl. cbn. by rewrite Ef. }
  unfold settle in E. cbn [d_code d coarse busy] in E. fold d in E. destruct (k x) as [oo|X' l' t' f' k'] eqn:Ek.
  - apply bind_Done_inv in E as [[ret rep] [-> [= <-]]]. apply (return_reached c s w d c0 o ret rep R Hsim Hs'); [by apply Hl'|cbn in Hin; rewrite complete_obj in Hin; exact Hin|].
    intros w' d' Hne Hd. destruct Ho as [[_ Hf]|(w0 & d0 & Hbusy & _)]; [by apply Hf|].
    rewrite Hbusy in Ed, Hd. apply lookup_singleton_Some in Ed as [-> _]. by apply lookup_singleton_Some in Hd as [-> _].
  - injection E as <-. apply (go_on_reached c s w d c0 o R Hsim Hs' Hl'). right.
    assert (Hlo : lone p = true).
    { destruct Ho as [[_ Hf]|(w0 & d0 & Hbusy & Hlo)].
      - destruct (lone p) eqn:Hp; [done|]. destruct (Hf _ _ Ed) as (clt & y & u & c1 & _ & _ & Hc1 & Hcu). cbn in Hc1, Hcu.
        pose proof (Hone _ _ _ u Hc1 Hp) as H1. rewrite <- Hcu in H1. destruct (H1 x) as [oo Hoo]. congruence.
      - rewrite Hbusy in Ed. by apply lookup_singleton_Some in Ed as [_ ->]. }
    split; [exact Hlo|]. intros w' Hne. destruct (busy s !! w') as [d'|] eqn:Hd; [|done]. exfalso. apply Hne. symmetry.
    apply (Hap w w' d d'); cbn [busy]; [by rewrite lookup_insert_eq| |exact Hlo]. by rewrite lookup_insert_ne.
Qed.

Lemma freach_reached s : freach s0 s → reached s.
Proof.
  induction 1 as [|s e s' R (c & Rc & Hsim) Ty E Hin Hap].
  - exists s0. split; [constructor|]. split; cbn [coarse busy]; [by destruct s0|done|by intros ? ?|left]. by split; [|intros ? ?].
  - destruct e as [e|w v|w|w]; [by eapply net_reached|by eapply call_reached|by eapply enter_reached|by eapply exit_reached].
Qed.

(** As long as no lone handler overlaps another, a state of the network with its
    handlers in sections is one of the network whose handlers are single steps, with
    the same calls, runs and returns; and the same object while no handler is
    between two of its sections. *)
Lemma sections_coarse s :
  freach s0 s → ∃ c, nreach hs within s0 c ∧ c = set_obj (n_obj c) (coarse s) ∧ (busy s = ∅ → c = coarse s).
Proof.
  intros R. destruct (freach_reached s R) as (c & H1 & [H2 _ _ H3]). exists c. split; [done|]. split; [done|].
  intros Hb. destruct H3 as [[Heq _]|(w & d & Hw & _)]; [rewrite H2, Heq; by destruct (coarse s)|].
  rewrite Hw in Hb. by apply map_non_empty_singleton in Hb.
Qed.

Lemma reach_apart s : freach s0 s → apart s.
Proof. intros R. destruct R; [by intros ? ? ? ? ?|done]. Qed.

(** What is left of a handler that is not lone is all of it. *)
Lemma busy_fresh s w d : freach s0 s → busy s !! w = Some d → lone (d_proc d) = false →
  ∃ c u, cs (d_world d) !! d_proc d = Some c ∧ d_code d = c u.
Proof.
  intros R Hd Hlo. destruct (freach_reached s R) as (c & _ & [_ _ _ H]). destruct H as [[_ Hf]|(w0 & d0 & Hbusy & Hlo0)].
  - destruct (Hf w d Hd) as (clt & x & u & c0 & _ & _ & Hc & ->). eauto.
  - rewrite Hbusy in Hd. apply lookup_singleton_Some in Hd as [_ <-]. congruence.
Qed.

(** Nor do two of its sections race then, if all but the lone handlers touch data
    under one mutex only. *)
Lemma sections_never_race l s w :
  (∀ v p c u, cs v !! p = Some c → lone p = false → held l (c u)) →
  freach s0 s → fstep s (FEnter w) ≠ Some Undef.
Proof.
  intros Hheld R. cbn [fstep]. destruct (busy s !! w) as [[p v [|X l1 t1 f k] [|]]|] eqn:Ed; try done.
  destruct (lock_free l1 _) eqn:Hfree; [|done]. destruct (racing t1 _) eqn:Hrace; [|done]. intros _.
  apply bool_decide_eq_true in Hrace. apply Hrace. clear Hrace. intros w' d' [Hne Hd']%lookup_delete_Some.
  pose proof (reach_apart s R) as Hap.
  destruct (lone p) eqn:Hlo; [by apply (Hap w w' _ _ Ed Hd') in Hlo|].
  destruct (lone (d_proc d')) eqn:Hlo'; [by apply (Hap w' w _ _ Hd' Ed) in Hlo'|].
  destruct (busy_fresh s w _ R Ed Hlo) as (c & u & Hc & Hcu). destruct (busy_fresh s w' _ R Hd' Hlo') as (c' & u' & Hc' & Hcu').
  pose proof (Hheld _ _ _ u Hc Hlo) as H. pose proof (Hheld _ _ _ u' Hc' Hlo') as H'. rewrite <- Hcu in H. rewrite <- Hcu' in H'.
  unfold touched. destruct (d_inside d') eqn:Hin'; [|apply race_nil]. destruct (d_code d') as [|X' l2 t2 f' k'] eqn:Hk'; [apply race_nil|].
  cbn in H, H'. destruct H' as [->| ->]; [|apply race_nil]. destruct H as [->| ->]; [|done]. exfalso.
  unfold lock_free in Hfree. rewrite bool_decide_eq_false_2 in Hfree by done. apply bool_decide_eq_true in Hfree.
  apply (Hfree w' d'); [by rewrite lookup_delete_ne|]. unfold lock_of. by rewrite Hin', Hk'.
Qed.

End coarse.

(** ** Runs *)

Fixpoint frun (s : fnet) (es : list fevent) : option (outcome fnet) :=
  match es with
  | [] => Some (Done s)
  | e :: es => match fstep s e with Some (Done s') => frun s' es | r => r end
  end.

Definition apart_b (s : fnet) : bool :=
  bool_decide (map_Forall (λ w d, lone (d_proc d) = true → map_Forall (λ w' _, w = w') (busy s)) (busy s)).

#[export] Instance ftyped_dec s e : Decision (ftyped s e).
Proof. destruct e; cbn; apply _. Defined.

(** Every event keeps to the bounds, and to handlers apart. *)
Fixpoint fchecked (s : fnet) (es : list fevent) : bool :=
  match es with
  | [] => true
  | e :: es => bool_decide (ftyped s e) &&
      match fstep s e with Some (Done s') => within (n_obj (coarse s')) && apart_b s' && fchecked s' es | _ => true end
  end.

Lemma frun_reach s0 s es s' :
  freach s0 s → fchecked s es = true → frun s es = Some (Done s') → freach s0 s'.
Proof.
  revert s. induction es as [|e es IH]; intros s R; cbn [frun fchecked]; [by intros _ [= <-]|].
  intros [Te%bool_decide_eq_true Ts]%andb_true_iff. destruct (fstep s e) as [[s1| | |]|] eqn:E; try done.
  apply andb_true_iff in Ts as [[Hin Hap%bool_decide_eq_true]%andb_true_iff Ts]. apply IH; [|done].
  eapply freach_step; try done. intros w w' d d' Hd Hd' Hlo. by apply (Hap w d Hd Hlo w' d').
Qed.

End fine.
Arguments doing : clear implicits.
Arguments fnet : clear implicits.
Arguments fevent : clear implicits.
