(* ===== verification/ExtentRpc.v ===== *)
(** * Extents over the wire (src/client/extent_client.cc, src/fs/extent_smain.cc)

    The stubs of the extent client, the handlers the extent server's main
    registers, and the client's table of connections.  The stubs and the handlers
    meet in RpcStub.v: any number of clients that call over connections that lose
    nothing see the one store of ExtentServer.v. *)

From S2P Require Import Prelude StdContainers ExtentServer Marshall RpcServer RpcClient Connection ConnSend RpcStub.

(** [extent_protocol::rpc_numbers] *)
Definition rpc_put : Z := 24577.
Definition rpc_get : Z := 24578.
Definition rpc_getattr : Z := 24579.
Definition rpc_remove : Z := 24580.
Definition rpc_setattr : Z := 24581.
Definition rpc_move : Z := 24582.

(** ** The server's side *)

Module extent_smain.

(** The object the handlers work on, with the clock they read. *)
Record obj : Type := mkObj { clock : Z; ls : extent_server.t }.

Definition at_time (now : Z) (sv : server obj) : server obj :=
  mkServer (base sv) (handlers sv) (mkObj now (ls (object sv))).

Section main.
(** What the handlers' [int r] and [attr r] hold when a method leaves them
    alone, and what a move finds: whether the destination can be bound, and how
    its puts end. *)
Context (rj : Z) (aj : attr) (bound : bytes → bool) (puts : bytes → Z → bytes → Z).

Definition get (s : obj) (id : Z) (buf : bytes) : outcome (Z * bytes * obj) :=
  let '(st, buf, x) := extent_server.get (ls s) (clock s) id buf in Done (st, buf, mkObj (clock s) x).
Definition getattr (s : obj) (id : Z) (a : attr) : outcome (Z * attr * obj) :=
  let '(st, a) := extent_server.getattr (ls s) id a in Done (st, a, s).
Definition put (s : obj) (id : Z) (buf : bytes) (r : Z) : outcome (Z * Z * obj) :=
  let '(st, x) := extent_server.put (ls s) (clock s) id buf in Done (st, r, mkObj (clock s) x).
Definition remove (s : obj) (id : Z) (r : Z) : outcome (Z * Z * obj) :=
  let '(st, x) := extent_server.remove (ls s) id in Done (st, r, mkObj (clock s) x).
Definition setattr (s : obj) (id : Z) (a : attr) (r : Z) : outcome (Z * Z * obj) :=
  let '(st, x) := extent_server.setattr (ls s) (clock s) id a in Done (st, r, mkObj (clock s) x).
(** With no other handler running; ExtentNet.v runs its sections. *)
Definition move (s : obj) (ids : list Z) (dst : bytes) (r : Z) : outcome (Z * Z * obj) :=
  '(st, x) ← extent_server.move (puts dst) (ls s) ids (bool_decide (Byte.x3a ∈ dst)) (bound dst);
  Done (st, r, mkObj (clock s) x).

(** What [main] registers. *)
Definition main (nonce count now : Z) : outcome (server obj) :=
  sv ← server_make nonce count (mkObj now (extent_server.make now));
  sv ← reg rpc_get (fn1 u64 str [] get) sv;
  sv ← reg rpc_getattr (fn1 u64 attr_ aj getattr) sv;
  sv ← reg rpc_put (fn2 u64 str i32 rj put) sv;
  sv ← reg rpc_remove (fn1 u64 i32 rj remove) sv;
  sv ← reg rpc_setattr (fn2 u64 attr_ i32 rj setattr) sv;
  reg rpc_move (fn2 (vec u64) str i32 rj move) sv.

End main.
End extent_smain.
Import extent_smain.

(** ** The client's side *)

Module extent_client.

(** The calls: the status, and the reply's value when one was read. *)
Section stubs.
Context {S : Type} (cl : rpcc.t) (sv : server S).

Definition get (eid : Z) := call_1 u64 str cl sv rpc_get eid.
Definition getattr (eid : Z) := call_1 u64 attr_ cl sv rpc_getattr eid.
Definition put (eid : Z) (buf : bytes) := call_2 u64 str i32 cl sv rpc_put eid buf.
Definition remove (eid : Z) := call_1 u64 i32 cl sv rpc_remove eid.
Definition setattr (eid : Z) (a : attr) := call_2 u64 attr_ i32 cl sv rpc_setattr eid a.

End stubs.

(** The table of connections: [None] is a null pointer. *)
Record t (R : Type) : Type := mk { cl : option R; addr_ : bytes; addr_to_rpcc_ : gmap bytes (option R) }.
Arguments mk {_} _ _ _.
Arguments cl {_} _.
Arguments addr_ {_} _.
Arguments addr_to_rpcc_ {_} _.

Section table.
Context {R : Type}.

(** [ConnectTo]; [dial]: the connection a new [rpcc] has bound, if it has.
    [operator[]] leaves an entry in any case. *)
Definition ConnectTo (c : t R) (dst : bytes) (dial : option R) : t R :=
  let m := match addr_to_rpcc_ c !! dst, dial with
           | None, Some g => <[dst := Some g]> (addr_to_rpcc_ c)
           | _, _ => addr_to_rpcc_ c
           end in
  let p := default None (m !! dst) in
  mk p dst (<[dst := p]> m).

(** The constructor *)
Definition make (dst : bytes) (dial : option R) : t R := ConnectTo (mk None [] ∅) dst dial.

Definition GetCurAddr (c : t R) : bytes := addr_ c.

End table.
End extent_client.

(** ** The operations as remote calls *)

Definition step_remote (p : Z * xop) (cl : rpcc.t) (sv : server obj) : outcome (xreply * rpcc.t * server obj) :=
  let sv := at_time p.1 sv in
  match p.2 with
  | XPut id buf => '(st, _, cl, sv) ← extent_client.put cl sv id buf; Done (RStatus st, cl, sv)
  | XGet id =>
      '(st, buf, cl, sv) ← extent_client.get cl sv id;
      Done (if st =? ext_OK then RBuf (default [] buf) else RStatus st, cl, sv)
  | XGetattr id =>
      '(st, a, cl, sv) ← extent_client.getattr cl sv id;
      Done (if st =? ext_OK then RSize (size (default (mkAttr 0 0 0 0) a)) else RStatus st, cl, sv)
  | XSetattr id n => '(st, _, cl, sv) ← extent_client.setattr cl sv id (mkAttr 0 0 0 n); Done (RStatus st, cl, sv)
  | XRemove id => '(st, _, cl, sv) ← extent_client.remove cl sv id; Done (RStatus st, cl, sv)
  end.

Definition step_local (p : Z * xop) (s : obj) : xreply * obj :=
  let '(r, x) := server_step (ls s) p.1 p.2 in (r, mkObj p.1 x).

(** The server's extents fit in messages, and so do their times. *)
Definition fits (x : extent) : Prop :=
  0 ≤ x_atime x < 2 ^ 32 ∧ 0 ≤ x_mtime x < 2 ^ 32 ∧ 0 ≤ x_ctime x < 2 ^ 32 ∧ zlen (content x) < 2 ^ 28.

Definition wire_op (o : xop) : Prop :=
  match o with
  | XPut id buf => 0 ≤ id < 2 ^ 64 ∧ zlen buf < 2 ^ 28
  | XSetattr id n => 0 ≤ id < 2 ^ 64 ∧ 0 ≤ n < 2 ^ 28
  | XGet id | XGetattr id | XRemove id => 0 ≤ id < 2 ^ 64
  end.

Definition serves (hs : gmap Z (handler obj)) : Prop :=
  ∃ rj aj, - 2 ^ 31 ≤ rj < 2 ^ 31 ∧ wf attr_ aj ∧
    hs !! rpc_get = Some (fn1 u64 str [] get) ∧ hs !! rpc_getattr = Some (fn1 u64 attr_ aj getattr) ∧
    hs !! rpc_put = Some (fn2 u64 str i32 rj put) ∧ hs !! rpc_remove = Some (fn1 u64 i32 rj remove) ∧
    hs !! rpc_setattr = Some (fn2 u64 attr_ i32 rj setattr).

Lemma sync_at_time ex cl sv now : in_sync ex cl sv → in_sync ex cl (at_time now sv).
Proof. intros []. by split. Qed.

Lemma fits_step s now o :
  map_Forall (λ _, fits) (extent_server.extent_map_ s) → 0 ≤ now < 2 ^ 32 → wire_op o →
  map_Forall (λ _, fits) (extent_server.extent_map_ (server_step s now o).2).
Proof.
  intros Hs Hnow Ho.
  destruct o as [id buf|id|id|id n|id]; cbn [server_step wire_op] in *;
    unfold extent_server.put, extent_server.get, extent_server.getattr, extent_server.setattr, extent_server.remove;
    destruct (extent_server.extent_map_ s !! id) as [x|] eqn:Hx; try done;
    try (pose proof (Hs _ _ Hx) as (? & ? & ? & ?)); server_cbn; try (by apply map_Forall_delete);
    try (apply map_Forall_insert_2; [|done]; unfold fits; server_cbn; by split_and!; cbn; try lia).
  case_test; server_cbn; [done|]. apply map_Forall_insert_2; [|done].
  unfold fits. server_cbn. cbn. rewrite length_resize by lia. by split_and!; try lia.
Qed.

#[export] Instance extent_stub : Stub (Z * xop) xreply obj := {
  remote := step_remote;
  local p s := Done (step_local p s);
  callable p := 0 ≤ p.1 < 2 ^ 32 ∧ wire_op p.2;
  proper _ s := map_Forall (λ _, fits) (extent_server.extent_map_ (ls s));
  offered := serves;
}.

(** One call and what the caller makes of it. *)
Lemma one_call {A R} (c : codec A) (d : codec R) `{!CodecLaws c, !CodecLaws d} r0 meth ex cl sv now p a ret r o
    (f : Z → option R → xreply) :
  in_sync ex cl sv → rpcc.bind_done_ cl = true → rpcc.xid_ cl < 2 ^ 31 - 1 → 1 < p < 2 ^ 31 →
  handlers sv !! p = Some (fn c d r0 meth : handler obj) → meth (mkObj now (ls (object sv))) a r0 = Done (ret, r, o) →
  wf c a → zlen (enc c a) < 2 ^ 29 → wf d r → zlen (enc d r) < 2 ^ 29 → 0 ≤ ret < 2 ^ 31 →
  ∃ cl' sv', ('(st, r, cl, sv) ← call c d cl (at_time now sv) p a; Done (f st r, cl, sv)) = Done (f ret (Some r), cl', sv') ∧
    in_sync ((rpcc.clt_nonce_ cl, rpcc.xid_ cl) :: ex) cl' sv' ∧ object sv' = o ∧
    handlers sv' = handlers sv ∧ rpcs.nonce_ (base sv') = rpcs.nonce_ (base sv) ∧
    rpcc.xid_ cl' = rpcc.xid_ cl + 1 ∧ rpcc.bind_done_ cl' = rpcc.bind_done_ cl ∧ rpcc.clt_nonce_ cl' = rpcc.clt_nonce_ cl.
Proof.
  intros Hy Hb Hx Hp Hh Hm Ha Hal Hr Hrl Hret. apply (sync_at_time _ _ _ now) in Hy.
  edestruct (call_ok c d r0 meth ex cl (at_time now sv) p a ret r o) as (cl' & sv' & Hc & Hrest);
    [exact Hy|exact Hx| |lia|exact Hh|exact Hm|exact Ha|exact Hal|exact Hr|exact Hrl|exact Hret|].
  - rewrite Hb. apply Z.eqb_neq. unfold bind_proc. lia.
  - exists cl', sv'. rewrite Hc, bind_Done. by split.
Qed.

Ltac small :=
  cbn [enc u64_laws u32_laws str_laws i32_laws attr_laws pair_laws wf fst snd atime mtime ctime size];
  rewrite ?length_app, ?Nat2Z.inj_add, ?length_be32; repeat split; try lia; try done.

Ltac run_call Hx :=
  unfold extent_server.put, extent_server.get, extent_server.getattr, extent_server.setattr, extent_server.remove;
  cbn [ls clock fst snd]; by rewrite Hx.

Lemma extent_call ex cl sv now o :
  in_sync ex cl sv → serves (handlers sv) → map_Forall (λ _, fits) (extent_server.extent_map_ (ls (object sv))) →
  0 ≤ now < 2 ^ 32 → wire_op o → rpcc.bind_done_ cl = true → rpcc.xid_ cl < 2 ^ 31 - 1 →
  ∃ cl' sv', step_remote (now, o) cl sv = Done ((step_local (now, o) (object sv)).1, cl', sv') ∧
    in_sync ((rpcc.clt_nonce_ cl, rpcc.xid_ cl) :: ex) cl' sv' ∧ object sv' = (step_local (now, o) (object sv)).2 ∧
    handlers sv' = handlers sv ∧ rpcs.nonce_ (base sv') = rpcs.nonce_ (base sv) ∧
    rpcc.xid_ cl' = rpcc.xid_ cl + 1 ∧ rpcc.bind_done_ cl' = rpcc.bind_done_ cl ∧ rpcc.clt_nonce_ cl' = rpcc.clt_nonce_ cl.
Proof.
  intros Hy (rj & aj & Hrj & Haj & Hget & Hgetattr & Hput & Hremove & Hsetattr) Hfits Hnow Ho Hb Hx.
  unfold step_remote, step_local. cbn [fst snd].
  destruct o as [id buf|id|id|id n|id]; cbn [server_step wire_op] in *.
  - pose proof (λ o, one_call (pair_ u64 str) i32 rj (λ s '(a1, a2), put s a1 a2) ex cl sv now rpc_put (id, buf) 0 rj o
      (λ st _, RStatus st) Hy Hb Hx ltac:(done) Hput) as H.
    unfold extent_server.put at 1 2. destruct (extent_server.extent_map_ (ls (object sv)) !! id) as [x|] eqn:E; apply H;
      try small; unfold put; run_call E.
  - pose proof (λ r st o, one_call u64 str [] get ex cl sv now rpc_get id st r o
      (λ st buf, if st =? ext_OK then RBuf (default [] buf) else RStatus st) Hy Hb Hx ltac:(done) Hget) as H.
    unfold extent_server.get at 1 2. destruct (extent_server.extent_map_ (ls (object sv)) !! id) as [x|] eqn:E.
    + destruct (Hfits _ _ E) as (_ & _ & _ & ?). apply (H (content x) 0); try small; unfold get; run_call E.
    + apply (H [] 2); try small; unfold get; run_call E.
  - pose proof (λ r st o, one_call u64 attr_ aj getattr ex cl sv now rpc_getattr id st r o
      (λ st a, if st =? ext_OK then RSize (size (default (mkAttr 0 0 0 0) a)) else RStatus st) Hy Hb Hx ltac:(done) Hgetattr) as H.
    unfold extent_server.getattr at 1 2. destruct (extent_server.extent_map_ (ls (object sv)) !! id) as [x|] eqn:E.
    + destruct (Hfits _ _ E) as (? & ? & ? & ?).
      apply (H (mkAttr (x_atime x) (x_mtime x) (x_ctime x) (wrap32 (zlen (content x)))) 0);
        try small; try (by apply wrap_range); unfold getattr; run_call E.
    + apply (H aj 2); [unfold getattr; run_call E|small|small|exact Haj|small|small].
  - pose proof (λ st o, one_call (pair_ u64 attr_) i32 rj (λ s '(a1, a2), setattr s a1 a2) ex cl sv now rpc_setattr
      (id, mkAttr 0 0 0 n) st rj o (λ st _, RStatus st) Hy Hb Hx ltac:(done) Hsetattr) as H.
    unfold extent_server.setattr at 1 2. destruct (extent_server.extent_map_ (ls (object sv)) !! id) as [x|] eqn:E;
      [cbn [size]; destruct (zlen (content x) =? n) eqn:En|]; apply H; try small; unfold setattr;
      unfold extent_server.setattr; cbn [ls clock]; rewrite E; cbn [size]; by rewrite ?En.
  - pose proof (λ o, one_call u64 i32 rj remove ex cl sv now rpc_remove id 0 rj o
      (λ st _, RStatus st) Hy Hb Hx ltac:(done) Hremove) as H.
    unfold extent_server.remove at 1 2. destruct (extent_server.extent_map_ (ls (object sv)) !! id) as [x|] eqn:E; apply H;
      try small; unfold remove; run_call E.
Qed.

#[export] Instance extent_stub_laws : StubLaws (Z * xop) xreply obj.
Proof.
  split.
  - intros n [now o] ex cl sv r s Hy Hoff Hp [Hnow Ho] [= Hl] Hb Hx.
    pose proof (extent_call ex cl sv now o Hy Hoff Hp Hnow Ho Hb Hx) as H. by rewrite Hl in H.
  - intros n [now o] s r s' Hp [Hnow Ho] [= Hl]. cbn [proper local extent_stub step_local] in *. unfold step_local. cbn [fst snd] in *.
    pose proof (fits_step (ls s) now o Hp Hnow Ho) as H. unfold step_local in Hl. cbn [fst snd] in Hl.
    destruct (server_step (ls s) now o). by injection Hl as <- <-.
Qed.

(** ** Clients see one store *)

Lemma local_run_server ops : ∀ s,
  ∃ s', local_run s ops = Done ((server_run (ls s) ops).1, s') ∧ ls s' = (server_run (ls s) ops).2.
Proof.
  induction ops as [|[now o] ops IH]; intros s; [by exists s|]. cbn [local_run local extent_stub server_run].
  unfold step_local. cbn [fst snd]. rewrite bind_Done. destruct (server_step (ls s) now o) as [r x].
  destruct (IH (mkObj now x)) as (s' & -> & Hs). rewrite bind_Done. cbn [ls] in *.
  destruct (server_run x ops). by exists s'.
Qed.

(** What [main] has registered. *)
Definition registered rj aj bound puts nonce : gmap Z (handler obj) :=
  <[rpc_move := fn2 (vec u64) str i32 rj (move bound puts)]> (<[rpc_setattr := fn2 u64 attr_ i32 rj setattr]>
    (<[rpc_remove := fn1 u64 i32 rj remove]> (<[rpc_put := fn2 u64 str i32 rj put]>
      (<[rpc_getattr := fn1 u64 attr_ aj getattr]> (<[rpc_get := fn1 u64 str [] get]>
        {[bind_proc := bind_handler nonce]}))))).

Lemma main_registers rj aj bound puts nonce count now :
  ∃ sv, main rj aj bound puts nonce count now = Done sv ∧ unused nonce sv ∧
    object sv = mkObj now (extent_server.make now) ∧ handlers sv = registered rj aj bound puts nonce.
Proof.
  unfold main.
  destruct (unused_make nonce count (mkObj now (extent_server.make now))) as (s0 & -> & H0 & O0 & F0).
  rewrite bind_Done.
  do 6 reg_next.
  eexists. split; [done|]. split; [done|]. by split.
Qed.

Lemma main_offers rj aj bound puts nonce count now :
  - 2 ^ 31 ≤ rj < 2 ^ 31 → wf attr_ aj →
  ∃ sv, main rj aj bound puts nonce count now = Done sv ∧ unused nonce sv ∧
    object sv = mkObj now (extent_server.make now) ∧ serves (handlers sv).
Proof.
  intros Hrj Haj. destruct (main_registers rj aj bound puts nonce count now) as (sv & Hm & Hu & Ho & Hh).
  exists sv. split_and!; [done..|]. exists rj, aj. rewrite Hh. split; [exact Hrj|]. split; [exact Haj|].
  unfold registered. repeat split; by vm_compute.
Qed.

(** Clients that bind to the extent server and then call its stubs, in any
    order, over connections that lose nothing, see one store: every status and
    every value that comes back is that of a finite map of contents on the whole
    sequence of operations, and the server ends with the contents of that map;
    nothing that a handler leaves uninitialised shows. *)
Theorem extent_rpc_serves_store rj aj bound puts nonce count now ns ops :
  - 2 ^ 31 ≤ rj < 2 ^ 31 → wf attr_ aj → 0 ≤ nonce < 2 ^ 31 → 0 ≤ now < 2 ^ 32 →
  NoDup ns → Forall (λ n, 0 < n < 2 ^ 32) ns → zlen ops < 2 ^ 31 - 2 →
  Forall (λ p, (p.1 < length ns)%nat ∧ 0 ≤ p.2.1 < 2 ^ 32 ∧ wire_op p.2.2) ops →
  ∃ sv cs1 sv1 cs2 sv2,
    main rj aj bound puts nonce count now = Done sv ∧ bind_all 0 ns ∅ sv = Done (cs1, sv1) ∧
    session cs1 sv1 ops = Done ((store_run {[1 := []]} ops.*2.*2).1, cs2, sv2) ∧
    contents (ls (object sv2)) = (store_run {[1 := []]} ops.*2.*2).2.
Proof.
  intros Hrj Haj Hnonce Hnow Hnd Hns Hlen Hops.
  destruct (main_offers rj aj bound puts nonce count now Hrj Haj) as (sv & Hmain & Hu & Ho & Hs).
  destruct (local_run_server ops.*2 (object sv)) as (s' & Hrun & H2).
  destruct (served_locally (O := Z * xop) (Res := xreply) nonce sv ns ops (server_run (ls (object sv)) ops.*2).1 s' Hu) as (cs1 & sv1 & cs2 & sv2 & Hb & Hses & Hobj);
    [exact Hs| |exact Hnonce|exact Hnd|exact Hns|exact Hlen|exact Hops|exact Hrun|].
  - rewrite Ho. cbn [proper extent_stub ls]. apply map_Forall_insert_2; [|apply map_Forall_empty].
    unfold fits. cbn. lia.
  - exists sv, cs1, sv1, cs2, sv2. split; [exact Hmain|]. split; [exact Hb|].
    rewrite Ho in *. cbn [ls] in *.
    destruct (server_run_spec ops.*2 (extent_server.make now)) as [H3 H4].
    + rewrite contents_make. by apply map_Forall_singleton.
    + apply Forall_fmap. eapply Forall_impl; [exact Hops|]. intros [i [t o]] (_ & _ & Hw). cbn in *.
      destruct o; cbn in *; lia.
    + rewrite contents_make in *. rewrite Hses, Hobj, H2, H3, H4. by split.
Qed.

Lemma extent_rpc_serves_store_witness :
  let ops := [(0%nat, (5, XPut 7 (bs "abc"))); (1%nat, (6, XGet 7)); (0%nat, (7, XSetattr 7 2)); (1%nat, (7, XGetattr 9))] in
  ∃ sv cs1 sv1 cs2 sv2,
    main (-3) (mkAttr 9 9 9 9) (λ _, true) (λ _ _ _, 0) 77 0 4 = Done sv ∧ bind_all 0 [11; 12] ∅ sv = Done (cs1, sv1) ∧
    session cs1 sv1 ops = Done ((store_run {[1 := []]} ops.*2.*2).1, cs2, sv2) ∧
    contents (ls (object sv2)) = (store_run {[1 := []]} ops.*2.*2).2.
Proof.
  intros ops. refine (extent_rpc_serves_store (-3) (mkAttr 9 9 9 9) (λ _, true) (λ _ _ _, 0) 77 0 4 [11; 12] ops _ _ _ _ _ _ _ _).
  - lia.
  - cbn. lia.
  - lia.
  - lia.
  - by apply (bool_decide_unpack _); vm_compute.
  - repeat constructor.
  - cbn. lia.
  - repeat constructor; cbn; lia.
Defined.

(** ** The table of connections *)

Section connect.
Context {R : Type}.
Implicit Types (c : extent_client.t R) (calls : list (bytes * option R)).

Definition connects c calls : extent_client.t R :=
  foldl (λ c p, extent_client.ConnectTo c p.1 p.2) c calls.

(** How the first attempt at an address ended. *)
Definition first_attempt calls (dst : bytes) : option (option R) :=
  (list_to_map calls : gmap bytes (option R)) !! dst.

Lemma connects_table calls : ∀ c,
  extent_client.addr_to_rpcc_ (connects c calls) = extent_client.addr_to_rpcc_ c ∪ (list_to_map calls : gmap bytes (option R)).
Proof.
  induction calls as [|[dst dial] calls IH]; intros c; [symmetry; apply map_union_empty|].
  change (connects c ((dst, dial) :: calls)) with (connects (extent_client.ConnectTo c dst dial) calls). rewrite (IH (extent_client.ConnectTo c dst dial)).
  change (list_to_map ((dst, dial) :: calls) : gmap _ _) with (<[dst := dial]> (list_to_map calls : gmap _ (option R))).
  generalize (list_to_map calls : gmap bytes (option R)) as l. intros l.
  apply map_eq. intros a. rewrite !lookup_union. unfold extent_client.ConnectTo. cbn [extent_client.addr_to_rpcc_].
  destruct (decide (a = dst)) as [->|Hne].
  - rewrite !lookup_insert_eq.
    destruct (extent_client.addr_to_rpcc_ c !! dst) as [q|] eqn:E; [rewrite E; by destruct (l !! dst)|].
    destruct dial as [g|]; [rewrite lookup_insert_eq|rewrite E]; by destruct (l !! dst).
  - rewrite !lookup_insert_ne by done.
    destruct (extent_client.addr_to_rpcc_ c !! dst); [done|].
    destruct dial; [by rewrite lookup_insert_ne|done].
Qed.

(** After any calls of [ConnectTo] the client works with the connection that
    the first attempt at the address it was last given has made: never with
    another address's, and never again with an address whose first attempt did not
    bind, which stays a null pointer however often it is tried. *)
Theorem client_keeps_first_attempt dst0 dial0 calls dst dial :
  let c := connects (extent_client.make dst0 dial0) (calls ++ [(dst, dial)]) in
  extent_client.GetCurAddr c = dst ∧
  Some (extent_client.cl c) = first_attempt ((dst0, dial0) :: calls ++ [(dst, dial)]) dst ∧
  (∀ a, extent_client.addr_to_rpcc_ c !! a = first_attempt ((dst0, dial0) :: calls ++ [(dst, dial)]) a) ∧
  (∀ later, extent_client.cl (extent_client.ConnectTo c dst later) = extent_client.cl c).
Proof.
  intros c.
  assert (Htab : ∀ calls, extent_client.addr_to_rpcc_ (connects (extent_client.make dst0 dial0) calls) =
    list_to_map ((dst0, dial0) :: calls)).
  { intros l. rewrite connects_table. unfold extent_client.make, extent_client.ConnectTo. cbn [extent_client.addr_to_rpcc_].
    rewrite lookup_empty. change (list_to_map ((dst0, dial0) :: l) : gmap _ _) with (<[dst0 := dial0]> (list_to_map l : gmap _ (option R))).
    generalize (list_to_map l : gmap bytes (option R)) as k. intros k. apply map_eq. intros a. rewrite lookup_union.
    destruct (decide (a = dst0)) as [->|Hne].
    - rewrite !lookup_insert_eq. destruct dial0; [rewrite lookup_insert_eq|rewrite lookup_empty]; by destruct (k !! dst0).
    - rewrite !lookup_insert_ne by done.
      destruct dial0; [rewrite lookup_insert_ne by done|]; rewrite lookup_empty; by destruct (k !! a). }
  assert (Hcl : Some (extent_client.cl c) = extent_client.addr_to_rpcc_ c !! dst).
  { unfold c, connects. rewrite foldl_app. cbn. by rewrite lookup_insert_eq. }
  split; [unfold c, connects; by rewrite foldl_app|].
  split; [rewrite Hcl; unfold c; by rewrite Htab|].
  split; [intros a; unfold c; by rewrite Htab|].
  intros later. unfold extent_client.ConnectTo. cbn [extent_client.cl]. by rewrite <- Hcl, <- Hcl.
Qed.

End connect.
