(* ===== verification/ExtentNet.v ===== *)
(** * Extents over an unreliable network (src/fs/extent_smain.cc, src/client/extent_client.cc)

    The extent server's handlers in the network of RpcSections.v, [move] in its
    sections: whatever the network loses, repeats and reorders, and however the
    handlers interleave, the calls of all clients act on one store, one after the
    other, as long as a move has the server to itself; and what happens when it has
    not. *)

From S2P Require Import Prelude StdContainers ExtentServer Marshall RpcServer Connection ConnSend RpcStub RpcClient RpcNetwork Sections RpcSections ExtentRpc.
Import extent_smain (obj, mkObj, ls, clock).

(** The world of a run is what [time] answers; the attributes are 32 bits wide. *)
Definition at_clock (now : Z) (s : obj) : obj := mkObj (wrap32 now) (ls s).
Definition clocked (hs : gmap Z (handler obj)) (now : Z) : gmap Z (handler obj) :=
  (λ (f : handler obj) s, f (at_clock now s)) <$> hs.

(** Extents stay below 2^28 bytes. *)
Definition small_extents (s : obj) : bool :=
  bool_decide (map_Forall (λ _ x, zlen (content x) < 2 ^ 28) (extent_server.extent_map_ (ls s))).

Definition all_fit (s : obj) : Prop := map_Forall (λ _, fits) (extent_server.extent_map_ (ls s)).

(** ** What a request in the history asks for *)

Definition run_op (e : run Z) : option xop :=
  if e_proc e =? rpc_put then (λ p, XPut p.1 p.2) <$> reads (pair_ u64 str) e
  else if e_proc e =? rpc_get then XGet <$> reads u64 e
  else if e_proc e =? rpc_getattr then XGetattr <$> reads u64 e
  else if e_proc e =? rpc_setattr then (λ p, XSetattr p.1 (size p.2)) <$> reads (pair_ u64 attr_) e
  else if e_proc e =? rpc_remove then XRemove <$> reads u64 e
  else None.

(** The extents that a request may move to another server. *)
Definition run_moves (e : run Z) : list Z :=
  if e_proc e =? rpc_move then default [] (fst <$> reads (pair_ (vec u64) str) e) else [].

(** The store before and after a run. *)
Definition store_run_step (m : gmap Z bytes) (e : run Z) (m' : gmap Z bytes) : Prop :=
  match run_op e with
  | Some o => m' = (store_step m o).2
  | None => ∃ gone, gone ⊆ run_moves e ∧ m' = foldr delete m gone
  end.

(** A call of the client's stubs that returned: the status is not a failure of the
    call itself. *)
Definition extent_returned {World} (s : net obj World) (k : call) (q : return_) (o : xop) (r : xreply) : Prop :=
  match o with
  | XPut id buf => ∃ st b, returned (pair_ u64 str) i32 s k q rpc_put (id, buf) st b ∧ 0 ≤ st ∧ r = RStatus st
  | XGet id => ∃ st b, returned u64 str s k q rpc_get id st b ∧ 0 ≤ st ∧
      r = if st =? ext_OK then RBuf (default [] b) else RStatus st
  | XGetattr id => ∃ st b, returned u64 attr_ s k q rpc_getattr id st b ∧ 0 ≤ st ∧
      r = if st =? ext_OK then RSize (size (default (mkAttr 0 0 0 0) b)) else RStatus st
  | XSetattr id n => ∃ st b, returned (pair_ u64 attr_) i32 s k q rpc_setattr (id, mkAttr 0 0 0 n) st b ∧ 0 ≤ st ∧ r = RStatus st
  | XRemove id => ∃ st b, returned u64 i32 s k q rpc_remove id st b ∧ 0 ≤ st ∧ r = RStatus st
  end.

(** ** The methods are the steps of the server *)

Lemma put_step s id buf r ret r' s' : extent_smain.put s id buf r = Done (ret, r', s') →
  server_step (ls s) (clock s) (XPut id buf) = (RStatus ret, ls s') ∧ r' = r ∧ 0 ≤ ret < 2 ^ 31.
Proof.
  unfold extent_smain.put. cbn [server_step]. destruct (extent_server.put _ _ _ _) as [st x] eqn:E. intros [= <- <- <-].
  split_and!; try done; revert E; unfold extent_server.put; case_match; by intros [= <- _].
Qed.

Lemma remove_step s id r ret r' s' : extent_smain.remove s id r = Done (ret, r', s') →
  server_step (ls s) (clock s) (XRemove id) = (RStatus ret, ls s') ∧ r' = r ∧ 0 ≤ ret < 2 ^ 31.
Proof.
  unfold extent_smain.remove. cbn [server_step]. destruct (extent_server.remove _ _) as [st x] eqn:E. intros [= <- <- <-].
  split_and!; try done; revert E; unfold extent_server.remove; case_match; by intros [= <- _].
Qed.

Lemma setattr_step s id a r ret r' s' : extent_smain.setattr s id a r = Done (ret, r', s') →
  server_step (ls s) (clock s) (XSetattr id (size a)) = (RStatus ret, ls s') ∧ r' = r ∧ 0 ≤ ret < 2 ^ 31.
Proof.
  unfold extent_smain.setattr. cbn [server_step].
  change (extent_server.setattr (ls s) (clock s) id (mkAttr 0 0 0 (size a))) with (extent_server.setattr (ls s) (clock s) id a).
  destruct (extent_server.setattr _ _ _ _) as [st x] eqn:E. intros [= <- <- <-].
  split_and!; try done; revert E; unfold extent_server.setattr; repeat case_match; by intros [= <- _].
Qed.

Lemma get_step s id ret buf s' : extent_smain.get s id [] = Done (ret, buf, s') →
  server_step (ls s) (clock s) (XGet id) = (if ret =? ext_OK then RBuf buf else RStatus ret, ls s') ∧ 0 ≤ ret < 2 ^ 31 ∧
  (buf = [] ∨ ∃ x, extent_server.extent_map_ (ls s) !! id = Some x ∧ buf = content x).
Proof.
  unfold extent_smain.get. cbn [server_step]. destruct (extent_server.get _ _ _ _) as [[st b] x] eqn:E. intros [= <- <- <-].
  split_and!; try done; revert E; unfold extent_server.get; case_match; intros [= <- <- _]; eauto; done.
Qed.

Lemma getattr_step s id a0 ret a s' : wf attr_ a0 → all_fit s → extent_smain.getattr s id a0 = Done (ret, a, s') →
  server_step (ls s) (clock s) (XGetattr id) = (if ret =? ext_OK then RSize (size a) else RStatus ret, ls s') ∧ 0 ≤ ret < 2 ^ 31 ∧
  wf attr_ a.
Proof.
  intros Ha Hs. unfold extent_smain.getattr. cbn [server_step]. unfold extent_server.getattr.
  destruct (extent_server.extent_map_ (ls s) !! id) as [x|] eqn:Hx; intros [= <- <- <-]; split_and!; try done.
  destruct (Hs _ _ Hx) as (? & ? & ? & ?). cbn. pose proof (wrap_range 32 (zlen (content x)) ltac:(lia)). lia.
Qed.

Lemma move_step s ids dst bound puts r ret r' s' : extent_smain.move bound puts s ids dst r = Done (ret, r', s') →
  ∃ gone, gone ⊆ ids ∧ extent_server.extent_map_ (ls s') = foldr delete (extent_server.extent_map_ (ls s)) gone ∧
    r' = r ∧ 0 ≤ ret < 2 ^ 31.
Proof.
  unfold extent_smain.move. rewrite move_alone, bind_Done.
  destruct (negb _); [intros [= <- <- <-]; exists []; by split_and!; [set_solver|..]|].
  destruct (negb _); [intros [= <- <- <-]; exists []; by split_and!; [set_solver|..]|]. intros [= <- <- <-].
  eexists. split_and!; [|done..]. by intros id [Hid _]%elem_of_put_ok.
Qed.

Section extents.
Context (rj : Z) (aj : attr) (bound : bytes → bool) (puts : bytes → Z → bytes → Z) (nonce : Z).
Context (Hrj : - 2 ^ 31 ≤ rj < 2 ^ 31) (Haj : wf attr_ aj) (Hnonce : - 2 ^ 31 ≤ nonce < 2 ^ 31).

Abbreviation hs := (clocked (registered rj aj bound puts nonce)).

(** ** The handlers keep to the bounds *)


Lemma fits_within s now o :
  map_Forall (λ _, fits) (extent_server.extent_map_ s) → 0 ≤ now < 2 ^ 32 →
  map_Forall (λ _ x, zlen (content x) < 2 ^ 28) (extent_server.extent_map_ (server_step s now o).2) →
  map_Forall (λ _, fits) (extent_server.extent_map_ (server_step s now o).2).
Proof.
  intros Hs Hnow Hin i x Hi. pose proof (Hin i x Hi) as Hx. cbv beta in Hx. revert Hi.
  destruct o as [id buf|id|id|id n|id]; cbn [server_step]; server_cases s id; server_cbn; try (apply Hs);
    try (pose proof (Hs _ _ Hx0) as (? & ? & ? & ?)).
  all: try case_test; server_cbn; try (apply Hs).
  all: try (intros [[<- <-]|[_ Hi]]%lookup_insert_Some; [unfold fits; cbn in *; split_and!; lia|by apply (Hs i)]).
  intros [_ Hi]%lookup_delete_Some. by apply (Hs i).
Qed.

(** What a run does to the server. *)
Definition effect (e : run Z) (s s' : obj) : Prop :=
  match run_op e with
  | Some o => ls s' = (server_step (ls s) (wrap32 (e_world e)) o).2
  | None => ∃ gone, gone ⊆ run_moves e ∧ extent_server.extent_map_ (ls s') = foldr delete (extent_server.extent_map_ (ls s)) gone
  end.

Lemma unread e s s' : run_op e = None → ls s' = ls s → effect e s s'.
Proof. unfold effect. intros -> ->. exists []. split; [set_solver|done]. Qed.

(** The cases of a handler that ran. *)
Ltac by_handler :=
  intros (f0 & <- & Hf)%lookup_fmap_Some E; cbv beta in E; unfold registered in Hf;
  repeat (apply lookup_insert_Some in Hf as [[Hp <-]|[_ Hf]]);
  [..|apply lookup_singleton_Some in Hf as [Hp <-]].

Lemma run_effect e f s s' :
  hs (e_world e) !! e_proc e = Some f → f s (e_in e) mar_new = Done (e_ret e, e_out e, s') → effect e s s'.
Proof.
  by_handler; apply fn_cases in E as (a & u & Hg & [(Hok & _ & _ & ->)|(Hok & r & Hm & _)]);
    try (apply unread; [|done]; unfold run_op, reads; rewrite <- Hp, ?Hg; cbn; rewrite ?Hok; done);
    unfold effect, run_op, reads; rewrite <- Hp, ?Hg; cbn -[server_step]; rewrite ?Hok; cbn -[server_step].
  - destruct a as [ids dst]. destruct (move_step _ _ _ _ _ _ _ _ _ Hm) as (gone & Hgone & Hs & _). exists gone.
    split; [|exact Hs]. unfold run_moves, reads. rewrite <- Hp, ?Hg. cbn. by rewrite Hok.
  - destruct a as [id a]. symmetry. exact (f_equal snd (proj1 (setattr_step _ _ _ _ _ _ _ Hm))).
  - symmetry. exact (f_equal snd (proj1 (remove_step _ _ _ _ _ _ Hm))).
  - destruct a as [id buf]. symmetry. exact (f_equal snd (proj1 (put_step _ _ _ _ _ _ _ Hm))).
  - revert Hm. unfold extent_smain.getattr. destruct (extent_server.getattr _ _ _). intros [= _ _ <-].
    cbn. by destruct (extent_server.getattr _ _ _).
  - symmetry. exact (f_equal snd (proj1 (get_step _ _ _ _ _ Hm))).
  - injection Hm as _ _ <-. exists []. by split; [set_solver|].
Qed.

Lemma effect_fits e s s' : effect e s s' → all_fit s → small_extents s' = true → all_fit s'.
Proof.
  unfold effect, small_extents. intros H Hs Hin%bool_decide_eq_true. unfold all_fit in *. destruct (run_op e) as [o|].
  - rewrite H in *. apply fits_within; [done| |done]. apply wrap_range. lia.
  - destruct H as (gone & _ & ->). clear Hin. induction gone as [|i gone IH]; [done|]. by apply map_Forall_delete.
Qed.

(** Every handler replies in the bounds, and keeps to them. *)
Lemma handlers_behave v p f : hs v !! p = Some f → behaves small_extents all_fit f.
Proof.
  intros H s u ret rep s' Hs E Hin.
  assert (all_fit s') as Hs' by (eapply effect_fits, Hin; [|exact Hs]; by apply (run_effect (mkRun 0 0 p u ret rep v) f)).
  enough (framed rep ∧ - 2 ^ 31 ≤ ret < 2 ^ 31) as [? ?] by by split.
  revert H E; by_handler; eapply fn_framed in E; try apply E; try apply _; intros a r Hm.
  - destruct a as [ids dst]. destruct (move_step _ _ _ _ _ _ _ _ _ Hm) as (_ & _ & _ & -> & ?). split; [exact Hrj|]. split; [done|lia].
  - destruct a as [id a]. destruct (setattr_step _ _ _ _ _ _ _ Hm) as (_ & -> & ?). split; [exact Hrj|]. split; [done|lia].
  - destruct (remove_step _ _ _ _ _ _ Hm) as (_ & -> & ?). split; [exact Hrj|]. split; [done|lia].
  - destruct a as [id buf]. destruct (put_step _ _ _ _ _ _ _ Hm) as (_ & -> & ?). split; [exact Hrj|]. split; [done|lia].
  - destruct (getattr_step (at_clock v s) _ _ _ _ _ Haj Hs Hm) as (_ & ? & ?). split; [done|]. split; [done|lia].
  - destruct (get_step _ _ _ _ _ Hm) as (_ & ? & Hr). assert (zlen r < 2 ^ 28).
    { destruct Hr as [->|(x & Hx & ->)]; [done|]. apply (Hs _ _ Hx). }
    split; [cbn; lia|]. split; [|lia]. cbn [enc str_laws]. rewrite length_app, Nat2Z.inj_add, length_be32. lia.
  - injection Hm as <- <- _. split; [exact Hnonce|]. split; [done|lia].
Qed.

(** ** The history of the store *)

Lemma ran_store e s s' : ran hs small_extents e s s' → store_run_step (contents (ls s)) e (contents (ls s')).
Proof.
  intros (f & Hf & E & _). pose proof (run_effect e f s s' Hf E) as Hs. unfold effect in Hs. unfold store_run_step.
  destruct (run_op e) as [o|]; [rewrite Hs; apply server_step_contents|].
  destruct Hs as (gone & Hg & Hs). exists gone. split; [done|]. unfold contents. rewrite Hs.
  clear. induction gone as [|x gone IH]; [done|]. cbn. by rewrite fmap_delete, IH.
Qed.

(** ** A call that returned *)

Lemma registered_at p (f : handler obj) : registered rj aj bound puts nonce !! p = Some f →
  ∀ v, hs v !! p = Some (λ s, f (at_clock v s)).
Proof. intros Hf v. unfold clocked. by rewrite lookup_fmap, Hf. Qed.

Lemma store_reply s now o : all_fit s → 0 ≤ now < 2 ^ 32 → wire_op o →
  (server_step (ls s) now o).1 = (store_step (contents (ls s)) o).1.
Proof.
  intros Hs Hnow Ho. apply server_step_spec.
  - intros i c (x & <- & Hx)%lookup_fmap_Some. destruct (Hs _ _ Hx) as (_ & _ & _ & ?). lia.
  - destruct o; cbn in *; lia.
Qed.

Section call.
Context (n : Z) (sv : server obj) (s : net obj Z) (I : ninv hs small_extents all_fit n sv s) (H0 : all_fit (object sv)).

(** Its operation took place on the store of its moment. *)
Definition took_place (M : nat → gmap Z bytes) (k : call) (q : return_) (o : xop) (r : xreply) : Prop :=
  ∃ i e, n_log s !! i = Some e ∧ (k_since k ≤ i < q_until q)%nat ∧ run_op e = Some o ∧ r = (store_step (M i) o).1.

Context (O : nat → obj) (Hat : ∀ i s1, (i ≤ length (n_log s))%nat →
  replays hs small_extents (object sv) (take i (n_log s)) s1 → s1 = O i).
Abbreviation M := (λ i, contents (ls (O i))).

(** From the run of a method to its operation. *)
Lemma call_took_place {A R} (c : codec A) (d : codec R) `{!CodecLaws c, !CodecLaws d} (r0 : R) meth k q p a st b o (f : Z → option R → xreply) :
  returned c d s k q p a st b → 0 ≤ st → wf c a → zlen (enc c a) < 2 ^ 29 → wire_op o →
  registered rj aj bound puts nonce !! p = Some (fn c d r0 meth : handler obj) →
  (∀ s1 ret r s2, all_fit s1 → meth s1 a r0 = Done (ret, r, s2) →
     wf d r ∧ zlen (enc d r) < 2 ^ 29 ∧ f ret (Some r) = (server_step (ls s1) (clock s1) o).1) →
  (∀ e, e_proc e = p → reads c e = Some a → run_op e = Some o) →
  took_place M k q o (f st b).
Proof.
  intros Hq Hst Hw Hl Ho Hf Hm Hop.
  destruct (returned_ran hs small_extents all_fit handlers_behave c d r0 (λ _, meth) at_clock n sv s k q p a st b I H0 Hq Hst Hw Hl)
    as (i & e & s1 & r & s2 & He & Hi & _ & _ & Hp & (u & Hg & Hok) & R1 & E & _ & _ & _ & -> & _).
  - intros v. exact (registered_at p _ Hf v).
  - intros v s1 ret r s2 Hs E _. by destruct (Hm (at_clock v s1) ret r s2 Hs E) as (? & ? & _).
  - exists i, e. split_and!; [done|lia|lia| |].
    + apply Hop; [done|]. by eapply reads_of.
    + pose proof (replays_keeps hs small_extents all_fit handlers_behave _ _ _ R1 H0) as Hs.
      destruct (Hm (at_clock (e_world e) s1) st r s2 Hs E) as (_ & _ & ->).
      rewrite <- (Hat i s1); [|apply lookup_lt_Some in He; lia|exact R1].
      apply (store_reply (at_clock (e_world e) s1)); [exact Hs|apply wrap_range; lia|done].
Qed.

Lemma extent_call_took_place k q o r : wire_op o → extent_returned s k q o r → took_place M k q o r.
Proof.
  intros Ho H. destruct o as [id buf|id|id|id m|id]; cbn [extent_returned] in H; destruct H as (st & b & Hq & Hst & ->).
  - apply (call_took_place (pair_ u64 str) i32 rj (λ s '(a1, a2), extent_smain.put s a1 a2) k q rpc_put (id, buf) st b _ (λ st _, RStatus st));
      try done; cbn [wire_op] in Ho; [small|small| |by unfold run_op; intros e -> ->].
    intros s1 ret r s2 _ Hm. by destruct (put_step _ _ _ _ _ _ _ Hm) as (-> & -> & _).
  - apply (call_took_place u64 str [] extent_smain.get k q rpc_get id st b _ (λ st b, if st =? ext_OK then RBuf (default [] b) else RStatus st));
      try done; cbn [wire_op] in Ho; [|by unfold run_op; intros e -> ->].
    intros s1 ret r s2 Hs Hm. destruct (get_step _ _ _ _ _ Hm) as (-> & _ & Hr). assert (zlen r < 2 ^ 28).
    { destruct Hr as [->|(x & Hx & ->)]; [done|]. apply (Hs _ _ Hx). }
    small.
  - apply (call_took_place u64 attr_ aj extent_smain.getattr k q rpc_getattr id st b _
      (λ st b, if st =? ext_OK then RSize (size (default (mkAttr 0 0 0 0) b)) else RStatus st));
      try done; cbn [wire_op] in Ho; [|by unfold run_op; intros e -> ->].
    intros s1 ret r s2 Hs Hm. by destruct (getattr_step s1 _ _ _ _ _ Haj Hs Hm) as (-> & _ & ?).
  - apply (call_took_place (pair_ u64 attr_) i32 rj (λ s '(a1, a2), extent_smain.setattr s a1 a2) k q rpc_setattr (id, mkAttr 0 0 0 m) st b _
      (λ st _, RStatus st)); try done; cbn [wire_op] in Ho; [small| |by unfold run_op; intros e -> ->].
    intros s1 ret r s2 _ Hm. destruct (setattr_step _ _ _ _ _ _ _ Hm) as (E & -> & _). cbn [size] in E. by rewrite E.
  - apply (call_took_place u64 i32 rj extent_smain.remove k q rpc_remove id st b _ (λ st _, RStatus st));
      try done; cbn [wire_op] in Ho; [|by unfold run_op; intros e -> ->].
    intros s1 ret r s2 _ Hm. by destruct (remove_step _ _ _ _ _ _ Hm) as (-> & -> & _).
Qed.

End call.

End extents.

(** With every handler one step. *)
Lemma store_history rj aj bound puts nonce count now n lossy sv s :
  - 2 ^ 31 ≤ rj < 2 ^ 31 → wf attr_ aj → - 2 ^ 31 ≤ nonce < 2 ^ 31 → 0 ≤ now < 2 ^ 32 → 0 < n < 2 ^ 32 →
  extent_smain.main rj aj bound puts nonce count now = Done sv →
  nreach (clocked (handlers sv)) small_extents (ninit n lossy sv) s →
  ∃ M : nat → gmap Z bytes, M 0%nat = {[1 := []]} ∧ M (length (n_log s)) = contents (ls (n_obj s)) ∧
    (∀ i e, n_log s !! i = Some e → store_run_step (M i) e (M (S i))) ∧
    (∀ k q o r, wire_op o → extent_returned s k q o r → took_place s M k q o r).
Proof.
  intros Hrj Haj Hno Hnow Hn Hsv R. destruct (main_registers rj aj bound puts nonce count now) as (sv' & Hsv' & Hu & Ho & Hh).
  rewrite Hsv in Hsv'. injection Hsv' as <-. rewrite Hh in R.
  assert (H0 : all_fit (object sv)).
  { rewrite Ho. apply map_Forall_insert_2; [|apply map_Forall_empty]. unfold fits. cbn. lia. }
  pose proof (handlers_behave rj aj bound puts nonce Hrj Haj Hno) as Hb.
  assert (I := nreach_inv _ _ all_fit n Hn lossy sv Hb nonce s Hu H0 R).
  destruct (replays_states _ _ _ _ _ (ni_replays _ _ _ _ _ _ I)) as (O & HO0 & HOl & Hstep & Hat).
  exists (λ i, contents (ls (O i))). split_and!.
  - by rewrite HO0, Ho.
  - by rewrite HOl.
  - intros i e He. by apply (ran_store rj aj bound puts nonce Hrj Haj Hno), Hstep.
  - exact (extent_call_took_place rj aj bound puts nonce Hrj Haj Hno n sv s I H0 O Hat).
Qed.

(** ** The handlers in sections *)

Section codes.
Context (rj : Z) (aj : attr) (bound : bytes → bool) (puts : bytes → Z → bytes → Z) (nonce : Z).
Abbreviation scode := (code obj extent_server.mutex extent_server.place).

(** A handler that holds the mutex throughout. *)
Definition guarded {R} (touches : list (extent_server.place * access)) (f : obj → outcome (Z * R * obj)) : scode (Z * R) :=
  Sec (Some extent_server.server_mu_) touches (λ s, '(st, r, s) ← f s; Done ((st, r), s)) (λ x, Ret (Done x)).

Definition set_ls (x : extent_server.t) (s : obj) : obj := mkObj (clock s) x.

Definition move_code (ids : list Z) (dst : bytes) (r : Z) : scode (Z * Z) :=
  andthen (focus ls set_ls (extent_server.move_sections (puts dst) ids (bool_decide (Byte.x3a ∈ dst)) (bound dst)))
    (λ st, Ret (Done (st, r))).

(** The handler objects that [main] registers, in their sections. *)
Definition store_codes : gmap Z (unm → scode (Z * mar)) :=
  <[rpc_move := fn_code (pair_ (vec u64) str) i32 rj (λ '(ids, dst) r, move_code ids dst r)]>
   (<[rpc_setattr := fn_code (pair_ u64 attr_) i32 rj
        (λ '(id, a) r, guarded (extent_server.setattr_touches id) (λ s, extent_smain.setattr s id a r))]>
    (<[rpc_remove := fn_code u64 i32 rj (λ id r, guarded (extent_server.remove_touches id) (λ s, extent_smain.remove s id r))]>
     (<[rpc_put := fn_code (pair_ u64 str) i32 rj
          (λ '(id, buf) r, guarded (extent_server.put_touches id) (λ s, extent_smain.put s id buf r))]>
      (<[rpc_getattr := fn_code u64 attr_ aj (λ id a, guarded (extent_server.getattr_touches id) (λ s, extent_smain.getattr s id a))]>
       (<[rpc_get := fn_code u64 str [] (λ id buf, guarded (extent_server.get_touches id) (λ s, extent_smain.get s id buf))]>
         {[bind_proc := bind_code nonce]}))))).

Definition moves (p : Z) : bool := p =? rpc_move.

Lemma alone_guarded {R} touches (f : obj → outcome (Z * R * obj)) s :
  f s = '((b, r), s) ← alone (guarded touches f) s; Done (b, r, s).
Proof. cbn. by destruct (f s) as [[[b r] s1]| | |]. Qed.

Lemma alone_move s ids dst r :
  extent_smain.move bound puts s ids dst r = '((b, r), s) ← alone (move_code ids dst r) s; Done (b, r, s).
Proof.
  unfold extent_smain.move, move_code. rewrite alone_andthen, alone_focus; [|done|done|by intros []].
  unfold extent_server.move. by destruct (alone _ (ls s)) as [[st x]| | |].
Qed.

(** The cases of a method in sections. *)
Ltac by_code Hc :=
  unfold store_codes in Hc; repeat (apply lookup_insert_Some in Hc as [[<- <-]|[_ Hc]]);
  [..|apply lookup_singleton_Some in Hc as [<- <-]].

Lemma codes_alone p c : store_codes !! p = Some c → ∃ f, registered rj aj bound puts nonce !! p = Some f ∧
  ∀ u s, f s u mar_new = '((b, m), s) ← alone (c u) s; Done (b, m, s).
Proof.
  intros Hc. by_code Hc; (eexists; split; [reflexivity|]); intros u s;
    [apply alone_fn; intros s1 a; try (destruct a as [a1 a2])..|apply alone_bind]; cbv beta iota; [apply alone_move|..];
    lazymatch goal with |- ?l = _ => lazymatch eval pattern s1 in l with ?f _ => exact (alone_guarded _ f s1) end end.
Qed.

(** Every handler but [move] is one section, under the mutex or without data. *)
Lemma codes_single p c u : store_codes !! p = Some c → moves p = false → single (c u) ∧ held extent_server.server_mu_ (c u).
Proof.
  intros Hc Hp. by_code Hc; [done|..]; (split; [apply fn_code_single|apply fn_code_held]); intros a; try (destruct a as [a1 a2]); cbn; eauto.
Qed.

(** Each begins by looking at the clock. *)
Definition ticking (now : Z) : gmap Z (unm → scode (Z * mar)) := (λ (c : unm → scode (Z * mar)) u, first (at_clock now) (c u)) <$> store_codes.

Lemma ticking_alone now p c : ticking now !! p = Some c →
  ∃ f, clocked (registered rj aj bound puts nonce) now !! p = Some f ∧
  ∀ u s, f s u mar_new = '((b, m), s) ← alone (c u) s; Done (b, m, s).
Proof.
  intros (c0 & <- & Hc)%lookup_fmap_Some. destruct (codes_alone p c0 Hc) as (f & Hf & E).
  exists (λ s, f (at_clock now s)). split; [apply lookup_fmap_Some; by exists f|].
  intros u s. by rewrite E, alone_first.
Qed.

Lemma ticking_single now p c u : ticking now !! p = Some c → moves p = false →
  single (c u) ∧ held extent_server.server_mu_ (c u).
Proof.
  intros (c0 & <- & Hc)%lookup_fmap_Some Hp. destruct (codes_single p c0 u Hc Hp).
  split; [by apply single_first|by apply held_first].
Qed.

End codes.

(** C4: Extents are one store, over any network, as long as a move has the server to
    itself.  However requests and replies are lost, repeated and reordered, whatever
    other clients ask, whatever the clock shows, and however the handlers' sections
    interleave, no [move] being under way together with another handler: no two sections race; there is
    one history of a finite map of contents, each of its steps the operation of a
    request that ran (or a move that takes extents away), which ends in what the
    server holds while no handler is under way; and a call of the client that returns
    has had its operation take place in this history, at a moment between its
    beginning and its return, and returns what the map said there.  Extents stay below
    2^28 bytes.  The condition is needed ([overlapped_moves_break]). *)
Theorem extents_are_one_store rj aj bound puts nonce count now n lossy sv fs :
  - 2 ^ 31 ≤ rj < 2 ^ 31 → wf attr_ aj → - 2 ^ 31 ≤ nonce < 2 ^ 31 → 0 ≤ now < 2 ^ 32 → 0 < n < 2 ^ 32 →
  extent_smain.main rj aj bound puts nonce count now = Done sv →
  freach (ticking rj aj bound puts nonce) moves small_extents (ninit n lossy sv) fs →
  let s := coarse fs in
  (∀ w, fstep (ticking rj aj bound puts nonce) fs (FEnter w) ≠ Some Undef) ∧
  ∃ M : nat → gmap Z bytes, M 0%nat = {[1 := []]} ∧
    (busy fs = ∅ → M (length (n_log s)) = contents (ls (n_obj s))) ∧
    (∀ i e, n_log s !! i = Some e → store_run_step (M i) e (M (S i))) ∧
    (∀ k q o r, wire_op o → extent_returned s k q o r → took_place s M k q o r).
Proof.
  intros Hrj Haj Hno Hnow Hn Hsv R s. destruct (main_registers rj aj bound puts nonce count now) as (sv' & Hsv' & _ & Ho & Hh).
  pose proof Hsv as Hsv2. rewrite Hsv in Hsv'. injection Hsv' as <-.
  assert (Hin : small_extents (n_obj (ninit (World := Z) n lossy sv)) = true).
  { change (small_extents (object sv) = true). rewrite Ho. by vm_compute. }
  pose proof (λ v p c, ticking_alone rj aj bound puts nonce v p c) as Ha. rewrite <- Hh in Ha.
  pose proof (λ v p c u Hc Hp, proj1 (ticking_single rj aj bound puts nonce v p c u Hc Hp)) as H1.
  split; [intros w; apply (sections_never_race _ moves small_extents _ _ Hin Ha H1 extent_server.server_mu_ fs w); [|exact R];
    intros v p c u Hc Hp; exact (proj2 (ticking_single rj aj bound puts nonce v p c u Hc Hp))|].
  destruct (sections_coarse _ moves small_extents _ _ Hin Ha H1 fs R) as (c & Rc & Hc & Hobj).
  destruct (store_history rj aj bound puts nonce count now n lossy sv c Hrj Haj Hno Hnow Hn Hsv2 Rc) as (M & H0 & Hlast & Hstep & Hcall).
  exists M. split; [exact H0|]. split; [intros Hb; unfold s; by rewrite <- (Hobj Hb)|].
  revert Hstep Hcall. generalize (n_obj c) Hc. intros o ->. by split.
Qed.

(** A get overtakes a put and is repeated, and its handler overlaps that of
    another; another client puts, and has the root extent moved away; the next get
    reads what it has put. *)
Definition two_arg (id : Z) (buf : bytes) : mar := match put (pair_ u64 str) (id, buf) mar_new with Done m => m | _ => mar_new end.
Definition one_arg (id : Z) : mar := match put u64 id mar_new with Done m => m | _ => mar_new end.
Definition request_of {A} (c : codec A) (x p : Z) (a : A) : bytes :=
  match (m ← put c a mar_new; pack_req_header (mkReq x p 12 77 0) m) with Done m => data m | _ => [] end.
Definition other_put : bytes := request_of (pair_ u64 str) 5 rpc_put (7, bs "xyz").
Definition other_move : bytes := request_of (pair_ (vec u64) str) 6 rpc_move ([1], bs "x:1").
Definition store_server : server obj :=
  match extent_smain.main (-3) (mkAttr 9 9 9 9) (λ _, true) (λ _ _ _, 0) 77 0 4 with
  | Done sv => sv
  | _ => mkServer (rpcs.mk 77 ∅ ∅ 1 ∅ 0 0 ∅) ∅ (mkObj 0 (extent_server.make 0))
  end.
Abbreviation store_ticking := (ticking (-3) (mkAttr 9 9 9 9) (λ _, true) (λ _ _ _, 0) 77).
Definition one_section (w : nat) (v : Z) : list (fevent Z) := [FCall w v; FEnter w; FExit w].
Definition store_events : list (fevent Z) :=
  (FNet <$> [NBegin 0 1 (int_arg 0); NTransmit 0; NArrive 0 0]) ++ one_section 0 4 ++
  (FNet <$> [NReply 0; NSend 0; NDeliver 0; NEnd 0; NBound 0 77;
     NBegin 1 rpc_put (two_arg 7 (bs "ab")); NBegin 2 rpc_get (one_arg 7); NTransmit 1; NTransmit 2; NTransmit 2;
     NArrive 0 2; NArrive 2 1]) ++
  [FCall 0 5; FCall 2 6; FEnter 0; FExit 0; FEnter 2; FExit 2] ++
  (FNet <$> [NReply 0; NSend 0; NArrive 1 3; NSend 1; NReply 2; NSend 2;
     NDeliver 2; NDeliver 1; NDeliver 3; NEnd 1; NEnd 2; NOther 4 other_put]) ++ one_section 4 7 ++
  (FNet <$> [NReply 4; NSend 4; NOther 4 other_move]) ++ [FCall 4 8; FEnter 4; FExit 4; FEnter 4; FExit 4; FEnter 4; FExit 4] ++
  (FNet <$> [NReply 4; NSend 4; NBegin 1 rpc_get (one_arg 7); NTransmit 1; NArrive 0 4]) ++ one_section 0 8 ++
  (FNet <$> [NReply 0; NSend 0; NDeliver 4; NEnd 1]).
Definition store_start : net obj Z := ninit 9 false store_server.
Definition store_end : fnet obj Z extent_server.mutex extent_server.place :=
  match frun store_ticking (mkFine store_start ∅) store_events with Some (Done s) => s | _ => mkFine store_start ∅ end.

Lemma extents_are_one_store_witness :
  let s := coarse store_end in
  let q := nth 0 (n_returns s) (mkReturn 0 0 unm_none 0) in
  let k := nth 0 (n_calls s) (mkCall 0 0 mar_new 0) in
  contents (ls (n_obj s)) = {[7 := bs "xyz"]} ∧ extent_returned s k q (XGet 7) (RBuf (bs "xyz")) ∧
  ∃ M : nat → gmap Z bytes, M 0%nat = {[1 := []]} ∧ M (length (n_log s)) = contents (ls (n_obj s)) ∧
    took_place s M k q (XGet 7) (RBuf (bs "xyz")).
Proof.
  intros s q k.
  assert (Hq : extent_returned s k q (XGet 7) (RBuf (bs "xyz"))).
  { exists 0, (Some (bs "xyz")). split; [|by split].
    split_and!; [apply list_elem_of_lookup_2 with (i := 0%nat)| | |apply list_elem_of_lookup_2 with (i := 0%nat)|..];
      vm_compute; reflexivity. }
  split; [vm_compute; reflexivity|]. split; [exact Hq|].
  destruct (main_registers (-3) (mkAttr 9 9 9 9) (λ _, true) (λ _ _ _, 0) 77 0 4) as (sv & Hsv & _).
  assert (Es : store_server = sv) by (unfold store_server; by rewrite Hsv).
  destruct (extents_are_one_store (-3) (mkAttr 9 9 9 9) (λ _, true) (λ _ _ _, 0) 77 0 4 9 false store_server store_end) as (_ & M & H0 & H1 & _ & H2).
  - lia.
  - cbn. lia.
  - lia.
  - lia.
  - lia.
  - by rewrite Es.
  - apply (frun_reach _ _ _ store_start (mkFine store_start ∅) store_events); [constructor|vm_compute; reflexivity|].
    unfold store_end. by vm_compute.
  - exists M. split; [exact H0|]. split; [apply H1; vm_compute; reflexivity|]. apply H2; [cbn; lia|exact Hq].
Defined.

(** Why a move needs the server to itself.  Extent 7 is stored, and two requests are
    in their handlers: a move of it, and another client's remove or put.  A remove
    between the first section and the sending leaves the move with a pointer to freed
    memory; a put at the moment of the sending races with it; and a put between the
    sending and the last section, which returns OK, is lost: the server has no extent
    7 then, and what was sent is the old content ([extent_move_overlapped]). *)
Definition move_and (b : bytes) : list (fevent Z) :=
  FNet (NOther 0 other_put) :: one_section 0 4 ++
  (FNet <$> [NReply 0; NSend 0; NOther 0 (request_of (pair_ (vec u64) str) 6 rpc_move ([7], bs "x:1")); NOther 1 b]) ++
  [FCall 0 5; FCall 1 6].
Definition other_remove : bytes := request_of u64 7 rpc_remove 7.
Definition second_put : bytes := request_of (pair_ u64 str) 7 rpc_put (7, bs "new").

Theorem overlapped_moves_break :
  let run es := frun store_ticking (mkFine store_start ∅) es in
  run (move_and other_remove ++ [FEnter 0; FExit 0; FEnter 1; FExit 1; FEnter 0; FExit 0]) = Some Undef ∧
  run (move_and second_put ++ [FEnter 0; FExit 0; FEnter 0; FEnter 1]) = Some Undef ∧
  match run (move_and second_put ++ [FEnter 0; FExit 0; FEnter 0; FExit 0; FEnter 1; FExit 1; FEnter 0; FExit 0]) with
  | Some (Done s) => busy s = ∅ ∧ contents (ls (n_obj (coarse s))) = {[1 := []]} ∧
      (λ e, (e_proc e, e_ret e)) <$> n_log (coarse s) = [(rpc_put, 0); (rpc_put, 0); (rpc_move, 0)]
  | _ => False
  end.
Proof. vm_compute. split_and!; reflexivity. Qed.
