(* ===== verification/ExtentRoute.v ===== *)
(** * Extents on several servers (src/client/extent_client_cache.cc, extent_client.cc, client.cc)

    The calls of the extent cache when there is more than one extent server:
    [retry] drops the cached address, asks for the server of the inode and connects to
    it; the calls go out on the connection that is there.  The cache of addresses is
    that of KvClient.v, the table of connections that of ExtentRpc.v, the servers are
    any that keep the laws of [ExtentService].  Calls are not lost. *)

From S2P Require Import Prelude StdContainers Marshall RpcServer Connection ConnSend RpcStub RpcClient ExtentRpc KvClient ExtentServer ExtentCache.

Module route.
Section route.
Context {X : Type} `{ExtentService X} {E : Type} `{MasterService E}.

(** The client, with the connections of its extent client, and the servers at
    their addresses.  A connection is the address it was made to. *)
Record t : Type := mk { client_ : Client.t E; ec : extent_client.t bytes; servers : gmap bytes X }.

(** A new [rpcc] binds when there is a server. *)
Definition dial (s : t) (addr : bytes) : option bytes := if decide (is_Some (servers s !! addr)) then Some addr else None.

Definition connect (s : t) (addr : bytes) : t :=
  mk (client_ s) (extent_client.ConnectTo (ec s) addr (dial s addr)) (servers s).

Definition retry (s : t) (id : Z) : outcome t :=
  c ← Client.FailCache (client_ s) id;
  '(addr, c) ← Client.GetKVAddrByInum c id;
  Done (connect (mk c (ec s) (servers s)) addr).

(** [yfs_client::initExtentClient], of a client that has an extent client. *)
Definition initExtentClient (s : t) (id : Z) : outcome t :=
  '(addr, c) ← Client.GetKVAddrByInum (client_ s) id;
  let s := mk c (ec s) (servers s) in
  Done (if bool_decide (addr = extent_client.GetCurAddr (ec s)) then s else connect s addr).

(** A call on [cl], which must not be null. *)
Definition on {A} (s : t) (f : X → A * X) : outcome (A * t) :=
  match extent_client.cl (ec s) with
  | None => Undef
  | Some a =>
      match servers s !! a with
      | None => Undef
      | Some x => let '(r, x) := f x in Done (r, mk (client_ s) (ec s) (<[a := x]> (servers s)))
      end
  end.

(** A run that has failed stays failed. *)
Definition lift {A} (d : A) (o : outcome t) (f : X → A * X) : A * outcome t :=
  match (s ← o; on s f) with
  | Done (r, s) => (r, Done s)
  | Throws => (d, Throws) | Undef => (d, Undef) | NoFuel => (d, NoFuel)
  end.

#[export] Instance routed : ExtentService (outcome t) := {|
  call_get o id buf :=
    let '((st, b), o) := lift (0, []) o (λ x, let '(st, b, x) := call_get x id buf in ((st, b), x)) in (st, b, o);
  call_getattr o id a :=
    let '((st, b), o) := lift (0, a) o (λ x, let '(st, b, x) := call_getattr x id a in ((st, b), x)) in (st, b, o);
  call_put o id buf := lift 0 o (λ x, call_put x id buf);
  call_remove o id := lift 0 o (λ x, call_remove x id);
  call_setattr o id a := lift 0 o (λ x, call_setattr x id a);
  ExtentCache.retry o id := s ← o; retry s id;
|}.

(** The calls of the extent cache, and what comes before an operation of the
    file system. *)
Inductive op : Type := RInit (id : Z) | RCall (o : xop).

Definition step (s : t) (o : op) : outcome (xreply * t) :=
  match o with
  | RInit id => s ← initExtentClient s id; Done (RStatus ext_OK, s)
  | RCall (XPut id buf) =>
      let '(st, o) := extent_client_cache.callPut (Done s : outcome t) id buf in s ← o; Done (RStatus st, s)
  | RCall (XGet id) =>
      let '(st, buf, o) := extent_client_cache.callGet (Done s : outcome t) id [] in
      s ← o; Done (if st =? ext_OK then RBuf buf else RStatus st, s)
  | RCall (XGetattr id) =>
      let '(st, a, o) := extent_client_cache.callGetAttr (Done s : outcome t) id (mkAttr 0 0 0 0) in
      s ← o; Done (if st =? ext_OK then RSize (size a) else RStatus st, s)
  | RCall (XSetattr id n) =>
      let '(st, o) := extent_client_cache.callSetAttr (Done s : outcome t) id (mkAttr 0 0 0 n) in s ← o; Done (RStatus st, s)
  | RCall (XRemove id) =>
      let '(st, o) := extent_client_cache.callRemove (Done s : outcome t) id in s ← o; Done (RStatus st, s)
  end.

Fixpoint run (s : t) (ops : list op) : outcome (list xreply * t) :=
  match ops with
  | [] => Done ([], s)
  | o :: ops => '(r, s) ← step s o; '(rs, s) ← run s ops; Done (r :: rs, s)
  end.

End route.
Arguments t : clear implicits.
End route.
Import route.

(** ** What the routing amounts to

    One store, and the server the client is connected to: a removal reaches the
    store only when it is the server of the inode. *)
Definition route_spec (e : Z → bytes) (s : bytes * gmap Z bytes) (o : op) : xreply * (bytes * gmap Z bytes) :=
  let '(cur, m) := s in
  match o with
  | RInit id => (RStatus ext_OK, (e id, m))
  | RCall (XRemove id) => (RStatus ext_OK, (cur, if bool_decide (cur = e id) then delete id m else m))
  | RCall o => let '(r, m') := store_step m o in
      (r, (match o with XPut id _ | XGet id | XGetattr id | XSetattr id _ | XRemove id => e id end, m'))
  end.

Fixpoint route_run (e : Z → bytes) (s : bytes * gmap Z bytes) (ops : list op) : list xreply * (bytes * gmap Z bytes) :=
  match ops with
  | [] => ([], s)
  | o :: ops => let '(r, s) := route_spec e s o in let '(rs, s) := route_run e s ops in (r :: rs, s)
  end.

Definition op_id (o : op) : Z :=
  match o with
  | RInit id | RCall (XPut id _) | RCall (XGet id) | RCall (XGetattr id) | RCall (XSetattr id _) | RCall (XRemove id) => id
  end.
Definition op_ok (o : op) : Prop := match o with RInit _ => True | RCall o => xop_ok o end.

(** ** Where the calls go *)

Section routed.
Context {X : Type} `{ExtentServiceLaws X} (e : Z → bytes).
Implicit Types (s : t X (Z → bytes)) (c : Client.t (Z → bytes)).

(** A file: its inode number has bit 31. *)
Definition is_file (id : Z) : Prop := 2 ^ 31 ≤ id.

(** The client is connected; its connections are where they say; its cache of
    addresses has at most [n] entries; [e] is what the master says. *)
Record sound (n : Z) s : Prop := {
  so_marks : marks_positions (client_ s);
  so_len : zlen (Client.kv_addr_list_ (client_ s)) ≤ n;
  so_env : Client.env (client_ s) = e;
  so_table a p : extent_client.addr_to_rpcc_ (ec s) !! a = Some p → p = Some a;
  so_cl : extent_client.cl (ec s) = Some (extent_client.addr_ (ec s));
  so_up id : is_file id → is_Some (servers s !! e id) ∧ e id ≠ [];
  so_here : is_Some (servers s !! extent_client.addr_ (ec s)) }.

(** The store [m] in pieces: a file is on the server of its inode only. *)
Record spread s (cur : bytes) (m : gmap Z bytes) : Prop := {
  sp_cur : extent_client.addr_ (ec s) = cur;
  sp_ok a x : servers s !! a = Some x → store_ok (view x);
  sp_at a x id : servers s !! a = Some x → is_file id → view x !! id = if decide (a = e id) then m !! id else None }.

Lemma ask_env c id : Client.env (Client.getKVAddrByInumViaMaster c id).2 = Client.env c.
Proof.
  unfold Client.getKVAddrByInumViaMaster, Client.getRpc. by destruct (bool_decide _).
Qed.

Lemma link_env c id a i k c' : Client.link_loop c id a i k = Done c' → Client.env c' = Client.env c.
Proof.
  assert (Hu : ∀ c j c', Client.use c id a j = Done c' → Client.env c' = Client.env c).
  { intros c1 j c2. unfold Client.use. by intros [[a1 n1] [_ [n2 [_ [= <-]]]%bind_Done_inv]]%bind_Done_inv. }
  revert c i. induction k as [|k IH]; intros c i; cbn [Client.link_loop].
  - unfold Client.getNextId. by destruct (Client.reused_queue_ c); intros ->%Hu.
  - intros [[a1 n1] [_ E]]%bind_Done_inv. destruct (bool_decide _ && _); [by apply Hu in E|by eapply IH].
Qed.

Lemma get_addr n c id a c' :
  marks_positions c → zlen (Client.kv_addr_list_ c) ≤ n → Client.env c = e → n ≤ id →
  Client.GetKVAddrByInum c id = Done (a, c') →
  a = e id ∧ marks_positions c' ∧ zlen (Client.kv_addr_list_ c') ≤ n + 1 ∧ Client.env c' = e.
Proof.
  intros Hm Hl He Hn E. destruct (get_uncached c id a c' Hm E) as (Hm' & Hl' & Ha).
  split; [|split; [done|split; [lia|]]].
  - rewrite Ha by lia. unfold master_says, Client.getKVAddrByInumViaMaster, Client.getRpc.
    by destruct (bool_decide _); cbn; rewrite He.
  - revert E. unfold Client.GetKVAddrByInum. intros [[el c1] [E1 E]]%bind_Done_inv.
    assert (H1 : Client.env c1 = e).
    { clear E. unfold Client.getKVAddrByInumViaCache in E1.
      destruct (bool_decide (Client.kv_addr_connect_status_ c !! id = Some 0)); [|by injection E1 as _ <-].
      cbn [Client.index_of] in E1. apply bind_Done_inv in E1 as [[a1 n1] [_ E1]]. by injection E1 as _ <-. }
    destruct (bool_decide (el = [])); [|by injection E as _ <-].
    pose proof (ask_env c1 id) as H2. destruct (Client.getKVAddrByInumViaMaster c1 id) as [el' c2]. cbn [snd] in H2.
    destruct (negb _); [|injection E as _ <-; congruence].
    apply bind_Done_inv in E as [c3 [E [= _ <-]]]. apply link_env in E. congruence.
Qed.

Lemma fail_env c id c' : Client.FailCache c id = Done c' → Client.env c' = Client.env c.
Proof.
  unfold Client.FailCache. cbn [Client.index_of]. intros [[a k] [_ E]]%bind_Done_inv.
  destruct (k =? 0); [by injection E as <-|]. apply bind_Done_inv in E as [k' [_ E]].
  destruct (k' =? 0); by injection E as <-.
Qed.

(** Connecting to a server that is there. *)
Lemma connect_to c s a :
  (∀ b p, extent_client.addr_to_rpcc_ (ec s) !! b = Some p → p = Some b) → is_Some (servers s !! a) →
  let s' := connect (mk c (ec s) (servers s)) a in
  extent_client.cl (ec s') = Some a ∧ extent_client.addr_ (ec s') = a ∧ servers s' = servers s ∧ client_ s' = c ∧
  ∀ b p, extent_client.addr_to_rpcc_ (ec s') !! b = Some p → p = Some b.
Proof.
  intros Ht Ha s'. assert (dial (mk c (ec s) (servers s)) a = Some a) as Hd by (unfold dial; by rewrite decide_True).
  unfold s', connect. rewrite Hd. unfold extent_client.ConnectTo.
  cbn [ec servers client_ extent_client.cl extent_client.addr_ extent_client.addr_to_rpcc_].
  destruct (extent_client.addr_to_rpcc_ (ec s) !! a) as [p|] eqn:Hp.
  - pose proof (Ht a p Hp) as ->. rewrite Hp. cbn [default id]. split_and!; try done.
    intros b q [[<- <-]|[_ Hb]]%lookup_insert_Some; [done|by apply Ht].
  - rewrite lookup_insert_eq. cbn [default id]. split_and!; try done.
    intros b q [[<- <-]|[_ [[<- <-]|[_ Hb]]%lookup_insert_Some]]%lookup_insert_Some; [done|done|by apply Ht].
Qed.

(** Both ways to connect end at the server of the file. *)
Lemma arrive n s c id cur m :
  sound n s → spread s cur m → is_file id →
  marks_positions c → zlen (Client.kv_addr_list_ c) ≤ n + 1 → Client.env c = e →
  sound (n + 1) (connect (mk c (ec s) (servers s)) (e id)) ∧ spread (connect (mk c (ec s) (servers s)) (e id)) (e id) m.
Proof.
  intros Hs Hp Hid Hm Hl He. destruct (so_up n s Hs id Hid) as [Hup Hne].
  destruct (connect_to c s (e id) (so_table n s Hs) Hup) as (H1 & H2 & H3 & H4 & H5).
  split; split; rewrite ?H1, ?H2, ?H3, ?H4; first [done|by destruct Hp|by destruct Hs].
Qed.

Lemma retry_arrives n s s' id cur m :
  sound n s → spread s cur m → is_file id → n ≤ id → route.retry s id = Done s' → sound (n + 1) s' ∧ spread s' (e id) m.
Proof.
  intros Hs Hp Hid Hn. unfold route.retry. intros [c [E1 [[a c'] [E2 [= <-]]]%bind_Done_inv]]%bind_Done_inv.
  destruct (fail_marks _ _ _ (so_marks n s Hs) E1) as [Hm Hl]. pose proof (so_len n s Hs).
  destruct (get_addr n c id a c' Hm ltac:(lia)) as (-> & Hm' & Hl' & He'); [|done|done|].
  - rewrite (fail_env _ _ _ E1). apply Hs.
  - by eapply arrive.
Qed.

Lemma init_arrives n s s' id cur m :
  sound n s → spread s cur m → is_file id → n ≤ id → initExtentClient s id = Done s' → sound (n + 1) s' ∧ spread s' (e id) m.
Proof.
  intros Hs Hp Hid Hn. unfold initExtentClient. intros [[a c] [E [= <-]]]%bind_Done_inv.
  destruct (get_addr n (client_ s) id a c (so_marks n s Hs) (so_len n s Hs) (so_env n s Hs) Hn E) as (-> & Hm & Hl & He).
  unfold extent_client.GetCurAddr. cbn [ec]. case_bool_decide as Hc; [|by eapply arrive].
  split; split; cbn [client_ ec servers]; first [done|by destruct Hp|by destruct Hs].
Qed.

(** A call on the connection. *)
Lemma on_here n s {A} (f : X → A * X) :
  sound n s → ∃ x, servers s !! extent_client.addr_ (ec s) = Some x ∧
    on s f = Done ((f x).1, mk (client_ s) (ec s) (<[extent_client.addr_ (ec s) := (f x).2]> (servers s))).
Proof.
  intros Hs. destruct (so_here n s Hs) as [x Hx]. exists x. split; [done|].
  unfold on. rewrite (so_cl n s Hs), Hx. by destruct (f x).
Qed.

(** Afterwards the server has another state. *)
Lemma call_sound n s x : sound n s → sound n (mk (client_ s) (ec s) (<[extent_client.addr_ (ec s) := x]> (servers s))).
Proof.
  intros []. split; cbn [client_ ec servers]; try done.
  - intros id Hid. destruct (so_up0 id Hid). rewrite lookup_insert_is_Some'. auto.
  - rewrite lookup_insert_is_Some'. auto.
Qed.

Lemma call_spread n s cur m m' x x' :
  sound n s → spread s cur m → servers s !! extent_client.addr_ (ec s) = Some x → store_ok (view x') →
  (∀ id, is_file id → (cur = e id → view x' !! id = m' !! id) ∧ (cur ≠ e id → view x' !! id = view x !! id ∧ m' !! id = m !! id)) →
  spread (mk (client_ s) (ec s) (<[extent_client.addr_ (ec s) := x']> (servers s))) cur m'.
Proof.
  intros Hs [<- Hok Hat] Hx Hx' Hv. split; cbn [client_ ec servers]; [done| |].
  - intros a y [[_ <-]|[_ Ha]]%lookup_insert_Some; [done|by eapply Hok].
  - intros a y id [[<- <-]|[Hne Ha]]%lookup_insert_Some Hid; destruct (Hv id Hid) as [V1 V2].
    + case_decide as Hc; [by apply V1|]. destruct (V2 Hc) as [-> _]. rewrite (Hat _ _ _ Hx Hid). by rewrite decide_False.
    + rewrite (Hat a y id Ha Hid). case_decide as Hc; [|done]. subst a. symmetry. by apply V2.
Qed.

(** The calls, where the client is connected. *)
Definition here (cur : bytes) (m : gmap Z bytes) (id : Z) : option bytes := if decide (cur = e id) then m !! id else None.

Lemma lift_here n s {A} (d : A) (f : X → A * X) cur m :
  sound n s → spread s cur m →
  ∃ x, servers s !! extent_client.addr_ (ec s) = Some x ∧ store_ok (view x) ∧
    (∀ id, is_file id → view x !! id = here cur m id) ∧
    lift d (Done s) f = ((f x).1, Done (mk (client_ s) (ec s) (<[extent_client.addr_ (ec s) := (f x).2]> (servers s)))) ∧
    (∀ m', store_ok (view (f x).2) →
       (∀ id, is_file id → (cur = e id → view (f x).2 !! id = m' !! id) ∧
                           (cur ≠ e id → view (f x).2 !! id = view x !! id ∧ m' !! id = m !! id)) →
       let s' := mk (client_ s) (ec s) (<[extent_client.addr_ (ec s) := (f x).2]> (servers s)) in
       sound n s' ∧ spread s' cur m').
Proof.
  intros Hs Hp. destruct (on_here n s f Hs) as (x & Hx & Ho). exists x.
  split; [done|]. split; [by eapply sp_ok|]. split; [|split].
  - intros id Hid. rewrite (sp_at _ _ _ Hp _ _ _ Hx Hid). by rewrite (sp_cur _ _ _ Hp).
  - unfold lift. by rewrite bind_Done, Ho.
  - intros m' Hok Hv. split; [by apply call_sound|by eapply call_spread].
Qed.

(** A call that leaves the store alone. *)
Lemma same_view (x x' : X) cur m :
  view x' = view x → (∀ id, is_file id → view x !! id = here cur m id) → store_ok (view x) →
  store_ok (view x') ∧ ∀ id, is_file id → (cur = e id → view x' !! id = m !! id) ∧
    (cur ≠ e id → view x' !! id = view x !! id ∧ m !! id = m !! id).
Proof.
  intros -> Hv Hok. split; [done|]. intros id Hid. rewrite (Hv id Hid). unfold here. by case_decide.
Qed.

Lemma get_here n s id buf cur m :
  sound n s → spread s cur m → is_file id →
  ∃ st b s', call_get (Done s : outcome (t X (Z → bytes))) id buf = (st, b, Done s') ∧ sound n s' ∧ spread s' cur m ∧
    match here cur m id with Some c => st = ext_OK ∧ b = c | None => st = ext_NOENT end.
Proof.
  intros Hs Hp Hid. cbn [call_get routed].
  destruct (lift_here n s (0, []) (λ x, let '(st, b, x) := call_get x id buf in ((st, b), x)) cur m Hs Hp)
    as (x & Hx & Hok & Hv & -> & Hnext).
  pose proof (get_law x id buf) as Hg. destruct (call_get x id buf) as [[st b] x']. destruct Hg as [Hview Hg]. cbn [fst snd] in *.
  destruct (same_view x x' cur m Hview Hv Hok) as [H1 H2]. destruct (Hnext m H1 H2) as [Hs' Hp'].
  eexists st, b, _. split; [done|]. split; [done|]. split; [done|]. by rewrite <- (Hv id Hid).
Qed.

Lemma getattr_here n s id a cur m :
  sound n s → spread s cur m → is_file id →
  ∃ st b s', call_getattr (Done s : outcome (t X (Z → bytes))) id a = (st, b, Done s') ∧ sound n s' ∧ spread s' cur m ∧
    match here cur m id with Some c => st = ext_OK ∧ size b = zlen c | None => st = ext_NOENT end.
Proof.
  intros Hs Hp Hid. cbn [call_getattr routed].
  destruct (lift_here n s (0, a) (λ x, let '(st, b, x) := call_getattr x id a in ((st, b), x)) cur m Hs Hp)
    as (x & Hx & Hok & Hv & -> & Hnext).
  pose proof (getattr_law x id a Hok) as Hg. destruct (call_getattr x id a) as [[st b] x']. destruct Hg as [Hview Hg].
  cbn [fst snd] in *. destruct (same_view x x' cur m Hview Hv Hok) as [H1 H2]. destruct (Hnext m H1 H2) as [Hs' Hp'].
  eexists st, b, _. split; [done|]. split; [done|]. split; [done|]. by rewrite <- (Hv id Hid).
Qed.

(** What a change of one file at its server means for the whole store. *)
Lemma put_view (x x' : X) id v m :
  view x' = partial_alter (λ _, v) id (view x) → (∀ i, is_file i → view x !! i = here (e id) m i) →
  ∀ i, is_file i → (e id = e i → view x' !! i = partial_alter (λ _, v) id m !! i) ∧
    (e id ≠ e i → view x' !! i = view x !! i ∧ partial_alter (λ _, v) id m !! i = m !! i).
Proof.
  intros -> Hv i Hi. destruct (decide (id = i)) as [<-|Hne]; [by rewrite !lookup_partial_alter_eq|].
  rewrite !lookup_partial_alter_ne by done. rewrite (Hv i Hi). unfold here. by case_decide.
Qed.

Lemma put_here n s id buf m :
  sound n s → spread s (e id) m → is_file id → zlen buf < 2 ^ 32 →
  ∃ s', call_put (Done s : outcome (t X (Z → bytes))) id buf = (ext_OK, Done s') ∧ sound n s' ∧ spread s' (e id) (<[id := buf]> m).
Proof.
  intros Hs Hp Hid Hb. cbn [call_put routed].
  destruct (lift_here n s 0 (λ x, call_put x id buf) (e id) m Hs Hp) as (x & Hx & Hok & Hv & -> & Hnext).
  pose proof (put_law x id buf Hb) as Hg. destruct (call_put x id buf) as [st x']. destruct Hg as [-> Hview]. cbn [fst snd] in *.
  destruct (Hnext (<[id := buf]> m)) as [Hs' Hp']; [rewrite Hview; by apply map_Forall_insert_2| |by eexists].
  exact (put_view x x' id (Some buf) m Hview Hv).
Qed.

Lemma setattr_here n s id a m :
  sound n s → spread s (e id) m → is_file id → 0 ≤ size a < 2 ^ 32 →
  ∃ st s', call_setattr (Done s : outcome (t X (Z → bytes))) id a = (st, Done s') ∧ sound n s' ∧
    match m !! id with
    | Some c => st = ext_OK ∧ spread s' (e id) (<[id := extent_server.resize c (size a)]> m)
    | None => st = ext_NOENT ∧ spread s' (e id) m
    end.
Proof.
  intros Hs Hp Hid Ha. cbn [call_setattr routed].
  destruct (lift_here n s 0 (λ x, call_setattr x id a) (e id) m Hs Hp) as (x & Hx & Hok & Hv & -> & Hnext).
  pose proof (setattr_law x id a Ha) as Hg. destruct (call_setattr x id a) as [st x']. cbn [fst snd] in *.
  rewrite (Hv id Hid) in Hg. unfold here in Hg. rewrite decide_True in Hg by done. destruct (m !! id) as [c|].
  - destruct Hg as [-> Hview]. destruct (Hnext (<[id := extent_server.resize c (size a)]> m)) as [Hs' Hp'].
    + rewrite Hview. apply map_Forall_insert_2; [|done]. rewrite length_resize; lia.
    + exact (put_view x x' id (Some _) m Hview Hv).
    + eexists _, _. split; [done|]. by split.
  - destruct Hg as [-> Hview]. destruct (same_view x x' (e id) m Hview Hv Hok) as [H1 H2].
    destruct (Hnext m H1 H2) as [Hs' Hp']. eexists _, _. split; [done|]. by split.
Qed.

(** A removal removes at the server that is connected. *)
Lemma remove_here n s id cur m :
  sound n s → spread s cur m → is_file id →
  ∃ s', call_remove (Done s : outcome (t X (Z → bytes))) id = (ext_OK, Done s') ∧ sound n s' ∧
    spread s' cur (if bool_decide (cur = e id) then delete id m else m).
Proof.
  intros Hs Hp Hid. cbn [call_remove routed].
  destruct (lift_here n s 0 (λ x, call_remove x id) cur m Hs Hp) as (x & Hx & Hok & Hv & -> & Hnext).
  pose proof (remove_law x id) as Hg. destruct (call_remove x id) as [st x']. destruct Hg as [-> Hview]. cbn [fst snd] in *.
  destruct (Hnext (if bool_decide (cur = e id) then delete id m else m)) as [Hs' Hp'].
  - rewrite Hview. by apply map_Forall_delete.
  - case_bool_decide as Hc; [subst cur; exact (put_view x x' id None m Hview Hv)|].
    rewrite Hview. intros i Hi. destruct (decide (id = i)) as [<-|Hne].
    + rewrite lookup_delete_eq, (Hv id Hid). unfold here. by rewrite decide_False.
    + rewrite lookup_delete_ne, (Hv i Hi) by done. unfold here. by case_decide.
  - by eexists.
Qed.

Lemma lift_done {A} (d : A) (o : outcome (t X (Z → bytes))) f r s' : lift d o f = (r, Done s') → ∃ s, o = Done s.
Proof. unfold lift. destruct o; [eauto|done..]. Qed.

(** [retry], then a call. *)
Lemma retried n s id cur m s' :
  sound n s → spread s cur m → is_file id → n ≤ id → ExtentCache.retry (Done s : outcome (t X (Z → bytes))) id = Done s' →
  sound (n + 1) s' ∧ spread s' (e id) m.
Proof. intros Hs Hp Hid Hn E. cbn [ExtentCache.retry routed] in E. rewrite bind_Done in E. by eapply retry_arrives. Qed.

Lemma sound_more n s : sound n s → sound (n + 1) s.
Proof. intros []. split; try done. lia. Qed.

Lemma here_home id m : here (e id) m id = m !! id.
Proof. unfold here. by rewrite decide_True. Qed.

(** Found on the present server, which is then its server; or there is another
    attempt at its server. *)
Lemma callGet_routed n s id st b s' cur m :
  sound n s → spread s cur m → is_file id → n ≤ id →
  extent_client_cache.callGet (Done s : outcome (t X (Z → bytes))) id [] = (st, b, Done s') →
  sound (n + 1) s' ∧ spread s' (e id) m ∧ match m !! id with Some c => st = ext_OK ∧ b = c | None => st = ext_NOENT end.
Proof.
  intros Hs Hp Hid Hn. unfold extent_client_cache.callGet.
  destruct (get_here n s id [] cur m Hs Hp Hid) as (st1 & b1 & s1 & -> & Hs1 & Hp1 & H1).
  destruct (here cur m id) as [c|] eqn:Hh.
  - destruct H1 as [-> ->]. unfold here in Hh. destruct (decide (cur = e id)) as [->|]; [|done]. rewrite Hh.
    change (negb (ext_OK =? ext_OK)) with false. intros [= <- <- <-]. split; [by apply sound_more|done].
  - subst st1. change (negb (ext_NOENT =? ext_OK)) with true. intros E.
    destruct (ExtentCache.retry (Done s1) id) as [s2| | |] eqn:E2; try done.
    destruct (retried n s1 id _ m s2 Hs1 Hp1 Hid Hn E2) as [Hs2 Hp2].
    destruct (get_here _ s2 id [] _ m Hs2 Hp2 Hid) as (st3 & b3 & s3 & E3 & Hs3 & Hp3 & H3).
    rewrite E3 in E. injection E as <- <- <-. rewrite here_home in H3. done.
Qed.

Lemma callGetAttr_routed n s id a st b s' cur m :
  sound n s → spread s cur m → is_file id → n ≤ id →
  extent_client_cache.callGetAttr (Done s : outcome (t X (Z → bytes))) id a = (st, b, Done s') →
  sound (n + 1) s' ∧ spread s' (e id) m ∧ match m !! id with Some c => st = ext_OK ∧ size b = zlen c | None => st = ext_NOENT end.
Proof.
  intros Hs Hp Hid Hn. unfold extent_client_cache.callGetAttr.
  destruct (getattr_here n s id a cur m Hs Hp Hid) as (st1 & b1 & s1 & -> & Hs1 & Hp1 & H1).
  destruct (here cur m id) as [c|] eqn:Hh.
  - destruct H1 as [-> Hb]. unfold here in Hh. destruct (decide (cur = e id)) as [->|]; [|done]. rewrite Hh.
    change (negb (ext_OK =? ext_OK)) with false. intros [= <- <- <-]. split; [by apply sound_more|done].
  - subst st1. change (negb (ext_NOENT =? ext_OK)) with true. intros E.
    destruct (ExtentCache.retry (Done s1) id) as [s2| | |] eqn:E2; try done.
    destruct (retried n s1 id _ m s2 Hs1 Hp1 Hid Hn E2) as [Hs2 Hp2].
    destruct (getattr_here _ s2 id b1 _ m Hs2 Hp2 Hid) as (st3 & b3 & s3 & E3 & Hs3 & Hp3 & H3).
    rewrite E3 in E. injection E as <- <- <-. rewrite here_home in H3. done.
Qed.

Lemma callPut_routed n s id buf st s' cur m :
  sound n s → spread s cur m → is_file id → n ≤ id → zlen buf < 2 ^ 32 →
  extent_client_cache.callPut (Done s : outcome (t X (Z → bytes))) id buf = (st, Done s') →
  sound (n + 1) s' ∧ spread s' (e id) (<[id := buf]> m) ∧ st = ext_OK.
Proof.
  intros Hs Hp Hid Hn Hb. unfold extent_client_cache.callPut.
  destruct (ExtentCache.retry (Done s) id) as [s2| | |] eqn:E2; try done.
  destruct (retried n s id _ m s2 Hs Hp Hid Hn E2) as [Hs2 Hp2].
  destruct (put_here _ s2 id buf m Hs2 Hp2 Hid Hb) as (s3 & -> & Hs3 & Hp3).
  change (extent_client_cache.failed ext_OK) with false. by intros [= <- <-].
Qed.

Lemma callSetAttr_routed n s id a st s' cur m :
  sound n s → spread s cur m → is_file id → n ≤ id → 0 ≤ size a < 2 ^ 32 →
  extent_client_cache.callSetAttr (Done s : outcome (t X (Z → bytes))) id a = (st, Done s') →
  sound (n + 1) s' ∧
  match m !! id with
  | Some c => st = ext_OK ∧ spread s' (e id) (<[id := extent_server.resize c (size a)]> m)
  | None => st = ext_NOENT ∧ spread s' (e id) m
  end.
Proof.
  intros Hs Hp Hid Hn Ha. unfold extent_client_cache.callSetAttr.
  destruct (ExtentCache.retry (Done s) id) as [s2| | |] eqn:E2; try done.
  destruct (retried n s id _ m s2 Hs Hp Hid Hn E2) as [Hs2 Hp2].
  destruct (setattr_here _ s2 id a m Hs2 Hp2 Hid Ha) as (st3 & s3 & -> & Hs3 & H3).
  assert (extent_client_cache.failed st3 = false) as -> by (by destruct (m !! id); destruct H3 as [-> _]).
  by intros [= <- <-].
Qed.

Lemma callRemove_routed n s id st s' cur m :
  sound n s → spread s cur m → is_file id →
  extent_client_cache.callRemove (Done s : outcome (t X (Z → bytes))) id = (st, Done s') →
  sound (n + 1) s' ∧ spread s' cur (if bool_decide (cur = e id) then delete id m else m) ∧ st = ext_OK.
Proof.
  intros Hs Hp Hid. unfold extent_client_cache.callRemove.
  destruct (remove_here n s id cur m Hs Hp Hid) as (s1 & -> & Hs1 & Hp1).
  change (extent_client_cache.failed ext_OK) with false. intros [= <- <-]. split; [by apply sound_more|done].
Qed.

Lemma step_routed n s o r s' cur m :
  sound n s → spread s cur m → is_file (op_id o) → n ≤ op_id o → op_ok o → step s o = Done (r, s') →
  let '(r', (cur', m')) := route_spec e (cur, m) o in r = r' ∧ sound (n + 1) s' ∧ spread s' cur' m'.
Proof.
  intros Hs Hp Hid Hn Ho. destruct o as [id|[id buf|id|id|id k|id]]; cbn [step route_spec store_step op_id op_ok xop_ok] in *.
  - intros [s1 [E [= <- <-]]]%bind_Done_inv. destruct (init_arrives n s s1 id cur m Hs Hp Hid Hn E). done.
  - destruct (extent_client_cache.callPut (Done s) id buf) as [st o] eqn:E. intros [s1 [-> [= <- <-]]]%bind_Done_inv.
    destruct (callPut_routed n s id buf st s1 cur m Hs Hp Hid Hn Ho E) as (? & ? & ->). done.
  - destruct (extent_client_cache.callGet (Done s) id []) as [[st b] o] eqn:E. intros [s1 [-> [= <- <-]]]%bind_Done_inv.
    destruct (callGet_routed n s id st b s1 cur m Hs Hp Hid Hn E) as (? & ? & H3).
    split; [|done]. destruct (m !! id); [by destruct H3 as [-> ->]|by subst st].
  - destruct (extent_client_cache.callGetAttr (Done s) id _) as [[st b] o] eqn:E. intros [s1 [-> [= <- <-]]]%bind_Done_inv.
    destruct (callGetAttr_routed n s id _ st b s1 cur m Hs Hp Hid Hn E) as (? & ? & H3).
    split; [|done]. destruct (m !! id); [destruct H3 as [-> ->]; done|by subst st].
  - destruct (extent_client_cache.callSetAttr (Done s) id _) as [st o] eqn:E. intros [s1 [-> [= <- <-]]]%bind_Done_inv.
    destruct (callSetAttr_routed n s id (mkAttr 0 0 0 k) st s1 cur m Hs Hp Hid Hn Ho E) as (? & H3). cbn [size] in H3.
    destruct (m !! id); destruct H3 as [-> ?]; done.
  - destruct (extent_client_cache.callRemove (Done s) id) as [st o] eqn:E. intros [s1 [-> [= <- <-]]]%bind_Done_inv.
    destruct (callRemove_routed n s id st s1 cur m Hs Hp Hid E) as (? & ? & ->). done.
Qed.

Lemma run_routed ops : ∀ n s cur m rs s',
  sound n s → spread s cur m → Forall (λ o, is_file (op_id o) ∧ op_ok o) ops → n + zlen ops ≤ 2 ^ 31 → run s ops = Done (rs, s') →
  let '(rs', (cur', m')) := route_run e (cur, m) ops in rs = rs' ∧ sound (n + zlen ops) s' ∧ spread s' cur' m'.
Proof.
  induction ops as [|o ops IH]; intros n s cur m rs s' Hs Hp Ho Hn; cbn [run route_run].
  - intros [= <- <-]. cbn. by rewrite Z.add_0_r.
  - apply Forall_cons in Ho as [[Hid Hok] Ho]. cbn [length] in Hn. unfold is_file in Hid.
    intros [[r s1] [E1 [[rs1 s2] [E2 [= <- <-]]]%bind_Done_inv]]%bind_Done_inv.
    pose proof (step_routed n s o r s1 cur m Hs Hp Hid ltac:(lia) Hok E1) as H1.
    destruct (route_spec e (cur, m) o) as [r' [cur1 m1]]. destruct H1 as (-> & Hs1 & Hp1).
    pose proof (IH (n + 1) s1 cur1 m1 rs1 s2 Hs1 Hp1 Ho ltac:(lia) E2) as H2.
    destruct (route_run e (cur1, m1) ops) as [rs' [cur2 m2]]. destruct H2 as (-> & Hs2 & Hp2).
    split; [done|]. split; [|done]. cbn [length]. by replace (n + Z.of_nat (S (length ops))) with (n + 1 + zlen ops) by lia.
Qed.

End routed.

(** [initExtentClient] when there is no extent client yet. *)
Definition started {X} `{ExtentService X} (master : bytes) (e : Z → bytes) (svs : gmap bytes X) (id : Z) :
    outcome (t X (Z → bytes)) :=
  '(a, c) ← Client.GetKVAddrByInum (Client.make master e) id;
  let s := mk c (extent_client.mk None [] ∅) svs in
  Done (mk c (extent_client.make a (dial s a)) svs).

(** Two servers, as they start, and a file on each. *)
Definition two_svs : gmap bytes served :=
  <[bs "a:1" := mkServed (extent_server.make 0) 0]> {[bs "b:1" := mkServed (extent_server.make 0) 0]}.
Definition odd_even (id : Z) : bytes := if Z.odd id then bs "a:1" else bs "b:1".
Definition f1 : Z := 2 ^ 31 + 1.
Definition f2 : Z := 2 ^ 31 + 2.

(** The servers hold the store [m] in pieces. *)
Definition pieces {X} `{ExtentServiceLaws X} (e : Z → bytes) (svs : gmap bytes X) (m : gmap Z bytes) : Prop :=
  ∀ a x, svs !! a = Some x →
    store_ok (view x) ∧ ∀ id, is_file id → view x !! id = if decide (a = e id) then m !! id else None.

Lemma start_sound {X} `{ExtentServiceLaws X} (master : bytes) (e : Z → bytes) (svs : gmap bytes X) id s m :
  is_file id → (∀ id, is_file id → is_Some (svs !! e id) ∧ e id ≠ []) → pieces e svs m →
  started master e svs id = Done s → sound e 1 s ∧ spread e s (e id) m.
Proof.
  intros Hid Hup Hm. unfold started. intros [[a c] [E [= <-]]]%bind_Done_inv.
  destruct (get_addr e 0 (Client.make master e) id a c) as (-> & H1 & H2 & H3); [apply make_marks|done|done|unfold is_file in Hid; lia|done|].
  destruct (Hup id Hid) as [Ha _].
  set (s0 := mk c (extent_client.mk None [] ∅) svs) in *.
  destruct (connect_to c s0 (e id)) as (G1 & G2 & G3 & G4 & G5); [intros b p; cbn; by rewrite lookup_empty|done|].
  unfold connect in *. cbn [ec servers client_ s0] in *.
  change (extent_client.make (e id) (dial s0 (e id))) with
    (extent_client.ConnectTo (extent_client.mk None [] ∅) (e id) (dial s0 (e id))).
  split; split; cbn [ec servers client_]; rewrite ?G2; try done.
  - intros b x Hx. by apply (Hm b x Hx).
  - intros b x i Hx Hi. by apply (Hm b x Hx).
Qed.

(** C35: With several extent servers, each file kept on the server that the master
    names, the calls of the extent cache that return answer what one store of
    all files answers, whatever server the client was connected to, except that a
    removal reaches the server that is connected: it removes the file when that is
    the file's server, and is otherwise answered with success and lost. *)
Theorem routed_calls_are_one_store {X} `{ExtentServiceLaws X} (master : bytes) (e : Z → bytes) (svs : gmap bytes X) id m s ops rs s' :
  is_file id → (∀ id, is_file id → is_Some (svs !! e id) ∧ e id ≠ []) → pieces e svs m →
  Forall (λ o, is_file (op_id o) ∧ op_ok o) ops → zlen ops < 2 ^ 31 →
  started master e svs id = Done s → run s ops = Done (rs, s') →
  let '(rs', (cur, m')) := route_run e (e id, m) ops in
  rs = rs' ∧ pieces e (servers s') m' ∧ extent_client.cl (ec s') = Some cur.
Proof.
  intros Hid Hup Hm Ho Hn Hs Hr. destruct (start_sound master e svs id s m Hid Hup Hm Hs) as [S1 P1].
  pose proof (run_routed e ops 1 s (e id) m rs s' S1 P1 Ho ltac:(lia) Hr) as R.
  destruct (route_run e (e id, m) ops) as [rs' [cur m']]. destruct R as (-> & S2 & P2).
  split; [done|]. split; [|rewrite (so_cl _ _ _ S2); by rewrite (sp_cur _ _ _ _ P2)].
  intros a x Ha. split; [by eapply sp_ok|]. intros i Hi. by eapply sp_at.
Qed.

Definition demo_ops : list op :=
  [RInit f2; RCall (XPut f1 (bs "x")); RCall (XPut f2 (bs "y")); RCall (XRemove f1); RCall (XGet f1)].

Lemma two_up id : is_file id → is_Some (two_svs !! odd_even id) ∧ odd_even id ≠ [].
Proof. intros _. unfold odd_even. destruct (Z.odd id); (split; [by eexists|done]). Qed.

Lemma two_pieces : pieces odd_even two_svs ∅.
Proof.
  assert (E : view (mkServed (extent_server.make 0) 0) = {[1 := []]}) by reflexivity.
  assert (Hv : ∀ id, is_file id → view (mkServed (extent_server.make 0) 0) !! id = None).
  { intros id Hid. unfold is_file in Hid. rewrite E. apply lookup_singleton_ne. lia. }
  assert (Hk : store_ok (view (mkServed (extent_server.make 0) 0))).
  { rewrite E. by apply map_Forall_singleton. }
  intros a x Ha. unfold two_svs in Ha.
  apply lookup_insert_Some in Ha as [[_ <-]|[_ [_ <-]%lookup_singleton_Some]]; (split; [exact Hk|]);
    intros id Hid; rewrite (Hv id Hid), lookup_empty; by case_decide.
Qed.

Lemma routed_calls_are_one_store_witness :
  ∃ s rs s', started (bs "m:1") odd_even two_svs f1 = Done s ∧ run s demo_ops = Done (rs, s') ∧
    rs = (route_run odd_even (odd_even f1, ∅) demo_ops).1.
Proof.
  destruct (done_if_inv (λ s, done_if (λ _, true) (run s demo_ops)) (started (bs "m:1") odd_even two_svs f1)) as (s & Hs & H);
    [by vm_compute|].
  destruct (done_if_inv _ _ H) as ([rs s'] & Hr & _). exists s, rs, s'. split; [done|]. split; [done|].
  pose proof (routed_calls_are_one_store (bs "m:1") odd_even two_svs f1 ∅ s demo_ops rs s') as R.
  assert (Hf : Forall (λ o, is_file (op_id o) ∧ op_ok o) demo_ops).
  { repeat constructor; unfold is_file, f1, f2; cbn; lia. }
  specialize (R ltac:(unfold is_file, f1; lia) two_up two_pieces Hf ltac:(cbn; lia) Hs Hr).
  destruct (route_run odd_even (odd_even f1, ∅) demo_ops) as [rs' [cur m']]. by destruct R.
Defined.

(** With two servers the cache brings a removed file back: it is removed
    and flushed with success while the client is connected to the other server, and
    then read with its old contents.  And since every extent server creates
    extent 1, the root is read as empty on a server that is not its own. *)
Theorem calls_reach_wrong_server :
  (s ← started (bs "m:1") odd_even two_svs f1;
   '(_, s) ← run s [RInit f2; RCall (XPut f1 (bs "x")); RCall (XPut f2 (bs "y"))];
   let '(r1, c) := extent_client_cache.remove (extent_client_cache.mk ∅ (Done s)) f1 in
   let '(r2, c) := extent_client_cache.flush c f1 in
   let '(r3, buf, c) := extent_client_cache.get c 0 f1 [] in
   _ ← extent_client_cache.env c; Done (r1, r2, r3, buf)) = Done (ext_OK, ext_OK, ext_OK, bs "x") ∧
  (s ← started (bs "m:1") odd_even two_svs 1;
   '(rs, _) ← run s [RInit f2; RCall (XPut 1 (bs "root")); RCall (XPut f2 (bs "y")); RCall (XGet 1)]; Done rs) =
    Done [RStatus ext_OK; RStatus ext_OK; RStatus ext_OK; RBuf []].
Proof. split; vm_compute; reflexivity. Qed.
