(* ===== verification/Gtg.v ===== *)
(** * Timestamps (src/master/gtg.cc, src/client/gtg_client.cc)

    The global timestamp generator and its client: a counter behind one typed
    call.  The mutex makes the handler one step. *)

From S2P Require Import Prelude Marshall RpcServer Connection ConnSend RpcStub RpcClient RpcNetwork.

Definition GET_TS : Z := 6543.

Module GTG.
Section gtg.
(** What the handler's [int r] holds before. *)
Context (rj : Z).

(** [r = logical_++] on an [int]. *)
Definition get_ts (logical_ : Z) (_ : Z) (r : Z) : outcome (Z * Z * Z) :=
  if logical_ =? 2 ^ 31 - 1 then Undef else Done (0, logical_, logical_ + 1).

(** The constructor, with its server. *)
Definition make (nonce : Z) : outcome (server Z) :=
  sv ← server_make nonce 0 0; reg GET_TS (fn1 i32 i32 rj get_ts) sv.

End gtg.
End GTG.

Module GTC.

(** The constructor binds, and goes on when that fails. *)
Definition make (nonce : Z) (sv : server Z) : outcome (rpcc.t * server Z) :=
  '(_, cl, sv) ← bind (rpcc.make nonce false true) sv; Done (cl, sv).

Definition get_ts (cl : rpcc.t) (sv : server Z) : outcome (Z * option Z * rpcc.t * server Z) :=
  call_1 i32 i32 cl sv GET_TS 0.

End GTC.

(** The status and the time stamp. *)
#[export] Instance gtg_stub : Stub unit (Z * option Z) Z := {
  remote _ cl sv := '(st, r, cl, sv) ← GTC.get_ts cl sv; Done (st, r, cl, sv);
  local _ s := Done ((0, Some s), s + 1);
  callable _ := True;
  proper n s := 0 ≤ s ∧ s + Z.of_nat n ≤ 2 ^ 31 - 1;
  offered hs := ∃ rj, hs !! GET_TS = Some (fn1 i32 i32 rj GTG.get_ts);
}.

#[export] Instance gtg_stub_laws : StubLaws unit (Z * option Z) Z.
Proof.
  split.
  - intros n [] ex cl sv r s Hy [rj Hh] [H0 Hs] _ [= <- <-] Hb Hx. cbn [remote gtg_stub].
    edestruct (call_ok i32 i32 rj GTG.get_ts ex cl sv GET_TS 0 0 (object sv) (object sv + 1)) as (cl' & sv' & Hc & Hrest);
      [exact Hy|exact Hx|by rewrite Hb|done|exact Hh| |done|done|cbn; lia|done|done|].
    + unfold GTG.get_ts. rewrite (proj2 (Z.eqb_neq _ _)) by lia. done.
    + exists cl', sv'. unfold GTC.get_ts, call_1. rewrite Hc, bind_Done. by split.
  - intros n [] s r s' [H0 Hs] _ [= <- <-]. cbn [proper gtg_stub]. lia.
Qed.

Lemma local_run_gtg (ops : list unit) : ∀ s : Z,
  local_run s ops = Done ((λ k, (0, Some k)) <$> seqZ s (zlen ops), s + zlen ops).
Proof.
  induction ops as [|[] ops IH]; intros s; cbn [local_run local gtg_stub]; [by rewrite Z.add_0_r|].
  rewrite bind_Done, IH, bind_Done. cbn [length]. rewrite Nat2Z.inj_succ, (seqZ_cons s) by lia. rewrite Z.pred_succ. cbn [fmap list_fmap].
  do 2 f_equal. lia.
Qed.

(** Clients that bind to a new timestamp generator and then ask it in any
    order, over connections that lose nothing, get the numbers 0, 1, 2 and so on in
    the order of the calls, each with status 0, so that no two calls get the same
    one; the call that finds the counter at the largest [int] is not defined. *)
Theorem timestamps_count_up rj nonce ns (callers : list nat) :
  0 ≤ nonce < 2 ^ 31 → NoDup ns → Forall (λ n, 0 < n < 2 ^ 32) ns → zlen callers < 2 ^ 31 - 2 →
  Forall (λ i, (i < length ns)%nat) callers →
  (∃ sv cs1 sv1 cs2 sv2,
    GTG.make rj nonce = Done sv ∧ bind_all 0 ns ∅ sv = Done (cs1, sv1) ∧
    session cs1 sv1 ((λ i, (i, tt)) <$> callers) = Done ((λ k, (0, Some k)) <$> seqZ 0 (zlen callers), cs2, sv2) ∧
    object sv2 = zlen callers) ∧
  NoDup (seqZ 0 (zlen callers)) ∧ GTG.get_ts (2 ^ 31 - 1) 0 rj = Undef.
Proof.
  intros Hnonce Hnd Hns Hlen Hops. split; [|split; [apply NoDup_seqZ|done]].
  destruct (unused_make nonce 0 (0 : Z)) as (s0 & Hmake & H0 & O0 & F0).
  destruct (unused_reg nonce s0 GET_TS (fn1 i32 i32 rj GTG.get_ts) H0) as (sv & Hreg & Hu & Ho & Hh).
  { by rewrite F0. }
  destruct (served_locally (O := unit) (Res := Z * option Z) nonce sv ns ((λ i, (i, tt)) <$> callers) ((λ k, (0, Some k)) <$> seqZ 0 (zlen callers)) (zlen callers) Hu)
    as (cs1 & sv1 & cs2 & sv2 & Hb & Hses & Hobj).
  - exists rj. by rewrite Hh, lookup_insert_eq.
  - rewrite Ho, O0, length_fmap. cbn. lia.
  - exact Hnonce.
  - exact Hnd.
  - exact Hns.
  - by rewrite length_fmap.
  - apply Forall_fmap. eapply Forall_impl; [exact Hops|]. intros i Hi. by split.
  - rewrite local_run_gtg, Ho, O0, !length_fmap. done.
  - exists sv, cs1, sv1, cs2, sv2. split; [unfold GTG.make; by rewrite Hmake, bind_Done, Hreg|]. split; [exact Hb|].
    by rewrite Hses, Hobj.
Qed.

Lemma timestamps_count_up_witness :
  (∃ sv cs1 sv1 cs2 sv2,
    GTG.make 5 77 = Done sv ∧ bind_all 0 [11; 12] ∅ sv = Done (cs1, sv1) ∧
    session cs1 sv1 ((λ i, (i, tt)) <$> [0; 1; 1; 0]%nat) = Done ((λ k, (0, Some k)) <$> seqZ 0 4, cs2, sv2) ∧
    object sv2 = 4) ∧
  NoDup (seqZ 0 4) ∧ GTG.get_ts (2 ^ 31 - 1) 0 5 = Undef.
Proof.
  refine (timestamps_count_up 5 77 [11; 12] [0; 1; 1; 0]%nat _ _ _ _ _).
  - lia.
  - by apply (bool_decide_unpack _); vm_compute.
  - repeat constructor.
  - cbn. lia.
  - repeat constructor; cbn; lia.
Defined.

(** ** Over an unreliable network *)

Definition counts (s : Z) : Prop := 0 ≤ s < 2 ^ 31.

Lemma get_ts_behaves rj : - 2 ^ 31 ≤ rj < 2 ^ 31 → behaves (λ _, true) counts (fn1 i32 i32 rj GTG.get_ts).
Proof.
  intros Hr. apply (fn_behaves _ counts i32 i32). intros s a ret r s' [H0 H1]. unfold GTG.get_ts.
  destruct (Z.eqb_spec s (2 ^ 31 - 1)); [done|]. intros [= <- <- <-] _. unfold counts. cbn. split_and!; try done; lia.
Qed.

(** A run of [get_ts], for whichever client, whose answer is the stamp [ts]. *)
Definition stamps (e : run unit) (ts : Z) : Prop :=
  e_proc e = GET_TS ∧ 0 ≤ e_ret e ∧ wf i32 ts ∧ put i32 ts mar_new = Done (e_out e).

Section timestamps.
Context (rj nonce : Z) (hs : gmap Z (handler Z)).
Abbreviation replays := (replays (λ _ : unit, hs) (λ _, true)).
Context (Hhs : hs = <[GET_TS := fn1 i32 i32 rj GTG.get_ts]> {[bind_proc := bind_handler nonce]}).

(** The counter only goes up. *)
Lemma run_counts (e : run unit) f (s s' : Z) :
  hs !! e_proc e = Some f → f s (e_in e) mar_new = Done (e_ret e, e_out e, s') → s ≤ s'.
Proof.
  rewrite Hhs. intros [[_ <-]|[_ [_ <-]%lookup_singleton_Some]]%lookup_insert_Some.
  - unfold fn1, fn. intros [[a u] [_ E]]%bind_Done_inv. destruct (negb _); [by injection E as _ _ <-|].
    apply bind_Done_inv in E as [[[b r] s1] [E1 E]]. apply bind_Done_inv in E as [m [_ [= _ _ <-]]].
    unfold GTG.get_ts in E1. destruct (s =? _); [done|]. injection E1 as _ _ <-. lia.
  - unfold bind_handler, fn1, fn. intros [[a u] [_ E]]%bind_Done_inv. destruct (negb _); [by injection E as _ _ <-|].
    rewrite bind_Done in E. apply bind_Done_inv in E as [m [_ [= _ _ <-]]]. lia.
Qed.

Lemma replays_counts l : ∀ s s' : Z, replays s l s' → s ≤ s'.
Proof.
  induction l as [|e l IH]; intros s s'; cbn [replays]; [lia|]. intros (f & s1 & Hf & E & _ & R).
  pose proof (run_counts e f s s1 Hf E). pose proof (IH _ _ R). lia.
Qed.

(** A run of [get_ts] answers the counter before it, and the counter is larger
    after it. *)
Lemma stamps_ran (e : run unit) f (s s' : Z) ts :
  hs !! e_proc e = Some f → f s (e_in e) mar_new = Done (e_ret e, e_out e, s') → stamps e ts → counts s → ts = s ∧ s' = s + 1.
Proof.
  intros Hf E (Hp & Hr & Hw & Hput) [H0 H1]. rewrite Hp, Hhs, lookup_insert_eq in Hf. injection Hf as <-.
  destruct (fn_ran i32 i32 rj GTG.get_ts s _ _ _ _ E Hr) as (a & u & r & _ & _ & Hm & Hput' & _).
  unfold GTG.get_ts in Hm. destruct (s =? _); [done|]. injection Hm as _ <- <-.
  split; [|done]. apply (put_inj i32 _ _ _ Hput Hput'); cbn in *; lia || done.
Qed.

(** What a caller reads is what was answered. *)
Lemma stamps_read (e : run unit) f (s s' : Z) v st ts :
  hs !! e_proc e = Some f → e_proc e = GET_TS → f s (e_in e) mar_new = Done (e_ret e, e_out e, s') → 0 ≤ e_ret e →
  counts s → holds v (e_out e) → rpcc.call_m i32 (e_ret e) v = Done (st, Some ts) → stamps e ts.
Proof.
  intros Hf Hp E Hr [H0 H1] Hv Hc. split; [done|]. split; [done|]. rewrite Hp, Hhs, lookup_insert_eq in Hf. injection Hf as <-.
  destruct (fn_ran i32 i32 rj GTG.get_ts s _ _ _ _ E Hr) as (a & u & r & _ & _ & Hm & Hput & Hread).
  unfold GTG.get_ts in Hm. destruct (s =? _); [done|]. injection Hm as _ <- <-.
  rewrite Hread in Hc; [injection Hc as _ <-; split; [cbn; lia|done]|cbn; lia|cbn; lia|done].
Qed.

(** Two runs of [get_ts], the one after the other. *)
Lemma stamps_increase l s0 s1 i j e e' ts ts' :
  replays s0 l s1 → 0 ≤ s0 → s1 < 2 ^ 31 → (i < j)%nat → l !! i = Some e → l !! j = Some e' →
  stamps e ts → stamps e' ts' → ts < ts'.
Proof.
  intros R H0 H1 Hij Hi Hj He He'.
  destruct (replays_at _ _ l _ _ i e R Hi) as (f & a & b & R1 & Hf & E & _ & R2).
  assert (Hj' : drop (S i) l !! (j - S i)%nat = Some e') by (rewrite lookup_drop; rewrite <- Hj; f_equal; lia).
  destruct (replays_at _ _ _ _ _ _ e' R2 Hj') as (f' & a' & b' & R3 & Hf' & E' & _ & R4).
  pose proof (run_counts e f _ _ Hf E). pose proof (run_counts e' f' _ _ Hf' E').
  apply replays_counts in R1, R2, R3, R4.
  destruct (stamps_ran e f a b ts Hf E He) as [-> ->]; [split; lia|].
  destruct (stamps_ran e' f' a' b' ts' Hf' E' He') as [-> ->]; [split; lia|]. lia.
Qed.

End timestamps.

(** A call of [get_ts] that returned the stamp [ts]. *)
Definition stamped (s : net Z unit) (k : call) (q : return_) (ts : Z) : Prop :=
  k ∈ n_calls s ∧ k_proc k = GET_TS ∧ q ∈ n_returns s ∧ q_id q = k_id k ∧
  rpcc.call_m i32 (q_ret q) (q_out q) = Done (0, Some ts).

(** It ran [get_ts] at a moment between its beginning and its return. *)
Lemma stamped_run rj nonce hs (Hhs : hs = <[GET_TS := fn1 i32 i32 rj GTG.get_ts]> {[bind_proc := bind_handler nonce]}) n sv s k q ts :
  ninv (λ _ : unit, hs) (λ _, true) counts n sv s → 0 ≤ object sv → stamped s k q ts →
  ∃ i e, n_log s !! i = Some e ∧ (k_since k ≤ i < q_until q)%nat ∧ e_clt e = n ∧ e_id e = k_id k ∧ stamps e ts.
Proof.
  intros R H0 (Hk & Hp & Hq & Hid & Hc).
  assert (Hr : 0 ≤ q_ret q).
  { unfold rpcc.call_m in Hc. destruct (Z.ltb_spec (q_ret q) 0); [by injection Hc|done]. }
  destruct (returned_run _ _ _ _ _ s q R Hq Hr) as (k1 & i & e & Hk1 & Hid1 & Hi & He & Hcl & Hei & Hep & _ & Her & Ho).
  assert (k1 = k) as -> by (apply (wi_one _ _ _ _ _ _ (ni_wired _ _ _ _ _ _ R)); [done|done|congruence]).
  exists i, e. split_and!; [done|lia|lia|done|congruence|].
  pose proof (ni_obj _ _ _ _ _ _ R) as [_ Hmax].
  destruct (replays_at _ _ _ _ _ i e (ni_replays _ _ _ _ _ _ R) He) as (f & a & b & R1 & Hf & E & _ & R2).
  pose proof (run_counts rj nonce hs Hhs e f a b Hf E). apply (replays_counts rj nonce hs Hhs) in R1, R2.
  apply (stamps_read rj nonce hs Hhs e f a b (q_out q) 0 ts); try done; [congruence|by rewrite Her|split; lia|by rewrite Her].
Qed.

(** C32: Timestamps are unique and ordered, over any network and for all clients.
    However requests and replies are lost, repeated and reordered, and whoever asks:
    of any two answers of the generator, to whichever clients, the later one carries
    the larger stamp; a request of a client that has a number is answered by one run
    at most; and a call of [get_ts] that returns a stamp returns the answer that was
    made for it, at a moment between its beginning and its return.  So all stamps
    answered before a call began are smaller, and all stamps answered after it
    returned, to anyone, are larger. *)
Theorem timestamps_unique_and_ordered rj nonce n lossy sv s :
  - 2 ^ 31 ≤ rj < 2 ^ 31 → - 2 ^ 31 ≤ nonce < 2 ^ 31 → 0 < n < 2 ^ 32 → GTG.make rj nonce = Done sv →
  nreach (λ _, handlers sv) (λ _, true) (ninit n lossy sv) s →
  (∀ i j e e' ts ts', n_log s !! i = Some e → n_log s !! j = Some e' → stamps e ts → stamps e' ts' → (i < j)%nat → ts < ts') ∧
  (∀ i j e e', n_log s !! i = Some e → n_log s !! j = Some e' → e_clt e ≠ 0 → e_clt e = e_clt e' → e_id e = e_id e' → i = j) ∧
  (∀ k q ts, stamped s k q ts →
     (∃ i e, n_log s !! i = Some e ∧ (k_since k ≤ i < q_until q)%nat ∧ e_clt e = n ∧ e_id e = k_id k ∧ stamps e ts) ∧
     ∀ j e' ts', n_log s !! j = Some e' → stamps e' ts' →
       ((j < k_since k)%nat → ts' < ts) ∧ ((q_until q ≤ j)%nat → ts < ts') ∧ (ts' = ts → e_clt e' = n ∧ e_id e' = k_id k)).
Proof.
  intros Hrj Hno Hn Hsv R.
  destruct (one_method nonce 0 GET_TS (fn1 i32 i32 rj GTG.get_ts) 0 ltac:(done)) as (sv' & Hsv' & Hu & Ho & Hh).
  unfold GTG.make in Hsv. rewrite Hsv in Hsv'. injection Hsv' as <-.
  assert (I : ninv (λ _, handlers sv) (λ _, true) counts n sv s).
  { apply (nreach_inv _ _ counts n Hn lossy sv) with (nonce := nonce); [|done|by rewrite Ho|done].
    intros _. eapply one_method_behaves; [done|done|]. by apply get_ts_behaves. }
  pose proof (ni_replays _ _ _ _ _ _ I) as Hrun. pose proof (ni_obj _ _ _ _ _ _ I) as [_ Hmax].
  assert (Hinc : ∀ i j e e' ts ts', n_log s !! i = Some e → n_log s !! j = Some e' → stamps e ts → stamps e' ts' → (i < j)%nat → ts < ts').
  { intros i j e e' ts ts' Hi Hj He He' Hij. by apply (stamps_increase rj nonce _ Hh _ _ _ i j e e' ts ts' Hrun); rewrite ?Ho. }
  split; [exact Hinc|]. split; [by apply (se_once _ _ _ _ _ _ _ _ (ni_served _ _ _ _ _ _ I))|].
  intros k q ts Hq. destruct (stamped_run rj nonce _ Hh n sv s k q ts I) as (i & e & Hi & Hki & Hcl & Hid & He); [by rewrite Ho|done|].
  split; [by exists i, e|]. intros j e' ts' Hj He'. split_and!.
  - intros Hlt. apply (Hinc j i e' e); done || lia.
  - intros Hle. apply (Hinc i j e e'); done || lia.
  - intros ->. destruct (Nat.lt_trichotomy i j) as [Hlt|[->|Hlt]].
    + pose proof (Hinc i j e e' ts ts Hi Hj He He' Hlt). lia.
    + rewrite Hi in Hj. by injection Hj as <-.
    + pose proof (Hinc j i e' e ts ts Hj Hi He' He Hlt). lia.
Qed.

(** Two threads ask; the first request is served after the second, which is
    repeated; then another client asks, and then a third call. *)
Definition other_stamp : bytes :=
  match pack_req_header (mkReq 3 GET_TS 12 77 0) (int_arg 0) with Done m => data m | _ => [] end.
Definition stamp_server : server Z :=
  match GTG.make 0 77 with Done sv => sv | _ => mkServer (rpcs.mk 77 ∅ ∅ 1 ∅ 0 0 ∅) ∅ 0 end.
Definition stamp_events : list (nevent unit) :=
  [NBegin 0 1 (int_arg 0); NTransmit 0; NArrive 0 0; NRun 0 tt; NReply 0; NSend 0; NDeliver 0; NEnd 0; NBound 0 77;
   NBegin 1 GET_TS (int_arg 0); NBegin 2 GET_TS (int_arg 0); NTransmit 1; NTransmit 2; NTransmit 2;
   NArrive 0 2; NRun 0 tt; NReply 0; NSend 0; NArrive 1 3; NSend 1; NArrive 2 1; NRun 2 tt; NReply 2; NSend 2;
   NDeliver 2; NDeliver 1; NDeliver 3; NEnd 1; NEnd 2;
   NOther 3 other_stamp; NRun 3 tt; NReply 3; NSend 3;
   NBegin 1 GET_TS (int_arg 0); NTransmit 1; NArrive 0 4; NRun 0 tt; NReply 0; NSend 0; NDeliver 4; NEnd 1].
Definition stamp_start : net Z unit := ninit 9 false stamp_server.
Definition stamp_end : net Z unit :=
  match nrun (λ _, handlers stamp_server) stamp_start stamp_events with Some (Done s) => s | _ => stamp_start end.

Lemma timestamps_unique_and_ordered_witness :
  let q := nth 1 (n_returns stamp_end) (mkReturn 0 0 unm_none 0) in
  let k := nth 1 (n_calls stamp_end) (mkCall 0 0 mar_new 0) in
  (e_clt <$> n_log stamp_end, e_proc <$> n_log stamp_end) = ([9; 9; 9; 12; 9], [1; GET_TS; GET_TS; GET_TS; GET_TS]) ∧
  stamped stamp_end k q 0 ∧
  ∃ i e, n_log stamp_end !! i = Some e ∧ (k_since k ≤ i < q_until q)%nat ∧ e_clt e = 9 ∧ e_id e = k_id k ∧ stamps e 0.
Proof.
  assert (B0 : - 2 ^ 31 ≤ 0 < 2 ^ 31) by lia. assert (B1 : - 2 ^ 31 ≤ 77 < 2 ^ 31) by lia.
  assert (B2 : 0 < 9 < 2 ^ 32) by lia. intros q k. split; [vm_compute; reflexivity|].
  assert (Hq : stamped stamp_end k q 0).
  { split_and!; [apply list_elem_of_lookup_2 with (i := 1%nat)| |apply list_elem_of_lookup_2 with (i := 1%nat)|..];
      vm_compute; reflexivity. }
  split; [exact Hq|].
  refine (proj1 (proj2 (proj2 (timestamps_unique_and_ordered 0 77 9 false stamp_server stamp_end B0 B1 B2 _ _)) k q 0 Hq)).
  - destruct (one_method 77 0 GET_TS (fn1 i32 i32 0 GTG.get_ts) 0 ltac:(done)) as (sv & Hsv & _).
    unfold stamp_server, GTG.make. by rewrite Hsv.
  - apply (nrun_reach _ _ _ stamp_start stamp_events); [constructor|vm_compute; reflexivity|].
    unfold stamp_end. by vm_compute.
Defined.
