(* ===== verification/LockRpc.v ===== *)
(** * The lock server over the wire (src/master/lock_smain.cc, src/client/lock_client.cc, lock_client_cache.cc)

    The handlers that the lock server's main registers, the calls of the caching
    client, which fit them, and those of the plain client, which do not.  The calls
    that the server itself makes to a client, from within a handler, are an
    argument: they are told the client's name and end as [callout] says. *)

From S2P Require Import Prelude StdContainers LockServer Marshall RpcServer RpcClient Connection ConnSend RpcStub.

(** [lock_protocol::rpc_numbers] *)
Definition rpc_acquire : Z := 28673.
Definition rpc_release : Z := 28674.
Definition rpc_stat : Z := 28675.

(** ** The server's side *)

Module lock_smain.

(** [lsm_]; the other member, [nacquire], is never given a value. *)
Abbreviation obj := lock_server_cache.t.

Section main.
(** What the handlers' [int r] holds before, and how calls to clients end. *)
Context (rj : Z) (env : bytes → lock_server_cache.callout).

Definition stat (s : obj) (lid r : Z) : outcome (Z * Z * obj) := Undef.
Definition acquire (s : obj) (lid : Z) (id : bytes) (r : Z) : outcome (Z * Z * obj) :=
  Done (lock_server_cache.acquire env s lid id).
Definition release (s : obj) (lid : Z) (id : bytes) (r : Z) : outcome (Z * Z * obj) :=
  Done (lock_server_cache.release env s lid id).

Definition main (nonce count : Z) : outcome (server obj) :=
  sv ← server_make nonce count (∅ : obj);
  sv ← reg rpc_stat (fn1 u64 i32 rj stat) sv;
  sv ← reg rpc_acquire (fn2 u64 str i32 rj acquire) sv;
  reg rpc_release (fn2 u64 str i32 rj release) sv.

End main.
End lock_smain.
Import lock_smain.

(** ** The callers *)

(** The calls of [lock_client_cache]: the status, and the reply's value. *)
Module lock_client_cache_rpc.
Section stubs.
Context (cl : rpcc.t) (sv : server obj).

Definition acquire (lid : Z) (id : bytes) := call_2 u64 str i32 cl sv rpc_acquire lid id.
Definition release (lid : Z) (id : bytes) := call_2 u64 str i32 cl sv rpc_release lid id.

End stubs.
End lock_client_cache_rpc.

(** The calls of [lock_client]: it sends its own number before the lock id.  The
    [int] that a call leaves alone is returned as it was, here [rj]. *)
Module lock_client.
Section stubs.
Context (rj : Z) (cl : rpcc.t) (sv : server obj).

Definition acquire (lid : Z) : outcome (Z * rpcc.t * server obj) :=
  '(ret, _, cl, sv) ← call_2 u32 u64 i32 cl sv rpc_acquire (rpcc.clt_nonce_ cl) lid; Done (ret, cl, sv).
Definition release (lid : Z) : outcome (Z * rpcc.t * server obj) :=
  '(ret, _, cl, sv) ← call_2 u32 u64 i32 cl sv rpc_release (rpcc.clt_nonce_ cl) lid; Done (ret, cl, sv).
Definition stat (lid : Z) : outcome (Z * rpcc.t * server obj) :=
  '(ret, r, cl, sv) ← call_2 u32 u64 i32 cl sv rpc_stat (rpcc.clt_nonce_ cl) lid;
  _ ← ensure (ret =? lock_OK); Done (default rj r, cl, sv).

End stubs.
End lock_client.

(** ** The caching client's calls are the server's steps *)

Inductive lop : Type := LAcquire (lid : Z) (id : bytes) | LRelease (lid : Z) (id : bytes).

Definition lock_remote (o : lop) (cl : rpcc.t) (sv : server obj) : outcome (Z * option Z * rpcc.t * server obj) :=
  match o with
  | LAcquire lid id => lock_client_cache_rpc.acquire cl sv lid id
  | LRelease lid id => lock_client_cache_rpc.release cl sv lid id
  end.

Definition lock_step (env : bytes → lock_server_cache.callout) (o : lop) (s : obj) : Z * Z * obj :=
  match o with
  | LAcquire lid id => lock_server_cache.acquire env s lid id
  | LRelease lid id => lock_server_cache.release env s lid id
  end.

Definition wire_lop (o : lop) : Prop :=
  match o with LAcquire lid id | LRelease lid id => 0 ≤ lid < 2 ^ 64 ∧ zlen id < 2 ^ 28 end.

Lemma acquire_answer env s lid id :
  0 ≤ (lock_server_cache.acquire env s lid id).1.1 < 2 ^ 31 ∧ wf i32 (lock_server_cache.acquire env s lid id).1.2.
Proof.
  unfold lock_server_cache.acquire. destruct (lock_server_cache.acquire_section s lid id) as [[r rv] s'] eqn:E. cbn [fst snd]. split.
  - unfold lock_server_cache.acquire_status. destruct rv; [|done]. destruct (env _) as [|ret]; [done|].
    destruct (Z.eqb_spec ret rlock_OK) as [->|]; done.
  - revert E. unfold lock_server_cache.acquire_section. repeat case_match; intros [= <- <- <-]; done.
Qed.

Lemma release_answer env s lid id :
  0 ≤ (lock_server_cache.release env s lid id).1.1 < 2 ^ 31 ∧ wf i32 (lock_server_cache.release env s lid id).1.2.
Proof.
  unfold lock_server_cache.release. destruct (lock_server_cache.release_section s lid id) as [nx s']. cbn [fst snd]. split; [|done].
  unfold lock_server_cache.release_status. destruct nx; [|done]. destruct (env _) as [|ret]; [done|].
  by destruct (Z.eqb_spec ret rlock_OK) as [->|].
Qed.

Section wire.
Context (env : bytes → lock_server_cache.callout).

Definition grants (hs : gmap Z (handler obj)) : Prop :=
  ∃ rj, hs !! rpc_stat = Some (fn1 u64 i32 rj stat) ∧
    hs !! rpc_acquire = Some (fn2 u64 str i32 rj (acquire env)) ∧
    hs !! rpc_release = Some (fn2 u64 str i32 rj (release env)).

Instance lock_stub : Stub lop (Z * option Z) obj := {
  remote o cl sv := '(st, r, cl, sv) ← lock_remote o cl sv; Done (st, r, cl, sv);
  local o s := let '(st, r, s) := lock_step env o s in Done ((st, Some r), s);
  callable := wire_lop;
  proper _ _ := True;
  offered := grants;
}.

Instance lock_stub_laws : StubLaws lop (Z * option Z) obj.
Proof.
  split; [|done].
  intros n o ex cl sv r m' Hy (rj & _ & Hacq & Hrel) _ Ho Hl Hb Hx. cbn [remote callable local lock_stub] in *.
  destruct (lock_step env o (object sv)) as [[st r1] s1] eqn:E. injection Hl as <- <-.
  destruct o as [lid id|lid id]; cbn [lock_remote lock_step wire_lop] in *; destruct Ho as [Hlid Hid].
  - pose proof (acquire_answer env (object sv) lid id) as [Hst Hr]. rewrite E in Hst, Hr. cbn [fst snd] in Hst, Hr.
    destruct (call_ok (pair_ u64 str) i32 rj (λ s '(a1, a2), acquire env s a1 a2) ex cl sv rpc_acquire (lid, id) st r1 s1)
      as (cl' & sv' & Hc & Hrest);
      [exact Hy|exact Hx|by rewrite Hb|done|exact Hacq|unfold acquire; by rewrite E|cbn; lia| |exact Hr|done|exact Hst|].
    { cbn [enc pair_laws u64_laws str_laws fst snd]. rewrite !length_app, !Nat2Z.inj_add, !length_be32. lia. }
    exists cl', sv'. unfold lock_client_cache_rpc.acquire, call_2. rewrite Hc, bind_Done. by split.
  - pose proof (release_answer env (object sv) lid id) as [Hst Hr]. rewrite E in Hst, Hr. cbn [fst snd] in Hst, Hr.
    destruct (call_ok (pair_ u64 str) i32 rj (λ s '(a1, a2), release env s a1 a2) ex cl sv rpc_release (lid, id) st r1 s1)
      as (cl' & sv' & Hc & Hrest);
      [exact Hy|exact Hx|by rewrite Hb|done|exact Hrel|unfold release; by rewrite E|cbn; lia| |exact Hr|done|exact Hst|].
    { cbn [enc pair_laws u64_laws str_laws fst snd]. rewrite !length_app, !Nat2Z.inj_add, !length_be32. lia. }
    exists cl', sv'. unfold lock_client_cache_rpc.release, call_2. rewrite Hc, bind_Done. by split.
Qed.

(** What a sequence of calls does to the table, and the answers. *)
Fixpoint lock_run (ops : list lop) (s : obj) : list (Z * option Z) * obj :=
  match ops with
  | [] => ([], s)
  | o :: ops => let '(st, r, s) := lock_step env o s in let '(rs, s) := lock_run ops s in ((st, Some r) :: rs, s)
  end.

Lemma local_run_lock ops : ∀ s, local_run s ops = Done (lock_run ops s).
Proof.
  induction ops as [|o ops IH]; intros s; [done|]. cbn [local_run local lock_stub lock_run].
  destruct (lock_step env o s) as [[st r] s1]. rewrite bind_Done. cbv beta iota. rewrite IH, bind_Done. by destruct (lock_run ops s1).
Qed.

(** What [main] has registered. *)
Definition lock_registered (rj nonce : Z) : gmap Z (handler obj) :=
  <[rpc_release := fn2 u64 str i32 rj (release env)]> (<[rpc_acquire := fn2 u64 str i32 rj (acquire env)]>
    (<[rpc_stat := fn1 u64 i32 rj stat]> {[bind_proc := bind_handler nonce]})).

Lemma lock_main_registers rj nonce count :
  ∃ sv, main rj env nonce count = Done sv ∧ unused nonce sv ∧ object sv = ∅ ∧ handlers sv = lock_registered rj nonce.
Proof.
  unfold main.
  destruct (unused_make nonce count (∅ : obj)) as (s0 & -> & H0 & O0 & F0). rewrite bind_Done.
  do 3 reg_next.
  eexists. split; [done|]. by split_and!.
Qed.

Lemma main_grants rj nonce count :
  ∃ sv, main rj env nonce count = Done sv ∧ unused nonce sv ∧ object sv = ∅ ∧ grants (handlers sv).
Proof.
  destruct (lock_main_registers rj nonce count) as (sv & Hm & Hu & Ho & Hh). exists sv. split_and!; [done..|].
  exists rj. rewrite Hh. unfold lock_registered. repeat split; by vm_compute.
Qed.

(** A whole session with a new server; its clients can go on to make [k] calls. *)
Lemma lock_session rj nonce count ns ops k :
  0 ≤ nonce < 2 ^ 31 → NoDup ns → Forall (λ n, 0 < n < 2 ^ 32) ns → 0 ≤ k → k + zlen ops < 2 ^ 31 - 2 →
  Forall (λ p, (p.1 < length ns)%nat ∧ wire_lop p.2) ops →
  ∃ sv cs1 sv1 cs2 sv2 ex, main rj env nonce count = Done sv ∧ bind_all 0 ns ∅ sv = Done (cs1, sv1) ∧
    session (O := lop) (Res := Z * option Z) cs1 sv1 ops = Done ((lock_run ops.*2 ∅).1, cs2, sv2) ∧
    object sv2 = (lock_run ops.*2 ∅).2 ∧ joined k ex cs2 sv2 ∧ grants (handlers sv2).
Proof.
  intros Hnonce Hnd Hns Hk Hlen Hops. destruct (main_grants rj nonce count) as (sv & Hm & Hu & Ho & Hg).
  destruct (served_further (O := lop) (Res := Z * option Z) k nonce sv ns ops (lock_run ops.*2 ∅).1 (lock_run ops.*2 ∅).2)
    as (cs1 & sv1 & cs2 & sv2 & ex & Hb & Hs & Hobj & J & Hh);
    [exact Hu|exact Hg|exact I|exact Hnonce|exact Hnd|exact Hns|exact Hk|exact Hlen|exact Hops| |].
  - rewrite Ho, local_run_lock. by destruct (lock_run _ _).
  - exists sv, cs1, sv1, cs2, sv2, ex. split_and!; [done|done|exact Hs|done|done|by rewrite Hh].
Qed.

End wire.

(** ** The plain client's calls do not fit *)

(** The lock that the server takes such a message to be about. *)
Definition mistaken (n lid : Z) : Z := n * 2 ^ 32 + lid / 2 ^ 32.

Section misfit.
Context (n lid : Z) (Hn : 0 < n < 2 ^ 32) (Hlid : 0 ≤ lid < 2 ^ 64).

Lemma high_range : 0 ≤ lid / 2 ^ 32 < 2 ^ 32.
Proof. Z.to_euclidean_division_equations. lia. Qed.

Lemma mistaken_range : 0 ≤ mistaken n lid < 2 ^ 64.
Proof. pose proof high_range. unfold mistaken. lia. Qed.

Lemma mistaken_words : mistaken n lid / 2 ^ 32 = n ∧ wrap32 (mistaken n lid) = lid / 2 ^ 32.
Proof.
  pose proof high_range. unfold mistaken, wrap. split.
  - rewrite Z.div_add_l, (Z.div_small (lid / 2 ^ 32)) by lia. lia.
  - rewrite Z.add_comm, Z.mod_add, Z.mod_small by lia. done.
Qed.

Lemma misfit_bytes : enc (pair_ u32 u64) (n, lid) = enc u64 (mistaken n lid) ++ be32_bytes (wrap32 lid).
Proof. cbn [enc pair_laws u32_laws u64_laws fst snd]. destruct mistaken_words as [-> ->]. by rewrite <- app_assoc. Qed.

Lemma misfit_wf : wf (pair_ u32 u64) (n, lid) ∧ zlen (enc (pair_ u32 u64) (n, lid)) < 2 ^ 29.
Proof. split; [cbn; lia|done]. Qed.

(** What is left for the string is its length: the low half of the lock id. *)
Lemma misfit_get hd : length hd = 24%nat →
  let b := hd ++ enc (pair_ u32 u64) (n, lid) in
  zlen b = 36 ∧
  get (pair_ u64 str) (mkUnm b RPC_HEADER_SZ true) =
    ('(y, u) ← unm_rawbytes (mkUnm b 36 true) [] (wrap32 lid); Done ((mistaken n lid, y), u)).
Proof.
  intros Hhd b. assert (Hb : zlen b = 36) by (unfold b; rewrite length_app, Hhd; done). split; [done|].
  cbn [get pair_]. unfold b at 1. rewrite misfit_bytes. replace RPC_HEADER_SZ with (zlen hd) by (rewrite Hhd; done).
  rewrite get_law, bind_Done; [|exact mistaken_range|rewrite <- misfit_bytes; fold b; lia].
  cbv beta iota. rewrite <- misfit_bytes. fold b. cbn [get str get_str].
  replace b with ((hd ++ enc u64 (mistaken n lid)) ++ enc u32 (wrap32 lid) ++ [])
    by (unfold b; rewrite misfit_bytes, app_nil_r, <- app_assoc; done).
  replace (zlen hd + zlen (enc u64 (mistaken n lid))) with (zlen (hd ++ enc u64 (mistaken n lid)))
    by (rewrite length_app; lia).
  rewrite get_law, bind_Done; [|apply wrap_range; lia|].
  - cbv beta iota. cbn [u_ok]. do 3 f_equal. rewrite length_app, Hhd. done.
  - rewrite app_nil_r, <- app_assoc. change (enc u32 (wrap32 lid)) with (be32_bytes (wrap32 lid)). rewrite <- misfit_bytes. fold b. lia.
Qed.

(** An empty string: the message is one that fits. *)
Lemma misfit_put : wrap32 lid = 0 → put (pair_ u32 u64) (n, lid) mar_new = put (pair_ u64 str) (mistaken n lid, []) mar_new.
Proof.
  intros Hlo. pose proof high_range. destruct mistaken_words as [Hhi Hlow].
  destruct (put_law (c := pair_ u32 u64) (n, lid) mar_new) as (c1 & H1 & [Hok _]); [apply misfit_wf|by split|done|].
  rewrite H1. cbn [put pair_ u64 u32 str fst snd] in *. rewrite !Z.shiftr_div_pow2, Hhi, Hlow in * by lia.
  rewrite Hlo in *. change (wrap32 (zlen [])) with 0.
  destruct (put_be32 n mar_new) as [m2| | |]; [|done..]. rewrite !bind_Done in *.
  destruct (put_be32 _ m2) as [m3| | |]; [|done..]. rewrite !bind_Done in *. rewrite H1, bind_Done.
  unfold mar_rawbytes. cbn [data capa length Z.of_nat] in *. rewrite Z.add_0_r. repeat test_false. rewrite bind_Done.
  repeat test_false. by rewrite app_nil_r.
Qed.

End misfit.

(** ** Sessions *)

Section sessions.
Context (env : bytes → lock_server_cache.callout).

(** The plain client after any session. *)
Lemma misfit_call rj k ex cs sv i cl lid p meth :
  joined k ex cs sv → 1 ≤ k → cs !! i = Some cl → 0 ≤ lid < 2 ^ 64 →
  - 2 ^ 31 ≤ p < 2 ^ 31 → p ≠ bind_proc → handlers sv !! p = Some (fn2 u64 str i32 rj meth : handler obj) →
  (0 < wrap32 lid < 2 ^ 32 - 36 → call_2 u32 u64 i32 cl sv p (rpcc.clt_nonce_ cl) lid = Throws) ∧
  (2 ^ 32 - 36 ≤ wrap32 lid → call_2 u32 u64 i32 cl sv p (rpcc.clt_nonce_ cl) lid = Undef) ∧
  (wrap32 lid = 0 → ∀ st r s, meth (object sv) (mistaken (rpcc.clt_nonce_ cl) lid) [] rj = Done (st, r, s) →
     0 ≤ st < 2 ^ 31 → wf i32 r → ∃ cl' sv', call_2 u32 u64 i32 cl sv p (rpcc.clt_nonce_ cl) lid = Done (st, Some r, cl', sv') ∧ object sv' = s).
Proof.
  intros J Hk Hi Hlid Hp Hpb Hh. destruct (j_sync _ _ _ _ J i cl Hi) as (Hy & Hb & Hx).
  pose proof (y_nonce _ _ _ Hy) as Hn. pose proof (wrap_range 32 lid ltac:(lia)) as Hw.
  assert (Hbp : (p =? bind_proc) = negb (rpcc.bind_done_ cl)) by (rewrite Hb; by apply Z.eqb_neq).
  destruct (misfit_wf _ lid Hn Hlid) as [Hwf Hsz]. unfold call_2.
  destruct (call_stops (pair_ u32 u64) i32 _ ex cl sv p (rpcc.clt_nonce_ cl, lid) Hy ltac:(lia) Hbp Hp Hh Hwf Hsz) as [Hstop Hundef].
  split; [|split].
  - intros Hlo. apply Hstop. intros hd Hhd. destruct (misfit_get _ lid Hn Hlid hd Hhd) as [Hlen Hget].
    unfold fn2, fn. rewrite Hget. unfold unm_rawbytes. cbn [u_buf u_ind u_ok]. rewrite Hlen, (wrap_small 32) by lia.
    test_true. rewrite !bind_Done. cbv beta iota. cbn. right. by eexists _, _, _.
  - intros Hlo. apply Hundef. intros hd Hhd. destruct (misfit_get _ lid Hn Hlid hd Hhd) as [Hlen Hget].
    unfold fn2, fn. rewrite Hget. unfold unm_rawbytes. cbn [u_buf u_ind u_ok]. rewrite Hlen.
    replace (wrap32 (36 + wrap32 lid)) with (36 + wrap32 lid - 2 ^ 32)
      by (unfold wrap; apply (Z.mod_unique _ _ 1); unfold wrap in *; lia).
    test_false. test_true. done.
  - intros Hlo st r s Hm Hst Hr.
    destruct (call_ok (pair_ u64 str) i32 rj (λ s '(a1, a2), meth s a1 a2) ex cl sv p (mistaken (rpcc.clt_nonce_ cl) lid, []) st r s)
      as (cl' & sv' & Hc & _ & Ho & _);
      [exact Hy|lia|exact Hbp|exact Hp|exact Hh|exact Hm|split; [by apply mistaken_range|done]|done|exact Hr|done|exact Hst|].
    exists cl', sv'. split; [|done]. revert Hc. unfold call. by rewrite (misfit_put _ lid Hn Hlid Hlo).
Qed.

(** [stat] reads the number where it expects the lock id, and stops the server
    over the rest of the message. *)
Lemma misfit_stat rj k ex cs sv i cl lid meth :
  joined k ex cs sv → 1 ≤ k → cs !! i = Some cl → 0 ≤ lid < 2 ^ 64 →
  handlers sv !! rpc_stat = Some (fn1 u64 i32 rj meth : handler obj) →
  call_2 u32 u64 i32 cl sv rpc_stat (rpcc.clt_nonce_ cl) lid = Throws.
Proof.
  intros J Hk Hi Hlid Hh. destruct (j_sync _ _ _ _ J i cl Hi) as (Hy & Hb & Hx).
  pose proof (y_nonce _ _ _ Hy) as Hn. destruct (misfit_wf _ lid Hn Hlid) as [Hwf Hsz]. unfold call_2.
  apply (call_stops (pair_ u32 u64) i32 _ ex cl sv rpc_stat (rpcc.clt_nonce_ cl, lid) Hy ltac:(lia) ltac:(by rewrite Hb) ltac:(done) Hh Hwf Hsz).
  intros hd Hhd. unfold fn1, fn. rewrite misfit_bytes by done. replace RPC_HEADER_SZ with (zlen hd) by (rewrite Hhd; done).
  rewrite get_law, bind_Done; [|by apply mistaken_range|rewrite !length_app, Hhd; done]. cbv beta iota.
  right. exists unmarshal_args_failure, mar_new, (object sv). split; [|done].
  unfold okdone. cbn [u_ok u_ind u_buf andb]. rewrite !length_app, Hhd. done.
Qed.

(** Clients that bind to a new lock server and then acquire and release locks
    in any order, over connections that lose nothing, get the statuses and results of
    the server's handlers, one after the other, whatever becomes of the calls these
    make in turn; and every lock ends as the handlers leave it. *)
Theorem lock_calls_are_server_steps rj nonce count ns ops :
  0 ≤ nonce < 2 ^ 31 → NoDup ns → Forall (λ n, 0 < n < 2 ^ 32) ns → zlen ops < 2 ^ 31 - 2 →
  Forall (λ p, (p.1 < length ns)%nat ∧ wire_lop p.2) ops →
  ∃ sv cs1 sv1 cs2 sv2, main rj env nonce count = Done sv ∧ bind_all 0 ns ∅ sv = Done (cs1, sv1) ∧
    session (H := lock_stub env) cs1 sv1 ops = Done ((lock_run env ops.*2 ∅).1, cs2, sv2) ∧
    object sv2 = (lock_run env ops.*2 ∅).2.
Proof.
  intros Hnonce Hnd Hns Hlen Hops.
  destruct (lock_session env rj nonce count ns ops 0) as (sv & cs1 & sv1 & cs2 & sv2 & _ & H1 & H2 & H3 & H4 & _); try done.
  by exists sv, cs1, sv1, cs2, sv2.
Qed.

(** C29: After any such session, a call of the plain client is never the call it
    means to be: [stat] stops the server; an acquire or release stops it unless the
    low half of the lock id is zero or within 36 of its end, in the one case makes
    it read beyond the message, and in the other it acquires or releases, for the
    client with the empty name, a lock whose id begins with the caller's number. *)
Theorem plain_client_misfits rj nonce count ns ops :
  0 ≤ nonce < 2 ^ 31 → NoDup ns → Forall (λ n, 0 < n < 2 ^ 32) ns → zlen ops < 2 ^ 31 - 3 →
  Forall (λ p, (p.1 < length ns)%nat ∧ wire_lop p.2) ops →
  ∃ sv cs1 sv1 cs2 sv2, main rj env nonce count = Done sv ∧ bind_all 0 ns ∅ sv = Done (cs1, sv1) ∧
    session (H := lock_stub env) cs1 sv1 ops = Done ((lock_run env ops.*2 ∅).1, cs2, sv2) ∧
    ∀ i cl lid, cs2 !! i = Some cl → 0 ≤ lid < 2 ^ 64 →
      let lid' := mistaken (rpcc.clt_nonce_ cl) lid in
      lock_client.stat rj cl sv2 lid = Throws ∧
      (0 < wrap32 lid < 2 ^ 32 - 36 → lock_client.acquire cl sv2 lid = Throws ∧ lock_client.release cl sv2 lid = Throws) ∧
      (2 ^ 32 - 36 ≤ wrap32 lid → lock_client.acquire cl sv2 lid = Undef ∧ lock_client.release cl sv2 lid = Undef) ∧
      (wrap32 lid = 0 → lid' ≠ lid ∧
        (∃ cl' sv', lock_client.acquire cl sv2 lid = Done ((lock_server_cache.acquire env (object sv2) lid' []).1.1, cl', sv') ∧
           object sv' = (lock_server_cache.acquire env (object sv2) lid' []).2) ∧
        (∃ cl' sv', lock_client.release cl sv2 lid = Done ((lock_server_cache.release env (object sv2) lid' []).1.1, cl', sv') ∧
           object sv' = (lock_server_cache.release env (object sv2) lid' []).2)).
Proof.
  intros Hnonce Hnd Hns Hlen Hops.
  destruct (lock_session env rj nonce count ns ops 1) as (sv & cs1 & sv1 & cs2 & sv2 & ex & H1 & H2 & H3 & _ & J & (rj' & Gs & Ga & Gr));
    [done|done|done|done|lia|done|].
  exists sv, cs1, sv1, cs2, sv2. split; [done|]. split; [done|]. split; [done|]. intros i cl lid Hi Hlid lid'.
  destruct (misfit_call rj' 1 ex cs2 sv2 i cl lid rpc_acquire (acquire env) J ltac:(lia) Hi Hlid ltac:(done) ltac:(done) Ga) as (A1 & A2 & A3).
  destruct (misfit_call rj' 1 ex cs2 sv2 i cl lid rpc_release (release env) J ltac:(lia) Hi Hlid ltac:(done) ltac:(done) Gr) as (R1 & R2 & R3).
  unfold lock_client.stat, lock_client.acquire, lock_client.release. fold lid' in A3, R3.
  split; [by rewrite (misfit_stat rj' 1 ex cs2 sv2 i cl lid stat)|].
  split; [intros Hlo; by rewrite (A1 Hlo), (R1 Hlo)|]. split; [intros Hlo; by rewrite (A2 Hlo), (R2 Hlo)|].
  intros Hlo. split; [|split].
  - destruct (j_sync _ _ _ _ J i cl Hi) as (Hy & _ & _). pose proof (y_nonce _ _ _ Hy).
    unfold lid', mistaken, wrap in *. pose proof (Z.div_mod lid (2 ^ 32)). lia.
  - destruct (acquire_answer env (object sv2) lid' []) as [Hst Hr]. destruct (lock_server_cache.acquire env (object sv2) lid' []) as [[st r] s] eqn:E.
    destruct (A3 Hlo st r s) as (cl' & sv' & -> & Ho); [unfold acquire; by rewrite E|exact Hst|exact Hr|]. by exists cl', sv'.
  - destruct (release_answer env (object sv2) lid' []) as [Hst Hr]. destruct (lock_server_cache.release env (object sv2) lid' []) as [[st r] s] eqn:E.
    destruct (R3 Hlo st r s) as (cl' & sv' & -> & Ho); [unfold release; by rewrite E|exact Hst|exact Hr|]. by exists cl', sv'.
Qed.

End sessions.

(** Two clients: one gets the lock, the other is told to retry and the first is
    called back, which fails; then the first releases. *)
Definition lock_ops : list (nat * lop) :=
  [(0%nat, LAcquire 7 (bs "a:1")); (1%nat, LAcquire 7 (bs "b:2")); (0%nat, LRelease 7 (bs "a:1"))].

Definition deaf (id : bytes) : lock_server_cache.callout :=
  if bool_decide (id = bs "a:1") then lock_server_cache.NoClient else lock_server_cache.Answer rlock_OK.

Lemma lock_calls_are_server_steps_witness :
  ∃ sv cs1 sv1 cs2 sv2, main (-5) deaf 77 0 = Done sv ∧ bind_all 0 [11; 12] ∅ sv = Done (cs1, sv1) ∧
    session (H := lock_stub deaf) cs1 sv1 lock_ops =
      Done ([(lock_OK, Some lock_OK); (lock_IOERR, Some lock_RETRY); (lock_OK, Some rlock_OK)], cs2, sv2) ∧
    object sv2 = {[7 := mkServ (bs "b:2") true []]}.
Proof.
  destruct (lock_calls_are_server_steps deaf (-5) 77 0 [11; 12] lock_ops) as (sv & cs1 & sv1 & cs2 & sv2 & H1 & H2 & H3 & H4).
  - lia.
  - by apply (bool_decide_unpack _); vm_compute.
  - repeat constructor.
  - cbn. lia.
  - repeat constructor; cbn; lia.
  - exists sv, cs1, sv1, cs2, sv2. split; [exact H1|]. split; [exact H2|]. split; [exact H3|]. rewrite H4. by vm_compute.
Defined.

Lemma plain_client_misfits_witness :
  ∃ sv cs1 sv1 cs2 sv2, main (-5) deaf 77 0 = Done sv ∧ bind_all 0 [11; 12] ∅ sv = Done (cs1, sv1) ∧
    session (H := lock_stub deaf) cs1 sv1 lock_ops =
      Done ([(lock_OK, Some lock_OK); (lock_IOERR, Some lock_RETRY); (lock_OK, Some rlock_OK)], cs2, sv2) ∧
    ∀ i cl, cs2 !! i = Some cl → lock_client.acquire cl sv2 (2 ^ 31 + 5) = Throws.
Proof.
  destruct (plain_client_misfits deaf (-5) 77 0 [11; 12] lock_ops) as (sv & cs1 & sv1 & cs2 & sv2 & H1 & H2 & H3 & H4).
  - lia.
  - by apply (bool_decide_unpack _); vm_compute.
  - repeat constructor.
  - cbn. lia.
  - repeat constructor; cbn; lia.
  - exists sv, cs1, sv1, cs2, sv2. split; [exact H1|]. split; [exact H2|]. split; [exact H3|]. intros i cl Hi.
    destruct (H4 i cl (2 ^ 31 + 5) Hi) as (_ & H5 & _); [lia|]. apply H5. vm_compute. by split.
Defined.
