(* ===== verification/LockNet.v ===== *)
(** * The lock server over an unreliable network (src/master/lock_smain.cc, lock_server_cache.cc)

    The caching lock server's handlers in the network of RpcNetwork.v.  How the
    calls end that the server makes to its clients from within a handler is what the
    world of a run shows. *)

From S2P Require Import Prelude StdContainers LockServer Marshall RpcServer Connection ConnSend RpcStub RpcClient RpcNetwork LockRpc.
Import lock_smain (obj).

Abbreviation callouts := (bytes → lock_server_cache.callout).

(** ** The history of a lock *)

(** A run of [acquire] or [release], for a lock and in a client's name. *)
Definition about (p : Z) (e : run callouts) (lid : Z) (id : bytes) : Prop :=
  e_proc e = p ∧ 0 ≤ e_ret e ∧ reads (pair_ u64 str) e = Some (lid, id).

Definition answered (e : run callouts) (r : Z) : Prop := wf i32 r ∧ put i32 r mar_new = Done (e_out e).

(** The answers that give the lock. *)
Definition gives (r : Z) : Prop := r = lock_OK ∨ r = lock_RETIRE.

Definition granted (e : run callouts) (lid : Z) (id : bytes) : Prop :=
  about rpc_acquire e lid id ∧ ∃ r, answered e r ∧ gives r.
Definition freed (e : run callouts) (lid : Z) (id : bytes) : Prop := about rpc_release e lid id.

Definition owner (s : obj) (lid : Z) : option bytes :=
  let st := lock_server_cache.get s lid in if holded st then Some (holder st) else None.

Section locks.
Context (rj nonce : Z) (Hnonce : - 2 ^ 31 ≤ nonce < 2 ^ 31).

Abbreviation hs := (λ env, lock_registered env rj nonce).
Abbreviation any := (λ _ : obj, true).

Lemma handlers_reply v p f : hs v !! p = Some f → behaves any lsm_ok f.
Proof.
  unfold lock_registered. intros [[_ <-]|[_ [[_ <-]|[_ [[_ <-]|[_ [_ <-]%lookup_singleton_Some]]%lookup_insert_Some]]%lookup_insert_Some]]%lookup_insert_Some.
  - apply (fn_behaves any lsm_ok (pair_ u64 str) i32). intros s [lid id] ret r s' Hs E _.
    pose proof (release_answer v s lid id) as [H1 H2]. injection E as E. rewrite E in H1, H2. cbn in H1, H2.
    assert (lsm_ok s').
    { revert E. unfold lock_server_cache.release. rewrite release_section_spec. cbv zeta. cbn [fst snd]. intros [= _ _ <-].
      apply map_Forall_insert_2; [by apply released_ok, lsm_get_ok|done]. }
    split_and!; try done; lia.
  - apply (fn_behaves any lsm_ok (pair_ u64 str) i32). intros s [lid id] ret r s' Hs E _.
    pose proof (acquire_answer v s lid id) as [H1 H2]. injection E as E. rewrite E in H1, H2. cbn in H1, H2.
    assert (lsm_ok s').
    { revert E. unfold lock_server_cache.acquire. rewrite acquire_section_spec by done. cbv zeta. cbn [fst snd]. intros [= _ _ <-].
      apply map_Forall_insert_2; [by apply acquired_ok, lsm_get_ok|done]. }
    split_and!; try done; lia.
  - by apply (fn_behaves any lsm_ok u64 i32).
  - by apply bind_behaves.
Qed.

(** What the two sections do to the owner. *)
Definition owner_of (st : lock_serv_state) : option bytes := if holded st then Some (holder st) else None.

Lemma owner_insert s lid lid' st : owner (<[lid := st]> s) lid' = if decide (lid = lid') then owner_of st else owner s lid'.
Proof. unfold owner. case_decide; subst; by rewrite ?get_insert, ?get_insert_ne. Qed.

Lemma acquired_owner st id :
  (gives (acquired st id).1.1 → (owner_of st = None ∨ owner_of st = Some id) ∧ owner_of (acquired st id).2 = Some id) ∧
  (∀ id', owner_of st = Some id' → owner_of (acquired st id).2 = Some id').
Proof.
  unfold owner_of, acquired, gives, lock_OK, lock_RETIRE, lock_RETRY. destruct st as [h b p]. cbn [holded holder pendingers].
  destruct b; [|by split; [auto|]]. destruct (decide (h = id)) as [->|]; cbn; [by split; [auto|]|]. split; [|done]. by intros [|].
Qed.

Lemma released_owner st id id' : owner_of st = Some id' → id' = id ∨ owner_of (released st id).2 = Some id'.
Proof.
  unfold owner_of, released. intros H. case_decide as Hd; [|by right]. left. destruct Hd as [Hh <-]. rewrite Hh in H. by injection H.
Qed.

(** A run answered with the lock finds it free or its own and leaves it its own;
    the owner of a lock changes only by its release. *)
Lemma run_owner e s s' lid id :
  ran hs any e s s' → lsm_ok s →
  (granted e lid id → (owner s lid = None ∨ owner s lid = Some id) ∧ owner s' lid = Some id) ∧
  (owner s lid = Some id → owner s' lid = Some id ∨ freed e lid id).
Proof.
  intros (f & Hf & E & _) Hs. revert Hf. unfold lock_registered.
  intros [[Hp <-]|[_ [[Hp <-]|[_ [[Hp <-]|[_ [Hp <-]%lookup_singleton_Some]]%lookup_insert_Some]]%lookup_insert_Some]]%lookup_insert_Some;
    apply fn_cases in E as (a & u & Hg & [(Hok & Hr & _ & ->)|(Hok & r & Hm & Hput)]);
    try (split; [intros [(Hp' & Hr' & _) _]; exfalso; first [by rewrite Hr in Hr'|by rewrite <- Hp in Hp']|by left]).
  - destruct a as [lid0 id0]. pose proof (release_answer (e_world e) s lid0 id0) as [[Hret _] _].
    injection Hm as E. rewrite E in Hret. cbn in Hret.
    revert E. unfold lock_server_cache.release. rewrite release_section_spec. cbv zeta. cbn [fst snd]. intros [= Hst _ <-].
    split; [intros [(Hp' & _) _]; by rewrite <- Hp in Hp'|]. rewrite owner_insert. case_decide as Hd; [|by left]. subst lid0.
    intros [->|Ho]%(released_owner _ id0); [right|by left]. split; [done|]. split; [done|]. by eapply reads_of.
  - destruct a as [lid0 id0]. pose proof (acquire_answer (e_world e) s lid0 id0) as [_ Hw].
    injection Hm as E. rewrite E in Hw. cbn in Hw.
    revert E. unfold lock_server_cache.acquire. rewrite acquire_section_spec by done. cbv zeta. cbn [fst snd]. intros [= _ Hr <-].
    destruct (acquired_owner (lock_server_cache.get s lid0) id0) as [Hgive Hkeep]. rewrite owner_insert. split.
    + intros [(_ & _ & Hread) (r' & [Hw' Hput'] & Hgives)]. rewrite (reads_of _ _ _ _ Hg Hok) in Hread. injection Hread as -> ->.
      rewrite decide_True by done. apply Hgive. rewrite Hr.
      by rewrite (put_inj i32 r r' (e_out e)).
    + case_decide as Hd; [|by left]. subst lid0. intros H. left. by apply Hkeep.
  - injection Hm as _ _ <-. split; [intros [(Hp' & _) _]; by rewrite <- Hp in Hp'|by left].
Qed.

(** Between two grants of a lock in different names the first gives it back. *)
Lemma grants_alternate l s0 s1 i j e e' lid id id' :
  replays hs any s0 l s1 → lsm_ok s0 → l !! i = Some e → l !! j = Some e' → (i < j)%nat →
  granted e lid id → granted e' lid id' → id ≠ id' → ∃ m d, (i < m < j)%nat ∧ l !! m = Some d ∧ freed d lid id.
Proof.
  intros (O & H0 & _ & Hran & Hat)%replays_states Hs Hi Hj Hij Hg Hg' Hne.
  assert (Hok : ∀ k, (k ≤ length l)%nat → lsm_ok (O k)).
  { induction k as [|k IH]; [by rewrite H0|]. intros Hk. destruct (lookup_lt_is_Some_2 l k) as [d Hd]; [lia|].
    destruct (Hran k d Hd) as (f & Hf & E & _). by destruct (handlers_reply _ _ _ Hf _ _ _ _ _ (IH ltac:(lia)) E eq_refl) as (_ & _ & ?). }
  apply lookup_lt_Some in Hj as Hjl.
  assert (Hown : ∀ k, (i < k ≤ j)%nat → owner (O k) lid = Some id ∨ ∃ m d, (i < m < k)%nat ∧ l !! m = Some d ∧ freed d lid id).
  { induction k as [|k IH]; [lia|]. intros Hk. destruct (decide (k = i)) as [->|Hki].
    - left. apply (proj1 (run_owner e (O i) (O (S i)) lid id (Hran i e Hi) (Hok i ltac:(lia)))). exact Hg.
    - destruct (IH ltac:(lia)) as [Ho|(m & d & Hm & H)]; [|right; exists m, d; split; [lia|done]].
      destruct (lookup_lt_is_Some_2 l k) as [d Hd]; [lia|].
      destruct (proj2 (run_owner d (O k) (O (S k)) lid id (Hran k d Hd) (Hok k ltac:(lia))) Ho) as [?|?]; [by left|].
      right. exists k, d. split; [lia|done]. }
  destruct (Hown j ltac:(lia)) as [Ho|?]; [|done].
  destruct (proj1 (run_owner e' (O j) (O (S j)) lid id' (Hran j e' Hj) (Hok j ltac:(lia))) Hg') as [[H|H] _]; congruence.
Qed.

End locks.

(** A release that the client has called, of something else. *)
Definition releases_other (lid : Z) (id : bytes) (k : call) : Prop :=
  ∃ a, wf (pair_ u64 str) a ∧ zlen (enc (pair_ u64 str) a) < 2 ^ 29 ∧ put (pair_ u64 str) a mar_new = Done (k_args k) ∧ a ≠ (lid, id).

(** C5: Exclusion over any network.  However requests and replies are lost, repeated
    and reordered, whatever clients ask, and however the server's calls to them end:
    in the history of the server two acquires of a lock in different names are
    answered with it only if the first has released it in between; a call of
    [acquire] that returns with the lock is such a grant, at a moment between its
    beginning and its return; and from then on, while the client has not called
    [release] of it and nobody else releases in its name, no acquire in another name
    is given the lock. *)
Theorem locks_exclude_over_network rj env0 nonce count n lossy sv s :
  - 2 ^ 31 ≤ nonce < 2 ^ 31 → 0 < n < 2 ^ 32 → lock_smain.main rj env0 nonce count = Done sv →
  nreach (λ env, lock_registered env rj nonce) (λ _, true) (ninit n lossy sv) s →
  (∀ i j e e' lid id id', n_log s !! i = Some e → n_log s !! j = Some e' → (i < j)%nat →
     granted e lid id → granted e' lid id' → id ≠ id' →
     ∃ m d, (i < m < j)%nat ∧ n_log s !! m = Some d ∧ freed d lid id) ∧
  ∀ k q lid id st r, 0 ≤ lid < 2 ^ 64 → zlen id < 2 ^ 28 →
    returned (pair_ u64 str) i32 s k q rpc_acquire (lid, id) st (Some r) → 0 ≤ st → gives r →
    ∃ i e, n_log s !! i = Some e ∧ (k_since k ≤ i < q_until q)%nat ∧ granted e lid id ∧
      ((∀ m d, n_log s !! m = Some d → freed d lid id → e_clt d = n) →
       (∀ k', k' ∈ n_calls s → k_proc k' = rpc_release → releases_other lid id k') →
       ∀ j e' id', (i < j)%nat → n_log s !! j = Some e' → granted e' lid id' → id' = id).
Proof.
  intros Hno Hn Hsv R. destruct (lock_main_registers env0 rj nonce count) as (sv' & Hsv' & Hu & Ho & _).
  rewrite Hsv in Hsv'. injection Hsv' as <-.
  assert (H0 : lsm_ok (object sv)) by (rewrite Ho; apply map_Forall_empty).
  pose proof (handlers_reply rj nonce Hno) as Hb.
  assert (I := nreach_inv _ _ lsm_ok n Hn lossy sv Hb nonce s Hu H0 R).
  pose proof (λ i j e e' lid id id', grants_alternate rj nonce Hno (n_log s) (object sv) (n_obj s) i j e e' lid id id'
    (ni_replays _ _ _ _ _ _ I) H0) as Halt.
  split; [exact Halt|]. intros k q lid id st r Hlid Hid Hq Hst Hr.
  assert (Hl : zlen (enc (pair_ u64 str) (lid, id)) < 2 ^ 29).
  { cbn [enc pair_laws u64_laws str_laws fst snd]. rewrite !length_app, !Nat2Z.inj_add, !length_be32. lia. }
  destruct (returned_ran _ _ lsm_ok Hb (pair_ u64 str) i32 rj (λ v s '(a1, a2), lock_smain.acquire v s a1 a2) (λ _ s, s)
    n sv s k q rpc_acquire (lid, id) st (Some r) I H0 Hq Hst) as (i & e & s1 & r1 & s2 & He & Hi & _ & _ & Hp & (u & Hg & Hok) & _ & _ & Eret & Hput & Hwr & [= ->] & _).
  - split; [exact Hlid|cbn; lia].
  - exact Hl.
  - reflexivity.
  - intros v s1 ret r1 s2 _ E _. pose proof (acquire_answer v s1 lid id) as [_ Hw]. injection E as E. rewrite E in Hw. by split.
  - exists i, e. assert (Hgr : granted e lid id).
    { split; [split; [done|split; [lia|by eapply reads_of]]|]. exists r1. by split. }
    split_and!; [done|lia|lia|exact Hgr|]. intros Hown Hrel j e' id' Hij Hj Hgr'.
    destruct (decide (id' = id)) as [|Hne]; [done|exfalso].
    destruct (Halt i j e e' lid id id' He Hj Hij Hgr Hgr' (not_eq_sym Hne)) as (m & d & _ & Hm & Hf).
    destruct (se_run _ _ _ _ _ _ _ _ (ni_served _ _ _ _ _ _ I) m d Hm (Hown m d Hm Hf)) as (k' & Hk' & _ & Hkp & Hin & _).
    destruct Hf as (Hdp & _ & Hread). destruct (Hrel k' Hk') as (a & Hwa & Hla & Hpa & Hne'); [congruence|].
    destruct (holds_reads _ a _ _ Hin Hpa Hwa Hla) as (u' & Hg' & Hok'). rewrite (reads_of _ _ _ _ Hg' Hok') in Hread. by injection Hread.
Qed.

(** A client gets a lock; another asks for it over and over, and is told to wait. *)
Definition lock_arg (lid : Z) (id : bytes) : mar := match put (pair_ u64 str) (lid, id) mar_new with Done m => m | _ => mar_new end.
Definition other_acquire (x : Z) : bytes :=
  match pack_req_header (mkReq x rpc_acquire 12 77 0) (lock_arg 5 (bs "b:2")) with Done m => data m | _ => [] end.
Definition no_client : callouts := λ _, lock_server_cache.NoClient.
Definition reachable : callouts := λ _, lock_server_cache.Answer rlock_OK.
Definition grant_server : server obj :=
  match lock_smain.main 0 no_client 77 0 with Done sv => sv | _ => mkServer (rpcs.mk 77 ∅ ∅ 1 ∅ 0 0 ∅) ∅ ∅ end.
Definition grant_events : list (nevent callouts) :=
  [NBegin 0 1 (int_arg 0); NTransmit 0; NArrive 0 0; NRun 0 no_client; NReply 0; NSend 0; NDeliver 0; NEnd 0; NBound 0 77;
   NBegin 1 rpc_acquire (lock_arg 5 (bs "a:1")); NTransmit 1; NTransmit 1; NArrive 0 2; NArrive 1 1; NRun 0 reachable;
   NOther 2 (other_acquire 5); NRun 2 reachable; NReply 2; NReply 0; NSend 0; NSend 2;
   NDeliver 1; NEnd 1; NOther 2 (other_acquire 6); NRun 2 no_client; NReply 2; NSend 2].
Definition grant_start : net obj callouts := ninit 9 false grant_server.
Definition grant_end : net obj callouts :=
  match nrun (λ env, lock_registered env 0 77) grant_start grant_events with Some (Done s) => s | _ => grant_start end.

Lemma locks_exclude_over_network_witness :
  let q := nth 0 (n_returns grant_end) (mkReturn 0 0 unm_none 0) in
  let k := nth 0 (n_calls grant_end) (mkCall 0 0 mar_new 0) in
  e_proc <$> n_log grant_end = [1; rpc_acquire; rpc_acquire; rpc_acquire] ∧
  ∃ i e, n_log grant_end !! i = Some e ∧ (k_since k ≤ i < q_until q)%nat ∧ granted e 5 (bs "a:1") ∧
    ∀ j e' id', (i < j)%nat → n_log grant_end !! j = Some e' → granted e' 5 id' → id' = bs "a:1".
Proof.
  intros q k.
  assert (Hlog : e_proc <$> n_log grant_end = [1; rpc_acquire; rpc_acquire; rpc_acquire]) by (vm_compute; reflexivity).
  assert (Hcalls : k_proc <$> n_calls grant_end = [rpc_acquire; 1]) by (vm_compute; reflexivity).
  split; [exact Hlog|].
  destruct (lock_main_registers no_client 0 77 0) as (sv & Hsv & _).
  assert (Es : grant_server = sv) by (unfold grant_server; by rewrite Hsv).
  destruct (locks_exclude_over_network 0 no_client 77 0 9 false grant_server grant_end) as [_ H].
  - lia.
  - lia.
  - by rewrite Es.
  - apply (nrun_reach _ _ _ grant_start grant_events); [constructor|vm_compute; reflexivity|].
    unfold grant_end. by vm_compute.
  - destruct (H k q 5 (bs "a:1") 0 lock_OK) as (i & e & He & Hi & Hg & Hrest).
    + lia.
    + cbn. lia.
    + split_and!; [apply list_elem_of_lookup_2 with (i := 0%nat)| | |apply list_elem_of_lookup_2 with (i := 0%nat)|..];
        vm_compute; reflexivity.
    + done.
    + by left.
    + exists i, e. split; [exact He|]. split; [exact Hi|]. split; [exact Hg|]. apply Hrest.
      * intros m d Hm (Hp & _). exfalso. assert (Hin : e_proc d ∈ e_proc <$> n_log grant_end)
          by (apply list_elem_of_fmap_2, list_elem_of_lookup; eauto).
        rewrite Hlog, Hp in Hin. revert Hin. apply (bool_decide_unpack _). by vm_compute.
      * intros k' Hk' Hp. exfalso. assert (Hin : k_proc k' ∈ k_proc <$> n_calls grant_end) by by apply list_elem_of_fmap_2.
        rewrite Hcalls, Hp in Hin. revert Hin. apply (bool_decide_unpack _). by vm_compute.
Defined.
