(* ===== verification/MasterRpc.v ===== *)
(** * The master over the wire (src/master/master_main.cc, src/client/client.cc, src/fs/info_collector.cc)

    The handlers that the master's main registers and the calls of its three kinds
    of callers: the file system client, a storage node that registers, and the
    heartbeat.  They meet in RpcStub.v: clients that call over connections that lose
    nothing get what the handlers of Master.v answer. *)

From S2P Require Import Prelude StdContainers Sections PrefixTree TreeSpec Master ExtentServer Marshall RpcServer RpcClient Connection ConnSend RpcStub.

(** [master_protocol::rpc_numbers] *)
Definition heart_beat : Z := 28673.
Definition regist : Z := 28674.
Definition ask_for_ino : Z := 28675.
Definition ask_for_kv : Z := 28676.

(** ** The server's side *)

Module master_main.
Section main.
(** What the handlers' [int r] holds before. *)
Context (rj : Z).

Definition UpdateKVInfo (m : Master.t) (i : InfoCollector.ServerInfo) (r : Z) : outcome (Z * Z * Master.t) :=
  Done (0, r, Master.UpdateKVInfo m).
(** Each runs its sections to the end: what it does when no other handler runs. *)
Definition Regist (m : Master.t) (addr : bytes) (sum r : Z) : outcome (Z * Z * Master.t) :=
  '(id, m) ← alone (Master.Regist_sections addr sum) m; Done (0, id, m).
Definition AskForIno (m : Master.t) (parent : Z) (path : bytes) (is_dir : bool) (sz : Z) (r : Z * bytes) :
    outcome (Z * (Z * bytes) * Master.t) :=
  '(r, m) ← alone (Master.AskForIno_sections parent path is_dir sz) m; Done (0, r, m).
Definition AskForKV (m : Master.t) (ino : Z) (r : bytes) : outcome (Z * bytes * Master.t) :=
  '(addr, m) ← alone (Master.AskForKV_sections ino) m; Done (0, addr, m).

Definition main (nonce count : Z) : outcome (server Master.t) :=
  m ← Master.make;
  sv ← server_make nonce count m;
  sv ← reg heart_beat (fn1 server_info i32 rj UpdateKVInfo) sv;
  sv ← reg regist (fn2 str u64 i32 rj Regist) sv;
  sv ← reg ask_for_ino (fn4 u64 str bool_ u64 (pair_ u64 str) (0, []) AskForIno) sv;
  reg ask_for_kv (fn1 u64 str [] AskForKV) sv.

End main.
End master_main.

Lemma main_regist m addr sum r : master_main.Regist m addr sum r = '(id, m) ← Master.Regist m addr sum; Done (0, id, m).
Proof. unfold master_main.Regist. by rewrite regist_alone. Qed.
Lemma main_ask_for_ino m p path d sz r :
  master_main.AskForIno m p path d sz r = '(ino, addr, m) ← Master.AskForIno m p path d sz; Done (0, (ino, addr), m).
Proof. unfold master_main.AskForIno. rewrite ask_for_ino_alone. by destruct (Master.AskForIno m p path d sz) as [[[? ?] ?]| | |]. Qed.
Lemma main_ask_for_kv m ino r : master_main.AskForKV m ino r = let '(addr, m) := Master.AskForKV m ino in Done (0, addr, m).
Proof. done. Qed.

(** ** The callers *)

Section callers.
Context (cl : rpcc.t) (sv : server Master.t).

(** [getKVAddrByInumViaMaster] and [GetInumByName]: the status is not looked at,
    and without a reply the answer is what the variable held. *)
Definition call_ask_for_kv (ino : Z) : outcome (bytes * rpcc.t * server Master.t) :=
  '(_, r, cl, sv) ← call_1 u64 str cl sv ask_for_kv ino; Done (default [] r, cl, sv).
Definition call_ask_for_ino (parent : Z) (name : bytes) (is_dir : bool) (sz : Z) :
    outcome (Z * bytes * rpcc.t * server Master.t) :=
  '(_, r, cl, sv) ← call_4 u64 str bool_ u64 (pair_ u64 str) cl sv ask_for_ino parent name is_dir sz;
  Done ((default (0, []) r).1, (default (0, []) r).2, cl, sv).

(** [InfoCollector::Regist], and the call of [SendHeartBeat]. *)
Definition call_regist (kv_addr : bytes) (limit_sz : Z) : outcome (Z * rpcc.t * server Master.t) :=
  '(_, r, cl, sv) ← call_2 str u64 i32 cl sv regist kv_addr limit_sz; Done (default 0 r, cl, sv).
Definition call_heart_beat (i : InfoCollector.ServerInfo) : outcome (Z * rpcc.t * server Master.t) :=
  '(st, _, cl, sv) ← call_1 server_info i32 cl sv heart_beat i; Done (st, cl, sv).

End callers.

Inductive mop : Type :=
  | MKv (ino : Z) | MIno (parent : Z) (name : bytes) (is_dir : bool) (sz : Z)
  | MRegist (addr : bytes) (sz : Z) | MHeart (i : InfoCollector.ServerInfo).

Inductive mreply : Type := RAddr (addr : bytes) | RIno (ino : Z) (addr : bytes) | RId (id : Z) | RSeen (st : Z).

#[export] Instance mreply_eq_dec : EqDecision mreply.
Proof. solve_decision. Defined.

Definition master_remote (o : mop) (cl : rpcc.t) (sv : server Master.t) : outcome (mreply * rpcc.t * server Master.t) :=
  match o with
  | MKv ino => '(a, cl, sv) ← call_ask_for_kv cl sv ino; Done (RAddr a, cl, sv)
  | MIno p n d sz => '(i, a, cl, sv) ← call_ask_for_ino cl sv p n d sz; Done (RIno i a, cl, sv)
  | MRegist a sz => '(id, cl, sv) ← call_regist cl sv a sz; Done (RId id, cl, sv)
  | MHeart i => '(st, cl, sv) ← call_heart_beat cl sv i; Done (RSeen st, cl, sv)
  end.

Definition master_step (o : mop) (m : Master.t) : outcome (mreply * Master.t) :=
  match o with
  | MKv ino => let '(a, m) := Master.AskForKV m ino in Done (RAddr a, m)
  | MIno p n d sz => '(i, a, m) ← Master.AskForIno m p n d sz; Done (RIno i a, m)
  | MRegist a sz => '(id, m) ← Master.Regist m a sz; Done (RId id, m)
  | MHeart i => Done (RSeen 0, Master.UpdateKVInfo m)
  end.

Definition wire_mop (o : mop) : Prop :=
  match o with
  | MKv ino => 0 ≤ ino < 2 ^ 64
  | MIno p n d sz => 0 ≤ p < 2 ^ 64 ∧ zlen n < 2 ^ 28 ∧ 0 ≤ sz < 2 ^ 64
  | MRegist a sz => zlen a < 2 ^ 28 ∧ 0 ≤ sz < 2 ^ 64
  | MHeart i => wf server_info i ∧ zlen (enc server_info i) < 2 ^ 29
  end.

(** Its numbers have room for [n] more calls, and its addresses fit in messages. *)
Record roomy (n : nat) (m : Master.t) : Prop := {
  r_addr : map_Forall (λ _ a, zlen a < 2 ^ 28) (Master.register_id_to_addr_ m);
  r_ids : 0 ≤ Master.cur_register_kv_id_ m ∧ Master.cur_register_kv_id_ m + Z.of_nat n < 2 ^ 31;
  r_reused : Forall (λ i, 0 ≤ i < 2 ^ 31) (Master.reused_queue_ m);
  r_count : 0 ≤ Master.ino_count_ m ∧ Master.ino_count_ m + Z.of_nat n < 2 ^ 31 }.

Definition answers (hs : gmap Z (handler Master.t)) : Prop :=
  ∃ rj, - 2 ^ 31 ≤ rj < 2 ^ 31 ∧
    hs !! heart_beat = Some (fn1 server_info i32 rj master_main.UpdateKVInfo) ∧
    hs !! regist = Some (fn2 str u64 i32 rj master_main.Regist) ∧
    hs !! ask_for_ino = Some (fn4 u64 str bool_ u64 (pair_ u64 str) (0, []) master_main.AskForIno) ∧
    hs !! ask_for_kv = Some (fn1 u64 str [] master_main.AskForKV).

(** What a handler's answer is made of. *)
Definition small_reply (r : mreply) : Prop :=
  match r with
  | RAddr a => zlen a < 2 ^ 28
  | RIno i a => 0 ≤ i < 2 ^ 64 ∧ zlen a < 2 ^ 28
  | RId id => 0 ≤ id < 2 ^ 31
  | RSeen st => st = 0
  end.

Lemma info_roomy n m ino : roomy n m → zlen (Master.getInfoByInum m ino).1 < 2 ^ 28 ∧ roomy n (Master.getInfoByInum m ino).2.
Proof.
  intros [Ha ? ? ?]. unfold Master.getInfoByInum.
  assert (Hs : ∀ id, zlen (default [] (Master.register_id_to_addr_ m !! id)) < 2 ^ 28).
  { intros id. destruct (Master.register_id_to_addr_ m !! id) as [a|] eqn:E; [by apply Ha in E|done]. }
  split; [apply Hs|]. split; try done. cbn. by apply map_Forall_insert_2.
Qed.

Lemma master_step_roomy n m o r m' : roomy (S n) m → wire_mop o → master_step o m = Done (r, m') → roomy n m' ∧ small_reply r.
Proof.
  intros R Ho. assert (R' : roomy n m) by (destruct R; split; [done|lia|done|lia]).
  destruct o as [ino|p nm d sz|a sz|i]; cbn [master_step wire_mop] in *.
  - unfold Master.AskForKV. destruct (info_roomy n m ino R') as [H1 H2]. destruct (Master.getInfoByInum m ino). by intros [= <- <-].
  - unfold Master.AskForIno, Master.genInum. intros ([[i a] m1] & H1 & [= <- <-])%bind_Done_inv.
    apply bind_Done_inv in H1 as ([i2 m2] & H2 & H1).
    apply bind_Done_inv in H2 as ([[fl kv] tr] & Hcr & H2). apply bind_Done_inv in H2 as (u & _ & [= <- <-]).
    destruct R as [Ra Ri Rr [Rc1 Rc2]].
    match type of H1 with (let '(_, _) := Master.getInfoByInum ?mm ?ii in _) = _ =>
      assert (R2 : roomy n mm); [|destruct (info_roomy n mm ii R2) as [H3 H4]; destruct (Master.getInfoByInum mm ii)] end.
    { split; cbn; [done|lia|done|]. rewrite wrap_small by (change (2 ^ 64) with 18446744073709551616; lia). lia. }
    injection H1 as <- <- <-. split; [done|]. split; [|done].
    destruct d; [lia|]. rewrite lor_bit31 by lia. lia.
  - unfold Master.Regist, Master.getNewRegisterID. destruct R as [Ra Ri Rr Rc].
    destruct (Master.reused_queue_ m) as [|id q] eqn:Eq;
      intros ([id' m1] & (tr & _ & [= <- <-])%bind_Done_inv & [= <- <-])%bind_Done_inv.
    + split; [split; cbn; [by apply map_Forall_insert_2; [apply Ho|]|lia|done|lia]|cbn; lia].
    + apply Forall_cons in Rr as [? ?]. split; [split; cbn; [by apply map_Forall_insert_2; [apply Ho|]|lia|done|lia]|done].
  - by intros [= <- <-].
Qed.

(** ** The calls answer what the handlers answer *)

#[export] Instance master_stub : Stub mop mreply Master.t := {
  remote := master_remote;
  local := master_step;
  callable := wire_mop;
  proper := roomy;
  offered := answers;
}.

Ltac small_args := cbn [enc pair_laws u64_laws u32_laws i32_laws str_laws bool_laws Marshall.wf fst snd];
  rewrite ?length_app, ?Nat2Z.inj_add, ?length_be32; cbn [length]; repeat split; try lia; try done.

#[export] Instance master_stub_laws : StubLaws mop mreply Master.t.
Proof.
  split; [|intros n o m r m' R Ho Hl; by apply (master_step_roomy n m o r m')].
  intros n o ex cl sv r m' Hy (rj & Hrj & Hheart & Hregist & Hino & Hkv) R Ho Hl Hb Hx.
  destruct (master_step_roomy n (object sv) o r m' R Ho Hl) as [_ Hr]. cbn [remote callable local master_stub] in *.
  destruct o as [ino|p nm d sz|a sz|i]; cbn [master_remote wire_mop master_step] in *.
  - destruct (Master.AskForKV (object sv) ino) as [a m1] eqn:E. injection Hl as <- <-. cbn in Hr.
    destruct (call_ok u64 str [] master_main.AskForKV ex cl sv ask_for_kv ino 0 a m1) as (cl' & sv' & Hc & Hrest);
      [exact Hy|exact Hx|by rewrite Hb|done|exact Hkv|by rewrite main_ask_for_kv, E|small_args..|].
    exists cl', sv'. unfold call_ask_for_kv, call_1. rewrite Hc, !bind_Done. by split.
  - apply bind_Done_inv in Hl as ([[i a] m1] & E & [= <- <-]). cbn in Hr.
    destruct (call_ok (pair_ u64 (pair_ str (pair_ bool_ u64))) (pair_ u64 str) (0, [])
      (λ s '(a1, (a2, (a3, a4))), master_main.AskForIno s a1 a2 a3 a4) ex cl sv ask_for_ino (p, (nm, (d, sz))) 0 (i, a) m1)
      as (cl' & sv' & Hc & Hrest);
      [exact Hy|exact Hx|by rewrite Hb|done|exact Hino|by rewrite main_ask_for_ino, E, bind_Done|small_args..|].
    exists cl', sv'. unfold call_ask_for_ino, call_4. rewrite Hc, !bind_Done. by split.
  - apply bind_Done_inv in Hl as ([id m1] & E & [= <- <-]). cbn in Hr.
    destruct (call_ok (pair_ str u64) i32 rj (λ s '(a1, a2), master_main.Regist s a1 a2) ex cl sv regist (a, sz) 0 id m1)
      as (cl' & sv' & Hc & Hrest);
      [exact Hy|exact Hx|by rewrite Hb|done|exact Hregist|by rewrite main_regist, E, bind_Done|small_args..|].
    exists cl', sv'. unfold call_regist, call_2. rewrite Hc, !bind_Done. by split.
  - injection Hl as <- <-.
    destruct (call_ok server_info i32 rj master_main.UpdateKVInfo ex cl sv heart_beat i 0 rj (object sv)) as (cl' & sv' & Hc & Hrest);
      [exact Hy|exact Hx|by rewrite Hb|done|exact Hheart|done|apply Ho|apply Ho|small_args..|].
    exists cl', sv'. unfold call_heart_beat, call_1. rewrite Hc, !bind_Done. by split.
Qed.

(** What [main] has registered. *)
Definition master_registered (rj nonce : Z) : gmap Z (handler Master.t) :=
  <[ask_for_kv := fn1 u64 str [] master_main.AskForKV]>
    (<[ask_for_ino := fn4 u64 str bool_ u64 (pair_ u64 str) (0, []) master_main.AskForIno]>
      (<[regist := fn2 str u64 i32 rj master_main.Regist]> (<[heart_beat := fn1 server_info i32 rj master_main.UpdateKVInfo]>
        {[bind_proc := bind_handler nonce]}))).

Lemma master_main_registers rj nonce count :
  ∃ m sv, Master.make = Done m ∧ master_main.main rj nonce count = Done sv ∧ unused nonce sv ∧ object sv = m ∧
    handlers sv = master_registered rj nonce.
Proof.
  destruct make_minv as (m & Hm & _). exists m. unfold master_main.main. rewrite Hm, bind_Done.
  destruct (unused_make nonce count m) as (s0 & -> & H0 & O0 & F0). rewrite bind_Done.
  do 4 reg_next.
  eexists. split; [done|]. split; [done|]. by split_and!.
Qed.

Lemma main_answers rj nonce count :
  - 2 ^ 31 ≤ rj < 2 ^ 31 →
  ∃ m sv, Master.make = Done m ∧ master_main.main rj nonce count = Done sv ∧ unused nonce sv ∧ object sv = m ∧ answers (handlers sv).
Proof.
  intros Hrj. destruct (master_main_registers rj nonce count) as (m & sv & Hm & Hsv & Hu & Ho & Hh).
  exists m, sv. split_and!; [done..|]. exists rj. rewrite Hh. split; [exact Hrj|].
  unfold master_registered. repeat split; by vm_compute.
Qed.

Lemma make_roomy m n : Master.make = Done m → Z.of_nat n < 2 ^ 31 - 2 → roomy n m.
Proof.
  unfold Master.make. intros (tr & _ & [= <-])%bind_Done_inv Hn. split; cbn; [apply map_Forall_empty|lia|done|lia].
Qed.

(** C30: Clients and storage nodes that bind to a new master and then call it in
    any order, over connections that lose nothing, get exactly what its handlers
    answer one after the other, as long as these do not stop the master: every
    address, inode number and id arrives as it was given, and the master ends in the
    state the handlers leave. *)
Theorem master_calls_are_its_answers rj nonce count ns ops m rs m' :
  - 2 ^ 31 ≤ rj < 2 ^ 31 → 0 ≤ nonce < 2 ^ 31 → NoDup ns → Forall (λ n, 0 < n < 2 ^ 32) ns →
  zlen ops < 2 ^ 31 - 2 → Forall (λ p, (p.1 < length ns)%nat ∧ wire_mop p.2) ops →
  Master.make = Done m → local_run m ops.*2 = Done (rs, m') →
  ∃ sv cs1 sv1 cs2 sv2,
    master_main.main rj nonce count = Done sv ∧ bind_all 0 ns ∅ sv = Done (cs1, sv1) ∧
    session cs1 sv1 ops = Done (rs, cs2, sv2) ∧ object sv2 = m'.
Proof.
  intros Hrj Hnonce Hnd Hns Hlen Hops Hm Hrun.
  destruct (main_answers rj nonce count Hrj) as (m1 & sv & Hm1 & Hmain & Hu & Ho & Ha).
  rewrite Hm in Hm1. injection Hm1 as <-.
  destruct (served_locally (O := mop) (Res := mreply) nonce sv ns ops rs m' Hu) as (cs1 & sv1 & cs2 & sv2 & Hb & Hses & Hobj);
    [exact Ha| |exact Hnonce|exact Hnd|exact Hns|exact Hlen|exact Hops|by rewrite Ho|].
  - rewrite Ho. by apply make_roomy.
  - by exists sv, cs1, sv1, cs2, sv2.
Qed.

Definition demo_ops : list (nat * mop) :=
  [(1%nat, MRegist (bs "a:1") 100); (0%nat, MIno 1 (bs "f") false 7); (1%nat, MKv (2 ^ 31 + 2)); (1%nat, MHeart (InfoCollector.mkInfo [2] [7] [1]))].

Lemma master_calls_are_its_answers_witness :
  ∃ sv cs1 sv1 cs2 sv2,
    master_main.main (-5) 77 0 = Done sv ∧ bind_all 0 [11; 12] ∅ sv = Done (cs1, sv1) ∧
    session cs1 sv1 demo_ops = Done ([RId 0; RIno (2 ^ 31 + 2) (bs "a:1"); RAddr (bs "a:1"); RSeen 0], cs2, sv2).
Proof.
  destruct (done_if_inv (λ m, done_if (λ p, bool_decide (p.1 = [RId 0; RIno (2 ^ 31 + 2) (bs "a:1"); RAddr (bs "a:1"); RSeen 0]))
    (local_run m demo_ops.*2)) Master.make) as (m & Hm & H); [by vm_compute|].
  destruct (done_if_inv _ _ H) as ([rs m'] & Hrun & Hrs%bool_decide_eq_true). cbn [fst] in Hrs. subst rs.
  destruct (master_calls_are_its_answers (-5) 77 0 [11; 12] demo_ops m [RId 0; RIno (2 ^ 31 + 2) (bs "a:1"); RAddr (bs "a:1"); RSeen 0] m')
    as (sv & cs1 & sv1 & cs2 & sv2 & H1 & H2 & H3 & _).
  - lia.
  - lia.
  - by apply (bool_decide_unpack _); vm_compute.
  - repeat constructor.
  - cbn. lia.
  - repeat constructor; cbn; lia.
  - exact Hm.
  - exact Hrun.
  - exists sv, cs1, sv1, cs2, sv2. split; [exact H1|]. by split.
Defined.
