(* ===== verification/MasterNet.v ===== *)
(** * The master over an unreliable network (src/master/master_main.cc, src/client/client.cc)

    The master's handlers, in their sections, in the network of RpcSections.v: as
    long as they do not overlap, inode numbers are given out once, to whichever
    client, and an inode stays on the server that it was placed on; where two of them
    overlap they can race. *)

From S2P Require Import Prelude StdContainers PrefixTree TreeSpec Master ExtentServer Marshall RpcServer Connection ConnSend RpcStub RpcClient RpcNetwork Sections RpcSections MasterRpc.

(** The numbers are below 2^31 and the addresses below 2^28 bytes. *)
Definition in_bounds (m : Master.t) : bool :=
  (Master.ino_count_ m <? 2 ^ 31) && (Master.cur_register_kv_id_ m <? 2 ^ 31) &&
  bool_decide (map_Forall (λ _ a, zlen a < 2 ^ 28) (Master.register_id_to_addr_ m)).

Lemma in_bounds_spec m : in_bounds m = true →
  Master.ino_count_ m < 2 ^ 31 ∧ Master.cur_register_kv_id_ m < 2 ^ 31 ∧
  map_Forall (λ _ a, zlen a < 2 ^ 28) (Master.register_id_to_addr_ m).
Proof. unfold in_bounds. rewrite !andb_true_iff, !Z.ltb_lt, bool_decide_eq_true. tauto. Qed.

(** Only registered ids have an address. *)
Record sound (m : Master.t) : Prop := {
  so_count : 2 ≤ Master.ino_count_ m;
  so_reused : Master.reused_queue_ m = [];
  so_cur : 0 ≤ Master.cur_register_kv_id_ m;
  so_reg id a : Master.register_id_to_addr_ m !! id = Some a → a = [] ∨ 0 ≤ id < Master.cur_register_kv_id_ m }.

Definition master_ok (m : Master.t) : Prop := sound m ∧ in_bounds m = true.

(** An inode that was given out, and its server. *)
Definition placed (m : Master.t) (ino : Z) (addr : bytes) : Prop :=
  given m ino ∧ addr ≠ [] ∧
  ∃ kv, Master.inum_to_register_id_ m !! Master.key ino = Some kv ∧ Master.register_id_to_addr_ m !! kv = Some addr.

(** What no request undoes. *)
Definition advances (m m' : Master.t) : Prop :=
  Master.ino_count_ m ≤ Master.ino_count_ m' ∧ ∀ ino addr, placed m ino addr → placed m' ino addr.

(** ** The operations *)

Lemma info_sound m ino : sound m → sound (Master.getInfoByInum m ino).2.
Proof.
  intros [H1 H2 H3 H4]. split; try done. intros id a. cbn.
  intros [[<- <-]|[_ ?]]%lookup_insert_Some; [|by apply H4].
  destruct (Master.register_id_to_addr_ m !! _) as [a|] eqn:E; [by apply H4|by left].
Qed.

Lemma info_advances m ino : advances m (Master.getInfoByInum m ino).2.
Proof.
  split; [done|]. intros i addr (Hg & Hne & kv & Hk & Ha). split; [done|]. split; [done|]. exists kv. cbn. split.
  - rewrite lookup_insert_Some. destruct (decide (Master.key ino = Master.key i)) as [E|N]; [left|by right].
    split; [done|]. by rewrite E, Hk.
  - rewrite lookup_insert_Some. destruct (decide (default 0 (Master.inum_to_register_id_ m !! Master.key ino) = kv)) as [E|N];
      [left|by right]. split; [done|]. by rewrite E, Ha.
Qed.

Lemma info_placed m ino addr : placed m ino addr → (Master.getInfoByInum m ino).1 = addr.
Proof. intros (_ & _ & kv & Hk & Ha). cbn. by rewrite Hk; cbn; rewrite Ha. Qed.

Lemma advances_trans m1 m2 m3 : advances m1 m2 → advances m2 m3 → advances m1 m3.
Proof. intros [H1 H2] [H3 H4]. split; [lia|auto]. Qed.

Lemma regist_ok m addr sz id m' : Master.Regist m addr sz = Done (id, m') → sound m →
  sound m' ∧ advances m m' ∧ id = Master.cur_register_kv_id_ m ∧ Master.cur_register_kv_id_ m' = id + 1.
Proof.
  intros E [H1 H2 H3 H4]. revert E. unfold Master.Regist, Master.getNewRegisterID. rewrite H2.
  intros [tr [_ [= <- <-]]]%bind_Done_inv. split_and!; [..|done|done].
  - split; cbn; try done; [lia|]. intros i a [[<- <-]|[_ Hi]]%lookup_insert_Some; [right; lia|].
    destruct (H4 i a Hi); [by left|right; lia].
  - split; [done|]. intros i a (Hg & Hne & kv & Hk & Ha). split; [done|]. split; [done|]. exists kv. cbn. split; [done|].
    rewrite lookup_insert_ne; [done|]. destruct (H4 kv a Ha); [done|lia].
Qed.

(** A new inode number. *)
Lemma gen_ok m p nm d sz ino m' : Master.genInum m p nm d sz = Done (ino, m') → sound m → Master.ino_count_ m < 2 ^ 31 →
  sound m' ∧ advances m m' ∧ ¬ given m ino ∧ given m' ino ∧ 0 ≤ ino < 2 ^ 32 ∧ d = (ino <? 2 ^ 31) ∧
  is_Some (Master.inum_to_register_id_ m' !! Master.key ino) ∧ Master.register_id_to_addr_ m' = Master.register_id_to_addr_ m.
Proof.
  unfold Master.genInum. intros ([[fl kv] tr] & _ & E)%bind_Done_inv [H1 H2 H3 H4] Hc. apply bind_Done_inv in E as (u & _ & E).
  set (i := if d then Master.ino_count_ m else Z.lor (Master.ino_count_ m) (2 ^ 31)) in E.
  assert (Hi : i = if d then Master.ino_count_ m else Master.ino_count_ m + 2 ^ 31).
  { unfold i. destruct d; [done|]. apply lor_bit31. lia. }
  clearbody i. injection E as -> <-. rewrite wrap_small by (change (2 ^ 64) with 18446744073709551616; lia).
  assert (Hnew : ¬ given m ino) by (unfold given; destruct d; lia).
  assert (Hr : 0 ≤ ino < 2 ^ 32) by (destruct d; lia).
  split_and!; try done.
  - split; cbn; try done; lia.
  - split; [cbn; lia|]. intros j addr (Hg & Hne & k & Hk & Ha). split; [|split; [done|]]; [destruct Hg; [left|right]; cbn; lia|].
    exists k. cbn. split; [|done]. rewrite lookup_insert_ne; [done|]. intros E. apply Hnew.
    by rewrite (key_inj ino j Hr (given_range m j Hc Hg) E).
  - unfold given. cbn. destruct d; lia.
  - lia.
  - lia.
  - rewrite Hi. symmetry. destruct d; [apply Z.ltb_lt|apply Z.ltb_ge]; lia.
  - cbn. rewrite lookup_insert_eq. by eexists.
Qed.

Lemma ask_ok m p nm d sz ino addr m' : Master.AskForIno m p nm d sz = Done (ino, addr, m') → sound m → Master.ino_count_ m < 2 ^ 31 →
  sound m' ∧ advances m m' ∧ ¬ given m ino ∧ given m' ino ∧ 0 ≤ ino < 2 ^ 32 ∧ d = (ino <? 2 ^ 31) ∧ (addr ≠ [] → placed m' ino addr) ∧
  (addr = [] ∨ ∃ kv, Master.register_id_to_addr_ m !! kv = Some addr).
Proof.
  unfold Master.AskForIno. intros [[i m1] [E E2]]%bind_Done_inv S Hc.
  destruct (gen_ok _ _ _ _ _ _ _ E S Hc) as (S1 & A1 & Hnew & Hg & Hr & Hd & [kv Hkv] & Hreg).
  pose proof (info_sound m1 i S1) as S2. pose proof (info_advances m1 i) as A2.
  assert (Hp : placed m1 i (Master.getInfoByInum m1 i).1 ∨ (Master.getInfoByInum m1 i).1 = []).
  { cbn. rewrite Hkv. cbn. destruct (Master.register_id_to_addr_ m1 !! kv) as [a|] eqn:Ea; [|by right]. cbn.
    destruct (decide (a = [])) as [|Hne]; [by right|left]. split_and!; try done. by exists kv. }
  destruct (Master.getInfoByInum m1 i) as [a m2]. injection E2 as <- <- <-. cbn [fst snd] in *. split_and!; try done; try lia.
  - by eapply advances_trans.
  - destruct Hg; [left|right]; destruct A2; lia.
  - intros Hne. apply A2. by destruct Hp.
  - destruct Hp as [(_ & _ & k & _ & Ha)|]; [right; exists k; by rewrite <- Hreg|by left].
Qed.

(** ** The handlers *)

Abbreviation ino_args := (pair_ u64 (pair_ str (pair_ bool_ u64))).

Section master.
Context (rj nonce : Z) (Hrj : - 2 ^ 31 ≤ rj < 2 ^ 31) (Hnonce : - 2 ^ 31 ≤ nonce < 2 ^ 31).

Abbreviation hs := (λ _ : unit, master_registered rj nonce).

Lemma ok_addr m ino : master_ok m → zlen (Master.getInfoByInum m ino).1 < 2 ^ 28.
Proof.
  intros [_ (_ & _ & Ha)%in_bounds_spec]. cbn. destruct (Master.register_id_to_addr_ m !! _) as [a|] eqn:E; [by apply (Ha _ _ E)|done].
Qed.

(** A run keeps the master sound, and goes forward. *)
Lemma master_ran e m m' : ran hs in_bounds e m m' → master_ok m → master_ok m' ∧ advances m m'.
Proof.
  intros (f & Hf & E & Hin) [S Hb]. enough (sound m' ∧ advances m m') as [? ?] by done.
  assert (Hsame : m' = m → sound m' ∧ advances m m') by by intros ->.
  destruct (in_bounds_spec m Hb) as (Hc & _). revert Hf. unfold master_registered.
  intros Hf. repeat (apply lookup_insert_Some in Hf as [[_ <-]|[_ Hf]]); [..|apply lookup_singleton_Some in Hf as [_ <-]];
    apply fn_cases in E as (a & u & _ & [(_ & _ & _ & ->)|(_ & r & Hm & _)]); try by apply Hsame.
  - rewrite main_ask_for_kv in Hm. revert Hm. unfold Master.AskForKV. pose proof (info_sound m a S). pose proof (info_advances m a).
    destruct (Master.getInfoByInum m a). by intros [= _ _ <-].
  - destruct a as (p & nm & d & sz). rewrite main_ask_for_ino in Hm. apply bind_Done_inv in Hm as ([[ino addr] m1] & E & [= _ _ <-]).
    by destruct (ask_ok _ _ _ _ _ _ _ _ E S Hc) as (? & ? & _).
  - destruct a as (addr & sz). rewrite main_regist in Hm. apply bind_Done_inv in Hm as ([id m1] & E & [= _ _ <-]).
    by destruct (regist_ok _ _ _ _ _ E S) as (? & ? & _).
  - injection Hm as _ _ <-. by apply Hsame.
  - injection Hm as _ _ <-. by apply Hsame.
Qed.

Lemma master_behaves v p f : hs v !! p = Some f → behaves in_bounds master_ok f.
Proof.
  intros Hf m u ret rep m' Hm E Hin.
  assert (master_ok m') as Hm' by (eapply (master_ran (mkRun 0 0 p u ret rep v)); [by exists f|done]).
  enough (framed rep ∧ - 2 ^ 31 ≤ ret < 2 ^ 31) as [? ?] by by split.
  destruct Hm as [S Hb]. pose proof (in_bounds_spec m Hb) as (Hc & _ & Ha). revert Hf. unfold master_registered.
  intros Hf. repeat (apply lookup_insert_Some in Hf as [[_ <-]|[_ Hf]]); [..|apply lookup_singleton_Some in Hf as [_ <-]];
    eapply fn_framed in E; try apply E; try apply _; intros a r H.
  - revert H. rewrite main_ask_for_kv. unfold Master.AskForKV. pose proof (ok_addr m a (conj S Hb)) as Hl.
    destruct (Master.getInfoByInum m a) as [addr m1]. cbn [fst] in Hl. intros [= <- <- _]. small_args.
  - destruct a as (p' & nm & d & sz). rewrite main_ask_for_ino in H. apply bind_Done_inv in H as ([[ino addr] m1] & E1 & [= <- <- _]).
    destruct (ask_ok _ _ _ _ _ _ _ _ E1 S Hc) as (_ & _ & _ & _ & ? & _ & _ & Haddr).
    assert (zlen addr < 2 ^ 28) by (destruct Haddr as [->|[kv Hk]]; [done|by apply (Ha _ _ Hk)]). small_args.
  - destruct a as (addr & sz). rewrite main_regist in H. apply bind_Done_inv in H as ([id m1] & E1 & [= <- <- <-]).
    destruct (regist_ok _ _ _ _ _ E1 S) as ([] & _ & -> & ?). destruct S. pose proof (in_bounds_spec m1 Hin) as (_ & ? & _). small_args.
  - injection H as <- <- _. split; [exact Hrj|]. by split.
  - injection H as <- <- _. split; [exact Hnonce|]. by split.
Qed.

(** ** The history *)

Lemma oks_along (O : nat → Master.t) (l : list (run unit)) : master_ok (O 0%nat) →
  (∀ i e, l !! i = Some e → ran hs in_bounds e (O i) (O (S i))) →
  ∀ i j, (i ≤ j ≤ length l)%nat → master_ok (O j) ∧ advances (O i) (O j).
Proof.
  intros H0 Hran. assert (Hok : ∀ j, (j ≤ length l)%nat → master_ok (O j)).
  { induction j as [|j IH]; [done|]. intros Hj. destruct (lookup_lt_is_Some_2 l j) as [e He]; [lia|].
    by apply (master_ran e (O j)); [apply Hran|apply IH; lia]. }
  intros i j. induction j as [|j IH]; intros Hij.
  - replace i with 0%nat by lia. by split.
  - split; [apply Hok; lia|]. destruct (decide (i = S j)) as [->|Hne]; [by split|].
    destruct (lookup_lt_is_Some_2 l j) as [e He]; [lia|].
    apply (advances_trans _ (O j)); [apply IH; lia|]. by apply (master_ran e (O j)); [apply Hran|apply Hok; lia].
Qed.

Lemma given_advances m m' i : advances m m' → given m i → given m' i.
Proof. intros [? _] [?|?]; [left|right]; lia. Qed.

(** The runs, for whichever client, that answered with an inode number and the
    address of its server, or with the address of the server of [ino]. *)
Definition answers_ino (e : run unit) (ino : Z) (addr : bytes) : Prop :=
  e_proc e = ask_for_ino ∧ 0 ≤ e_ret e ∧ wf (pair_ u64 str) (ino, addr) ∧ zlen addr < 2 ^ 28 ∧
  put (pair_ u64 str) (ino, addr) mar_new = Done (e_out e).
Definition answers_kv (e : run unit) (ino : Z) (addr : bytes) : Prop :=
  e_proc e = ask_for_kv ∧ 0 ≤ e_ret e ∧ reads u64 e = Some ino ∧ zlen addr < 2 ^ 28 ∧
  put str addr mar_new = Done (e_out e).

(** The calls as they are made. *)
Definition asked_ino (s : net Master.t unit) k q p nm (d : bool) sz st ino addr : Prop :=
  returned (pair_ u64 (pair_ str (pair_ bool_ u64))) (pair_ u64 str) s k q ask_for_ino (p, (nm, (d, sz))) st (Some (ino, addr)) ∧
  0 ≤ st ∧ 0 ≤ p < 2 ^ 64 ∧ zlen nm < 2 ^ 28 ∧ 0 ≤ sz < 2 ^ 64.
Definition asked_kv (s : net Master.t unit) k q ino st addr : Prop :=
  returned u64 str s k q ask_for_kv ino st (Some addr) ∧ 0 ≤ st ∧ 0 ≤ ino < 2 ^ 64.

Section call.
Context (n : Z) (sv : server Master.t) (s : net Master.t unit).
Context (I : ninv hs in_bounds master_ok n sv s) (H0 : master_ok (object sv)).
Context (O : nat → Master.t) (Hat : ∀ i m, (i ≤ length (n_log s))%nat →
  replays hs in_bounds (object sv) (take i (n_log s)) m → m = O i).
Context (Hran : ∀ i e, n_log s !! i = Some e → ran hs in_bounds e (O i) (O (S i))).

(** What a run that answered did to the master. *)
Lemma ino_run i e ino addr : master_ok (O i) → n_log s !! i = Some e → answers_ino e ino addr →
  ∃ p nm d sz, reads ino_args e = Some (p, (nm, (d, sz))) ∧ Master.AskForIno (O i) p nm d sz = Done (ino, addr, O (S i)).
Proof.
  intros [So Hb] He (Hp & Hret & Hw & Hl & Hput). destruct (Hran i e He) as (f & Hf & E & _). rewrite Hp in Hf.
  injection Hf as <-. apply (fn_ran ino_args (pair_ u64 str)) in E as (a & u & [ino' addr'] & Hg & Hok & Hm & Hput' & _); [|done].
  destruct a as (p & nm & d & sz). rewrite main_ask_for_ino in Hm. apply bind_Done_inv in Hm as ([[i' a'] m1] & E & [= _ <- <- <-]).
  destruct (in_bounds_spec _ Hb) as (Hc & _ & Ha). destruct (ask_ok _ _ _ _ _ _ _ _ E So Hc) as (_ & _ & _ & _ & ? & _ & _ & Haddr).
  assert (zlen a' < 2 ^ 28) by (destruct Haddr as [->|[kv Hk]]; [done|by apply (Ha _ _ Hk)]).
  assert ((i', a') = (ino, addr)) as [= <- <-] by (eapply (put_inj (pair_ u64 str)); [exact Hput'|exact Hput|..]; small_args; apply Hw).
  exists p, nm, d, sz. split; [|done]. by eapply reads_of.
Qed.

Lemma kv_run i e ino addr : master_ok (O i) → n_log s !! i = Some e → answers_kv e ino addr →
  (Master.AskForKV (O i) ino).1 = addr.
Proof.
  intros Hok He (Hp & Hret & Hr & Hl & Hput). destruct (Hran i e He) as (f & Hf & E & _). rewrite Hp in Hf.
  injection Hf as <-. apply (fn_ran u64 str) in E as (a & u & addr' & Hg & Hu & Hm & Hput' & _); [|done].
  assert (reads u64 e = Some a) as Ha by (by eapply reads_of). rewrite Ha in Hr. injection Hr as ->.
  rewrite main_ask_for_kv in Hm. pose proof (ok_addr (O i) ino Hok) as Hl'. unfold Master.AskForKV in *.
  destruct (Master.getInfoByInum (O i) ino) as [a1 m1]. cbn [fst] in *. injection Hm as _ <- _.
  eapply (put_inj str); [exact Hput'|exact Hput|..]; small_args.
Qed.

(** The calls of the client are such runs. *)
Lemma asked_ino_ran k q p nm d sz st ino addr : asked_ino s k q p nm d sz st ino addr →
  ∃ i e, n_log s !! i = Some e ∧ e_clt e = n ∧ e_id e = k_id k ∧ (k_since k ≤ i < q_until q)%nat ∧ answers_ino e ino addr.
Proof.
  intros (Hq & Hst & Hp & Hnm & Hsz).
  destruct (returned_ran hs in_bounds master_ok master_behaves ino_args (pair_ u64 str) (0, [])
    (λ _ s '(a1, (a2, (a3, a4))), master_main.AskForIno s a1 a2 a3 a4) (λ _ s, s) n sv s k q ask_for_ino (p, (nm, (d, sz))) st
    (Some (ino, addr)) I H0 Hq Hst) as (i & e & s1 & r & s2 & He & Hi & Hc & Hid & Hpr & _ & R1 & E & Hret & Hput & Hw & Er & R2).
  - small_args.
  - small_args.
  - reflexivity.
  - intros v m ret [ino' addr'] m' [S Hb] E _. rewrite main_ask_for_ino in E. apply bind_Done_inv in E as ([[i a] m1] & E1 & [= <- <- <- <-]).
    destruct (in_bounds_spec m Hb) as (Hc & _ & Ha). destruct (ask_ok _ _ _ _ _ _ _ _ E1 S Hc) as (_ & _ & _ & _ & ? & _ & _ & Haddr).
    assert (zlen a < 2 ^ 28) by (destruct Haddr as [->|[kv Hk]]; [done|by apply (Ha _ _ Hk)]). small_args.
  - injection Er as <-. exists i, e. split_and!; try done || lia.
    enough (zlen addr < 2 ^ 28) by (split; [done|]; split; [lia|]; by split).
    destruct (replays_keeps hs in_bounds master_ok master_behaves _ _ _ R1 H0) as [So Hb].
    rewrite main_ask_for_ino in E. apply bind_Done_inv in E as ([[i' a'] m1] & E & [= _ <- <- _]).
    destruct (in_bounds_spec _ Hb) as (Hc' & _ & Ha). destruct (ask_ok _ _ _ _ _ _ _ _ E So Hc') as (_ & _ & _ & _ & _ & _ & _ & [->|[kv Hk]]);
      [done|by apply (Ha _ _ Hk)].
Qed.

Lemma asked_kv_ran k q ino st addr : asked_kv s k q ino st addr →
  ∃ i e, n_log s !! i = Some e ∧ e_clt e = n ∧ e_id e = k_id k ∧ (k_since k ≤ i < q_until q)%nat ∧ answers_kv e ino addr.
Proof.
  intros (Hq & Hst & Hino).
  assert (Hsmall : ∀ (m : Master.t) ret a m', master_ok m → master_main.AskForKV m ino [] = Done (ret, a, m') → zlen a < 2 ^ 28).
  { intros m ret a m' Hm. rewrite main_ask_for_kv. unfold Master.AskForKV. pose proof (ok_addr m ino Hm) as Hl.
    destruct (Master.getInfoByInum m ino) as [a1 m1]. cbn [fst] in Hl. by intros [= <- <- _]. }
  destruct (returned_ran hs in_bounds master_ok master_behaves u64 str [] (λ _, master_main.AskForKV) (λ _ s, s) n sv s k q ask_for_kv
    ino st (Some addr) I H0 Hq Hst) as (i & e & s1 & r & s2 & He & Hi & Hc & Hid & Hpr & (u & Hg & Hok) & R1 & E & Hret & Hput & Hw & Er & _).
  - exact Hino.
  - done.
  - reflexivity.
  - intros v m ret a m' Hm E _. pose proof (Hsmall _ _ _ _ Hm E). small_args.
  - injection Er as <-. exists i, e. split_and!; try done || lia.
    enough (zlen addr < 2 ^ 28) by (split; [done|]; split; [lia|]; split; [by eapply reads_of|by split]).
    eapply Hsmall; [|exact E]. exact (replays_keeps hs in_bounds master_ok master_behaves _ _ _ R1 H0).
Qed.

End call.

End master.

Lemma make_ok m : Master.make = Done m → master_ok m.
Proof.
  unfold Master.make. intros (tr & _ & [= <-])%bind_Done_inv. split; [|done]. by split; cbn.
Qed.

(** What is proved of the master's history. *)
Record ino_history (n : Z) (s : net Master.t unit) : Prop := {
  ih_kind i e ino addr : n_log s !! i = Some e → answers_ino e ino addr →
    ∃ p nm d sz, reads ino_args e = Some (p, (nm, (d, sz))) ∧ d = (ino <? 2 ^ 31);
  ih_unique i j e e' ino addr ino' addr' : n_log s !! i = Some e → answers_ino e ino addr →
    n_log s !! j = Some e' → answers_ino e' ino' addr' → i ≠ j → ino ≠ ino';
  ih_stays i j e e' ino addr addr' : n_log s !! i = Some e → answers_ino e ino addr →
    n_log s !! j = Some e' → answers_kv e' ino addr' → (i < j)%nat → addr ≠ [] → addr' = addr;
  ih_once i j e e' : n_log s !! i = Some e → n_log s !! j = Some e' → e_clt e ≠ 0 → e_clt e = e_clt e' → e_id e = e_id e' → i = j;
  ih_ino k q p nm d sz st ino addr : asked_ino s k q p nm d sz st ino addr →
    ∃ i e, n_log s !! i = Some e ∧ e_clt e = n ∧ e_id e = k_id k ∧ (k_since k ≤ i < q_until q)%nat ∧ answers_ino e ino addr;
  ih_kv k q ino st addr : asked_kv s k q ino st addr →
    ∃ i e, n_log s !! i = Some e ∧ e_clt e = n ∧ e_id e = k_id k ∧ (k_since k ≤ i < q_until q)%nat ∧ answers_kv e ino addr }.

(** With every handler one step. *)
Lemma history_of_inodes rj nonce count n lossy sv s :
  - 2 ^ 31 ≤ rj < 2 ^ 31 → - 2 ^ 31 ≤ nonce < 2 ^ 31 → 0 < n < 2 ^ 32 → master_main.main rj nonce count = Done sv →
  nreach (λ _ : unit, handlers sv) in_bounds (ninit n lossy sv) s → ino_history n s.
Proof.
  intros Hrj Hno Hn Hsv R. destruct (master_main_registers rj nonce count) as (m & sv' & Hm & Hsv' & Hu & Ho & Hh).
  rewrite Hsv in Hsv'. injection Hsv' as <-. rewrite Hh in R.
  assert (H0 : master_ok (object sv)) by (rewrite Ho; by apply make_ok).
  assert (I := nreach_inv _ _ master_ok n Hn lossy sv (master_behaves rj nonce Hrj Hno) nonce s Hu H0 R).
  destruct (replays_states _ _ _ _ _ (ni_replays _ _ _ _ _ _ I)) as (O & HO0 & _ & Hran & _). rewrite <- HO0 in H0.
  pose proof (oks_along rj nonce O (n_log s) H0 Hran) as Hok. rewrite HO0 in H0.
  assert (Hone : ∀ i e ino addr, n_log s !! i = Some e → answers_ino e ino addr →
    (∃ p nm d sz, reads ino_args e = Some (p, (nm, (d, sz))) ∧ d = (ino <? 2 ^ 31)) ∧
    ¬ given (O i) ino ∧ given (O (S i)) ino ∧ (addr ≠ [] → placed (O (S i)) ino addr)).
  { intros i e ino addr He Ha. pose proof (lookup_lt_Some _ _ _ He) as Hl. destruct (Hok i i ltac:(lia)) as [Hi _].
    destruct (ino_run rj nonce s O Hran i e ino addr Hi He Ha) as (p & nm & d & sz & Hr & E). destruct Hi as [So Hb].
    destruct (in_bounds_spec _ Hb) as (Hc & _). destruct (ask_ok _ _ _ _ _ _ _ _ E So Hc) as (_ & _ & ? & ? & _ & ? & ? & _). eauto 10. }
  assert (Hlt : ∀ i j e e' ino addr addr', n_log s !! i = Some e → answers_ino e ino addr → n_log s !! j = Some e' →
    answers_ino e' ino addr' → ¬ (i < j)%nat).
  { intros i j e e' ino addr addr' He Ha He' Ha' Hij. apply lookup_lt_Some in He' as Hj.
    destruct (Hone _ _ _ _ He Ha) as (_ & _ & Hg & _). destruct (Hone _ _ _ _ He' Ha') as (_ & Hnew & _).
    apply Hnew. apply (given_advances (O (S i))); [apply Hok; lia|done]. }
  constructor.
  - intros i e ino addr He Ha. by destruct (Hone _ _ _ _ He Ha) as (? & _).
  - intros i j e e' ino addr ino' addr' He Ha He' Ha' Hne <-. destruct (Nat.lt_trichotomy i j) as [?|[?|?]]; [|done|];
      [by eapply (Hlt i j)|by eapply (Hlt j i)].
  - intros i j e e' ino addr addr' He Ha He' Ha' Hij Hne. apply lookup_lt_Some in He' as Hj.
    destruct (Hone _ _ _ _ He Ha) as (_ & _ & _ & Hp). rewrite <- (kv_run rj nonce s O Hran j e' ino addr' (proj1 (Hok j j ltac:(lia))) He' Ha').
    apply info_placed. destruct (Hok (S i) j ltac:(lia)) as [_ [_ Hadv]]. by apply Hadv, Hp.
  - apply (ni_served _ _ _ _ _ _ I).
  - exact (asked_ino_ran rj nonce Hrj Hno n sv s I H0).
  - exact (asked_kv_ran rj nonce Hrj Hno n sv s I H0).
Qed.

(** ** The handlers in sections *)

Section codes.
Context (rj nonce : Z).
Abbreviation mcode := (code Master.t Master.mutex Master.place).

(** [master_protocol::OK] and the answer. *)
Definition answering {R} (c : mcode R) : mcode (Z * R) := andthen c (λ r, Ret (Done (0, r))).

(** The handler objects that [main] registers, in their sections. *)
Definition master_codes : gmap Z (unm → mcode (Z * mar)) :=
  <[ask_for_kv := fn_code u64 str [] (λ ino _, answering (Master.AskForKV_sections ino))]>
   (<[ask_for_ino := fn_code ino_args (pair_ u64 str) (0, [])
        (λ '(parent, (path, (is_dir, sz))) _, answering (Master.AskForIno_sections parent path is_dir sz))]>
    (<[regist := fn_code (pair_ str u64) i32 rj (λ '(addr, sum) _, answering (Master.Regist_sections addr sum))]>
     (<[heart_beat := fn_code server_info i32 rj (λ _ r, Ret (Done (0, r)))]>
       {[bind_proc := bind_code nonce]}))).

(** Those that look at the master's maps outside a mutex. *)
Definition unguarded (p : Z) : bool := (p =? ask_for_ino) || (p =? ask_for_kv) || (p =? regist).

Lemma alone_answering {R} (c : mcode R) m : alone (answering c) m = '(r, m) ← alone c m; Done ((0, r), m).
Proof. unfold answering. rewrite alone_andthen. by destruct (alone c m) as [[r m']| | |]. Qed.

Lemma master_codes_alone p c : master_codes !! p = Some c → ∃ f, master_registered rj nonce !! p = Some f ∧
  ∀ u s, f s u mar_new = '((b, m), s) ← alone (c u) s; Done (b, m, s).
Proof.
  unfold master_codes. intros Hc. repeat (apply lookup_insert_Some in Hc as [[<- <-]|[_ Hc]]);
    [..|apply lookup_singleton_Some in Hc as [<- <-]]; (eexists; split; [reflexivity|]); intros u s; [..|apply alone_bind];
    apply alone_fn; intros s1 a; cbv beta iota.
  - rewrite alone_answering. unfold master_main.AskForKV. by destruct (alone _ s1) as [[? ?]| | |].
  - destruct a as (p & nm & d & sz). rewrite alone_answering. unfold master_main.AskForIno. by destruct (alone _ s1) as [[? ?]| | |].
  - destruct a as (addr & sum). rewrite alone_answering. unfold master_main.Regist. by destruct (alone _ s1) as [[? ?]| | |].
  - done.
Qed.

(** The others touch nothing. *)
Lemma master_codes_single p c u : master_codes !! p = Some c → unguarded p = false →
  single (c u) ∧ held Master.ino_count_mutex_ (c u).
Proof.
  unfold master_codes. intros Hc Hp. repeat (apply lookup_insert_Some in Hc as [[<- <-]|[_ Hc]]); [done..| |];
    [|apply lookup_singleton_Some in Hc as [<- <-]]; (split; [apply fn_code_single|apply fn_code_held]); done.
Qed.

End codes.

(** C6: Inode numbers are unique and inodes stay where they are, over any network, as
    long as the master's handlers do not overlap.  However requests and replies are
    lost, repeated and reordered, and whatever clients and storage nodes ask, no two
    of [AskForIno], [AskForKV] and [Regist] being under way at once: no two sections race; of the runs of [AskForIno], for
    whichever clients, no two answer with the same number, and the number tells
    directories from files; a later run of [AskForKV] for a number answers with the
    address that was given with it, if there was one; no request runs twice; and every
    call of the client that returns is such a run, between its beginning and its
    return.  The condition is needed ([overlapping_handlers_race]). *)
Theorem inodes_unique_and_stable rj nonce count n lossy sv fs :
  - 2 ^ 31 ≤ rj < 2 ^ 31 → - 2 ^ 31 ≤ nonce < 2 ^ 31 → 0 < n < 2 ^ 32 → master_main.main rj nonce count = Done sv →
  freach (λ _ : unit, master_codes rj nonce) unguarded in_bounds (ninit n lossy sv) fs →
  let s := coarse fs in
  (∀ w, fstep (λ _ : unit, master_codes rj nonce) fs (FEnter w) ≠ Some Undef) ∧
  (∀ i e ino addr, n_log s !! i = Some e → answers_ino e ino addr →
     (∃ p nm d sz, reads ino_args e = Some (p, (nm, (d, sz))) ∧ d = (ino <? 2 ^ 31)) ∧
     (∀ j e' ino' addr', n_log s !! j = Some e' → answers_ino e' ino' addr' → i ≠ j → ino ≠ ino') ∧
     (∀ j e' addr', n_log s !! j = Some e' → answers_kv e' ino addr' → (i < j)%nat → addr ≠ [] → addr' = addr)) ∧
  (∀ i j e e', n_log s !! i = Some e → n_log s !! j = Some e' → e_clt e ≠ 0 → e_clt e = e_clt e' → e_id e = e_id e' → i = j) ∧
  (∀ k q p nm d sz st ino addr, asked_ino s k q p nm d sz st ino addr →
     ∃ i e, n_log s !! i = Some e ∧ e_clt e = n ∧ e_id e = k_id k ∧ (k_since k ≤ i < q_until q)%nat ∧ answers_ino e ino addr) ∧
  (∀ k q ino st addr, asked_kv s k q ino st addr →
     ∃ i e, n_log s !! i = Some e ∧ e_clt e = n ∧ e_id e = k_id k ∧ (k_since k ≤ i < q_until q)%nat ∧ answers_kv e ino addr).
Proof.
  intros Hrj Hno Hn Hsv R s. destruct (master_main_registers rj nonce count) as (m & sv' & Hm & Hsv' & _ & Ho & Hh).
  pose proof Hsv as Hsv2. rewrite Hsv in Hsv'. injection Hsv' as <-.
  assert (Hin : in_bounds (n_obj (ninit (World := unit) n lossy sv)) = true).
  { change (in_bounds (object sv) = true). rewrite Ho. by apply make_ok. }
  pose proof (λ (v : unit) p c, master_codes_alone rj nonce p c) as Ha. rewrite <- Hh in Ha.
  pose proof (λ (v : unit) p c u Hc Hp, proj1 (master_codes_single rj nonce p c u Hc Hp)) as H1.
  split; [intros w; apply (sections_never_race _ unguarded in_bounds _ _ Hin Ha H1 Master.ino_count_mutex_ fs w); [|exact R];
    intros v p c u Hc Hp; exact (proj2 (master_codes_single rj nonce p c u Hc Hp))|].
  destruct (sections_coarse _ unguarded in_bounds _ _ Hin Ha H1 fs R) as (c & Rc & Hc & _).
  pose proof (history_of_inodes rj nonce count n lossy sv c Hrj Hno Hn Hsv2 Rc) as H.
  revert H. generalize (n_obj c) Hc. intros o -> H. destruct H as [Hk Hu Hs Honce Hi Hkv].
  split; [|by split_and!]. intros i e ino addr He Hans. split; [by eapply Hk|]. split.
  - intros j e' ino' addr' He' Hans' Hne. by apply (Hu i j e e' ino addr ino' addr').
  - intros j e' addr' He' Hans' Hij Hna. by apply (Hs i j e e' ino addr addr').
Qed.

(** A storage node registers; two threads ask for inodes at once, and one of the
    requests comes twice; another client asks too; then the server of the first inode
    is asked for. *)
Definition ino_arg (p : Z) (nm : bytes) (d : bool) (sz : Z) : mar :=
  match put ino_args (p, (nm, (d, sz))) mar_new with Done m => m | _ => mar_new end.
Definition kv_arg (ino : Z) : mar := match put u64 ino mar_new with Done m => m | _ => mar_new end.
Definition request_of {A} (c : codec A) (x p : Z) (a : A) : bytes :=
  match (m ← put c a mar_new; pack_req_header (mkReq x p 12 77 0) m) with Done m => data m | _ => [] end.
Definition node_regist (x : Z) : bytes := request_of (pair_ str u64) x regist (bs "s:1", 100).
Definition other_ino (x : Z) (nm : bytes) : bytes := request_of ino_args x ask_for_ino (1, (nm, (false, 3))).
Definition other_kv (x : Z) : bytes := request_of u64 x ask_for_kv 2.
Definition ino_server : server Master.t :=
  match master_main.main 0 77 0 with
  | Done sv => sv
  | _ => mkServer (rpcs.mk 77 ∅ ∅ 1 ∅ 0 0 ∅) ∅ (Master.mk 2 ∅ ∅ ∅ ∅ 0 [] (PrefixTree.mk ∅ 1 0 [] false []))
  end.
Abbreviation ino_codes := (λ _ : unit, master_codes 0 77).
(** A handler of [k] sections, from its beginning to its end. *)
Definition through (k w : nat) : list (fevent unit) := FCall w tt :: concat (replicate k [FEnter w; FExit w]).
Definition registered_node : list (fevent unit) :=
  (FNet <$> [NOther 5 (node_regist 3)]) ++ through 3 5 ++ (FNet <$> [NReply 5; NSend 5]).
Definition ino_events : list (fevent unit) :=
  (FNet <$> [NBegin 0 1 (int_arg 0); NTransmit 0; NArrive 0 0]) ++ through 0 0 ++
  (FNet <$> [NReply 0; NSend 0; NDeliver 0; NEnd 0; NBound 0 77]) ++ registered_node ++
  (FNet <$> [NBegin 1 ask_for_ino (ino_arg 1 (bs "a") false 7); NBegin 2 ask_for_ino (ino_arg 1 (bs "b") true 0);
     NTransmit 1; NTransmit 2; NTransmit 1; NArrive 0 2]) ++ through 2 0 ++ (FNet <$> [NArrive 1 3]) ++ through 2 1 ++
  (FNet <$> [NReply 1; NSend 1; NOther 5 (other_ino 4 (bs "c"))]) ++ through 2 5 ++
  (FNet <$> [NArrive 2 1; NSend 2; NReply 0; NSend 0; NDeliver 2; NDeliver 3; NDeliver 1; NEnd 1; NEnd 2;
     NBegin 1 ask_for_kv (kv_arg (2 ^ 31 + 3)); NTransmit 1; NArrive 0 4]) ++ through 1 0 ++
  (FNet <$> [NReply 0; NSend 0; NDeliver 4; NEnd 1]).
Definition ino_start : fnet Master.t unit Master.mutex Master.place := mkFine (ninit 9 false ino_server) ∅.
Definition ino_end : fnet Master.t unit Master.mutex Master.place :=
  match frun ino_codes ino_start ino_events with Some (Done s) => s | _ => ino_start end.

Lemma inodes_unique_and_stable_witness :
  let s := coarse ino_end in
  let q i := nth i (n_returns s) (mkReturn 0 0 unm_none 0) in
  let k i := nth i (n_calls s) (mkCall 0 0 mar_new 0) in
  let e := nth 4 (n_log s) (mkRun 0 0 0 unm_none 0 mar_new tt) in
  asked_ino s (k 2%nat) (q 2%nat) 1 (bs "a") false 7 0 (2 ^ 31 + 3) (bs "s:1") ∧
  asked_ino s (k 1%nat) (q 1%nat) 1 (bs "b") true 0 0 2 (bs "s:1") ∧
  asked_kv s (k 0%nat) (q 0%nat) (2 ^ 31 + 3) 0 (bs "s:1") ∧
  (e_clt e = 12 ∧ n_log s !! 4%nat = Some e ∧ answers_ino e (2 ^ 31 + 4) (bs "s:1")) ∧
  ∃ i e', n_log s !! i = Some e' ∧ e_clt e' = 9 ∧ answers_ino e' (2 ^ 31 + 3) (bs "s:1") ∧ (i ≠ 4%nat → 2 ^ 31 + 3 ≠ 2 ^ 31 + 4).
Proof.
  intros s q k e.
  assert (Ha : asked_ino s (k 2%nat) (q 2%nat) 1 (bs "a") false 7 0 (2 ^ 31 + 3) (bs "s:1")).
  { split; [|cbn; lia]. split_and!; [apply list_elem_of_lookup_2 with (i := 2%nat)| | |apply list_elem_of_lookup_2 with (i := 2%nat)|..];
      vm_compute; reflexivity. }
  assert (Hb : asked_ino s (k 1%nat) (q 1%nat) 1 (bs "b") true 0 0 2 (bs "s:1")).
  { split; [|cbn; lia]. split_and!; [apply list_elem_of_lookup_2 with (i := 1%nat)| | |apply list_elem_of_lookup_2 with (i := 1%nat)|..];
      vm_compute; reflexivity. }
  assert (Hc : asked_kv s (k 0%nat) (q 0%nat) (2 ^ 31 + 3) 0 (bs "s:1")).
  { split; [|cbn; lia]. split_and!; [apply list_elem_of_lookup_2 with (i := 0%nat)| | |apply list_elem_of_lookup_2 with (i := 0%nat)|..];
      vm_compute; reflexivity. }
  assert (He : n_log s !! 4%nat = Some e) by (vm_compute; reflexivity).
  assert (Hans : answers_ino e (2 ^ 31 + 4) (bs "s:1")).
  { split; [vm_compute; reflexivity|]. split; [vm_compute; discriminate|]. split; [small_args|]. split; [done|vm_compute; reflexivity]. }
  split; [exact Ha|]. split; [exact Hb|]. split; [exact Hc|]. split; [split; [vm_compute; reflexivity|by split]|].
  destruct (master_main_registers 0 77 0) as (m & sv & _ & Hsv & _).
  assert (Es : ino_server = sv) by (unfold ino_server; by rewrite Hsv).
  destruct (λ Hr Hn Hc Hm R, inodes_unique_and_stable 0 77 0 9 false ino_server ino_end Hr Hn Hc Hm R) as (_ & H1 & _ & H2 & _).
  - lia.
  - lia.
  - lia.
  - by rewrite Es.
  - apply (frun_reach _ _ _ (ninit 9 false ino_server) ino_start ino_events); [constructor|vm_compute; reflexivity|].
    unfold ino_end. by vm_compute.
  - destruct (H2 _ _ _ _ _ _ _ _ _ Ha) as (i & e' & He' & Hclt & _ & _ & Hans').
    exists i, e'. split_and!; [exact He'|exact Hclt|exact Hans'|].
    destruct (H1 i e' _ _ He' Hans') as (_ & Hu & _). exact (Hu 4%nat e _ _ He Hans).
Defined.

(** Two of the handlers that look at the master's maps, at once: for each pair, two
    workers that have just begun them get to sections that race on a [std::map] or on
    the tree. *)
Definition overlapping (b0 b1 : bytes) (l : list nat) : option (outcome (fnet Master.t unit Master.mutex Master.place)) :=
  frun ino_codes ino_start (registered_node ++ (FNet <$> [NOther 0 b0; NOther 1 b1]) ++ [FCall 0 tt; FCall 1 tt] ++
    (foldl (λ '(es, inside) w, if bool_decide (w ∈ inside) then (es ++ [FExit w], filter (λ x, x ≠ w) inside)
                               else (es ++ [FEnter w], w :: inside)) ([], []) l).1).

(** [l]: the workers in the order in which they enter and leave their sections. *)
Theorem overlapping_handlers_race :
  overlapping (other_ino 4 (bs "a")) (other_ino 5 (bs "b")) [0; 0; 0; 1]%nat = Some Undef ∧
  overlapping (other_ino 4 (bs "a")) (other_kv 5) [0; 1]%nat = Some Undef ∧
  overlapping (other_ino 4 (bs "a")) (node_regist 5) [1; 1; 1; 1; 1; 0]%nat = Some Undef ∧
  overlapping (other_kv 4) (other_kv 5) [0; 1]%nat = Some Undef ∧
  overlapping (other_kv 4) (node_regist 5) [1; 1; 1; 0]%nat = Some Undef ∧
  overlapping (node_regist 4) (node_regist 5) [0; 0; 1; 1; 0; 1]%nat = Some Undef.
Proof. vm_compute. by split_and!. Qed.
