(* ===== verification/Heartbeat.v ===== *)
(** * The heartbeat of a storage node (src/fs/info_collector.cc)

    The thread that sends the collected changes to the master every three seconds:
    it takes the report under the mutex, calls the master, and clears the
    collection without the mutex, whatever the call said.  The handlers of the node
    add changes at any time. *)

From S2P Require Import Prelude StdContainers ExtentServer.

Module heartbeat.

(** [InfoCollector] with what it registers. *)
Record KVInfo : Type := mkKV { addr : bytes; sz : Z }.

Inductive phase : Type := Idle | Calling (r : InfoCollector.ServerInfo) | Called.

Record t : Type := mk { i_ : InfoCollector.ServerInfo; kv : KVInfo; at_ : phase; received : list InfoCollector.ServerInfo }.

(** [limit_sz_] has no value before [Set]. *)
Definition make (limit_sz_ : Z) : t := mk (InfoCollector.mkInfo [] [] []) (mkKV [] limit_sz_) Idle [].

Definition Set_ (k : KVInfo) (s : t) : t := mk (i_ s) k (at_ s) (received s).

Inductive event : Type :=
  | Add (id n ty : Z) | Take | Call_ends (arrived : bool) | Clear.

(** [Get] leaves the report in the collection; a call may have reached the master
    whatever the node sees of it. *)
Definition step (e : event) (s : t) : option t :=
  match e, at_ s with
  | Add id n ty, _ => Some (mk (InfoCollector.AddDirtyData (i_ s) id n ty) (kv s) (at_ s) (received s))
  | Take, Idle => let r := InfoCollector.Get (i_ s) in Some (mk r (kv s) (Calling r) (received s))
  | Call_ends arrived, Calling r => Some (mk (i_ s) (kv s) Called (if arrived then received s ++ [r] else received s))
  | Clear, Called => Some (mk (InfoCollector.clear (i_ s)) (kv s) Idle (received s))
  | _, _ => None
  end.

Fixpoint run (es : list event) (s : t) : option t :=
  match es with [] => Some s | e :: es => s ← step e s; run es s end.

End heartbeat.
Import heartbeat.

(** ** What the master learns *)

(** The changes since the last [Clear], and what a report must say of them. *)
Definition since (l : list (Z * (Z * Z))) (e : event) : list (Z * (Z * Z)) :=
  match e with Add id n ty => l ++ [(id, (n, ty))] | Clear => [] | _ => l end.

Definition says (i : InfoCollector.ServerInfo) (l : list (Z * (Z * Z))) : Prop :=
  ∀ k, om_find k (report i) = first_of k l.

(** The reports of a run: one for every call that arrives, of the changes between
    the last [Clear] and its [Take]. *)
Fixpoint reports (l : list (Z * (Z * Z))) (taken : list (Z * (Z * Z))) (es : list event) : list (list (Z * (Z * Z))) :=
  match es with
  | [] => []
  | e :: es =>
      let rest := reports (since l e) (match e with Take => l | _ => taken end) es in
      match e with Call_ends true => taken :: rest | _ => rest end
  end.

Lemma first_of_app k l l' : first_of k (l ++ l') = match first_of k l with Some v => Some v | None => first_of k l' end.
Proof. induction l as [|[k' v] l IH]; [done|]. cbn. by destruct (k' =? k). Qed.

Lemma first_of_above k (l : list (Z * (Z * Z))) : Forall (λ p, k < p.1) l → first_of k l = None.
Proof. induction 1 as [|[k' v] l Hk _ IH]; [done|]. cbn in *. rewrite (proj2 (Z.eqb_neq _ _)) by lia. done. Qed.

Lemma first_of_ordered k (l : list (Z * (Z * Z))) : ordered l → first_of k l = om_find k l.
Proof.
  induction l as [|[k' v] l IH]; intros Ho; [done|]. apply StronglySorted_inv in Ho as [Ho Hf]. cbn [first_of om_find].
  rewrite (IH Ho). destruct (Z.eqb_spec k' k) as [->|Hne].
  - by rewrite !less_irrefl.
  - destruct (less k' k) eqn:E1; [done|]. destruct (less k k') eqn:E2.
    + rewrite <- (IH Ho). apply first_of_above. eapply Forall_impl; [exact Hf|]. intros [k2 v2] H. cbn in *.
      apply Z.ltb_lt in E2. apply Z.ltb_lt in H. cbn in H. lia.
    + exfalso. apply Z.ltb_ge in E1. apply Z.ltb_ge in E2. lia.
Qed.

(** The collection as a list of changes that says what a list of changes says. *)
Lemma report_list (i : InfoCollector.ServerInfo) l :
  i = add_all_dirty l → report i = l.
Proof. intros ->. rewrite add_all_dirty_report. unfold report. cbn. by rewrite !zip_fst_snd. Qed.

Lemma Get_list l : InfoCollector.Get (add_all_dirty l) = add_all_dirty (InfoCollector.collect (add_all_dirty l)).
Proof. rewrite (add_all_dirty_report (InfoCollector.collect _)). done. Qed.

Lemma Get_first l k : ordered (InfoCollector.collect (add_all_dirty l)) ∧
  om_find k (InfoCollector.collect (add_all_dirty l)) = first_of k l.
Proof.
  rewrite add_all_dirty_report. unfold InfoCollector.collect. cbn. rewrite !zip_fst_snd.
  destruct (collect_find k l [] (SSorted_nil _)) as [? ->]. done.
Qed.

(** What the node and its thread hold: [l] since the last [Clear], [taken] at the
    last [Take]. *)
Definition collected s l taken : Prop :=
  (∃ l', i_ s = add_all_dirty l' ∧ ∀ k, first_of k l' = first_of k l) ∧
  match at_ s with Calling r => says r taken | _ => True end.

Lemma step_collected s l taken e s' :
  collected s l taken → step e s = Some s' →
  collected s' (since l e) (match e with Take => l | _ => taken end) ∧
  match e with
  | Call_ends true => ∃ r, received s' = received s ++ [r] ∧ says r taken
  | _ => received s' = received s
  end.
Proof.
  intros [(l' & Hi & Hl) Hat] Hs. destruct e as [id n ty| |arrived|]; cbn [step] in Hs.
  - injection Hs as <-. split; [split|done]; cbn [i_ at_ since].
    + exists (l' ++ [(id, (n, ty))]). split.
      * unfold add_all_dirty. rewrite foldl_app. cbn. by rewrite Hi.
      * intros k. by rewrite !first_of_app, Hl.
    + done.
  - destruct (at_ s) eqn:E; try done. injection Hs as <-. split; [split|done]; cbn [i_ at_ since].
    + exists (InfoCollector.collect (add_all_dirty l')). rewrite Hi, Get_list. split; [done|].
      intros k. destruct (Get_first l' k) as [Ho Hf]. by rewrite (first_of_ordered k _ Ho), Hf.
    + intros k. rewrite Hi, Get_list, (report_list _ _ eq_refl). destruct (Get_first l' k) as [Ho Hf]. by rewrite Hf.
  - destruct (at_ s) as [|r|] eqn:E; try done. injection Hs as <-. split; [split; [by exists l'|done]|].
    destruct arrived; [by exists r|done].
  - destruct (at_ s) eqn:E; try done. injection Hs as <-. split; [split; [by exists []|done]|done].
Qed.

Lemma run_collected es : ∀ s l taken s',
  collected s l taken → run es s = Some s' →
  ∃ rs, received s' = received s ++ rs ∧ Forall2 says rs (reports l taken es).
Proof.
  induction es as [|e es IH]; intros s l taken s' Hc Hr; cbn [run] in Hr.
  { injection Hr as <-. exists []. by rewrite app_nil_r. }
  apply bind_Some in Hr as (s1 & Hs & Hr). destruct (step_collected s l taken e s1 Hc Hs) as [Hc1 Hrec].
  destruct (IH _ _ _ _ Hc1 Hr) as (rs & Hrs & Hf).
  destruct e as [id n ty| |[]|]; cbn [reports]; try (exists rs; rewrite Hrs, Hrec; by split).
  destruct Hrec as (r & Hrec & Hsays). exists (r :: rs). rewrite Hrs, Hrec, <- app_assoc. split; [done|by constructor].
Qed.

(** Whatever the order of the changes and of the steps of the heartbeat, the
    master receives one report for every call that arrives, and each says of every
    extent its first change among those recorded between the last clearing and the
    taking of the report; a change recorded while the call runs, and every change of
    a call that does not arrive, is cleared and in no report. *)
Theorem heartbeat_reports limit_sz_ es s :
  run es (make limit_sz_) = Some s →
  Forall2 says (received s) (reports [] [] es) ∧
  ∀ id n ty s', at_ s = Idle → run [Take; Add id n ty; Call_ends false; Clear] s = Some s' →
    received s' = received s ∧ i_ s' = InfoCollector.mkInfo [] [] [].
Proof.
  intros Hr. split.
  - destruct (run_collected es (make limit_sz_) [] [] s) as (rs & -> & Hf); [split; [by exists []|done]|done|done].
  - intros id n ty s' Hat. cbn [run]. unfold step at 4. rewrite Hat. by intros [= <-].
Qed.

Lemma heartbeat_reports_witness :
  let es := [Add 7 3 1; Add 7 5 2; Take; Add 8 1 1; Call_ends true; Clear; Add 9 2 1; Take; Call_ends true] in
  ∃ s, run es (make 5) = Some s ∧ Forall2 says (received s) [[(7, (3, 1)); (7, (5, 2))]; [(9, (2, 1))]].
Proof.
  intros es. destruct (run es (make 5)) as [s|] eqn:E; [|by vm_compute in E]. exists s. split; [done|].
  exact (proj1 (heartbeat_reports 5 es s E)).
Defined.
