(* ===== verification/Fifo.v ===== *)
(** * Blocking queues

    [fifo] of [rpc/fifo.h]: a queue with a limit, for any number of threads that
    wait on two condition variables.  [enq] and [deq] hold the mutex between
    their waits, so each turn of their loops is one step. *)

From S2P Require Import Prelude.

Module fifo.
Section fifo.
Context {T : Type}.

Record t : Type := mk { q_ : list T; max_ : Z }.

(** The [int] limit is converted to [unsigned int]. *)
Definition make (limit : Z) : t := mk [] (wrap32 limit).

(** What one turn of a loop comes to: the thread waits, or it returns and may
    signal the threads of the other condition. *)
Inductive turn (R : Type) : Type := Wait | Return (r : R) (signal : bool).
Arguments Wait {_}.
Arguments Return {_} _ _.

Definition enq (s : t) (e : T) (blocking : bool) : t * turn bool :=
  if (max_ s =? 0) || (zlen (q_ s) <? max_ s) then (mk (q_ s ++ [e]) (max_ s), Return true true)
  else if blocking then (s, Wait) else (s, Return false false).

Definition deq (s : t) : t * turn T :=
  match q_ s with
  | [] => (s, Wait)
  | e :: q => (mk q (max_ s), Return e (negb (max_ s =? 0) && (zlen q <? max_ s)))
  end.

(** [size] returns a [bool]. *)
Definition size (s : t) : bool := negb (zlen (q_ s) =? 0).
End fifo.
Arguments t : clear implicits.
Arguments Wait {_}.
Arguments Return {_} _ _.
End fifo.

(** ** The threads of a queue *)

Section threads.
Context {T : Type}.

(** Where a thread is; the flag of a waiting thread says that it was woken. *)
Inductive phase : Type :=
  | EnqWait (e : T) (woken : bool)
  | DeqWait (woken : bool)
  | EnqDone (ret : bool)
  | DeqDone (e : T).

(** [ins] and [outs] list what went in and came out, with the thread, in
    order. *)
Record sys : Type := mkSys {
  queue : fifo.t T; threads : gmap nat phase; ins : list (nat * T); outs : list (nat * T)
}.
Definition sys_make (limit : Z) : sys := mkSys (fifo.make limit) ∅ [] [].

Definition sleeps_enq (p : phase) : bool := match p with EnqWait _ false => true | _ => false end.
Definition sleeps_deq (p : phase) : bool := match p with DeqWait false => true | _ => false end.
Definition wake (p : phase) : phase :=
  match p with EnqWait e _ => EnqWait e true | DeqWait _ => DeqWait true | p => p end.

(** [pthread_cond_signal] wakes one of the sleeping threads, if there is one. *)
Definition signals (sleeps : phase → bool) (ts : gmap nat phase) (w : option nat) (ts' : gmap nat phase) : Prop :=
  match w with
  | Some j => ∃ p, ts !! j = Some p ∧ sleeps p = true ∧ ts' = <[j := wake p]> ts
  | None => (∀ j p, ts !! j = Some p → sleeps p = false) ∧ ts' = ts
  end.

(** A turn of [enq(e, blocking)] by thread [i], and one of [deq]. *)
Inductive enq_turn (i : nat) (e : T) (blocking : bool) (s : sys) : sys → Prop :=
  | enq_waits c : fifo.enq (queue s) e blocking = (c, fifo.Wait) →
      enq_turn i e blocking s (mkSys c (<[i := EnqWait e false]> (threads s)) (ins s) (outs s))
  | enq_fails c : fifo.enq (queue s) e blocking = (c, fifo.Return false false) →
      enq_turn i e blocking s (mkSys c (<[i := EnqDone false]> (threads s)) (ins s) (outs s))
  | enq_returns c w ts : fifo.enq (queue s) e blocking = (c, fifo.Return true true) →
      signals sleeps_deq (<[i := EnqDone true]> (threads s)) w ts →
      enq_turn i e blocking s (mkSys c ts (ins s ++ [(i, e)]) (outs s)).

Inductive deq_turn (i : nat) (s : sys) : sys → Prop :=
  | deq_waits c : fifo.deq (queue s) = (c, fifo.Wait) →
      deq_turn i s (mkSys c (<[i := DeqWait false]> (threads s)) (ins s) (outs s))
  | deq_returns c e w ts : fifo.deq (queue s) = (c, fifo.Return e true) →
      signals sleeps_enq (<[i := DeqDone e]> (threads s)) w ts →
      deq_turn i s (mkSys c ts (ins s) (outs s ++ [(i, e)]))
  | deq_quiet c e : fifo.deq (queue s) = (c, fifo.Return e false) →
      deq_turn i s (mkSys c (<[i := DeqDone e]> (threads s)) (ins s) (outs s ++ [(i, e)])).

(** A waiter that was woken is one of a blocking call; waiters may also wake up
    by themselves. *)
Inductive step (s : sys) : sys → Prop :=
  | step_enq i e blocking s' : threads s !! i = None → enq_turn i e blocking s s' → step s s'
  | step_deq i s' : threads s !! i = None → deq_turn i s s' → step s s'
  | step_enq_again i e s' : threads s !! i = Some (EnqWait e true) → enq_turn i e true s s' → step s s'
  | step_deq_again i s' : threads s !! i = Some (DeqWait true) → deq_turn i s s' → step s s'
  | step_spurious i p : threads s !! i = Some p → step s (mkSys (queue s) (<[i := wake p]> (threads s)) (ins s) (outs s)).

(** ** The invariant *)

Definition woken_enq (p : phase) : Z := match p with EnqWait _ true => 1 | _ => 0 end.
Definition woken_deq (p : phase) : Z := match p with DeqWait true => 1 | _ => 0 end.

(** Wake-ups are not lost: when a thread sleeps, there are at least as many
    threads on their way as there is work for them. *)
Record inv (s : sys) : Prop := {
  in_order : (ins s).*2 = (outs s).*2 ++ fifo.q_ (queue s);
  in_max : 0 ≤ fifo.max_ (queue s);
  in_bound : fifo.max_ (queue s) = 0 ∨ zlen (fifo.q_ (queue s)) ≤ fifo.max_ (queue s);
  in_deq i : threads s !! i = Some (DeqWait false) → zlen (fifo.q_ (queue s)) ≤ msum woken_deq (threads s);
  in_enq i e : threads s !! i = Some (EnqWait e false) →
    fifo.max_ (queue s) ≠ 0 ∧ fifo.max_ (queue s) ≤ zlen (fifo.q_ (queue s)) + msum woken_enq (threads s);
  in_inserted i : i ∈ (ins s).*1 ↔ threads s !! i = Some (EnqDone true);
  in_taken i e : (i, e) ∈ outs s ↔ threads s !! i = Some (DeqDone e);
  in_once : NoDup (ins s).*1 ∧ NoDup (outs s).*1;
}.

Lemma woken_nonneg p : 0 ≤ woken_enq p ∧ 0 ≤ woken_deq p.
Proof. destruct p as [e []|[]|b|e]; cbn; lia. Qed.
Lemma woken_enq_nonneg (ts : gmap nat phase) : 0 ≤ msum woken_enq ts.
Proof. apply msum_nonneg. apply woken_nonneg. Qed.
Lemma woken_deq_nonneg (ts : gmap nat phase) : 0 ≤ msum woken_deq ts.
Proof. apply msum_nonneg. apply woken_nonneg. Qed.

Lemma msum_set (f : phase → Z) (ts : gmap nat phase) i p : msum f (<[i := p]> ts) = msum f ts - from_option f 0 (ts !! i) + f p.
Proof. change (<[i := p]> ts) with (partial_alter (λ _, Some p) i ts). by rewrite msum_alter. Qed.

Definition finished (p : phase) : bool := match p with EnqDone _ | DeqDone _ => true | _ => false end.

(** What a signal changes. *)
Lemma signals_deq ts w ts' :
  signals sleeps_deq ts w ts' →
  (∀ j p, finished p = true ∨ (∃ e, p = EnqWait e false) → ts' !! j = Some p ↔ ts !! j = Some p) ∧
  (∀ j, ts' !! j = Some (DeqWait false) → ts !! j = Some (DeqWait false) ∧ msum woken_deq ts' = msum woken_deq ts + 1) ∧
  msum woken_enq ts' = msum woken_enq ts.
Proof.
  destruct w as [k|]; cbn.
  - intros (p & Hk & Hp & ->). destruct p as [|[]| |]; try done. cbn [wake]. split; [|split].
    + intros j p Hf. rewrite lookup_insert. case_decide as E; [subst|done]. rewrite Hk. naive_solver.
    + intros j. rewrite lookup_insert. case_decide; [done|]. intros Hj. split; [done|]. rewrite msum_set, Hk. cbn. lia.
    + rewrite msum_set, Hk. cbn. lia.
  - intros [Hno ->]. split; [done|]. split; [|done]. intros j Hj. by specialize (Hno j _ Hj).
Qed.

Lemma signals_enq ts w ts' :
  signals sleeps_enq ts w ts' →
  (∀ j p, finished p = true ∨ p = DeqWait false → ts' !! j = Some p ↔ ts !! j = Some p) ∧
  (∀ j e, ts' !! j = Some (EnqWait e false) → ts !! j = Some (EnqWait e false) ∧ msum woken_enq ts' = msum woken_enq ts + 1) ∧
  msum woken_deq ts' = msum woken_deq ts.
Proof.
  destruct w as [k|]; cbn.
  - intros (p & Hk & Hp & ->). destruct p as [e []| | |]; try done. cbn [wake]. split; [|split].
    + intros j p Hf. rewrite lookup_insert. case_decide as E; [subst|done]. rewrite Hk. naive_solver.
    + intros j e'. rewrite lookup_insert. case_decide; [done|]. intros Hj. split; [done|]. rewrite msum_set, Hk. cbn. lia.
    + rewrite msum_set, Hk. cbn. lia.
  - intros [Hno ->]. split; [done|]. split; [|done]. intros j e Hj. by specialize (Hno j _ Hj).
Qed.

(** A thread that calls, or was woken. *)
Definition ready_enq (s : sys) (i : nat) : Prop := threads s !! i = None ∨ ∃ e, threads s !! i = Some (EnqWait e true).
Definition ready_deq (s : sys) (i : nat) : Prop := threads s !! i = None ∨ threads s !! i = Some (DeqWait true).

Lemma ready_not_in s i :
  inv s → (ready_enq s i ∨ ready_deq s i) → i ∉ (ins s).*1 ∧ i ∉ (outs s).*1.
Proof.
  intros Hi Hr. split.
  - rewrite (in_inserted s Hi). destruct Hr as [[->|[e ->]]|[->| ->]]; done.
  - intros ([i' e] & -> & Hin)%list_elem_of_fmap. apply (in_taken s Hi) in Hin. cbn in Hr.
    by destruct Hr as [[Hr|[? Hr]]|[Hr|Hr]]; rewrite Hr in Hin.
Qed.

(** What is recorded of the threads that returned, when thread [i] moves to
    [p]. *)
Section records.
Context (s : sys) (i : nat) (ts' : gmap nat phase).
Hypotheses (Hi : inv s) (Hni : i ∉ (ins s).*1) (Hno : i ∉ (outs s).*1).

Lemma records_stay p :
  finished p = false ∨ p = EnqDone false → ts' = <[i := p]> (threads s) →
  (∀ j, j ∈ (ins s).*1 ↔ ts' !! j = Some (EnqDone true)) ∧
  (∀ j e, (j, e) ∈ outs s ↔ ts' !! j = Some (DeqDone e)).
Proof.
  intros Hp ->. split.
  - intros j. rewrite (in_inserted s Hi), lookup_insert. case_decide; [subst; split|done].
    + intros Hj. by rewrite <- (in_inserted s Hi) in Hj.
    + intros [= ->]. by destruct Hp.
  - intros j e. rewrite (in_taken s Hi), lookup_insert. case_decide; [subst; split|done].
    + intros Hj. rewrite <- (in_taken s Hi) in Hj. destruct Hno. apply list_elem_of_fmap. by exists (j, e).
    + intros [= ->]. by destruct Hp.
Qed.

Lemma records_enq e :
  (∀ j p, finished p = true → ts' !! j = Some p ↔ <[i := EnqDone true]> (threads s) !! j = Some p) →
  (∀ j, j ∈ (ins s ++ [(i, e)]).*1 ↔ ts' !! j = Some (EnqDone true)) ∧
  (∀ j e, (j, e) ∈ outs s ↔ ts' !! j = Some (DeqDone e)) ∧ NoDup (ins s ++ [(i, e)]).*1.
Proof.
  intros Hts. split; [|split].
  - intros j. rewrite Hts, fmap_app, elem_of_app, (in_inserted s Hi), lookup_insert by done. cbn.
    rewrite list_elem_of_singleton. case_decide; [subst; naive_solver|naive_solver].
  - intros j e'. rewrite Hts, (in_taken s Hi), lookup_insert by done. case_decide; [subst; split; [|done]|done].
    intros Hj. rewrite <- (in_taken s Hi) in Hj. destruct Hno. apply list_elem_of_fmap. by exists (j, e').
  - rewrite fmap_app. apply NoDup_app. split; [apply (in_once s Hi)|]. split; [|apply NoDup_singleton]. set_solver.
Qed.

Lemma records_deq e :
  (∀ j p, finished p = true → ts' !! j = Some p ↔ <[i := DeqDone e]> (threads s) !! j = Some p) →
  (∀ j, j ∈ (ins s).*1 ↔ ts' !! j = Some (EnqDone true)) ∧
  (∀ j e', (j, e') ∈ outs s ++ [(i, e)] ↔ ts' !! j = Some (DeqDone e')) ∧ NoDup (outs s ++ [(i, e)]).*1.
Proof.
  intros Hts. split; [|split].
  - intros j. rewrite Hts, (in_inserted s Hi), lookup_insert by done. case_decide; [subst; split; [|done]|done].
    intros Hj. by rewrite <- (in_inserted s Hi) in Hj.
  - intros j e'. rewrite Hts, elem_of_app, (in_taken s Hi), lookup_insert by done.
    rewrite list_elem_of_singleton. case_decide; [subst; split; [intros [Hj|Hj]; [|naive_solver]|naive_solver]|naive_solver].
    rewrite <- (in_taken s Hi) in Hj. destruct Hno. apply list_elem_of_fmap. by exists (j, e').
  - rewrite fmap_app. apply NoDup_app. split; [apply (in_once s Hi)|]. split; [|apply NoDup_singleton]. set_solver.
Qed.
End records.

Lemma enq_turn_ok s i e blocking s' :
  inv s → ready_enq s i → enq_turn i e blocking s s' → inv s'.
Proof.
  intros Hi Hr Ht. destruct (ready_not_in s i Hi (or_introl Hr)) as [Hni Hno].
  assert (Hwd : from_option woken_deq 0 (threads s !! i) = 0) by (by destruct Hr as [->|[? ->]]).
  assert (Hwe : from_option woken_enq 0 (threads s !! i) ≤ 1) by (by destruct Hr as [->|[? ->]]).
  destruct Ht as [c E|c E|c w ts E Hs]; unfold fifo.enq in E;
    (destruct ((fifo.max_ (queue s) =? 0) || (zlen (fifo.q_ (queue s)) <? fifo.max_ (queue s))) eqn:Ef; [|destruct blocking]); simplify_eq.
  - (* waits: the queue is full *)
    destruct (records_stay s i (<[i := EnqWait e false]> (threads s)) Hi Hni Hno (EnqWait e false)) as [H1 H2]; [by left|done|].
    split; cbn; try done; try (by apply Hi).
    + intros j. rewrite lookup_insert. case_decide; [done|]. intros Hj. pose proof (in_deq s Hi j Hj). rewrite msum_set, Hwd. cbn. lia.
    + intros j e' _. pose proof (woken_enq_nonneg (<[i:=EnqWait e false]> (threads s))). lia.
  - (* fails: the same *)
    destruct (records_stay s i (<[i := EnqDone false]> (threads s)) Hi Hni Hno (EnqDone false)) as [H1 H2]; [by right|done|].
    split; cbn; try done; try (by apply Hi).
    + intros j. rewrite lookup_insert. case_decide; [done|]. intros Hj. pose proof (in_deq s Hi j Hj). rewrite msum_set, Hwd. cbn. lia.
    + intros j e' _. pose proof (woken_enq_nonneg (<[i:=EnqDone false]> (threads s))). lia.
  - (* returns *)
    apply signals_deq in Hs as (Hfin & Hsl & Hwo).
    edestruct (records_enq s i ts Hi Hni Hno e) as (H1 & H2 & H3); [intros j p Hp; apply Hfin; by left|].
    pose proof (in_max s Hi). split; cbn; try done.
    + by rewrite fmap_app, (in_order s Hi), <- app_assoc.
    + rewrite length_app. cbn. destruct (in_bound s Hi); [by left|lia].
    + intros j Hj. destruct (Hsl j Hj) as [Hj' ->]. rewrite lookup_insert in Hj'. case_decide; [done|].
      pose proof (in_deq s Hi j Hj'). rewrite msum_set, Hwd, length_app. cbn. lia.
    + intros j e' Hj. apply Hfin in Hj; [|by right; eauto]. rewrite lookup_insert in Hj. case_decide; [done|].
      pose proof (in_enq s Hi j e' Hj). rewrite Hwo, msum_set, length_app. cbn. lia.
    + split; [done|apply Hi].
Qed.

Lemma deq_turn_ok s i s' : inv s → ready_deq s i → deq_turn i s s' → inv s'.
Proof.
  intros Hi Hr Ht. destruct (ready_not_in s i Hi (or_intror Hr)) as [Hni Hno].
  assert (Hwe : from_option woken_enq 0 (threads s !! i) = 0) by (by destruct Hr as [->| ->]).
  assert (Hwd : from_option woken_deq 0 (threads s !! i) ≤ 1) by (by destruct Hr as [->| ->]).
  pose proof (in_max s Hi) as Hm. pose proof (in_bound s Hi) as Hb. pose proof (in_order s Hi) as Ho.
  destruct Ht as [c E|c e w ts E Hs|c e E]; unfold fifo.deq in E;
    destruct (fifo.q_ (queue s)) as [|x q] eqn:Eq; simplify_eq.
  - (* waits: the queue is empty *)
    destruct (records_stay s i (<[i := DeqWait false]> (threads s)) Hi Hni Hno (DeqWait false)) as [H1 H2]; [by left|done|].
    split; cbn; rewrite ?Eq; try done; try (by apply Hi).
    + intros j _. pose proof (woken_deq_nonneg (<[i:=DeqWait false]> (threads s))). cbn. lia.
    + intros j e'. rewrite lookup_insert. case_decide; [done|]. intros Hj. pose proof (in_enq s Hi j e' Hj) as [? Hx].
      rewrite Eq in Hx. rewrite msum_set, Hwe. cbn in *. lia.
  - (* returns and signals *)
    apply signals_enq in Hs as (Hfin & Hsl & Hwo).
    edestruct (records_deq s i ts Hi Hni Hno e) as (H1 & H2 & H3); [intros j p Hp; apply Hfin; by left|].
    cbn in Hb. split; cbn; try done.
    + by rewrite Ho, fmap_app, <- app_assoc.
    + destruct Hb; [by left|lia].
    + intros j Hj. apply Hfin in Hj; [|by right]. rewrite lookup_insert in Hj. case_decide; [done|].
      pose proof (in_deq s Hi j Hj) as Hx. rewrite Eq in Hx. cbn in Hx. rewrite Hwo, msum_set. cbn. lia.
    + intros j e' Hj. destruct (Hsl j e' Hj) as [Hj' ->]. rewrite lookup_insert in Hj'. case_decide; [done|].
      pose proof (in_enq s Hi j e' Hj') as [? Hx]. rewrite Eq in Hx. cbn in Hx. rewrite msum_set, Hwe. cbn. lia.
    + split; [apply Hi|done].
  - (* returns; nobody waits for space *)
    edestruct (records_deq s i (<[i := DeqDone e]> (threads s)) Hi Hni Hno e) as (H1 & H2 & H3); [done|].
    cbn in Hb. split; cbn; try done.
    + by rewrite Ho, fmap_app, <- app_assoc.
    + destruct Hb; [by left|lia].
    + intros j. rewrite lookup_insert. case_decide; [done|]. intros Hj.
      pose proof (in_deq s Hi j Hj) as Hx. rewrite Eq in Hx. cbn in Hx. rewrite msum_set. cbn. lia.
    + intros j e'. rewrite lookup_insert. case_decide; [done|]. intros Hj.
      pose proof (in_enq s Hi j e' Hj) as [? Hx]. pose proof (woken_enq_nonneg (<[i:=DeqDone e]> (threads s))). lia.
    + split; [apply Hi|done].
Qed.

Lemma fifo_step_ok s s' : inv s → step s s' → inv s'.
Proof.
  intros Hi Hs. destruct Hs as [i e b s' Hn Ht|i s' Hn Ht|i e s' Hn Ht|i s' Hn Ht|i p Hp].
  - by eapply enq_turn_ok; [|left|].
  - by eapply deq_turn_ok; [|left|].
  - by eapply enq_turn_ok; [|right; eauto|].
  - by eapply deq_turn_ok; [|right|].
  - assert (Hf : ∀ j p0, finished p0 = true → <[i := wake p]> (threads s) !! j = Some p0 ↔ threads s !! j = Some p0).
    { intros j p0 Hp0. rewrite lookup_insert. case_decide; [subst|done]. rewrite Hp. destruct p; naive_solver. }
    assert (Hm : msum woken_deq (threads s) ≤ msum woken_deq (<[i := wake p]> (threads s)) ∧
                 msum woken_enq (threads s) ≤ msum woken_enq (<[i := wake p]> (threads s))).
    { rewrite !msum_set, Hp. destruct p as [? []|[]| |]; cbn; lia. }
    split; cbn; try apply Hi.
    + intros j. rewrite lookup_insert. case_decide; [by destruct p|]. intros Hj. pose proof (in_deq s Hi j Hj). lia.
    + intros j e. rewrite lookup_insert. case_decide; [by destruct p|]. intros Hj. pose proof (in_enq s Hi j e Hj). lia.
    + intros j. rewrite Hf by done. apply Hi.
    + intros j e. rewrite Hf by done. apply Hi.
Qed.

Lemma inv_make limit : inv (sys_make limit).
Proof.
  split; cbn; try done.
  - apply wrap_range. lia.
  - right. apply wrap_range. lia.
  - split; [by intros ?%elem_of_nil|by rewrite lookup_empty].
  - split; [by intros ?%elem_of_nil|by rewrite lookup_empty].
  - split; constructor.
Qed.
End threads.
Arguments sys : clear implicits.
Arguments phase : clear implicits.

(** C25: A queue for any number of threads.  In every state that enqueuing and
    dequeuing threads reach: the elements that came out and those in the queue
    are, in this order, the elements that went in, so each is delivered once and
    in order; the limit is kept; an [enq] returned true if and only if its
    element went in, and a [deq] returned the element it took out; and no
    wake-up is lost: while threads sleep in [deq], there are as many woken ones
    as elements, and while threads sleep in [enq], as many woken ones as free
    places. *)
Theorem queue_is_fifo {T} limit (s : sys T) :
  rtc step (sys_make limit) s →
  (ins s).*2 = (outs s).*2 ++ fifo.q_ (queue s) ∧
  (fifo.max_ (queue s) = 0 ∨ zlen (fifo.q_ (queue s)) ≤ fifo.max_ (queue s)) ∧
  (∀ i, i ∈ (ins s).*1 ↔ threads s !! i = Some (EnqDone true)) ∧
  (∀ i e, (i, e) ∈ outs s ↔ threads s !! i = Some (DeqDone e)) ∧
  NoDup (ins s).*1 ∧ NoDup (outs s).*1 ∧
  (∀ i, threads s !! i = Some (DeqWait false) → zlen (fifo.q_ (queue s)) ≤ msum woken_deq (threads s)) ∧
  (∀ i e, threads s !! i = Some (EnqWait e false) →
    fifo.max_ (queue s) - zlen (fifo.q_ (queue s)) ≤ msum woken_enq (threads s)).
Proof.
  intros Hs. assert (inv s) as Hi.
  { pose proof (inv_make (T := T) limit) as H0. induction Hs as [|s1 s2 s3 H12 _ IH]; [done|]. by apply IH, (fifo_step_ok s1). }
  split; [apply Hi|]. split; [apply Hi|]. split; [apply Hi|]. split; [apply Hi|]. split; [apply Hi|]. split; [apply Hi|].
  split; [apply Hi|]. intros i e Hj. destruct (in_enq s Hi i e Hj). lia.
Qed.

(** A thread waits on an empty queue of one place, is woken and served. *)
Definition demo_queue : sys Z :=
  mkSys (fifo.mk [] 1) (<[0%nat := DeqDone 5]> (<[0%nat := DeqWait true]> (<[1%nat := EnqDone true]> {[ 0%nat := DeqWait false ]})))
    [(1%nat, 5)] [(0%nat, 5)].

Lemma demo_queue_runs : rtc step (sys_make 1) demo_queue.
Proof.
  eapply rtc_l; [apply (step_deq _ 0); [reflexivity|by apply deq_waits]|].
  eapply rtc_l; [apply (step_enq _ 1 5 true); [reflexivity|]|].
  { eapply (enq_returns 1 5 true _ _ (Some 0%nat)); [reflexivity|]. exists (DeqWait false). split; [reflexivity|]. split; reflexivity. }
  eapply rtc_l; [apply (step_deq_again _ 0); [reflexivity|]|].
  { eapply (deq_returns 0 _ _ 5 None); [reflexivity|]. split; [|reflexivity].
    intros j p. cbn. rewrite !lookup_insert. repeat case_decide; naive_solver. }
  constructor.
Qed.

Lemma queue_is_fifo_witness :
  (ins demo_queue).*2 = (outs demo_queue).*2 ++ fifo.q_ (queue demo_queue) ∧
  ∀ i, i ∈ (ins demo_queue).*1 ↔ threads demo_queue !! i = Some (EnqDone true).
Proof.
  destruct (queue_is_fifo 1 demo_queue demo_queue_runs) as (H1 & _ & H2 & _). split; [exact H1|exact H2].
Defined.
