(* ===== verification/ThrPool.v ===== *)
(** * Thread pools

    [ThrPool] of [rpc/thr_pool.cc] on top of the queue of [Fifo]: adding jobs,
    the loop of the workers, the destructor with its poison pills.  A call of the
    queue is one step, taken when it does not wait, which [Fifo.queue_is_fifo]
    justifies: no thread sleeps while its call could go on. *)

From S2P Require Import Prelude Fifo.

Module ThrPool.
Section pool.
Context {J : Type}.

(** A [job_t] is a function with its argument; [None] is the poison pill, whose
    function is null. *)
Abbreviation job_t := (option J).

Record t : Type := mk { nthreads_ : Z; blockadd_ : bool; jobq_ : fifo.t job_t }.
Definition make (sz : Z) (blocking : bool) : t := mk sz blocking (fifo.make (100 * sz)).

(** [None] when the call waits. *)
Definition addJob (s : t) (j : J) : option (bool * t) :=
  match fifo.enq (jobq_ s) (Some j) (blockadd_ s) with
  | (_, fifo.Wait) => None
  | (q, fifo.Return r _) => Some (r, mk (nthreads_ s) (blockadd_ s) q)
  end.

(** The job, with the result of [takeJob]. *)
Definition takeJob (s : t) : option (bool * job_t * t) :=
  match fifo.deq (jobq_ s) with
  | (_, fifo.Wait) => None
  | (q, fifo.Return j _) => Some (bool_decide (is_Some j), j, mk (nthreads_ s) (blockadd_ s) q)
  end.

(** One round of the first loop of the destructor. *)
Definition add_pill (s : t) : option t :=
  match fifo.enq (jobq_ s) None true with
  | (_, fifo.Wait) => None
  | (q, fifo.Return _ _) => Some (mk (nthreads_ s) (blockadd_ s) q)
  end.

(** Where [do_worker] is, and where the destructor is. *)
Inductive worker : Type := Taking | Running (j : J) | Exited.
Inductive destructor : Type := Unused | Pills (i : Z) | Joining (i : Z) | Destroyed.

Definition do_worker (r : bool) (j : job_t) : worker :=
  match j with Some j => if r then Running j else Exited | None => Exited end.
End pool.
Arguments t : clear implicits.
Arguments worker : clear implicits.
End ThrPool.

(** ** A pool at work *)

Section runs.
Context {J : Type}.
Import ThrPool.

(** [accepted] lists the jobs that [addJob] took, [taken] what the workers took
    out, [finished] the jobs that were run to their end. *)
Record psys : Type := mkP {
  pool : ThrPool.t J; workers : list (worker J); dtor : destructor;
  accepted : list J; taken : list (option J); finished : list J
}.

Definition psys_make (sz : Z) (blocking : bool) : psys :=
  mkP (ThrPool.make sz blocking) (replicate (Z.to_nat sz) Taking) Unused [] [] [].

(** The destructor is called when no other thread uses the pool. *)
Inductive pevent : Type :=
  | PAdd (j : J) | PTake (w : nat) | PFinish (w : nat) | PDestroy | PPill | PJoin.

Definition pstep (s : psys) (e : pevent) : option psys :=
  match e with
  | PAdd j =>
      match dtor s with
      | Unused =>
          '(r, p) ← addJob (pool s) j;
          Some (mkP p (workers s) Unused (accepted s ++ if (r : bool) then [j] else []) (taken s) (finished s))
      | _ => None
      end
  | PTake w =>
      match workers s !! w with
      | Some Taking =>
          '(r, j, p) ← takeJob (pool s);
          Some (mkP p (<[w := do_worker r j]> (workers s)) (dtor s) (accepted s) (taken s ++ [j]) (finished s))
      | _ => None
      end
  | PFinish w =>
      match workers s !! w with
      | Some (Running j) =>
          Some (mkP (pool s) (<[w := Taking]> (workers s)) (dtor s) (accepted s) (taken s) (finished s ++ [j]))
      | _ => None
      end
  | PDestroy =>
      match dtor s with
      | Unused => Some (mkP (pool s) (workers s) (Pills 0) (accepted s) (taken s) (finished s))
      | _ => None
      end
  | PPill =>
      match dtor s with
      | Pills i =>
          if i <? nthreads_ (pool s) then
            p ← add_pill (pool s);
            Some (mkP p (workers s) (Pills (i + 1)) (accepted s) (taken s) (finished s))
          else Some (mkP (pool s) (workers s) (Joining 0) (accepted s) (taken s) (finished s))
      | _ => None
      end
  | PJoin =>
      match dtor s with
      | Joining i =>
          if i <? nthreads_ (pool s) then
            match workers s !! Z.to_nat i with
            | Some Exited => Some (mkP (pool s) (workers s) (Joining (i + 1)) (accepted s) (taken s) (finished s))
            | _ => None
            end
          else Some (mkP (pool s) (workers s) Destroyed (accepted s) (taken s) (finished s))
      | _ => None
      end
  end.

Definition pstep_rel (s s' : psys) : Prop := ∃ e, pstep s e = Some s'.

(** ** The invariant *)

Definition running (w : worker J) : list J := match w with Running j => [j] | _ => [] end.
Definition exited (w : worker J) : nat := match w with Exited => 1 | _ => 0 end%nat.
Definition pill (j : option J) : nat := match j with None => 1 | _ => 0 end%nat.

(** How many pills were added. *)
Definition pills (n : Z) (d : destructor) : Z :=
  match d with Unused => 0 | Pills i => i | _ => n end.

Record pinv (sz : Z) (s : psys) : Prop := {
  pi_threads : nthreads_ (pool s) = sz ∧ zlen (workers s) = sz;
  pi_queue : taken s ++ fifo.q_ (jobq_ (pool s)) =
    (Some <$> accepted s) ++ replicate (Z.to_nat (pills sz (dtor s))) None;
  pi_jobs : omap id (taken s) ≡ₚ finished s ++ concat (running <$> workers s);
  pi_exited : sum_list_with exited (workers s) = sum_list_with pill (taken s);
  pi_max : fifo.max_ (jobq_ (pool s)) = 100 * sz;
  pi_pills : 0 ≤ pills sz (dtor s) ≤ sz;
  pi_joining i : dtor s = Joining i → 0 ≤ i ≤ sz ∧
    ∀ k, (k < Z.to_nat i)%nat → workers s !! k = Some Exited;
  pi_destroyed : dtor s = Destroyed → ∀ k, (k < Z.to_nat sz)%nat → workers s !! k = Some Exited;
}.

Lemma sum_list_set {A} (f : A → nat) l w x y :
  l !! w = Some x → (sum_list_with f (<[w := y]> l) + f x = sum_list_with f l + f y)%nat.
Proof.
  revert w. induction l as [|z l IH]; intros [|w] Hw; [done|done|cbn in *; simplify_eq; lia|].
  change (<[S w := y]> (z :: l)) with (z :: <[w := y]> l). cbn [sum_list_with]. specialize (IH w Hw). lia.
Qed.

Lemma concat_set {A B} (f : A → list B) l w x y :
  l !! w = Some x → concat (f <$> <[w := y]> l) ++ f x ≡ₚ concat (f <$> l) ++ f y.
Proof.
  revert w. induction l as [|z l IH]; intros [|w] Hw; [done|done|cbn in *; simplify_eq; solve_Permutation|].
  change (<[S w := y]> (z :: l)) with (z :: <[w := y]> l). rewrite !fmap_cons. cbn [concat].
  specialize (IH w Hw). by rewrite <- !app_assoc, IH.
Qed.

Lemma enq_cases (q : fifo.t (option J)) x b c r sg :
  fifo.enq q x b = (c, fifo.Return r sg) → fifo.max_ c = fifo.max_ q ∧
  (r = true ∧ fifo.q_ c = fifo.q_ q ++ [x] ∨ r = false ∧ b = false ∧ c = q).
Proof. unfold fifo.enq. destruct (_ || _); [|destruct b]; intros; simplify_eq; cbn; auto. Qed.

Lemma deq_cases (q : fifo.t (option J)) c j sg :
  fifo.deq q = (c, fifo.Return j sg) → fifo.max_ c = fifo.max_ q ∧ fifo.q_ q = j :: fifo.q_ c.
Proof. unfold fifo.deq. destruct (fifo.q_ q); intros; by simplify_eq. Qed.

Lemma exited_set s w x y k :
  workers s !! w = Some x → x ≠ Exited → workers s !! k = Some Exited → <[w := y]> (workers s) !! k = Some Exited.
Proof. intros Hw Hx Hk. rewrite list_lookup_insert_ne; [done|congruence]. Qed.

Lemma pinv_make sz blocking : 0 ≤ sz < 2 ^ 24 → pinv sz (psys_make sz blocking).
Proof.
  intros Hsz. split; cbn; try done.
  - rewrite length_replicate. split; [done|lia].
  - by induction (Z.to_nat sz).
  - by induction (Z.to_nat sz).
  - apply wrap_small. lia.
  - lia.
Qed.

Lemma pinv_step sz s e s' : 0 ≤ sz → pinv sz s → pstep s e = Some s' → pinv sz s'.
Proof.
  intros Hsz Hi. pose proof (pi_queue sz s Hi) as Hq. destruct (pi_threads sz s Hi) as [Hn Hl].
  destruct e as [j|w|w| | |]; cbn [pstep].
  - destruct (dtor s) eqn:Hd; try done. cbn in Hq. rewrite app_nil_r in Hq. unfold addJob.
    destruct (fifo.enq _ _ _) as [q [|r sg]] eqn:E; [done|]. intros [= <-]. apply enq_cases in E as [Hm Hc].
    destruct Hi. split; cbn; try done; [|by rewrite Hm].
    destruct Hc as [[-> ->]|(-> & _ & ->)]; cbn; rewrite ?app_nil_r; [|done].
    by rewrite fmap_app, app_assoc, Hq.
  - destruct (workers s !! w) as [[]|] eqn:Hw; try done. unfold takeJob.
    destruct (fifo.deq _) as [q [|j sg]] eqn:E; [done|]. intros [= <-]. apply deq_cases in E as [Hm Hc].
    assert (Hx : ∀ k, workers s !! k = Some Exited →
      <[w := do_worker (bool_decide (is_Some j)) j]> (workers s) !! k = Some Exited) by (intros k; by eapply exited_set).
    destruct Hi. split; cbn; try done.
    + by rewrite length_insert.
    + by rewrite <- app_assoc, <- Hq, Hc.
    + rewrite omap_app, pi_jobs0. pose proof (concat_set running _ _ _ (do_worker (bool_decide (is_Some j)) j) Hw) as Hp.
      cbn in Hp. rewrite app_nil_r in Hp. rewrite Hp, app_assoc. f_equiv. by destruct j.
    + pose proof (sum_list_set exited _ _ _ (do_worker (bool_decide (is_Some j)) j) Hw) as Hs. cbn in Hs.
      rewrite sum_list_with_app, <- pi_exited0. cbn. destruct j; cbn in *; lia.
    + by rewrite Hm.
    + intros i Hd. destruct (pi_joining0 i Hd) as [? Hk]. split; [done|]. auto.
    + auto.
  - destruct (workers s !! w) as [[|j|]|] eqn:Hw; try done. intros [= <-].
    assert (Hx : ∀ k, workers s !! k = Some Exited → <[w := Taking]> (workers s) !! k = Some Exited)
      by (intros k; by eapply exited_set).
    destruct Hi. split; cbn; try done.
    + by rewrite length_insert.
    + rewrite pi_jobs0. pose proof (concat_set running _ _ _ Taking Hw) as Hp. cbn in Hp. rewrite app_nil_r in Hp.
      rewrite <- Hp. solve_Permutation.
    + pose proof (sum_list_set exited _ _ _ Taking Hw) as Hs. cbn in Hs. lia.
    + intros i Hd. destruct (pi_joining0 i Hd) as [? Hk]. split; [done|]. auto.
    + auto.
  - destruct (dtor s) eqn:Hd; try done. intros [= <-]. cbn in Hq. destruct Hi. split; cbn; done || lia.
  - destruct (dtor s) as [|i| |] eqn:Hd; try done. cbn in Hq. pose proof (pi_pills sz s Hi) as Hp. rewrite Hd in Hp. cbn in Hp.
    rewrite Hn. case_test.
    + unfold add_pill. destruct (fifo.enq _ _ _) as [q [|r sg]] eqn:E; [done|]. intros [= <-]. apply enq_cases in E as [Hm Hc].
      destruct Hc as [[-> Hc]|(_ & ? & _)]; [|done]. destruct Hi. split; cbn; try done; [|by rewrite Hm|lia].
      rewrite Hc, app_assoc, Hq, <- app_assoc. f_equal. by rewrite Z2Nat.inj_add, replicate_add by lia.
    + intros [= <-]. assert (i = sz) as -> by lia. destruct Hi. split; cbn; try done.
      intros i [= <-]. split; [lia|]. intros k Hk. lia.
  - destruct (dtor s) as [| |i|] eqn:Hd; try done. rewrite Hn. destruct (pi_joining sz s Hi i Hd) as [Hi1 Hi2]. cbn in Hq. case_test.
    + destruct (workers s !! Z.to_nat i) as [[]|] eqn:Hw; try done. intros [= <-]. destruct Hi. split; cbn; try done.
      intros i' [= <-]. split; [lia|]. intros k Hk. destruct (decide (k = Z.to_nat i)) as [->|]; [done|apply Hi2; lia].
    + intros [= <-]. assert (i = sz) as -> by lia. destruct Hi. split; cbn; try done.
Qed.

Lemma pinv_runs sz blocking s : 0 ≤ sz < 2 ^ 24 → rtc pstep_rel (psys_make sz blocking) s → pinv sz s.
Proof.
  intros Hsz Hr. pose proof (pinv_make sz blocking Hsz) as H0.
  induction Hr as [|s1 s2 s3 [e He] _ IH]; [done|]. apply IH. by eapply pinv_step; [lia|..].
Qed.

Lemma omap_pills (l : list J) n : omap id ((Some <$> l) ++ replicate n (@None J)) = l.
Proof.
  rewrite omap_app. assert (omap id (replicate n (@None J)) = []) as -> by (by induction n).
  rewrite app_nil_r. induction l as [|x l IH]; [done|]. cbn. by f_equal.
Qed.

Lemma count_pills (l : list J) n : sum_list_with pill ((Some <$> l) ++ replicate n None) = n.
Proof.
  rewrite sum_list_with_app. induction l as [|x l IH]; [|done]. cbn. induction n as [|n IH]; cbn in *; lia.
Qed.

Lemma all_exited (l : list (worker J)) :
  sum_list_with exited l = length l ↔ Forall (λ w, w = Exited) l.
Proof.
  assert (Hle : ∀ l : list (worker J), (sum_list_with exited l ≤ length l)%nat).
  { induction l0 as [|[] l0 IH]; cbn; lia. }
  induction l as [|w l IH]; cbn; [by split; [constructor|]|]. rewrite Forall_cons, <- IH. specialize (Hle l).
  destruct w; cbn; (split; [intros|intros [? ?]]); try done; try lia; (split; [done|lia]).
Qed.

(** What remains to do for the destructor. *)
Definition work (s : psys) : Z :=
  let n := nthreads_ (pool s) in
  3 * (n - pills n (dtor s)) + 2 * zlen (fifo.q_ (jobq_ (pool s))) + zlen (concat (running <$> workers s)) +
  match dtor s with Unused => n + 3 | Pills _ => n + 2 | Joining i => n - i + 1 | Destroyed => 0 end.

Lemma running_set (l : list (worker J)) w x y :
  l !! w = Some x → zlen (concat (running <$> <[w := y]> l)) + zlen (running x) = zlen (concat (running <$> l)) + zlen (running y).
Proof. intros Hw. pose proof (Permutation_length (concat_set running l w x y Hw)) as H. rewrite !length_app in H. lia. Qed.

Lemma work_decreases sz s e s' :
  pinv sz s → dtor s ≠ Unused → pstep s e = Some s' → 0 ≤ work s' < work s.
Proof.
  intros Hi Hd Hs. destruct (pi_threads sz s Hi) as [Hn Hl]. pose proof (pi_pills sz s Hi) as Hp.
  pose proof (pi_joining sz s Hi) as Hj. unfold work.
  destruct e as [j|w|w| | |]; cbn [pstep] in Hs.
  - by destruct (dtor s).
  - destruct (workers s !! w) as [[]|] eqn:Hw; try done. unfold takeJob in Hs.
    destruct (fifo.deq _) as [q [|j sg]] eqn:E; [done|]. injection Hs as <-. apply deq_cases in E as [Hm Hc].
    pose proof (running_set _ _ _ (do_worker (bool_decide (is_Some j)) j) Hw) as Hr. cbn -[insert] in *.
    rewrite Hc. cbn [length]. assert (zlen (running (do_worker (bool_decide (is_Some j)) j)) ≤ 1) by (by destruct j).
    rewrite Hn in *. destruct (dtor s) as [|i|i|]; cbn in *; [done|lia| |lia]. specialize (Hj i eq_refl). lia.
  - destruct (workers s !! w) as [[|j|]|] eqn:Hw; try done. injection Hs as <-.
    pose proof (running_set _ _ _ Taking Hw) as Hr. cbn -[insert] in *.
    rewrite Hn in *. destruct (dtor s) as [|i|i|]; cbn in *; [done|lia| |lia]. specialize (Hj i eq_refl). lia.
  - by destruct (dtor s).
  - destruct (dtor s) as [|i| |] eqn:Ed; try done. rewrite Hn in *. cbn in Hp. destruct (Z.ltb_spec i sz).
    + unfold add_pill in Hs. destruct (fifo.enq _ _ _) as [q [|r sg]] eqn:E; [done|]. injection Hs as <-.
      apply enq_cases in E as [_ [[_ Hc]|(_ & ? & _)]]; [|done]. cbn. rewrite Hc, length_app, Hn. cbn. lia.
    + injection Hs as <-. cbn. rewrite Hn. lia.
  - destruct (dtor s) as [| |i|] eqn:Ed; try done. rewrite Hn in *. specialize (Hj i eq_refl). destruct (Z.ltb_spec i sz).
    + destruct (workers s !! Z.to_nat i) as [[]|] eqn:Hw; try done. injection Hs as <-. cbn. rewrite Hn. lia.
    + injection Hs as <-. cbn. rewrite Hn. lia.
Qed.

Lemma someone_alive (l : list (worker J)) :
  (sum_list_with exited l < length l)%nat → ∃ w x, l !! w = Some x ∧ x ≠ Exited.
Proof.
  intros H. destruct (decide (Forall (λ w, exited w = 1%nat) l)) as [Ha|Ha].
  - exfalso. assert (sum_list_with exited l = length l); [|lia]. apply all_exited.
    eapply Forall_impl; [exact Ha|]. intros []; cbn; done.
  - apply not_Forall_Exists in Ha; [|apply _]. apply Exists_exists in Ha as (x & Hx & Hn).
    apply list_elem_of_lookup in Hx as [w Hw]. exists w, x. split; [done|]. intros ->. by apply Hn.
Qed.

Lemma take_enabled s w :
  workers s !! w = Some Taking → fifo.q_ (jobq_ (pool s)) ≠ [] → ∃ s', pstep s (PTake w) = Some s'.
Proof.
  intros Hw Hq. cbn [pstep]. rewrite Hw. unfold takeJob, fifo.deq. destruct (fifo.q_ _) as [|j q]; [done|]. by eexists.
Qed.

Lemma worker_enabled s w x :
  workers s !! w = Some x → x ≠ Exited → fifo.q_ (jobq_ (pool s)) ≠ [] → ∃ e s', pstep s e = Some s'.
Proof.
  intros Hw Hx Hq. destruct x as [|j|]; [|by exists (PFinish w); cbn; rewrite Hw; eexists|done].
  exists (PTake w). by apply take_enabled.
Qed.

Lemma destructor_goes_on sz s :
  0 < sz → pinv sz s → dtor s ≠ Unused → dtor s ≠ Destroyed → ∃ e s', pstep s e = Some s'.
Proof.
  intros Hsz Hi Hu Hd. destruct (pi_threads sz s Hi) as [Hn Hl].
  pose proof (f_equal (sum_list_with pill) (pi_queue sz s Hi)) as Hc. rewrite sum_list_with_app, count_pills in Hc.
  pose proof (pi_exited sz s Hi) as He.
  destruct (dtor s) as [|i|i|] eqn:Ed; [done| | |done]; cbn [pills] in Hc.
  - destruct (Z.ltb_spec i sz) as [Hlt|Hge].
    2: { exists PPill. cbn [pstep]. rewrite Ed, Hn. test_false. by eexists. }
    pose proof (pi_pills sz s Hi) as Hp. rewrite Ed in Hp. cbn in Hp.
    destruct (add_pill (pool s)) as [p|] eqn:Ea.
    + exists PPill. cbn [pstep]. rewrite Ed, Hn. test_true. rewrite Ea. by eexists.
    + destruct (someone_alive (workers s)) as (w & x & Hw & Hx); [lia|]. eapply worker_enabled; [done..|].
      intros Hq. unfold add_pill, fifo.enq in Ea. rewrite Hq, (pi_max sz s Hi) in Ea.
      assert (Ht : (Z.of_nat (length (@nil (option J))) <? 100 * sz) = true) by (apply Z.ltb_lt; cbn [length]; lia).
      by rewrite Ht, orb_true_r in Ea.
  - destruct (Z.ltb_spec i sz) as [Hlt|Hge].
    2: { exists PJoin. cbn [pstep]. rewrite Ed, Hn. test_false. by eexists. }
    destruct (pi_joining sz s Hi i Ed) as [Hi1 _].
    destruct (lookup_lt_is_Some_2 (workers s) (Z.to_nat i)) as [x Hx]; [lia|].
    assert (Hx' : x = Exited ∨ x ≠ Exited) by (destruct x; auto). destruct Hx' as [->|Nx].
    { exists PJoin. cbn [pstep]. rewrite Ed, Hn. test_true. rewrite Hx. by eexists. }
    eapply worker_enabled; [done..|]. intros Hq. rewrite Hq in Hc. cbn in Hc.
    assert (Ha : sum_list_with exited (workers s) = length (workers s)) by lia. rewrite all_exited in Ha.
    by apply Nx, (Forall_lookup_1 _ _ _ _ Ha Hx).
Qed.

Lemma destroyed_all_done sz s :
  0 < sz → pinv sz s → dtor s = Destroyed → Forall (λ w, w = Exited) (workers s) ∧ finished s ≡ₚ accepted s.
Proof.
  intros Hsz Hi Hd. destruct (pi_threads sz s Hi) as [Hn Hl].
  assert (Ha : Forall (λ w, w = Exited) (workers s)).
  { apply Forall_lookup. intros k w Hk. pose proof (lookup_lt_Some _ _ _ Hk).
    rewrite (pi_destroyed sz s Hi Hd k) in Hk by lia. by simplify_eq. }
  split; [done|]. pose proof (pi_queue sz s Hi) as Hq. rewrite Hd in Hq. cbn in Hq.
  pose proof (f_equal (sum_list_with pill) Hq) as Hc. rewrite sum_list_with_app, count_pills in Hc.
  pose proof (proj2 (all_exited _) Ha) as He. rewrite (pi_exited sz s Hi) in He.
  assert (E : fifo.q_ (jobq_ (pool s)) = []).
  { assert (Hn' : fifo.q_ (jobq_ (pool s)) = [] ∨ fifo.q_ (jobq_ (pool s)) ≠ []) by (destruct (fifo.q_ _); auto).
    destruct Hn' as [|N]; [done|]. exfalso. destruct (exists_last N) as (q & j & E).
    rewrite E in Hq, Hc. replace (Z.to_nat sz) with (Z.to_nat (sz - 1) + 1)%nat in Hq by lia.
    rewrite replicate_add, !app_assoc in Hq. apply app_inj_tail in Hq as [_ ->].
    rewrite sum_list_with_app in Hc. cbn in Hc. lia. }
  rewrite E, app_nil_r in Hq. pose proof (pi_jobs sz s Hi) as Hj. rewrite Hq, omap_pills in Hj. rewrite Hj.
  assert (concat (running <$> workers s) = []) as ->; [|by rewrite app_nil_r].
  clear -Ha. induction Ha as [|w l -> _ IH]; [done|exact IH].
Qed.
End runs.
Arguments psys : clear implicits.
Arguments pevent : clear implicits.

(** C27: A pool runs every job it accepts, once.  At any moment the jobs that
    workers have taken are the first of those accepted, in that order, and each
    of them either was run to its end or is being run by one worker.  Once the
    destructor has been called it cannot be held up: as long as it has not
    returned, a worker or the destructor can go on, and every step leaves less
    to do; and when it has returned, all workers have exited and all accepted
    jobs were run. *)
Theorem pool_runs_each_job_once {J} sz blocking (s : psys J) :
  0 < sz < 2 ^ 24 → rtc pstep_rel (psys_make sz blocking) s →
  omap id (taken s) `prefix_of` accepted s ∧
  omap id (taken s) ≡ₚ finished s ++ concat (running <$> workers s) ∧
  (dtor s ≠ ThrPool.Unused → dtor s ≠ ThrPool.Destroyed → ∃ e s', pstep s e = Some s') ∧
  (dtor s ≠ ThrPool.Unused → ∀ e s', pstep s e = Some s' → 0 ≤ work s' < work s) ∧
  (dtor s = ThrPool.Destroyed → Forall (λ w, w = ThrPool.Exited) (workers s) ∧ finished s ≡ₚ accepted s).
Proof.
  intros Hsz Hr. assert (Hi : pinv sz s) by (eapply pinv_runs; [|done]; lia). split; [|split; [|split; [|split]]].
  - pose proof (f_equal (omap id) (pi_queue sz s Hi)) as Hq. rewrite omap_app, omap_pills in Hq.
    rewrite <- Hq. by apply prefix_app_r.
  - apply (pi_jobs sz s Hi).
  - apply (destructor_goes_on sz); [lia|done].
  - intros Hd e s'. by apply work_decreases with sz.
  - apply (destroyed_all_done sz); [lia|done].
Qed.

(** One worker, two jobs, the destructor. *)
Definition demo_pool : list (pevent bytes) :=
  [PAdd (bs "a"); PAdd (bs "b"); PTake 0; PDestroy; PPill; PPill; PFinish 0; PTake 0; PFinish 0; PTake 0; PJoin; PJoin].
Definition prun {J} (s : psys J) (es : list (pevent J)) : option (psys J) :=
  foldl (λ s e, s ← s; pstep s e) (Some s) es.

Definition demo_pool_end : psys bytes := default (psys_make 1 false) (prun (psys_make 1 false) demo_pool).

Lemma pool_runs_each_job_once_witness :
  dtor demo_pool_end = ThrPool.Destroyed ∧
  Forall (λ w, w = ThrPool.Exited) (workers demo_pool_end) ∧ finished demo_pool_end ≡ₚ [bs "a"; bs "b"].
Proof.
  split; [vm_compute; reflexivity|].
  refine (proj2 (proj2 (proj2 (proj2 (pool_runs_each_job_once 1 false demo_pool_end _ _)))) _).
  - lia.
  - let rec go i := (eapply rtc_l; [exists (nth i demo_pool PJoin); vm_compute; reflexivity|]) in
    go 0%nat; go 1%nat; go 2%nat; go 3%nat; go 4%nat; go 5%nat; go 6%nat; go 7%nat; go 8%nat; go 9%nat; go 10%nat; go 11%nat.
    match goal with |- rtc _ ?s demo_pool_end => assert (s = demo_pool_end) as -> by (vm_compute; reflexivity) end. constructor.
  - vm_compute. reflexivity.
Defined.
