(* ===== verification/PollMgr.v ===== *)
(** * The poll manager

    [PollMgr], [SelectAIO] and [EPollAIO] of [rpc/pollmgr.cc]: which descriptors
    are watched, the thread that waits for them and calls the callbacks, and the
    removal of a descriptor by other threads. *)

From S2P Require Import Prelude.

Definition MAX_POLL_FDS : Z := 128.

Inductive poll_flag : Type := CB_NONE | CB_RDONLY | CB_WRONLY | CB_RDWR.
Definition flag_value (f : poll_flag) : Z :=
  match f with CB_NONE => 0 | CB_RDONLY => 1 | CB_WRONLY => 16 | CB_RDWR => 17 end.
Definition CB_MASK : Z := Z.lnot 17.

#[export] Instance poll_flag_eq_dec : EqDecision poll_flag.
Proof. solve_decision. Defined.

Module SelectAIO.

(** [pipefd] is the end of the pipe that is read, [piped] how many bytes are in
    it. *)
Record t : Type := mk { rfds_ : gset Z; wfds_ : gset Z; highfds_ : Z; pipefd : Z; piped : Z }.

Definition make (p : Z) : t := mk {[ p ]} ∅ p p 0.

Definition watch_fd (s : t) (fd : Z) (flag : poll_flag) : t :=
  let high := if highfds_ s <=? fd then fd else highfds_ s in
  match flag with
  | CB_RDONLY => mk ({[ fd ]} ∪ rfds_ s) (wfds_ s) high (pipefd s) (piped s + 1)
  | CB_WRONLY => mk (rfds_ s) ({[ fd ]} ∪ wfds_ s) high (pipefd s) (piped s + 1)
  | _ => mk ({[ fd ]} ∪ rfds_ s) ({[ fd ]} ∪ wfds_ s) high (pipefd s) (piped s + 1)
  end.

Definition is_watched (s : t) (fd : Z) (flag : poll_flag) : bool :=
  match flag with
  | CB_RDONLY => bool_decide (fd ∈ rfds_ s)
  | CB_WRONLY => bool_decide (fd ∈ wfds_ s)
  | _ => bool_decide (fd ∈ rfds_ s) && bool_decide (fd ∈ wfds_ s)
  end.

Definition newh_round (r w : gset Z) (newh i : Z) : Z :=
  if bool_decide (i ∈ r) then i else if bool_decide (i ∈ w) then i else newh.

(** The largest watched descriptor, or the pipe. *)
Definition newh (r w : gset Z) (high p : Z) : Z := foldl (newh_round r w) p (seqZ 0 (high + 1)).

Definition unwatch_fd (s : t) (fd : Z) (flag : poll_flag) : outcome (bool * t) :=
  _ ← ensure (negb (bool_decide (flag = CB_NONE)));
  let r := match flag with CB_WRONLY => rfds_ s | _ => rfds_ s ∖ {[ fd ]} end in
  let w := match flag with CB_RDONLY => wfds_ s | _ => wfds_ s ∖ {[ fd ]} end in
  let gone := negb (bool_decide (fd ∈ r)) && negb (bool_decide (fd ∈ w)) in
  let high := if gone && (fd =? highfds_ s) then newh r w (highfds_ s) (pipefd s) else highfds_ s in
  Done (gone, mk r w high (pipefd s) (if bool_decide (flag = CB_RDWR) then piped s + 1 else piped s)).

(** What [wait_ready] looks at: the copies of the sets. *)
Definition snapshot (s : t) : gset Z * gset Z * Z := (rfds_ s, wfds_ s, highfds_ s).

(** The rest of [wait_ready], when [select] says that of the copies [r] and [w]
    are ready: the byte read from the pipe, and the two lists. *)
Definition wait_ready (s : t) (r w : gset Z) (high : Z) : outcome (list Z * list Z * t) :=
  let fds := seqZ 0 (high + 1) in
  let woken := bool_decide (pipefd s ∈ r) && (0 <=? pipefd s) && (pipefd s <=? high) in
  _ ← ensure (negb woken || (0 <? piped s));
  let other fd := negb ((fd =? pipefd s) && bool_decide (fd ∈ r)) in
  Done (filter (λ fd, other fd = true ∧ fd ∈ r) fds, filter (λ fd, other fd = true ∧ fd ∈ w) fds,
        if woken then mk (rfds_ s) (wfds_ s) (highfds_ s) (pipefd s) (piped s - 1) else s).

End SelectAIO.

Module EPollAIO.

Definition EPOLLIN : Z := 1.
Definition EPOLLOUT : Z := 4.
Definition EPOLLET : Z := 2 ^ 31.

Inductive ctl : Type := EPOLL_CTL_ADD | EPOLL_CTL_MOD | EPOLL_CTL_DEL.

(** [interest] is what the kernel keeps for the epoll descriptor. *)
Record t : Type := mk { fdstatus_ : gmap Z Z; interest : gmap Z Z }.
Definition make : t := mk ∅ ∅.

Definition status (s : t) (fd : Z) : Z := default 0 (fdstatus_ s !! fd).

(** [epoll_ctl] fails when it adds what is there, or changes what is not. *)
Definition epoll_ctl (k : gmap Z Z) (op : ctl) (fd events : Z) : bool * gmap Z Z :=
  match op, k !! fd with
  | EPOLL_CTL_ADD, None | EPOLL_CTL_MOD, Some _ => (true, <[fd := events]> k)
  | EPOLL_CTL_DEL, Some _ => (true, delete fd k)
  | _, _ => (false, k)
  end.

Definition events_of (st : Z) : Z :=
  Z.lor (Z.lor EPOLLET (if Z.land st (flag_value CB_RDONLY) =? 0 then 0 else EPOLLIN))
        (if Z.land st (flag_value CB_WRONLY) =? 0 then 0 else EPOLLOUT).

Definition watch_fd (s : t) (fd : Z) (flag : poll_flag) : outcome t :=
  _ ← ensure (fd <? MAX_POLL_FDS);
  let op := if status s fd =? 0 then EPOLL_CTL_ADD else EPOLL_CTL_MOD in
  let st := Z.lor (status s fd) (flag_value flag) in
  let ev := events_of st in
  _ ← ensure (negb (bool_decide (flag = CB_RDWR)) || (ev =? Z.lor EPOLLET (Z.lor EPOLLIN EPOLLOUT)));
  let '(ok, k) := epoll_ctl (interest s) op fd ev in
  _ ← ensure ok;
  Done (mk (<[fd := st]> (fdstatus_ s)) k).

Definition unwatch_fd (s : t) (fd : Z) (flag : poll_flag) : outcome (bool * t) :=
  _ ← ensure (fd <? MAX_POLL_FDS);
  let st := Z.land (status s fd) (Z.lnot (flag_value flag)) in
  let op := if st =? 0 then EPOLL_CTL_DEL else EPOLL_CTL_MOD in
  let ev := events_of st in
  _ ← ensure (negb (bool_decide (flag = CB_RDWR)) || (st =? 0));
  let '(ok, k) := epoll_ctl (interest s) op fd ev in
  _ ← ensure ok;
  Done (st =? 0, mk (<[fd := st]> (fdstatus_ s)) k).

Definition is_watched (s : t) (fd : Z) (flag : poll_flag) : outcome bool :=
  _ ← ensure (fd <? MAX_POLL_FDS);
  Done (Z.land (status s fd) CB_MASK =? flag_value flag).

Definition poll_flag_to_event (flag : poll_flag) : Z :=
  match flag with CB_RDONLY => EPOLLIN | CB_WRONLY => EPOLLOUT | _ => Z.lor EPOLLIN EPOLLOUT end.

(** The rest of [wait_ready], from what [epoll_wait] found: descriptors and their events. *)
Fixpoint wait_ready (ready_ : list (Z * Z)) : list Z * list Z :=
  match ready_ with
  | [] => ([], [])
  | (fd, events) :: ready_ =>
      let '(readable, writable) := wait_ready ready_ in
      ((if Z.land events EPOLLIN =? 0 then readable else fd :: readable),
       (if Z.land events EPOLLOUT =? 0 then writable else fd :: writable))
  end.

End EPollAIO.

Module PollMgr.

(** [callbacks_] holds the object that is called for a descriptor. *)
Record t : Type := mk { callbacks_ : gmap Z nat; aio_ : SelectAIO.t; pending_change_ : bool }.

Definition make (p : Z) : t := mk ∅ (SelectAIO.make p) false.

Definition add_callback (s : t) (fd : Z) (flag : poll_flag) (ch : nat) : outcome t :=
  _ ← ensure (fd <? MAX_POLL_FDS);
  let a := SelectAIO.watch_fd (aio_ s) fd flag in
  _ ← ensure (match callbacks_ s !! fd with None => true | Some c => bool_decide (c = ch) end);
  Done (mk (<[fd := ch]> (callbacks_ s)) a (pending_change_ s)).

(** [block_remove_fd] up to its wait, and after it. *)
Definition block_remove_fd (s : t) (fd : Z) : outcome t :=
  '(_, a) ← SelectAIO.unwatch_fd (aio_ s) fd CB_RDWR; Done (mk (callbacks_ s) a true).
Definition remove_fd_woken (s : t) (fd : Z) : t := mk (delete fd (callbacks_ s)) (aio_ s) (pending_change_ s).

Definition del_callback (s : t) (fd : Z) (flag : poll_flag) : outcome t :=
  '(gone, a) ← SelectAIO.unwatch_fd (aio_ s) fd flag;
  Done (mk (if (gone : bool) then delete fd (callbacks_ s) else callbacks_ s) a (pending_change_ s)).

Definition has_callback (s : t) (fd : Z) (flag : poll_flag) (c : nat) : bool :=
  match callbacks_ s !! fd with
  | Some c' => if bool_decide (c' = c) then SelectAIO.is_watched (aio_ s) fd flag else false
  | None => false
  end.

(** The top of [wait_loop]; the flag says that the removers are woken. *)
Definition wait_loop_top (s : t) : bool * t := (pending_change_ s, mk (callbacks_ s) (aio_ s) false).

(** The calls of one round, those for reading first. *)
Definition calls (r w : list Z) : list (Z * bool) := ((λ fd, (fd, false)) <$> r) ++ ((λ fd, (fd, true)) <$> w).

End PollMgr.

(** ** Two ways to watch descriptors *)

Inductive aio_op : Type := Watch (fd : Z) (flag : poll_flag) | Unwatch (fd : Z) (flag : poll_flag).

Definition select_op (a : SelectAIO.t) (o : aio_op) : outcome (option bool * SelectAIO.t) :=
  match o with
  | Watch fd flag => Done (None, SelectAIO.watch_fd a fd flag)
  | Unwatch fd flag => '(r, a) ← SelectAIO.unwatch_fd a fd flag; Done (Some r, a)
  end.
Definition epoll_op (b : EPollAIO.t) (o : aio_op) : outcome (option bool * EPollAIO.t) :=
  match o with
  | Watch fd flag => b ← EPollAIO.watch_fd b fd flag; Done (None, b)
  | Unwatch fd flag => '(r, b) ← EPollAIO.unwatch_fd b fd flag; Done (Some r, b)
  end.

Fixpoint select_run (a : SelectAIO.t) (ops : list aio_op) : outcome (list (option bool) * SelectAIO.t) :=
  match ops with
  | [] => Done ([], a)
  | o :: ops => '(r, a) ← select_op a o; '(rs, a) ← select_run a ops; Done (r :: rs, a)
  end.
Fixpoint epoll_run (b : EPollAIO.t) (ops : list aio_op) : outcome (list (option bool) * EPollAIO.t) :=
  match ops with
  | [] => Done ([], b)
  | o :: ops => '(r, b) ← epoll_op b o; '(rs, b) ← epoll_run b ops; Done (r :: rs, b)
  end.

Definition op_ok (p : Z) (o : aio_op) : Prop :=
  match o with Watch fd flag | Unwatch fd flag => 0 ≤ fd < MAX_POLL_FDS ∧ fd ≠ p ∧ flag ≠ CB_NONE end.

(** The watched events of a descriptor as a status. *)
Definition status_of (a : SelectAIO.t) (fd : Z) : Z :=
  (if bool_decide (fd ∈ SelectAIO.rfds_ a) then 1 else 0) + (if bool_decide (fd ∈ SelectAIO.wfds_ a) then 16 else 0).

Definition same (p : Z) (a : SelectAIO.t) (b : EPollAIO.t) : Prop :=
  SelectAIO.pipefd a = p ∧
  ∀ fd, fd ≠ p → EPollAIO.status b fd = status_of a fd ∧
    EPollAIO.interest b !! fd = if status_of a fd =? 0 then None else Some (EPollAIO.events_of (status_of a fd)).

Lemma status_insert k i fd st fd' :
  EPollAIO.status (EPollAIO.mk (<[fd := st]> k) i) fd' = if decide (fd' = fd) then st else default 0 (k !! fd').
Proof. unfold EPollAIO.status. cbn. destruct (decide (fd' = fd)) as [->|]; by simplify_map_eq. Qed.

Lemma status_watch a fd flag fd' :
  status_of (SelectAIO.watch_fd a fd flag) fd' =
    if decide (fd' = fd) then Z.lor (status_of a fd) (match flag with CB_NONE => 17 | _ => flag_value flag end)
    else status_of a fd'.
Proof.
  unfold status_of. destruct (decide (fd' = fd)) as [->|N]; destruct flag; cbn; repeat case_bool_decide; set_solver.
Qed.

Lemma status_of_zero a fd :
  (status_of a fd =? 0) = negb (bool_decide (fd ∈ SelectAIO.rfds_ a)) && negb (bool_decide (fd ∈ SelectAIO.wfds_ a)).
Proof. unfold status_of. by repeat case_bool_decide. Qed.

Lemma unwatch_result a fd flag :
  flag ≠ CB_NONE → ∃ a', SelectAIO.unwatch_fd a fd flag = Done (status_of a' fd =? 0, a') ∧
    SelectAIO.pipefd a' = SelectAIO.pipefd a ∧
    ∀ fd', status_of a' fd' =
      if decide (fd' = fd) then Z.land (status_of a fd) (Z.lnot (flag_value flag)) else status_of a fd'.
Proof.
  intros Hf. unfold SelectAIO.unwatch_fd. rewrite (bool_decide_false (flag = CB_NONE)) by done. cbn [negb ensure]. rewrite bind_Done.
  match goal with |- ∃ _, Done (_, ?x) = _ ∧ _ => exists x end. split; [|split; [done|]].
  - by rewrite status_of_zero.
  - intros fd'. unfold status_of. destruct (decide (fd' = fd)) as [->|N]; destruct flag; cbn; repeat case_bool_decide; set_solver.
Qed.

Lemma status_of_cases a fd : status_of a fd = 0 ∨ status_of a fd = 1 ∨ status_of a fd = 16 ∨ status_of a fd = 17.
Proof. unfold status_of. repeat case_bool_decide; auto. Qed.

Lemma status_bits st flag :
  (st = 0 ∨ st = 1 ∨ st = 16 ∨ st = 17) → flag ≠ CB_NONE →
  Z.lor st (flag_value flag) ≠ 0 ∧ (flag = CB_RDWR → Z.lor st (flag_value flag) = 17) ∧
  (flag = CB_RDWR → Z.land st (Z.lnot (flag_value flag)) = 0) ∧
  Z.land st CB_MASK = 0 ∧ flag_value flag ≠ 0 ∧ (st = 0 → Z.land st (Z.lnot (flag_value flag)) = 0).
Proof. intros Hst Hf. repeat destruct Hst as [Hst|Hst]; subst; destruct flag; (done || (vm_compute; repeat split; done)). Qed.

Lemma watch_same p a b fd flag :
  same p a b → op_ok p (Watch fd flag) →
  ∃ b', EPollAIO.watch_fd b fd flag = Done b' ∧ same p (SelectAIO.watch_fd a fd flag) b'.
Proof.
  intros [Hp Hs] (Hm & Hne & Hf). destruct (Hs fd Hne) as [Hst Hi].
  destruct (status_bits (status_of a fd) flag (status_of_cases a fd) Hf) as (H1 & H2 & _).
  unfold EPollAIO.watch_fd. replace (fd <? MAX_POLL_FDS) with true by lia. cbn [ensure]. rewrite bind_Done, Hst. cbv zeta.
  set (st := Z.lor (status_of a fd) (flag_value flag)) in *.
  assert (Hev : ensure (negb (bool_decide (flag = CB_RDWR)) ||
    (EPollAIO.events_of st =? Z.lor EPollAIO.EPOLLET (Z.lor EPollAIO.EPOLLIN EPollAIO.EPOLLOUT))) = Done tt).
  { case_bool_decide as E; [|done]. by rewrite (H2 E). }
  rewrite Hev, bind_Done.
  assert (Hk : EPollAIO.epoll_ctl (EPollAIO.interest b)
    (if status_of a fd =? 0 then EPollAIO.EPOLL_CTL_ADD else EPollAIO.EPOLL_CTL_MOD) fd (EPollAIO.events_of st) =
    (true, <[fd := EPollAIO.events_of st]> (EPollAIO.interest b))).
  { unfold EPollAIO.epoll_ctl. rewrite Hi. by destruct (status_of a fd =? 0). }
  rewrite Hk. cbn [ensure]. rewrite bind_Done. eexists. split; [done|]. split; [by destruct flag|].
  intros fd' N'. rewrite status_watch, status_insert. cbn [EPollAIO.interest].
  destruct (decide (fd' = fd)) as [->|N]; [|by rewrite lookup_insert_ne; [apply Hs|]].
  replace (match flag with CB_NONE => 17 | _ => flag_value flag end) with (flag_value flag) by (by destruct flag).
  fold st. rewrite lookup_insert_eq. split; [done|]. by replace (st =? 0) with false by (symmetry; by apply Z.eqb_neq).
Qed.

Lemma unwatch_same p a b fd flag :
  same p a b → op_ok p (Unwatch fd flag) →
  ∃ r a', SelectAIO.unwatch_fd a fd flag = Done (r, a') ∧
    if status_of a fd =? 0 then EPollAIO.unwatch_fd b fd flag = Throws
    else ∃ b', EPollAIO.unwatch_fd b fd flag = Done (r, b') ∧ same p a' b'.
Proof.
  intros [Hp Hs] (Hm & Hne & Hf). destruct (Hs fd Hne) as [Hst Hi].
  destruct (status_bits (status_of a fd) flag (status_of_cases a fd) Hf) as (_ & _ & H3 & _ & _ & H0).
  destruct (unwatch_result a fd flag Hf) as (a' & Ha & Hp' & Hst'). exists (status_of a' fd =? 0), a'. split; [done|].
  unfold EPollAIO.unwatch_fd. replace (fd <? MAX_POLL_FDS) with true by lia. cbn [ensure]. rewrite bind_Done, Hst. cbv zeta.
  pose proof (Hst' fd) as Hfd. rewrite decide_True in Hfd by done. rewrite <- Hfd in H3, H0 |- *. set (st := status_of a' fd) in *.
  assert (Hev : ensure (negb (bool_decide (flag = CB_RDWR)) || (st =? 0)) = Done tt).
  { case_bool_decide as E; [|done]. by rewrite (H3 E). }
  rewrite Hev, bind_Done. unfold EPollAIO.epoll_ctl. rewrite Hi. destruct (Z.eqb_spec (status_of a fd) 0) as [E0|N0].
  { rewrite (H0 E0). done. }
  destruct (Z.eqb_spec st 0) as [Ez|Nz]; cbn [ensure]; rewrite bind_Done; (eexists; split; [done|]); (split; [congruence|]);
    intros fd' N'; rewrite status_insert, (Hst' fd'); cbn [EPollAIO.interest].
  - destruct (decide (fd' = fd)) as [->|N].
    + rewrite <- Hfd, lookup_delete_eq. by rewrite Ez.
    + rewrite lookup_delete_ne by done. by apply Hs.
  - destruct (decide (fd' = fd)) as [->|N].
    + rewrite <- Hfd, lookup_insert_eq. by replace (st =? 0) with false by lia.
    + rewrite lookup_insert_ne by done. by apply Hs.
Qed.

Lemma same_make p : same p (SelectAIO.make p) EPollAIO.make.
Proof.
  split; [done|]. intros fd N.
  assert (E : status_of (SelectAIO.make p) fd = 0) by (unfold status_of; cbn; repeat case_bool_decide; set_solver).
  rewrite E. split; [by unfold EPollAIO.status; cbn; rewrite lookup_empty|apply lookup_empty].
Qed.

Lemma select_run_app a l k : select_run a (l ++ k) = '(rs, a) ← select_run a l; '(rs', a) ← select_run a k; Done (rs ++ rs', a).
Proof.
  revert a. induction l as [|o l IH]; intros a; cbn [select_run app].
  - rewrite bind_Done. cbv beta iota. by destruct (select_run a k) as [[]| | |].
  - destruct (select_op a o) as [[r a1]| | |]; [|done..]. rewrite !bind_Done. cbv beta iota. rewrite IH.
    destruct (select_run a1 l) as [[rs a2]| | |]; [|done..]. rewrite !bind_Done. cbv beta iota.
    by destruct (select_run a2 k) as [[rs' a3]| | |].
Qed.

Lemma select_total p ops : Forall (op_ok p) ops → ∀ a, ∃ rs a', select_run a ops = Done (rs, a').
Proof.
  induction 1 as [|o ops Ho _ IH]; intros a; [by eexists _, _|]. cbn [select_run].
  destruct o as [fd flag|fd flag]; cbn [select_op].
  - rewrite bind_Done. cbv beta iota. destruct (IH (SelectAIO.watch_fd a fd flag)) as (rs & a' & ->). by eexists _, _.
  - destruct (unwatch_result a fd flag) as (a1 & -> & _); [apply Ho|]. rewrite !bind_Done. cbv beta iota.
    destruct (IH a1) as (rs & a' & ->). by eexists _, _.
Qed.

Lemma runs_same p ops : Forall (op_ok p) ops → ∀ a b, same p a b →
  ∃ rs a', select_run a ops = Done (rs, a') ∧
    ((∃ b', epoll_run b ops = Done (rs, b') ∧ same p a' b') ∨
     (epoll_run b ops = Throws ∧ ∃ l fd flag k rs1 a1, ops = l ++ Unwatch fd flag :: k ∧
        select_run a l = Done (rs1, a1) ∧ status_of a1 fd = 0)).
Proof.
  induction 1 as [|o ops Ho Hops IH]; intros a b Hs; [by eexists _, _; split; [|left; eauto]|].
  cbn [select_run epoll_run].
  destruct o as [fd flag|fd flag]; cbn [select_op epoll_op].
  - destruct (watch_same p a b fd flag Hs Ho) as (b' & -> & Hs'). rewrite !bind_Done. cbv beta iota.
    destruct (IH _ _ Hs') as (rs & a' & Hr & Hor). rewrite Hr, bind_Done. cbv beta iota. eexists _, _. split; [done|].
    destruct Hor as [(b'' & Hb & Hss)|(Hb & l & fd' & flag' & k & rs1 & a1 & -> & Hl & Hz)].
    + left. exists b''. by rewrite Hb.
    + right. rewrite Hb. split; [done|]. exists (Watch fd flag :: l), fd', flag', k. eexists _, a1. split; [done|].
      split; [|done]. cbn [select_run select_op]. rewrite bind_Done. cbv beta iota. by rewrite Hl.
  - destruct (unwatch_same p a b fd flag Hs Ho) as (r & a1 & Ha & Hb). rewrite Ha, !bind_Done. cbv beta iota.
    destruct (Z.eqb_spec (status_of a fd) 0) as [E|N].
    + destruct (select_total p ops Hops a1) as (rs & a' & Hr). rewrite Hr, bind_Done, Hb. eexists _, _. split; [done|]. right. split; [done|].
      exists [], fd, flag, ops, [], a. done.
    + destruct Hb as (b' & -> & Hs'). rewrite !bind_Done. cbv beta iota.
      destruct (IH _ _ Hs') as (rs & a' & Hr & Hor). rewrite Hr, bind_Done. cbv beta iota. eexists _, _. split; [done|].
      destruct Hor as [(b'' & Hbb & Hss)|(Hbb & l & fd' & flag' & k & rs1 & a2 & -> & Hl & Hz)].
      * left. exists b''. by rewrite Hbb.
      * right. rewrite Hbb. split; [done|]. exists (Unwatch fd flag :: l), fd', flag', k. eexists _, a2. split; [done|].
        split; [|done]. cbn [select_run select_op]. rewrite Ha, !bind_Done. cbv beta iota. by rewrite Hl.
Qed.

(** [highfds_] bounds every watched descriptor, so that [select] sees them. *)
Definition high_ok (a : SelectAIO.t) : Prop :=
  0 ≤ SelectAIO.pipefd a ∧ SelectAIO.pipefd a ∈ SelectAIO.rfds_ a ∧
  ∀ fd, fd ∈ SelectAIO.rfds_ a ∪ SelectAIO.wfds_ a → 0 ≤ fd ≤ SelectAIO.highfds_ a.

Lemma newh_bound (r w : gset Z) p n fd :
  0 ≤ fd < Z.of_nat n → fd ∈ r ∪ w → fd ≤ foldl (SelectAIO.newh_round r w) p (seqZ 0 (Z.of_nat n)).
Proof.
  intros Hn Hfd. induction n as [|n IH]; [lia|].
  replace (Z.of_nat (S n)) with (Z.of_nat n + 1) by lia. rewrite seqZ_app, foldl_app by lia. cbn.
  change (seqZ (0 + Z.of_nat n) 1) with [0 + Z.of_nat n]. cbn [foldl]. unfold SelectAIO.newh_round at 1.
  destruct (decide (fd = Z.of_nat n)) as [->|N].
  - repeat case_bool_decide; [lia|lia|set_solver].
  - specialize (IH ltac:(lia)). repeat case_bool_decide; lia.
Qed.

Lemma high_watch a fd flag : high_ok a → 0 ≤ fd → high_ok (SelectAIO.watch_fd a fd flag).
Proof.
  intros (Hp & Hin & Hb) Hfd. assert (Hgo : ∀ fd', fd' ∈ SelectAIO.rfds_ a ∪ SelectAIO.wfds_ a ∪ {[ fd ]} →
    0 ≤ fd' ≤ if SelectAIO.highfds_ a <=? fd then fd else SelectAIO.highfds_ a).
  { intros fd' [H|H]%elem_of_union; [specialize (Hb fd' H)|apply elem_of_singleton in H as ->]; case_test; lia. }
  destruct flag; (split; [done|]); (split; [cbn; set_solver|]); intros fd' H; apply Hgo; cbn in H; set_solver.
Qed.

Lemma high_unwatch a fd flag r a' :
  high_ok a → fd ≠ SelectAIO.pipefd a → SelectAIO.unwatch_fd a fd flag = Done (r, a') → high_ok a'.
Proof.
  intros (Hp & Hin & Hb) N. unfold SelectAIO.unwatch_fd. intros (_ & _ & E)%bind_Done_inv. injection E as _ <-.
  set (rs := match flag with CB_WRONLY => _ | _ => _ end). set (ws := match flag with CB_RDONLY => _ | _ => _ end).
  assert (Hsub : rs ∪ ws ⊆ SelectAIO.rfds_ a ∪ SelectAIO.wfds_ a) by (destruct flag; set_solver).
  split; [done|]. split; [cbn; subst rs; destruct flag; set_solver|]. cbn. intros fd' Hfd'.
  pose proof (Hb fd' (Hsub _ Hfd')) as [H0 H1]. split; [done|].
  destruct (negb _ && negb _ && _); [|done]. unfold SelectAIO.newh.
  replace (SelectAIO.highfds_ a + 1) with (Z.of_nat (Z.to_nat (SelectAIO.highfds_ a + 1))) by lia.
  apply newh_bound; [lia|done].
Qed.

Lemma high_run p ops : Forall (op_ok p) ops → ∀ a rs a',
  high_ok a → SelectAIO.pipefd a = p → select_run a ops = Done (rs, a') → high_ok a'.
Proof.
  induction 1 as [|o ops Ho _ IH]; intros a rs a' Ha Hp; cbn [select_run]; [by intros [= _ <-]|].
  intros ([r a1] & H1 & ([rs1 a2] & H2 & E)%bind_Done_inv)%bind_Done_inv. injection E as _ <-.
  destruct o as [fd flag|fd flag]; cbn [select_op] in H1.
  - injection H1 as _ <-. eapply IH; [| |exact H2]; [|by destruct flag]. apply high_watch; [done|apply Ho].
  - apply bind_Done_inv in H1 as ([r1 a3] & H1 & E). injection E as _ <-.
    destruct (unwatch_result a fd flag) as (a4 & E4 & Hp4 & _); [apply Ho|]. rewrite E4 in H1. injection H1 as _ <-.
    eapply IH; [| |exact H2]; [|by rewrite Hp4]. eapply high_unwatch; [exact Ha| |exact E4]. rewrite Hp. apply Ho.
Qed.

(** The kernel reports input and output only where they are asked for. *)
Definition asked_for (b : EPollAIO.t) (r : Z * Z) : Prop :=
  ∃ i, EPollAIO.interest b !! r.1 = Some i ∧
    Z.land (Z.land r.2 i) EPollAIO.EPOLLIN = Z.land r.2 EPollAIO.EPOLLIN ∧
    Z.land (Z.land r.2 i) EPollAIO.EPOLLOUT = Z.land r.2 EPollAIO.EPOLLOUT.

Lemma events_of_bits a fd :
  (Z.land (EPollAIO.events_of (status_of a fd)) EPollAIO.EPOLLIN = if bool_decide (fd ∈ SelectAIO.rfds_ a) then 1 else 0) ∧
  (Z.land (EPollAIO.events_of (status_of a fd)) EPollAIO.EPOLLOUT = if bool_decide (fd ∈ SelectAIO.wfds_ a) then 4 else 0).
Proof. unfold status_of. by repeat case_bool_decide. Qed.

Lemma ready_watched p a b ready :
  same p a b → Forall (asked_for b) ready →
  (∀ fd, fd ∈ (EPollAIO.wait_ready ready).1 → fd ≠ p → fd ∈ SelectAIO.rfds_ a) ∧
  (∀ fd, fd ∈ (EPollAIO.wait_ready ready).2 → fd ≠ p → fd ∈ SelectAIO.wfds_ a).
Proof.
  intros [_ Hs]. induction ready as [|[f ev] ready IH]; intros Hr; [split; intros fd H; by apply not_elem_of_nil in H|].
  apply Forall_cons in Hr as [(i & Hi & Hin & Hout) Hr]. destruct (IH Hr) as [IHr IHw]. clear IH. cbn [fst snd] in *.
  cbn [EPollAIO.wait_ready]. destruct (EPollAIO.wait_ready ready) as [rd wr]. cbn [fst snd] in *.
  assert (Hf : f ≠ p → i = EPollAIO.events_of (status_of a f)).
  { intros N. destruct (Hs f N) as [_ E]. rewrite E in Hi. destruct (status_of a f =? 0); [done|]. by injection Hi. }
  rewrite <- Z.land_assoc in Hin, Hout.
  split; intros fd Hfd N.
  - destruct (Z.eqb_spec (Z.land ev EPollAIO.EPOLLIN) 0) as [E|E]; [by auto|].
    apply elem_of_cons in Hfd as [->|Hfd]; [|by auto]. rewrite (Hf N) in Hin. destruct (events_of_bits a f) as [H1 _].
    rewrite H1 in Hin. case_bool_decide; [done|]. by rewrite Z.land_0_r in Hin.
  - destruct (Z.eqb_spec (Z.land ev EPollAIO.EPOLLOUT) 0) as [E|E]; [by auto|].
    apply elem_of_cons in Hfd as [->|Hfd]; [|by auto]. rewrite (Hf N) in Hout. destruct (events_of_bits a f) as [_ H2].
    rewrite H2 in Hout. case_bool_decide; [done|]. by rewrite Z.land_0_r in Hout.
Qed.

(** Watching with [epoll] and with [select].  For every sequence of
    operations on other descriptors than the pipe, the [select] version answers
    and keeps every watched descriptor below the bound it gives to [select]; the
    [epoll] version gives the same answers and the kernel watches the same
    events, unless a descriptor is unwatched that is not watched, which stops
    the program; what it finds ready to be read or written is watched for that; and
    its [is_watched] always answers no. *)
Theorem epoll_watches_like_select p ops :
  0 ≤ p → Forall (op_ok p) ops →
  ∃ rs a, select_run (SelectAIO.make p) ops = Done (rs, a) ∧
    (∀ fd, fd ∈ SelectAIO.rfds_ a ∪ SelectAIO.wfds_ a → 0 ≤ fd ≤ SelectAIO.highfds_ a) ∧
    ((∃ b, epoll_run EPollAIO.make ops = Done (rs, b) ∧
        (∀ fd, fd ≠ p → EPollAIO.interest b !! fd =
           if status_of a fd =? 0 then None else Some (EPollAIO.events_of (status_of a fd))) ∧
        (∀ ready, Forall (asked_for b) ready →
           (∀ fd, fd ∈ (EPollAIO.wait_ready ready).1 → fd ≠ p → fd ∈ SelectAIO.rfds_ a) ∧
           (∀ fd, fd ∈ (EPollAIO.wait_ready ready).2 → fd ≠ p → fd ∈ SelectAIO.wfds_ a)) ∧
        (∀ fd flag, fd < MAX_POLL_FDS → fd ≠ p → flag ≠ CB_NONE → EPollAIO.is_watched b fd flag = Done false)) ∨
     (epoll_run EPollAIO.make ops = Throws ∧ ∃ l fd flag k rs1 a1, ops = l ++ Unwatch fd flag :: k ∧
        select_run (SelectAIO.make p) l = Done (rs1, a1) ∧ status_of a1 fd = 0)).
Proof.
  intros Hp Hops. destruct (runs_same p ops Hops _ _ (same_make p)) as (rs & a & Hr & Hor). exists rs, a. split; [done|]. split.
  - eapply (high_run p ops Hops (SelectAIO.make p)); [|done..]. split; [done|]. split; [set_solver|]. cbn.
    intros fd Hfd. assert (fd = p) as -> by set_solver. lia.
  - destruct Hor as [(b & Hb & Hsame)|H]; [left|by right]. exists b. split; [done|].
    pose proof (λ ready, ready_watched p a b ready Hsame) as Hready. destruct Hsame as [_ Hs]. split; [|split; [exact Hready|]].
    + intros fd N. by apply Hs.
    + intros fd flag Hm N Hf. unfold EPollAIO.is_watched. replace (fd <? MAX_POLL_FDS) with true by lia. cbn [ensure].
      rewrite bind_Done. destruct (Hs fd N) as [-> _].
      destruct (status_bits (status_of a fd) flag (status_of_cases a fd) Hf) as (_ & _ & _ & -> & Hfv & _).
      f_equal. apply Z.eqb_neq. done.
Qed.

Lemma epoll_watches_like_select_witness :
  let ops := [Watch 5 CB_RDONLY; Watch 7 CB_RDONLY; Watch 5 CB_WRONLY; Unwatch 5 CB_WRONLY; Unwatch 7 CB_RDWR; Unwatch 7 CB_RDWR] in
  ∃ rs a, select_run (SelectAIO.make 3) ops = Done (rs, a) ∧
    (∀ fd, fd ∈ SelectAIO.rfds_ a ∪ SelectAIO.wfds_ a → 0 ≤ fd ≤ SelectAIO.highfds_ a).
Proof.
  intros ops. destruct (epoll_watches_like_select 3 ops) as (rs & a & H1 & H2 & _).
  - lia.
  - repeat constructor; done || lia.
  - exists rs, a. split; [exact H1|exact H2].
Defined.

(** ** Removing a descriptor while the polling thread runs *)

(** Where [wait_loop] is: at its top, before [wait_ready] copies the sets, in
    [select] on the copies, with the calls still to make, or between the two reads of
    [callbacks_[fd]], of which the first was not null.  Both reads are made without
    the mutex, each at its own moment. *)
Inductive loop_pc : Type :=
  | Top | Ready | Selecting (r w : gset Z) (high : Z) | Calling (todo : list (Z * bool))
  | Checked (fd : Z) (write : bool) (todo : list (Z * bool)).

(** A thread in [block_remove_fd]. *)
Inductive remover : Type := Blocked (fd : Z) (woken : bool) | Returned.
Definition wake_remover (r : remover) : remover := match r with Blocked fd _ => Blocked fd true | Returned => Returned end.

(** [silent] are the descriptors whose removal returned because it was woken and
    that were not added again; [called] is the list of the calls that were made. *)
Record psys : Type := mkSys {
  mgr : PollMgr.t; pc : loop_pc; removers : gmap nat remover; silent : gset Z; called : list (Z * nat)
}.
Definition psys_make (p : Z) : psys := mkSys (PollMgr.make p) Top ∅ ∅ [].

Inductive pevent : Type :=
  | PTop | PSnapshot
  | PSelect (r w : gset Z)                        (* [select] returns; both empty when it was interrupted *)
  | PCall                                         (* the first read of the table, or the end of the round *)
  | PInvoke                                       (* the second read, and the call *)
  | PAdd (fd : Z) (flag : poll_flag) (ch : nat)
  | PDel (fd : Z) (flag : poll_flag)
  | PRemove (i : nat) (fd : Z)
  | PWoken (i : nat)
  | PSpurious (i : nat).                          (* the wait, which has no loop around it, ends without a cause *)

Definition blocked_on (fd : Z) (r : remover) : bool :=
  match r with Blocked fd' _ => bool_decide (fd' = fd) | Returned => false end.

(** A descriptor is not added while it is being removed: it is closed after its
    removal. *)
Definition being_removed (s : psys) (fd : Z) : bool :=
  bool_decide (map_Exists (λ _ r, blocked_on fd r = true) (removers s)).

Definition pstep (s : psys) (e : pevent) : option (outcome psys) :=
  match e with
  | PTop =>
      match pc s with
      | Top =>
          let '(wake, m) := PollMgr.wait_loop_top (mgr s) in
          Some (Done (mkSys m Ready (if wake then wake_remover <$> removers s else removers s) (silent s) (called s)))
      | _ => None
      end
  | PSnapshot =>
      match pc s with
      | Ready =>
          let '(r, w, high) := SelectAIO.snapshot (PollMgr.aio_ (mgr s)) in
          Some (Done (mkSys (mgr s) (Selecting r w high) (removers s) (silent s) (called s)))
      | _ => None
      end
  | PSelect r w =>
      match pc s with
      | Selecting rs ws high =>
          let a := PollMgr.aio_ (mgr s) in
          if bool_decide (r ⊆ rs ∧ w ⊆ ws) && bool_decide (SelectAIO.pipefd a ∈ r → 0 < SelectAIO.piped a) then
            Some ('(readable, writable, a) ← SelectAIO.wait_ready a r w high;
                  Done (mkSys (PollMgr.mk (PollMgr.callbacks_ (mgr s)) a (PollMgr.pending_change_ (mgr s)))
                          (Calling (PollMgr.calls readable writable)) (removers s) (silent s) (called s)))
          else None
      | _ => None
      end
  | PCall =>
      match pc s with
      | Calling [] => Some (Done (mkSys (mgr s) Top (removers s) (silent s) (called s)))
      | Calling ((fd, k) :: todo) =>
          Some (Done (mkSys (mgr s) (match PollMgr.callbacks_ (mgr s) !! fd with Some _ => Checked fd k todo | None => Calling todo end)
                        (removers s) (silent s) (called s)))
      | _ => None
      end
  | PInvoke =>
      match pc s with
      | Checked fd _ todo => Some
          match PollMgr.callbacks_ (mgr s) !! fd with
          | Some c => Done (mkSys (mgr s) (Calling todo) (removers s) (silent s) (called s ++ [(fd, c)]))
          | None => Undef
          end
      | _ => None
      end
  | PAdd fd flag ch =>
      if being_removed s fd then None
      else Some (m ← PollMgr.add_callback (mgr s) fd flag ch;
                 Done (mkSys m (pc s) (removers s) (silent s ∖ {[ fd ]}) (called s)))
  | PDel fd flag =>
      Some (m ← PollMgr.del_callback (mgr s) fd flag;
            Done (mkSys m (pc s) (removers s) (silent s) (called s)))
  | PRemove i fd =>
      match removers s !! i with
      | Some _ => None
      | None =>
          Some (m ← PollMgr.block_remove_fd (mgr s) fd;
                Done (mkSys m (pc s) (<[i := Blocked fd false]> (removers s)) (silent s) (called s)))
      end
  | PWoken i =>
      match removers s !! i with
      | Some (Blocked fd true) =>
          Some (Done (mkSys (PollMgr.remove_fd_woken (mgr s) fd) (pc s) (<[i := Returned]> (removers s))
                        ({[ fd ]} ∪ silent s) (called s)))
      | _ => None
      end
  | PSpurious i =>
      match removers s !! i with
      | Some (Blocked fd false) =>
          Some (Done (mkSys (PollMgr.remove_fd_woken (mgr s) fd) (pc s) (<[i := Returned]> (removers s)) (silent s) (called s)))
      | _ => None
      end
  end.

(** Only removals of other descriptors than the pipe, with callbacks of
    descriptors that are not negative. *)
Definition pevent_ok (p : Z) (e : pevent) : Prop :=
  match e with
  | PAdd fd flag _ => 0 ≤ fd ∧ fd ≠ p
  | PDel fd flag => fd ≠ p ∧ flag ≠ CB_NONE
  | PRemove _ fd => fd ≠ p
  | _ => True
  end.

Inductive pruns (p : Z) : psys → psys → Prop :=
  | pruns_refl s : pruns p s s
  | pruns_step s e s' s'' : pevent_ok p e → pstep s e = Some (Done s') → pruns p s' s'' → pruns p s s''.

(** The descriptors the polling thread may still call. *)
Definition in_flight (pc : loop_pc) : gset Z :=
  match pc with
  | Top | Ready => ∅
  | Selecting r w _ => r ∪ w
  | Calling todo => list_to_set todo.*1
  | Checked fd _ todo => {[ fd ]} ∪ list_to_set todo.*1
  end.

Definition at_select (pc : loop_pc) : bool := match pc with Ready | Selecting _ _ _ => true | _ => false end.

Record pinv (p : Z) (s : psys) : Prop := {
  pi_pipe : SelectAIO.pipefd (PollMgr.aio_ (mgr s)) = p;
  pi_high : high_ok (PollMgr.aio_ (mgr s));
  pi_piped : 0 ≤ SelectAIO.piped (PollMgr.aio_ (mgr s));
  pi_selecting r w high : pc s = Selecting r w high → p ∈ r ∧ ∀ fd, fd ∈ r ∪ w → 0 ≤ fd ≤ high;
  (* a removal that was not seen yet will be *)
  pi_blocked i fd : removers s !! i = Some (Blocked fd false) →
    PollMgr.pending_change_ (mgr s) = true;
  pi_pending : PollMgr.pending_change_ (mgr s) = true → at_select (pc s) = true →
    0 < SelectAIO.piped (PollMgr.aio_ (mgr s));
  pi_unwatched i fd wk : removers s !! i = Some (Blocked fd wk) →
    status_of (PollMgr.aio_ (mgr s)) fd = 0 ∧ fd ≠ p ∧ (wk = true → fd ∉ in_flight (pc s));
  pi_silent fd : fd ∈ silent s →
    PollMgr.callbacks_ (mgr s) !! fd = None ∧ status_of (PollMgr.aio_ (mgr s)) fd = 0 ∧ fd ∉ in_flight (pc s);
}.

Lemma unwatch_piped a fd flag r a' :
  SelectAIO.unwatch_fd a fd flag = Done (r, a') →
  SelectAIO.piped a' = if bool_decide (flag = CB_RDWR) then SelectAIO.piped a + 1 else SelectAIO.piped a.
Proof. unfold SelectAIO.unwatch_fd. intros (_ & _ & E)%bind_Done_inv. by injection E as _ <-. Qed.

Lemma unwatch_flag a fd flag r a' : SelectAIO.unwatch_fd a fd flag = Done (r, a') → flag ≠ CB_NONE.
Proof. by intros H ->. Qed.

Lemma status_zero a fd : status_of a fd = 0 ↔ fd ∉ SelectAIO.rfds_ a ∪ SelectAIO.wfds_ a.
Proof. unfold status_of. repeat case_bool_decide; set_solver. Qed.

(** [unwatch_fd] seen from the invariant. *)
Lemma unwatch_facts p a fd flag r a' :
  high_ok a → SelectAIO.pipefd a = p → fd ≠ p → SelectAIO.unwatch_fd a fd flag = Done (r, a') →
  high_ok a' ∧ SelectAIO.pipefd a' = p ∧ (∀ fd', status_of a fd' = 0 → status_of a' fd' = 0) ∧
  (flag = CB_RDWR → status_of a' fd = 0) ∧ SelectAIO.piped a ≤ SelectAIO.piped a' ∧
  (flag = CB_RDWR → SelectAIO.piped a' = SelectAIO.piped a + 1).
Proof.
  intros Ha Hp N Hu. pose proof (unwatch_flag _ _ _ _ _ Hu) as Hf. pose proof (unwatch_piped _ _ _ _ _ Hu) as Hpi.
  destruct (unwatch_result a fd flag Hf) as (a1 & E & Hp1 & Hst). rewrite E in Hu. injection Hu as Hr ->.
  split; [eapply high_unwatch; [exact Ha|by rewrite Hp|exact E]|]. split; [congruence|]. split.
  - intros fd' H0. rewrite Hst. destruct (decide (fd' = fd)) as [->|]; [by rewrite H0|done].
  - split; [|split].
    + intros ->. rewrite Hst, decide_True by done. cbn.
      destruct (status_of_cases a fd) as [-> |[-> |[-> | ->]]]; reflexivity.
    + rewrite Hpi. case_bool_decide; lia.
    + intros ->. by rewrite Hpi.
Qed.

(** The states that differ in what a remover, or the owner of a descriptor,
    did. *)
Lemma pinv_aio p s a cb pd rm sl :
  pinv p s → SelectAIO.pipefd a = p → high_ok a → SelectAIO.piped (PollMgr.aio_ (mgr s)) ≤ SelectAIO.piped a →
  (PollMgr.pending_change_ (mgr s) = true → pd = true) →
  (pd = true → PollMgr.pending_change_ (mgr s) = true ∨ 0 < SelectAIO.piped a) →
  (∀ i fd, rm !! i = Some (Blocked fd false) → pd = true) →
  (∀ i fd wk, rm !! i = Some (Blocked fd wk) → status_of a fd = 0 ∧ fd ≠ p ∧ (wk = true → fd ∉ in_flight (pc s))) →
  (∀ fd, fd ∈ sl → cb !! fd = None ∧ status_of a fd = 0 ∧ fd ∉ in_flight (pc s)) →
  pinv p (mkSys (PollMgr.mk cb a pd) (pc s) rm sl (called s)).
Proof.
  intros Hi Hp Hh Hpi Hpd Hpd2 Hb Hu Hs. split; cbn; try done.
  - pose proof (pi_piped p s Hi). lia.
  - apply (pi_selecting p s Hi).
  - intros Ht Hat. destruct (Hpd2 Ht) as [Hold|]; [|done]. pose proof (pi_pending p s Hi Hold Hat). lia.
Qed.

Lemma not_being_removed s i fd r : being_removed s fd = false → removers s !! i = Some r → blocked_on fd r = false.
Proof.
  unfold being_removed. intros H%bool_decide_eq_false Hi. destruct (blocked_on fd r) eqn:E; [|done].
  destruct H. by exists i, r.
Qed.

Lemma pinv_add p s fd flag ch m :
  pinv p s → 0 ≤ fd → fd ≠ p → being_removed s fd = false → PollMgr.add_callback (mgr s) fd flag ch = Done m →
  pinv p (mkSys m (pc s) (removers s) (silent s ∖ {[ fd ]}) (called s)).
Proof.
  intros Hi H0 N Hnb. unfold PollMgr.add_callback. intros (_ & _ & (_ & _ & E)%bind_Done_inv)%bind_Done_inv.
  injection E as <-. apply pinv_aio; try done.
  - rewrite <- (pi_pipe p s Hi). by destruct flag.
  - apply high_watch; [apply Hi|done].
  - destruct flag; cbn; lia.
  - auto.
  - intros i fd'. apply (pi_blocked p s Hi).
  - intros i fd' wk Hf. rewrite status_watch, decide_False; [by apply (pi_unwatched p s Hi i)|].
    intros ->. pose proof (not_being_removed s i fd _ Hnb Hf) as Hb. cbn in Hb. by rewrite bool_decide_true in Hb.
  - intros fd' [Hfd Hne%not_elem_of_singleton]%elem_of_difference. rewrite lookup_insert_ne by done.
    rewrite status_watch, decide_False by done. by apply (pi_silent p s Hi).
Qed.

Lemma pinv_del p s fd flag m :
  pinv p s → fd ≠ p → PollMgr.del_callback (mgr s) fd flag = Done m →
  pinv p (mkSys m (pc s) (removers s) (silent s) (called s)).
Proof.
  intros Hi N. unfold PollMgr.del_callback. intros ([gone a] & Hu & E)%bind_Done_inv. injection E as <-.
  destruct (unwatch_facts p _ _ _ _ _ (pi_high p s Hi) (pi_pipe p s Hi) N Hu) as (H1 & H2 & H3 & _ & H4 & _).
  apply pinv_aio; try done.
  - auto.
  - apply (pi_blocked p s Hi).
  - intros i fd' wk Hf. destruct (pi_unwatched p s Hi i fd' wk Hf) as (? & ? & ?). auto.
  - intros fd' Hf. destruct (pi_silent p s Hi fd' Hf) as (Hc & ? & ?). split; [|auto].
    destruct gone; [|done]. destruct (decide (fd = fd')) as [->|]; [apply lookup_delete_eq|by rewrite lookup_delete_ne].
Qed.

Lemma pinv_remove p s i fd m :
  pinv p s → fd ≠ p → PollMgr.block_remove_fd (mgr s) fd = Done m →
  pinv p (mkSys m (pc s) (<[i := Blocked fd false]> (removers s)) (silent s) (called s)).
Proof.
  intros Hi N. unfold PollMgr.block_remove_fd. intros ([gone a] & Hu & E)%bind_Done_inv. injection E as <-.
  destruct (unwatch_facts p _ _ _ _ _ (pi_high p s Hi) (pi_pipe p s Hi) N Hu) as (H1 & H2 & H3 & H5 & H4 & H6).
  apply pinv_aio; try done.
  - intros _. right. rewrite H6 by done. pose proof (pi_piped p s Hi). lia.
  - intros j fd' wk Hf. destruct (decide (j = i)) as [->|Nj].
    + rewrite lookup_insert_eq in Hf. injection Hf as <- <-. split; [auto|done].
    + rewrite lookup_insert_ne in Hf by done. destruct (pi_unwatched p s Hi j fd' wk Hf) as (? & ? & ?). auto.
  - intros fd' Hf. destruct (pi_silent p s Hi fd' Hf) as (Hc & ? & ?). auto.
Qed.

Lemma pinv_woken p s i fd :
  pinv p s → removers s !! i = Some (Blocked fd true) →
  pinv p (mkSys (PollMgr.remove_fd_woken (mgr s) fd) (pc s) (<[i := Returned]> (removers s)) ({[ fd ]} ∪ silent s) (called s)).
Proof.
  intros Hi Hr. apply pinv_aio; try done; [apply (pi_pipe p s Hi)|apply (pi_high p s Hi)|auto|..].
  - intros j fd'. rewrite lookup_insert. case_decide; [done|]. apply (pi_blocked p s Hi).
  - intros j fd' wk. rewrite lookup_insert. case_decide; [done|]. apply (pi_unwatched p s Hi).
  - intros fd' [->%elem_of_singleton|Hf]%elem_of_union.
    + split; [apply lookup_delete_eq|]. destruct (pi_unwatched p s Hi i fd true Hr) as (? & ? & ?). auto.
    + destruct (pi_silent p s Hi fd' Hf) as (Hc & ? & ?). split; [|auto].
      destruct (decide (fd = fd')) as [->|]; [apply lookup_delete_eq|by rewrite lookup_delete_ne].
Qed.

Lemma pinv_spurious p s i fd :
  pinv p s → removers s !! i = Some (Blocked fd false) →
  pinv p (mkSys (PollMgr.remove_fd_woken (mgr s) fd) (pc s) (<[i := Returned]> (removers s)) (silent s) (called s)).
Proof.
  intros Hi Hr. apply pinv_aio; try done; [apply (pi_pipe p s Hi)|apply (pi_high p s Hi)|auto|..].
  - intros j fd'. rewrite lookup_insert. case_decide; [done|]. apply (pi_blocked p s Hi).
  - intros j fd' wk. rewrite lookup_insert. case_decide; [done|]. apply (pi_unwatched p s Hi).
  - intros fd' Hf. destruct (pi_silent p s Hi fd' Hf) as (Hc & ? & ?). split; [|auto].
    destruct (decide (fd = fd')) as [->|]; [apply lookup_delete_eq|by rewrite lookup_delete_ne].
Qed.

(** The steps of the polling thread only take descriptors out of its hands,
    but for the copy of the sets. *)
Lemma pinv_top p s :
  pinv p s → pc s = Top →
  pinv p (mkSys (PollMgr.mk (PollMgr.callbacks_ (mgr s)) (PollMgr.aio_ (mgr s)) false) Ready
    (if PollMgr.pending_change_ (mgr s) then wake_remover <$> removers s else removers s) (silent s) (called s)).
Proof.
  intros Hi Hpc.
  assert (Hl : ∀ i r, (if PollMgr.pending_change_ (mgr s) then wake_remover <$> removers s else removers s) !! i = Some r →
    ∃ r0, removers s !! i = Some r0 ∧ r = if PollMgr.pending_change_ (mgr s) then wake_remover r0 else r0).
  { intros i r. destruct (PollMgr.pending_change_ _); [|naive_solver]. rewrite lookup_fmap.
    destruct (removers s !! i); cbn; naive_solver. }
  split; cbn; [apply (pi_pipe p s Hi)|apply (pi_high p s Hi)|apply (pi_piped p s Hi)|done| |done| |].
  - intros i fd (r0 & Hr & E)%Hl. destruct (PollMgr.pending_change_ (mgr s)) eqn:Ep; [by destruct r0|]. subst r0.
    pose proof (pi_blocked p s Hi i fd Hr). congruence.
  - intros i fd wk (r0 & Hr & E)%Hl. assert (∃ wk0, r0 = Blocked fd wk0) as [wk0 ->].
    { destruct (PollMgr.pending_change_ _), r0; simplify_eq/=; eauto. }
    destruct (pi_unwatched p s Hi i fd wk0 Hr) as (? & ? & _). set_solver.
  - intros fd Hf. destruct (pi_silent p s Hi fd Hf) as (? & ? & _). set_solver.
Qed.

Lemma pinv_snapshot p s :
  pinv p s → pc s = Ready →
  let a := PollMgr.aio_ (mgr s) in
  pinv p (mkSys (mgr s) (Selecting (SelectAIO.rfds_ a) (SelectAIO.wfds_ a) (SelectAIO.highfds_ a)) (removers s) (silent s) (called s)).
Proof.
  intros Hi Hpc a. destruct (pi_high p s Hi) as (Hp0 & Hpin & Hb). rewrite (pi_pipe p s Hi) in *.
  split; cbn; [apply (pi_pipe p s Hi)|apply (pi_high p s Hi)|apply (pi_piped p s Hi)| |apply (pi_blocked p s Hi)| | |].
  - intros r w high [= <- <- <-]. split; [done|exact Hb].
  - intros Hp _. apply (pi_pending p s Hi Hp). by rewrite Hpc.
  - intros i fd wk Hr. destruct (pi_unwatched p s Hi i fd wk Hr) as (Hz & ? & _). split; [done|]. split; [done|].
    intros _. by apply status_zero.
  - intros fd Hf. destruct (pi_silent p s Hi fd Hf) as (? & Hz & _). split; [done|]. split; [done|]. by apply status_zero.
Qed.

(** Calling on the same poll manager with less in hand. *)
Lemma pinv_less p s a pc' cl :
  pinv p s → in_flight pc' ⊆ in_flight (pc s) → (∀ r w high, pc' ≠ Selecting r w high) → at_select pc' = false →
  SelectAIO.pipefd a = p → high_ok a → 0 ≤ SelectAIO.piped a →
  (∀ fd, status_of (PollMgr.aio_ (mgr s)) fd = 0 → status_of a fd = 0) →
  pinv p (mkSys (PollMgr.mk (PollMgr.callbacks_ (mgr s)) a (PollMgr.pending_change_ (mgr s))) pc' (removers s) (silent s) cl).
Proof.
  intros Hi Hsub Hns Hat Hp Hh Hpi Hst. split; cbn; try done.
  - intros r w high Hpc. by destruct (Hns r w high).
  - apply (pi_blocked p s Hi).
  - congruence.
  - intros i fd wk Hr. destruct (pi_unwatched p s Hi i fd wk Hr) as (Hz & ? & Hfl). split; [auto|]. split; [done|]. set_solver.
  - intros fd Hf. destruct (pi_silent p s Hi fd Hf) as (? & Hz & ?). split; [done|]. split; [auto|]. set_solver.
Qed.

Lemma wait_ready_facts a r w high :
  high_ok a → 0 ≤ SelectAIO.piped a → (SelectAIO.pipefd a ∈ r → 0 < SelectAIO.piped a) →
  ∃ rd wr a', SelectAIO.wait_ready a r w high = Done (rd, wr, a') ∧ SelectAIO.pipefd a' = SelectAIO.pipefd a ∧
    high_ok a' ∧ 0 ≤ SelectAIO.piped a' ∧ (∀ fd, status_of a' fd = status_of a fd) ∧
    list_to_set (PollMgr.calls rd wr).*1 ⊆ r ∪ w.
Proof.
  intros Hh Hpi Hr. unfold SelectAIO.wait_ready.
  set (woken := bool_decide (SelectAIO.pipefd a ∈ r) && (0 <=? SelectAIO.pipefd a) && (SelectAIO.pipefd a <=? high)).
  assert (Hw : woken = true → 0 < SelectAIO.piped a).
  { unfold woken. case_bool_decide; [auto|done]. }
  assert (He : ensure (negb woken || (0 <? SelectAIO.piped a)) = Done tt).
  { destruct woken; [|done]. by replace (0 <? SelectAIO.piped a) with true by (symmetry; apply Z.ltb_lt; auto). }
  rewrite He, bind_Done. eexists _, _, _. split; [done|].
  assert (Hc : list_to_set (PollMgr.calls
    (filter (λ fd, negb ((fd =? SelectAIO.pipefd a) && bool_decide (fd ∈ r)) = true ∧ fd ∈ r) (seqZ 0 (high + 1)))
    (filter (λ fd, negb ((fd =? SelectAIO.pipefd a) && bool_decide (fd ∈ r)) = true ∧ fd ∈ w) (seqZ 0 (high + 1)))).*1 ⊆ r ∪ w).
  { unfold PollMgr.calls. rewrite fmap_app, <- !list_fmap_compose. intros fd Hfd.
    rewrite elem_of_list_to_set, elem_of_app, !list_elem_of_fmap in Hfd.
    destruct Hfd as [(x & -> & [[_ Hx] _]%list_elem_of_filter)|(x & -> & [[_ Hx] _]%list_elem_of_filter)]; set_solver. }
  destruct woken; (split; [done|]); (split; [exact Hh|]); (split; [|split; [done|exact Hc]]); cbn; [|done].
  specialize (Hw eq_refl). lia.
Qed.

Lemma poll_inv_step p s e s' : pinv p s → pevent_ok p e → pstep s e = Some (Done s') → pinv p s'.
Proof.
  intros Hi He. assert (Hm : mgr s = PollMgr.mk (PollMgr.callbacks_ (mgr s)) (PollMgr.aio_ (mgr s)) (PollMgr.pending_change_ (mgr s)))
    by (by destruct (mgr s)).
  destruct e as [| |r w| | |fd flag ch|fd flag|i fd|i|i]; cbn [pstep].
  - destruct (pc s) eqn:Hpc; try done. intros [= <-]. by apply pinv_top.
  - destruct (pc s) eqn:Hpc; try done. intros [= <-]. by apply pinv_snapshot.
  - destruct (pc s) as [| |rs ws high| |] eqn:Hpc; try done. case_bool_decide as H1; [|done]. case_bool_decide as H2; [|done].
    cbn [andb]. destruct (wait_ready_facts _ r w high (pi_high p s Hi) (pi_piped p s Hi) H2) as (rd & wr & a' & E & Hp & Hh & Hpi & Hst & Hc).
    rewrite E, bind_Done. intros [= <-]. apply pinv_less; try done.
    + rewrite Hpc. destruct H1. etrans; [exact Hc|]. by apply union_mono.
    + by rewrite Hp, (pi_pipe p s Hi).
    + intros fd. by rewrite Hst.
  - destruct (pc s) as [| | |[|[fd k] todo]|] eqn:Hpc; try done; intros [= <-]; rewrite Hm at 1;
      [|destruct (PollMgr.callbacks_ (mgr s) !! fd)]; apply pinv_less;
      (done || exact (pi_pipe p s Hi) || exact (pi_high p s Hi) || exact (pi_piped p s Hi) || (rewrite Hpc; cbn; set_solver)).
  - destruct (pc s) as [| | | |fd k todo] eqn:Hpc; try done. destruct (PollMgr.callbacks_ (mgr s) !! fd); [|done].
    intros [= <-]. rewrite Hm at 1. apply pinv_less;
      (done || exact (pi_pipe p s Hi) || exact (pi_high p s Hi) || exact (pi_piped p s Hi) || (rewrite Hpc; cbn; set_solver)).
  - destruct (being_removed s fd) eqn:Hb; [done|]. intros (m & Hm' & E)%(inj Some)%bind_Done_inv. injection E as <-.
    destruct He. by eapply pinv_add.
  - intros (m & Hm' & E)%(inj Some)%bind_Done_inv. injection E as <-. destruct He. by eapply pinv_del.
  - destruct (removers s !! i) eqn:Hr; [done|]. intros (m & Hm' & E)%(inj Some)%bind_Done_inv. injection E as <-. by eapply pinv_remove.
  - destruct (removers s !! i) as [[fd []|]|] eqn:Hr; try done. intros [= <-]. by apply pinv_woken.
  - destruct (removers s !! i) as [[fd []|]|] eqn:Hr; try done. intros [= <-]. by apply pinv_spurious.
Qed.

Lemma poll_inv_make p : 0 ≤ p → pinv p (psys_make p).
Proof.
  intros Hp. split; cbn; try done.
  - split; [done|]. split; [set_solver|]. cbn. intros fd Hfd. assert (fd = p) as -> by set_solver. lia.
Qed.

Lemma silent_step p s e s' fd :
  pinv p s → fd ∈ silent s → pstep s e = Some (Done s') → ∃ l, called s' = called s ++ l ∧ fd ∉ l.*1.
Proof.
  intros Hi Hf. destruct (pi_silent p s Hi fd Hf) as (Hc & _ & Hfl).
  assert (Hnil : ∃ l, called s = called s ++ l ∧ fd ∉ l.*1) by (exists []; rewrite app_nil_r; set_solver).
  destruct e as [| |r w| | |fd' flag ch|fd' flag|i fd'|i|i]; cbn [pstep].
  - destruct (pc s); try done. intros [= <-]; exact Hnil.
  - destruct (pc s); try done. intros [= <-]; exact Hnil.
  - destruct (pc s); try done. destruct (_ && _); [|done]. intros ([[rd wr] a] & _ & E)%(inj Some)%bind_Done_inv. injection E as <-; exact Hnil.
  - destruct (pc s) as [| | |[|[fd' k] todo]|]; try done; intros [= <-]; exact Hnil.
  - destruct (pc s) as [| | | |fd' k todo] eqn:Hpc; try done. destruct (PollMgr.callbacks_ (mgr s) !! fd') as [c|]; [|done].
    intros [= <-]. cbn in Hfl |- *. exists [(fd', c)]. split; [done|]. set_solver.
  - destruct (being_removed s fd'); [done|]. intros (m & _ & E)%(inj Some)%bind_Done_inv. injection E as <-; exact Hnil.
  - intros (m & _ & E)%(inj Some)%bind_Done_inv. injection E as <-; exact Hnil.
  - destruct (removers s !! i); [done|]. intros (m & _ & E)%(inj Some)%bind_Done_inv. injection E as <-; exact Hnil.
  - destruct (removers s !! i) as [[fd' []|]|]; try done. intros [= <-]; exact Hnil.
  - destruct (removers s !! i) as [[fd' []|]|]; try done. intros [= <-]; exact Hnil.
Qed.

Lemma only_pipe_ready a p high :
  SelectAIO.pipefd a = p → ∀ rd wr a', SelectAIO.wait_ready a {[ p ]} ∅ high = Done (rd, wr, a') → PollMgr.calls rd wr = [].
Proof.
  intros Hp rd wr a'. unfold SelectAIO.wait_ready. intros (_ & _ & E)%bind_Done_inv. injection E as <- <- _.
  unfold PollMgr.calls.
  assert (H : ∀ (P : Z → Prop) `{!∀ x, Decision (P x)} l, (∀ x, ¬ P x) → filter P l = []).
  { intros P ? l HP. induction l as [|x l IH]; [done|]. by rewrite filter_cons_False. }
  rewrite !H; [done|set_solver|]. intros x [Hx ->%elem_of_singleton]. rewrite Hp, Z.eqb_refl in Hx.
  rewrite bool_decide_true in Hx by set_solver. done.
Qed.

Lemma removal_announced p s i fd :
  pinv p s → removers s !! i = Some (Blocked fd false) →
  (∀ r w high, pc s = Selecting r w high → ∃ s', pstep s (PSelect {[ p ]} ∅) = Some (Done s') ∧ pc s' = Calling []) ∧
  (pc s = Top → ∃ s', pstep s PTop = Some (Done s') ∧ removers s' !! i = Some (Blocked fd true)).
Proof.
  intros Hi Hb. pose proof (pi_blocked p s Hi i fd Hb) as Hpd. split.
  - intros r w high Hpc. destruct (pi_selecting p s Hi r w high Hpc) as [Hpr _].
    assert (Hpi : 0 < SelectAIO.piped (PollMgr.aio_ (mgr s))) by (apply (pi_pending p s Hi Hpd); by rewrite Hpc).
    cbn [pstep]. rewrite Hpc. rewrite bool_decide_true by set_solver. rewrite bool_decide_true by done. cbn [andb].
    destruct (wait_ready_facts (PollMgr.aio_ (mgr s)) {[ p ]} ∅ high (pi_high p s Hi) (pi_piped p s Hi)) as (rd & wr & a' & E & _); [done|].
    rewrite E, bind_Done. eexists. split; [done|]. cbn. f_equal. by eapply only_pipe_ready; [apply (pi_pipe p s Hi)|].
  - intros Hpc. cbn [pstep]. rewrite Hpc. unfold PollMgr.wait_loop_top. rewrite Hpd. eexists. split; [done|]. cbn.
    by rewrite lookup_fmap, Hb.
Qed.

(** C26: After [block_remove_fd] was woken and has returned, a descriptor is silent,
    and it is woken.  In every state of the polling thread, whose reads of the table
    are without the mutex, and of threads that add, delete and remove callbacks,
    removals that wake without a cause included: a descriptor whose removal returned
    because it was woken and that was not added again has no callback, is not
    watched, and no step calls a callback for it; a removal that waits is announced by
    [pending_change_], and the polling thread, should it be in [select], finds the pipe
    readable, so that it gets to the top of its loop, where it wakes every removal,
    whose descriptor it does not have in hand any more.  (A removal that wakes without
    a cause returns early: [early_removal].) *)
Theorem removal_is_final p s :
  0 ≤ p → pruns p (psys_make p) s →
  (∀ fd, fd ∈ silent s → PollMgr.callbacks_ (mgr s) !! fd = None ∧ status_of (PollMgr.aio_ (mgr s)) fd = 0 ∧
    ∀ e s', pevent_ok p e → pstep s e = Some (Done s') → ∃ l, called s' = called s ++ l ∧ fd ∉ l.*1) ∧
  (∀ i fd, removers s !! i = Some (Blocked fd false) →
    PollMgr.pending_change_ (mgr s) = true ∧
    (∀ r w high, pc s = Selecting r w high → ∃ s', pstep s (PSelect {[ p ]} ∅) = Some (Done s') ∧ pc s' = Calling []) ∧
    (pc s = Top → ∃ s', pstep s PTop = Some (Done s') ∧ removers s' !! i = Some (Blocked fd true))) ∧
  (∀ i fd, removers s !! i = Some (Blocked fd true) → fd ∉ in_flight (pc s)).
Proof.
  intros Hp Hr. assert (Hi : pinv p s).
  { pose proof (poll_inv_make p Hp) as H0. induction Hr as [|s1 e s2 s3 He Hs _ IH]; [done|]. by apply IH, (poll_inv_step p s1 e). }
  split; [|split].
  - intros fd Hf. destruct (pi_silent p s Hi fd Hf) as (Hc & Hz & Hfl). split; [done|]. split; [done|].
    intros e s' _. by apply (silent_step p).
  - intros i fd Hb. split; [by eapply pi_blocked|]. by apply (removal_announced p s i fd).
  - intros i fd Hb. by apply (pi_unwatched p s Hi i fd true Hb).
Qed.

(** A removal while the polling thread is in [select] on the descriptor, which
    is also ready: one last call, then silence. *)
Definition demo_events : list pevent :=
  [PAdd 5 CB_RDONLY 1; PTop; PSnapshot; PRemove 0 5; PSelect {[ 3; 5 ]} ∅; PCall; PInvoke; PCall; PTop; PWoken 0].
Fixpoint prun (s : psys) (es : list pevent) : option psys :=
  match es with
  | [] => Some s
  | e :: es => match pstep s e with Some (Done s') => prun s' es | _ => None end
  end.

Lemma prun_pruns p es : ∀ s s', Forall (pevent_ok p) es → prun s es = Some s' → pruns p s s'.
Proof.
  induction es as [|e es IH]; intros s s' Hes; cbn [prun]; [intros [= ->]; constructor|].
  apply Forall_cons in Hes as [He Hes]. destruct (pstep s e) as [[s1| | |]|] eqn:E; try done.
  intros H. eapply pruns_step; [exact He|exact E|by apply IH].
Qed.

(** A removal that wakes without a cause returns while the polling thread still has
    the descriptor in hand.  When it comes between the two reads of the table, a null
    pointer is called; and when the number of the descriptor is used again at once, the
    callback of the new one is called although nothing is ready for it. *)
Lemma early_removal :
  let before := [PAdd 5 CB_RDONLY 1; PTop; PSnapshot; PRemove 0 5; PSelect {[ 3; 5 ]} ∅] in
  (∃ s, prun (psys_make 3) (before ++ [PCall; PSpurious 0]) = Some s ∧ removers s !! 0%nat = Some Returned ∧ pstep s PInvoke = Some Undef) ∧
  (∃ s, prun (psys_make 3) (before ++ [PSpurious 0; PAdd 5 CB_RDONLY 2; PCall; PInvoke]) = Some s ∧ called s = [(5, 2%nat)]).
Proof. split; (eexists; split; [vm_compute; reflexivity|]); [split|]; vm_compute; reflexivity. Qed.

Definition demo_end : psys := default (psys_make 3) (prun (psys_make 3) demo_events).

Lemma removal_is_final_witness :
  called demo_end = [(5, 1%nat)] ∧ silent demo_end = {[ 5 ]} ∧
  PollMgr.callbacks_ (mgr demo_end) !! 5 = None ∧ status_of (PollMgr.aio_ (mgr demo_end)) 5 = 0.
Proof.
  split; [vm_compute; reflexivity|]. split; [vm_compute; reflexivity|].
  destruct (removal_is_final 3 demo_end) as (H & _ & _).
  - lia.
  - apply (prun_pruns 3 demo_events); [repeat constructor; done|]. vm_compute. reflexivity.
  - destruct (H 5) as (H1 & H2 & _); [vm_compute; reflexivity|]. split; [exact H1|exact H2].
Defined.
